(* ===== verification/_CoqProject ===== *)
-Q . S2P
Prelude.v
Refinement.v
Hash.v
RobinHood.v
RobinHoodLayout.v
RobinHoodInv.v
RobinHoodMap.v
RobinHoodOps.v
RobinHoodSpec.v
RobinHoodTheorems.v
Memory.v
MemorySpec.v
Vector.v
VectorSpec.v
VectorTheorems.v
ExcMachine.v
Unwind.v
UnwindSpec.v
UnwindTheorems.v
Catch.v
FrameHandler4.v
FrameHandler4Spec.v
FrameHandler3.v
CatchSpec.v
Dispatch.v
ExcTheorems.v
DispatchTheorems.v
ExceptionPool.v
ExceptionBase.v
ExceptionTheorems.v
Algorithms.v
StringView.v
StringTheorems.v
WinntString.v
WinntStringSpec.v
WinntStringOps.v
WinntStringLife.v
WinntStringContract.v
WinntStringTheorems.v
SharedPtr.v
SharedPtrSpec.v
SharedPtrOps.v
SharedPtrTheorems.v
Locks.v
LocksSpec.v
LocksTheorems.v
SpinLock.v
Guards.v
CondVar.v
Startup.v
StartupTheorems.v
Optional.v
OptionalTheorems.v
Heap.v
HeapTheorems.v
BulkPool.v
BulkPoolSpec.v
BulkPoolOps.v
HeapBlocks.v
BulkPoolTheorems.v
Ratio.v
Chrono.v
ChronoTheorems.v
Threads.v
ThreadsTheorems.v
NodeTable.v
NodeTableOps.v
NodeTableErase.v
NodePool.v
NodeTableTheorems.v
UniquePtr.v
IntrusivePtr.v
Atomics.v
WinntStringReads.v
Ranges.v
Construction.v
