(* ===== verification/Prelude.v ===== *)
(** * KTL: a verification development of the Kernel Template Library

    KTL is a C++ runtime and standard-library subset for Windows kernel drivers.
    Two thirds of its own logic are containers and algorithms (src/include), the
    rest is the runtime (src/runtime): an x64 C++ exception engine that reads the
    compiler's unwind tables, exception objects with a memory reserve, and start-up
    code.  The development models the code function by function, with the source's
    names, in an outcome monad ([M], below): a normal return, a C++ exception with
    the state it leaves behind, undefined behaviour ([Fault]) or an exhausted step
    budget ([Diverge]).  A theorem that an operation returns [Ok] therefore also says
    that no pointer leaves its allocation, that no dead object is used and that the
    loops end.

    ** Parts and files

    - Prelude: machine integers with their wrap-around, little-endian words, outcomes
      and the monad, tactics.  Refinement: the class [Implements], a state machine
      that implements a contract, and its client, a sequence of operations; counting
      the entries of a map that satisfy a predicate.
    - Hash table (include/hash_table_impl.hpp, hash.hpp; the flat layout of
      unordered_flat_map and unordered_flat_set).  Hash: [hash_bytes], [hash_int] and
      unaligned loads.  RobinHood: the record [Table] (mKeyVals, mInfo, mNumElements,
      mMask, mMaxNumElementsAllowed, mInfoInc, mInfoHashShift) and the member
      functions.  RobinHoodLayout (with the info bytes and the
      probing loops), RobinHoodInv: the layout invariant and its preservation.
      RobinHoodMap (with growth), RobinHoodOps (with iteration), RobinHoodSpec (with the
      operations on whole tables): the operations as operations of a finite map.  RobinHoodTheorems: the properties.
    - Vector (include/vector.hpp) on object storage (include/memory.hpp,
      memory_impl.hpp, algorithm.hpp).  Memory: slots that are raw, moved from or
      hold a value, and the loops that construct, destroy, copy, move, shift, rotate
      and fill.  MemorySpec: their effects.  Vector, VectorSpec, VectorTheorems: the
      record [vec], the member functions, their effects, the contract on lists.
    - Exception engine (runtime/src/exc_engine).  ExcMachine: memory, the register
      context, the machine frame, [catch_info] and the driver's image and functions as
      the class [program].  Unwind (unwind_handler.cpp): function lookup and unwind
      codes.  Catch (catch.cpp, throw.cpp): matching of catch blocks and ownership of
      exception objects.  FrameHandler4 and FrameHandler3 (frame_handler4.cpp,
      frame_handler3.cpp): the table readers and the handlers.  Dispatch (catch.cpp):
      the search through the stack and the probe for a rethrown exception, which call
      the handlers of the frames and are called back by them.  UnwindSpec,
      FrameHandler4Spec, CatchSpec: reference definitions (prologues, table encoder)
      and lemmas.  UnwindTheorems, ExcTheorems, DispatchTheorems: the properties.
    - Exception objects (runtime/src/exception.cpp, heap.cpp).  ExceptionPool: the
      reserve of eight slots, with a step relation for threads that use it at the
      same time.  ExceptionBase: reference-counted messages on top of the reserve.
      ExceptionTheorems: the properties.
    - Algorithms (runtime/include/algorithm_impl.hpp, include/algorithm.hpp): searches
      that only read.  StringView (include/string_view.hpp, string_fwd.hpp,
      string_algorithm_impl.hpp, runtime/include/char_traits_impl.hpp): views of
      counted kernel strings with 16-bit byte counts.  StringTheorems: the properties.
    - Owning strings (include/string.hpp).  WinntString: the record [winnt_string], a
      counted string with an inner buffer, its text in [location]s of a store of
      blocks, and the member functions.  WinntStringSpec: the text of a valid string
      and the effect of the character loops.  WinntStringOps, WinntStringLife: the
      operations on one string and those that create, copy and destroy strings.
      WinntStringContract: the contract on texts; WinntStringTheorems: the properties.
      WinntStringReads: comparison, operators and searching, with their properties.
    - Shared ownership (include/smart_pointer.hpp).  SharedPtr: pointers, blocks of
      counters and objects whose members are pointers.  SharedPtrSpec: how many
      pointers refer to a block; cascades of destructions.
      SharedPtrOps: taking and moving references.  SharedPtrTheorems: the properties.
    - Locks (include/mutex.hpp, src/mutex.cpp).  Locks: [lock_impl] and [scoped_lock] as
      programs of threads whose requests to a lockable object are single steps.
      LocksSpec: what a thread holds at each point, by weakest preconditions.
      SpinLock: spin locks and the interrupt level they raise.  Guards: unique_lock and
      shared_lock with the account of the lock they manage.  LocksTheorems: the properties of
      Locks; SpinLock and Guards end with theirs.
    - Condition variables (include/condition_variable.hpp, src/condition_variable.cpp).
      CondVar: the counter of waiting threads and the event, threads interleaved, and the
      properties.
    - Start and stop (runtime/src/basic_runtime.cpp, preload_initializer.cpp,
      minifilter.cpp, object_management.cpp, array_unwind.cpp).  Startup: driver entry and
      unload, constructors and destructors of global objects, the registry of
      initialisers, arrays.  StartupTheorems: the properties.
    - Optional values (include/optional.hpp).  Optional: objects named by number, each a
      flag and a storage that holds an object or none, and the member functions with the
      element type's operations, which may throw, as parameters.  OptionalTheorems: the
      contract on optional values, the well-formedness of objects, the properties.
    - Heap (runtime/src/heap.cpp, new_delete.cpp, include/allocator.hpp).  Heap: the
      kernel's pool of blocks, aligned and over-aligned allocation, the operators new and
      delete with their new-handler, the allocator that asks for the size of its
      objects.  HeapTheorems: the properties.
    - Pool allocator of the table's nodes (hash_table_impl.hpp, BulkPoolAllocator).
      BulkPool: the free list threaded through the cells of chunks that come from a heap,
      which is the class [bytes_heap] with the laws [bytes_heap_laws].  BulkPoolSpec,
      BulkPoolOps: the cells a pool owns and the operations.  HeapBlocks: the allocator
      of Heap is such a heap.  BulkPoolTheorems: the properties.
    - Node layout of the table (hash_table_impl.hpp; unordered_node_map and
      unordered_node_set).  NodeTable: a slot points to a cell of a pool, which is the class
      [cell_pool] with the laws [cell_pool_laws]; the operations on pointers are those of
      RobinHood.  NodeTableOps, NodeTableErase: the cells of the entries and the
      operations.  NodePool: the pool of BulkPool is such a pool.  NodeTableTheorems: the
      properties, for the table alone and for the table on the heap of the library.
    - Time (include/ratio.hpp, chrono.hpp).  Ratio: fractions in lowest terms, computed by
      the compiler, in the monad [ceval] of values, undefined behaviour and programs that do
      not compile, and their properties.  Chrono: durations of integers, their conversions,
      arithmetic, rounding and comparison, time points, clocks.  ChronoTheorems: the
      properties.
    - Threads (include/thread.hpp, src/thread.cpp).  Threads: waiting requests, objects that
      hold a reference to a kernel thread, creation with the tuple of arguments, the
      routines of the three classes of threads; the kernel is the environment.
      ThreadsTheorems: the properties, over all interleavings.

    - Unique and intrusive pointers (include/smart_pointer.hpp).  UniquePtr: pointers with a
      deleter, which is the class [deleter] with the laws [deleter_laws], the account of the
      resources, the guard of temporary memory on the allocators of Heap as an instance, and
      the properties.  IntrusivePtr: pointers to objects that count their references, which
      are the class [ref_countable] with its laws, the account of the references and the
      properties.
    - Construction in raw storage (include/memory.hpp).  Construction: the loops that construct
      objects when constructors may throw, with the helper that undoes them, and the
      properties; Memory has the same functions for constructors that do not throw.
    - Further algorithms and arrays (include/algorithm.hpp, array.hpp).  Ranges: rotation and
      reversal for iterators weaker than pointers, on the buffers of Memory, lexicographic
      comparison, arrays, and the properties.
    - Atomic objects (include/atomic.hpp).  Atomics: memory orders, integral atomics on top of
      the interlocked functions, which are the class [interlocked] with its laws, but for those
      of one byte, which the runtime writes itself (runtime/include/intrinsic.hpp), the lock of
      atomics of other sizes as a state machine, and the properties.

    ** What the theorems show

    - Refinement: the table implements a finite map, the vector a list, the strings
      texts, the exception objects independent messages, for every sequence of the operations
      that the contract of each admits ([list_ok], [text_ok], [exc_supported]).  What the
      contracts leave out is where the code does something else: copies of a value inserted
      into a vector at the end or written with [memset], insertions inside a string that
      grows, a string appended to itself, texts beyond the limits of growth, messages of
      exceptions from wide strings or at odd addresses; a theorem shows each of them.
    - The table: lookup, insertion, erasure, iteration, copying, comparison and
      rehashing are correct; there is always an empty slot before the sentinel; the
      word-at-a-time loops equal their byte-wise definitions.
    - The vector: the strong exception guarantee for these operations.  The strings: every block
      has one owner, also after an exception.
    - Shared pointers: no sequence of operations uses a destroyed object, the counters
      count the pointers, cascades of destructions end.
    - The engine: unwinding inverts a prologue, the binary search over the function
      table equals a linear scan, the FH4 integers are decoded, destructors run once
      each and innermost first, a catch block takes exactly the exceptions it names,
      an exception object is handed over or destroyed once, the search walks the call
      chain through frames that push registers and allocate stack space.
    - The reserve: blocks in use are distinct while one thread uses it.  Strings: comparison is lexicographic and so are
      the operators, but equality with a native string, which never returns.
    - Locking several objects: threads that use [lock] exclude each other and some thread
      can always go on, so no set of them deadlocks.  Spin locks restore the interrupt
      level.  A guard that keeps the rules releases what it acquired.  The counter of a
      condition variable is bounded, a notification wakes a blocked thread.
    - A start that fails undoes what it did, if no more destructors and initialisers are
      registered than there is room for; an unload reverses a start; an array is constructed
      completely or not at all.
    - Optional values: every sequence of operations on several objects implements optional
      values, also when constructors and assignments of the elements throw, except for
      constructors that throw in [emplace] on a full optional, and for conversions
      ([optional_ok]).
    - The heap: a block that operator new returns is aligned as asked and operator delete
      gives back exactly what the kernel's pool handed out.  The pool allocator: the cells in
      use lie in the chunks it owns, do not overlap and are handed out once.
    - The node layout: it implements a finite map as the flat layout does; the cells in use
      are those of the entries; its destructor returns all memory.
    - Time: ratios are compared exactly with 128-bit products, conversions between durations
      are exact up to the rounding that their name says, the steady clock does not overflow
      where the direct product would.
    - Threads: every reference to a kernel thread and every tuple of arguments is released
      exactly once, whatever the order of the operations and of the threads.
    - Unique and intrusive pointers: whatever the program does, every resource has one owner and
      every reference is counted, also when adding a reference throws.  Atomics: for each size
      what arithmetic stores and returns, which is the wrong value for one byte, where it
      overflows and where it has no program; whom the universal lock excludes.
    - Construction in raw storage constructs all objects or none, but for default construction
      without an allocator, which destroys storage that holds no object.
    - Algorithms: rotation with forward iterators exchanges the parts but returns another
      position; the comparison of pointer ranges orders elements with their bytes swapped.
    - Where the code does not do what its interface promises, a theorem says so: an
      insertion that loses entries, a failed allocation that leaves an invalid table,
      copy assignment of a vector that runs out of its source, operands that are
      misread, an inverted [ends_with], insertions into strings that lose characters,
      a terminator behind the end of a message, races in the reserve and in the
      [lock] of a weak pointer, a notification that no thread receives, an interrupt level
      that a scoped lock lowers too early, an unload that calls itself, an element that
      [emplace] destroys twice, an operator new that promises null and retries for ever,
      two keys in one cell after an insertion without memory, a guarded thread that
      terminates, and others.

    ** Bounds, fuel and parameters

    Machine words are [Z] with explicit wrap-around.  Loops over a table carry one
    step more than the table has info bytes, loops over a range one step more than its
    length: each step moves forward and a read behind the end is a [Fault], so the
    theorems show that the budgets suffice.  The loops of the dispatcher and of the
    FH3 tables end only by finding a handler or by a bug check, or when a table is
    well formed; they take the number of steps as an argument and the theorems give a
    number that is enough.  A cascade of destructions carries one level more than there
    are blocks of counters; the loop that locks several objects has a number of rounds as
    an argument.  The threads that lock and wait are
    programs that take steps without a bound.  [KtlDriverUnload], which may call itself,
    takes the number of calls.  Parameters: the hasher and the sizes of the element types,
    whether an allocation succeeds, the kernel's pool (blocks are aligned and do not
    overlap), the driver that links the library (its image, its functions and which
    handler stands at which address, its entry point), the kernel's spin-lock and filter
    functions, the text of string literals, the new-handler, the deleters of unique pointers,
    the reference counts of intrusive objects, the interlocked functions of the kernel and the
    compiler, the conversion of wide texts to the code page of the system, what a block holds
    when it is handed out.  Constructors of element types
    do not throw in the containers; those of the elements of optional values and of objects
    constructed in raw storage (Construction) may.  Operator
    new takes the number of times it may call its handler; releasing a pool takes a bound on
    the number of its chunks, which the number of operations before it is.  The compiler instantiates
    a greatest common divisor to a depth of at most 130 ([gcd_depth]): its arguments have 63
    bits and every second step halves them.

    ** Not modelled

    Copies and moves of tables in the node layout, [swap] and initializer lists of the
    containers; shared pointers with user-supplied deleters; priorities and identifiers of
    threads and the locks that only forward to a kernel object; tuple; durations of
    floating-point numbers; members of atomics that do not compile (stores, arithmetic on
    pointers, sizes other than 1, 2, 4 and 8) and fences; weak memory orders (atomic accesses
    are sequentially consistent); the assembly that captures the context (its effect is the
    initial state of the engine); the lock-free queue (modules/lockfree), none of whose operations
    has a meaning: they store to atomics, which does not compile, and pack a pointer and a
    counter with a shift that is undefined; the vendored fmt library; type-level code; tests. *)
From Stdlib Require Import ZArith Lia.
From stdpp Require Import base list gmap numbers.

(** ** Machine integers

    A [w]-bit unsigned integer is a [Z] in [[0, 2^w)]; every C++ operation that
    can wrap is written with [wrap]. *)

Declare Scope ktl_scope.
Delimit Scope ktl_scope with ktl.
#[local] Open Scope Z_scope.

Definition wrap (w x : Z) : Z := x mod 2 ^ w.
Abbreviation u8 := (wrap 8).
Abbreviation u16 := (wrap 16).
Abbreviation u32 := (wrap 32).
Abbreviation u64 := (wrap 64).

(** Reinterpretation of a [w]-bit pattern as a two's complement value. *)
Definition signed (w x : Z) : Z :=
  let u := wrap w x in if u <? 2 ^ (w - 1) then u else u - 2 ^ w.

Definition is_byte (b : Z) : Prop := 0 <= b < 256.

#[global] Instance is_byte_dec b : Decision (is_byte b).
Proof. unfold is_byte; apply _. Defined.

Lemma wrap_small w x : 0 <= x < 2 ^ w -> wrap w x = x.
Proof. intros; unfold wrap; by apply Z.mod_small. Qed.

Lemma wrap_range w x : 0 <= w -> 0 <= wrap w x < 2 ^ w.
Proof. intros; unfold wrap; apply Z.mod_pos_bound, Z.pow_pos_nonneg; lia. Qed.

Lemma wrap_idemp w x : wrap w (wrap w x) = wrap w x.
Proof. unfold wrap; apply Zmod_mod. Qed.

(** ** Little-endian words *)

Fixpoint le_bytes (n : nat) (x : Z) : list Z :=
  match n with
  | O => []
  | S n => x mod 256 :: le_bytes n (x / 256)
  end.

Fixpoint le_word (l : list Z) : Z :=
  match l with
  | [] => 0
  | b :: l => b + 256 * le_word l
  end.

Lemma length_le_bytes n x : length (le_bytes n x) = n.
Proof. revert x; induction n; intros; simpl; auto. Qed.

Lemma le_bytes_0 n : le_bytes n 0 = replicate n 0.
Proof. induction n; simpl; [done|]. by rewrite Z.mod_0_l, Z.div_0_l, IHn by lia. Qed.

Lemma le_bytes_bytes n x : Forall is_byte (le_bytes n x).
Proof.
  revert x; induction n; intros; simpl; constructor; auto.
  unfold is_byte; apply Z.mod_pos_bound; lia.
Qed.

Lemma le_word_bound l : Forall is_byte l -> 0 <= le_word l < 256 ^ Z.of_nat (length l).
Proof.
  induction 1 as [|b l Hb Hl IH]; simpl length; [simpl; lia|].
  rewrite Nat2Z.inj_succ, Z.pow_succ_r by lia.
  unfold is_byte in Hb; simpl; lia.
Qed.

Lemma le_bytes_word l : Forall is_byte l -> le_bytes (length l) (le_word l) = l.
Proof.
  unfold is_byte.
  induction 1 as [|b l Hb Hl IH]; simpl; [done|].
  rewrite (Z.mul_comm 256), Z_mod_plus_full, Z.mod_small by lia.
  rewrite Z.div_add, Z.div_small, Z.add_0_l by lia. by rewrite IH.
Qed.

Lemma le_word_le_bytes n x :
  le_word (le_bytes n x) = x mod 256 ^ Z.of_nat n.
Proof.
  revert x; induction n as [|n IH]; intros x; simpl le_bytes; simpl le_word.
  - by rewrite Z.mod_1_r.
  - rewrite IH, Nat2Z.inj_succ, Z.pow_succ_r by lia.
    rewrite Z.rem_mul_r by lia. lia.
Qed.

(** ** Outcomes of effectful operations

    [Ok s a] is a normal return in state [s]; [Throw s e] is a C++ exception
    leaving the object in state [s]; [Fault] is undefined behaviour (a read or a
    write outside an allocation, or of a dead object); [Diverge] means that the
    step budget of a loop was exhausted. *)

Inductive BugCheckReason :=
  | CorruptedPeHeader
  | UnwindOnUnsafeException | InvalidTargetUnwind | CorruptedFunctionUnwindState
  | CorruptedEhUnwindData | CorruptedExceptionState
  | UnwindingNonCxxFrame
  | SehHandlerNotInSafeseh | CorruptedMachineState | DestructorThrewDuringUnwind
  | CorruptedExceptionRegistrationChain | NoexceptViolation
  | ExceptionSpecificationNotSupported | CorruptedExceptionHandler
  | NoMatchingExceptionHandler
  | BufferSecurityCheckFailure
  | DestroyingJoinableThread
  | AssertionFailure | ForbiddenCall | StdAbort.

#[global] Instance BugCheckReason_eq_dec : EqDecision BugCheckReason.
Proof. solve_decision. Defined.

(** [terminated r] is not an exception a program can catch: it records that the
    code set the termination context with reason [r] and called [terminate()],
    which ends in a bug check. *)
Inductive exn :=
  | bad_alloc | length_error | out_of_range | overflow_error | kernel_error
  | runtime_error | invalid_argument | bad_weak_ptr | bad_optional_access
  | terminated (r : BugCheckReason).

#[global] Instance exn_eq_dec : EqDecision exn.
Proof. solve_decision. Defined.

Inductive outcome (S A : Type) : Type :=
  | Ok (s : S) (a : A)
  | Throw (s : S) (e : exn)
  | Fault
  | Diverge.
Arguments Ok {S A} s a.
Arguments Throw {S A} s e.
Arguments Fault {S A}.
Arguments Diverge {S A}.

Definition M (S A : Type) : Type := S -> outcome S A.

#[global] Instance M_ret S : MRet (M S) := fun A a s => Ok s a.
#[global] Instance M_bind S : MBind (M S) := fun A B k m s =>
  match m s with
  | Ok s' a => k a s'
  | Throw s' e => Throw s' e
  | Fault => Fault
  | Diverge => Diverge
  end.

Section monad.
Context {S A B : Type}.

Definition get : M S S := fun s => Ok s s.
Definition put (s : S) : M S unit := fun _ => Ok s tt.
Definition modify (f : S -> S) : M S unit := fun s => Ok (f s) tt.
Definition throw (e : exn) : M S A := fun s => Throw s e.
Definition fault : M S A := fun _ => Fault.
Definition diverge : M S A := fun _ => Diverge.

(** A value that may be absent because the access is out of bounds. *)
Definition access (o : option A) : M S A :=
  match o with Some a => mret a | None => fault end.

(** An exception that leaves a function declared noexcept ends the program. *)
Definition noexcept (m : M S A) : M S A := fun s =>
  match m s with
  | Throw s' _ => Throw s' (terminated NoexceptViolation)
  | r => r
  end.

Lemma ret_bind (a : A) (k : A -> M S B) s : (mret a ≫= k) s = k a s.
Proof. done. Qed.

Lemma access_bind (a : A) (k : A -> M S B) s : (access (Some a) ≫= k) s = k a s.
Proof. done. Qed.

Lemma bind_Ok (m : M S A) (k : A -> M S B) s s' a :
  m s = Ok s' a -> (m ≫= k) s = k a s'.
Proof. unfold mbind, M_bind; by intros ->. Qed.

Lemma bind_Throw (m : M S A) (k : A -> M S B) s s' e :
  m s = Throw s' e -> (m ≫= k) s = Throw s' e.
Proof. unfold mbind, M_bind; by intros ->. Qed.

Lemma bind_inv_Ok (m : M S A) (k : A -> M S B) s s'' b :
  (m ≫= k) s = Ok s'' b -> exists s' a, m s = Ok s' a /\ k a s' = Ok s'' b.
Proof. unfold mbind, M_bind; destruct (m s) eqn:E; intros; try done; eauto. Qed.
End monad.

(** The operation returns normally or throws: no undefined behaviour, and the
    step budget of its loops is never exhausted. *)
Definition safe {S A} (o : outcome S A) : Prop :=
  match o with Ok _ _ | Throw _ _ => True | Fault | Diverge => False end.

(** The operation is safe, and a normal return satisfies [Q]. *)
Definition post {S A} (o : outcome S A) (Q : S -> A -> Prop) : Prop :=
  match o with Ok s a => Q s a | Throw _ _ => True | Fault | Diverge => False end.

Lemma post_safe {S A} (o : outcome S A) Q : post o Q -> safe o.
Proof. by destruct o. Qed.

Lemma post_mono {S A} (o : outcome S A) (Q Q' : S -> A -> Prop) :
  post o Q -> (forall s a, Q s a -> Q' s a) -> post o Q'.
Proof. destruct o; simpl; auto. Qed.

Lemma post_bind {S A B} (m : M S A) (k : A -> M S B) s Q Q' :
  post (m s) Q' -> (forall s' a, Q' s' a -> post (k a s') Q) -> post ((m ≫= k) s) Q.
Proof. unfold mbind, M_bind. destruct (m s); simpl; auto. Qed.

(** ** Tactics and hints *)

Create HintDb ktl.
#[export] Hint Resolve length_le_bytes le_bytes_bytes : ktl.
Create Rewrite HintDb ktl_simpl.
#[export] Hint Rewrite length_le_bytes @length_insert @length_replicate : ktl_simpl.

(** Boolean comparisons in hypotheses and goal become propositions. *)
Ltac zbool :=
  repeat match goal with
  | H : (_ <? _) = true |- _ => apply Z.ltb_lt in H
  | H : (_ <? _) = false |- _ => apply Z.ltb_ge in H
  | H : (_ <=? _) = true |- _ => apply Z.leb_le in H
  | H : (_ <=? _) = false |- _ => apply Z.leb_gt in H
  | H : (_ =? _) = true |- _ => apply Z.eqb_eq in H
  | H : (_ =? _) = false |- _ => apply Z.eqb_neq in H
  end.

(** Case analysis on an integer test of the goal. *)
Ltac ztest :=
  match goal with
  | |- context [if ?a <? ?b then _ else _] => destruct (Z.ltb_spec a b)
  | |- context [if ?a <=? ?b then _ else _] => destruct (Z.leb_spec a b)
  | |- context [if ?a =? ?b then _ else _] => destruct (Z.eqb_spec a b)
  end.

(** Evaluate one monadic step whose result is known. *)
Ltac step H := erewrite bind_Ok by exact H; simpl.

(** Linear arithmetic with division and modulo by constants. *)
Ltac zdiv := Z.to_euclidean_division_equations; lia.
