(* ===== verification/Refinement.v ===== *)
(** * Implementing an abstract data type

    [Implements step spec] states that a component with state [S] implements
    the contract [spec], a function on abstract values: an operation that does
    not throw has the effect and the result of the contract, has no undefined
    behaviour and terminates.  The client of this file, a sequence of
    operations, is proved against the interface only.  At the end: counting the entries
    of a finite map. *)
From Stdlib Require Import ZArith Lia.
From stdpp Require Import base list gmap numbers.
From S2P Require Import Prelude.

Class Implements {S A Op R : Type} (step : Op -> M S R) (spec : Op -> A -> A * R) := {
  (** The component is in a valid state that represents the value. *)
  represents : S -> A -> Prop;
  (** What the contract requires of the caller. *)
  supported : Op -> A -> Prop;
  implements_step o s a :
    represents s a -> supported o a ->
    post (step o s) (fun s' r => represents s' (spec o a).1 /\ r = (spec o a).2);
}.

Section client.
Context {S A Op R : Type}.

(** A sequence of operations, and the same sequence of the contract. *)
Fixpoint run_ops (step : Op -> M S R) (os : list Op) : M S (list R) :=
  match os with
  | [] => mret []
  | o :: os => r ← step o; rs ← run_ops step os; mret (r :: rs)
  end.

Fixpoint run_spec (spec : Op -> A -> A * R) (os : list Op) (a : A) : A * list R :=
  match os with
  | [] => (a, [])
  | o :: os => let s := spec o a in let q := run_spec spec os s.1 in (q.1, s.2 :: q.2)
  end.

(** Every operation is supported where it is called. *)
Fixpoint supported_run (ok : Op -> A -> Prop) (spec : Op -> A -> A * R) (os : list Op) (a : A) : Prop :=
  match os with
  | [] => True
  | o :: os => ok o a /\ supported_run ok spec os (spec o a).1
  end.

#[global] Instance supported_run_dec ok `{forall o a, Decision (ok o a)} spec os a :
  Decision (supported_run ok spec os a).
Proof. revert a. induction os as [|o os IH]; intros a; simpl; apply _. Defined.

(** A sequence that throws does so in one of its operations. *)
Lemma run_ops_throws (step : Op -> M S R) os s s' e :
  run_ops step os s = Throw s' e ->
  exists o t t', o ∈ os /\ step o t = Throw t' e.
Proof.
  revert s; induction os as [|o os IH]; intros s H; [done|].
  cbn [run_ops] in H. unfold mbind, M_bind in H.
  destruct (step o s) as [t r|t x| |] eqn:E; simplify_eq.
  - destruct (run_ops step os t) as [| t2 x2 | |] eqn:E2; simplify_eq/=.
    destruct (IH _ E2) as (o' & u & u' & Hin & Hu). exists o', u, u'. split; [by right|done].
  - exists o, s, s'. split; [by left|done].
Qed.

Lemma run_ops_refines `{Implements S A Op R step spec} os s a :
  represents s a -> supported_run supported spec os a ->
  post (run_ops step os s) (fun s' rs =>
    represents s' (run_spec spec os a).1 /\ rs = (run_spec spec os a).2).
Proof.
  revert s a. induction os as [|o os IH]; intros s a Hs Hok; [done|].
  destruct Hok as [Ho Hos]. cbn [run_ops run_spec].
  eapply post_bind; [by apply implements_step|]. intros s' r [Hs' ->].
  eapply post_bind; [by apply IH|]. intros s'' rs [Hs'' ->]. done.
Qed.

End client.

(** ** Counting the entries of a finite map

    Reference counts are numbers of entries with a property: of the objects that share
    a message, of the pointers to a block, of the guards that own a mutex. *)

Section matching.
Context `{Countable K} {A : Type} (P : K * A -> Prop) `{!forall x, Decision (P x)}.

Definition matching (m : gmap K A) : nat := size (filter P m).
Definition counted (x : K * A) : nat := if decide (P x) then 1 else 0.

Lemma matching_empty : matching ∅ = 0.
Proof. unfold matching. by rewrite map_filter_empty, map_size_empty. Qed.

Lemma matching_le m : matching m <= size m.
Proof. apply map_size_filter. Qed.

Lemma matching_insert_new m k x : m !! k = None ->
  matching (<[k := x]> m) = counted (k, x) + matching m.
Proof.
  intros Hk. unfold matching, counted. case_decide as Hx.
  - rewrite map_filter_insert_True by done. rewrite map_size_insert_None; [lia|].
    by apply map_lookup_filter_None; left.
  - rewrite map_filter_insert_False by done. by rewrite delete_id.
Qed.

Lemma matching_delete m k x : m !! k = Some x ->
  matching m = counted (k, x) + matching (delete k m).
Proof.
  intros Hk. rewrite <- (insert_delete_id m k x Hk) at 1.
  apply matching_insert_new, lookup_delete_eq.
Qed.

Lemma matching_insert m k x y : m !! k = Some x ->
  matching (<[k := y]> m) + counted (k, x) = counted (k, y) + matching m.
Proof.
  intros Hk. rewrite (matching_delete m k x Hk), <- (insert_delete_eq m k y).
  rewrite matching_insert_new by apply lookup_delete_eq. lia.
Qed.

Lemma matching_pos m : 0 < matching m <-> exists k x, m !! k = Some x /\ P (k, x).
Proof.
  unfold matching. split.
  - intros Hm. destruct (map_choose (filter P m)) as (k & x & Hx).
    { intros E. rewrite E, map_size_empty in Hm. lia. }
    exists k, x. by apply map_lookup_filter_Some in Hx.
  - intros (k & x & Hx). rewrite <- (map_lookup_filter_Some P) in Hx.
    assert (size (filter P m) <> 0); [|lia].
    intros E. apply map_size_empty_inv in E. by rewrite E in Hx.
Qed.
End matching.
