(* ===== verification/Hash.v ===== *)
(** * Hash functions of include/hash.hpp and the unaligned loads of
    include/utility.hpp

    64-bit words are [Z] values in [[0, 2^64)]; memory is a list of bytes. *)
From Stdlib Require Import ZArith Lia.
From stdpp Require Import base list numbers.
From S2P Require Import Prelude.
#[local] Open Scope Z_scope.

(** [rotr<uint64_t>]: [(x >> k) | (x << (64 - k))]. *)
Definition rotr (x k : Z) : Z :=
  Z.lor (Z.shiftr x k) (u64 (Z.shiftl x (64 - k))).

(** [unaligned_load<uint64_t>(p + i)]: [None] when one of the eight bytes lies
    outside the memory block. *)
Definition unaligned_load (mem : list Z) (i : nat) : option Z :=
  if decide (i + 8 <= length mem)%nat
  then Some (le_word (take 8 (drop i mem))) else None.

(** [memcpy(p + i, &val, sizeof(val))]. *)
Definition store64 (mem : list Z) (i : nat) (v : Z) : option (list Z) :=
  if decide (i + 8 <= length mem)%nat
  then Some (take i mem ++ le_bytes 8 v ++ drop (i + 8) mem) else None.

(** [hash_int]. *)
Definition hash_int (x : Z) : Z :=
  let h1 := u64 (x * 0xA24BAED4963EE407) in
  let h2 := u64 (rotr x 32 * 0x9FB21C651E98DF25) in
  rotr (u64 (h1 + h2)) 32.

(** [hash_bytes]: the block loop. *)
Definition hash_m : Z := 0xc6a4a7935bd1e995.
Definition hash_seed : Z := 0xe17a1465.

Definition hash_block (h k : Z) : Z :=
  let k := u64 (k * hash_m) in
  let k := Z.lxor k (Z.shiftr k 47) in
  let k := u64 (k * hash_m) in
  u64 (Z.lxor h k * hash_m).

(** The loop [for (i = 0; i < n_blocks; ++i)]; [None] is a load outside the
    buffer. *)
Fixpoint hash_blocks (mem : list Z) (i n : nat) (h : Z) : option Z :=
  match n with
  | O => Some h
  | S n => k ← unaligned_load mem (8 * i); hash_blocks mem (S i) n (hash_block h k)
  end.

(** The [switch (len & 7)] with its fall-through cases: case [r] xors in the
    bytes [r-1 .. 0] of the tail, case 1 multiplies. *)
Fixpoint hash_tail (tail : list Z) (r : nat) (h : Z) : option Z :=
  match r with
  | O => Some h
  | S r' =>
      b ← tail !! r';
      let h := Z.lxor h (Z.shiftl b (8 * Z.of_nat r')) in
      if decide (r' = O) then Some (u64 (h * hash_m)) else hash_tail tail r' h
  end.

Definition hash_finish (h : Z) : Z :=
  let h := Z.lxor h (Z.shiftr h 47) in
  let h := u64 (h * hash_m) in
  Z.lxor h (Z.shiftr h 47).

Definition hash_bytes (mem : list Z) (len : nat) : option Z :=
  let h := Z.lxor hash_seed (u64 (Z.of_nat len * hash_m)) in
  let n_blocks := (len / 8)%nat in
  h ← hash_blocks mem 0 n_blocks h;
  h ← hash_tail (drop (8 * n_blocks) mem) (len mod 8) h;
  Some (hash_finish h).

(** ** Range of the hashes *)

Lemma lor_range w a b : 0 <= w -> 0 <= a < 2 ^ w -> 0 <= b < 2 ^ w -> 0 <= Z.lor a b < 2 ^ w.
Proof.
  intros Hw Ha Hb. split; [apply Z.lor_nonneg; lia|].
  destruct (Z.eq_dec (Z.lor a b) 0) as [->|Hne]; [apply Z.pow_pos_nonneg; lia|].
  assert (0 <= Z.lor a b) by (apply Z.lor_nonneg; lia).
  apply Z.log2_lt_pow2; [lia|]. rewrite Z.log2_lor by lia.
  destruct (Z.eq_dec a 0) as [->|], (Z.eq_dec b 0) as [->|];
    rewrite ?Z.lor_0_l, ?Z.lor_0_r in *; try lia; simpl (Z.log2 0).
  - rewrite Z.max_r by apply Z.log2_nonneg. apply Z.log2_lt_pow2; lia.
  - rewrite Z.max_l by apply Z.log2_nonneg. apply Z.log2_lt_pow2; lia.
  - apply Z.max_lub_lt; apply Z.log2_lt_pow2; lia.
Qed.

Lemma lxor_range w a b : 0 <= w -> 0 <= a < 2 ^ w -> 0 <= b < 2 ^ w -> 0 <= Z.lxor a b < 2 ^ w.
Proof.
  intros Hw Ha Hb. split; [apply Z.lxor_nonneg; lia|].
  destruct (Z.eq_dec (Z.lxor a b) 0) as [->|Hne]; [apply Z.pow_pos_nonneg; lia|].
  assert (0 <= Z.lxor a b) by (apply Z.lxor_nonneg; lia).
  apply Z.log2_lt_pow2; [lia|].
  eapply Z.le_lt_trans; [apply Z.log2_lxor; lia|].
  assert (forall x, 0 <= x < 2 ^ w -> x = 0 \/ Z.log2 x < w) as Hlog.
  { intros x ?. destruct (Z.eq_dec x 0); [by left|right; apply Z.log2_lt_pow2; lia]. }
  destruct (Hlog a Ha) as [->|], (Hlog b Hb) as [->|];
    rewrite ?Z.lxor_0_l, ?Z.lxor_0_r in *; try (simpl (Z.log2 0); apply Z.max_lub_lt); try lia.
  all: destruct (Z.eq_dec w 0) as [->|]; simpl in *; lia.
Qed.

Lemma shiftr_range w x k : 0 <= k -> 0 <= x < 2 ^ w -> 0 <= Z.shiftr x k < 2 ^ w.
Proof.
  intros Hk Hx. rewrite Z.shiftr_div_pow2 by lia.
  assert (0 < 2 ^ k) by (apply Z.pow_pos_nonneg; lia).
  split; [apply Z.div_pos; lia|].
  apply Z.div_lt_upper_bound; nia.
Qed.

Lemma rotr_range x k : 0 <= k <= 64 -> 0 <= x < 2 ^ 64 -> 0 <= rotr x k < 2 ^ 64.
Proof.
  intros Hk Hx. apply lor_range; [lia|apply shiftr_range; lia|apply wrap_range; lia].
Qed.

Lemma hash_int_range x : 0 <= hash_int x < 2 ^ 64.
Proof. apply rotr_range; [lia|apply wrap_range; lia]. Qed.

Lemma hash_finish_range h : 0 <= h < 2 ^ 64 -> 0 <= hash_finish h < 2 ^ 64.
Proof.
  intros Hh. apply lxor_range; [lia|apply wrap_range; lia|].
  apply shiftr_range; [lia|apply wrap_range; lia].
Qed.

(** Rotation by 32 is undone by rotation by 32: [hash_int] loses no bit in its
    rotations. *)
Lemma rotr32_involutive x : 0 <= x < 2 ^ 64 -> rotr (rotr x 32) 32 = x.
Proof.
  intros Hx. unfold rotr, wrap.
  rewrite <- !Z.land_ones by lia.
  assert (forall m, 64 <= m -> Z.testbit x m = false) as Hhi.
  { intros m Hm. destruct (Z.eq_dec x 0) as [->|]; [apply Z.bits_0|].
    apply Z.bits_above_log2; [lia|]. assert (Z.log2 x < 64) by (apply Z.log2_lt_pow2; lia). lia. }
  apply Z.bits_inj'; intros n Hn.
  rewrite Z.lor_spec, Z.land_spec, Z.shiftr_spec, Z.shiftl_spec, Z.testbit_ones_nonneg by lia.
  change (64 - 32) with 32.
  rewrite (Z.lor_spec _ _ (n + 32)), Z.land_spec, Z.shiftr_spec, Z.shiftl_spec by lia.
  rewrite (Z.testbit_ones_nonneg 64 (n + 32)) by lia.
  replace (n + 32 - 32) with n by lia. rewrite (Hhi (n + 32 + 32)) by lia.
  destruct (Z.ltb_spec n 32).
  - rewrite (Z.testbit_neg_r _ (n - 32)) by lia.
    destruct (Z.ltb_spec (n + 32) 64); [|lia]. by rewrite andb_true_r, orb_false_r.
  - destruct (Z.ltb_spec (n + 32) 64); [lia|]. rewrite andb_false_r, !orb_false_l.
    rewrite Z.lor_spec, Z.land_spec, Z.shiftr_spec, Z.shiftl_spec by lia.
    replace (n - 32 + 32) with n by lia.
    destruct (Z.ltb_spec n 64).
    + rewrite andb_true_r.
      destruct (Z.ltb_spec n 64); [|lia].
      destruct (Z.ltb_spec (n - 32) 32).
      * rewrite (Z.testbit_neg_r _ (n - 32 - 32)) by lia. by rewrite andb_false_l, orb_false_r.
      * lia.
    + by rewrite (Hhi n), andb_false_r by lia.
Qed.

(** ** The bytes [hash_bytes] reads *)

Lemma byte_shift_range b r : is_byte b -> (r < 8)%nat -> 0 <= Z.shiftl b (8 * Z.of_nat r) < 2 ^ 64.
Proof.
  unfold is_byte. intros Hb Hr. rewrite Z.shiftl_mul_pow2 by lia.
  assert (2 ^ (8 * Z.of_nat r) <= 2 ^ 56) by (apply Z.pow_le_mono_r; lia).
  assert (0 < 2 ^ (8 * Z.of_nat r)) by (apply Z.pow_pos_nonneg; lia). nia.
Qed.

Lemma unaligned_load_prefix mem len i :
  (i + 8 <= len <= length mem)%nat ->
  unaligned_load (take len mem) i = unaligned_load mem i /\ is_Some (unaligned_load mem i).
Proof.
  intros Hi. unfold unaligned_load. rewrite length_take, !decide_True by lia. split; [|eauto].
  rewrite skipn_firstn_comm, take_take. do 3 f_equal. lia.
Qed.

(** The block loop stays inside the buffer and does not depend on the bytes
    behind it. *)
Lemma hash_blocks_prefix mem len i n h :
  (8 * (i + n) <= len <= length mem)%nat -> 0 <= h < 2 ^ 64 ->
  exists h', hash_blocks mem i n h = Some h' /\ hash_blocks (take len mem) i n h = Some h' /\
    0 <= h' < 2 ^ 64.
Proof.
  revert i h. induction n as [|n IH]; intros i h Hn Hh; [by eexists|].
  destruct (unaligned_load_prefix mem len (8 * i) ltac:(lia)) as [Heq [k Hk]].
  cbn [hash_blocks]. rewrite Heq, Hk. apply IH; [lia|]. apply wrap_range; lia.
Qed.

Lemma hash_tail_prefix tail n r h :
  (r < 8)%nat -> (r <= n <= length tail)%nat -> Forall is_byte tail -> 0 <= h < 2 ^ 64 ->
  exists h', hash_tail tail r h = Some h' /\ hash_tail (take n tail) r h = Some h' /\ 0 <= h' < 2 ^ 64.
Proof.
  revert h. induction r as [|r IH]; intros h Hr Hn Hb Hh; [by eexists|].
  cbn [hash_tail]. rewrite lookup_take_lt by lia.
  destruct (lookup_lt_is_Some_2 tail r ltac:(lia)) as [b Hl]. rewrite Hl.
  assert (is_byte b) by (eapply Forall_lookup_1; eauto).
  assert (0 <= Z.lxor h (Z.shiftl b (8 * Z.of_nat r)) < 2 ^ 64).
  { apply lxor_range; [lia|done|]. apply byte_shift_range; [done|lia]. }
  simpl. case_decide.
  - eexists. split; [done|]. split; [done|]. apply wrap_range; lia.
  - apply IH; auto; lia.
Qed.

Lemma hash_bytes_prefix mem len :
  (len <= length mem)%nat -> Forall is_byte mem ->
  exists h, hash_bytes mem len = Some h /\ hash_bytes (take len mem) len = Some h /\ 0 <= h < 2 ^ 64.
Proof.
  intros Hl Hb. pose proof (Nat.div_mod_eq len 8). pose proof (Nat.mod_upper_bound len 8 ltac:(lia)).
  unfold hash_bytes.
  destruct (hash_blocks_prefix mem len 0 (len / 8) (Z.lxor hash_seed (u64 (Z.of_nat len * hash_m))))
    as (h1 & -> & -> & Hr1); [lia| |].
  { apply lxor_range; [lia|done|apply wrap_range; lia]. }
  cbn [mbind option_bind]. rewrite skipn_firstn_comm.
  destruct (hash_tail_prefix (drop (8 * (len / 8)) mem) (len - 8 * (len / 8)) (len mod 8) h1)
    as (h2 & -> & -> & Hr2); [lia|rewrite length_drop; lia|by apply Forall_drop|done|].
  exists (hash_finish h2). split; [done|]. split; [done|]. by apply hash_finish_range.
Qed.
