(* ===== verification/RobinHood.v ===== *)
(** * The robin-hood hash table of include/hash_table_impl.hpp

    [Table] models [un::details::Table<true, ...>] (the flat layout used by
    [unordered_flat_map] and [unordered_flat_set]): the node array and the info
    bytes are one heap block, or both alias the field [mMask] of a table that
    has not allocated yet.  Every member function that reads or changes the
    table is one definition; loops carry a step budget of one more than the
    number of info bytes, which they never exhaust because each step moves the
    index forward and a read past the block is a [Fault].

    The hasher, the allocator's success and the sizes of the node type are
    parameters, as in the template. *)
From Stdlib Require Import ZArith Lia.
From stdpp Require Import base list gmap numbers.
From S2P Require Import Prelude Hash.
#[local] Open Scope Z_scope.

(** ** Configuration constants *)
Definition InitialNumElements : Z := 8.
Definition InitialInfoNumBits : Z := 5.
Definition InitialInfoInc : Z := Z.shiftl 1 InitialInfoNumBits.
Definition InfoMask : Z := InitialInfoInc - 1.
Definition InitialInfoHashShift : Z := 0.

(** ** State *)

(** [mKeyVals]/[mInfo]: either both point to [&mMask], or to one block
    [Node, ... Node | info, ... infoSentinel, padding].  A node slot is [None]
    while no node lives there. *)
Inductive storage (K V : Type) :=
  | Dummy
  | Heap (nodes : list (option (K * V))) (info : list Z).
Arguments Dummy {K V}.
Arguments Heap {K V} nodes info.

Record Table (K V : Type) := mkTable {
  mStore : storage K V;
  mNumElements : Z;
  mMask : Z;
  mMaxNumElementsAllowed : Z;
  mInfoInc : Z;
  mInfoHashShift : Z;
}.
Arguments mkTable {K V}.
Arguments mStore {K V}.
Arguments mNumElements {K V}.
Arguments mMask {K V}.
Arguments mMaxNumElementsAllowed {K V}.
Arguments mInfoInc {K V}.
Arguments mInfoHashShift {K V}.

Section table.
Context {K V : Type} `{EqDecision K}.
(** The user's hasher, and whether it is [hash<Key>] itself. *)
Context (hasher : K -> Z) (default_hash : bool).
(** Template parameter and size of the node type. *)
Context (MaxLoadFactor100 sizeof_Node : Z).
(** Whether the byte allocator can satisfy a request of that many bytes. *)
Context (alloc_ok : Z -> bool).

Implicit Types t : Table K V.

(** ** Access to the block *)

Definition store_info (st : storage K V) t : list Z :=
  match st with Dummy => le_bytes 8 (mMask t) | Heap _ i => i end.
Definition store_nodes (st : storage K V) : list (option (K * V)) :=
  match st with Dummy => [] | Heap n _ => n end.

Definition info_bytes t : list Z := store_info (mStore t) t.
Definition nodes t : list (option (K * V)) := store_nodes (mStore t).

Definition set_store (st : storage K V) t : Table K V :=
  mkTable st (mNumElements t) (mMask t) (mMaxNumElementsAllowed t) (mInfoInc t) (mInfoHashShift t).
Definition set_num (n : Z) t : Table K V :=
  mkTable (mStore t) n (mMask t) (mMaxNumElementsAllowed t) (mInfoInc t) (mInfoHashShift t).
Definition set_mask (m : Z) t : Table K V :=
  mkTable (mStore t) (mNumElements t) m (mMaxNumElementsAllowed t) (mInfoInc t) (mInfoHashShift t).
Definition set_max (m : Z) t : Table K V :=
  mkTable (mStore t) (mNumElements t) (mMask t) m (mInfoInc t) (mInfoHashShift t).
Definition set_inc (inc shift : Z) t : Table K V :=
  mkTable (mStore t) (mNumElements t) (mMask t) (mMaxNumElementsAllowed t) inc shift.

(** Replace the info bytes; on the dummy block they are the bytes of [mMask]. *)
Definition set_info_bytes (l : list Z) t : Table K V :=
  match mStore t with
  | Dummy => set_mask (le_word l) t
  | Heap n _ => set_store (Heap n l) t
  end.
Definition set_nodes (l : list (option (K * V))) t : Table K V :=
  match mStore t with
  | Dummy => t
  | Heap _ i => set_store (Heap l i) t
  end.

Definition read_info (idx : nat) : M (Table K V) Z :=
  t ← get; access (info_bytes t !! idx).

Definition write_info (idx : nat) (b : Z) : M (Table K V) unit :=
  t ← get;
  if decide (idx < length (info_bytes t))%nat
  then put (set_info_bytes (<[idx := b]> (info_bytes t)) t) else fault.

(** Reading through a node requires a live node. *)
Definition read_node (idx : nat) : M (Table K V) (K * V) :=
  t ← get; o ← access (nodes t !! idx); access o.

Definition set_node (idx : nat) (o : option (K * V)) : M (Table K V) unit :=
  t ← get;
  if decide (idx < length (nodes t))%nat
  then put (set_nodes (<[idx := o]> (nodes t)) t) else fault.

(** [construct_at] and move assignment of a node. *)
Definition write_node (idx : nat) (kv : K * V) : M (Table K V) unit := set_node idx (Some kv).
(** [destroy_at]. *)
Definition kill_node (idx : nat) : M (Table K V) unit := set_node idx None.

Definition loop_fuel t : nat := S (length (info_bytes t)).

(** ** Sizes *)

Definition calcMaxNumElementsAllowed (maxElements : Z) : Z :=
  if maxElements <=? (2 ^ 64 - 1) / 100
  then u64 (maxElements * MaxLoadFactor100) / 100
  else u64 (maxElements / 100 * MaxLoadFactor100).

Definition calcNumBytesInfo (numElements : Z) : Z := u64 (numElements + 8).

Definition calcNumElementsWithBuffer (numElements : Z) : Z :=
  u64 (numElements + Z.min (calcMaxNumElementsAllowed numElements) 0xFF).

Definition calcNumBytesTotal (numElements : Z) : Z :=
  u64 (u64 (numElements * sizeof_Node) + calcNumBytesInfo numElements).

(** ** Construction *)

(** [init()] and the default member initializers. *)
Definition init : Table K V :=
  mkTable Dummy 0 0 0 InitialInfoInc InitialInfoHashShift.

(** [init_data]: the fields are updated before the allocation, which may throw;
    the sentinel is written at byte [W * sizeof(Node) + W] of the new block. *)
Definition init_data (max_elements : Z) : M (Table K V) unit :=
  modify (set_num 0);;
  modify (set_mask (u64 (max_elements - 1)));;
  modify (set_max (calcMaxNumElementsAllowed max_elements));;
  let W := calcNumElementsWithBuffer max_elements in
  let numBytesTotal := calcNumBytesTotal W in
  if alloc_ok numBytesTotal then
    if W * sizeof_Node + W <? numBytesTotal then
      modify (set_store (Heap (replicate (Z.to_nat W) None)
                              (replicate (Z.to_nat (W + 8)) 0)));;
      write_info (Z.to_nat W) 1;;
      modify (set_inc InitialInfoInc InitialInfoHashShift)
    else fault
  else throw bad_alloc.

(** ** Probing *)

(** [Mix] is the identity when the hasher is [hash<Key>], else [hash<size_t>]. *)
Definition Mix (h : Z) : Z := if default_hash then h else hash_int h.

Definition keyToIdx t (key : K) : Z * nat :=
  let h := Mix (hasher key) in
  (u32 (mInfoInc t + Z.shiftr (Z.land h InfoMask) (mInfoHashShift t)),
   Z.to_nat (Z.land (Z.shiftr h InitialInfoNumBits) (mMask t))).

Definition next t (info : Z) (idx : nat) : Z * nat := (u32 (info + mInfoInc t), S idx).

Fixpoint nextWhileLess (fuel : nat) (info : Z) (idx : nat) : M (Table K V) (Z * nat) :=
  match fuel with
  | O => diverge
  | S fuel =>
      t ← get; b ← read_info idx;
      if info <? b then let '(info, idx) := next t info idx in nextWhileLess fuel info idx
      else mret (info, idx)
  end.

(** [while (info == mInfo[idx]) { if (equal) return; next(); }] of [doInsert]:
    [inl idx] when the key is found at [idx]. *)
Fixpoint matchLoop (fuel : nat) (key : K) (info : Z) (idx : nat)
    : M (Table K V) (nat + Z * nat) :=
  match fuel with
  | O => diverge
  | S fuel =>
      t ← get; b ← read_info idx;
      if info =? b then
        kv ← read_node idx;
        if decide (key = kv.1) then mret (inl idx)
        else let '(info, idx) := next t info idx in matchLoop fuel key info idx
      else mret (inr (info, idx))
  end.

(** [while (info <= mInfo[idx]) next();] of [insert_move]. *)
Fixpoint nextWhileLessEq (fuel : nat) (info : Z) (idx : nat) : M (Table K V) (Z * nat) :=
  match fuel with
  | O => diverge
  | S fuel =>
      t ← get; b ← read_info idx;
      if info <=? b then let '(info, idx) := next t info idx in nextWhileLessEq fuel info idx
      else mret (info, idx)
  end.

(** [while (0 != mInfo[idx]) next();] *)
Fixpoint findEmpty (fuel : nat) (idx : nat) : M (Table K V) nat :=
  match fuel with
  | O => diverge
  | S fuel =>
      b ← read_info idx;
      if 0 =? b then mret idx else findEmpty fuel (S idx)
  end.

(** One comparison of [findIdx] and [erase]. *)
Definition probe (key : K) (info : Z) (idx : nat) : M (Table K V) bool :=
  b ← read_info idx;
  if info =? b then kv ← read_node idx; mret (bool_decide (key = kv.1)) else mret false.

Fixpoint findIdxLoop (fuel : nat) (key : K) (info : Z) (idx : nat) : M (Table K V) (option nat) :=
  match fuel with
  | O => diverge
  | S fuel =>
      t ← get;
      hit ← probe key info idx;
      if hit : bool then mret (Some idx) else
      let '(info, idx) := next t info idx in
      hit ← probe key info idx;
      if hit : bool then mret (Some idx) else
      let '(info, idx) := next t info idx in
      b ← read_info idx;
      if info <=? b then findIdxLoop fuel key info idx else mret None
  end.

(** Index of [reinterpret_cast<Node*>(mInfo)], i.e. of [end()]. *)
Definition end_idx t : nat := length (nodes t).

Definition findIdx (key : K) : M (Table K V) nat :=
  t ← get;
  let '(info, idx) := keyToIdx t key in
  r ← findIdxLoop (loop_fuel t) key info idx;
  match r with
  | Some idx => mret idx
  | None => mret (if mMask t =? 0 then O else end_idx t)
  end.

(** ** Shifting *)

(** [while (--idx != insertion_idx) mKeyVals[idx] = move(mKeyVals[idx - 1]);] *)
Fixpoint shiftUpNodes (fuel : nat) (idx insertion_idx : nat) : M (Table K V) unit :=
  match fuel with
  | O => diverge
  | S fuel =>
      let idx := pred idx in
      if decide (idx = insertion_idx) then mret tt
      else kv ← read_node (pred idx); write_node idx kv;; shiftUpNodes fuel idx insertion_idx
  end.

(** The second loop of [shiftUp], over the info bytes. *)
Fixpoint shiftUpInfo (fuel : nat) (idx insertion_idx : nat) : M (Table K V) unit :=
  match fuel with
  | O => diverge
  | S fuel =>
      if decide (idx = insertion_idx) then mret tt
      else
        t ← get;
        b ← read_info (pred idx);
        write_info idx (u8 (b + mInfoInc t));;
        (if 0xFF <? u8 (b + mInfoInc t) + mInfoInc t then modify (set_max 0) else mret tt);;
        shiftUpInfo fuel (pred idx) insertion_idx
  end.

Definition shiftUp (startIdx insertion_idx : nat) : M (Table K V) unit :=
  kv ← read_node (pred startIdx); write_node startIdx kv;;
  shiftUpNodes (S startIdx) startIdx insertion_idx;;
  shiftUpInfo (S startIdx) startIdx insertion_idx.

(** [shiftDown]; destroying the data of a flat node does nothing. *)
Fixpoint shiftDownLoop (fuel : nat) (idx : nat) : M (Table K V) unit :=
  match fuel with
  | O => diverge
  | S fuel =>
      t ← get;
      b ← read_info (S idx);
      if 2 * mInfoInc t <=? b then
        write_info idx (u8 (b - mInfoInc t));;
        kv ← read_node (S idx); write_node idx kv;;
        shiftDownLoop fuel (S idx)
      else write_info idx 0;; kill_node idx
  end.

Definition shiftDown (idx : nat) : M (Table K V) unit :=
  t ← get; shiftDownLoop (loop_fuel t) idx.

(** ** Growth *)

(** The word loop of [try_increase_info]: eight info bytes at a time. *)
Fixpoint halveWords (fuel : nat) (i W : nat) (l : list Z) : option (list Z) :=
  match fuel with
  | O => None
  | S fuel =>
      if decide (i < W)%nat then
        v ← unaligned_load l i;
        l' ← store64 l i (Z.land (Z.shiftr v 1) 0x7f7f7f7f7f7f7f7f);
        halveWords fuel (i + 8) W l'
      else Some l
  end.

Definition try_increase_info : M (Table K V) bool :=
  t ← get;
  if mInfoInc t <=? 2 then mret false
  else
    modify (set_inc (u8 (Z.shiftr (mInfoInc t) 1)) (u32 (mInfoHashShift t + 1)));;
    let W := Z.to_nat (calcNumElementsWithBuffer (u64 (mMask t + 1))) in
    t ← get;
    l ← access (halveWords (loop_fuel t) 0 W (info_bytes t));
    modify (set_info_bytes l);;
    write_info W 1;;
    modify (set_max (calcMaxNumElementsAllowed (u64 (mMask t + 1))));;
    mret true.

(** The common tail of [insert_move], [doCreateByKey] and [doInsert]: mark the
    table full when the info byte is about to overflow, find an empty spot, make
    room and construct the node at the insertion index. *)
Definition place (kv : K * V) (insertion_info : Z) (insertion_idx : nat) : M (Table K V) nat :=
  t ← get;
  (if 0xFF <? insertion_info + mInfoInc t then modify (set_max 0) else mret tt);;
  idx ← findEmpty (loop_fuel t) insertion_idx;
  (if decide (idx = insertion_idx) then write_node insertion_idx kv
   else shiftUp idx insertion_idx;; write_node insertion_idx kv);;
  write_info insertion_idx (u8 insertion_info);;
  modify (fun t => set_num (u64 (mNumElements t + 1)) t);;
  mret insertion_idx.

Definition insert_move (kv : K * V) : M (Table K V) nat :=
  t ← get;
  (if mMaxNumElementsAllowed t =? 0
   then ok ← try_increase_info; if ok : bool then mret tt else throw overflow_error
   else mret tt);;
  t ← get;
  let '(info, idx) := keyToIdx t kv.1 in
  '(info, idx) ← nextWhileLessEq (loop_fuel t) info idx;
  place kv (u8 info) idx.

(** The re-insertion loop of [rehashPowerOfTwo] over the old block [old]. *)
Fixpoint reinsert (old : storage K V) (n : nat) (i : nat) : M (Table K V) unit :=
  match n with
  | O => mret tt
  | S n =>
      t ← get;
      b ← access (store_info old t !! i);
      (if b =? 0 then mret tt
       else
         o ← access (store_nodes old !! i); kv ← access o;
         insert_move kv;; mret tt);;
      reinsert old n (S i)
  end.

Definition rehashPowerOfTwo (numBuckets : Z) : M (Table K V) unit :=
  t ← get;
  let old := mStore t in
  let oldMaxElementsWithBuffer := calcNumElementsWithBuffer (u64 (mMask t + 1)) in
  init_data numBuckets;;
  if 1 <? oldMaxElementsWithBuffer
  then reinsert old (Z.to_nat oldMaxElementsWithBuffer) 0 else mret tt.

Definition increase_size : M (Table K V) unit :=
  t ← get;
  if mMask t =? 0 then init_data InitialNumElements
  else
    let maxNumElementsAllowed := calcMaxNumElementsAllowed (u64 (mMask t + 1)) in
    r ← (if mNumElements t <? maxNumElementsAllowed then try_increase_info else mret false);
    if r : bool then mret tt
    else
      t ← get;
      if u64 (mNumElements t * 2) <? calcMaxNumElementsAllowed (u64 (mMask t + 1))
      then throw overflow_error
      else rehashPowerOfTwo (u64 (u64 (mMask t + 1) * 2)).

(** ** Insertion *)

(** The loop [while (true)] of [doInsert]; the result is the slot of the key and
    whether a node was inserted. *)
Fixpoint doInsertLoop (fuel : nat) (kv : K * V) : M (Table K V) (nat * bool) :=
  match fuel with
  | O => diverge
  | S fuel =>
      t ← get;
      let '(info, idx) := keyToIdx t kv.1 in
      '(info, idx) ← nextWhileLess (loop_fuel t) info idx;
      r ← matchLoop (loop_fuel t) kv.1 info idx;
      match r with
      | inl idx => mret (idx, false)
      | inr (info, idx) =>
          if mMaxNumElementsAllowed t <=? mNumElements t
          then increase_size;; doInsertLoop fuel kv
          else idx ← place kv info idx; mret (idx, true)
      end
  end.

(** Upper bound on the number of rounds of [doInsert]: an allocation, two table
    doublings and one widening of the distance field are always enough before
    the round that inserts or throws. *)
Definition insert_rounds : nat := 5.

Definition doInsert (kv : K * V) : M (Table K V) (nat * bool) := doInsertLoop insert_rounds kv.

(** [operator[]]: the same loop with a default-constructed mapped value; the
    result is the slot whose mapped value is returned by reference. *)
Definition doCreateByKey (value_default : V) (key : K) : M (Table K V) nat :=
  '(idx, _) ← doInsertLoop insert_rounds (key, value_default);
  read_node idx;; mret idx.

Fixpoint insert_range (l : list (K * V)) : M (Table K V) unit :=
  match l with
  | [] => mret tt
  | kv :: l => doInsert kv;; insert_range l
  end.

(** ** Lookup interface *)

Definition count (key : K) : M (Table K V) Z :=
  idx ← findIdx key; t ← get;
  mret (if decide (idx = end_idx t) then 0 else 1).

Definition contains (key : K) : M (Table K V) bool :=
  c ← count key; mret (negb (c =? 0)).

Definition at_key (key : K) : M (Table K V) V :=
  idx ← findIdx key; t ← get;
  if decide (idx = end_idx t) then throw out_of_range
  else kv ← read_node idx; mret kv.2.

Definition try_emplace (kv : K * V) : M (Table K V) (nat * bool) :=
  idx ← findIdx kv.1; t ← get;
  if decide (idx = end_idx t) then doInsert kv else mret (idx, false).

Definition insert_or_assign (kv : K * V) : M (Table K V) (nat * bool) :=
  idx ← findIdx kv.1; t ← get;
  if decide (idx = end_idx t) then doInsert kv
  else
    old ← read_node idx;
    write_node idx (old.1, kv.2);; mret (idx, false).

(** ** Erasure *)

Fixpoint eraseLoop (fuel : nat) (key : K) (info : Z) (idx : nat) : M (Table K V) Z :=
  match fuel with
  | O => diverge
  | S fuel =>
      t ← get;
      hit ← probe key info idx;
      if hit : bool then
        shiftDown idx;;
        modify (fun t => set_num (u64 (mNumElements t - 1)) t);; mret 1
      else
        let '(info, idx) := next t info idx in
        b ← read_info idx;
        if info <=? b then eraseLoop fuel key info idx else mret 0
  end.

Definition erase (key : K) : M (Table K V) Z :=
  t ← get;
  let '(info, idx) := keyToIdx t key in eraseLoop (loop_fuel t) key info idx.

(** ** Iteration *)

(** Index of the lowest set bit, 64 for zero: [COUNT_TRAILING_ZEROES]. *)
Fixpoint ctz_pos (p : positive) : Z :=
  match p with xO p => 1 + ctz_pos p | _ => 0 end.
Definition COUNT_TRAILING_ZEROES (x : Z) : Z :=
  match x with Zpos p => ctz_pos p | _ => 64 end.

Fixpoint fastForward (fuel : nat) (l : list Z) (idx : nat) : option nat :=
  match fuel with
  | O => None
  | S fuel =>
      n ← unaligned_load l idx;
      if 0 =? n then fastForward fuel l (idx + 8)
      else Some (idx + Z.to_nat (COUNT_TRAILING_ZEROES n / 8))%nat
  end.

Definition iter_forward (idx : nat) : M (Table K V) nat :=
  t ← get; access (fastForward (loop_fuel t) (info_bytes t) idx).

(** [Iter::operator++]. *)
Definition iter_next (idx : nat) : M (Table K V) nat := iter_forward (S idx).

Definition begin_idx : M (Table K V) nat :=
  t ← get;
  if mNumElements t =? 0 then mret (end_idx t) else iter_forward 0.

(** Erase by iterator; returns the iterator to the next element. *)
Definition erase_iter (idx : nat) : M (Table K V) nat :=
  shiftDown idx;;
  modify (fun t => set_num (u64 (mNumElements t - 1)) t);;
  b ← read_info idx;
  if b =? 0 then iter_next idx else mret idx.

(** The entries visited by a range-based [for] over the table. *)
Fixpoint entries_from (fuel : nat) (idx : nat) : M (Table K V) (list (K * V)) :=
  match fuel with
  | O => diverge
  | S fuel =>
      t ← get;
      if decide (idx = end_idx t) then mret []
      else
        kv ← read_node idx;
        idx ← iter_next idx;
        l ← entries_from fuel idx;
        mret (kv :: l)
  end.

Definition entries : M (Table K V) (list (K * V)) :=
  t ← get; idx ← begin_idx; entries_from (loop_fuel t) idx.

(** ** Whole-table operations *)

(** [has] and [operator==]. *)
Definition has `{EqDecision V} (e : K * V) : M (Table K V) bool :=
  idx ← findIdx e.1; t ← get;
  if decide (idx = end_idx t) then mret false
  else kv ← read_node idx; mret (bool_decide (kv.2 = e.2)).

Fixpoint has_all `{EqDecision V} (l : list (K * V)) : M (Table K V) bool :=
  match l with
  | [] => mret true
  | e :: l => b ← has e; if b : bool then has_all l else mret false
  end.

Definition table_eq `{EqDecision V} (other : Table K V) : M (Table K V) bool :=
  t ← get;
  if negb (mNumElements other =? mNumElements t) then mret false
  else match entries other with
       | Ok _ l => has_all l
       | Throw _ e => throw e
       | Fault => fault
       | Diverge => diverge
       end.

(** [Destroyer<M, false>::nodes]: every slot with a non-zero info byte holds a
    node that is destroyed. *)
Fixpoint destroyLoop (n : nat) (idx : nat) : M (Table K V) unit :=
  match n with
  | O => mret tt
  | S n =>
      b ← read_info idx;
      (if 0 =? b then mret tt else read_node idx;; kill_node idx);;
      destroyLoop n (S idx)
  end.

Definition destroy_nodes : M (Table K V) unit :=
  modify (set_num 0);;
  t ← get; destroyLoop (Z.to_nat (calcNumElementsWithBuffer (u64 (mMask t + 1)))) 0.

(** [memset(mInfo, 0, bytes)] *)
Definition zero_info (bytes : nat) : M (Table K V) unit :=
  t ← get;
  if decide (bytes <= length (info_bytes t))%nat
  then put (set_info_bytes (replicate bytes 0 ++ drop bytes (info_bytes t)) t) else fault.

Definition clear : M (Table K V) unit :=
  t ← get;
  if mNumElements t =? 0 then mret tt
  else
    destroy_nodes;;
    let W := calcNumElementsWithBuffer (u64 (mMask t + 1)) in
    zero_info (Z.to_nat (calcNumBytesInfo W));;
    write_info (Z.to_nat W) 1;;
    modify (set_inc InitialInfoInc InitialInfoHashShift).

(** [destroy()] and the destructor; a freed block has no accessible byte left. *)
Definition free_block : M (Table K V) unit :=
  modify (fun t => match mStore t with Dummy => t | Heap _ _ => set_store (Heap [] []) t end).

Definition destroy : M (Table K V) unit :=
  t ← get;
  if mMask t =? 0 then mret tt else destroy_nodes;; free_block.

(** [reserve(c, forceRehash)]: the doubling loop stops at 0 on overflow. *)
Fixpoint reserveSize (fuel : nat) (newSize minElementsAllowed : Z) : option Z :=
  match fuel with
  | O => None
  | S fuel =>
      if (calcMaxNumElementsAllowed newSize <? minElementsAllowed) && negb (newSize =? 0)
      then reserveSize fuel (u64 (newSize * 2)) minElementsAllowed
      else Some newSize
  end.

Definition reserve_rehash (c : Z) (forceRehash : bool) : M (Table K V) unit :=
  t ← get;
  match reserveSize 64 InitialNumElements (Z.max c (mNumElements t)) with
  | None => diverge
  | Some newSize =>
      if newSize =? 0 then throw overflow_error
      else if forceRehash || (u64 (mMask t + 1) <? newSize)
      then rehashPowerOfTwo newSize else mret tt
  end.

Definition rehash (c : Z) : M (Table K V) unit := reserve_rehash c true.
Definition reserve (c : Z) : M (Table K V) unit := reserve_rehash c false.

(** [allocate_bytes] for [W] slots and their info bytes.  The bytes are not
    initialized; [cloneData] overwrites all of them. *)
Definition allocate_block (W : Z) : M (Table K V) unit :=
  let numBytesTotal := calcNumBytesTotal W in
  if alloc_ok numBytesTotal then
    modify (set_store (Heap (replicate (Z.to_nat W) None)
      (replicate (Z.to_nat (numBytesTotal - W * sizeof_Node)) 0)))
  else throw bad_alloc.

(** [Cloner<M, false>]: the info bytes are copied first, then every live node. *)
Definition copy_info (source : Table K V) (bytes : nat) : M (Table K V) unit :=
  t ← get;
  if decide (bytes <= length (info_bytes source) /\ bytes <= length (info_bytes t))%nat
  then put (set_info_bytes (take bytes (info_bytes source) ++ drop bytes (info_bytes t)) t)
  else fault.

Fixpoint cloneLoop (source : Table K V) (n : nat) (i : nat) : M (Table K V) unit :=
  match n with
  | O => mret tt
  | S n =>
      b ← read_info i;
      (if 0 =? b then mret tt
       else o ← access (nodes source !! i); kv ← access o; write_node i kv);;
      cloneLoop source n (S i)
  end.

Definition cloneData (source : Table K V) : M (Table K V) unit :=
  t ← get;
  let W := calcNumElementsWithBuffer (u64 (mMask t + 1)) in
  copy_info source (Z.to_nat (calcNumBytesInfo W));;
  cloneLoop source (Z.to_nat W) 0.

(** The fields taken over from [o] by copy construction and assignment. *)
Definition take_fields (o t : Table K V) : Table K V :=
  mkTable (mStore t) (mNumElements o) (mMask o)
    (mMaxNumElementsAllowed o) (mInfoInc o) (mInfoHashShift o).

(** [Table(const Table&)]; the members start with their initializers. *)
Definition copy_construct (o : Table K V) : outcome (Table K V) unit :=
  (if mNumElements o =? 0 then mret tt
   else
     allocate_block (calcNumElementsWithBuffer (u64 (mMask o + 1)));;
     modify (take_fields o);;
     cloneData o) init.

(** [operator=(const Table&)] from another object. *)
Definition copy_assign (o : Table K V) : M (Table K V) unit :=
  t ← get;
  if mNumElements o =? 0 then
    if mMask t =? 0 then mret tt else destroy;; put init
  else
    destroy_nodes;;
    (if mMask t =? mMask o then mret tt
     else
       (if 0 =? mMask t then mret tt else free_block);;
       allocate_block (calcNumElementsWithBuffer (u64 (mMask o + 1))));;
    modify (take_fields o);;
    cloneData o.

(** [Table(Table&&)]: the new table and the state left in the source. *)
Definition move_construct (o : Table K V) : Table K V * Table K V :=
  if mMask o =? 0 then (init, o) else (o, init).

(** [operator=(Table&&)] from another object; the result is the state left in
    the source. *)
Definition move_assign (o : Table K V) : M (Table K V) (Table K V) :=
  if mMask o =? 0 then clear;; mret o
  else destroy;; put o;; mret init.

End table.
