(* ===== verification/RobinHoodLayout.v ===== *)
(** * The robin-hood layout invariant

    The node array and the info bytes of a table are viewed as two total
    functions of the slot index.  [layout] states what the bytes mean: the info
    byte of a live slot is [inc * (distance + 1) + hash bits], a slot whose node
    has been displaced directly follows a slot that is at least as displaced,
    and no key is stored twice.  The lemmas of this file are about these
    functions alone; they are what the loops of the table rely on. *)
From Stdlib Require Import ZArith Lia.
From stdpp Require Import base list gmap numbers.
From S2P Require Import Prelude Hash RobinHood.
#[local] Open Scope Z_scope.

(** Reads that are total: outside the block an info byte is 0 and a slot dead. *)
Definition ib (l : list Z) (i : nat) : Z := default 0 (l !! i).
Definition nb {A} (l : list (option A)) (i : nat) : option A := mjoin (l !! i).

Lemma ib_lookup l i : (i < length l)%nat -> l !! i = Some (ib l i).
Proof. intros H; unfold ib. by destruct (lookup_lt_is_Some_2 l i H) as [x ->]. Qed.

Lemma ib_insert l i j b :
  (i < length l)%nat -> ib (<[i := b]> l) j = if decide (j = i) then b else ib l j.
Proof.
  intros; unfold ib. case_decide; subst.
  - by rewrite list_lookup_insert_eq.
  - by rewrite list_lookup_insert_ne.
Qed.

Lemma nb_insert {A} (l : list (option A)) i j o :
  (i < length l)%nat -> nb (<[i := o]> l) j = if decide (j = i) then o else nb l j.
Proof.
  intros; unfold nb. case_decide; subst.
  - by rewrite list_lookup_insert_eq.
  - by rewrite list_lookup_insert_ne.
Qed.

Lemma nb_lookup {A} (l : list (option A)) i a : nb l i = Some a <-> l !! i = Some (Some a).
Proof. unfold nb. destruct (l !! i) as [[b|]|] eqn:E; simpl; naive_solver. Qed.

Lemma nb_lt {A} (l : list (option A)) i a : nb l i = Some a -> (i < length l)%nat.
Proof. intros H%nb_lookup. eapply lookup_lt_Some, H. Qed.

Lemma ib_replicate n b i : ib (replicate n b) i = if decide (i < n)%nat then b else 0.
Proof.
  unfold ib. case_decide.
  - by rewrite lookup_replicate_2.
  - rewrite lookup_ge_None_2; [done|]. rewrite length_replicate; lia.
Qed.

Lemma nb_replicate {A} n i : nb (replicate n (@None A)) i = None.
Proof.
  unfold nb. destruct (replicate n None !! i) eqn:E; [|done].
  apply lookup_replicate in E as [-> _]. done.
Qed.

Section layout.
Context {K V : Type}.
Context (hasher : K -> Z) (default_hash : bool).

Abbreviation mix k := (Mix default_hash (hasher k)).

(** Home slot and hash bits of a key. *)
Definition home (mask : Z) (k : K) : nat :=
  Z.to_nat (Z.land (Z.shiftr (mix k) InitialInfoNumBits) mask).
Definition bits (shift : Z) (k : K) : Z := Z.shiftr (Z.land (mix k) InfoMask) shift.

(** Info byte of key [k] when it is stored in slot [i]. *)
Definition expected (mask inc shift : Z) (k : K) (i : nat) : Z :=
  inc * (1 + Z.of_nat i - Z.of_nat (home mask k)) + bits shift k.

Record layout (mask inc shift : Z) (W : nat) (f : nat -> Z) (g : nat -> option (K * V)) : Prop := {
  lay_sentinel : 0 <= f W <= 1;
  lay_pad : forall i, (W < i)%nat -> f i = 0;
  lay_dead : forall i, (i < W)%nat -> g i = None -> f i = 0;
  lay_live : forall i k v, g i = Some (k, v) ->
    (home mask k <= i < W)%nat /\ f i = expected mask inc shift k i /\ f i <= 255;
  lay_order : forall i, (S i < W)%nat -> 2 * inc <= f (S i) -> f (S i) <= f i + inc;
  lay_uniq : forall i j k v w, g i = Some (k, v) -> g j = Some (k, w) -> i = j;
}.

(** The increment is the power of two left over by the hash shift. *)
Definition good_inc (inc shift : Z) : Prop := 0 <= shift <= 4 /\ inc = 2 ^ (5 - shift).

Lemma good_inc_cases inc shift : good_inc inc shift ->
  (shift = 0 /\ inc = 32) \/ (shift = 1 /\ inc = 16) \/ (shift = 2 /\ inc = 8) \/
  (shift = 3 /\ inc = 4) \/ (shift = 4 /\ inc = 2).
Proof.
  intros [Hs ->].
  assert (shift = 0 \/ shift = 1 \/ shift = 2 \/ shift = 3 \/ shift = 4) as Hc by lia.
  destruct Hc as [->|[->|[->|[->| ->]]]]; vm_compute (2 ^ _); auto 10.
Qed.

Lemma good_inc_range inc shift : good_inc inc shift -> 2 <= inc <= 32.
Proof. intros H%good_inc_cases; lia. Qed.

Lemma bits_range inc shift k : good_inc inc shift -> 0 <= bits shift k < inc.
Proof.
  intros Hg. unfold bits, InfoMask, InitialInfoInc, InitialInfoNumBits.
  change (Z.shiftl 1 5 - 1) with (Z.ones 5). rewrite Z.land_ones by lia.
  pose proof (Z.mod_pos_bound (mix k) (2 ^ 5) ltac:(lia)).
  apply good_inc_cases in Hg.
  destruct Hg as [[-> ->]|[[-> ->]|[[-> ->]|[[-> ->]|[-> ->]]]]];
    rewrite Z.shiftr_div_pow2 by lia;
    (split; [apply Z.div_pos; lia|apply Z.div_lt_upper_bound; lia]).
Qed.

Lemma bits_halve shift k : 0 <= shift -> bits (shift + 1) k = bits shift k / 2.
Proof.
  intros. unfold bits. rewrite <- Z.shiftr_shiftr by lia.
  by rewrite Z.shiftr_div_pow2 by lia.
Qed.

Lemma home_le n mask k : 0 <= n -> mask + 1 = 2 ^ n -> Z.of_nat (home mask k) <= mask.
Proof.
  intros Hn Hm. unfold home. assert (mask = Z.ones n) as -> by (rewrite Z.ones_equiv; lia).
  rewrite Z.land_ones by lia.
  pose proof (Z.mod_pos_bound (Z.shiftr (mix k) InitialInfoNumBits) (2 ^ n) ltac:(lia)).
  rewrite Z2Nat.id by lia. rewrite Z.ones_equiv. lia.
Qed.

Section facts.
Context (mask inc shift : Z) (W : nat) (f : nat -> Z) (g : nat -> option (K * V)).
Context (Hinc : good_inc inc shift) (L : layout mask inc shift W f g).

Abbreviation exp := (expected mask inc shift).

Lemma exp_S k i : exp k (S i) = exp k i + inc.
Proof. unfold expected. rewrite Nat2Z.inj_succ. lia. Qed.

Lemma exp_home k : exp k (home mask k) = inc + bits shift k.
Proof. unfold expected. lia. Qed.

Lemma exp_low k i : (home mask k <= i)%nat -> inc <= exp k i.
Proof.
  intros. unfold expected. pose proof (bits_range inc shift k Hinc).
  pose proof (good_inc_range _ _ Hinc). nia.
Qed.

Lemma exp_low2 k i : (home mask k < i)%nat -> 2 * inc <= exp k i.
Proof.
  intros. unfold expected. pose proof (bits_range inc shift k Hinc).
  pose proof (good_inc_range _ _ Hinc). nia.
Qed.

Lemma exp_high k i : (i <= home mask k)%nat -> exp k i < 2 * inc.
Proof.
  intros. unfold expected. pose proof (bits_range inc shift k Hinc).
  pose proof (good_inc_range _ _ Hinc). nia.
Qed.

(** Every info byte fits in eight bits, and is zero or at least the increment. *)
Lemma f_cases i :
  (exists k v, g i = Some (k, v) /\ (i < W)%nat /\ inc <= f i <= 255) \/
  (g i = None /\ (i < W)%nat /\ f i = 0) \/ ((W <= i)%nat /\ g i = None /\ 0 <= f i <= 1).
Proof.
  destruct (g i) as [[k v]|] eqn:E.
  - left. destruct (lay_live _ _ _ _ _ _ L i k v E) as (Hi & Hf & Hle).
    exists k, v. pose proof (exp_low k i). split_and!; auto; lia.
  - right. destruct (decide (i < W)%nat).
    + left. split_and!; auto. by apply (lay_dead _ _ _ _ _ _ L).
    + right. split; [lia|]. split; [done|]. destruct (decide (i = W)) as [->|].
      * apply (lay_sentinel _ _ _ _ _ _ L).
      * rewrite (lay_pad _ _ _ _ _ _ L); lia.
Qed.

Lemma f_byte i : 0 <= f i <= 255.
Proof.
  pose proof (good_inc_range _ _ Hinc).
  destruct (f_cases i) as [(?&?&?&?&?)|[(?&?&?)|(?&?&?)]]; lia.
Qed.

Lemma f_nonzero i : inc <= f i -> exists k v, g i = Some (k, v).
Proof.
  pose proof (good_inc_range _ _ Hinc).
  destruct (f_cases i) as [(?&?&?&?&?)|[(?&?&?)|(?&?&?)]]; [eauto|lia|lia].
Qed.

(** Once a key's expected byte dominates the stored byte it keeps dominating. *)
Lemma dominate_step k i :
  (home mask k <= i)%nat -> f i <= exp k i -> f (S i) <= exp k (S i).
Proof.
  intros Hh Hle. pose proof (exp_low2 k (S i) ltac:(lia)).
  pose proof (good_inc_range _ _ Hinc).
  destruct (decide (S i < W)%nat).
  - destruct (Z.le_gt_cases (2 * inc) (f (S i))); [|lia].
    rewrite exp_S. pose proof (lay_order _ _ _ _ _ _ L i). lia.
  - destruct (f_cases (S i)) as [(?&?&?&?&?)|[(?&?&?)|(?&?&?)]]; lia.
Qed.

Lemma dominate k i j :
  (home mask k <= i <= j)%nat -> f i <= exp k i -> f j <= exp k j.
Proof.
  intros [Hh Hij] Hle. induction Hij as [|j Hij IH]; [done|].
  apply dominate_step; [lia|auto].
Qed.

(** The stored bytes between the home of a stored key and its slot dominate the
    key's expected bytes, so a probe sequence reaches the key. *)
Lemma reach k v j i :
  g j = Some (k, v) -> (home mask k <= i <= j)%nat -> exp k i <= f i.
Proof.
  intros Hg Hij. destruct (lay_live _ _ _ _ _ _ L j k v Hg) as (Hj & Hf & _).
  assert (forall d i, (i + d = j)%nat -> (home mask k <= i)%nat -> exp k i <= f i) as Hd.
  { clear i Hij. induction d as [|d IH]; intros i Hi Hh.
    - replace i with j by lia. lia.
    - pose proof (IH (S i) ltac:(lia) ltac:(lia)) as Hs.
      pose proof (exp_low2 k (S i) ltac:(lia)).
      pose proof (lay_order _ _ _ _ _ _ L i ltac:(lia) ltac:(lia)).
      rewrite exp_S in Hs. lia. }
  apply (Hd (j - i)%nat); lia.
Qed.

(** A stored key sits where its byte first equals the expected one: once the
    probe dominates the stored bytes, the bytes up to the key are equal. *)
Lemma reach_eq k v j i :
  g j = Some (k, v) -> (home mask k <= i <= j)%nat -> f i <= exp k i ->
  forall m, (i <= m <= j)%nat -> f m = exp k m.
Proof.
  intros Hg Hij Hle m Hm. apply Z.le_antisymm.
  - apply (dominate k i m); [lia|done].
  - by apply (reach k v j m); [|lia].
Qed.

(** If the probe strictly dominates at [i], the key is in no slot from its home
    on, hence nowhere. *)
Lemma not_stored k i :
  (home mask k <= i)%nat -> f i < exp k i ->
  (forall m v, (home mask k <= m < i)%nat -> g m <> Some (k, v)) ->
  forall m v, g m <> Some (k, v).
Proof.
  intros Hh Hlt Hbefore m v Hg.
  destruct (lay_live _ _ _ _ _ _ L m k v Hg) as (Hm & Hf & _).
  destruct (decide (m < i)%nat); [by apply (Hbefore m v); [lia|]|].
  pose proof (reach k v m i Hg ltac:(lia)). lia.
Qed.

(** A probe that dominates at slot [i] without being equal misses the key. *)
Lemma live_neq k v j : g j = Some (k, v) -> f j = exp k j.
Proof. intros Hg. by destruct (lay_live _ _ _ _ _ _ L j k v Hg) as (_ & ? & _). Qed.

End facts.

(** ** Insertion *)

(** Bytes and slots after [k] was inserted in slot [p], the slots [p .. e-1]
    moving up by one into the empty slot [e]. *)
Definition ins_f (f : nat -> Z) (inc : Z) (p e : nat) (b : Z) (i : nat) : Z :=
  if decide (i < p)%nat then f i
  else if decide (i = p) then b
  else if decide (i <= e)%nat then f (pred i) + inc else f i.

Definition ins_g (g : nat -> option (K * V)) (p e : nat) (kv : K * V) (i : nat) : option (K * V) :=
  if decide (i < p)%nat then g i
  else if decide (i = p) then Some kv
  else if decide (i <= e)%nat then g (pred i) else g i.

Lemma ins_g_inv g p e kv i x :
  (p <= e)%nat -> ins_g g p e kv i = Some x ->
  (i = p /\ x = kv) \/ ((i < p)%nat /\ g i = Some x) \/
  ((p < i <= e)%nat /\ g (pred i) = Some x) \/ ((e < i)%nat /\ g i = Some x).
Proof. unfold ins_g; intros; repeat case_decide; naive_solver lia. Qed.

Lemma layout_insert mask inc shift W f g k v p e :
  good_inc inc shift -> layout mask inc shift W f g ->
  (home mask k <= p <= e)%nat -> (e < W)%nat ->
  (forall i, (home mask k <= i < p)%nat -> expected mask inc shift k i <= f i) ->
  f p < expected mask inc shift k p <= 255 ->
  f e = 0 -> (forall i, (p <= i < e)%nat -> inc <= f i <= 255 - inc) ->
  (forall i w, g i <> Some (k, w)) ->
  layout mask inc shift W (ins_f f inc p e (expected mask inc shift k p)) (ins_g g p e (k, v)).
Proof.
  intros Hg L Hp HeW Hbefore Hexp He Hseg Hnew.
  pose proof (good_inc_range _ _ Hg) as Hir.
  split.
  - unfold ins_f. repeat case_decide; try lia. apply (lay_sentinel _ _ _ _ _ _ L).
  - intros i Hi. unfold ins_f. repeat case_decide; try lia. by apply (lay_pad _ _ _ _ _ _ L).
  - intros i Hi. unfold ins_f, ins_g. repeat case_decide; try done; intros Hn.
    + by apply (lay_dead _ _ _ _ _ _ L).
    + pose proof (Hseg (pred i) ltac:(lia)).
      pose proof (lay_dead _ _ _ _ _ _ L (pred i) ltac:(lia) Hn). lia.
    + by apply (lay_dead _ _ _ _ _ _ L).
  - intros i k' v' Hi. apply ins_g_inv in Hi; [|lia].
    unfold ins_f.
    destruct Hi as [[-> [= -> ->]]|[[Hlt Hi]|[[Hr Hi]|[Hlt Hi]]]].
    + repeat case_decide; lia.
    + destruct (lay_live _ _ _ _ _ _ L _ _ _ Hi) as (?&?&?).
      repeat case_decide; try lia; auto.
    + destruct (lay_live _ _ _ _ _ _ L _ _ _ Hi) as (?&Hf&?).
      repeat case_decide; try lia. pose proof (Hseg (pred i) ltac:(lia)).
      split_and!; try lia. rewrite Hf, <- exp_S. f_equal; lia.
    + destruct (lay_live _ _ _ _ _ _ L _ _ _ Hi) as (?&?&?).
      repeat case_decide; try lia; auto.
  - intros i Hi. unfold ins_f. repeat case_decide; try lia; intros Hge.
    + by apply (lay_order _ _ _ _ _ _ L).
    + assert (S i = p) as <- by lia. destruct (decide (home mask k <= i)%nat).
      * rewrite exp_S in *. pose proof (Hbefore i ltac:(lia)). lia.
      * pose proof (exp_high mask inc shift Hg k (S i) ltac:(lia)). lia.
    + subst i. simpl. lia.
    + simpl. destruct i as [|i]; [lia|]. simpl.
      destruct (Z.le_gt_cases (2 * inc) (f (S i))).
      * pose proof (lay_order _ _ _ _ _ _ L i ltac:(lia) ltac:(lia)). lia.
      * pose proof (Hseg i ltac:(lia)). lia.
    + pose proof (lay_order _ _ _ _ _ _ L i ltac:(lia) Hge). assert (i = e) by lia. subst. lia.
    + pose proof (lay_order _ _ _ _ _ _ L i ltac:(lia) Hge). assert (i = e) by lia. subst. lia.
    + by apply (lay_order _ _ _ _ _ _ L).
  - intros i j k' v' w' Hi Hj.
    apply ins_g_inv in Hi; [|lia]. apply ins_g_inv in Hj; [|lia].
    pose proof (lay_uniq _ _ _ _ _ _ L) as Hu.
    destruct Hi as [[-> Ei]|[[? Hi]|[[? Hi]|[? Hi]]]],
      Hj as [[-> Ej]|[[? Hj]|[[? Hj]|[? Hj]]]]; simplify_eq;
      try (exfalso; eapply Hnew; eassumption); try done;
      pose proof (Hu _ _ _ _ _ Hi Hj); lia.
Qed.

(** ** Erasure *)

Definition del_f (f : nat -> Z) (inc : Z) (p e : nat) (i : nat) : Z :=
  if decide (i < p)%nat then f i
  else if decide (i < e)%nat then f (S i) - inc
  else if decide (i = e) then 0 else f i.

Definition del_g (g : nat -> option (K * V)) (p e : nat) (i : nat) : option (K * V) :=
  if decide (i < p)%nat then g i
  else if decide (i < e)%nat then g (S i)
  else if decide (i = e) then None else g i.

Lemma del_g_inv g p e i x :
  (p <= e)%nat -> del_g g p e i = Some x ->
  ((i < p)%nat /\ g i = Some x) \/
  ((p <= i < e)%nat /\ g (S i) = Some x) \/ ((e < i)%nat /\ g i = Some x).
Proof. unfold del_g; intros; repeat case_decide; naive_solver lia. Qed.

Lemma layout_erase mask inc shift W f g p e :
  good_inc inc shift -> layout mask inc shift W f g ->
  (p <= e < W)%nat -> is_Some (g p) ->
  (forall i, (p < i <= e)%nat -> 2 * inc <= f i) -> f (S e) < 2 * inc ->
  layout mask inc shift W (del_f f inc p e) (del_g g p e).
Proof.
  intros Hg L Hp Hlive Hseg Hend.
  pose proof (good_inc_range _ _ Hg) as Hir.
  split.
  - unfold del_f. repeat case_decide; try lia. apply (lay_sentinel _ _ _ _ _ _ L).
  - intros i Hi. unfold del_f. repeat case_decide; try lia. by apply (lay_pad _ _ _ _ _ _ L).
  - intros i Hi. unfold del_f, del_g. repeat case_decide; try done; intros Hn.
    + by apply (lay_dead _ _ _ _ _ _ L).
    + pose proof (Hseg (S i) ltac:(lia)).
      destruct (f_nonzero mask inc shift W f g Hg L (S i) ltac:(lia)) as (?&?&?). congruence.
    + by apply (lay_dead _ _ _ _ _ _ L).
  - intros i k' v' Hi. apply del_g_inv in Hi; [|lia]. unfold del_f.
    destruct Hi as [[Hlt Hi]|[[Hr Hi]|[Hlt Hi]]];
      destruct (lay_live _ _ _ _ _ _ L _ _ _ Hi) as (?&Hf&?); repeat case_decide; try lia; auto.
    pose proof (Hseg (S i) ltac:(lia)) as Hge. split_and!; try lia.
    + destruct (decide (S i <= home mask k')%nat); [|lia].
      pose proof (exp_high mask inc shift Hg k' (S i) ltac:(lia)). lia.
    + rewrite Hf, exp_S. lia.
  - intros i Hi. unfold del_f. pose proof (lay_order _ _ _ _ _ _ L i) as Ho.
    pose proof (lay_order _ _ _ _ _ _ L (S i)) as HoS.
    repeat case_decide; try lia; intros Hge.
    subst i. lia.
  - intros i j k' v' w' Hi Hj.
    apply del_g_inv in Hi; [|lia]. apply del_g_inv in Hj; [|lia].
    pose proof (lay_uniq _ _ _ _ _ _ L) as Hu.
    destruct Hi as [[? Hi]|[[? Hi]|[? Hi]]], Hj as [[? Hj]|[[? Hj]|[? Hj]]];
      pose proof (Hu _ _ _ _ _ Hi Hj); lia.
Qed.

(** ** Widening of the distance field *)

Lemma expected_halve mask inc shift k i :
  good_inc inc shift -> 2 < inc ->
  expected mask (inc / 2) (shift + 1) k i = expected mask inc shift k i / 2.
Proof.
  intros Hg Hi. unfold expected. pose proof (good_inc_cases _ _ Hg) as Hc.
  rewrite bits_halve by lia.
  assert (inc = inc / 2 * 2) as Heq
    by (destruct Hc as [[-> ->]|[[-> ->]|[[-> ->]|[[-> ->]|[-> ->]]]]]; done).
  rewrite Heq at 2.
  replace (inc / 2 * 2 * (1 + Z.of_nat i - Z.of_nat (home mask k)) + bits shift k)
    with (bits shift k + inc / 2 * (1 + Z.of_nat i - Z.of_nat (home mask k)) * 2) by lia.
  rewrite Z.div_add by lia. lia.
Qed.

Lemma good_inc_halve inc shift :
  good_inc inc shift -> 2 < inc -> good_inc (inc / 2) (shift + 1) /\ inc = 2 * (inc / 2).
Proof.
  intros Hg Hi. pose proof (good_inc_cases _ _ Hg) as Hc. unfold good_inc.
  destruct Hc as [[-> ->]|[[-> ->]|[[-> ->]|[[-> ->]|[-> ->]]]]]; try lia;
    (split; [split; [lia|reflexivity]|reflexivity]).
Qed.

Lemma layout_halve mask inc shift W f f' g :
  good_inc inc shift -> 2 < inc -> layout mask inc shift W f g ->
  (forall i, (i < W)%nat -> f' i = f i / 2) -> 0 <= f' W <= 1 ->
  (forall i, (W < i)%nat -> f' i = 0) ->
  layout mask (inc / 2) (shift + 1) W f' g /\
  (forall i, f' i + inc / 2 <= 255).
Proof.
  intros Hg Hi L Hf HW Hpad. destruct (good_inc_halve _ _ Hg Hi) as [Hg' Heq].
  pose proof (good_inc_range _ _ Hg). split; [split|].
  - done.
  - done.
  - intros i Hlt Hn. rewrite Hf by done. by rewrite (lay_dead _ _ _ _ _ _ L i Hlt Hn).
  - intros i k v Hn. destruct (lay_live _ _ _ _ _ _ L _ _ _ Hn) as (?&He&?).
    rewrite Hf by lia. rewrite expected_halve, <- He by done.
    split_and!; try lia; auto; zdiv.
  - intros i Hlt. rewrite !Hf by lia. intros Hge.
    pose proof (lay_order _ _ _ _ _ _ L i Hlt). zdiv.
  - apply (lay_uniq _ _ _ _ _ _ L).
  - intros i. pose proof (f_byte mask inc shift W f g Hg L i).
    destruct (decide (i < W)%nat); [rewrite Hf by done; zdiv|].
    destruct (decide (i = W)) as [->|]; [zdiv|]. rewrite Hpad by lia. zdiv.
Qed.

End layout.

(** [layout] only depends on the values of the two functions. *)
Lemma layout_ext {K V} (hasher : K -> Z) dh mask inc shift W f f' (g g' : nat -> option (K * V)) :
  (forall i, f' i = f i) -> (forall i, g' i = g i) ->
  layout hasher dh mask inc shift W f g -> layout hasher dh mask inc shift W f' g'.
Proof.
  intros Hf Hg [H1 H2 H3 H4 H5 H6]. split; intros *; rewrite ?Hf, ?Hg; eauto.
Qed.

(** * Word-at-a-time operations on the info bytes

    [try_increase_info] halves eight info bytes with one shift and one mask, and
    the iterator finds the next live slot with one 64-bit load and a bit scan.
    Both are shown equal to the byte-by-byte operation. *)

(** ** Halving bytes in a word *)

Lemma land_bytes a c y d :
  0 <= a < 256 -> 0 <= c < 256 ->
  Z.land (a + 256 * y) (c + 256 * d) = Z.land a c + 256 * Z.land y d.
Proof.
  intros Ha Hc. rewrite (Z.div_mod (Z.land (a + 256 * y) (c + 256 * d)) (2 ^ 8)) by lia.
  rewrite <- Z.land_ones, <- Z.shiftr_div_pow2 by lia.
  rewrite Z.shiftr_land, !Z.shiftr_div_pow2 by lia.
  replace (Z.land (Z.land (a + 256 * y) (c + 256 * d)) (Z.ones 8))
    with (Z.land (Z.land (a + 256 * y) (Z.ones 8)) (Z.land (c + 256 * d) (Z.ones 8))).
  2: { apply Z.bits_inj'; intros n Hn. rewrite !Z.land_spec.
       repeat match goal with |- context [Z.testbit ?x n] => destruct (Z.testbit x n) end; done. }
  rewrite !Z.land_ones by lia. change (2 ^ 8) with 256.
  replace (a + 256 * y) with (a + y * 256) by lia. replace (c + 256 * d) with (c + d * 256) by lia.
  rewrite !Z_mod_plus_full, !Z.div_add, !Z.mod_small, !Z.div_small by lia.
  rewrite !Z.add_0_l. lia.
Qed.

Lemma halve_step b x m :
  0 <= b < 256 ->
  Z.land (Z.shiftr (b + 256 * x) 1) (127 + 256 * m) = b / 2 + 256 * Z.land (Z.shiftr x 1) m.
Proof.
  intros Hb. rewrite !Z.shiftr_div_pow2 by lia. change (2 ^ 1) with 2.
  replace ((b + 256 * x) / 2) with ((b / 2 + 128 * (x mod 2)) + 256 * (x / 2)) by zdiv.
  rewrite land_bytes by zdiv. f_equal.
  change 127 with (Z.ones 7). rewrite Z.land_ones by lia.
  replace (b / 2 + 128 * (x mod 2)) with (b / 2 + x mod 2 * 2 ^ 7) by lia.
  rewrite Z_mod_plus_full. apply Z.mod_small. zdiv.
Qed.

Lemma halve_word l :
  Forall is_byte l ->
  Z.land (Z.shiftr (le_word l) 1) (le_word (replicate (length l) 127)) =
  le_word ((fun b => b / 2) <$> l).
Proof.
  induction 1 as [|b l Hb Hl IH]; simpl; [done|].
  by rewrite halve_step, IH.
Qed.

Lemma halved_bytes l : Forall is_byte l -> Forall is_byte ((fun b => b / 2) <$> l).
Proof.
  unfold is_byte. induction 1; simpl; constructor; [zdiv|done].
Qed.

(** One round of the loop of [try_increase_info]. *)
Lemma halve_store l i :
  Forall is_byte l -> (i + 8 <= length l)%nat ->
  exists v, unaligned_load l i = Some v /\
  store64 l i (Z.land (Z.shiftr v 1) 0x7f7f7f7f7f7f7f7f) =
  Some (take i l ++ ((fun b => b / 2) <$> take 8 (drop i l)) ++ drop (i + 8) l).
Proof.
  intros Hl Hi. unfold unaligned_load, store64.
  destruct (decide (i + 8 <= length l)%nat); [|lia].
  eexists; split; [done|]. do 3 f_equal.
  assert (length (take 8 (drop i l)) = 8%nat) as H8 by (rewrite length_take, length_drop; lia).
  assert (Forall is_byte (take 8 (drop i l))) by (by apply Forall_take, Forall_drop).
  replace 0x7f7f7f7f7f7f7f7f with (le_word (replicate (length (take 8 (drop i l))) 127))
    by (by rewrite H8).
  rewrite halve_word by done.
  rewrite <- (le_bytes_word ((fun b => b / 2) <$> take 8 (drop i l))) at 2
    by (by apply halved_bytes).
  by rewrite length_fmap, H8.
Qed.

Lemma ib_app l1 l2 i :
  ib (l1 ++ l2) i = if decide (i < length l1)%nat then ib l1 i else ib l2 (i - length l1)%nat.
Proof.
  unfold ib. case_decide.
  - by rewrite lookup_app_l.
  - by rewrite lookup_app_r by lia.
Qed.

Lemma ib_take l n i : ib (take n l) i = if decide (i < n)%nat then ib l i else 0.
Proof.
  unfold ib. case_decide; [by rewrite lookup_take_lt|].
  rewrite lookup_ge_None_2; [done|]. rewrite length_take; lia.
Qed.

Lemma ib_drop l n i : ib (drop n l) i = ib l (n + i)%nat.
Proof. unfold ib. by rewrite lookup_drop. Qed.

Lemma ib_halved l i : ib ((fun b => b / 2) <$> l) i = ib l i / 2.
Proof. unfold ib. rewrite list_lookup_fmap. by destruct (l !! i). Qed.

(** Bytes after a round that halves the bytes [i .. i+7]. *)
Lemma ib_round l i j :
  (i + 8 <= length l)%nat ->
  ib (take i l ++ ((fun b => b / 2) <$> take 8 (drop i l)) ++ drop (i + 8) l) j =
  if decide (i <= j < i + 8)%nat then ib l j / 2 else ib l j.
Proof.
  intros Hi.
  rewrite !ib_app, length_fmap, !length_take, length_drop, ib_halved, !ib_take, !ib_drop.
  repeat case_decide; try lia; do 2 f_equal; lia.
Qed.

Lemma length_round (l : list Z) i :
  (i + 8 <= length l)%nat ->
  length (take i l ++ ((fun b => b / 2) <$> take 8 (drop i l)) ++ drop (i + 8) l) = length l.
Proof. intros. rewrite !length_app, length_fmap, !length_take, !length_drop. lia. Qed.

(** The whole loop: it stays inside the block, halves exactly the bytes of the
    words it visits and leaves the rest alone. *)
Lemma halveWords_spec fuel i W l :
  Forall is_byte l -> (W + 8 <= length l)%nat -> (W <= i + 8 * fuel)%nat ->
  exists l', halveWords (S fuel) i W l = Some l' /\ length l' = length l /\ Forall is_byte l' /\
  (forall j, (j < i)%nat -> ib l' j = ib l j) /\
  (forall j, (i <= j < W)%nat -> ib l' j = ib l j / 2) /\
  (forall j, (W <= j)%nat -> ib l j = 0 -> ib l' j = 0).
Proof.
  revert i l. induction fuel as [|fuel IH]; intros i l Hl Hlen Hfuel.
  - exists l. simpl. destruct (decide (i < W)%nat); [lia|]. split_and!; auto; lia.
  - remember (S fuel) as fuel'. simpl. destruct (decide (i < W)%nat) as [Hi|Hi].
    + destruct (halve_store l i Hl ltac:(lia)) as (v & -> & Hst). simpl. rewrite Hst. simpl.
      set (l1 := take i l ++ _) in *.
      assert (Forall is_byte l1) as Hl1.
      { unfold l1. rewrite !Forall_app. split_and!; auto using Forall_take, Forall_drop.
        by apply halved_bytes, Forall_take, Forall_drop. }
      assert (length l1 = length l) as Hlen1 by (apply length_round; lia).
      destruct (IH (i + 8)%nat l1 Hl1 ltac:(lia) ltac:(lia)) as (l' & ? & ? & ? & Hlo & Hmid & Hhi).
      exists l'. split_and!; auto; try lia.
      * intros j Hj. rewrite Hlo by lia. unfold l1. rewrite ib_round by lia.
        case_decide; [lia|done].
      * intros j Hj. destruct (decide (j < i + 8)%nat).
        -- rewrite Hlo by lia. unfold l1. rewrite ib_round by lia. case_decide; [done|lia].
        -- rewrite Hmid by lia. unfold l1. rewrite ib_round by lia. case_decide; [lia|done].
      * intros j Hj Hz. apply Hhi; [done|]. unfold l1. rewrite ib_round by lia.
        case_decide; [|done]. by rewrite Hz.
    + exists l. split_and!; auto; lia.
Qed.

(** ** Finding the first non-zero byte of a word *)

Lemma ctz_pos_divide p : (2 ^ ctz_pos p | Zpos p) /\ 0 <= ctz_pos p.
Proof.
  induction p as [p IH|p IH|]; simpl; try (split; [apply Z.divide_1_l|lia]).
  destruct IH as [[q Hq] Hp]. split; [|lia]. exists q.
  rewrite Z.pow_add_r by lia. lia.
Qed.

Lemma ctz_mul256 x : 0 < x -> COUNT_TRAILING_ZEROES (256 * x) = 8 + COUNT_TRAILING_ZEROES x.
Proof.
  intros Hx. destruct x as [|p|p]; try lia.
  change (256 * Z.pos p) with (Z.pos (p~0~0~0~0~0~0~0~0)).
  cbn [COUNT_TRAILING_ZEROES ctz_pos]. lia.
Qed.

Lemma ctz_low b x : 0 < b < 256 -> 0 <= x -> 0 <= COUNT_TRAILING_ZEROES (b + 256 * x) < 8.
Proof.
  intros Hb Hx. destruct (b + 256 * x) as [|p|p] eqn:E; try lia. cbn [COUNT_TRAILING_ZEROES].
  destruct (ctz_pos_divide p) as [[q Hq] Hp]. split; [done|].
  destruct (Z.lt_ge_cases (ctz_pos p) 8); [done|exfalso].
  replace (ctz_pos p) with (8 + (ctz_pos p - 8)) in Hq by lia.
  rewrite Z.pow_add_r in Hq by lia. change (2 ^ 8) with 256 in Hq.
  assert (b = 256 * (q * 2 ^ (ctz_pos p - 8) - x)) by lia. lia.
Qed.

(** Index of the first non-zero byte. *)
Fixpoint first_nonzero (l : list Z) : option nat :=
  match l with
  | [] => None
  | b :: l => if b =? 0 then S <$> first_nonzero l else Some O
  end.

Lemma le_word_nonneg l : Forall is_byte l -> 0 <= le_word l.
Proof. intros H%le_word_bound; lia. Qed.

Lemma ctz_le_word l :
  Forall is_byte l ->
  match first_nonzero l with
  | Some j => le_word l <> 0 /\ 0 <= COUNT_TRAILING_ZEROES (le_word l) /\
              Z.to_nat (COUNT_TRAILING_ZEROES (le_word l) / 8) = j
  | None => le_word l = 0
  end.
Proof.
  induction 1 as [|b l Hb Hl IH]; simpl; [done|].
  unfold is_byte in Hb. pose proof (le_word_nonneg l Hl).
  destruct (Z.eqb_spec b 0) as [->|].
  - destruct (first_nonzero l) as [j|]; simpl.
    + destruct IH as (Hn & Hc & <-). rewrite Z.add_0_l, ctz_mul256 by lia.
      split_and!; try lia.
      replace (8 + COUNT_TRAILING_ZEROES (le_word l))
        with (COUNT_TRAILING_ZEROES (le_word l) + 1 * 8) by lia.
      rewrite Z.div_add by lia. rewrite Z2Nat.inj_add by zdiv. lia.
    + lia.
  - pose proof (ctz_low b (le_word l) ltac:(lia) ltac:(lia)).
    split_and!; try lia. by rewrite Z.div_small by lia.
Qed.

Lemma first_nonzero_Some l j :
  first_nonzero l = Some j <->
  (j < length l)%nat /\ ib l j <> 0 /\ forall i, (i < j)%nat -> ib l i = 0.
Proof.
  revert j. induction l as [|b l IH]; intros j; simpl.
  - split; [done|]. intros (?&?&?); lia.
  - destruct (Z.eqb_spec b 0) as [->|Hb].
    + rewrite fmap_Some. split.
      * intros (j' & (?&?&Hz)%IH & ->). split_and!; [lia|done|].
        intros [|i] ?; [done|]. apply (Hz i). lia.
      * intros (?&Hnz&Hz). destruct j as [|j]; [done|]. exists j. split; [|done].
        apply IH. split_and!; [lia|done|]. intros i ?. apply (Hz (S i)). lia.
    + split.
      * intros [= <-]. split_and!; [lia|done|]. intros; lia.
      * intros (?&Hnz&Hz). destruct j as [|j]; [done|]. specialize (Hz O ltac:(lia)). done.
Qed.

(** The iterator's jump: if [j] is the first slot from [idx] on with a non-zero
    info byte, and the word at [j] is inside the block, the jump lands on [j]. *)
Lemma fastForward_spec fuel l idx j :
  Forall is_byte l -> (idx <= j)%nat -> (j + 8 <= length l)%nat ->
  ib l j <> 0 -> (forall i, (idx <= i < j)%nat -> ib l i = 0) ->
  (j < idx + 8 * fuel)%nat ->
  fastForward fuel l idx = Some j.
Proof.
  revert idx. induction fuel as [|fuel IH]; intros idx Hl Hij Hlen Hj Hz Hfuel; [lia|].
  cbn [fastForward]. unfold unaligned_load. destruct (decide (idx + 8 <= length l)%nat); [|lia].
  unfold mbind, option_bind.
  pose proof (ctz_le_word (take 8 (drop idx l)) ltac:(by apply Forall_take, Forall_drop)) as Hc.
  assert (forall i, (i < 8)%nat -> ib (take 8 (drop idx l)) i = ib l (idx + i)%nat) as Hib.
  { intros i ?. rewrite ib_take, ib_drop. case_decide; [done|lia]. }
  destruct (first_nonzero (take 8 (drop idx l))) as [i|] eqn:E.
  - apply first_nonzero_Some in E as (Hi & Hnz & Hzi).
    rewrite length_take, length_drop in Hi.
    destruct Hc as (Hne & _ & ->). destruct (Z.eqb_spec 0 (le_word (take 8 (drop idx l)))); [congruence|].
    f_equal. rewrite Hib in Hnz by lia.
    destruct (decide (j < idx + i)%nat).
    + specialize (Hzi (j - idx)%nat ltac:(lia)). rewrite Hib in Hzi by lia.
      replace (idx + (j - idx))%nat with j in Hzi by lia. congruence.
    + destruct (decide (j = idx + i)%nat); [lia|].
      specialize (Hz (idx + i)%nat ltac:(lia)). congruence.
  - rewrite Hc, Z.eqb_refl.
    assert (idx + 8 <= j)%nat.
    { destruct (decide (idx + 8 <= j)%nat); [done|exfalso].
      assert (is_Some (first_nonzero (take 8 (drop idx l)))) as [x Hx]; [|congruence].
      exists (j - idx)%nat. apply first_nonzero_Some.
      rewrite length_take, length_drop. split_and!; [lia| |].
      - rewrite Hib by lia. by replace (idx + (j - idx))%nat with j by lia.
      - intros i ?. rewrite Hib by lia. apply Hz; lia. }
    apply IH; auto; try lia. intros; apply Hz; lia.
Qed.

(** * Probing a robin-hood table

    The loops of [findIdx], [erase], [doInsert] and [insert_move] on a table
    whose slots satisfy [layout]: every read is inside the block, the step
    budgets suffice, and the search finds a key exactly when it is stored. *)

Section probe.
Context {K V : Type} `{EqDecision K}.
Context (hasher : K -> Z) (dh : bool).
Implicit Types t : Table K V.

Abbreviation home := (home hasher dh).
Abbreviation bits := (bits hasher dh).
Abbreviation expected := (expected hasher dh).
Abbreviation layout := (layout hasher dh).

(** Bytes and slots of a table as total functions. *)
Definition F t : nat -> Z := ib (info_bytes t).
Definition G t : nat -> option (K * V) := nb (nodes t).

(** What the probing loops need: a block of [W] slots and [W + 8] info bytes
    whose contents are laid out correctly. *)
Record probe_inv t (W : nat) : Prop := {
  pi_nodes : length (nodes t) = W;
  pi_info : length (info_bytes t) = (W + 8)%nat;
  pi_inc : good_inc (mInfoInc t) (mInfoHashShift t);
  pi_mask : exists n, 0 <= n <= 62 /\ mMask t + 1 = 2 ^ n;
  pi_room : mMask t <= Z.of_nat W;
  pi_layout : layout (mMask t) (mInfoInc t) (mInfoHashShift t) W (F t) (G t);
}.

(** Where a key's probe sequence is at slot [i]. *)
Abbreviation expt t := (expected (mMask t) (mInfoInc t) (mInfoHashShift t)).
Abbreviation homet t := (home (mMask t)).

Section at_table.
Context (t : Table K V) (W : nat) (P : probe_inv t W).

Lemma probe_inc : 2 <= mInfoInc t <= 32.
Proof. eapply good_inc_range, (pi_inc t W P). Qed.

Lemma homet_le k : (homet t k <= W)%nat.
Proof.
  destruct (pi_mask t W P) as (n & ? & Hm).
  pose proof (home_le hasher dh n (mMask t) k ltac:(lia) Hm).
  pose proof (pi_room t W P). lia.
Qed.

Lemma keyToIdx_spec k : keyToIdx hasher dh t k = (expt t k (homet t k), homet t k).
Proof.
  unfold keyToIdx, expected. f_equal.
  pose proof (bits_range hasher dh _ _ k (pi_inc t W P)). pose proof probe_inc.
  unfold bits in *. rewrite wrap_small by lia. lia.
Qed.

Lemma next_spec k i : expt t k i <= 400 -> (homet t k <= i)%nat ->
  next t (expt t k i) i = (expt t k (S i), S i).
Proof.
  intros Hle Hh. unfold next. f_equal. rewrite exp_S. pose proof probe_inc.
  pose proof (exp_low hasher dh (mMask t) _ _ (pi_inc t W P) k i Hh).
  apply wrap_small. lia.
Qed.

Lemma read_info_spec i : (i < W + 8)%nat -> read_info i t = Ok t (F t i).
Proof.
  intros Hi. unfold read_info, mbind, M_bind, get. simpl.
  rewrite ib_lookup by (rewrite (pi_info t W P); lia). done.
Qed.

Lemma read_node_spec i kv : G t i = Some kv -> read_node i t = Ok t kv.
Proof.
  intros Hg%nb_lookup. unfold read_node, mbind, M_bind, get. simpl.
  by rewrite Hg.
Qed.

Lemma Ft_byte i : 0 <= F t i <= 255.
Proof. eapply f_byte; apply P. Qed.

(** Beyond the slots no byte reaches the increment. *)
Lemma Ft_high i : (W <= i)%nat -> F t i < mInfoInc t.
Proof.
  intros Hi. pose proof probe_inc.
  destruct (f_cases hasher dh _ _ _ _ _ _ (pi_inc t W P) (pi_layout t W P) i)
    as [(?&?&?&?&?)|[(?&?&?)|(?&?&?)]]; lia.
Qed.

Lemma Ft_lt k i : (homet t k <= i)%nat -> expt t k i <= F t i -> (i < W)%nat.
Proof.
  intros Hh Hle. destruct (decide (i < W)%nat); [done|exfalso].
  pose proof (Ft_high i ltac:(lia)).
  pose proof (exp_low hasher dh (mMask t) _ _ (pi_inc t W P) k i Hh). lia.
Qed.

(** [nextWhileLess] stops at the first slot whose byte the probe dominates. *)
Lemma nextWhileLess_spec fuel k i :
  (homet t k <= i <= W)%nat -> (W < i + fuel)%nat ->
  exists q, nextWhileLess fuel (expt t k i) i t = Ok t (expt t k q, q) /\
  (i <= q <= W)%nat /\ F t q <= expt t k q /\
  (forall m, (i <= m < q)%nat -> expt t k m < F t m).
Proof.
  revert i. induction fuel as [|fuel IH]; intros i Hi Hfuel; [lia|].
  cbn [nextWhileLess]. unfold mbind, M_bind, get.
  rewrite read_info_spec by lia. destruct (Z.ltb_spec (expt t k i) (F t i)) as [Hlt|Hge].
  - pose proof (Ft_byte i). rewrite next_spec by lia.
    pose proof (Ft_lt k i ltac:(lia) ltac:(lia)).
    destruct (IH (S i) ltac:(lia) ltac:(lia)) as (q & -> & Hq & Hdom & Hb).
    exists q. split_and!; auto; try lia. intros m Hm.
    destruct (decide (m = i)) as [->|]; [done|]. apply Hb. lia.
  - exists i. split_and!; auto; try lia.
Qed.

(** [matchLoop] returns the key's slot, or the insertion point. *)
Lemma matchLoop_spec fuel k i :
  (homet t k <= i <= W)%nat -> (W < i + fuel)%nat -> F t i <= expt t k i ->
  (exists j v, matchLoop fuel k (expt t k i) i t = Ok t (inl j) /\ G t j = Some (k, v)) \/
  (exists p, matchLoop fuel k (expt t k i) i t = Ok t (inr (expt t k p, p)) /\
   (i <= p <= W)%nat /\ F t p < expt t k p /\
   (forall m, (i <= m < p)%nat -> F t m = expt t k m /\ forall v, G t m <> Some (k, v))).
Proof.
  revert i. induction fuel as [|fuel IH]; intros i Hi Hfuel Hdom; [lia|].
  cbn [matchLoop]. unfold mbind, M_bind, get.
  rewrite read_info_spec by lia. destruct (Z.eqb_spec (expt t k i) (F t i)) as [Heq|Hne].
  - pose proof (exp_low hasher dh (mMask t) _ _ (pi_inc t W P) k i ltac:(lia)).
    destruct (f_nonzero hasher dh _ _ _ _ _ _ (pi_inc t W P) (pi_layout t W P) i ltac:(lia))
      as (k' & v' & Hg).
    rewrite (read_node_spec i _ Hg). cbn [fst]. case_decide as Hk.
    + subst k'. left. exists i, v'. done.
    + pose proof (Ft_byte i). rewrite next_spec by lia.
      pose proof (Ft_lt k i ltac:(lia) ltac:(lia)).
      destruct (IH (S i) ltac:(lia) ltac:(lia)) as [(j & v & -> & ?)|(p & -> & Hp & Hlt & Hb)].
      { eapply dominate_step; [apply P|apply P|lia|lia]. }
      * left. eauto.
      * right. exists p. split_and!; auto; try lia. intros m Hm.
        destruct (decide (m = i)) as [->|]; [|apply Hb; lia].
        split; [done|]. intros v Hv. congruence.
  - right. exists i. split_and!; auto; try lia.
Qed.

(** The search of [doInsert] as a whole. *)
Lemma search_spec fuel k :
  (W < fuel)%nat ->
  exists info idx,
    nextWhileLess fuel (expt t k (homet t k)) (homet t k) t = Ok t (info, idx) /\
    ((exists j v, matchLoop fuel k info idx t = Ok t (inl j) /\ G t j = Some (k, v)) \/
     (exists p, matchLoop fuel k info idx t = Ok t (inr (expt t k p, p)) /\
      (homet t k <= p <= W)%nat /\ F t p < expt t k p /\
      (forall m, (homet t k <= m < p)%nat -> expt t k m <= F t m) /\
      (forall m v, G t m <> Some (k, v)))).
Proof.
  intros Hfuel. pose proof (homet_le k).
  destruct (nextWhileLess_spec fuel k (homet t k)) as (q & Hq & Hr & Hdom & Hb); [lia|lia|].
  exists (expt t k q), q. split; [done|].
  destruct (matchLoop_spec fuel k q) as [?|(p & Hp & Hpr & Hlt & Hm)]; auto; try lia.
  right. exists p. split_and!; auto; try lia.
  - intros m ?. destruct (decide (m < q)%nat); [pose proof (Hb m); lia|].
    destruct (Hm m); lia.
  - eapply not_stored; [apply P|apply P| |exact Hlt|]; [lia|].
    intros m v Hmr Hv. destruct (decide (m < q)%nat).
    + pose proof (Hb m ltac:(lia)).
      pose proof (live_neq hasher dh _ _ _ _ _ _ (pi_layout t W P) _ _ _ Hv). lia.
    + destruct (Hm m ltac:(lia)) as [_ Hno]. by apply (Hno v).
Qed.

(** [nextWhileLessEq] of [insert_move]: the insertion point of a new key. *)
Lemma nextWhileLessEq_spec fuel k i :
  (homet t k <= i <= W)%nat -> (W < i + fuel)%nat ->
  (forall m, (homet t k <= m < i)%nat -> expt t k m <= F t m) ->
  exists p, nextWhileLessEq fuel (expt t k i) i t = Ok t (expt t k p, p) /\
  (i <= p <= W)%nat /\ F t p < expt t k p /\
  (forall m, (homet t k <= m < p)%nat -> expt t k m <= F t m).
Proof.
  revert i. induction fuel as [|fuel IH]; intros i Hi Hfuel Hbef; [lia|].
  cbn [nextWhileLessEq]. unfold mbind, M_bind, get.
  rewrite read_info_spec by lia. destruct (Z.leb_spec (expt t k i) (F t i)) as [Hle|Hlt].
  - pose proof (Ft_byte i). rewrite next_spec by lia.
    pose proof (Ft_lt k i ltac:(lia) ltac:(lia)).
    destruct (IH (S i)) as (p & -> & ? & ? & ?); try lia.
    { intros m Hm. destruct (decide (m = i)) as [->|]; [done|]. apply Hbef; lia. }
    exists p. split_and!; auto; lia.
  - exists i. split_and!; auto; lia.
Qed.

(** One comparison hits exactly when the key is stored in that slot. *)
Lemma probe_spec k i :
  (homet t k <= i < W + 8)%nat ->
  exists b, probe k (expt t k i) i t = Ok t b /\ (b = true <-> exists v, G t i = Some (k, v)).
Proof.
  intros Hi. unfold probe, mbind, M_bind. rewrite read_info_spec by lia.
  destruct (Z.eqb_spec (expt t k i) (F t i)) as [Heq|Hne].
  - pose proof (exp_low hasher dh (mMask t) _ _ (pi_inc t W P) k i ltac:(lia)).
    destruct (f_nonzero hasher dh _ _ _ _ _ _ (pi_inc t W P) (pi_layout t W P) i ltac:(lia))
      as (k' & v' & Hg).
    rewrite (read_node_spec i _ Hg). eexists; split; [done|]. rewrite bool_decide_eq_true, Hg.
    simpl. split; [intros ->; eauto|by intros [v [= -> ->]]].
  - exists false. split; [done|]. split; [done|]. intros [v Hv].
    pose proof (live_neq hasher dh _ _ _ _ _ _ (pi_layout t W P) _ _ _ Hv). lia.
Qed.

Lemma findIdxLoop_spec fuel k i :
  (homet t k <= i <= W)%nat -> (W < i + 2 * fuel)%nat -> expt t k i <= 255 ->
  (forall m v, (homet t k <= m < i)%nat -> G t m <> Some (k, v)) ->
  (exists j v, findIdxLoop fuel k (expt t k i) i t = Ok t (Some j) /\ G t j = Some (k, v)) \/
  (findIdxLoop fuel k (expt t k i) i t = Ok t None /\ forall m v, G t m <> Some (k, v)).
Proof.
  pose proof probe_inc as Hinc.
  revert i. induction fuel as [|fuel IH]; intros i Hi Hfuel Hle Hbef; [lia|].
  cbn [findIdxLoop]. unfold mbind, M_bind, get.
  destruct (probe_spec k i) as (b & -> & Hb); [lia|]. destruct b.
  { left. destruct Hb as [Hb _]. destruct (Hb eq_refl) as [v ?]. eauto. }
  rewrite next_spec by lia. pose proof (exp_S hasher dh (mMask t) (mInfoInc t) (mInfoHashShift t) k i).
  destruct (probe_spec k (S i)) as (b & -> & HbS); [lia|]. destruct b.
  { left. destruct HbS as [HbS _]. destruct (HbS eq_refl) as [v ?]. eauto. }
  rewrite next_spec by lia. rewrite read_info_spec by lia.
  assert (forall m v, (homet t k <= m < S (S i))%nat -> G t m <> Some (k, v)) as Hbef2.
  { intros m v Hm Hv. destruct (decide (m = i)) as [->|]; [by destruct Hb as [_ Hb]; discriminate Hb; eauto|].
    destruct (decide (m = S i)) as [->|]; [by destruct HbS as [_ HbS]; discriminate HbS; eauto|]. by apply (Hbef m v); [lia|]. }
  destruct (Z.leb_spec (expt t k (S (S i))) (F t (S (S i)))) as [Hc|Hc].
  - pose proof (Ft_lt k (S (S i)) ltac:(lia) Hc). pose proof (Ft_byte (S (S i))).
    apply IH; auto; lia.
  - right. split; [done|]. eapply not_stored; [apply P|apply P| |exact Hc|done]. lia.
Qed.

(** [findIdx] returns the slot of the key, or the index of [end()]. *)
Lemma findIdx_cases k :
  (exists j v, findIdx hasher dh k t = Ok t j /\ G t j = Some (k, v) /\ (j < W)%nat) \/
  (findIdx hasher dh k t = Ok t (if mMask t =? 0 then O else W) /\ forall m v, G t m <> Some (k, v)).
Proof.
  pose proof (homet_le k). pose proof probe_inc.
  pose proof (bits_range hasher dh _ _ k (pi_inc t W P)).
  unfold findIdx, mbind, M_bind, get. rewrite keyToIdx_spec.
  destruct (findIdxLoop_spec (loop_fuel t) k (homet t k)) as [(j & v & -> & Hj)|(-> & Hno)].
  - lia.
  - unfold loop_fuel. rewrite (pi_info t W P). lia.
  - rewrite exp_home. lia.
  - intros; lia.
  - left. exists j, v. split_and!; auto. rewrite <- (pi_nodes t W P). eapply nb_lt, Hj.
  - right. split; [|done]. unfold end_idx. by rewrite (pi_nodes t W P).
Qed.

(** [findEmpty] returns the first empty slot. *)
Lemma findEmpty_spec fuel p e :
  (p <= e < W + 8)%nat -> (e < p + fuel)%nat -> F t e = 0 ->
  (forall i, (p <= i < e)%nat -> F t i <> 0) -> findEmpty fuel p t = Ok t e.
Proof.
  revert p. induction fuel as [|fuel IH]; intros p Hp Hfuel He Hb; [lia|].
  cbn [findEmpty]. unfold mbind, M_bind. rewrite read_info_spec by lia.
  destruct (Z.eqb_spec 0 (F t p)) as [Hz|Hz].
  - destruct (decide (p = e)) as [->|]; [done|]. exfalso. apply (Hb p); lia.
  - destruct (decide (p = e)) as [->|]; [lia|]. apply IH; auto; try lia.
    intros; apply Hb; lia.
Qed.

End at_table.
End probe.
