(* ===== verification/RobinHoodInv.v ===== *)
(** * Updates of a robin-hood table

    The loops that move nodes and info bytes ([shiftUp], [shiftDown]), the
    placement of a new node and the widening of the distance field, each with
    its effect on the slots given pointwise. *)
From Stdlib Require Import ZArith Lia.
From stdpp Require Import base list gmap numbers.
From S2P Require Import Prelude Hash RobinHood RobinHoodLayout.
#[local] Open Scope Z_scope.

(** Field access on explicit tables. *)
Ltac tcbn := cbn [mStore mNumElements mMask mMaxNumElementsAllowed mInfoInc mInfoHashShift].

Section heap.
Context {K V : Type} `{EqDecision K}.
Implicit Types (nd : list (option (K * V))) (info : list Z).

(** ** Single accesses to a heap block *)

Lemma read_info_heap nd info n m mx inc sh i :
  (i < length info)%nat ->
  read_info i (mkTable (Heap nd info) n m mx inc sh) =
  Ok (mkTable (Heap nd info) n m mx inc sh) (ib info i).
Proof. intros Hi. unfold read_info, mbind, M_bind, get. simpl. by rewrite ib_lookup. Qed.

Lemma write_info_heap nd info n m mx inc sh i b :
  (i < length info)%nat ->
  write_info i b (mkTable (Heap nd info) n m mx inc sh) =
  Ok (mkTable (Heap nd (<[i := b]> info)) n m mx inc sh) tt.
Proof.
  intros Hi. unfold write_info, mbind, M_bind, get, info_bytes. simpl.
  destruct (decide (i < length info)%nat); [done|lia].
Qed.

Lemma read_node_heap nd info n m mx inc sh i kv :
  nb nd i = Some kv ->
  read_node i (mkTable (Heap nd info) n m mx inc sh) =
  Ok (mkTable (Heap nd info) n m mx inc sh) kv.
Proof.
  intros Hi%nb_lookup. unfold read_node, mbind, M_bind, get, nodes. simpl. by rewrite Hi.
Qed.

Lemma set_node_heap nd info n m mx inc sh i o :
  (i < length nd)%nat ->
  set_node i o (mkTable (Heap nd info) n m mx inc sh) =
  Ok (mkTable (Heap (<[i := o]> nd) info) n m mx inc sh) tt.
Proof.
  intros Hi. unfold set_node, mbind, M_bind, get, nodes. simpl.
  destruct (decide (i < length nd)%nat); [done|lia].
Qed.

(** ** shiftUp *)

(** The node loop moves the live slots [ins .. idx-2] up by one. *)
Lemma shiftUpNodes_heap fuel nd info n m mx inc sh idx ins :
  (ins < idx <= length nd)%nat -> (idx <= fuel + ins)%nat ->
  (forall i, (ins <= i < pred idx)%nat -> is_Some (nb nd i)) ->
  exists nd', shiftUpNodes fuel idx ins (mkTable (Heap nd info) n m mx inc sh) =
    Ok (mkTable (Heap nd' info) n m mx inc sh) tt /\ length nd' = length nd /\
  (forall i, nb nd' i = if decide (ins < i < idx)%nat then nb nd (pred i) else nb nd i).
Proof.
  revert idx nd. induction fuel as [|fuel IH]; intros idx nd Hidx Hfuel Hlive; [lia|].
  cbn [shiftUpNodes]. destruct (decide (pred idx = ins)) as [He|Hne].
  - exists nd. split_and!; auto. intros i. case_decide; [lia|done].
  - destruct (Hlive (pred (pred idx)) ltac:(lia)) as [kv Hkv].
    unfold mbind at 1, M_bind at 1. rewrite (read_node_heap _ _ _ _ _ _ _ _ kv Hkv).
    unfold mbind at 1, M_bind at 1. unfold write_node. rewrite set_node_heap by lia.
    destruct (IH (pred idx) (<[pred idx := Some kv]> nd)) as (nd' & -> & Hlen & Hnb).
    + rewrite length_insert. lia.
    + lia.
    + intros i Hi. rewrite nb_insert by lia. case_decide; [lia|]. apply Hlive. lia.
    + exists nd'. rewrite length_insert in Hlen. split_and!; auto.
      intros i. rewrite Hnb, !nb_insert by lia.
      repeat case_decide; try lia; subst; auto.
Qed.

(** The byte loop adds the increment to the bytes it moves, and marks the table
    full when the next move could overflow a byte. *)
Lemma shiftUpInfo_heap fuel nd info n m mx inc sh idx ins :
  (ins <= idx < length info)%nat -> (idx < fuel + ins)%nat ->
  (forall i, (ins <= i < idx)%nat -> 0 <= ib info i + inc <= 255) ->
  exists info' mx', shiftUpInfo fuel idx ins (mkTable (Heap nd info) n m mx inc sh) =
    Ok (mkTable (Heap nd info') n m mx' inc sh) tt /\ length info' = length info /\
  (forall i, ib info' i = if decide (ins < i <= idx)%nat then ib info (pred i) + inc else ib info i) /\
  (mx' = 0 \/ mx' = mx /\ forall i, (ins < i <= idx)%nat -> ib info' i + inc <= 255).
Proof.
  revert idx info mx. induction fuel as [|fuel IH]; intros idx info mx Hidx Hfuel Hb; [lia|].
  cbn [shiftUpInfo]. destruct (decide (idx = ins)) as [He|Hne].
  - exists info, mx. split_and!; auto.
    + intros i. case_decide; [lia|done].
    + right. split; [done|]. intros; lia.
  - unfold mbind at 1, M_bind at 1, get. unfold mbind at 1, M_bind at 1.
    rewrite read_info_heap by lia. cbn [mInfoInc].
    pose proof (Hb (pred idx) ltac:(lia)) as Hp. rewrite (wrap_small 8) by lia.
    unfold mbind at 1, M_bind at 1. rewrite write_info_heap by lia.
    set (mx1 := if 0xFF <? ib info (pred idx) + inc + inc then 0 else mx).
    assert ((if 0xFF <? ib info (pred idx) + inc + inc then modify (set_max 0) else mret tt)
      (mkTable (Heap nd (<[idx := ib info (pred idx) + inc]> info)) n m mx inc sh) =
      Ok (mkTable (Heap nd (<[idx := ib info (pred idx) + inc]> info)) n m mx1 inc sh) tt) as Hm.
    { unfold mx1. by destruct (0xFF <? _). }
    unfold mbind at 1, M_bind at 1. rewrite Hm.
    destruct (IH (pred idx) (<[idx := ib info (pred idx) + inc]> info) mx1)
      as (info' & mx' & -> & Hlen & Hib & Hmx).
    + rewrite length_insert. lia.
    + lia.
    + intros i Hi. rewrite ib_insert by lia. case_decide; [lia|]. apply Hb. lia.
    + rewrite length_insert in Hlen.
      assert (forall i, ib info' i =
        if decide (ins < i <= idx)%nat then ib info (pred i) + inc else ib info i) as Hib'.
      { intros i. rewrite Hib, !ib_insert by lia. repeat case_decide; try lia; subst; auto. }
      exists info', mx'. split_and!; auto.
      destruct Hmx as [->|[-> Hle]]; [by left|]. subst mx1.
      destruct (Z.ltb_spec 0xFF (ib info (pred idx) + inc + inc)); [by left|right].
      split; [done|]. intros i Hi. destruct (decide (i = idx)) as [->|]; [|apply Hle; lia].
      rewrite Hib'. case_decide; [lia|]. lia.
Qed.

Lemma shiftUp_heap nd info n m mx inc sh e p :
  (p < e < length nd)%nat -> (length nd <= length info)%nat ->
  (forall i, (p <= i < e)%nat -> is_Some (nb nd i)) ->
  (forall i, (p <= i < e)%nat -> 0 <= ib info i + inc <= 255) ->
  exists nd' info' mx', shiftUp e p (mkTable (Heap nd info) n m mx inc sh) =
    Ok (mkTable (Heap nd' info') n m mx' inc sh) tt /\
  length nd' = length nd /\ length info' = length info /\
  (forall i, nb nd' i = if decide (p < i <= e)%nat then nb nd (pred i) else nb nd i) /\
  (forall i, ib info' i = if decide (p < i <= e)%nat then ib info (pred i) + inc else ib info i) /\
  (mx' = 0 \/ mx' = mx /\ forall i, (p < i <= e)%nat -> ib info' i + inc <= 255).
Proof.
  intros He Hlen Hlive Hb. unfold shiftUp.
  destruct (Hlive (pred e) ltac:(lia)) as [kv Hkv].
  unfold mbind at 1, M_bind at 1. rewrite (read_node_heap _ _ _ _ _ _ _ _ kv Hkv).
  unfold mbind at 1, M_bind at 1. unfold write_node. rewrite set_node_heap by lia.
  destruct (shiftUpNodes_heap (S e) (<[e := Some kv]> nd) info n m mx inc sh e p)
    as (nd' & Hnd & Hl1 & Hnb).
  { rewrite length_insert. lia. }
  { lia. }
  { intros i Hi. rewrite nb_insert by lia. case_decide; [lia|]. apply Hlive. lia. }
  unfold mbind at 1, M_bind at 1. rewrite Hnd.
  destruct (shiftUpInfo_heap (S e) nd' info n m mx inc sh e p)
    as (info' & mx' & -> & Hl2 & Hib & Hmx); [lia|lia|done|].
  rewrite length_insert in Hl1.
  exists nd', info', mx'. split_and!; auto.
  intros i. rewrite Hnb, !nb_insert by lia. repeat case_decide; try lia; subst; auto.
Qed.

(** Making room for a node in slot [p], the first empty slot from [p] on being
    [e], constructing it there and writing its info byte. *)
Lemma make_room_heap nd info n m mx inc sh p e kv b :
  (p <= e < length nd)%nat -> (length nd <= length info)%nat ->
  (forall i, (p <= i < e)%nat -> is_Some (nb nd i)) ->
  (forall i, (p <= i < e)%nat -> 0 <= ib info i + inc <= 255) ->
  exists nd' info' mx',
    (if decide (e = p) then write_node p kv else shiftUp e p;; write_node p kv)
      (mkTable (Heap nd info) n m mx inc sh) = Ok (mkTable (Heap nd' info') n m mx' inc sh) tt /\
    length nd' = length nd /\ length info' = length info /\
    (forall i, nb nd' i = ins_g (nb nd) p e kv i) /\
    (forall i, ib (<[p := b]> info') i = ins_f (ib info) inc p e b i) /\
    (mx' = 0 \/ mx' = mx /\
      forall i, (p < i <= e)%nat -> ib (<[p := b]> info') i + inc <= 255).
Proof.
  intros He Hlen Hlive Hb. case_decide as Hep.
  - subst e. unfold write_node. rewrite set_node_heap by lia. do 3 eexists. split; [done|].
    rewrite length_insert. split_and!; auto.
    + intros i. rewrite nb_insert by lia. unfold ins_g. repeat case_decide; try lia; auto.
    + intros i. rewrite ib_insert by lia. unfold ins_f. repeat case_decide; try lia; auto.
    + right. split; [done|]. intros; lia.
  - destruct (shiftUp_heap nd info n m mx inc sh e p)
      as (nd' & info' & mx' & Hsh & Hl1 & Hl2 & Hnb & Hib & Hmx); [lia|lia|done|done|].
    unfold mbind, M_bind. rewrite Hsh. unfold write_node. rewrite set_node_heap by lia.
    do 3 eexists. split; [done|]. rewrite length_insert. split_and!; auto.
    + intros i. rewrite nb_insert, Hnb by lia. unfold ins_g. repeat case_decide; try lia; auto.
    + intros i. rewrite ib_insert, Hib by lia. unfold ins_f. repeat case_decide; try lia; auto.
    + destruct Hmx as [->|[-> Hle]]; [by left|right]. split; [done|].
      intros i Hi. rewrite ib_insert by lia. case_decide; [lia|]. apply Hle. lia.
Qed.

(** ** shiftDown *)

(** The run [idx .. e] is the part of the block behind [idx] whose nodes are
    displaced; each of them moves back by one. *)
Lemma shiftDownLoop_heap fuel nd info n m mx inc sh idx e :
  (idx <= e < length nd)%nat -> (S e < length info)%nat -> (e < idx + fuel)%nat ->
  0 < inc ->
  (forall i, (idx < i <= e)%nat -> 2 * inc <= ib info i <= 255 /\ is_Some (nb nd i)) ->
  ib info (S e) < 2 * inc ->
  exists nd' info', shiftDownLoop fuel idx (mkTable (Heap nd info) n m mx inc sh) =
    Ok (mkTable (Heap nd' info') n m mx inc sh) tt /\
  length nd' = length nd /\ length info' = length info /\
  (forall i, nb nd' i = del_g (nb nd) idx e i) /\
  (forall i, ib info' i = del_f (ib info) inc idx e i).
Proof.
  revert idx nd info. induction fuel as [|fuel IH]; intros idx nd info Hidx Hlen Hfuel Hinc Hseg Hend; [lia|].
  cbn [shiftDownLoop]. unfold mbind at 1, M_bind at 1, get. unfold mbind at 1, M_bind at 1.
  rewrite read_info_heap by lia. cbn [mInfoInc].
  destruct (Z.leb_spec (2 * inc) (ib info (S idx))) as [Hle|Hlt].
  - assert (idx < e)%nat by (destruct (decide (idx = e)) as [->|]; lia).
    destruct (Hseg (S idx) ltac:(lia)) as [Hbyte [kv Hkv]]. rewrite (wrap_small 8) by lia.
    unfold mbind at 1, M_bind at 1. rewrite write_info_heap by lia.
    unfold mbind at 1, M_bind at 1. rewrite (read_node_heap _ _ _ _ _ _ _ _ kv Hkv).
    unfold mbind at 1, M_bind at 1. unfold write_node. rewrite set_node_heap by lia.
    destruct (IH (S idx) (<[idx := Some kv]> nd) (<[idx := ib info (S idx) - inc]> info))
      as (nd' & info' & -> & Hl1 & Hl2 & Hnb & Hib); rewrite ?length_insert; try lia.
    + intros i Hi. rewrite ib_insert, nb_insert by lia. case_decide; [lia|]. apply Hseg. lia.
    + rewrite ib_insert by lia. case_decide; [lia|done].
    + exists nd', info'. rewrite ?length_insert in *. split_and!; auto.
      * intros i. rewrite Hnb. unfold del_g. rewrite !nb_insert by lia.
        repeat case_decide; try lia; subst; auto.
      * intros i. rewrite Hib. unfold del_f. rewrite !ib_insert by lia.
        repeat case_decide; try lia; subst; auto.
  - assert (idx = e) as -> by (destruct (decide (idx = e)); [done|]; destruct (Hseg (S idx)); lia).
    unfold mbind at 1, M_bind at 1. rewrite write_info_heap by lia.
    unfold kill_node. rewrite set_node_heap by lia.
    do 2 eexists. split; [done|]. rewrite !length_insert. split_and!; auto.
    + intros i. rewrite nb_insert by lia. unfold del_g. repeat case_decide; try lia; auto.
    + intros i. rewrite ib_insert by lia. unfold del_f. repeat case_decide; try lia; auto.
Qed.

End heap.

(** * The invariant of a robin-hood table and its preservation

    [heap_inv t n] holds of a table with [2^n] buckets; [Inv] adds the table
    that has not allocated yet.  Every operation that changes the table is shown
    to preserve it, with its effect on the finite map [table_map] the table
    represents. *)

(** ** The map represented by a table *)

Definition slots_map {K V} `{Countable K} (nd : list (option (K * V))) : gmap K V :=
  list_to_map (omap id nd).

Definition table_map {K V} `{Countable K} (t : Table K V) : gmap K V := slots_map (nodes t).

Lemma slots_map_lookup {K V} `{Countable K} (nd : list (option (K * V))) k v :
  (forall i j k v w, nb nd i = Some (k, v) -> nb nd j = Some (k, w) -> i = j) ->
  slots_map nd !! k = Some v <-> exists i, nb nd i = Some (k, v).
Proof.
  intros Hu.
  assert (forall k v, (k, v) ∈ omap id nd <-> exists i, nb nd i = Some (k, v)) as Hel.
  { intros k' v'. rewrite list_elem_of_omap. split.
    - intros (o & [i Hi]%list_elem_of_lookup & Ho). exists i. apply nb_lookup. by simplify_eq/=.
    - intros [i Hi%nb_lookup]. exists (Some (k', v')). split; [|done].
      apply list_elem_of_lookup. eauto. }
  unfold slots_map. split.
  - intros Hl. apply Hel. by apply elem_of_list_to_map_2.
  - intros [i Hi]. destruct (list_to_map (omap id nd) !! k) as [w|] eqn:E.
    + apply elem_of_list_to_map_2, Hel in E as [j Hj].
      assert (i = j) as <- by eauto. congruence.
    + exfalso. apply not_elem_of_list_to_map_2 in E. apply E.
      apply list_elem_of_fmap. exists (k, v). split; [done|]. apply Hel. eauto.
Qed.

Section inv.
Context {K V : Type} `{Countable K}.
Context (hasher : K -> Z) (dh : bool).
Context (MaxLoadFactor100 : Z).
(** The template's static assertion. *)
Context (load_factor : 10 < MaxLoadFactor100 < 100).
Implicit Types t : Table K V.

Abbreviation calcMax := (calcMaxNumElementsAllowed MaxLoadFactor100).
Abbreviation withBuffer := (calcNumElementsWithBuffer MaxLoadFactor100).

Definition cap (n : Z) : Z := calcMax (2 ^ n).
Definition width (n : Z) : nat := Z.to_nat (withBuffer (2 ^ n)).

Record heap_inv t (n : Z) : Prop := {
  hi_n : 3 <= n <= 46;
  hi_mask : mMask t = 2 ^ n - 1;
  hi_store : exists nd info, mStore t = Heap nd info;
  hi_probe : probe_inv hasher dh t (width n);
  hi_sentinel : F t (width n) = 1;
  hi_num : mNumElements t = Z.of_nat (size (table_map t));
  hi_cap : mNumElements t <= cap n;
  hi_max : mMaxNumElementsAllowed t = 0 \/
    (mMaxNumElementsAllowed t = cap n /\
     forall i, (i < width n)%nat -> F t i + mInfoInc t <= 255);
}.

Definition Inv t : Prop := t = init \/ exists n, heap_inv t n.

(** ** Sizes *)

Lemma pow2_bounds n : 0 <= n <= 46 -> 1 <= 2 ^ n <= 2 ^ 46.
Proof.
  intros Hn. split; [|by apply Z.pow_le_mono_r; lia].
  change 1 with (2 ^ 0). apply Z.pow_le_mono_r; lia.
Qed.

Lemma cap_eq n : 0 <= n <= 46 -> cap n = 2 ^ n * MaxLoadFactor100 / 100.
Proof.
  intros Hn. pose proof (pow2_bounds n Hn). unfold cap, calcMaxNumElementsAllowed.
  destruct (Z.leb_spec (2 ^ n) ((2 ^ 64 - 1) / 100)) as [|Hgt].
  - rewrite wrap_small; [done|]. nia.
  - exfalso. assert (2 ^ 46 < (2 ^ 64 - 1) / 100) by reflexivity. lia.
Qed.

Lemma cap_bounds n : 0 <= n <= 46 -> 0 <= cap n < 2 ^ n /\ 2 ^ n <= 10 * cap n + 10.
Proof.
  intros Hn. rewrite (cap_eq n Hn). pose proof (pow2_bounds n Hn).
  set (x := 2 ^ n) in *. clearbody x.
  split; [split|].
  - apply Z.div_pos; nia.
  - apply Z.div_lt_upper_bound; nia.
  - assert (x * 10 / 100 <= x * MaxLoadFactor100 / 100) by (apply Z.div_le_mono; nia). zdiv.
Qed.

Lemma cap_double n : 3 <= n < 46 -> 2 * cap n <= cap (n + 1) /\ 1 <= cap (n + 1).
Proof.
  intros Hn. rewrite !cap_eq by lia. pose proof (pow2_bounds n ltac:(lia)).
  rewrite Z.pow_add_r by lia. change (2 ^ 1) with 2.
  assert (2 ^ 3 <= 2 ^ n) by (apply Z.pow_le_mono_r; lia).
  set (x := 2 ^ n) in *. clearbody x. split.
  - apply Z.div_le_lower_bound; [lia|].
    pose proof (Z.mul_div_le (x * MaxLoadFactor100) 100 ltac:(lia)). lia.
  - apply Z.div_le_lower_bound; nia.
Qed.

Lemma width_eq n : 0 <= n <= 46 ->
  withBuffer (2 ^ n) = 2 ^ n + Z.min (cap n) 255 /\
  Z.of_nat (width n) = 2 ^ n + Z.min (cap n) 255.
Proof.
  intros Hn. pose proof (cap_bounds n Hn). pose proof (pow2_bounds n Hn).
  assert (withBuffer (2 ^ n) = 2 ^ n + Z.min (cap n) 255) as Heq.
  { unfold calcNumElementsWithBuffer. fold (cap n). apply wrap_small. lia. }
  split; [done|]. unfold width. rewrite Heq, Z2Nat.id; lia.
Qed.

Lemma hi_mask_succ t n : heap_inv t n -> u64 (mMask t + 1) = 2 ^ n.
Proof.
  intros I. rewrite (hi_mask t n I). pose proof (pow2_bounds n).
  pose proof (hi_n t n I). rewrite wrap_small; lia.
Qed.

(** ** Contents *)

Lemma table_map_lookup t W k v :
  probe_inv hasher dh t W -> table_map t !! k = Some v <-> exists i, G t i = Some (k, v).
Proof.
  intros P. apply slots_map_lookup. intros i j k' v' w'. apply (lay_uniq _ _ _ _ _ _ _ _ (pi_layout _ _ _ _ P)).
Qed.

Lemma table_map_None t W k :
  probe_inv hasher dh t W -> table_map t !! k = None <-> forall i v, G t i <> Some (k, v).
Proof.
  intros P. rewrite eq_None_not_Some. split.
  - intros Hn i v Hg. apply Hn. exists v. eapply table_map_lookup; eauto.
  - intros Hn [v Hv]. eapply table_map_lookup in Hv as [i Hi]; [|done]. by eapply Hn.
Qed.

(** Distinct live slots hold distinct keys of the map. *)
Lemma live_run_size t W a d :
  probe_inv hasher dh t W ->
  (forall i, (a <= i < a + d)%nat -> is_Some (G t i)) -> (d <= size (table_map t))%nat.
Proof.
  intros P Hlive.
  assert (exists ks, NoDup ks /\ length ks = d /\
    forall k, k ∈ ks -> exists i v, (a <= i < a + d)%nat /\ G t i = Some (k, v)) as (ks & Hnd & Hlen & Hks).
  { revert Hlive. induction d as [|d IH]; intros Hlive.
    - exists []. split_and!; [constructor|done|]. intros k Hk. by apply elem_of_nil in Hk.
    - destruct IH as (ks & Hnd & Hlen & Hks). { intros; apply Hlive; lia. }
      destruct (Hlive (a + d)%nat ltac:(lia)) as [[k v] Hkv].
      exists (k :: ks). split_and!.
      + constructor; [|done]. intros Hin. destruct (Hks k Hin) as (i & w & Hi & Hg).
        pose proof (lay_uniq _ _ _ _ _ _ _ _ (pi_layout _ _ _ _ P) _ _ _ _ _ Hg Hkv). lia.
      + simpl; lia.
      + intros k' [->|Hin]%elem_of_cons; [exists (a + d)%nat, v; split; [lia|done]|].
        destruct (Hks k' Hin) as (i & w & ? & ?). exists i, w. split; [lia|done]. }
  assert ((list_to_set ks : gset K) ⊆ dom (table_map t)) as Hsub.
  { intros k Hk%elem_of_list_to_set. destruct (Hks k Hk) as (i & v & _ & Hg).
    apply elem_of_dom. exists v. eapply table_map_lookup; eauto. }
  apply subseteq_size in Hsub. rewrite size_list_to_set, size_dom in Hsub by done. lia.
Qed.

(** ** The empty slot *)

Lemma first_zero (f : nat -> Z) p d :
  (exists e, (p <= e < p + d)%nat /\ f e = 0 /\ forall i, (p <= i < e)%nat -> f i <> 0) \/
  (forall i, (p <= i < p + d)%nat -> f i <> 0).
Proof.
  induction d as [|d IH]; [right; intros; lia|].
  destruct IH as [(e & ? & ? & ?)|Hno].
  - left. exists e. split_and!; auto; lia.
  - destruct (Z.eq_dec (f (p + d)%nat) 0) as [Hz|Hnz].
    + left. exists (p + d)%nat. split_and!; auto; lia.
    + right. intros i Hi. destruct (decide (i = p + d)%nat) as [->|]; [done|]. apply Hno; lia.
Qed.

(** While the table is not full there is an empty slot at or behind every
    insertion point, inside the block: the overflow buffer is large enough. *)
Lemma empty_slot t n k p :
  heap_inv t n -> mNumElements t < cap n ->
  (home hasher dh (mMask t) k <= p <= width n)%nat ->
  (forall i, (home hasher dh (mMask t) k <= i < p)%nat -> F t i <> 0) ->
  exists e, (p <= e < width n)%nat /\ F t e = 0 /\ forall i, (p <= i < e)%nat -> F t i <> 0.
Proof.
  intros I Hnum Hp Hbefore. destruct (first_zero (F t) p (width n - p)) as [(e & ?)|Hno].
  { exists e. intuition lia. }
  exfalso. set (h := home hasher dh (mMask t) k) in *.
  pose proof (hi_n t n I). destruct (width_eq n ltac:(lia)) as [_ HW].
  pose proof (cap_bounds n ltac:(lia)). pose proof (pow2_bounds n ltac:(lia)).
  assert (Z.of_nat h <= 2 ^ n - 1) as Hh.
  { rewrite <- (hi_mask t n I). apply (home_le hasher dh n); [lia|]. rewrite (hi_mask t n I); lia. }
  pose proof (hi_probe t n I) as P. pose proof (probe_inc hasher dh t _ P).
  assert (forall i, (h <= i < h + (width n - h))%nat -> is_Some (G t i)) as Hlive.
  { intros i Hi. destruct (f_cases hasher dh _ _ _ _ _ _ (pi_inc _ _ _ _ P) (pi_layout _ _ _ _ P) i)
      as [(?&?&->&_)|[(_&_&Hz)|(?&_)]]; [eauto| |lia].
    destruct (decide (i < p)%nat); [destruct (Hbefore i); [lia|done]|destruct (Hno i); [lia|done]]. }
  destruct (Z.le_gt_cases (cap n) 255).
  - pose proof (live_run_size t _ h (width n - h) P Hlive) as Hs.
    rewrite (hi_num t n I) in Hnum. lia.
  - destruct (Hlive (pred (width n))) as [[k' v'] Hg]; [lia|].
    destruct (lay_live _ _ _ _ _ _ _ _ (pi_layout _ _ _ _ P) _ _ _ Hg) as (Hi & Hf & Hle).
    unfold expected in Hf.
    assert (Z.of_nat (home hasher dh (mMask t) k') <= 2 ^ n - 1).
    { rewrite <- (hi_mask t n I). apply (home_le hasher dh n); [lia|]. rewrite (hi_mask t n I); lia. }
    pose proof (bits_range hasher dh _ _ k' (pi_inc _ _ _ _ P)). nia.
Qed.

(** ** Byte counts

    The bound on the size of a node keeps the byte counts of tables of up to
    [2^46] buckets below [2^64]. *)
Context (sizeof_Node : Z) (node_size : 0 < sizeof_Node <= 2 ^ 16).

Lemma bytesTotal_eq n : 0 <= n <= 46 ->
  let W := withBuffer (2 ^ n) in calcNumBytesTotal sizeof_Node W = W * sizeof_Node + W + 8.
Proof.
  intros Hn W. pose proof (cap_bounds n Hn). pose proof (pow2_bounds n Hn).
  destruct (width_eq n Hn) as [HW _]. fold W in HW.
  assert (0 <= W < 2 ^ 47) by lia. clearbody W.
  unfold calcNumBytesTotal, calcNumBytesInfo.
  assert (0 <= W * sizeof_Node <= 2 ^ 47 * 2 ^ 16) by nia.
  rewrite (wrap_small 64 (W * sizeof_Node)), (wrap_small 64 (W + 8)) by lia.
  rewrite wrap_small by lia. lia.
Qed.

End inv.
