(* ===== verification/RobinHoodMap.v ===== *)
(** * Insertion, growth and rehashing of a robin-hood table *)
From Stdlib Require Import ZArith Lia.
From stdpp Require Import base list gmap numbers.
From S2P Require Import Prelude Hash RobinHood RobinHoodLayout RobinHoodInv.
#[local] Open Scope Z_scope.

Section grow.
Context {K V : Type} `{Countable K}.
Context (hasher : K -> Z) (dh : bool).
Context (MaxLoadFactor100 : Z) (load_factor : 10 < MaxLoadFactor100 < 100).
Implicit Types t : Table K V.

Abbreviation heap_inv := (heap_inv hasher dh MaxLoadFactor100).
Abbreviation Inv := (Inv hasher dh MaxLoadFactor100).
Abbreviation cap := (cap MaxLoadFactor100).
Abbreviation width := (width MaxLoadFactor100).
Abbreviation expt t := (expected hasher dh (mMask t) (mInfoInc t) (mInfoHashShift t)).
Abbreviation homet t := (home hasher dh (mMask t)).
Abbreviation withBuffer := (calcNumElementsWithBuffer MaxLoadFactor100).

(** ** Placing a new node *)

(** The table after [k] was placed in slot [p], moving the run [p .. e-1] up. *)
Lemma heap_inv_place t t' n k v p e nd info :
  heap_inv t n -> mMaxNumElementsAllowed t <> 0 -> mNumElements t < cap n ->
  (homet t k <= p <= e)%nat -> (e < width n)%nat ->
  (forall i, (homet t k <= i < p)%nat -> expt t k i <= F t i) ->
  F t p < expt t k p <= 255 -> F t e = 0 -> (forall i, (p <= i < e)%nat -> F t i <> 0) ->
  (forall m w, G t m <> Some (k, w)) ->
  mStore t' = Heap nd info -> mMask t' = mMask t -> mInfoInc t' = mInfoInc t ->
  mInfoHashShift t' = mInfoHashShift t -> mNumElements t' = mNumElements t + 1 ->
  length nd = length (nodes t) -> length info = length (info_bytes t) ->
  (forall i, F t' i = ins_f (F t) (mInfoInc t) p e (expt t k p) i) ->
  (forall i, G t' i = ins_g (G t) p e (k, v) i) ->
  mMaxNumElementsAllowed t' = 0 \/
    (mMaxNumElementsAllowed t' = mMaxNumElementsAllowed t /\
     forall i, (p <= i <= e)%nat -> F t' i + mInfoInc t <= 255) ->
  heap_inv t' n /\ table_map t' = <[k := v]> (table_map t).
Proof.
  intros I Hmax Hnum Hp HeW Hbefore Hexp He Hseg Hnew Hst Hmask Hinc Hsh Hn' Hl1 Hl2 HF HG Hmx.
  pose proof (hi_probe _ _ _ _ _ I) as P. pose proof (probe_inc hasher dh t _ P) as Hi2.
  destruct (hi_max _ _ _ _ _ I) as [?|[Hmax' Hroom]]; [done|].
  assert (layout hasher dh (mMask t') (mInfoInc t') (mInfoHashShift t') (width n) (F t') (G t')) as L'.
  { rewrite Hmask, Hinc, Hsh. eapply layout_ext; [exact HF|exact HG|].
    apply layout_insert; auto; try lia; try apply P.
    intros i Hi. pose proof (Hseg i Hi) as Hnz. pose proof (Hroom i ltac:(lia)).
    destruct (f_cases hasher dh _ _ _ _ _ _ (pi_inc _ _ _ _ P) (pi_layout _ _ _ _ P) i)
      as [(?&?&?&?&?)|[(?&?&?)|(?&?)]]; lia. }
  assert (probe_inv hasher dh t' (width n)) as P'.
  { split.
    - rewrite <- (pi_nodes _ _ _ _ P). unfold nodes in *. by rewrite Hst.
    - rewrite <- (pi_info _ _ _ _ P). unfold info_bytes in *. by rewrite Hst.
    - rewrite Hinc, Hsh. apply P.
    - rewrite Hmask. apply P.
    - rewrite Hmask. apply P.
    - done. }
  assert (table_map t' = <[k := v]> (table_map t)) as Hmap.
  { apply map_eq. intros k'. apply option_eq. intros v'.
    rewrite (table_map_lookup hasher dh t' _ k' v' P'). setoid_rewrite HG.
    rewrite lookup_insert_Some, (table_map_lookup hasher dh t _ k' v' P). split.
    - intros [i Hi]. apply ins_g_inv in Hi; [|lia].
      destruct Hi as [[-> [= -> ->]]|[[? Hi]|[[? Hi]|[? Hi]]]]; [by left| | |];
        right; (split; [intros ->; by eapply Hnew|eauto]).
    - intros [[-> ->]|[Hne [i Hi]]].
      + exists p. unfold ins_g. repeat case_decide; try lia; done.
      + assert (i <> e).
        { intros ->. destruct (lay_live _ _ _ _ _ _ _ _ (pi_layout _ _ _ _ P) _ _ _ Hi) as (Hr & Hf & _).
          pose proof (exp_low hasher dh (mMask t) _ _ (pi_inc _ _ _ _ P) k' e ltac:(lia)). lia. }
        exists (if decide (p <= i < e)%nat then S i else i).
        unfold ins_g. repeat case_decide; try lia; done. }
  split; [|done]. split.
  - apply I.
  - rewrite Hmask. apply I.
  - eauto.
  - done.
  - rewrite HF. unfold ins_f. repeat case_decide; try lia. apply I.
  - rewrite Hmap, map_size_insert_None, Hn', (hi_num _ _ _ _ _ I); [lia|].
    by apply (table_map_None hasher dh t _ k P).
  - lia.
  - destruct Hmx as [->|[-> Hle]]; [by left|right]. split; [done|].
    intros i Hi. rewrite Hinc. destruct (decide (p <= i <= e)%nat); [by apply Hle|].
    rewrite HF. unfold ins_f. repeat case_decide; try lia; by apply Hroom.
Qed.

Lemma place_spec t n k v p :
  heap_inv t n -> mMaxNumElementsAllowed t <> 0 -> mNumElements t < cap n ->
  (homet t k <= p <= width n)%nat ->
  (forall i, (homet t k <= i < p)%nat -> expt t k i <= F t i) ->
  F t p < expt t k p -> (forall m w, G t m <> Some (k, w)) ->
  expt t k p <= 255 /\
  exists t', place (k, v) (expt t k p) p t = Ok t' p /\ heap_inv t' n /\
    table_map t' = <[k := v]> (table_map t) /\ G t' p = Some (k, v).
Proof.
  intros I Hmax Hnum Hp Hbefore Hlt Hnew.
  pose proof (hi_probe _ _ _ _ _ I) as P. pose proof (probe_inc hasher dh t _ P) as Hi2.
  destruct (hi_max _ _ _ _ _ I) as [?|[Hmax' Hroom]]; [done|].
  assert (forall i, (homet t k <= i < p)%nat -> F t i <> 0) as Hnz.
  { intros i Hi. pose proof (Hbefore i Hi).
    pose proof (exp_low hasher dh (mMask t) _ _ (pi_inc _ _ _ _ P) k i ltac:(lia)). lia. }
  destruct (empty_slot hasher dh _ load_factor t n k p I Hnum Hp Hnz) as (e & He & Hez & Heseg).
  assert (expt t k p <= 255) as Hexp.
  { destruct (decide (p = homet t k)) as [->|].
    - rewrite exp_home. pose proof (bits_range hasher dh _ _ k (pi_inc _ _ _ _ P)). lia.
    - pose proof (Hbefore (pred p) ltac:(lia)). pose proof (Hroom (pred p) ltac:(lia)).
      replace p with (S (pred p)) by lia. rewrite exp_S. lia. }
  pose proof (exp_low hasher dh (mMask t) _ _ (pi_inc _ _ _ _ P) k p ltac:(lia)) as Hlow.
  assert (0 <= cap n < 2 ^ 46) as Hcapb.
  { pose proof (hi_n _ _ _ _ _ I). pose proof (cap_bounds _ load_factor n ltac:(lia)).
    pose proof (pow2_bounds n ltac:(lia)). lia. }
  assert (0 <= mNumElements t) as Hn0 by (rewrite (hi_num _ _ _ _ _ I); lia).
  split; [done|].
  pose proof (pi_nodes _ _ _ _ P) as Hln. pose proof (pi_info _ _ _ _ P) as Hli.
  set (b := expt t k p) in *.
  set (mx1 := if 0xFF <? b + mInfoInc t then 0 else mMaxNumElementsAllowed t).
  assert ((if 0xFF <? b + mInfoInc t then modify (set_max 0) else mret tt) t =
    Ok (set_max mx1 t) tt) as Hset.
  { unfold mx1. destruct (0xFF <? _); [done|]. by destruct t. }
  destruct (hi_store _ _ _ _ _ I) as (nd & info & Hst).
  unfold place. unfold mbind at 1, M_bind at 1, get. unfold mbind at 1, M_bind at 1.
  rewrite Hset. unfold mbind at 1, M_bind at 1.
  assert (findEmpty (loop_fuel t) p (set_max mx1 t) = Ok (set_max mx1 t) e) as ->.
  { apply (findEmpty_spec hasher dh (set_max mx1 t) (width n)).
    - by destruct P; split.
    - lia.
    - unfold loop_fuel. rewrite Hli. lia.
    - done.
    - done. }
  assert (F t = ib info) as HFt by (unfold F, info_bytes; by rewrite Hst).
  assert (G t = nb nd) as HGt by (unfold G, nodes; by rewrite Hst).
  assert (length nd = width n) as Hln' by (unfold nodes in Hln; by rewrite Hst in Hln).
  assert (length info = (width n + 8)%nat) as Hli' by (unfold info_bytes in Hli; by rewrite Hst in Hli).
  unfold set_max. rewrite Hst.
  set (num := mNumElements t) in *. set (m := mMask t) in *. set (inc := mInfoInc t) in *.
  set (sh := mInfoHashShift t) in *.
  destruct (make_room_heap nd info num m mx1 inc sh p e (k, v) b)
    as (nd' & info' & mx' & Hrun & Hl1 & Hl2 & Hnb & Hib & Hmx0); [lia|lia| | |].
  { intros i Hi. rewrite <- HGt.
    destruct (f_cases hasher dh _ _ _ _ _ _ (pi_inc _ _ _ _ P) (pi_layout _ _ _ _ P) i)
      as [(?&?&?&?)|[(_&_&Hz)|(?&_)]]; [by eauto|by destruct (Heseg i Hi)|lia]. }
  { intros i Hi. rewrite <- HFt. pose proof (Hroom i ltac:(lia)).
    pose proof (Ft_byte hasher dh _ _ P i). lia. }
  assert (mx' = 0 \/ mx' = mMaxNumElementsAllowed t /\
      forall i, (p <= i <= e)%nat -> ib (<[p := b]> info') i + inc <= 255) as Hmx.
  { destruct Hmx0 as [->|[-> Hle]]; [by left|]. unfold mx1.
    destruct (Z.ltb_spec 0xFF (b + inc)); [by left|right]. split; [done|].
    intros i Hi. destruct (decide (i = p)) as [->|]; [|apply Hle; lia].
    by rewrite ib_insert, decide_True by lia. }
  unfold mbind at 1, M_bind at 1. rewrite Hrun.
  unfold mbind at 1, M_bind at 1. rewrite write_info_heap by lia. rewrite (wrap_small 8) by lia.
  unfold mbind, M_bind, modify, mret, M_ret, set_num.
  tcbn.
  rewrite (wrap_small 64) by (unfold num; lia).
  eexists. split; [done|].
  match goal with |- heap_inv ?t' _ /\ _ => set (t1 := t') end.
  assert (G t1 p = Some (k, v)) as Hat.
  { unfold G, nodes. simpl. rewrite Hnb. unfold ins_g. repeat case_decide; try lia; done. }
  subst num m inc sh.
  destruct (heap_inv_place t t1 n k v p e nd' (<[p := b]> info') I) as [I' Hm];
    auto; try lia; rewrite ?length_insert, ?HFt, ?HGt; auto.
  congruence.
Qed.

(** ** Widening the distance field *)

Lemma info_is_bytes t n : heap_inv t n -> Forall is_byte (info_bytes t).
Proof.
  intros I. apply Forall_lookup. intros i x Hx.
  pose proof (Ft_byte hasher dh t _ (hi_probe _ _ _ _ _ I) i) as Hb.
  unfold F, ib in Hb. rewrite Hx in Hb. unfold is_byte. simpl in Hb. lia.
Qed.

Lemma try_increase_info_spec t n :
  heap_inv t n -> 2 < mInfoInc t ->
  exists t', try_increase_info MaxLoadFactor100 t = Ok t' true /\ heap_inv t' n /\
    mMaxNumElementsAllowed t' = cap n /\ table_map t' = table_map t /\
    mNumElements t' = mNumElements t.
Proof.
  intros I Hinc. pose proof (hi_probe _ _ _ _ _ I) as P.
  pose proof (pi_inc _ _ _ _ P) as Hg. pose proof (good_inc_range _ _ Hg) as Hr.
  destruct (good_inc_halve _ _ Hg Hinc) as [Hg' Heq].
  pose proof (good_inc_range _ _ Hg') as Hr'.
  pose proof (pi_nodes _ _ _ _ P) as Hln. pose proof (pi_info _ _ _ _ P) as Hli.
  pose proof (info_is_bytes t n I) as Hbytes.
  destruct (halveWords_spec (length (info_bytes t)) 0 (width n) (info_bytes t) Hbytes)
    as (l & Hl & Hll & Hlb & _ & Hlow & Hhigh); [lia|lia|].
  destruct (hi_store _ _ _ _ _ I) as (nd & info & Hst).
  unfold try_increase_info. unfold mbind at 1, M_bind at 1, get.
  destruct (Z.leb_spec (mInfoInc t) 2); [lia|].
  rewrite (hi_mask_succ _ _ _ t n I).
  rewrite Z.shiftr_div_pow2 by lia. change (2 ^ 1) with 2. rewrite (wrap_small 8) by zdiv.
  destruct Hg as [Hsh ?]. rewrite (wrap_small 32) by lia. change (Z.to_nat (withBuffer (2 ^ n))) with (width n).
  unfold mbind, M_bind, modify, set_inc. tcbn.
  unfold info_bytes, loop_fuel in *. tcbn.
  rewrite Hst in *. cbn [store_info] in *. unfold info_bytes. cbn [store_info mStore].
  rewrite Hl. unfold access, mret, M_ret. tcbn.
  unfold set_info_bytes. cbn [mStore]. unfold set_store. tcbn.
  rewrite write_info_heap by lia. unfold set_max. tcbn.
  rewrite (hi_mask_succ _ _ _ t n I). fold (cap n). eexists. split; [done|].
  match goal with |- heap_inv ?t' _ /\ _ => set (t1 := t') end.
  assert (F t = ib info) as HFt by (unfold F, info_bytes; by rewrite Hst).
  assert (F t1 = ib (<[width n := 1]> l)) as HF1 by done.
  assert (G t1 = G t) as HG1 by (unfold G, nodes; by rewrite Hst).
  destruct (layout_halve hasher dh (mMask t) (mInfoInc t) (mInfoHashShift t) (width n) (F t) (F t1) (G t))
    as [L' Hroom]; auto; try apply P.
  { intros i Hi. rewrite HF1, HFt, ib_insert, decide_False by lia. apply Hlow; lia. }
  { rewrite HF1, ib_insert, decide_True by lia. lia. }
  { intros i Hi. rewrite HF1, ib_insert, decide_False by lia. apply Hhigh; [lia|].
    rewrite <- HFt. by apply (lay_pad _ _ _ _ _ _ _ _ (pi_layout _ _ _ _ P)). }
  assert (table_map t1 = table_map t) as Hmap by (unfold table_map, nodes; by rewrite Hst).
  split_and!; auto. split; auto; try apply I.
  - eauto.
  - split; auto; try apply P.
    + unfold nodes in *. by rewrite Hst in Hln.
    + unfold info_bytes. simpl. rewrite length_insert. lia.
    + by rewrite HG1.
  - by rewrite HF1, ib_insert, decide_True by lia.
  - rewrite Hmap. apply I.
Qed.

Lemma try_increase_info_no t :
  mInfoInc t <= 2 -> try_increase_info MaxLoadFactor100 t = Ok t false.
Proof.
  intros Hle. unfold try_increase_info, mbind, M_bind, get.
  by destruct (Z.leb_spec (mInfoInc t) 2); [|lia].
Qed.

(** ** A fresh block *)

Lemma width_ge n : 3 <= n <= 46 -> (8 <= width n)%nat.
Proof.
  intros Hn. destruct (width_eq _ load_factor n ltac:(lia)) as [_ HW].
  pose proof (cap_bounds _ load_factor n ltac:(lia)).
  assert (2 ^ 3 <= 2 ^ n) by (apply Z.pow_le_mono_r; lia). lia.
Qed.

(** A fresh block: no live slot, only the sentinel byte is set. *)
Definition fresh_table (n : Z) : Table K V :=
  mkTable (Heap (replicate (width n) None) (<[width n := 1]> (replicate (width n + 8) 0)))
    0 (2 ^ n - 1) (cap n) InitialInfoInc InitialInfoHashShift.

Lemma fresh_inv n : 3 <= n <= 46 -> heap_inv (fresh_table n) n /\ table_map (fresh_table n) = ∅.
Proof.
  intros Hn. pose proof (width_ge n Hn).
  assert (forall i, G (fresh_table n) i = None) as HG by (intros; apply nb_replicate).
  assert (forall i, F (fresh_table n) i = if decide (i = width n) then 1 else 0) as HF.
  { intros i. unfold F, info_bytes. simpl. rewrite ib_insert by (rewrite length_replicate; lia).
    repeat case_decide; auto. rewrite ib_replicate. by case_decide. }
  assert (probe_inv hasher dh (fresh_table n) (width n)) as P.
  { destruct (width_eq _ load_factor n ltac:(lia)) as [_ HW].
    pose proof (cap_bounds _ load_factor n ltac:(lia)).
    split; unfold nodes, info_bytes; simpl; rewrite ?length_insert, ?length_replicate; auto.
    - by split.
    - exists n. split; lia.
    - lia.
    - split; intros *; rewrite ?HF, ?HG; repeat case_decide; try done; try lia. }
  assert (table_map (fresh_table n) = ∅) as Hmap.
  { apply map_eq. intros k. rewrite lookup_empty.
    apply (table_map_None hasher dh _ _ k P). intros i v. by rewrite HG. }
  pose proof (cap_bounds _ load_factor n ltac:(lia)).
  split; [|done]. split; auto.
  - eexists _, _. done.
  - by rewrite HF, decide_True.
  - by rewrite Hmap, map_size_empty.
  - simpl; lia.
  - right. split; [done|]. intros i Hi. rewrite HF, decide_False by lia. vm_compute. done.
Qed.

(** ** Re-insertion *)

Abbreviation insert_move := (insert_move hasher dh MaxLoadFactor100).

(** The part of [insert_move] after the check for a full table. *)
Lemma insert_new t n k v :
  heap_inv t n -> mMaxNumElementsAllowed t <> 0 -> mNumElements t < cap n ->
  (forall m w, G t m <> Some (k, w)) ->
  exists t' p, (let '(info, idx) := keyToIdx hasher dh t k in
     '(info, idx) ← nextWhileLessEq (loop_fuel t) info idx; place (k, v) (u8 info) idx) t = Ok t' p /\
    heap_inv t' n /\ table_map t' = <[k := v]> (table_map t).
Proof.
  intros I Hmax Hnum Hnew. pose proof (hi_probe _ _ _ _ _ I) as P.
  rewrite (keyToIdx_spec hasher dh t _ P).
  pose proof (homet_le hasher dh t _ P k).
  destruct (nextWhileLessEq_spec hasher dh t _ P (loop_fuel t) k (homet t k)) as (p & Hp & Hr & Hlt & Hb).
  { lia. } { unfold loop_fuel. rewrite (pi_info _ _ _ _ P). lia. } { intros; lia. }
  destruct (place_spec t n k v p I Hmax Hnum ltac:(lia) Hb Hlt Hnew) as (Hle & t' & Hpl & I' & Hm & _).
  pose proof (exp_low hasher dh (mMask t) _ _ (pi_inc _ _ _ _ P) k p ltac:(lia)).
  pose proof (probe_inc hasher dh t _ P).
  exists t', p. unfold mbind, M_bind. rewrite Hp. rewrite wrap_small by lia. by rewrite Hpl.
Qed.

Lemma insert_move_spec t n k v :
  heap_inv t n -> mNumElements t < cap n -> (forall m w, G t m <> Some (k, w)) ->
  post (insert_move (k, v) t) (fun t' _ =>
    heap_inv t' n /\ table_map t' = <[k := v]> (table_map t)).
Proof.
  intros I Hnum Hnew. unfold RobinHood.insert_move. unfold mbind at 1, M_bind at 1, get.
  assert (forall t1, heap_inv t1 n -> mMaxNumElementsAllowed t1 <> 0 ->
    mNumElements t1 < cap n -> (forall m w, G t1 m <> Some (k, w)) -> table_map t1 = table_map t ->
    post ((t ← get; let '(info, idx) := keyToIdx hasher dh t k in
     '(info, idx) ← nextWhileLessEq (loop_fuel t) info idx; place (k, v) (u8 info) idx) t1)
     (fun t' _ => heap_inv t' n /\ table_map t' = <[k := v]> (table_map t))) as Hrest.
  { intros t1 I1 Hm1 Hn1 Hnew1 Hmap1. unfold mbind at 1, M_bind at 1, get.
    destruct (insert_new t1 n k v I1 Hm1 Hn1 Hnew1) as (t' & p & -> & I' & Hm').
    simpl. rewrite Hm', Hmap1. auto. }
  destruct (Z.eqb_spec (mMaxNumElementsAllowed t) 0) as [Hz|Hnz].
  - destruct (Z.le_gt_cases (mInfoInc t) 2).
    + unfold mbind, M_bind. by rewrite try_increase_info_no.
    + destruct (try_increase_info_spec t n I ltac:(lia)) as (t1 & Ht1 & I1 & Hmax1 & Hmap1 & Hnum1).
      unfold mbind at 1, M_bind at 1. unfold mbind at 1, M_bind at 1. rewrite Ht1.
      apply Hrest; auto; try lia.
      * rewrite Hmax1. rewrite (hi_num _ _ _ _ _ I) in Hnum. lia.
      * apply (table_map_None hasher dh t1 _ k (hi_probe _ _ _ _ _ I1)). rewrite Hmap1.
        by apply (table_map_None hasher dh t _ k (hi_probe _ _ _ _ _ I)).
  - apply Hrest; auto.
Qed.

(** What the re-insertion loop knows about the old block. *)
Record old_block (nd : list (option (K * V))) (info : list Z) (W : nat) : Prop := {
  ob_len : length nd = W;
  ob_info : (W <= length info)%nat;
  ob_live : forall i, (i < W)%nat -> ib info i <> 0 -> is_Some (nb nd i);
  ob_dead : forall i, (i < W)%nat -> ib info i = 0 -> nb nd i = None;
  ob_uniq : forall i j k v w, nb nd i = Some (k, v) -> nb nd j = Some (k, w) -> i = j;
}.

Lemma heap_old_block t n nd info :
  heap_inv t n -> mStore t = Heap nd info -> old_block nd info (width n).
Proof.
  intros I Hst. pose proof (hi_probe _ _ _ _ _ I) as P.
  pose proof (pi_nodes _ _ _ _ P) as Hln. pose proof (pi_info _ _ _ _ P) as Hli.
  pose proof (pi_layout _ _ _ _ P) as L. pose proof (probe_inc hasher dh t _ P).
  unfold F, G, nodes, info_bytes in *. rewrite Hst in *. simpl in *.
  split; auto; try lia.
  - intros i Hi Hnz.
    destruct (f_cases hasher dh _ _ _ _ _ _ (pi_inc _ _ _ _ P) L i)
      as [(?&?&->&_)|[(_&_&?)|(?&_)]]; [eauto|done|lia].
  - intros i Hi Hz.
    destruct (f_cases hasher dh _ _ _ _ _ _ (pi_inc _ _ _ _ P) L i)
      as [(?&?&?&?&?)|[(?&_)|(?&_)]]; [lia|done|lia].
  - apply (lay_uniq _ _ _ _ _ _ _ _ L).
Qed.

(** The loop re-inserts the old slots from [i] on; the new table holds the
    contents of the slots before [i]. *)
Lemma reinsert_spec nd info W d i t n :
  old_block nd info W -> (i + d = W)%nat -> heap_inv t n ->
  Z.of_nat (size (slots_map nd)) <= cap n ->
  (forall k v, table_map t !! k = Some v <-> exists j, (j < i)%nat /\ nb nd j = Some (k, v)) ->
  post (reinsert hasher dh MaxLoadFactor100 (Heap nd info) d i t) (fun t' _ =>
    heap_inv t' n /\ table_map t' = slots_map nd).
Proof.
  intros O. pose proof (fun k v => slots_map_lookup nd k v (ob_uniq _ _ _ O)) as Hlk.
  revert i t. induction d as [|d IH]; intros i t Hi I Hsz Hc.
  - simpl. split; [done|]. apply map_eq. intros k. apply option_eq. intros v.
    rewrite Hc, Hlk. split; [intros (j & _ & ?); eauto|]. intros [j Hj]. exists j. split; [|done].
    pose proof (nb_lt _ _ _ Hj). rewrite (ob_len _ _ _ O) in *. lia.
  - cbn [reinsert]. unfold mbind at 1, M_bind at 1, get. unfold mbind at 1, M_bind at 1.
    pose proof (ob_info _ _ _ O). cbn [store_info store_nodes].
    rewrite ib_lookup by lia. cbn [access]. unfold mret at 1, M_ret at 1.
    destruct (Z.eqb_spec (ib info i) 0) as [Hz|Hnz].
    + unfold mbind at 1, M_bind at 1, mret, M_ret. apply IH; auto; [lia|].
      intros k v. rewrite Hc. split; intros (j & Hj & Hg).
      * exists j. split; [lia|done].
      * destruct (decide (j = i)) as [->|]; [|exists j; split; [lia|done]].
        rewrite (ob_dead _ _ _ O i) in Hg by (done || lia). done.
    + destruct (ob_live _ _ _ O i ltac:(lia) Hnz) as [[k v] Hg].
      pose proof (proj1 (nb_lookup _ _ _) Hg) as Hl. rewrite Hl.
      assert (table_map t !! k = None) as Hnone.
      { rewrite eq_None_not_Some. intros [w Hw]. apply Hc in Hw as (j & Hj & Hg').
        pose proof (ob_uniq _ _ _ O _ _ _ _ _ Hg Hg'). lia. }
      assert (<[k := v]> (table_map t) ⊆ slots_map nd) as Hsub.
      { apply map_subseteq_spec. intros k' v' [[<- <-]|[_ Hl']]%lookup_insert_Some.
        - apply Hlk. eauto.
        - apply Hlk. apply Hc in Hl' as (j & _ & ?). eauto. }
      apply map_subseteq_size in Hsub. rewrite map_size_insert_None in Hsub by done.
      eapply post_bind.
      { unfold access, mbind, M_bind, mret, M_ret.
        instantiate (1 := fun t' _ => heap_inv t' n /\ table_map t' = <[k := v]> (table_map t)).
        pose proof (insert_move_spec t n k v I) as Hins.
        rewrite (hi_num _ _ _ _ _ I) in Hins. specialize (Hins ltac:(lia)).
        specialize (Hins (proj1 (table_map_None hasher dh t _ k (hi_probe _ _ _ _ _ I)) Hnone)).
        by destruct (insert_move (k, v) t). }
      intros t' _ [I' Hm']. apply IH; auto; [lia|].
      intros k' v'. rewrite Hm', lookup_insert_Some, Hc. split.
      * intros [[-> ->]|[Hne (j & ? & ?)]]; [exists i|exists j]; (split; [lia|done]).
      * intros (j & Hj & Hg'). destruct (decide (j = i)) as [->|].
        -- left. rewrite Hg in Hg'. by simplify_eq.
        -- right. split; [|exists j; split; [lia|done]]. intros ->.
           pose proof (ob_uniq _ _ _ O _ _ _ _ _ Hg Hg'). lia.
Qed.

(** ** Allocation and rehashing *)

Context (sizeof_Node : Z) (node_size : 0 < sizeof_Node <= 2 ^ 16) (alloc_ok : Z -> bool).
Abbreviation bytesTotal := (calcNumBytesTotal sizeof_Node).

Lemma init_data_spec t n :
  3 <= n <= 46 ->
  init_data MaxLoadFactor100 sizeof_Node alloc_ok (2 ^ n) t =
  if alloc_ok (bytesTotal (withBuffer (2 ^ n))) then Ok (fresh_table n) tt
  else Throw (set_max (cap n) (set_mask (2 ^ n - 1) (set_num 0 t))) bad_alloc.
Proof.
  intros Hn. unfold init_data, mbind, M_bind, modify.
  pose proof (pow2_bounds n ltac:(lia)). rewrite (wrap_small 64 (2 ^ n - 1)) by lia.
  fold (cap n). destruct (width_eq _ load_factor n ltac:(lia)) as [HW HWn].
  pose proof (cap_bounds _ load_factor n ltac:(lia)).
  destruct (alloc_ok _) eqn:E; [|done].
  rewrite (bytesTotal_eq _ load_factor _ node_size n) by lia.
  destruct (Z.ltb_spec (withBuffer (2 ^ n) * sizeof_Node + withBuffer (2 ^ n))
    (withBuffer (2 ^ n) * sizeof_Node + withBuffer (2 ^ n) + 8)); [|lia].
  unfold set_store, set_max, set_mask, set_num. tcbn.
  replace (Z.to_nat (withBuffer (2 ^ n) + 8)) with (width n + 8)%nat by (unfold width; lia).
  change (Z.to_nat (withBuffer (2 ^ n))) with (width n).
  rewrite write_info_heap by (rewrite length_replicate; lia). done.
Qed.

Abbreviation rehashPowerOfTwo := (rehashPowerOfTwo hasher dh MaxLoadFactor100 sizeof_Node alloc_ok).

(** Rehashing keeps the contents. *)
Lemma rehash_heap_spec t n n' :
  heap_inv t n -> 3 <= n' <= 46 -> mNumElements t <= cap n' ->
  post (rehashPowerOfTwo (2 ^ n') t) (fun t' _ =>
    heap_inv t' n' /\ table_map t' = table_map t).
Proof.
  intros I Hn' Hcap. destruct (hi_store _ _ _ _ _ I) as (nd & info & Hst).
  unfold RobinHood.rehashPowerOfTwo. unfold mbind at 1, M_bind at 1, get.
  rewrite (hi_mask_succ _ _ _ t n I), Hst.
  unfold mbind at 1, M_bind at 1. rewrite init_data_spec by done.
  destruct (alloc_ok _); [|done].
  pose proof (hi_n _ _ _ _ _ I). destruct (width_eq _ load_factor n ltac:(lia)) as [HW HWn].
  pose proof (width_ge n ltac:(lia)).
  destruct (Z.ltb_spec 1 (withBuffer (2 ^ n))); [|lia].
  destruct (fresh_inv n' Hn') as [If Hf].
  assert (table_map t = slots_map nd) as Hmap by (unfold table_map, nodes; by rewrite Hst).
  rewrite Hmap. eapply (reinsert_spec nd info (width n)); auto.
  - by eapply heap_old_block.
  - by rewrite <- Hmap, <- (hi_num _ _ _ _ _ I).
  - intros k v. rewrite Hf, lookup_empty. split; [done|]. intros (j & ? & _). lia.
Qed.

(** Rehashing a table that has not allocated yet. *)
Lemma rehash_init_spec n' :
  3 <= n' <= 46 ->
  post (rehashPowerOfTwo (2 ^ n') init) (fun t' _ => heap_inv t' n' /\ table_map t' = ∅).
Proof.
  intros Hn'. unfold RobinHood.rehashPowerOfTwo. unfold mbind at 1, M_bind at 1, get.
  unfold mbind at 1, M_bind at 1. rewrite init_data_spec by done.
  destruct (alloc_ok _); [|done].
  change (u64 (mMask (@init K V) + 1)) with (2 ^ 0).
  destruct (width_eq _ load_factor 0 ltac:(lia)) as [HW _].
  pose proof (cap_bounds _ load_factor 0 ltac:(lia)).
  destruct (Z.ltb_spec 1 (withBuffer (2 ^ 0))); [lia|].
  by apply fresh_inv.
Qed.

End grow.

(** * The robin-hood table is a finite map

    The public operations of the table refine the operations of a finite map:
    lookup, insertion, assignment, erasure, clearing, rehashing, iteration and
    comparison are stated on [table_map]. *)

Section map.
Context {K V : Type} `{Countable K}.
Context (hasher : K -> Z) (dh : bool).
Context (MaxLoadFactor100 : Z) (load_factor : 10 < MaxLoadFactor100 < 100).
Implicit Types t : Table K V.

Abbreviation heap_inv := (heap_inv hasher dh MaxLoadFactor100).
Abbreviation Inv := (Inv hasher dh MaxLoadFactor100).
Abbreviation cap := (cap MaxLoadFactor100).
Abbreviation width := (width MaxLoadFactor100).
Abbreviation probe_inv := (probe_inv hasher dh).
Abbreviation expt t := (expected hasher dh (mMask t) (mInfoInc t) (mInfoHashShift t)).
Abbreviation homet t := (home hasher dh (mMask t)).

(** ** Basic facts *)

Lemma init_probe : probe_inv (@init K V) 0.
Proof.
  split; simpl; try done.
  - exists 0. done.
  - assert (forall i, F (@init K V) i = 0) as HF.
    { intros i. unfold F, info_bytes. simpl. rewrite ib_replicate || idtac.
      unfold ib. do 8 (destruct i as [|i]; [done|]). done. }
    split; intros *; rewrite ?HF; try done; try lia.
Qed.

Lemma init_map : table_map (@init K V) = ∅.
Proof. done. Qed.

(** Every valid table can be probed; its [end()] is the index of its width. *)
Lemma Inv_probe t : Inv t -> probe_inv t (end_idx t) /\ mNumElements t = Z.of_nat (size (table_map t)).
Proof.
  intros [->|[n I]].
  - split; [apply init_probe|done].
  - split; [|apply I]. unfold end_idx. rewrite (pi_nodes _ _ _ _ (hi_probe _ _ _ _ _ I)). apply I.
Qed.

Lemma Inv_mask t : Inv t -> (if mMask t =? 0 then O else end_idx t) = end_idx t.
Proof.
  intros [->|[n I]]; [done|]. rewrite (hi_mask _ _ _ _ _ I). pose proof (hi_n _ _ _ _ _ I).
  assert (2 ^ 3 <= 2 ^ n) by (apply Z.pow_le_mono_r; lia).
  by destruct (Z.eqb_spec (2 ^ n - 1) 0); [lia|].
Qed.

(** Search by key: the slot holding it, or [end()]. *)
Lemma findIdx_spec t k :
  Inv t ->
  exists j, findIdx hasher dh k t = Ok t j /\
  match table_map t !! k with
  | Some v => G t j = Some (k, v) /\ (j < end_idx t)%nat
  | None => j = end_idx t
  end.
Proof.
  intros I. destruct (Inv_probe t I) as [P _].
  destruct (findIdx_cases hasher dh t _ P k) as [(j & v & Hj & Hg & Hlt)|[Hj Hno]].
  - exists j. split; [done|].
    assert (table_map t !! k = Some v) as -> by (eapply table_map_lookup; eauto). done.
  - rewrite Inv_mask in Hj by done. exists (end_idx t). split; [done|].
    by rewrite (proj2 (table_map_None hasher dh t _ k P)).
Qed.

Lemma read_slot t j kv : G t j = Some kv -> read_node j t = Ok t kv.
Proof. intros Hg%nb_lookup. unfold read_node, mbind, M_bind, get. simpl. by rewrite Hg. Qed.

(** ** Insertion *)

Section insertion.
Context (sizeof_Node : Z) (node_size : 0 < sizeof_Node <= 2 ^ 16) (alloc_ok : Z -> bool).

Abbreviation increase_size := (increase_size hasher dh MaxLoadFactor100 sizeof_Node alloc_ok).
Abbreviation doInsertLoop := (doInsertLoop hasher dh MaxLoadFactor100 sizeof_Node alloc_ok).
Abbreviation doInsert := (doInsert hasher dh MaxLoadFactor100 sizeof_Node alloc_ok).

(** Result of inserting [(k, v)] into a table representing [m]. *)
Definition inserted (m : gmap K V) (k : K) (v : V) t' (r : nat * bool) : Prop :=
  Inv t' /\
  match m !! k with
  | Some v0 => r.2 = false /\ table_map t' = m /\ G t' r.1 = Some (k, v0)
  | None => r.2 = true /\ table_map t' = <[k := v]> m /\ G t' r.1 = Some (k, v)
  end.

(** One round of [doInsert]: the key is found, or the round grows or places. *)
Lemma doInsert_round fuel t W k v :
  probe_inv t W ->
  (exists j v0, G t j = Some (k, v0) /\ doInsertLoop (S fuel) (k, v) t = Ok t (j, false)) \/
  (exists p, (forall m w, G t m <> Some (k, w)) /\ (homet t k <= p <= W)%nat /\
    F t p < expt t k p /\ (forall m, (homet t k <= m < p)%nat -> expt t k m <= F t m) /\
    doInsertLoop (S fuel) (k, v) t =
    (if mMaxNumElementsAllowed t <=? mNumElements t
     then increase_size;; doInsertLoop fuel (k, v)
     else idx ← place (k, v) (expt t k p) p; mret (idx, true)) t).
Proof.
  intros P. destruct (search_spec hasher dh t _ P (loop_fuel t) k)
    as (info & idx & Hs & [(j & v0 & Hm & Hg)|(p & Hm & Hr & Hlt & Hb & Hno)]).
  { unfold loop_fuel. rewrite (pi_info _ _ _ _ P). lia. }
  - left. exists j, v0. split; [done|]. cbn [RobinHood.doInsertLoop fst].
    unfold mbind, M_bind, get. by rewrite (keyToIdx_spec hasher dh t _ P), Hs, Hm.
  - right. exists p. split_and!; auto; try lia. cbn [RobinHood.doInsertLoop fst].
    unfold mbind at 1, M_bind at 1, get. rewrite (keyToIdx_spec hasher dh t _ P).
    unfold mbind at 1, M_bind at 1. rewrite Hs.
    unfold mbind at 1, M_bind at 1. rewrite Hm. done.
Qed.

Lemma increase_size_spec t n :
  heap_inv t n -> mNumElements t < 2 ^ 40 -> 
  post (increase_size t) (fun t' _ => table_map t' = table_map t /\
    ((heap_inv t' n /\ mNumElements t < cap n /\ mMaxNumElementsAllowed t' = cap n) \/
     (heap_inv t' (n + 1) /\ cap n <= 2 * mNumElements t))).
Proof.
  intros I Hnum. pose proof (hi_n _ _ _ _ _ I) as Hn.
  assert (2 ^ 3 <= 2 ^ n) by (apply Z.pow_le_mono_r; lia).
  pose proof (cap_bounds _ load_factor n ltac:(lia)) as Hcb.
  pose proof (pow2_bounds n ltac:(lia)).
  assert (0 <= mNumElements t) by (rewrite (hi_num _ _ _ _ _ I); lia).
  assert (post ((t ← get;
      if u64 (mNumElements t * 2) <? calcMaxNumElementsAllowed MaxLoadFactor100 (u64 (mMask t + 1))
      then throw overflow_error
      else rehashPowerOfTwo hasher dh MaxLoadFactor100 sizeof_Node alloc_ok (u64 (u64 (mMask t + 1) * 2))) t)
    (fun t' _ => table_map t' = table_map t /\
     ((heap_inv t' n /\ mNumElements t < cap n /\ mMaxNumElementsAllowed t' = cap n) \/
     (heap_inv t' (n + 1) /\ cap n <= 2 * mNumElements t)))) as Hrehash.
  { unfold mbind at 1, M_bind at 1, get. rewrite (hi_mask_succ _ _ _ t n I). fold (cap n).
    rewrite (wrap_small 64 (mNumElements t * 2)) by lia.
    destruct (Z.ltb_spec (mNumElements t * 2) (cap n)); [done|].
    rewrite (wrap_small 64) by lia. replace (2 ^ n * 2) with (2 ^ (n + 1)) by (rewrite Z.pow_add_r; lia).
    assert (n < 45) by (apply (Z.pow_lt_mono_r_iff 2); lia).
    pose proof (cap_double _ load_factor n ltac:(lia)). pose proof (hi_cap _ _ _ _ _ I).
    eapply post_mono; [apply (rehash_heap_spec hasher dh _ load_factor _ node_size alloc_ok t n (n + 1) I); lia|].
    intros t' _ [I' Hm]. split; [done|]. right. split; [done|lia]. }
  unfold RobinHood.increase_size. unfold mbind at 1, M_bind at 1, get.
  destruct (Z.eqb_spec (mMask t) 0); [rewrite (hi_mask _ _ _ _ _ I) in *; lia|].
  rewrite (hi_mask_succ _ _ _ t n I). fold (cap n).
  destruct (Z.ltb_spec (mNumElements t) (cap n)) as [Hlt|]; [|done].
  destruct (Z.le_gt_cases (mInfoInc t) 2).
  - unfold mbind at 1, M_bind at 1. rewrite try_increase_info_no by done. done.
  - destruct (try_increase_info_spec hasher dh _ t n I ltac:(lia))
      as (t1 & Ht1 & I1 & Hmax1 & Hmap1 & Hnum1).
    unfold mbind at 1, M_bind at 1. rewrite Ht1. simpl. auto 10.
Qed.

(** How far a table is from accepting an insertion: [level 0] means that there
    is room now; each growth step lowers the level by one. *)
Definition level (l : nat) t : Prop :=
  exists n, heap_inv t n /\ mNumElements t < 2 ^ 40 /\
  (mNumElements t < mMaxNumElementsAllowed t \/
   match l with
   | 0%nat => False
   | 1%nat => 2 * mNumElements t < cap n
   | 2%nat => mNumElements t < cap n
   | _ => True
   end).

(** What a growth step did to the table. *)
Definition grown t n t' : Prop :=
  table_map t' = table_map t /\
  ((heap_inv t' n /\ mNumElements t < cap n /\ mMaxNumElementsAllowed t' = cap n) \/
   (heap_inv t' (n + 1) /\ cap n <= 2 * mNumElements t)).

Lemma level_grown l t :
  level (S l) t -> mMaxNumElementsAllowed t <= mNumElements t ->
  exists n, heap_inv t n /\ mNumElements t < 2 ^ 40 /\ forall t', grown t n t' -> level l t'.
Proof.
  intros (n & I & Hnum & Hl) Hfull. exists n. split; [done|]. split; [done|]. intros t' [Hm Halt].
  assert (forall n', heap_inv t' n' -> mNumElements t' = mNumElements t) as Hnum'.
  { intros n' I'. rewrite (hi_num _ _ _ _ _ I'), (hi_num _ _ _ _ _ I). by rewrite Hm. }
  pose proof (hi_cap _ _ _ _ _ I). pose proof (hi_n _ _ _ _ _ I).
  assert (0 <= mNumElements t) by (rewrite (hi_num _ _ _ _ _ I); lia).
  destruct Halt as [(I' & Hlt & Hmax)|[I' Hge]]; pose proof (Hnum' _ I') as Hn'.
  - exists n. split_and!; auto; try lia.
  - pose proof (hi_n _ _ _ _ _ I'). pose proof (cap_double _ load_factor n ltac:(lia)).
    exists (n + 1). split_and!; auto; try lia. right. rewrite Hn'.
    destruct l as [|[|[|l]]]; lia.
Qed.

Lemma level_step l t :
  level (S l) t -> mMaxNumElementsAllowed t <= mNumElements t ->
  post (increase_size t) (fun t' _ => table_map t' = table_map t /\ level l t').
Proof.
  intros Hl Hfull. destruct (level_grown l t Hl Hfull) as (n & I & Hnum & Hg).
  eapply post_mono; [by apply (increase_size_spec t n)|]. intros t' ? Hgrown.
  split; [apply Hgrown|by apply Hg].
Qed.

(** A round on an allocated table that does not grow it inserts the key. *)
Lemma insert_now fuel t n k v :
  heap_inv t n ->
  (exists t' r, doInsertLoop (S fuel) (k, v) t = Ok t' r /\ inserted (table_map t) k v t' r) \/
  (mMaxNumElementsAllowed t <= mNumElements t /\ table_map t !! k = None /\
   doInsertLoop (S fuel) (k, v) t = (increase_size;; doInsertLoop fuel (k, v)) t).
Proof.
  intros I. pose proof (hi_probe _ _ _ _ _ I) as P.
  destruct (doInsert_round fuel t _ k v P) as [(j & v0 & Hg & Hrun)|(p & Hno & Hp & Hlt & Hb & Hrun)].
  - left. exists t, (j, false). split; [done|]. split; [right; eauto|].
    assert (table_map t !! k = Some v0) as -> by (eapply table_map_lookup; eauto). done.
  - assert (table_map t !! k = None) as Hnone by (by apply (table_map_None hasher dh t _ k P)).
    destruct (Z.leb_spec (mMaxNumElementsAllowed t) (mNumElements t)) as [|Hroom]; [by right|left].
    assert (0 <= mNumElements t) by (rewrite (hi_num _ _ _ _ _ I); lia).
    assert (mMaxNumElementsAllowed t = cap n) by (destruct (hi_max _ _ _ _ _ I) as [|[? _]]; lia).
    destruct (place_spec hasher dh _ load_factor t n k v p I) as (_ & t' & Hpl & I' & Hm & Hg);
      auto; try lia.
    exists t', (p, true). unfold mbind, M_bind in Hrun. rewrite Hpl in Hrun. split; [done|].
    split; [right; eauto|]. rewrite Hnone. done.
Qed.

Lemma insert_level l t k v :
  level l t -> post (doInsertLoop (S l) (k, v) t) (inserted (table_map t) k v).
Proof.
  revert t. induction l as [|l IH]; intros t Hlev; pose proof Hlev as (n & I & Hnum & Hl).
  - destruct (insert_now 0 t n k v I) as [(t' & r & -> & Hr)|(Hfull & _)]; [done|lia].
  - destruct (insert_now (S l) t n k v I) as [(t' & r & -> & Hr)|(Hfull & _ & ->)]; [done|].
    eapply post_bind; [by apply (level_step l t)|]. intros t' _ [Hm Hlev'].
    rewrite <- Hm. by apply IH.
Qed.

Lemma doInsert_post t k v :
  Inv t -> mNumElements t < 2 ^ 40 -> post (doInsert (k, v) t) (inserted (table_map t) k v).
Proof.
  intros [->|[n I]] Hnum; unfold RobinHood.doInsert, insert_rounds.
  - destruct (doInsert_round 4 init 0 k v init_probe) as [(j & v0 & Hg & _)|(p & _ & _ & _ & _ & ->)].
    { apply nb_lt in Hg. simpl in Hg. lia. }
    change (mMaxNumElementsAllowed (@init K V) <=? mNumElements (@init K V)) with true. cbv iota.
    destruct (fresh_inv (V:=V) hasher dh _ load_factor 3 ltac:(lia)) as [If Hf].
    eapply (post_bind _ _ _ _ (fun t' _ => table_map t' = ∅ /\ level 3 t')).
    + unfold RobinHood.increase_size, mbind, M_bind, get. cbn [mMask init Z.eqb].
      change InitialNumElements with (2 ^ 3). rewrite init_data_spec by (done || lia).
      destruct (alloc_ok _); [|done]. split; [done|]. exists 3. split_and!; auto.
    + intros t' _ [Hm Hlev]. pose proof (insert_level 3 t' k v Hlev) as Hp. by rewrite Hm in Hp.
  - apply (post_mono _ (inserted (table_map t) k v)); [|done].
    destruct (insert_now 4 t n k v I) as [(t' & r & -> & Hr)|(Hfull & _ & ->)]; [done|].
    eapply post_bind; [apply (level_step 3 t); [exists n; auto|done]|].
    intros t' _ [Hm Hlev']. rewrite <- Hm. by apply insert_level.
Qed.

(** [operator[]]: the slot of the key, inserted with the default value if absent. *)
Lemma doCreateByKey_post t k d :
  Inv t -> mNumElements t < 2 ^ 40 ->
  post (doCreateByKey hasher dh MaxLoadFactor100 sizeof_Node alloc_ok d k t) (fun t' idx =>
    Inv t' /\ G t' idx = Some (k, default d (table_map t !! k)) /\
    table_map t' = <[k := default d (table_map t !! k)]> (table_map t)).
Proof.
  intros I Hnum. unfold doCreateByKey. fold (doInsert (k, d)).
  eapply post_bind; [by apply doInsert_post|]. intros t' [idx b] [I' Hr]. cbn [fst snd] in Hr.
  assert (G t' idx = Some (k, default d (table_map t !! k)) /\
    table_map t' = <[k := default d (table_map t !! k)]> (table_map t)) as [Hg Hm].
  { destruct (table_map t !! k) as [v0|] eqn:E; destruct Hr as (_ & -> & Hg); simpl; [|done].
    split; [done|]. by rewrite insert_id. }
  unfold mbind, M_bind. rewrite (read_slot t' idx _ Hg). done.
Qed.

(** Inserting a range keeps the first value of every key. *)
Lemma insert_range_post l t :
  Inv t -> mNumElements t + Z.of_nat (length l) < 2 ^ 40 ->
  post (insert_range hasher dh MaxLoadFactor100 sizeof_Node alloc_ok l t) (fun t' _ =>
    Inv t' /\ table_map t' = table_map t ∪ list_to_map l).
Proof.
  revert t. induction l as [|[k v] l IH]; intros t I Hnum; simpl.
  - split; [done|]. by rewrite map_union_empty.
  - simpl in Hnum. eapply post_bind; [apply doInsert_post; [done|lia]|].
    intros t' r [I' Hr].
    assert (mNumElements t' <= mNumElements t + 1 /\
      table_map t' ∪ list_to_map l = table_map t ∪ <[k := v]> (list_to_map l)) as [Hn Hu].
    { rewrite (proj2 (Inv_probe t' I')), (proj2 (Inv_probe t I)).
      destruct (table_map t !! k) as [v0|] eqn:E; destruct Hr as (_ & -> & _).
      - split; [lia|]. apply map_eq. intros k'. rewrite !lookup_union, lookup_insert.
        case_decide; [subst k'; rewrite E|done]. by destruct (list_to_map l !! k).
      - rewrite map_size_insert_None by done. split; [lia|].
        by rewrite <- insert_union_l, insert_union_r. }
    eapply post_mono; [apply IH; [done|lia]|]. intros t'' _ [I'' Hm]. by rewrite Hm, Hu.
Qed.

End insertion.
End map.
