(* ===== verification/RobinHoodOps.v ===== *)
(** * Erasure, clearing, iteration, comparison and reservation *)
From Stdlib Require Import ZArith Lia.
From stdpp Require Import base list gmap numbers.
From S2P Require Import Prelude Hash RobinHood RobinHoodLayout RobinHoodInv.
From S2P Require Import RobinHoodMap.
#[local] Open Scope Z_scope.

Section ops.
Context {K V : Type} `{Countable K}.
Context (hasher : K -> Z) (dh : bool).
Context (MaxLoadFactor100 : Z) (load_factor : 10 < MaxLoadFactor100 < 100).
Implicit Types t : Table K V.

Abbreviation heap_inv := (heap_inv hasher dh MaxLoadFactor100).
Abbreviation Inv := (Inv hasher dh MaxLoadFactor100).
Abbreviation cap := (cap MaxLoadFactor100).
Abbreviation width := (width MaxLoadFactor100).
Abbreviation probe_inv := (probe_inv hasher dh).
Abbreviation expt t := (expected hasher dh (mMask t) (mInfoInc t) (mInfoHashShift t)).
Abbreviation homet t := (home hasher dh (mMask t)).
Abbreviation withBuffer := (calcNumElementsWithBuffer MaxLoadFactor100).

(** ** Lookup *)

Lemma count_spec t k :
  Inv t -> count hasher dh k t = Ok t (match table_map t !! k with Some _ => 1 | None => 0 end).
Proof.
  intros I. destruct (findIdx_spec hasher dh _ t k I) as (j & Hj & Hr).
  unfold count, mbind, M_bind, get. rewrite Hj.
  destruct (table_map t !! k); [destruct Hr as [_ Hr]|subst j].
  - by rewrite decide_False by lia.
  - by rewrite decide_True.
Qed.

Lemma contains_spec t k :
  Inv t -> contains hasher dh k t = Ok t (bool_decide (is_Some (table_map t !! k))).
Proof.
  intros I. unfold contains, mbind, M_bind. rewrite count_spec by done.
  by destruct (table_map t !! k).
Qed.

Lemma at_key_spec t k :
  Inv t -> at_key hasher dh k t =
    match table_map t !! k with Some v => Ok t v | None => Throw t out_of_range end.
Proof.
  intros I. destruct (findIdx_spec hasher dh _ t k I) as (j & Hj & Hr).
  unfold at_key. unfold mbind at 1, M_bind at 1. rewrite Hj. unfold mbind at 1, M_bind at 1, get.
  destruct (table_map t !! k) as [v|]; [destruct Hr as [Hg Hr]|subst j].
  - rewrite decide_False by lia. unfold mbind, M_bind. by rewrite (read_slot t j _ Hg).
  - by rewrite decide_True.
Qed.

(** ** Erasure *)

(** The end of the displaced run behind slot [p]. *)
Lemma first_below (f : nat -> Z) c p d :
  f (p + d)%nat < c ->
  exists j, (p <= j <= p + d)%nat /\ f j < c /\ forall i, (p <= i < j)%nat -> c <= f i.
Proof.
  revert p. induction d as [|d IH]; intros p Hd.
  - exists p. rewrite Nat.add_0_r in Hd. split_and!; auto; lia.
  - destruct (Z.lt_ge_cases (f p) c).
    + exists p. split_and!; auto; lia.
    + destruct (IH (S p)) as (j & ? & ? & Hb). { by replace (S p + d)%nat with (p + S d)%nat by lia. }
      exists j. split_and!; auto; try lia. intros i Hi.
      destruct (decide (i = p)) as [->|]; [done|]. apply Hb. lia.
Qed.

(** The table after slot [p] was erased and the run [p+1 .. e] moved back. *)
Lemma heap_inv_erase t t' n k v p e nd info :
  heap_inv t n -> G t p = Some (k, v) -> (p <= e < width n)%nat ->
  (forall i, (p < i <= e)%nat -> 2 * mInfoInc t <= F t i) -> F t (S e) < 2 * mInfoInc t ->
  mStore t' = Heap nd info -> length nd = length (nodes t) -> length info = length (info_bytes t) ->
  mMask t' = mMask t -> mInfoInc t' = mInfoInc t -> mInfoHashShift t' = mInfoHashShift t ->
  mNumElements t' = mNumElements t - 1 ->
  mMaxNumElementsAllowed t' = mMaxNumElementsAllowed t ->
  (forall i, F t' i = del_f (F t) (mInfoInc t) p e i) ->
  (forall i, G t' i = del_g (G t) p e i) ->
  heap_inv t' n /\ table_map t' = delete k (table_map t).
Proof.
  intros I Hg He Hseg Hend Hst Hl1 Hl2 Hmask Hinc Hsh Hnum Hmax HF HG.
  pose proof (hi_probe _ _ _ _ _ I) as P. pose proof (pi_layout _ _ _ _ P) as L.
  assert (probe_inv t' (width n)) as P'.
  { split; rewrite ?Hmask, ?Hinc, ?Hsh; try apply P.
    - rewrite <- (pi_nodes _ _ _ _ P), <- Hl1. unfold nodes. by rewrite Hst.
    - rewrite <- (pi_info _ _ _ _ P), <- Hl2. unfold info_bytes. by rewrite Hst.
    - eapply layout_ext; [exact HF|exact HG|]. eapply layout_erase; eauto; apply P. }
  assert (table_map t' = delete k (table_map t)) as Hmap.
  { apply map_eq. intros k'. apply option_eq. intros v'.
    rewrite (table_map_lookup hasher dh t' _ k' v' P'). setoid_rewrite HG.
    rewrite lookup_delete_Some, (table_map_lookup hasher dh t _ k' v' P). split.
    - intros [i Hi]. apply del_g_inv in Hi; [|lia]. split.
      + intros <-. destruct Hi as [[? Hi]|[[? Hi]|[? Hi]]];
          pose proof (lay_uniq _ _ _ _ _ _ _ _ L _ _ _ _ _ Hg Hi); lia.
      + destruct Hi as [[? Hi]|[[? Hi]|[? Hi]]]; eauto.
    - intros [Hne [i Hi]]. assert (i <> p) by (intros ->; congruence).
      exists (if decide (p < i <= e)%nat then pred i else i).
      unfold del_g. destruct i as [|i]; repeat case_decide; try lia; done. }
  assert (is_Some (table_map t !! k)) as Hin by (exists v; eapply table_map_lookup; eauto).
  pose proof (hi_cap _ _ _ _ _ I).
  assert (size (delete k (table_map t)) = pred (size (table_map t))) as Hsz
    by (by apply map_size_delete_Some).
  assert (size (table_map t) <> O) as Hnz.
  { intros Hz%map_size_empty_inv. rewrite Hz in Hin. by destruct Hin. }
  split; [|done]. split; rewrite ?Hmask, ?Hmax; try apply I; auto.
  - eauto.
  - rewrite HF. unfold del_f. repeat case_decide; try lia. apply I.
  - rewrite Hmap, Hsz, Hnum, (hi_num _ _ _ _ _ I). lia.
  - lia.
  - destruct (hi_max _ _ _ _ _ I) as [Hz|[Hm Hroom]]; [by left|right]. split; [done|].
    intros i Hi. rewrite HF, Hinc. pose proof (Hroom i Hi). unfold del_f.
    pose proof (probe_inc hasher dh t _ P).
    repeat case_decide; try lia. pose proof (Hroom (S i) ltac:(lia)). lia.
Qed.

Lemma shiftDown_spec t n p k v :
  heap_inv t n -> G t p = Some (k, v) ->
  exists t' e, (shiftDown p;; modify (fun t => set_num (u64 (mNumElements t - 1)) t)) t = Ok t' tt /\
    heap_inv t' n /\ table_map t' = delete k (table_map t) /\ (p <= e < width n)%nat /\
    (forall i, F t' i = del_f (F t) (mInfoInc t) p e i) /\ (forall i, G t' i = del_g (G t) p e i).
Proof.
  intros I Hg. pose proof (hi_probe _ _ _ _ _ I) as P. pose proof (pi_layout _ _ _ _ P) as L.
  pose proof (probe_inc hasher dh t _ P) as Hr.
  destruct (lay_live _ _ _ _ _ _ _ _ L _ _ _ Hg) as (Hp & _).
  pose proof (pi_nodes _ _ _ _ P) as Hln. pose proof (pi_info _ _ _ _ P) as Hli.
  destruct (first_below (F t) (2 * mInfoInc t) (S p) (width n - S p)) as (j & Hj & Hjlt & Hjseg).
  { replace (S p + (width n - S p))%nat with (width n) by lia.
    pose proof (Ft_high hasher dh t _ P (width n)). lia. }
  destruct j as [|e]; [lia|].
  destruct (hi_store _ _ _ _ _ I) as (nd & info & Hst).
  assert (F t = ib info) as HFt by (unfold F, info_bytes; by rewrite Hst).
  assert (G t = nb nd) as HGt by (unfold G, nodes; by rewrite Hst).
  assert (length nd = width n) as Hln' by (unfold nodes in Hln; by rewrite Hst in Hln).
  assert (length info = (width n + 8)%nat) as Hli' by (unfold info_bytes in Hli; by rewrite Hst in Hli).
  destruct (shiftDownLoop_heap (loop_fuel t) nd info (mNumElements t) (mMask t)
    (mMaxNumElementsAllowed t) (mInfoInc t) (mInfoHashShift t) p e)
    as (nd' & info' & Hrun & Hl1 & Hl2 & Hnb & Hib); try (unfold loop_fuel; lia).
  { intros i Hi. rewrite <- HFt, <- HGt. pose proof (Hjseg i ltac:(lia)).
    pose proof (Ft_byte hasher dh t _ P i). split; [lia|].
    destruct (f_nonzero hasher dh _ _ _ _ _ _ (pi_inc _ _ _ _ P) L i ltac:(lia)) as (?&?&->). eauto. }
  { by rewrite <- HFt. }
  assert (t = mkTable (Heap nd info) (mNumElements t) (mMask t)
    (mMaxNumElementsAllowed t) (mInfoInc t) (mInfoHashShift t)) as Ht by (destruct t; simpl in *; congruence).
  rewrite <- Ht in Hrun.
  unfold shiftDown, mbind, M_bind, get, modify. rewrite Hrun. unfold set_num. tcbn.
  assert (is_Some (table_map t !! k)) as Hin by (exists v; eapply table_map_lookup; eauto).
  assert (size (table_map t) <> O) as Hnz.
  { intros Hz%map_size_empty_inv. rewrite Hz in Hin. by destruct Hin. }
  pose proof (hi_num _ _ _ _ _ I) as Hnum. pose proof (hi_cap _ _ _ _ _ I).
  pose proof (hi_n _ _ _ _ _ I). pose proof (pow2_bounds n ltac:(lia)).
  pose proof (cap_bounds _ load_factor n ltac:(lia)).
  rewrite (wrap_small 64) by lia.
  eexists _, e. split; [done|].
  match goal with |- heap_inv ?t' _ /\ _ => set (t1 := t') end.
  assert (forall i, F t1 i = del_f (F t) (mInfoInc t) p e i) as HF1
    by (intros i; rewrite HFt; apply Hib).
  assert (forall i, G t1 i = del_g (G t) p e i) as HG1 by (intros i; rewrite HGt; apply Hnb).
  destruct (heap_inv_erase t t1 n k v p e nd' info' I Hg) as [I1 Hm1]; auto; try lia.
  - intros i Hi. apply Hjseg. lia.
  - split_and!; auto; lia.
Qed.

(** The probing loop of [erase]: it stops at the key's slot, or without a hit. *)
Lemma eraseLoop_spec t W fuel k i :
  probe_inv t W ->
  (homet t k <= i <= W)%nat -> (W < i + fuel)%nat -> expt t k i <= 255 ->
  (forall m v, (homet t k <= m < i)%nat -> G t m <> Some (k, v)) ->
  (exists j v, G t j = Some (k, v) /\ eraseLoop fuel k (expt t k i) i t =
    (shiftDown j;; modify (fun t => set_num (u64 (mNumElements t - 1)) t);; mret 1) t) \/
  (eraseLoop fuel k (expt t k i) i t = Ok t 0 /\ forall m v, G t m <> Some (k, v)).
Proof.
  intros P. pose proof (probe_inc hasher dh t _ P) as Hinc.
  revert i. induction fuel as [|fuel IH]; intros i Hi Hfuel Hle Hbef; [lia|].
  destruct (probe_spec hasher dh t _ P k i) as (b & Hb & Hbs); [lia|].
  assert (eraseLoop (S fuel) k (expt t k i) i t =
    (if b then shiftDown i;; modify (fun t => set_num (u64 (mNumElements t - 1)) t);; mret 1
     else if expt t k (S i) <=? F t (S i) then eraseLoop fuel k (expt t k (S i)) (S i) else mret 0) t) as ->.
  { cbn [eraseLoop]. unfold mbind at 1, M_bind at 1, get. unfold mbind at 1, M_bind at 1. rewrite Hb.
    destruct b; [done|]. rewrite (next_spec hasher dh t _ P) by lia.
    unfold mbind at 1, M_bind at 1. by rewrite (read_info_spec hasher dh t _ P) by lia. }
  destruct b.
  { left. destruct (proj1 Hbs eq_refl) as [v ?]. exists i, v. done. }
  assert (forall m v, (homet t k <= m < S i)%nat -> G t m <> Some (k, v)) as Hbef2.
  { intros m v Hm Hv. destruct (decide (m = i)) as [->|]; [|by apply (Hbef m v); [lia|]].
    discriminate (proj2 Hbs); eauto. }
  destruct (Z.leb_spec (expt t k (S i)) (F t (S i))) as [Hc|Hc].
  - pose proof (Ft_lt hasher dh t _ P k (S i) ltac:(lia) Hc).
    pose proof (Ft_byte hasher dh t _ P (S i)). apply IH; auto; lia.
  - right. split; [done|]. eapply not_stored; [apply P|apply P| |exact Hc|done]. lia.
Qed.

(** [erase(key)] removes the key and reports how many entries were removed. *)
Lemma erase_spec t k :
  Inv t ->
  exists t' c, erase hasher dh k t = Ok t' c /\ Inv t' /\ table_map t' = delete k (table_map t) /\
    c = match table_map t !! k with Some _ => 1 | None => 0 end.
Proof.
  intros I. destruct (Inv_probe hasher dh _ t I) as [P _].
  pose proof (homet_le hasher dh t _ P k). pose proof (probe_inc hasher dh t _ P).
  pose proof (bits_range hasher dh _ _ k (pi_inc _ _ _ _ P)).
  unfold erase, mbind at 1, M_bind at 1, get. rewrite (keyToIdx_spec hasher dh t _ P).
  destruct (eraseLoop_spec t _ (loop_fuel t) k (homet t k) P) as [(j & v & Hg & ->)|[-> Hno]].
  { lia. } { unfold loop_fuel. rewrite (pi_info _ _ _ _ P). lia. }
  { rewrite exp_home. lia. } { intros; lia. }
  - destruct I as [->|[n I]].
    { apply nb_lt in Hg. simpl in Hg. lia. }
    destruct (shiftDown_spec t n j k v I Hg) as (t' & e & Hrun & I' & Hm & _).
    exists t', 1. unfold mbind, M_bind in Hrun |- *.
    destruct (shiftDown j t); [|done|done|done]. simpl in Hrun |- *. injection Hrun as ->.
    split_and!; auto; [right; eauto|].
    assert (table_map t !! k = Some v) as -> by (eapply table_map_lookup; eauto). done.
  - exists t, 0. assert (table_map t !! k = None) as Hnone by (by eapply table_map_None).
    split_and!; auto; [by rewrite delete_id|by rewrite Hnone].
Qed.

(** ** Assignment *)

Lemma heap_inv_assign t n j k v v' :
  heap_inv t n -> G t j = Some (k, v) ->
  exists t', write_node j (k, v') t = Ok t' tt /\ heap_inv t' n /\
    table_map t' = <[k := v']> (table_map t) /\ G t' j = Some (k, v').
Proof.
  intros I Hg. pose proof (hi_probe _ _ _ _ _ I) as P. pose proof (pi_layout _ _ _ _ P) as L.
  destruct (hi_store _ _ _ _ _ I) as (nd & info & Hst).
  assert (t = mkTable (Heap nd info) (mNumElements t) (mMask t)
    (mMaxNumElementsAllowed t) (mInfoInc t) (mInfoHashShift t)) as Ht by (destruct t; simpl in *; congruence).
  assert (G t = nb nd) as HGt by (unfold G, nodes; by rewrite Hst).
  pose proof (nb_lt _ _ _ Hg) as Hj. unfold nodes in Hj. rewrite Hst in Hj. simpl in Hj.
  pose proof (set_node_heap nd info (mNumElements t) (mMask t) (mMaxNumElementsAllowed t)
    (mInfoInc t) (mInfoHashShift t) j (Some (k, v')) Hj) as Hrun.
  rewrite <- Ht in Hrun. eexists. split; [exact Hrun|].
  match goal with |- heap_inv ?t' _ /\ _ => set (t1 := t') end.
  assert (forall i, G t1 i = if decide (i = j) then Some (k, v') else G t i) as HG.
  { intros i. unfold G at 1, nodes. simpl. rewrite nb_insert, HGt by done. done. }
  assert (forall i, F t1 i = F t i) as HF by (intros i; unfold F, info_bytes; by rewrite Hst).
  assert (forall i k' w, G t1 i = Some (k', w) -> exists w', G t i = Some (k', w')) as Hback.
  { intros i k' w. rewrite HG. case_decide; [intros [= <- <-]; subst; eauto|eauto]. }
  assert (probe_inv t1 (width n)) as P1.
  { pose proof (pi_nodes _ _ _ _ P) as Hln. pose proof (pi_info _ _ _ _ P) as Hli.
    unfold nodes, info_bytes in Hln, Hli. rewrite Hst in Hln, Hli.
    split; try apply P; unfold nodes, info_bytes; simpl; rewrite ?length_insert; auto.
    split; intros *; rewrite ?HF; try apply L.
    - rewrite HG. case_decide; [done|]. apply L.
    - intros (w' & Hw)%Hback. by eapply (lay_live _ _ _ _ _ _ _ _ L).
    - intros (w1 & Hw1)%Hback (w2 & Hw2)%Hback. by eapply (lay_uniq _ _ _ _ _ _ _ _ L). }
  assert (table_map t1 = <[k := v']> (table_map t)) as Hmap.
  { apply map_eq. intros k'. apply option_eq. intros w.
    rewrite (table_map_lookup hasher dh t1 _ k' w P1), lookup_insert_Some,
      (table_map_lookup hasher dh t _ k' w P). split.
    - intros [i Hi]. rewrite HG in Hi. case_decide as Hij; [left; by simplify_eq|right].
      split; [|eauto]. intros ->. by pose proof (lay_uniq _ _ _ _ _ _ _ _ L _ _ _ _ _ Hg Hi).
    - intros [[-> ->]|[Hne [i Hi]]]; [exists j|exists i]; rewrite HG.
      + by rewrite decide_True.
      + rewrite decide_False; [done|]. intros ->. congruence. }
  split_and!; auto; [|by rewrite HG, decide_True].
  split; try apply I; auto.
  - by do 2 eexists.
  - rewrite HF. apply I.
  - rewrite Hmap, map_size_insert_Some by (exists v; eapply table_map_lookup; eauto). apply I.
  - destruct (hi_max _ _ _ _ _ I) as [Hz|[Hm Hroom]]; [by left|right]. split; [done|].
    intros i. rewrite HF. apply Hroom.
Qed.

Section with_alloc.
Context (sizeof_Node : Z) (node_size : 0 < sizeof_Node <= 2 ^ 16) (alloc_ok : Z -> bool).

Lemma insert_or_assign_post t k v :
  Inv t -> mNumElements t < 2 ^ 40 ->
  post (insert_or_assign hasher dh MaxLoadFactor100 sizeof_Node alloc_ok (k, v) t) (fun t' r =>
    Inv t' /\ table_map t' = <[k := v]> (table_map t) /\ G t' r.1 = Some (k, v) /\
    r.2 = bool_decide (table_map t !! k = None)).
Proof.
  intros I Hnum. destruct (findIdx_spec hasher dh _ t k I) as (j & Hj & Hr).
  unfold insert_or_assign. cbn [fst snd]. unfold mbind at 1, M_bind at 1. rewrite Hj.
  unfold mbind at 1, M_bind at 1, get.
  destruct (table_map t !! k) as [v0|] eqn:E; [destruct Hr as [Hg Hr]|subst j].
  - rewrite decide_False by lia. unfold mbind at 1, M_bind at 1. rewrite (read_slot t j _ Hg).
    destruct I as [->|[n I]]; [apply nb_lt in Hg; simpl in Hg; lia|].
    destruct (heap_inv_assign t n j k v0 v I Hg) as (t' & Hw & I' & Hm & Hg').
    unfold mbind, M_bind. cbn [fst]. rewrite Hw. simpl. split_and!; auto. right; eauto.
  - rewrite decide_True by done.
    eapply post_mono; [by apply (doInsert_post hasher dh _ load_factor _ node_size alloc_ok t k v I)|].
    intros t' r [I' Hr]. rewrite E in Hr. destruct Hr as (Hr2 & Hm & Hg). split_and!; auto.
Qed.

Lemma try_emplace_post t k v :
  Inv t -> mNumElements t < 2 ^ 40 ->
  post (try_emplace hasher dh MaxLoadFactor100 sizeof_Node alloc_ok (k, v) t)
    (inserted hasher dh MaxLoadFactor100 (table_map t) k v).
Proof.
  intros I Hnum. destruct (findIdx_spec hasher dh _ t k I) as (j & Hj & Hr).
  unfold try_emplace. cbn [fst snd]. unfold mbind at 1, M_bind at 1. rewrite Hj.
  unfold mbind at 1, M_bind at 1, get.
  destruct (table_map t !! k) as [v0|] eqn:E; [destruct Hr as [Hg Hr]|subst j].
  - rewrite decide_False by lia. simpl. split; [done|]. by rewrite E.
  - rewrite decide_True by done. by apply doInsert_post.
Qed.

End with_alloc.
End ops.

(** * Iteration, comparison, clearing and reservation of a robin-hood table *)

Section iter.
Context {K V : Type} `{Countable K}.
Context (hasher : K -> Z) (dh : bool).
Context (MaxLoadFactor100 : Z).
Implicit Types t : Table K V.

Abbreviation heap_inv := (heap_inv hasher dh MaxLoadFactor100).
Abbreviation Inv := (Inv hasher dh MaxLoadFactor100).
Abbreviation cap := (cap MaxLoadFactor100).
Abbreviation width := (width MaxLoadFactor100).
Abbreviation probe_inv := (probe_inv hasher dh).
Abbreviation withBuffer := (calcNumElementsWithBuffer MaxLoadFactor100).

(** ** Jumping to the next live slot *)

(** The first non-zero byte from [i] on: a live slot, or the sentinel. *)
Lemma next_live t n i :
  heap_inv t n -> (i <= width n)%nat ->
  exists j, iter_forward i t = Ok t j /\ (i <= j <= width n)%nat /\
    (forall m, (i <= m < j)%nat -> G t m = None) /\ ((j < width n)%nat -> is_Some (G t j)).
Proof.
  intros I Hi. pose proof (hi_probe _ _ _ _ _ I) as P. pose proof (pi_layout _ _ _ _ P) as L.
  pose proof (probe_inc hasher dh t _ P) as Hinc. pose proof (pi_info _ _ _ _ P) as Hli.
  assert (exists j, (i <= j <= width n)%nat /\ F t j <> 0 /\
    forall m, (i <= m < j)%nat -> F t m = 0) as (j & Hj & Hnz & Hz).
  { destruct (first_below (fun m => - F t m) 0 i (width n - i)) as (j & Hj & Hlt & Hb).
    - replace (i + (width n - i))%nat with (width n) by lia. rewrite (hi_sentinel _ _ _ _ _ I). lia.
    - exists j. split_and!; [lia|lia|lia|]. intros m Hm. pose proof (Hb m Hm).
      pose proof (Ft_byte hasher dh t _ P m). lia. }
  exists j. split_and!; try lia.
  - unfold iter_forward, mbind, M_bind, get.
    rewrite (fastForward_spec _ _ i j); auto; try lia.
    + by eapply info_is_bytes.
    + unfold loop_fuel. lia.
  - intros m Hm. pose proof (Hz m Hm).
    destruct (f_cases hasher dh _ _ _ _ _ _ (pi_inc _ _ _ _ P) L m)
      as [(?&?&?&?&?)|[(?&_)|(?&?&_)]]; [lia|done|done].
  - intros Hlt. destruct (f_cases hasher dh _ _ _ _ _ _ (pi_inc _ _ _ _ P) L j)
      as [(?&?&->&_)|[(_&_&?)|(?&_)]]; [eauto|done|lia].
Qed.

(** ** The visited entries *)

Lemma omap_drop_dead (nd : list (option (K * V))) i j :
  (i <= j)%nat -> (forall m, (i <= m < j)%nat -> nb nd m = None) ->
  omap id (drop i nd) = omap id (drop j nd).
Proof.
  intros Hij. induction Hij as [|j Hij IH]; intros Hd; [done|].
  rewrite IH by (intros; apply Hd; lia).
  destruct (nd !! j) as [o|] eqn:E.
  - rewrite (drop_S _ _ _ E). assert (o = None) as ->; [|done].
    specialize (Hd j ltac:(lia)). unfold nb in Hd. rewrite E in Hd. done.
  - apply lookup_ge_None in E. by rewrite !drop_ge by lia.
Qed.

Lemma omap_live (kv : K * V) nd : omap id (Some kv :: nd) = kv :: omap id nd.
Proof. done. Qed.

Lemma entries_from_spec t n fuel i :
  heap_inv t n -> (i <= width n)%nat -> (width n < i + fuel)%nat ->
  ((i < width n)%nat -> is_Some (G t i)) ->
  entries_from fuel i t = Ok t (omap id (drop i (nodes t))).
Proof.
  intros I. pose proof (hi_probe _ _ _ _ _ I) as P. pose proof (pi_nodes _ _ _ _ P) as Hln.
  revert i. induction fuel as [|fuel IH]; intros i Hi Hfuel Hlive; [lia|].
  cbn [entries_from]. unfold mbind at 1, M_bind at 1, get.
  destruct (decide (i = end_idx t)) as [Hd|Hd]; unfold end_idx in Hd; rewrite Hln in Hd.
  - by rewrite drop_ge by lia.
  - destruct (Hlive ltac:(lia)) as [kv Hkv].
    unfold mbind at 1, M_bind at 1. rewrite (read_slot t i _ Hkv).
    destruct (next_live t n (S i) I ltac:(lia)) as (j & Hj & Hr & Hdead & Hjl).
    unfold mbind at 1, M_bind at 1. unfold iter_next. rewrite Hj.
    unfold mbind at 1, M_bind at 1. rewrite (IH j) by (auto; lia).
    pose proof (proj1 (nb_lookup _ _ _) Hkv) as Hl. rewrite (drop_S _ _ _ Hl).
    rewrite omap_live.
    rewrite (omap_drop_dead (nodes t) (S i) j) by (auto; lia). done.
Qed.

Lemma empty_no_live t W :
  probe_inv t W -> table_map t = ∅ -> omap id (nodes t) = [].
Proof.
  intros P Hm. destruct (omap id (nodes t)) as [|[k v] l] eqn:E; [done|exfalso].
  assert ((k, v) ∈ omap id (nodes t)) as Hin by (rewrite E; constructor).
  apply list_elem_of_omap in Hin as (o & [i Hi]%list_elem_of_lookup & Ho). simpl in Ho. subst o.
  apply nb_lookup in Hi. assert (table_map t !! k = Some v) by (eapply table_map_lookup; eauto).
  by rewrite Hm, lookup_empty in *.
Qed.

(** A range-based [for] visits the live slots in order. *)
Lemma entries_spec t : Inv t -> entries t = Ok t (omap id (nodes t)).
Proof.
  intros [->|[n I]]; [done|]. pose proof (hi_probe _ _ _ _ _ I) as P.
  pose proof (pi_nodes _ _ _ _ P) as Hln. pose proof (pi_info _ _ _ _ P) as Hli.
  unfold entries, begin_idx. unfold mbind at 1, M_bind at 1, get.
  unfold mbind at 1, M_bind at 1. unfold mbind at 1, M_bind at 1.
  destruct (Z.eqb_spec (mNumElements t) 0) as [Hz|Hz].
  - unfold mret at 1, M_ret at 1. unfold end_idx.
    rewrite (entries_from_spec t n) by (unfold loop_fuel; auto; lia).
    rewrite drop_ge by lia. rewrite (empty_no_live t _ P); [done|].
    apply map_size_empty_inv. rewrite (hi_num _ _ _ _ _ I) in Hz. lia.
  - destruct (next_live t n 0 I ltac:(lia)) as (j & -> & Hr & Hdead & Hjl).
    rewrite (entries_from_spec t n) by (unfold loop_fuel; auto; lia).
    by rewrite <- (omap_drop_dead (nodes t) 0 j) by (auto; lia).
Qed.

(** ** Comparison *)

Lemma has_spec `{EqDecision V} t e :
  Inv t -> has hasher dh e t = Ok t (bool_decide (table_map t !! e.1 = Some e.2)).
Proof.
  intros I. destruct e as [k v]. destruct (findIdx_spec hasher dh _ t k I) as (j & Hj & Hr).
  unfold has. unfold mbind at 1, M_bind at 1. cbn [fst snd]. rewrite Hj.
  unfold mbind at 1, M_bind at 1, get.
  destruct (table_map t !! k) as [w|]; [destruct Hr as [Hg Hr]|subst j].
  - rewrite decide_False by lia. unfold mbind, M_bind. rewrite (read_slot t j _ Hg).
    unfold mret, M_ret. cbn [snd]. apply (f_equal (Ok t)), bool_decide_ext. split; congruence.
  - by rewrite decide_True.
Qed.

Lemma has_all_spec `{EqDecision V} t l :
  Inv t -> has_all hasher dh l t =
    Ok t (bool_decide (Forall (fun e => table_map t !! e.1 = Some e.2) l)).
Proof.
  intros I. induction l as [|e l IH]; [done|].
  cbn [has_all]. unfold mbind, M_bind. rewrite has_spec by done.
  destruct (bool_decide_reflect (table_map t !! e.1 = Some e.2)) as [He|He].
  - rewrite IH. apply (f_equal (Ok t)), bool_decide_ext. rewrite list.Forall_cons. tauto.
  - unfold mret, M_ret. apply (f_equal (Ok t)). symmetry. apply bool_decide_false. rewrite list.Forall_cons. tauto.
Qed.

(** [operator==] decides equality of the represented maps. *)
Lemma table_eq_spec `{EqDecision V} t other :
  Inv t -> Inv other ->
  table_eq hasher dh other t = Ok t (bool_decide (table_map other = table_map t)).
Proof.
  intros I Io. destruct (Inv_probe hasher dh _ t I) as [P Hn].
  destruct (Inv_probe hasher dh _ other Io) as [Po Hno].
  unfold table_eq, mbind, M_bind, get. rewrite Hn, Hno.
  destruct (Z.eqb_spec (Z.of_nat (size (table_map other))) (Z.of_nat (size (table_map t)))) as [Hs|Hs].
  - cbn [negb]. rewrite entries_spec, has_all_spec by done. apply (f_equal (Ok t)), bool_decide_ext.
    rewrite list.Forall_forall. split.
    + intros Hall. apply map_subseteq_size_eq; [|lia]. apply map_subseteq_spec. intros k v Hk.
      apply (Hall (k, v)). apply list_elem_of_omap. exists (Some (k, v)). split; [|done].
      apply (table_map_lookup hasher dh other _ k v Po) in Hk as [i Hi].
      apply list_elem_of_lookup. exists i. by apply nb_lookup.
    + intros Heq [k v] (o & [i Hi]%list_elem_of_lookup & Ho)%list_elem_of_omap. simpl in Ho. subst o.
      rewrite <- Heq. eapply table_map_lookup; [done|]. exists i. by apply nb_lookup.
  - cbn [negb]. unfold mret, M_ret. apply (f_equal (Ok t)). symmetry. apply bool_decide_false. congruence.
Qed.

(** ** Erasure through an iterator *)

(** Closing the gap keeps the sequence of the entries behind the erased one. *)
Lemma omap_erase (nd nd' : list (option (K * V))) p e :
  (p <= e < length nd)%nat -> length nd' = length nd ->
  (forall i, nb nd' i = del_g (nb nd) p e i) ->
  omap id (drop p nd') = omap id (drop (S p) nd).
Proof.
  intros Hpe Hlen Hnb.
  assert (forall (l : list (option (K * V))) i, (i < length l)%nat -> l !! i = Some (nb l i)) as Hlk.
  { intros l i Hi. unfold nb. by destruct (lookup_lt_is_Some_2 l i Hi) as [o ->]. }
  assert (drop p nd' = drop (S p) (take (S e) nd) ++ None :: drop (S e) nd) as ->.
  { apply list_eq. intros i. rewrite lookup_drop.
    destruct (decide (p + i < length nd)%nat) as [Hi|Hi].
    - rewrite Hlk, Hnb by lia. unfold del_g. rewrite decide_False by lia.
      destruct (decide (p + i < e)%nat).
      + rewrite lookup_app_l by (rewrite length_drop, length_take; lia).
        rewrite lookup_drop, lookup_take_lt, Hlk by lia. by repeat f_equal; try lia.
      + rewrite lookup_app_r by (rewrite length_drop, length_take; lia).
        rewrite length_drop, length_take. destruct (decide (p + i = e)%nat).
        * by replace (i - _)%nat with 0%nat by lia.
        * replace (i - _)%nat with (S (p + i - S e)) by lia. simpl.
          rewrite lookup_drop, Hlk by lia. do 2 f_equal. lia.
    - rewrite !lookup_ge_None_2; [done|..];
        rewrite ?length_app; simpl; rewrite ?length_drop, ?length_take; lia. }
  rewrite omap_app. change (omap id (None :: drop (S e) nd)) with (omap id (drop (S e) nd)).
  rewrite <- omap_app. f_equal.
  rewrite <- (take_drop (S e) nd) at 3. rewrite drop_app_le by (rewrite length_take; lia). done.
Qed.

Lemma erase_iter_spec t n p k v :
  10 < MaxLoadFactor100 < 100 -> heap_inv t n -> G t p = Some (k, v) ->
  exists t' j, erase_iter p t = Ok t' j /\ heap_inv t' n /\
    table_map t' = delete k (table_map t) /\ (j <= width n)%nat /\
    ((j < width n)%nat -> is_Some (G t' j)) /\
    omap id (drop j (nodes t')) = omap id (drop (S p) (nodes t)).
Proof.
  intros Hlf I Hg.
  destruct (shiftDown_spec hasher dh _ Hlf t n p k v I Hg) as (t' & e & Hrun & I' & Hm & Hpe & HF & HG).
  pose proof (hi_probe _ _ _ _ _ I) as P. pose proof (hi_probe _ _ _ _ _ I') as P'.
  pose proof (pi_nodes _ _ _ _ P) as Hln. pose proof (pi_nodes _ _ _ _ P') as Hln'.
  pose proof (pi_info _ _ _ _ P') as Hli'. pose proof (pi_inc _ _ _ _ P') as Hinc.
  assert (omap id (drop p (nodes t')) = omap id (drop (S p) (nodes t))) as Hseq.
  { apply (omap_erase _ _ p e); auto; lia. }
  assert (erase_iter p t =
    (b ← read_info p; if b =? 0 then iter_next p else mret p) t') as ->.
  { unfold erase_iter. revert Hrun. unfold mbind, M_bind. destruct (shiftDown p t); try done.
    unfold modify. by intros [= ->]. }
  unfold mbind, M_bind. unfold read_info at 1. unfold mbind, M_bind, get.
  rewrite (ib_lookup _ p) by lia. cbn [access]. unfold mret at 1, M_ret at 1.
  change (ib (info_bytes t') p) with (F t' p).
  destruct (f_cases hasher dh _ _ _ _ _ _ Hinc (pi_layout _ _ _ _ P') p)
    as [(k'&v'&Hl&_&Hf)|[(Hd&_&Hz)|(?&_)]]; [| |lia].
  - pose proof (probe_inc hasher dh t' _ P').
    destruct (Z.eqb_spec (F t' p) 0) as [Hz|_]; [lia|].
    exists t', p. split_and!; auto; try lia.
  - destruct (Z.eqb_spec (F t' p) 0) as [_|Hnz]; [|done].
    destruct (next_live t' n (S p) I' ltac:(lia)) as (j & Hj & Hr & Hdead & Hlive).
    unfold iter_next. rewrite Hj. exists t', j. split_and!; auto; try lia.
    rewrite <- Hseq, (omap_drop_dead (nodes t') p j); [done|lia|].
    intros m Hm'. destruct (decide (m = p)) as [->|]; [done|]. apply Hdead. lia.
Qed.

End iter.
