(* ===== verification/RobinHoodSpec.v ===== *)
(** * Whole-table operations of a robin-hood table

    Clearing, destruction, copying, moving and reservation: the destruction loop
    leaves no live slot, the cloning loop rebuilds the slots of its source, and
    a reservation finds the smallest power of two whose load limit suffices. *)
From Stdlib Require Import ZArith Lia.
From stdpp Require Import base list gmap numbers.
From S2P Require Import Prelude Hash RobinHood RobinHoodLayout RobinHoodInv.
From S2P Require Import RobinHoodMap RobinHoodOps Refinement.
#[local] Open Scope Z_scope.

Section whole.
Context {K V : Type} `{Countable K}.
Context (hasher : K -> Z) (dh : bool).
Context (MaxLoadFactor100 : Z) (load_factor : 10 < MaxLoadFactor100 < 100).
Implicit Types t : Table K V.

Abbreviation heap_inv := (heap_inv hasher dh MaxLoadFactor100).
Abbreviation Inv := (Inv hasher dh MaxLoadFactor100).
Abbreviation cap := (cap MaxLoadFactor100).
Abbreviation width := (width MaxLoadFactor100).
Abbreviation withBuffer := (calcNumElementsWithBuffer MaxLoadFactor100).

(** ** Destruction *)

Lemma destroyLoop_heap nd info W d i num mask max inc shift :
  old_block nd info W -> (i + d = W)%nat ->
  destroyLoop d i (mkTable (Heap (replicate i None ++ drop i nd) info) num mask max inc shift) =
  Ok (mkTable (Heap (replicate W (@None (K * V))) info) num mask max inc shift) tt.
Proof.
  intros O. pose proof (ob_len _ _ _ O) as Hln. pose proof (ob_info _ _ _ O) as Hli.
  revert i. induction d as [|d IH]; intros i Hi.
  - cbn [destroyLoop]. rewrite drop_ge, app_nil_r by lia. by replace W with i by lia.
  - cbn [destroyLoop]. unfold mbind at 1, M_bind at 1.
    rewrite read_info_heap by lia.
    assert (exists o, nd !! i = Some o) as [o Ho] by (apply lookup_lt_is_Some_2; lia).
    pose proof (drop_S _ _ _ Ho) as Hd.
    assert (replicate i None ++ None :: drop (S i) nd = replicate (S i) None ++ drop (S i) nd) as Hnext.
    { rewrite replicate_S_end, <- app_assoc. done. }
    assert (nb nd i = o) as Hnb by (unfold nb; by rewrite Ho).
    destruct (Z.eqb_spec 0 (ib info i)) as [Hz|Hnz].
    + rewrite (ob_dead _ _ _ O i) in Hnb by (done || lia). subst o.
      unfold mbind at 1, M_bind at 1, mret, M_ret. rewrite Hd, Hnext. apply IH; lia.
    + destruct (ob_live _ _ _ O i ltac:(lia) ltac:(done)) as [kv Hkv].
      assert (o = Some kv) as -> by congruence.
      unfold mbind at 1, M_bind at 1. unfold mbind at 1, M_bind at 1. rewrite Hd.
      rewrite (read_node_heap _ _ _ _ _ _ _ _ kv).
      2: { apply nb_lookup. by rewrite lookup_app_r, length_replicate, Nat.sub_diag by (rewrite length_replicate; lia). }
      unfold kill_node. rewrite set_node_heap.
      2: { rewrite length_app, length_replicate. simpl. lia. }
      rewrite insert_app_r_alt, length_replicate, Nat.sub_diag by (rewrite length_replicate; lia).
      cbn [insert list_insert]. rewrite Hnext. apply IH; lia.
Qed.

Lemma destroy_nodes_heap t n nd info :
  heap_inv t n -> mStore t = Heap nd info ->
  destroy_nodes MaxLoadFactor100 t =
  Ok (mkTable (Heap (replicate (width n) None) info) 0 (mMask t)
       (mMaxNumElementsAllowed t) (mInfoInc t) (mInfoHashShift t)) tt.
Proof.
  intros I Hst. unfold destroy_nodes, mbind, M_bind, modify, get, set_num. tcbn. rewrite Hst.
  rewrite (hi_mask_succ _ _ _ t n I). change (Z.to_nat (withBuffer (2 ^ n))) with (width n).
  apply (destroyLoop_heap nd info _ _ 0); [|done]. by eapply heap_old_block.
Qed.

Lemma destroy_nodes_init :
  destroy_nodes MaxLoadFactor100 (@init K V) = Ok init tt.
Proof.
  unfold destroy_nodes, mbind, M_bind, modify, get. change (set_num 0 (@init K V)) with (@init K V).
  change (u64 (mMask (@init K V) + 1)) with (2 ^ 0).
  destruct (width_eq _ load_factor 0 ltac:(lia)) as [-> _].
  pose proof (cap_bounds _ load_factor 0 ltac:(lia)).
  by replace (2 ^ 0 + Z.min (cap 0) 255) with 1 by lia.
Qed.

(** ** Sizes of a block *)

Lemma block_sizes n :
  3 <= n <= 46 ->
  Z.to_nat (calcNumBytesInfo (withBuffer (2 ^ n))) = (width n + 8)%nat /\
  Z.of_nat (width n) = withBuffer (2 ^ n).
Proof.
  intros Hn. destruct (width_eq _ load_factor n ltac:(lia)) as [HW HWn].
  pose proof (cap_bounds _ load_factor n ltac:(lia)). pose proof (pow2_bounds n ltac:(lia)).
  split; [|lia]. unfold calcNumBytesInfo. rewrite wrap_small by lia. unfold RobinHoodInv.width. lia.
Qed.

Lemma heap_lengths t n nd info :
  heap_inv t n -> mStore t = Heap nd info ->
  length nd = width n /\ length info = (width n + 8)%nat.
Proof.
  intros I Hst. destruct (hi_probe _ _ _ _ _ I) as [Hn Hi _ _ _ _].
  unfold nodes, info_bytes in *. by rewrite Hst in *.
Qed.

(** ** Clearing *)

Lemma zero_info_heap (nd : list (option (K * V))) info n m mx inc sh bytes :
  (bytes <= length info)%nat ->
  zero_info bytes (mkTable (Heap nd info) n m mx inc sh) =
  Ok (mkTable (Heap nd (replicate bytes 0 ++ drop bytes info)) n m mx inc sh) tt.
Proof.
  intros Hb. unfold zero_info, mbind, M_bind, get. unfold info_bytes at 1. tcbn. cbn [store_info].
  by rewrite decide_True.
Qed.

(** A fresh block whose load limit is still the one of a full table. *)
Lemma fresh_max n m :
  3 <= n <= 46 -> m = 0 \/ m = cap n ->
  let t : Table K V := set_max m (fresh_table MaxLoadFactor100 n) in
  heap_inv t n /\ table_map t = ∅.
Proof.
  intros Hn Hm t. destruct (fresh_inv (K:=K) (V:=V) hasher dh _ load_factor n Hn) as [I Hf].
  split; [|exact Hf]. destruct I as [? ? ? P ? ? ? Hmax]. split; auto.
  - destruct P. by split.
  - destruct Hm as [->| ->]; [by left|]. right. split; [done|].
    destruct Hmax as [Hz|[_ Hb]]; [|exact Hb]. intros i Hi.
    unfold F, info_bytes. simpl. rewrite ib_insert by (rewrite length_replicate; lia).
    rewrite decide_False, ib_replicate by lia. case_decide; vm_compute; congruence.
Qed.

Lemma table_clear_spec t :
  Inv t ->
  exists t', clear MaxLoadFactor100 t = Ok t' tt /\ Inv t' /\ table_map t' = ∅ /\
    mNumElements t' = 0 /\ mMask t' = mMask t.
Proof.
  intros I. destruct (Inv_probe hasher dh _ t I) as [P Hn].
  unfold clear. unfold mbind at 1, M_bind at 1, get.
  destruct (Z.eqb_spec (mNumElements t) 0) as [Hz|Hz].
  { exists t. split_and!; auto. apply map_size_empty_inv. lia. }
  clear P. destruct I as [->|[n I]]; [done|].
  pose proof (hi_n _ _ _ _ _ I) as Hnn. destruct (block_sizes n Hnn) as [Hbytes HW].
  destruct (hi_store _ _ _ _ _ I) as (nd & info & Hst).
  destruct (heap_lengths t n nd info I Hst) as [_ Hli].
  exists (set_max (mMaxNumElementsAllowed t) (fresh_table MaxLoadFactor100 n)).
  destruct (fresh_max n (mMaxNumElementsAllowed t) Hnn) as [If Hf].
  { destruct (hi_max _ _ _ _ _ I) as [?|[? _]]; auto. }
  split_and!; auto; [|right; eauto|by rewrite (hi_mask _ _ _ _ _ I)].
  unfold mbind at 1, M_bind at 1. rewrite (destroy_nodes_heap t n nd info I Hst).
  rewrite (hi_mask_succ _ _ _ t n I), Hbytes. change (Z.to_nat (withBuffer (2 ^ n))) with (width n).
  unfold mbind at 1, M_bind at 1. rewrite zero_info_heap by lia.
  rewrite drop_ge, app_nil_r by lia.
  unfold mbind, M_bind. rewrite write_info_heap by (rewrite length_replicate; lia).
  by rewrite (hi_mask _ _ _ _ _ I).
Qed.

(** ** Copying *)

Lemma cloneLoop_heap (o : Table K V) nd info W d i num mask max inc shift :
  old_block nd info W -> nodes o = nd -> (i + d = W)%nat ->
  cloneLoop o d i (mkTable (Heap (take i nd ++ replicate d None) info) num mask max inc shift) =
  Ok (mkTable (Heap nd info) num mask max inc shift) tt.
Proof.
  intros O Hnd. pose proof (ob_len _ _ _ O) as Hln. pose proof (ob_info _ _ _ O) as Hli.
  revert i. induction d as [|d IH]; intros i Hi.
  - cbn [cloneLoop replicate]. by rewrite app_nil_r, take_ge by lia.
  - cbn [cloneLoop]. unfold mbind at 1, M_bind at 1. rewrite read_info_heap by lia.
    assert (exists x, nd !! i = Some x) as [x Hx] by (apply lookup_lt_is_Some_2; lia).
    assert (nb nd i = x) as Hnb by (unfold nb; by rewrite Hx).
    assert (take (S i) nd ++ replicate d None = take i nd ++ x :: replicate d None) as Hnext.
    { by rewrite (take_S_r _ _ _ Hx), <- app_assoc. }
    destruct (Z.eqb_spec 0 (ib info i)) as [Hz|Hnz].
    + rewrite (ob_dead _ _ _ O i) in Hnb by (done || lia). subst x.
      unfold mbind at 1, M_bind at 1, mret, M_ret. cbn [replicate]. rewrite <- Hnext. apply IH; lia.
    + destruct (ob_live _ _ _ O i ltac:(lia) ltac:(done)) as [kv Hkv].
      assert (x = Some kv) as -> by congruence.
      rewrite Hnd, Hx. cbn [access]. unfold mbind at 1, M_bind at 1.
      rewrite ret_bind. cbn [access]. rewrite ret_bind. unfold write_node.
      rewrite set_node_heap by (rewrite length_app, length_take, length_replicate; lia).
      rewrite insert_app_r_alt by (rewrite length_take; lia).
      rewrite length_take, Nat.min_l, Nat.sub_diag by lia.
      cbn [replicate insert list_insert]. rewrite <- Hnext. apply IH; lia.
Qed.

(** Cloning into a block of the same width without live nodes. *)
Lemma cloneData_heap (o : Table K V) n info0 :
  heap_inv o n -> length info0 = (width n + 8)%nat ->
  cloneData MaxLoadFactor100 o
    (take_fields o (mkTable (Heap (replicate (width n) None) info0) 0 0 0 0 0)) = Ok o tt.
Proof.
  intros I Hl0. destruct (hi_store _ _ _ _ _ I) as (nd & info & Hst).
  destruct (heap_lengths o n nd info I Hst) as [Hln Hli].
  destruct (block_sizes n (hi_n _ _ _ _ _ I)) as [Hbytes HW].
  unfold cloneData, take_fields. unfold mbind at 1, M_bind at 1, get. tcbn.
  rewrite (hi_mask_succ _ _ _ o n I), Hbytes. change (Z.to_nat (withBuffer (2 ^ n))) with (width n).
  unfold mbind, M_bind, copy_info at 1. unfold mbind at 1, M_bind at 1, get. unfold info_bytes. tcbn.
  rewrite Hst. cbn [store_info]. rewrite decide_True by lia. unfold put.
  rewrite take_ge, drop_ge, app_nil_r by lia. unfold set_info_bytes. tcbn. unfold set_store. tcbn.
  pose proof (cloneLoop_heap o nd info (width n) (width n) 0) as Hc. rewrite Hc; auto.
  - destruct o; simpl in *; by subst.
  - by eapply heap_old_block.
  - unfold nodes. by rewrite Hst.
Qed.

Section alloc.
Context (sizeof_Node : Z) (node_size : 0 < sizeof_Node <= 2 ^ 16) (alloc_ok : Z -> bool).

Abbreviation bytes n := (calcNumBytesTotal sizeof_Node (withBuffer (2 ^ n))).

Lemma allocate_block_spec t n :
  3 <= n <= 46 ->
  allocate_block sizeof_Node alloc_ok (withBuffer (2 ^ n)) t =
  if alloc_ok (bytes n)
  then Ok (set_store (Heap (replicate (width n) None) (replicate (width n + 8) 0)) t) tt
  else Throw t bad_alloc.
Proof.
  intros Hn. unfold allocate_block. destruct (alloc_ok (bytes n)); [|done].
  destruct (block_sizes n Hn) as [_ HW].
  rewrite (bytesTotal_eq _ load_factor _ node_size n) by lia.
  unfold modify. do 3 f_equal; unfold RobinHoodInv.width in *; f_equal; lia.
Qed.

(** A copy is an identical table in a block of its own. *)
Lemma copy_construct_spec (o : Table K V) :
  Inv o ->
  copy_construct MaxLoadFactor100 sizeof_Node alloc_ok o =
  if mNumElements o =? 0 then Ok init tt
  else if alloc_ok (calcNumBytesTotal sizeof_Node (withBuffer (u64 (mMask o + 1))))
  then Ok o tt else Throw init bad_alloc.
Proof.
  unfold copy_construct. intros [->|[n I]]; [done|].
  destruct (mNumElements o =? 0); [done|]. rewrite (hi_mask_succ _ _ _ o n I).
  pose proof (hi_n _ _ _ _ _ I). unfold mbind at 1, M_bind at 1.
  rewrite allocate_block_spec by done. destruct (alloc_ok _); [|done].
  unfold mbind at 1, M_bind at 1, modify.
  change (take_fields o (set_store ?s init)) with (take_fields o (mkTable s 0 0 0 0 0)).
  apply cloneData_heap; [done|]. by rewrite length_replicate.
Qed.

Lemma destroy_spec t :
  Inv t -> exists t', destroy MaxLoadFactor100 t = Ok t' tt.
Proof.
  intros [->|[n I]]; [by eexists|]. unfold destroy. unfold mbind at 1, M_bind at 1, get.
  destruct (mMask t =? 0); [by eexists|]. destruct (hi_store _ _ _ _ _ I) as (nd & info & Hst).
  unfold mbind, M_bind. rewrite (destroy_nodes_heap t n nd info I Hst). by eexists.
Qed.

(** Assignment makes an identical table, unless the block has to be replaced and
    the allocation fails. *)
Lemma copy_assign_full t o :
  Inv t -> Inv o -> mNumElements o <> 0 ->
  mMask t = mMask o \/ alloc_ok (calcNumBytesTotal sizeof_Node (withBuffer (u64 (mMask o + 1)))) = true ->
  copy_assign MaxLoadFactor100 sizeof_Node alloc_ok o t = Ok o tt.
Proof.
  intros It [->|[n I]] Hne Hal; [done|]. unfold copy_assign. unfold mbind at 1, M_bind at 1, get.
  destruct (Z.eqb_spec (mNumElements o) 0); [done|]. unfold mbind at 1, M_bind at 1.
  pose proof (hi_n _ _ _ _ _ I) as Hn. pose proof (hi_mask _ _ _ _ _ I) as Hmo.
  assert (8 <= 2 ^ n) by (change 8 with (2 ^ 3); apply Z.pow_le_mono_r; lia).
  assert (forall t0, mMask t = mMask o \/ alloc_ok (bytes n) = true ->
    mMask t <> mMask o ->
    (allocate_block sizeof_Node alloc_ok (withBuffer (u64 (mMask o + 1)));;
     modify (take_fields o);; cloneData MaxLoadFactor100 o) t0 = Ok o tt) as Hnew.
  { intros t0 [Heq|Ha] Hd; [done|]. rewrite (hi_mask_succ _ _ _ o n I).
    unfold mbind at 1, M_bind at 1. rewrite allocate_block_spec, Ha by done.
    unfold mbind at 1, M_bind at 1, modify.
    change (take_fields o (set_store ?s t0)) with (take_fields o (mkTable s 0 0 0 0 0)).
    apply cloneData_heap; [done|]. by rewrite length_replicate. }
  rewrite (hi_mask_succ _ _ _ o n I) in Hal. specialize (fun t0 => Hnew t0 Hal).
  destruct It as [->|[m It]].
  - rewrite destroy_nodes_init. change (mMask (@init K V)) with 0 in *.
    destruct (Z.eqb_spec 0 (mMask o)); [lia|]. apply (Hnew init). done.
  - destruct (hi_store _ _ _ _ _ It) as (nd & info & Hst).
    destruct (heap_lengths t m nd info It Hst) as [Hln Hli].
    rewrite (destroy_nodes_heap t m nd info It Hst).
    destruct (Z.eqb_spec (mMask t) (mMask o)) as [He|He].
    + assert (m = n) as ->.
      { pose proof (hi_n _ _ _ _ _ It). pose proof (hi_mask _ _ _ _ _ It).
        apply (Z.pow_inj_r 2); lia. }
      rewrite ret_bind. unfold mbind at 1, M_bind at 1, modify.
      by apply (cloneData_heap o n info).
    + specialize (Hnew (mkTable (Heap [] []) 0 (mMask t) (mMaxNumElementsAllowed t) (mInfoInc t) (mInfoHashShift t)) He).
      pose proof (hi_n _ _ _ _ _ It). pose proof (hi_mask _ _ _ _ _ It).
      assert (8 <= 2 ^ m) by (change 8 with (2 ^ 3); apply Z.pow_le_mono_r; lia).
      destruct (Z.eqb_spec 0 (mMask t)); [lia|].
      unfold mbind at 1, M_bind at 1. exact Hnew.
Qed.

Lemma copy_assign_empty t o :
  Inv t -> mNumElements o = 0 ->
  copy_assign MaxLoadFactor100 sizeof_Node alloc_ok o t = Ok init tt.
Proof.
  intros I Hz. unfold copy_assign. unfold mbind at 1, M_bind at 1, get. rewrite Hz.
  cbn [Z.eqb]. destruct (Z.eqb_spec (mMask t) 0) as [Hm|Hm].
  - destruct I as [->|[n I]]; [done|]. pose proof (hi_n _ _ _ _ _ I).
    pose proof (hi_mask _ _ _ _ _ I). assert (2 ^ 3 <= 2 ^ n) by (apply Z.pow_le_mono_r; lia). lia.
  - destruct (destroy_spec t I) as [t' Ht']. unfold mbind, M_bind. by rewrite Ht'.
Qed.

(** ** Reservation *)

(** The doubling loop finds the least power of two from [2^n] on whose load
    limit reaches [m]. *)
Lemma reserveSize_spec fuel n m :
  0 <= n <= 46 -> (46 - n < Z.of_nat fuel) -> m <= cap 46 ->
  exists n', reserveSize MaxLoadFactor100 fuel (2 ^ n) m = Some (2 ^ n') /\ n <= n' <= 46 /\
    m <= cap n' /\ (n' = n \/ cap (n' - 1) < m).
Proof.
  revert n. induction fuel as [|fuel IH]; intros n Hn Hf Hm; [lia|].
  cbn [reserveSize]. fold (cap n). pose proof (pow2_bounds n Hn).
  destruct (Z.eqb_spec (2 ^ n) 0); [lia|]. rewrite andb_true_r.
  destruct (Z.ltb_spec (cap n) m) as [Hlt|Hge].
  - assert (n <> 46) by (intros ->; lia).
    replace (u64 (2 ^ n * 2)) with (2 ^ (n + 1)).
    2: { rewrite Z.pow_add_r, wrap_small by lia. lia. }
    destruct (IH (n + 1)) as (n' & -> & Hr & Hc & Halt); try lia.
    exists n'. split_and!; auto; try lia. right. destruct Halt as [->|]; [|done].
    by replace (n + 1 - 1) with n by lia.
  - exists n. split_and!; auto; lia.
Qed.

Abbreviation reserve_rehash := (reserve_rehash hasher dh MaxLoadFactor100 sizeof_Node alloc_ok).

Lemma cap_mono n m : 0 <= n <= m -> m <= 46 -> cap n <= cap m.
Proof.
  intros Hn Hm. rewrite !cap_eq by lia. apply Z.div_le_mono; [lia|].
  apply Z.mul_le_mono_nonneg_r; [lia|]. apply Z.pow_le_mono_r; lia.
Qed.

(** Reservation keeps the contents and makes room for [c] entries; a forced
    rehash shrinks to the least sufficient size. *)
Lemma reserve_rehash_post t c force :
  Inv t -> 0 <= c < 2 ^ 40 -> mNumElements t < 2 ^ 40 ->
  post (reserve_rehash c force t) (fun t' _ => exists n,
    heap_inv t' n /\ table_map t' = table_map t /\ Z.max c (mNumElements t) <= cap n /\
    (force = true -> n = 3 \/ cap (n - 1) < Z.max c (mNumElements t))).
Proof.
  intros I Hc Hnum. unfold RobinHood.reserve_rehash. unfold mbind at 1, M_bind at 1, get.
  set (m := Z.max c (mNumElements t)).
  assert (m <= cap 46) as Hm by (pose proof (cap_bounds _ load_factor 46 ltac:(lia)); lia).
  change InitialNumElements with (2 ^ 3).
  destruct (reserveSize_spec 64 3 m ltac:(lia) ltac:(lia) Hm) as (n & -> & Hn & Hcap & Hmin).
  pose proof (pow2_bounds n ltac:(lia)).
  assert (2 ^ 3 <= 2 ^ n) by (apply Z.pow_le_mono_r; lia).
  destruct (Z.eqb_spec (2 ^ n) 0); [lia|].
  destruct (force || (u64 (mMask t + 1) <? 2 ^ n)) eqn:E.
  - destruct I as [->|[k I]].
    + eapply post_mono; [apply rehash_init_spec; auto; lia|]. intros t' _ [I' Hm'].
      exists n. by rewrite init_map.
    + eapply post_mono; [apply (rehash_heap_spec _ _ _ load_factor _ node_size _ t k n); auto; lia|].
      intros t' _ [I' Hm']. eauto.
  - apply orb_false_iff in E as [-> E]. zbool. simpl. destruct I as [->|[k I]].
    + change (u64 (mMask (@init K V) + 1)) with 1 in E. lia.
    + rewrite (hi_mask_succ _ _ _ t k I) in E. exists k. split_and!; auto; [|done].
      pose proof (hi_n _ _ _ _ _ I). assert (n <= k) by (apply (Z.pow_le_mono_r_iff 2); lia).
      etrans; [done|]. apply cap_mono; lia.
Qed.

End alloc.

End whole.

(** * The map contract and its implementation by the robin-hood table

    [map_step] is the abstract contract of [unordered_flat_map]: every operation
    as a function on finite maps.  The table is an instance of [Implements] for
    it. *)

(** ** The contract *)

Inductive map_op (K V : Type) :=
  | OpInsert (k : K) (v : V)
  | OpTryEmplace (k : K) (v : V)
  | OpInsertOrAssign (k : K) (v : V)
  | OpIndex (k : K)
  | OpErase (k : K)
  | OpCount (k : K)
  | OpContains (k : K)
  | OpAt (k : K)
  | OpClear
  | OpReserve (c : Z)
  | OpRehash (c : Z).
Arguments OpInsert {K V}. Arguments OpTryEmplace {K V}. Arguments OpInsertOrAssign {K V}.
Arguments OpIndex {K V}. Arguments OpErase {K V}. Arguments OpCount {K V}.
Arguments OpContains {K V}. Arguments OpAt {K V}. Arguments OpClear {K V}.
Arguments OpReserve {K V}. Arguments OpRehash {K V}.

Inductive map_result (V : Type) :=
  | RUnit
  | RBool (b : bool)
  | RNum (n : Z)
  | RVal (v : V)
  | RMissing.
Arguments RUnit {V}. Arguments RBool {V}. Arguments RNum {V}. Arguments RVal {V}.
Arguments RMissing {V}.

Section contract.
Context {K V : Type} `{Countable K} (value_default : V).

Definition is_new (m : gmap K V) (k : K) : bool := bool_decide (m !! k = None).

(** What each operation does to the map and what it returns. *)
Definition map_step (o : map_op K V) (m : gmap K V) : gmap K V * map_result V :=
  match o with
  | OpInsert k v | OpTryEmplace k v =>
      (if is_new m k then <[k := v]> m else m, RBool (is_new m k))
  | OpInsertOrAssign k v => (<[k := v]> m, RBool (is_new m k))
  | OpIndex k => (<[k := default value_default (m !! k)]> m, RVal (default value_default (m !! k)))
  | OpErase k => (delete k m, RNum (if is_new m k then 0 else 1))
  | OpCount k => (m, RNum (if is_new m k then 0 else 1))
  | OpContains k => (m, RBool (negb (is_new m k)))
  | OpAt k => (m, match m !! k with Some v => RVal v | None => RMissing end)
  | OpClear => (∅, RUnit)
  | OpReserve _ | OpRehash _ => (m, RUnit)
  end.

(** Arguments and sizes the implementation supports. *)
Definition op_ok (limit : Z) (o : map_op K V) (m : gmap K V) : Prop :=
  Z.of_nat (size m) < limit /\
  match o with OpReserve c | OpRehash c => 0 <= c < limit | _ => True end.

#[global] Instance op_ok_dec limit o m : Decision (op_ok limit o m).
Proof. destruct o; simpl; apply _. Defined.

End contract.

(** ** The table as an implementation *)

Section table.
Context {K V : Type} `{Countable K} (value_default : V).
Context (hasher : K -> Z) (dh : bool).
Context (MaxLoadFactor100 sizeof_Node : Z) (alloc_ok : Z -> bool).
Implicit Types t : Table K V.

Abbreviation with_alloc f := (f hasher dh MaxLoadFactor100 sizeof_Node alloc_ok).

(** [at] throws [out_of_range] for an absent key; the caller handles it. *)
Definition catch_out_of_range {S} (m : M S V) : M S (map_result V) :=
  fun s => match m s with
           | Ok s' v => Ok s' (RVal v)
           | Throw s' out_of_range => Ok s' RMissing
           | Throw s' e => Throw s' e
           | Fault => Fault
           | Diverge => Diverge
           end.

Definition table_step (o : map_op K V) : M (Table K V) (map_result V) :=
  match o with
  | OpInsert k v => r ← with_alloc doInsert (k, v); mret (RBool r.2)
  | OpTryEmplace k v => r ← with_alloc try_emplace (k, v); mret (RBool r.2)
  | OpInsertOrAssign k v => r ← with_alloc insert_or_assign (k, v); mret (RBool r.2)
  | OpIndex k => idx ← with_alloc doCreateByKey value_default k; kv ← read_node idx; mret (RVal kv.2)
  | OpErase k => c ← erase hasher dh k; mret (RNum c)
  | OpCount k => c ← count hasher dh k; mret (RNum c)
  | OpContains k => b ← contains hasher dh k; mret (RBool b)
  | OpAt k => catch_out_of_range (at_key hasher dh k)
  | OpClear => clear MaxLoadFactor100;; mret RUnit
  | OpReserve c => with_alloc reserve c;; mret RUnit
  | OpRehash c => with_alloc rehash c;; mret RUnit
  end.

Context (load_factor : 10 < MaxLoadFactor100 < 100) (node_size : 0 < sizeof_Node <= 2 ^ 16).

Lemma inserted_step (m : gmap K V) k v t' r :
  inserted hasher dh MaxLoadFactor100 m k v t' r ->
  (Inv hasher dh MaxLoadFactor100 t' /\ table_map t' = if is_new m k then <[k := v]> m else m) /\
  RBool (V:=V) r.2 = RBool (is_new m k).
Proof.
  intros [I Hr]. unfold is_new.
  destruct (m !! k); destruct Hr as (-> & -> & _); by case_bool_decide.
Qed.

(** Each operation of the table on its own. *)
Lemma table_step_refines o t m :
  Inv hasher dh MaxLoadFactor100 t /\ table_map t = m -> op_ok (2 ^ 40) o m ->
  post (table_step o t) (fun t' r =>
    (Inv hasher dh MaxLoadFactor100 t' /\ table_map t' = (map_step value_default o m).1) /\
    r = (map_step value_default o m).2).
Proof.
  intros [I <-] [Hsz Ho]. destruct (Inv_probe hasher dh _ t I) as [_ Hn]. rewrite <- Hn in Hsz.
  destruct o as [k v|k v|k v|k|k|k|k|k| |c|c]; cbn [table_step map_step fst snd] in *.
  - eapply post_bind; [by apply doInsert_post|]. intros. by apply inserted_step.
  - eapply post_bind; [by apply try_emplace_post|]. intros. by apply inserted_step.
  - eapply post_bind; [by apply insert_or_assign_post|]. intros t' r (I' & Hm & _ & Hr).
    simpl. by rewrite Hr.
  - eapply post_bind; [by apply doCreateByKey_post|]. intros t' idx (I' & Hg & Hm).
    unfold mbind, M_bind. by rewrite (read_slot t' idx _ Hg).
  - destruct (erase_spec hasher dh _ load_factor t k I) as (t' & c & Hr & I' & Hm & ->).
    unfold mbind, M_bind. rewrite Hr. split; [done|]. unfold is_new. by destruct (table_map t !! k).
  - unfold mbind, M_bind. rewrite (count_spec hasher dh MaxLoadFactor100) by done. split; [done|].
    unfold is_new. by destruct (table_map t !! k).
  - unfold mbind, M_bind. rewrite (contains_spec hasher dh MaxLoadFactor100) by done. split; [done|].
    unfold is_new. by destruct (table_map t !! k).
  - unfold catch_out_of_range. rewrite (at_key_spec hasher dh MaxLoadFactor100) by done.
    by destruct (table_map t !! k).
  - destruct (table_clear_spec hasher dh _ load_factor t I) as (t' & Hr & I' & Hm & _).
    unfold mbind, M_bind. by rewrite Hr.
  - eapply post_bind; [by apply reserve_rehash_post|]. intros t' _ (n & I' & Hm & _).
    split; [split; [right; eauto|done]|done].
  - eapply post_bind; [by apply reserve_rehash_post|]. intros t' _ (n & I' & Hm & _).
    split; [split; [right; eauto|done]|done].
Qed.

#[export] Instance table_impl : Implements table_step (map_step value_default) := {|
  represents t m := Inv hasher dh MaxLoadFactor100 t /\ table_map t = m;
  supported := op_ok (2 ^ 40);
  implements_step := table_step_refines;
|}.

End table.
