(* ===== verification/RobinHoodTheorems.v ===== *)
(** * Theorems about the robin-hood hash table

    The properties that make [unordered_flat_map] and [unordered_flat_set]
    correct, each with an instance at a concrete table. *)
From Stdlib Require Import ZArith Lia.
From stdpp Require Import base list gmap numbers.
From S2P Require Import Prelude Refinement Hash RobinHood RobinHoodLayout.
From S2P Require Import RobinHoodInv RobinHoodMap.
From S2P Require Import RobinHoodOps RobinHoodSpec.
#[local] Open Scope Z_scope.

(** ** A concrete table for the instances *)

(** Integer keys hashed to themselves, the default load factor, 16-byte nodes and
    an allocator that never fails. *)
Definition demo_hasher (k : Z) : Z := k.
Definition demo_alloc (n : Z) : bool := true.
Definition demo_step : map_op Z Z -> M (Table Z Z) (map_result Z) :=
  table_step 0 demo_hasher false 80 16 demo_alloc.

Definition demo_ops : list (map_op Z Z) :=
  [OpInsert 1 10; OpInsert 2 20; OpIndex 3; OpInsertOrAssign 3 30; OpInsert 2 21;
   OpTryEmplace 4 40; OpErase 1; OpCount 1; OpAt 3; OpAt 9; OpReserve 100; OpContains 4].

Definition demo_run : outcome (Table Z Z) (list (map_result Z)) := run_ops demo_step demo_ops init.
Definition demo : Table Z Z := match demo_run with Ok t _ => t | _ => init end.

Lemma demo_load : 10 < 80 < 100. Proof. lia. Qed.
Lemma demo_node : 0 < 16 <= 2 ^ 16. Proof. lia. Qed.

Lemma demo_ok : Inv demo_hasher false 80 demo /\ table_map demo = {[2 := 20; 3 := 30; 4 := 40]}.
Proof.
  split; [|by vm_compute].
  pose (I := table_impl 0 demo_hasher false 80 16 demo_alloc demo_load demo_node).
  pose proof (run_ops_refines (H := I) demo_ops init ∅) as Hr.
  change (run_ops _ demo_ops init) with demo_run in Hr. unfold demo.
  destruct demo_run as [t rs|t e| |]; [|by left..]. apply Hr.
  - split; [by left|apply init_map].
  - apply (bool_decide_unpack _). by vm_compute.
Qed.

(** ** The table implements the map contract *)

(** C1: a sequence of operations on a valid table either ends with an exception
    or has, operation by operation, the results and the final contents of the
    same sequence on a finite map; no operation has undefined behaviour and
    every loop terminates, whatever the hasher and the allocator do. *)
Theorem table_refines_map {K V} `{Countable K} (d : V) (hasher : K -> Z) dh MaxLoadFactor100
    sizeof_Node alloc_ok (os : list (map_op K V)) t :
  10 < MaxLoadFactor100 < 100 -> 0 < sizeof_Node <= 2 ^ 16 ->
  Inv hasher dh MaxLoadFactor100 t -> supported_run (op_ok (2 ^ 40)) (map_step d) os (table_map t) ->
  post (run_ops (table_step d hasher dh MaxLoadFactor100 sizeof_Node alloc_ok) os t) (fun t' rs =>
    Inv hasher dh MaxLoadFactor100 t' /\ run_spec (map_step d) os (table_map t) = (table_map t', rs)).
Proof.
  intros Hlf Hns I Hok.
  eapply post_mono; [apply (run_ops_refines (H := table_impl d hasher dh _ _ alloc_ok Hlf Hns)); [by split|done]|].
  intros t' rs [[I' Hm] ->]. split; [done|]. rewrite Hm. by destruct (run_spec _ _ _).
Qed.

Lemma table_refines_map_witness :
  post demo_run (fun t' rs => run_spec (map_step 0) demo_ops ∅ = (table_map t', rs)) /\
  match demo_run with Ok t rs => length rs = 12%nat | _ => False end.
Proof.
  split; [|by vm_compute].
  eapply post_mono; [apply (table_refines_map 0 demo_hasher false 80 16 demo_alloc demo_ops init)|].
  - lia.
  - lia.
  - by left.
  - apply (bool_decide_unpack _). by vm_compute.
  - intros t' rs [_ Hr]. exact Hr.
Defined.

(** C17: a lookup returns the slot of the key when the table holds it and [end()]
    otherwise, without changing the table; it always terminates inside the
    block. *)
Theorem find_correct {K V} `{Countable K} (hasher : K -> Z) dh MaxLoadFactor100 (t : Table K V) k :
  Inv hasher dh MaxLoadFactor100 t ->
  exists idx, findIdx hasher dh k t = Ok t idx /\
  match table_map t !! k with
  | Some v => read_node idx t = Ok t (k, v) /\ (idx < end_idx t)%nat
  | None => idx = end_idx t
  end.
Proof.
  intros I. destruct (findIdx_spec hasher dh _ t k I) as (j & Hj & Hr). exists j. split; [done|].
  destruct (table_map t !! k); [|done]. destruct Hr as [Hg Hlt]. split; [|done]. by apply read_slot.
Qed.

Lemma find_correct_witness :
  exists idx, findIdx demo_hasher false 3 demo = Ok demo idx /\ read_node idx demo = Ok demo (3, 30) /\
    (idx < end_idx demo)%nat.
Proof.
  destruct demo_ok as [I Hm]. pose proof (find_correct demo_hasher false 80 demo 3 I) as Hf.
  rewrite Hm in Hf. exact Hf.
Defined.

(** C18: insertion into a table that has room, or already holds the key, does not
    throw: it returns the slot of the key, tells whether it inserted, and leaves
    an existing entry alone. *)
Theorem insert_succeeds {K V} `{Countable K} (hasher : K -> Z) dh MaxLoadFactor100
    sizeof_Node alloc_ok (t : Table K V) k v :
  10 < MaxLoadFactor100 < 100 -> Inv hasher dh MaxLoadFactor100 t ->
  is_Some (table_map t !! k) \/ mNumElements t < mMaxNumElementsAllowed t ->
  exists t' r, doInsert hasher dh MaxLoadFactor100 sizeof_Node alloc_ok (k, v) t = Ok t' r /\
    Inv hasher dh MaxLoadFactor100 t' /\
    r.2 = bool_decide (table_map t !! k = None) /\
    read_node r.1 t' = Ok t' (k, default v (table_map t !! k)) /\
    table_map t' = <[k := default v (table_map t !! k)]> (table_map t).
Proof.
  intros Hlf [->|[n I]] Hroom.
  { rewrite init_map, lookup_empty in Hroom. destruct Hroom as [[? ?]|?]; [done|]. simpl in *. lia. }
  destruct (insert_now hasher dh _ Hlf sizeof_Node alloc_ok 4 t n k v I) as [(t' & r & Hr & I' & Hc)|(Hfull & Hno & _)].
  - exists t', r. split; [done|]. split; [done|].
    destruct (table_map t !! k) as [v0|] eqn:E; destruct Hc as (-> & -> & Hg).
    + split; [done|]. split; [by apply read_slot|]. simpl. by rewrite insert_id.
    + split; [done|]. split; [by apply read_slot|done].
  - exfalso. rewrite Hno in Hroom. destruct Hroom as [[? ?]|?]; [done|lia].
Qed.

Lemma insert_succeeds_witness :
  mNumElements demo = 3 /\ mMaxNumElementsAllowed demo = 102 /\
  exists t' r, doInsert demo_hasher false 80 16 demo_alloc (7, 70) demo = Ok t' r /\ r.2 = true /\
    table_map t' = <[7 := 70]> (table_map demo).
Proof.
  split; [by vm_compute|]. split; [by vm_compute|]. destruct demo_ok as [I Hm].
  destruct (insert_succeeds demo_hasher false 80 16 demo_alloc demo 7 70) as (t' & r & Hr & _ & Hb & _ & Ht).
  - lia.
  - exact I.
  - right. by vm_compute.
  - exists t', r. rewrite Hm in *. auto.
Defined.

(** Erasing a key removes exactly that entry, closes the gap so that the
    table stays valid, and returns how many entries were removed. *)
Theorem erase_correct {K V} `{Countable K} (hasher : K -> Z) dh MaxLoadFactor100 (t : Table K V) k :
  10 < MaxLoadFactor100 < 100 -> Inv hasher dh MaxLoadFactor100 t ->
  exists t' c, erase hasher dh k t = Ok t' c /\ Inv hasher dh MaxLoadFactor100 t' /\
    table_map t' = delete k (table_map t) /\ c = (if bool_decide (table_map t !! k = None) then 0 else 1) /\
    mNumElements t' = mNumElements t - c.
Proof.
  intros Hlf I. destruct (erase_spec hasher dh _ Hlf t k I) as (t' & c & Hr & I' & Hm & Hc).
  exists t', c. split; [done|]. split; [done|]. split; [done|].
  destruct (Inv_probe hasher dh _ t I) as [_ ->], (Inv_probe hasher dh _ t' I') as [_ ->].
  rewrite Hm, map_size_delete. destruct (table_map t !! k) as [v|] eqn:E; subst c; [|unfold id; simpl; lia].
  split; [done|]. assert (size (table_map t) <> 0)%nat; [|lia].
  apply map_size_non_empty_iff. intros He. by rewrite He in E.
Qed.

Lemma erase_correct_witness :
  exists t' c, erase demo_hasher false 3 demo = Ok t' c /\ c = 1 /\
    table_map t' = delete 3 (table_map demo).
Proof.
  destruct demo_ok as [I Hm].
  destruct (erase_correct demo_hasher false 80 demo 3 ltac:(lia) I) as (t' & c & Hr & _ & Hd & Hc & _).
  exists t', c. rewrite Hm in Hc. auto.
Defined.

(** ** Iteration *)

Lemma live_keys_NoDup {K V} `{Countable K} (nd : list (option (K * V))) :
  (forall i j k v w, nb nd i = Some (k, v) -> nb nd j = Some (k, w) -> i = j) ->
  NoDup (omap id nd).*1.
Proof.
  induction nd as [|o nd IH]; intros Hu; [constructor|].
  assert (NoDup (omap id nd).*1) as Hnd.
  { apply IH. intros i j k v w Hi Hj. by specialize (Hu (S i) (S j) k v w Hi Hj) as [= ->]. }
  destruct o as [[k v]|]; [|exact Hnd]. rewrite omap_live. constructor; [|exact Hnd].
  intros ([k' w] & Hk & Hin)%list_elem_of_fmap. simpl in Hk. subst k'.
  apply list_elem_of_omap in Hin as (o & [i Hi]%list_elem_of_lookup & Ho). simpl in Ho. subst o.
  specialize (Hu 0%nat (S i) k v w eq_refl (proj2 (nb_lookup _ _ _) Hi)). done.
Qed.

(** C37: iterating from [begin()] to [end()] visits every entry of the table
    exactly once, jumping over eight empty slots at a time and never reading
    outside the info bytes. *)
Theorem iteration_complete {K V} `{Countable K} (hasher : K -> Z) dh MaxLoadFactor100 (t : Table K V) :
  Inv hasher dh MaxLoadFactor100 t ->
  exists l, entries t = Ok t l /\ l ≡ₚ map_to_list (table_map t).
Proof.
  intros I. exists (omap id (nodes t)). split; [by eapply entries_spec|]. symmetry.
  destruct (Inv_probe hasher dh _ t I) as [P _]. apply map_to_list_to_map, live_keys_NoDup.
  intros i j k v w. apply (lay_uniq _ _ _ _ _ _ _ _ (pi_layout _ _ _ _ P)).
Qed.

Lemma iteration_complete_witness :
  exists l, entries demo = Ok demo l /\ l ≡ₚ map_to_list (table_map demo) /\ length l = 3%nat.
Proof.
  destruct demo_ok as [I Hm]. destruct (iteration_complete demo_hasher false 80 demo I) as (l & Hl & Hp).
  exists l. split; [done|]. split; [done|]. rewrite (Permutation_length Hp), Hm. by vm_compute.
Defined.

(** Erasing through an iterator removes that entry and returns an iterator
    from which exactly the entries behind the erased one remain, in the same
    order, also when closing the gap moves entries down. *)
Theorem erase_iterator_correct {K V} `{Countable K} (hasher : K -> Z) dh MaxLoadFactor100
    (t : Table K V) idx k v :
  10 < MaxLoadFactor100 < 100 -> Inv hasher dh MaxLoadFactor100 t -> read_node idx t = Ok t (k, v) ->
  exists t' j l, erase_iter idx t = Ok t' j /\ Inv hasher dh MaxLoadFactor100 t' /\
    table_map t' = delete k (table_map t) /\
    (t0 ← get; iter_next idx ≫= entries_from (loop_fuel t0)) t = Ok t l /\
    entries_from (loop_fuel t') j t' = Ok t' l.
Proof.
  intros Hlf I Hg.
  assert (G t idx = Some (k, v)) as HG.
  { revert Hg. unfold read_node, mbind, M_bind, get, access, G, nb.
    destruct (nodes t !! idx) as [[kv|]|]; try done. by intros [= ->]. }
  destruct I as [->|[n I]]; [apply nb_lt in HG; simpl in HG; lia|].
  destruct (erase_iter_spec hasher dh _ t n idx k v Hlf I HG) as (t' & j & Hr & I' & Hm & Hj & Hl & Hs).
  pose proof (hi_probe _ _ _ _ _ I) as P. pose proof (hi_probe _ _ _ _ _ I') as P'.
  pose proof (pi_info _ _ _ _ P) as Hli. pose proof (pi_info _ _ _ _ P') as Hli'.
  pose proof (nb_lt _ _ _ HG) as Hlt. rewrite (pi_nodes _ _ _ _ P) in Hlt.
  exists t', j, (omap id (drop (S idx) (nodes t))). split; [done|]. split; [right; eauto|].
  split; [done|]. split.
  - destruct (next_live hasher dh _ t n (S idx) I ltac:(lia)) as (i & Hi & Hri & Hd & Hli1).
    unfold mbind, M_bind, get, iter_next. rewrite Hi.
    rewrite (entries_from_spec hasher dh MaxLoadFactor100 t n); auto; try (unfold loop_fuel; lia).
    by rewrite (omap_drop_dead (nodes t) (S idx) i) by (auto; lia).
  - rewrite <- Hs. apply (entries_from_spec hasher dh MaxLoadFactor100 t' n); auto. unfold loop_fuel. lia.
Qed.

Lemma erase_iterator_correct_witness :
  exists idx t' j l, read_node idx demo = Ok demo (2, 20) /\ erase_iter idx demo = Ok t' j /\
    table_map t' = delete 2 (table_map demo) /\ entries_from (loop_fuel t') j t' = Ok t' l.
Proof.
  destruct demo_ok as [I Hm].
  assert (exists idx, read_node idx demo = Ok demo (2, 20)) as [idx Hidx].
  { destruct (findIdx_spec demo_hasher false 80 demo 2 I) as (idx & _ & Hr). rewrite Hm in Hr.
    assert (G demo idx = Some (2, 20) /\ (idx < end_idx demo)%nat) as [Hg _] by exact Hr.
    exists idx. by apply read_slot. }
  destruct (erase_iterator_correct demo_hasher false 80 demo idx 2 20 ltac:(lia) I Hidx)
    as (t' & j & l & Hr & _ & Hd & _ & He).
  exists idx, t', j, l. auto.
Defined.

(** [operator==] decides whether the two tables represent the same map,
    regardless of the order in which the entries were inserted and of the sizes
    of the blocks. *)
Theorem equality_correct {K V} `{Countable K} `{EqDecision V} (hasher : K -> Z) dh MaxLoadFactor100
    (t other : Table K V) :
  Inv hasher dh MaxLoadFactor100 t -> Inv hasher dh MaxLoadFactor100 other ->
  table_eq hasher dh other t = Ok t (bool_decide (table_map other = table_map t)).
Proof. intros I Io. by eapply table_eq_spec. Qed.

Lemma equality_correct_witness : table_eq demo_hasher false init demo = Ok demo false.
Proof.
  destruct demo_ok as [I Hm].
  rewrite (equality_correct demo_hasher false 80 demo init I); [|by left]. by rewrite Hm.
Defined.

(** ** Growth, copies and memory safety *)

(** [reserve] and [rehash] keep every entry and leave a table that can hold
    the requested number of entries; [rehash] picks the smallest sufficient
    power of two.  The doubling loop terminates. *)
Theorem reserve_correct {K V} `{Countable K} (hasher : K -> Z) dh MaxLoadFactor100
    sizeof_Node alloc_ok (t : Table K V) c force :
  10 < MaxLoadFactor100 < 100 -> 0 < sizeof_Node <= 2 ^ 16 ->
  Inv hasher dh MaxLoadFactor100 t -> 0 <= c < 2 ^ 40 -> mNumElements t < 2 ^ 40 ->
  post (reserve_rehash hasher dh MaxLoadFactor100 sizeof_Node alloc_ok c force t) (fun t' _ =>
    Inv hasher dh MaxLoadFactor100 t' /\ table_map t' = table_map t /\
    exists n, mMask t' + 1 = 2 ^ n /\ Z.max c (mNumElements t) <= cap MaxLoadFactor100 n /\
      (force = true -> n = 3 \/ cap MaxLoadFactor100 (n - 1) < Z.max c (mNumElements t))).
Proof.
  intros Hlf Hns I Hc Hn.
  eapply post_mono; [by apply (reserve_rehash_post hasher dh _ Hlf _ Hns alloc_ok t c force)|].
  intros t' _ (n & I' & Hm & Hcap & Hmin). split; [right; eauto|]. split; [done|].
  exists n. rewrite (hi_mask _ _ _ _ _ I'). split; [lia|]. auto.
Qed.

Lemma reserve_correct_witness :
  post (reserve_rehash demo_hasher false 80 16 demo_alloc 1000 true demo) (fun t' _ =>
    table_map t' = table_map demo /\ mMask t' = 2047).
Proof.
  destruct demo_ok as [I _].
  assert (mNumElements demo < 2 ^ 40) as Hn by by vm_compute.
  pose proof (reserve_correct demo_hasher false 80 16 demo_alloc demo 1000 true
    ltac:(lia) ltac:(lia) I ltac:(lia) Hn) as Hr.
  assert (match reserve_rehash demo_hasher false 80 16 demo_alloc 1000 true demo with
          | Ok t' _ => mMask t' = 2047 | _ => True end) as Hmask by by vm_compute.
  revert Hr Hmask. generalize (reserve_rehash demo_hasher false 80 16 demo_alloc 1000 true demo).
  intros [t' a|t' e| |]; cbn [post]; [intros (_ & Hm & _) Hmask; exact (conj Hm Hmask)|tauto..].
Defined.

(** Copy construction allocates once and yields a table identical to its
    source, slot by slot; an empty source allocates nothing, and a failing
    allocation leaves an empty table. *)
Theorem copy_construct_correct {K V} `{Countable K} (hasher : K -> Z) dh MaxLoadFactor100
    sizeof_Node alloc_ok (o : Table K V) :
  10 < MaxLoadFactor100 < 100 -> 0 < sizeof_Node <= 2 ^ 16 -> Inv hasher dh MaxLoadFactor100 o ->
  copy_construct MaxLoadFactor100 sizeof_Node alloc_ok o =
  if mNumElements o =? 0 then Ok init tt
  else if alloc_ok (calcNumBytesTotal sizeof_Node
                      (calcNumElementsWithBuffer MaxLoadFactor100 (u64 (mMask o + 1))))
  then Ok o tt else Throw init bad_alloc.
Proof. intros Hlf Hns I. by apply (copy_construct_spec hasher dh). Qed.

Lemma copy_construct_correct_witness : copy_construct 80 16 demo_alloc demo = Ok demo tt.
Proof.
  destruct demo_ok as [I _].
  rewrite (copy_construct_correct demo_hasher false 80 16 demo_alloc demo); [|lia|lia|exact I].
  by vm_compute.
Defined.

(** Copy assignment between valid tables yields a table identical to a
    non-empty source whenever the two blocks have the same size or the new block
    can be allocated, and the empty table for an empty source. *)
Theorem copy_assign_correct {K V} `{Countable K} (hasher : K -> Z) dh MaxLoadFactor100
    sizeof_Node alloc_ok (t o : Table K V) :
  10 < MaxLoadFactor100 < 100 -> 0 < sizeof_Node <= 2 ^ 16 ->
  Inv hasher dh MaxLoadFactor100 t -> Inv hasher dh MaxLoadFactor100 o ->
  mMask t = mMask o \/
    alloc_ok (calcNumBytesTotal sizeof_Node
      (calcNumElementsWithBuffer MaxLoadFactor100 (u64 (mMask o + 1)))) = true ->
  exists t', copy_assign MaxLoadFactor100 sizeof_Node alloc_ok o t = Ok t' tt /\
    Inv hasher dh MaxLoadFactor100 t' /\ table_map t' = table_map o.
Proof.
  intros Hlf Hns I Io Hal. destruct (Z.eq_dec (mNumElements o) 0) as [Hz|Hnz].
  - exists init. split; [by apply (copy_assign_empty hasher dh)|]. split; [by left|].
    rewrite init_map. symmetry. apply map_size_empty_inv.
    destruct (Inv_probe hasher dh _ o Io) as [_ Hn]. lia.
  - exists o. split; [by apply (copy_assign_full hasher dh)|done].
Qed.

Lemma copy_assign_correct_witness :
  exists t', copy_assign 80 16 demo_alloc demo init = Ok t' tt /\ table_map t' = table_map demo.
Proof.
  destruct demo_ok as [I _].
  destruct (copy_assign_correct demo_hasher false 80 16 demo_alloc init demo) as (t' & Hr & _ & Hm).
  - lia.
  - lia.
  - by left.
  - exact I.
  - right. reflexivity.
  - eauto.
Defined.

(** While a table holds fewer entries than its limit there is an empty slot
    at or behind the home bucket of every key and in front of the sentinel, so
    that the search for an empty slot and the shift never leave the block: the
    overflow buffer of at most 255 slots suffices. *)
Theorem overflow_buffer_suffices {K V} `{Countable K} (hasher : K -> Z) dh MaxLoadFactor100
    (t : Table K V) n k :
  10 < MaxLoadFactor100 < 100 -> heap_inv hasher dh MaxLoadFactor100 t n ->
  mNumElements t < cap MaxLoadFactor100 n ->
  exists e, findEmpty (loop_fuel t) (keyToIdx hasher dh t k).2 t = Ok t e /\
    ((keyToIdx hasher dh t k).2 <= e < end_idx t)%nat /\ nodes t !! e = Some None.
Proof.
  intros Hlf I Hnum. pose proof (hi_probe _ _ _ _ _ I) as P.
  pose proof (pi_nodes _ _ _ _ P) as Hln. pose proof (pi_info _ _ _ _ P) as Hli.
  pose proof (homet_le hasher dh t _ P k) as Hh.
  rewrite (keyToIdx_spec hasher dh t _ P). cbn [snd].
  destruct (empty_slot hasher dh _ Hlf t n k (home hasher dh (mMask t) k) I Hnum)
    as (e & He & Hz & Hnz); [lia|intros; lia|].
  exists e. split; [|split; [unfold end_idx; lia|]].
  - apply (findEmpty_spec hasher dh t _ P); auto; unfold loop_fuel; lia.
  - destruct (f_cases hasher dh _ _ _ _ _ _ (pi_inc _ _ _ _ P) (pi_layout _ _ _ _ P) e)
      as [(?&?&?&?&?)|[(Hd&_)|(?&_)]]; [|  |lia].
    { pose proof (probe_inc hasher dh t _ P). lia. }
    unfold G, nb in Hd. destruct (lookup_lt_is_Some_2 (nodes t) e ltac:(lia)) as [o Ho].
    rewrite Ho in *. simpl in Hd. by subst.
Qed.

Lemma overflow_buffer_suffices_witness :
  exists e, findEmpty (loop_fuel demo) (keyToIdx demo_hasher false demo 5).2 demo = Ok demo e /\
    nodes demo !! e = Some None.
Proof.
  destruct demo_ok as [[Hi|[n I]] _]; [exfalso; by vm_compute in Hi|].
  destruct (overflow_buffer_suffices demo_hasher false 80 demo n 5) as (e & He & _ & Hn).
  - lia.
  - exact I.
  - destruct (hi_max _ _ _ _ _ I) as [Hz|[Hz _]]; [by vm_compute in Hz|]. rewrite <- Hz. by vm_compute.
  - eauto.
Defined.

(** The loop that widens the distance field halves eight info bytes at a
    time with one shift and one mask; it stays inside the block and has the
    effect of halving each of the bytes in front of [W] on its own. *)
Theorem halve_words_bytewise (l : list Z) W :
  Forall is_byte l -> (W + 8 <= length l)%nat ->
  exists l', halveWords (S (length l)) 0 W l = Some l' /\ length l' = length l /\
    forall j, (j < W)%nat -> l' !! j = (fun b => b / 2) <$> l !! j.
Proof.
  intros Hl HW. destruct (halveWords_spec (length l) 0 W l Hl HW ltac:(lia))
    as (l' & Hr & Hlen & _ & _ & Hh & _).
  exists l'. split; [done|]. split; [done|]. intros j Hj.
  by rewrite !ib_lookup, Hh by lia.
Qed.

Lemma halve_words_bytewise_witness :
  exists l', halveWords 21 0 9 (replicate 9 255 ++ 1 :: replicate 10 0) = Some l' /\ l' !! 8%nat = Some 127.
Proof.
  destruct (halve_words_bytewise (replicate 9 255 ++ 1 :: replicate 10 0) 9) as (l' & Hr & _ & Hj).
  - apply (bool_decide_unpack _). by vm_compute.
  - simpl. lia.
  - exists l'. split; [exact Hr|]. rewrite Hj by lia. reflexivity.
Defined.

(** [hash_bytes] reads only the [len] bytes it is given (its result does not
    depend on the bytes behind them), always returns, and returns a 64-bit
    value, for every length and alignment of the tail. *)
Theorem hash_bytes_local mem len :
  (len <= length mem)%nat -> Forall is_byte mem ->
  exists h, hash_bytes mem len = Some h /\ hash_bytes (take len mem) len = Some h /\ 0 <= h < 2 ^ 64.
Proof. apply hash_bytes_prefix. Qed.

Lemma hash_bytes_local_witness :
  exists h, hash_bytes (replicate 21 7) 19 = Some h /\ hash_bytes (replicate 19 7) 19 = Some h.
Proof.
  destruct (hash_bytes_local (replicate 21 7) 19) as (h & H1 & H2 & _).
  - simpl. lia.
  - apply (bool_decide_unpack _). by vm_compute.
  - exists h. split; [exact H1|exact H2].
Defined.

(** ** Failure cases *)

(** A hasher that spreads integer keys badly, seen through [hash<Key>]. *)
Definition weak_hash_keys : list Z :=
  concat ((fun i => [i * 2 ^ 32 + 255 * 32; i * 2 ^ 32 + 256 * 32]) <$> seqZ 1 102).

(** An insertion can fail in the middle of a rehash.  With 204 keys whose
    hashes share two home buckets, the next insertion doubles the table, the
    re-insertion of the old entries reaches the [overflow_error] that
    [insert_move] calls impossible to reach, and the entries not re-inserted by
    then are lost: the table is left with 128 of its 204 entries. *)
Theorem rehash_overflow_loses_entries :
  match insert_range demo_hasher true 80 16 demo_alloc ((fun k => (k, k)) <$> weak_hash_keys) init with
  | Ok t _ =>
      mNumElements t = 204 /\
      match doInsert demo_hasher true 80 16 demo_alloc (0, 0) t with
      | Throw t' e => e = overflow_error /\ mNumElements t' = 128
      | _ => False
      end
  | _ => False
  end.
Proof. by vm_compute. Qed.

(** A failing first allocation leaves a table that claims eight buckets but
    still points to the dummy byte: the insertion throws [bad_alloc], and a
    second insertion, made when memory is available again, writes a node
    outside any block. *)
Theorem bad_alloc_leaves_invalid_table :
  match doInsert demo_hasher false 80 16 (fun _ => false) (1, 1) (@init Z Z) with
  | Throw t e => e = bad_alloc /\ mMask t = 7 /\ mStore t = Dummy /\
      doInsert demo_hasher false 80 16 demo_alloc (1, 1) t = Fault
  | _ => False
  end.
Proof. by vm_compute. Qed.
