(* ===== verification/Memory.v ===== *)
(** * Object storage and the loops of include/memory.hpp and include/algorithm.hpp

    A buffer is a list of slots: raw storage, an object holding a value, or an
    object that was moved from.  An operation works on two buffers at most (the
    current one and the one a reallocation fills), so a pointer is a buffer and
    an offset.  Reading an object that holds no value, assigning to or
    destroying raw storage and leaving the buffer are faults.

    [trivial] says that the element type is copied with [memmove]: a move then
    leaves the source as it was.  Constructors and assignments of the element
    type do not throw. *)
From Stdlib Require Import ZArith Lia.
From stdpp Require Import base list gmap numbers.
From S2P Require Import Prelude.

Inductive slot (T : Type) := Raw | Moved | Val (v : T).
Arguments Raw {T}.
Arguments Moved {T}.
Arguments Val {T} v.

#[global] Instance slot_eq_dec {T} `{EqDecision T} : EqDecision (slot T).
Proof. solve_decision. Defined.

#[global] Instance Val_inj {T} : Inj (=) (=) (@Val T).
Proof. intros x y [=]. done. Qed.

Definition is_live {T} (s : slot T) : bool := match s with Raw => false | _ => true end.

(** The two buffers. *)
Record mem (T : Type) := mkMem { blk : list (slot T); aux : list (slot T) }.
Arguments mkMem {T}.
Arguments blk {T}.
Arguments aux {T}.

Inductive buffer := Blk | Aux.
#[global] Instance buffer_eq_dec : EqDecision buffer.
Proof. solve_decision. Defined.

Definition ptr : Type := buffer * nat.
Definition shift (p : ptr) (n : nat) : ptr := (p.1, p.2 + n).
Definition incr (p : ptr) : ptr := shift p 1.

Section memory.
Context {T : Type} (trivial : bool).
Implicit Types m : mem T.

Definition get_buf (b : buffer) m : list (slot T) :=
  match b with Blk => blk m | Aux => aux m end.
Definition set_buf (b : buffer) (l : list (slot T)) m : mem T :=
  match b with Blk => mkMem l (aux m) | Aux => mkMem (blk m) l end.

Definition get_slot (p : ptr) : M (mem T) (slot T) :=
  m ← get; access (get_buf p.1 m !! p.2).
Definition set_slot (p : ptr) (s : slot T) : M (mem T) unit :=
  m ← get;
  if decide (p.2 < length (get_buf p.1 m))
  then put (set_buf p.1 (<[p.2 := s]> (get_buf p.1 m)) m) else fault.

(** [*p] as an rvalue. *)
Definition load (p : ptr) : M (mem T) T :=
  s ← get_slot p; match s with Val v => mret v | _ => fault end.

(** [move( *p)]: the source is left in a moved-from state. *)
Definition take_value (p : ptr) : M (mem T) T :=
  v ← load p; (if trivial then mret tt else set_slot p Moved);; mret v.

(** [*p = v] on an existing object. *)
Definition assign (p : ptr) (v : T) : M (mem T) unit :=
  s ← get_slot p; if is_live s then set_slot p (Val v) else fault.

(** [construct_at(p, v)]: the storage of an object may be reused. *)
Definition construct_at (p : ptr) (v : T) : M (mem T) unit := set_slot p (Val v).

(** [destroy_at(p)]. *)
Definition destroy_at (p : ptr) : M (mem T) unit :=
  s ← get_slot p; if is_live s then set_slot p Raw else fault.

(** ** include/memory.hpp *)

Fixpoint destroy_n (first : ptr) (count : nat) : M (mem T) unit :=
  match count with
  | O => mret tt
  | S count => destroy_at first;; destroy_n (incr first) count
  end.

(** [uninitialized_copy_n_unchecked] from a range outside the buffers. *)
Fixpoint uninitialized_copy_n (src : list T) (count : nat) (dest : ptr) : M (mem T) unit :=
  match count with
  | O => mret tt
  | S count =>
      v ← access (head src);
      construct_at dest v;; uninitialized_copy_n (tail src) count (incr dest)
  end.

(** [uninitialized_move_n_unchecked], the transfer of a reallocation. *)
Fixpoint uninitialized_move_n (first : ptr) (count : nat) (dest : ptr) : M (mem T) unit :=
  match count with
  | O => mret tt
  | S count =>
      v ← take_value first;
      construct_at dest v;; uninitialized_move_n (incr first) count (incr dest)
  end.

Fixpoint uninitialized_fill_n (first : ptr) (count : nat) (value : T) : M (mem T) unit :=
  match count with
  | O => mret tt
  | S count => construct_at first value;; uninitialized_fill_n (incr first) count value
  end.

(** [uninitialized_default_construct_n]; [value_default] is the value a default-constructed
    element has (all bytes zero for a trivially constructible type). *)
Definition uninitialized_default_construct_n (value_default : T) (first : ptr) (count : nat)
    : M (mem T) unit := uninitialized_fill_n first count value_default.

(** ** include/algorithm.hpp *)

(** [copy_n] and [copy] from a range outside the buffers. *)
Fixpoint copy_n (src : list T) (count : nat) (d_first : ptr) : M (mem T) unit :=
  match count with
  | O => mret tt
  | S count =>
      v ← access (head src);
      assign d_first v;; copy_n (tail src) count (incr d_first)
  end.

(** [move(first, last, d_first)] inside a buffer, [count = last - first]. *)
Fixpoint move_range (first : ptr) (count : nat) (d_first : ptr) : M (mem T) unit :=
  match count with
  | O => mret tt
  | S count =>
      v ← take_value first;
      assign d_first v;; move_range (incr first) count (incr d_first)
  end.

(** [shift_left(first, last, offset)] with [length = last - first]. *)
Definition shift_left (first : ptr) (length offset : nat) : M (mem T) unit :=
  if (offset =? 0)%nat || (length <? offset)%nat then mret tt
  else move_range (shift first offset) (length - offset) first.

(** [shift_right_impl]: the loop runs from the last element down. *)
Fixpoint shift_right_impl (first : ptr) (offset shift_count : nat) : M (mem T) unit :=
  match shift_count with
  | O => mret tt
  | S n =>
      v ← take_value (shift first n);
      assign (shift first (offset + n)) v;; shift_right_impl first offset n
  end.

Definition shift_right (first : ptr) (length offset : nat) : M (mem T) unit :=
  if (offset =? 0)%nat || (length <? offset)%nat then mret tt
  else shift_right_impl first offset (length - offset).

(** [iter_swap]. *)
Definition iter_swap (p q : ptr) : M (mem T) unit :=
  x ← load p; y ← load q; assign p y;; assign q x.

(** [reverse_impl] for random access iterators; [count = last - first]. *)
Fixpoint reverse_loop (fuel : nat) (b : buffer) (first last : nat) : M (mem T) unit :=
  match fuel with
  | O => diverge
  | S fuel =>
      if decide (first < last)%nat
      then iter_swap (b, first) (b, last);; reverse_loop fuel b (S first) (pred last)
      else mret tt
  end.
Definition reverse_range (b : buffer) (first last : nat) : M (mem T) unit :=
  if decide (first = last) then mret tt else reverse_loop (S last) b first (pred last).

(** [rotate] for random access iterators; the result is the new position of the
    element at [first]. *)
Definition rotate (b : buffer) (first new_first last : nat) : M (mem T) nat :=
  if decide (first = new_first) then mret new_first
  else if decide (new_first = last) then mret first
  else
    reverse_range b first new_first;; reverse_range b new_first last;; reverse_range b first last;;
    mret (first + (last - new_first))%nat.

(** [copy_backward(first, last, d_last)], as written: the loop advances [first]
    and retreats [last]. *)
Fixpoint copy_backward (fuel : nat) (first last d_last : ptr) : M (mem T) ptr :=
  match fuel with
  | O => diverge
  | S fuel =>
      if decide (first.2 = last.2) then mret d_last
      else
        match last, d_last with
        | (b, S l), (d, S k) =>
            v ← load (b, l); assign (d, k) v;;
            copy_backward fuel (incr first) (b, l) (d, k)
        | _, _ => fault
        end
  end.

End memory.

(** ** Byte representation and [fill_n]

    [fill_n] writes with [memset] when the value's bytes are all equal to a
    byte-sized value or to zero; the byte count is the element count. *)
Record layout_of (T : Type) := {
  sizeof_T : nat;
  to_bytes : T -> list Z;
  of_bytes : list Z -> T;
  is_memset_safe : T -> bool;
}.
Arguments sizeof_T {T}.
Arguments to_bytes {T}.
Arguments of_bytes {T}.
Arguments is_memset_safe {T}.

Section fill.
Context {T : Type} (lay : layout_of T).

(** One element of which the first [n] bytes are overwritten with byte [b]. *)
Definition memset_elem (b : Z) (n : nat) (v : T) : T :=
  of_bytes lay (replicate (min n (sizeof_T lay)) b ++ drop n (to_bytes lay v)).

(** [memset(p, b, bytes)] over the objects from [p] on. *)
Fixpoint memset_n (count : nat) (p : ptr) (b : Z) (bytes : nat) : M (mem T) unit :=
  match count with
  | O => mret tt
  | S count =>
      if decide (bytes = 0%nat) then mret tt
      else
        v ← load p;
        assign p (memset_elem b bytes v);;
        memset_n count (incr p) b (bytes - sizeof_T lay)
  end.

Fixpoint fill_loop (first : ptr) (count : nat) (value : T) : M (mem T) unit :=
  match count with
  | O => mret tt
  | S count => assign first value;; fill_loop (incr first) count value
  end.

Definition fill_n (first : ptr) (count : nat) (value : T) : M (mem T) unit :=
  if decide (count = 0%nat) then mret tt
  else if is_memset_safe lay value
  then memset_n count first (default 0%Z (head (to_bytes lay value))) count
  else fill_loop first count value.

End fill.
