(* ===== verification/MemorySpec.v ===== *)
(** * Effects of the storage loops

    Each loop is described on a buffer written as a concatenation: the range it
    works on, and what lies in front of and behind it. *)
From Stdlib Require Import ZArith Lia.
From stdpp Require Import base list gmap numbers.
From S2P Require Import Prelude Memory.

(** Equality of concatenations up to associativity, and lengths of them. *)
Ltac shape :=
  repeat (progress (rewrite ?fmap_app, ?fmap_cons)); simpl; rewrite ?fmap_app; simpl;
  repeat (progress (rewrite <- ?app_assoc; simpl)); reflexivity.
Ltac len := simpl in *; repeat (rewrite ?length_app, ?length_fmap, ?length_reverse, ?length_replicate in *; simpl in *); lia.

Lemma incr_pair b i : incr (b, i) = (b, i + 1).
Proof. done. Qed.

(** Run one access whose slot lies behind a given prefix. *)
Tactic Notation "run" uconstr(lem) :=
  erewrite bind_Ok; [|eapply lem; [shape|try eassumption; len..]]; rewrite ?incr_pair; simpl.

Section spec.
Context {T : Type} (trivial : bool).
Implicit Types (m : mem T) (l pre post mid : list (slot T)) (xs ys src : list T).

Abbreviation vals xs := (Val <$> xs).

(** What a move leaves behind. *)
Definition left_slot (x : T) : slot T := if trivial then Val x else Moved.
Abbreviation left_slots xs := (left_slot <$> xs).

Lemma left_live xs : Forall (fun s => is_live s = true) (left_slots xs).
Proof. apply Forall_fmap, Forall_true. intros x. unfold left_slot; simpl. by destruct trivial. Qed.

Lemma vals_live xs : Forall (fun s => is_live s = true) (vals xs).
Proof. by apply Forall_fmap, Forall_true. Qed.

(** ** Single accesses *)

Lemma set_buf_set b l l' m : set_buf b l (set_buf b l' m) = set_buf b l m.
Proof. by destruct b. Qed.
Lemma get_set_buf b l m : get_buf b (set_buf b l m) = l.
Proof. by destruct b. Qed.
Lemma set_get_buf b m : set_buf b (get_buf b m) m = m.
Proof. by destruct m, b. Qed.

Lemma get_slot_at b m pre s post i :
  get_buf b m = pre ++ s :: post -> i = length pre -> get_slot (b, i) m = Ok m s.
Proof.
  intros Hm ->. unfold get_slot, mbind, M_bind, get. simpl. rewrite Hm.
  by rewrite lookup_app_r, Nat.sub_diag by lia.
Qed.

Lemma set_slot_at b m pre s s' post i :
  get_buf b m = pre ++ s :: post -> i = length pre ->
  set_slot (b, i) s' m = Ok (set_buf b (pre ++ s' :: post) m) tt.
Proof.
  intros Hm ->. unfold set_slot, mbind, M_bind, get. simpl. rewrite Hm.
  rewrite decide_True by (rewrite length_app; simpl; lia).
  by rewrite insert_app_r_alt, Nat.sub_diag by lia.
Qed.

Lemma load_at b m pre v post i :
  get_buf b m = pre ++ Val v :: post -> i = length pre -> load (b, i) m = Ok m v.
Proof. intros Hm Hi. unfold load. by rewrite (bind_Ok _ _ _ _ _ (get_slot_at _ _ _ _ _ _ Hm Hi)). Qed.

Lemma take_value_at b m pre v post i :
  get_buf b m = pre ++ Val v :: post -> i = length pre ->
  take_value trivial (b, i) m = Ok (set_buf b (pre ++ left_slot v :: post) m) v.
Proof.
  intros Hm Hi. unfold take_value. rewrite (bind_Ok _ _ _ _ _ (load_at _ _ _ _ _ _ Hm Hi)).
  unfold left_slot. destruct trivial.
  - rewrite ret_bind. by rewrite <- Hm, set_get_buf.
  - by rewrite (bind_Ok _ _ _ _ _ (set_slot_at _ _ _ _ Moved _ _ Hm Hi)).
Qed.

Lemma assign_at b m pre s v post i :
  get_buf b m = pre ++ s :: post -> is_live s = true -> i = length pre ->
  assign (b, i) v m = Ok (set_buf b (pre ++ Val v :: post) m) tt.
Proof.
  intros Hm Hs Hi. unfold assign. rewrite (bind_Ok _ _ _ _ _ (get_slot_at _ _ _ _ _ _ Hm Hi)), Hs.
  by apply (set_slot_at _ _ _ s).
Qed.

Lemma destroy_at_at b m pre s post i :
  get_buf b m = pre ++ s :: post -> is_live s = true -> i = length pre ->
  destroy_at (b, i) m = Ok (set_buf b (pre ++ Raw :: post) m) tt.
Proof.
  intros Hm Hs Hi. unfold destroy_at. rewrite (bind_Ok _ _ _ _ _ (get_slot_at _ _ _ _ _ _ Hm Hi)), Hs.
  by apply (set_slot_at _ _ _ s).
Qed.

Lemma cons_middle_app {A} (l : list A) x r : l ++ x :: r = (l ++ [x]) ++ r.
Proof. by rewrite <- app_assoc. Qed.

Lemma length_snoc {A} (l : list A) x : length (l ++ [x]) = S (length l).
Proof. rewrite length_app. simpl. lia. Qed.

(** After the slot behind [pre] became [s], continue with the rest of the range:
    [IH] is applied with the prefix [pre ++ [s]]. *)
Ltac next_slot IH :=
  rewrite incr_pair;
  etrans; [eapply IH; [by rewrite get_set_buf, cons_middle_app | rewrite ?length_snoc; lia | ..]|];
  [by (auto || lia)..| by rewrite set_buf_set, <- app_assoc].

(** ** Construction and destruction of ranges *)

Lemma destroy_n_spec mid b m pre post i n :
  get_buf b m = pre ++ mid ++ post -> i = length pre -> n = length mid ->
  Forall (fun s => is_live s = true) mid ->
  destroy_n (b, i) n m = Ok (set_buf b (pre ++ replicate n Raw ++ post) m) tt.
Proof.
  revert m pre i n. induction mid as [|s mid IH]; intros m pre i n Hm Hi -> Hl; simpl.
  - simpl in Hm. by rewrite <- Hm, set_get_buf.
  - inversion Hl as [|? ? Hs Hl']; subst.
    rewrite (bind_Ok _ _ _ _ _ (destroy_at_at _ _ _ _ (mid ++ post) _ Hm Hs eq_refl)).
    next_slot IH.
Qed.

Lemma uninitialized_copy_n_spec n src b m pre mid post i :
  get_buf b m = pre ++ mid ++ post -> i = length pre -> length mid = n -> (n <= length src)%nat ->
  uninitialized_copy_n src n (b, i) m = Ok (set_buf b (pre ++ vals (take n src) ++ post) m) tt.
Proof.
  revert src m pre mid i. induction n as [|n IH]; intros src m pre mid i Hm Hi Hn Hs.
  - destruct mid; [|done]. simpl in *. by rewrite <- Hm, set_get_buf.
  - destruct mid as [|s mid]; [done|]. destruct src as [|v src]; simpl in *; [lia|].
    rewrite ret_bind.
    unfold construct_at. rewrite (bind_Ok _ _ _ _ _ (set_slot_at _ _ _ s (Val v) (mid ++ post) _ Hm Hi)).
    next_slot IH.
Qed.

Lemma uninitialized_fill_n_spec n v b m pre mid post i :
  get_buf b m = pre ++ mid ++ post -> i = length pre -> length mid = n ->
  uninitialized_fill_n (b, i) n v m = Ok (set_buf b (pre ++ replicate n (Val v) ++ post) m) tt.
Proof.
  revert m pre mid i. induction n as [|n IH]; intros m pre mid i Hm Hi Hn.
  - destruct mid; [|done]. simpl in *. by rewrite <- Hm, set_get_buf.
  - destruct mid as [|s mid]; [done|]. simpl in *.
    unfold construct_at. rewrite (bind_Ok _ _ _ _ _ (set_slot_at _ _ _ s (Val v) (mid ++ post) _ Hm Hi)).
    next_slot IH.
Qed.

Lemma copy_n_spec n src b m pre mid post i :
  get_buf b m = pre ++ mid ++ post -> i = length pre -> length mid = n -> (n <= length src)%nat ->
  Forall (fun s => is_live s = true) mid ->
  copy_n src n (b, i) m = Ok (set_buf b (pre ++ vals (take n src) ++ post) m) tt.
Proof.
  revert src m pre mid i. induction n as [|n IH]; intros src m pre mid i Hm Hi Hn Hs Hl.
  - destruct mid; [|done]. simpl in *. by rewrite <- Hm, set_get_buf.
  - destruct mid as [|s mid]; [done|]. destruct src as [|v src]; simpl in *; [lia|].
    inversion Hl as [|? ? Hl1 Hl']; subst.
    rewrite ret_bind. rewrite (bind_Ok _ _ _ _ _ (assign_at _ _ _ s v (mid ++ post) _ Hm Hl1 eq_refl)).
    next_slot IH.
Qed.

Lemma fill_loop_spec n v b m pre mid post i :
  get_buf b m = pre ++ mid ++ post -> i = length pre -> length mid = n ->
  Forall (fun s => is_live s = true) mid ->
  fill_loop (b, i) n v m = Ok (set_buf b (pre ++ replicate n (Val v) ++ post) m) tt.
Proof.
  revert m pre mid i. induction n as [|n IH]; intros m pre mid i Hm Hi Hn Hl.
  - destruct mid; [|done]. simpl in *. by rewrite <- Hm, set_get_buf.
  - destruct mid as [|s mid]; [done|]. simpl in *. inversion Hl as [|? ? Hl1 Hl']; subst.
    rewrite (bind_Ok _ _ _ _ _ (assign_at _ _ _ s v (mid ++ post) _ Hm Hl1 eq_refl)).
    next_slot IH.
Qed.

(** ** Moves *)

(** Transfer of a whole range into the other buffer. *)
Lemma move_to_aux xs l l' pre post pre' mid post' i j :
  l = pre ++ vals xs ++ post -> l' = pre' ++ mid ++ post' ->
  i = length pre -> j = length pre' -> length mid = length xs ->
  uninitialized_move_n trivial (Blk, i) (length xs) (Aux, j) (mkMem l l') =
  Ok (mkMem (pre ++ left_slots xs ++ post) (pre' ++ vals xs ++ post')) tt.
Proof.
  revert l l' pre pre' mid i j. induction xs as [|x xs IH]; intros l l' pre pre' mid i j -> -> Hi Hj Hlen.
  - by destruct mid.
  - destruct mid as [|s mid]; [done|]. cbn [uninitialized_move_n length].
    run (take_value_at Blk _ pre x (vals xs ++ post)).
    unfold construct_at. run (set_slot_at Aux _ pre' s (Val x) (mid ++ post')).
    rewrite (IH _ _ (pre ++ [left_slot x]) (pre' ++ [Val x]) mid); [f_equal; f_equal; shape|shape|shape|len..].
Qed.

(** Transfer inside the buffer, to storage behind the range. *)
Lemma move_behind xs a l pre gap mid post i j :
  l = pre ++ vals xs ++ gap ++ mid ++ post -> i = length pre ->
  j = (length pre + length xs + length gap)%nat -> length mid = length xs ->
  uninitialized_move_n trivial (Blk, i) (length xs) (Blk, j) (mkMem l a) =
  Ok (mkMem (pre ++ left_slots xs ++ gap ++ vals xs ++ post) a) tt.
Proof.
  revert l pre gap mid i j. induction xs as [|x xs IH]; intros l pre gap mid i j -> Hi Hj Hlen.
  - by destruct mid.
  - destruct mid as [|s mid]; [done|]. cbn [uninitialized_move_n length].
    run (take_value_at Blk _ pre x (vals xs ++ gap ++ s :: mid ++ post)).
    unfold construct_at.
    run (set_slot_at Blk _ (pre ++ left_slot x :: vals xs ++ gap) s (Val x) (mid ++ post)).
    rewrite (IH _ (pre ++ [left_slot x]) (gap ++ [Val x]) mid); rewrite ?length_snoc; auto; try (simpl in *; lia).
    + f_equal. f_equal. shape.
    + shape.
Qed.

(** Moving a range down over live objects; what is left behind it stays live. *)
Lemma move_range_down xs a l pre mid post i j :
  l = pre ++ mid ++ vals xs ++ post -> Forall (fun s => is_live s = true) mid ->
  (0 < length mid)%nat -> i = (length pre + length mid)%nat -> j = length pre ->
  exists junk, move_range trivial (Blk, i) (length xs) (Blk, j) (mkMem l a) =
    Ok (mkMem (pre ++ vals xs ++ junk ++ post) a) tt /\ length junk = length mid /\
    Forall (fun s => is_live s = true) junk.
Proof.
  revert l pre mid i j. induction xs as [|x xs IH]; intros l pre mid i j -> Hl Hne Hi Hj.
  - by exists mid.
  - destruct mid as [|s mid]; simpl in Hne; [lia|]. inversion Hl as [|? ? Hs Hl']; subst.
    cbn [move_range length].
    run (take_value_at Blk _ (pre ++ s :: mid) x (vals xs ++ post)).
    run (assign_at Blk _ pre s x (mid ++ left_slot x :: vals xs ++ post)).
    destruct (IH (pre ++ Val x :: mid ++ left_slot x :: vals xs ++ post)
      (pre ++ [Val x]) (mid ++ [left_slot x]) (length pre + S (length mid) + 1)%nat (length pre + 1)%nat)
      as (junk & Hr & Hlen & Hlive); rewrite ?length_snoc; try lia.
    + by rewrite <- !app_assoc.
    + apply Forall_app_2; [done|]. apply (left_live [x]).
    + exists junk. rewrite Hr. split; [by rewrite <- app_assoc|]. rewrite length_snoc in Hlen. done.
Qed.

(** Moving a range up over live objects. *)
Lemma shift_right_impl_up xs a l pre mid post i n :
  l = pre ++ vals xs ++ mid ++ post -> Forall (fun s => is_live s = true) mid ->
  n = length mid -> (0 < n)%nat -> i = length pre ->
  exists junk, shift_right_impl trivial (Blk, i) n (length xs) (mkMem l a) =
    Ok (mkMem (pre ++ junk ++ vals xs ++ post) a) tt /\ length junk = n /\
    Forall (fun s => is_live s = true) junk.
Proof.
  revert l mid post i. induction xs as [|x xs IH] using rev_ind; intros l mid post i -> Hl -> Hn Hi.
  - by exists mid.
  - rewrite length_snoc. cbn [shift_right_impl].
    destruct mid as [|s mid _] using rev_ind; [simpl in Hn; lia|]. rewrite length_snoc in *.
    apply Forall_app in Hl as [Hl Hs]. inversion Hs as [|? ? Hs1 _]; subst.
    rewrite fmap_app. simpl.
    run (take_value_at Blk _ (pre ++ vals xs) x ((mid ++ [s]) ++ post)).
    run (assign_at Blk _ (pre ++ vals xs ++ left_slot x :: mid) s x post).
    destruct (IH (pre ++ vals xs ++ (left_slot x :: mid) ++ Val x :: post) (left_slot x :: mid) (Val x :: post)
       (length pre)) as (junk & Hr & Hlen & Hlive); auto.
    + constructor; [|done]. unfold left_slot. by destruct trivial.
    + exists junk. split; [|done]. rewrite <- !app_assoc. cbn [app length] in *. rewrite Hr. done.
Qed.

Lemma shift_left_spec xs a pre mid post i len off :
  Forall (fun s => is_live s = true) mid -> i = length pre ->
  off = length mid -> (0 < off)%nat -> len = (length mid + length xs)%nat ->
  exists junk, shift_left trivial (Blk, i) len off (mkMem (pre ++ mid ++ vals xs ++ post) a) =
    Ok (mkMem (pre ++ vals xs ++ junk ++ post) a) tt /\ length junk = off /\
    Forall (fun s => is_live s = true) junk.
Proof.
  intros Hl -> -> Hoff ->. unfold shift_left.
  destruct (Nat.eqb_spec (length mid) 0); [lia|].
  destruct (Nat.ltb_spec (length mid + length xs) (length mid)); [lia|]. simpl.
  replace (length mid + length xs - length mid)%nat with (length xs) by lia.
  by apply move_range_down.
Qed.

Lemma shift_right_spec xs a pre mid post i len off :
  Forall (fun s => is_live s = true) mid -> i = length pre ->
  off = length mid -> (0 < off)%nat -> len = (length xs + length mid)%nat ->
  exists junk, shift_right trivial (Blk, i) len off (mkMem (pre ++ vals xs ++ mid ++ post) a) =
    Ok (mkMem (pre ++ junk ++ vals xs ++ post) a) tt /\ length junk = off /\
    Forall (fun s => is_live s = true) junk.
Proof.
  intros Hl -> -> Hoff ->. unfold shift_right.
  destruct (Nat.eqb_spec (length mid) 0); [lia|].
  destruct (Nat.ltb_spec (length xs + length mid) (length mid)); [lia|]. simpl.
  replace (length xs + length mid - length mid)%nat with (length xs) by lia.
  by eapply shift_right_impl_up.
Qed.

(** ** Reversal and rotation *)

Lemma iter_swap_spec a pre x mid y post i j :
  i = length pre -> j = (length pre + 1 + length mid)%nat ->
  iter_swap (Blk, i) (Blk, j) (mkMem (pre ++ Val x :: mid ++ Val y :: post) a) =
  Ok (mkMem (pre ++ Val y :: mid ++ Val x :: post) a) tt.
Proof.
  intros -> ->. unfold iter_swap.
  run (load_at Blk _ pre x (mid ++ Val y :: post)).
  run (load_at Blk _ (pre ++ Val x :: mid) y post).
  run (assign_at Blk _ pre (Val x) y (mid ++ Val y :: post)).
  rewrite (assign_at Blk _ (pre ++ Val y :: mid) (Val y) x post); [|shape|done|len].
  simpl. by rewrite <- app_assoc.
Qed.

Lemma reverse_loop_spec n fuel xs a pre post i j :
  (length xs <= n)%nat -> (n < fuel)%nat -> i = length pre -> j = pred (length pre + length xs) ->
  reverse_loop fuel Blk i j (mkMem (pre ++ vals xs ++ post) a) =
  Ok (mkMem (pre ++ vals (reverse xs) ++ post) a) tt.
Proof.
  revert fuel xs pre post i j. induction n as [n IH] using lt_wf_ind.
  intros [|fuel] xs pre post i j Hn Hfuel -> ->; [lia|]. cbn [reverse_loop].
  destruct xs as [|x xs]; [|destruct xs as [|y xs _] using rev_ind].
  - rewrite decide_False by (simpl; lia). done.
  - rewrite decide_False by (simpl; lia). done.
  - rewrite decide_True by (len).
    assert (vals (x :: xs ++ [y]) ++ post = Val x :: vals xs ++ Val y :: post) as -> by shape.
    erewrite bind_Ok; [|apply iter_swap_spec; [done|len]].
    replace (pre ++ Val y :: vals xs ++ Val x :: post)
      with ((pre ++ [Val y]) ++ vals xs ++ Val x :: post) by shape.
    rewrite (IH (length xs)); try len.
    f_equal. f_equal. rewrite reverse_cons, reverse_app, <- app_assoc.
    change (reverse [y]) with [y]. shape.
Qed.

Lemma reverse_spec xs a pre post i j :
  i = length pre -> j = (length pre + length xs)%nat ->
  reverse_range Blk i j (mkMem (pre ++ vals xs ++ post) a) =
  Ok (mkMem (pre ++ vals (reverse xs) ++ post) a) tt.
Proof.
  intros -> ->. unfold reverse_range. case_decide as Hd.
  - assert (length xs = 0)%nat as ->%length_zero_iff_nil by lia. done.
  - apply (reverse_loop_spec (length xs)); lia.
Qed.

(** Rotation exchanges the two parts; the result is the new position of the first
    part, except that an empty first part is reported where it was. *)
Lemma rotate_spec xs ys a pre post i j k :
  i = length pre -> j = (i + length xs)%nat -> k = (j + length ys)%nat ->
  rotate Blk i j k (mkMem (pre ++ vals (xs ++ ys) ++ post) a) =
  Ok (mkMem (pre ++ vals (ys ++ xs) ++ post) a)
     (if decide (xs = []) then i else (i + length ys)%nat).
Proof.
  intros -> -> ->. unfold rotate.
  destruct (decide (length pre = length pre + length xs)%nat) as [Hd|Hd].
  - assert (length xs = 0)%nat as ->%length_zero_iff_nil by lia. simpl.
    by rewrite app_nil_r, Nat.add_0_r.
  - rewrite (decide_False (P := xs = [])) by (intros ->; simpl in Hd; lia).
    destruct (decide (length pre + length xs = length pre + length xs + length ys)%nat) as [Hd'|Hd'].
    + assert (length ys = 0)%nat as ->%length_zero_iff_nil by lia. simpl.
      by rewrite app_nil_r, Nat.add_0_r.
    + replace (pre ++ vals (xs ++ ys) ++ post) with (pre ++ vals xs ++ vals ys ++ post) by shape.
      erewrite bind_Ok; [|apply reverse_spec; [done|done]].
      rewrite (app_assoc pre).
      erewrite bind_Ok; [|apply (reverse_spec ys); [len|len]].
      replace ((pre ++ vals (reverse xs)) ++ vals (reverse ys) ++ post)
        with (pre ++ vals (reverse xs ++ reverse ys) ++ post) by shape.
      erewrite bind_Ok; [|apply (reverse_spec (reverse xs ++ reverse ys)); [done|]].
      2: { rewrite length_app, !length_reverse. lia. }
      rewrite reverse_app, !reverse_involutive. unfold mret, M_ret. f_equal. lia.
Qed.

End spec.
