(* ===== verification/Vector.v ===== *)
(** * The dynamic array of include/vector.hpp

    [vec] is [vector<Ty, Alloc>::Impl] with the contents of its buffer; [aux] of
    its memory is the buffer a reallocation is filling.  The allocator is a
    predicate on the requested number of bytes; as in
    [aligned_allocator::allocate] the byte count is computed in 64 bits, and
    the block holds as many objects as fit into the bytes obtained.  Iterators
    are offsets from [begin()]. *)
From Stdlib Require Import ZArith Lia.
From stdpp Require Import base list gmap numbers.
From S2P Require Import Prelude Memory.
#[local] Open Scope Z_scope.

Record vec (T : Type) := mkVec { vmem : mem T; vsize : Z; vcap : Z }.
Arguments mkVec {T}.
Arguments vmem {T}.
Arguments vsize {T}.
Arguments vcap {T}.

Section vector.
Context {T : Type} (trivial : bool) (lay : layout_of T).
Context (sizeof : Z) (alloc_ok : Z -> bool).
Implicit Types v : vec T.

Definition on_mem {A} (op : M (mem T) A) : M (vec T) A := fun v =>
  match op (vmem v) with
  | Ok m a => Ok (mkVec m (vsize v) (vcap v)) a
  | Throw m e => Throw (mkVec m (vsize v) (vcap v)) e
  | Fault => Fault
  | Diverge => Diverge
  end.

Definition set_mem (m : mem T) v : vec T := mkVec m (vsize v) (vcap v).
Definition set_size (n : Z) v : vec T := mkVec (vmem v) n (vcap v).
Definition set_cap (n : Z) v : vec T := mkVec (vmem v) (vsize v) n.

Definition size_n v : nat := Z.to_nat (vsize v).

(** The default constructor, and the state [Impl(Impl&&)] leaves behind. *)
Definition empty_vec : vec T := mkVec (mkMem [] []) 0 0.

Definition max_size : Z := 2 ^ 64 - 1 - 1.
Definition MIN_CAPACITY : Z := 1.
Definition GROWTH_MULTIPLIER : Z := 2.

(** ** Growth *)

Definition calc_growth_unchecked (old_capacity : Z) : Z :=
  if old_capacity =? 0 then MIN_CAPACITY else u64 (old_capacity * GROWTH_MULTIPLIER).

Definition calc_growth v : Z :=
  if vcap v =? max_size then u64 (max_size + 1)
  else Z.min max_size (calc_growth_unchecked (vcap v)).

Definition calc_optimal_growth v (required : Z) : Z := Z.max (calc_growth v) required.

(** [allocate_buffer]: [operator new(object_count * sizeof(Ty))]. *)
Definition allocate_buffer (object_count : Z) : M (vec T) unit :=
  let bytes := u64 (object_count * sizeof) in
  if alloc_ok bytes
  then modify (fun v => set_mem (mkMem (blk (vmem v)) (replicate (Z.to_nat (bytes / sizeof)) Raw)) v)
  else throw bad_alloc.

Definition destroy_and_deallocate : M (vec T) unit :=
  v ← get;
  on_mem (destroy_n (Blk, 0%nat) (size_n v));;
  modify (fun v => set_mem (mkMem [] (aux (vmem v))) v).

(** [construction] fills the new buffer and returns the size adjustment;
    [transfer] moves the old objects. *)
Definition grow_unchecked (adjust_size : bool) (new_capacity : Z)
    (construction : M (mem T) Z) (transfer : nat -> M (mem T) unit) : M (vec T) unit :=
  v ← get;
  allocate_buffer new_capacity;;
  size_adjustment ← on_mem construction;
  on_mem (transfer (size_n v));;
  destroy_and_deallocate;;
  (if adjust_size then modify (fun v => set_size (u64 (vsize v + size_adjustment)) v) else mret tt);;
  modify (fun v => set_cap new_capacity (set_mem (mkMem (aux (vmem v)) []) v)).

Definition grow (adjust_size : bool) (new_capacity : Z)
    (construction : M (mem T) Z) (transfer : nat -> M (mem T) unit) : M (vec T) unit :=
  if new_capacity <=? max_size
  then grow_unchecked adjust_size new_capacity construction transfer else throw length_error.

(** ** Construction and transfer policies *)

Definition make_dummy_construct_helper (old_size : Z) : M (mem T) Z := mret old_size.
Definition make_construct_at_helper (b : buffer) (pos : nat) (value : T) : M (mem T) Z :=
  construct_at (b, pos) value;; mret 1.
Definition make_range_construct_helper (b : buffer) (pos : nat) (src : list T) (count : nat)
    : M (mem T) Z := uninitialized_copy_n src count (b, pos);; mret (Z.of_nat count).
Definition make_construct_fill_helper (b : buffer) (pos : nat) (value : T) (count : Z)
    : M (mem T) Z := uninitialized_fill_n (b, pos) (Z.to_nat count) value;; mret count.
Definition make_default_construct_helper (value_default : T) (b : buffer) (pos : nat) (count : Z)
    : M (mem T) Z :=
  uninitialized_default_construct_n value_default (b, pos) (Z.to_nat count);; mret count.
Definition make_cloner (other : list T) : M (mem T) Z :=
  uninitialized_copy_n other (length other) (Aux, 0%nat);; mret (Z.of_nat (length other)).

Definition make_transfer_without_shift (count : nat) : M (mem T) unit :=
  uninitialized_move_n trivial (Blk, 0%nat) count (Aux, 0%nat).
Definition make_transfer_with_shift_right (left_bound right_bound count : nat) : M (mem T) unit :=
  uninitialized_move_n trivial (Blk, 0%nat) left_bound (Aux, 0%nat);;
  uninitialized_move_n trivial (Blk, left_bound) (count - left_bound) (Aux, right_bound).
Definition make_dummy_transfer (count : nat) : M (mem T) unit := mret tt.

(** ** Constructors *)

Definition vector_n (value_default : T) (object_count : Z) : outcome (vec T) unit :=
  grow true object_count (make_default_construct_helper value_default Aux 0 object_count)
    make_dummy_transfer empty_vec.

Definition vector_fill (object_count : Z) (value : T) : outcome (vec T) unit :=
  grow true object_count (make_construct_fill_helper Aux 0 value object_count)
    make_dummy_transfer empty_vec.

(** Copy construction from a vector with the contents [other]. *)
Definition vector_copy (other : list T) : outcome (vec T) unit :=
  grow_unchecked true (Z.of_nat (length other)) (make_cloner other) make_dummy_transfer empty_vec.

(** ** Element access *)

Definition at_index (idx : Z) : M (vec T) T :=
  v ← get;
  if idx <? vsize v then on_mem (load (Blk, Z.to_nat idx)) else throw out_of_range.

(** [operator[]]: the index is only checked by an assertion. *)
Definition subscript (idx : Z) : M (vec T) T := on_mem (load (Blk, Z.to_nat idx)).

Definition front : M (vec T) T := on_mem (load (Blk, 0%nat)).
Definition back : M (vec T) T := v ← get; on_mem (load (Blk, pred (size_n v))).

Definition empty v : bool := vsize v =? 0.

(** ** Capacity *)

Definition reserve (new_capacity : Z) : M (vec T) unit :=
  v ← get;
  if vcap v <? new_capacity
  then grow false new_capacity (make_dummy_construct_helper (vsize v)) make_transfer_without_shift
  else mret tt.

Definition shrink_to_fit : M (vec T) unit :=
  v ← get;
  if vsize v <? vcap v
  then grow false (vsize v) (make_dummy_construct_helper (vsize v)) make_transfer_without_shift
  else mret tt.

Definition clear : M (vec T) unit :=
  v ← get;
  on_mem (destroy_n (Blk, 0%nat) (size_n v));; modify (set_size 0).

(** ** Modifiers *)

Definition emplace_back (value : T) : M (vec T) T :=
  v ← get;
  (if vsize v =? vcap v
   then grow true (calc_growth v) (make_construct_at_helper Aux (size_n v) value)
          make_transfer_without_shift
   else
     on_mem (make_construct_at_helper Blk (size_n v) value);;
     modify (fun v => set_size (u64 (vsize v + 1)) v));;
  back.

Definition pop_back : M (vec T) unit :=
  v ← get;
  on_mem (destroy_at (Blk, pred (size_n v)));;
  modify (fun v => set_size (u64 (vsize v - 1)) v).

(** [emplace(pos, args...)]; the result is the offset of the new object. *)
Definition emplace (offset : nat) (value : T) : M (vec T) nat :=
  v ← get;
  if decide (offset = size_n v) then
    emplace_back value;; v ← get; mret (pred (size_n v))
  else
    (if vsize v =? vcap v
     then grow true (calc_growth v) (make_construct_at_helper Aux offset value)
            (make_transfer_with_shift_right offset (offset + 1))
     else
       let current_size := size_n v in
       last ← on_mem (take_value trivial (Blk, pred current_size));
       on_mem (make_construct_at_helper Blk current_size last);;
       modify (fun v => set_size (u64 (vsize v + 1)) v);;
       on_mem (shift_right trivial (Blk, offset) (current_size - offset) 1);;
       on_mem (assign (Blk, offset) value));;
    mret offset.

Definition append_n_without_grow (count : Z) (value : T) : M (vec T) unit :=
  v ← get;
  n ← on_mem (make_construct_fill_helper Blk (size_n v) value count);
  modify (fun v => set_size (u64 (vsize v + n)) v).

Definition insert_n_without_grow (count : nat) (value : T) (offset : nat) : M (vec T) unit :=
  v ← get;
  let current_size := size_n v in
  let residue := (current_size - offset)%nat in
  if (count <=? residue)%nat then
    let unshifted := (residue - count)%nat in
    on_mem (uninitialized_move_n trivial (Blk, offset + unshifted)%nat count (Blk, current_size));;
    modify (fun v => set_size (u64 (vsize v + Z.of_nat count)) v);;
    on_mem (shift_right trivial (Blk, offset) (current_size - offset) count);;
    on_mem (fill_n lay (Blk, offset) count value)
  else
    let in_raw_memory := (count - residue)%nat in
    n ← on_mem (make_construct_fill_helper Blk current_size value (Z.of_nat in_raw_memory));
    modify (fun v => set_size (u64 (vsize v + n)) v);;
    v ← get;
    on_mem (uninitialized_move_n trivial (Blk, offset) residue (Blk, size_n v));;
    modify (fun v => set_size (u64 (vsize v + Z.of_nat residue)) v);;
    on_mem (fill_n lay (Blk, offset) residue value).

(** [insert(pos, count, value)].  At the end the arguments of
    [append_n_without_grow] are passed in the opposite order, through the
    implicit conversions between [Ty] and [size_type].  The result is the
    offset of the returned iterator. *)
Definition insert_n (as_size : T -> Z) (of_size : Z -> T) (offset : nat) (count : Z) (value : T)
    : M (vec T) nat :=
  v ← get;
  let current_size := size_n v in
  let required := u64 (vsize v + count) in
  (if vcap v <? required
   then grow true (calc_optimal_growth v required)
          (make_construct_fill_helper Aux offset value count)
          (make_transfer_with_shift_right offset (offset + Z.to_nat count))
   else if decide (offset = current_size)
   then append_n_without_grow (as_size value) (of_size count)
   else insert_n_without_grow (Z.to_nat count) value offset);;
  mret current_size.

Definition append_range_without_grow (src : list T) (range_length : nat) : M (vec T) unit :=
  v ← get;
  n ← on_mem (make_range_construct_helper Blk (size_n v) src range_length);
  modify (fun v => set_size (u64 (vsize v + n)) v).

Definition insert_range_without_grow (src : list T) (range_length offset : nat) : M (vec T) unit :=
  v ← get;
  let current_size := size_n v in
  let residue := (current_size - offset)%nat in
  if (range_length <=? residue)%nat then
    let unshifted := (residue - range_length)%nat in
    on_mem (uninitialized_move_n trivial (Blk, offset + unshifted)%nat range_length (Blk, current_size));;
    modify (fun v => set_size (u64 (vsize v + Z.of_nat range_length)) v);;
    on_mem (shift_right trivial (Blk, offset) (current_size - offset) range_length);;
    on_mem (copy_n src range_length (Blk, offset))
  else
    let in_raw_memory := (range_length - residue)%nat in
    n ← on_mem (make_range_construct_helper Blk current_size (drop residue src) in_raw_memory);
    modify (fun v => set_size (u64 (vsize v + n)) v);;
    v ← get;
    on_mem (uninitialized_move_n trivial (Blk, offset) residue (Blk, size_n v));;
    modify (fun v => set_size (u64 (vsize v + Z.of_nat residue)) v);;
    on_mem (copy_n src residue (Blk, offset)).

(** [insert(pos, first, last)] for forward iterators over a range outside the
    vector. *)
Definition insert_range (offset : nat) (src : list T) : M (vec T) nat :=
  v ← get;
  let range_length := length src in
  let current_size := size_n v in
  let required := u64 (vsize v + Z.of_nat range_length) in
  (if vcap v <? required
   then grow true (calc_optimal_growth v required)
          (make_range_construct_helper Aux offset src range_length)
          (make_transfer_with_shift_right offset (offset + range_length))
   else if decide (offset = current_size) then append_range_without_grow src range_length
   else insert_range_without_grow src range_length offset);;
  mret current_size.

Definition erase_impl (offset count : nat) : M (vec T) nat :=
  v ← get;
  on_mem (shift_left trivial (Blk, offset) (size_n v - offset) count);;
  modify (fun v => set_size (u64 (vsize v - Z.of_nat count)) v);;
  mret offset.

Definition erase (offset : nat) : M (vec T) nat := erase_impl offset 1.
Definition erase_range (first last : nat) : M (vec T) nat :=
  if decide (first = last) then mret first else erase_impl first (last - first).

(** [resize_impl] with the two construction policies. *)
Definition resize_impl (count : Z) (construct : buffer -> M (mem T) Z) : M (vec T) unit :=
  v ← get;
  (if count <? vsize v then
     on_mem (destroy_n (Blk, Z.to_nat count) (Z.to_nat (vsize v - count)))
   else if vsize v <? count then
     if count <=? vcap v then on_mem (construct Blk);; mret tt
     else grow false count (construct Aux) make_transfer_without_shift
   else mret tt);;
  modify (set_size count).

Definition resize (value_default : T) (count : Z) : M (vec T) unit :=
  v ← get;
  resize_impl count (fun b =>
    make_default_construct_helper value_default b (size_n v) (u64 (count - vsize v))).

Definition resize_fill (count : Z) (value : T) : M (vec T) unit :=
  v ← get;
  resize_impl count (fun b =>
    make_construct_fill_helper b (size_n v) value (u64 (count - vsize v))).

(** ** Ranges and assignment *)

(** [construct_from_range] for pointers and other iterators that the trait
    [forward_or_greater_t] does not recognize. *)
Fixpoint construct_from_range (src : list T) : M (vec T) unit :=
  match src with
  | [] => mret tt
  | x :: src => emplace_back x;; construct_from_range src
  end.

(** [assign_range(first, last, false_type)]: the assigning loop, then the rest. *)
Fixpoint assign_loop (idx n : nat) (src : list T) : M (vec T) (nat * list T) :=
  match n, src with
  | S n, x :: src => on_mem (assign (Blk, idx) x);; assign_loop (S idx) n src
  | _, _ => mret (idx, src)
  end.

Definition assign_range_input (src : list T) : M (vec T) unit :=
  v ← get;
  let current_size := size_n v in
  '(idx, rest) ← assign_loop 0 current_size src;
  if decide (idx = current_size) then construct_from_range rest
  else
    let extra_elements := (current_size - idx)%nat in
    on_mem (destroy_n (Blk, idx) extra_elements);;
    modify (fun v => set_size (u64 (vsize v - Z.of_nat extra_elements)) v).

(** [assign_range(first, last, true_type)].  In the last case [first] is advanced
    and [subrange_end] is not, so that the range copied runs backwards; it is
    empty only when the vector is. *)
Definition assign_range_forward (src : list T) : M (vec T) unit :=
  v ← get;
  let current_size := size_n v in
  let range_length := length src in
  if vcap v <? Z.of_nat range_length then
    clear;;
    grow_unchecked true (Z.of_nat range_length) (make_range_construct_helper Aux 0 src range_length)
      make_dummy_transfer
  else if (range_length <=? current_size)%nat then
    on_mem (copy_n src range_length (Blk, 0%nat));;
    on_mem (destroy_n (Blk, range_length) (current_size - range_length));;
    modify (set_size (Z.of_nat range_length))
  else
    (if decide (current_size = 0%nat) then mret tt else fault);;
    on_mem (uninitialized_copy_n src (range_length - current_size) (Blk, current_size));;
    modify (set_size (Z.of_nat range_length)).

(** [operator=(const vector&)] with equal allocators. *)
Definition copy_assign (other : list T) : M (vec T) unit := assign_range_forward other.

(** [operator=(vector&&)] with propagation: the new state and the one left in
    the source. *)
Definition move_assign (other : vec T) : M (vec T) (vec T) :=
  destroy_and_deallocate;; put other;; mret empty_vec.

(** [insert_range] for input iterators: append, then rotate.  [pos] is an
    iterator taken before the appends, so that a reallocation invalidates it. *)
Definition insert_range_input (offset : nat) (src : list T) : M (vec T) nat :=
  v ← get;
  let old_capacity := vcap v in
  construct_from_range src;;
  v ← get;
  if vcap v =? old_capacity then
    on_mem (rotate Blk offset (offset + length src) (size_n v));;
    mret offset
  else fault.

End vector.
