(* ===== verification/VectorSpec.v ===== *)
(** * Effects of the vector's operations

    [mkv xs tl] is a vector with the elements [xs] whose unused capacity holds
    the slots [tl]; each operation is described on it. *)
From Stdlib Require Import ZArith Lia.
From stdpp Require Import base list gmap numbers.
From S2P Require Import Prelude Memory MemorySpec Vector.
#[local] Open Scope Z_scope.

(** The operation returns with [Q], or it throws because of memory and has no
    effect: the strong exception guarantee. *)
Definition strong {S A} (o : outcome S A) (s : S) (Q : S -> A -> Prop) : Prop :=
  match o with
  | Ok s' a => Q s' a
  | Throw s' e => s' = s /\ (e = bad_alloc \/ e = length_error)
  | Fault | Diverge => False
  end.

Section spec.
Context {T : Type} (trivial : bool) (lay : layout_of T).
Context (sizeof : Z) (sizeof_pos : 0 < sizeof) (alloc_ok : Z -> bool).
Implicit Types (xs ys src : list T) (tl : list (slot T)) (x : T).

Abbreviation vals xs := (Val <$> xs).
Abbreviation raws n := (replicate n (@Raw T)).

Definition mkv xs tl : vec T :=
  mkVec (mkMem (vals xs ++ tl) []) (Z.of_nat (length xs)) (Z.of_nat (length xs + length tl)).

(** Capacities whose byte count does not wrap around. *)
Definition fits (n : Z) : Prop := 0 <= n <= max_size /\ n * sizeof < 2 ^ 64.

Lemma size_mkv xs tl : size_n (mkv xs tl) = length xs.
Proof. unfold size_n. simpl. lia. Qed.

Lemma on_mem_Ok {A} (op : M (mem T) A) m s c m' a :
  op m = Ok m' a -> on_mem op (mkVec m s c) = Ok (mkVec m' s c) a.
Proof. unfold on_mem. simpl. by intros ->. Qed.

Lemma fits_small n : fits n -> u64 n = n.
Proof. intros [Hn _]. unfold max_size in Hn. apply wrap_small. lia. Qed.

(** ** Reallocation *)

Lemma grow_spec adj n construction transfer xs tl m2 a ls tl' new :
  fits n ->
  construction (mkMem (vals xs ++ tl) (raws (Z.to_nat n))) = Ok m2 a ->
  transfer (length xs) m2 = Ok (mkMem (ls ++ tl') new) tt ->
  length ls = length xs -> Forall (fun s => is_live s = true) ls ->
  grow sizeof alloc_ok adj n construction transfer (mkv xs tl) =
  if alloc_ok (n * sizeof)
  then Ok (mkVec (mkMem new []) (if adj then u64 (Z.of_nat (length xs) + a) else Z.of_nat (length xs)) n) tt
  else Throw (mkv xs tl) bad_alloc.
Proof.
  intros [Hn Hb] Hc Ht Hlen Hl. unfold grow. destruct (Z.leb_spec n max_size); [|lia].
  unfold grow_unchecked. unfold mbind at 1, M_bind at 1, get. rewrite size_mkv.
  unfold mbind at 1, M_bind at 1, allocate_buffer. rewrite wrap_small by nia.
  rewrite Z.div_mul by lia. destruct (alloc_ok (n * sizeof)); [|done].
  unfold modify at 1, set_mem. cbn [vmem vsize vcap blk aux mkv].
  erewrite bind_Ok; [|apply on_mem_Ok, Hc]. erewrite bind_Ok; [|apply on_mem_Ok, Ht].
  unfold mbind at 1, M_bind at 1, destroy_and_deallocate. unfold mbind at 1, M_bind at 1, get.
  replace (size_n (mkVec (mkMem (ls ++ tl') new) (Z.of_nat (length xs)) (Z.of_nat (length xs + length tl))))
    with (length ls) by (unfold size_n; cbn [vsize]; lia).
  erewrite bind_Ok; [|apply on_mem_Ok; by apply (destroy_n_spec ls Blk _ [] tl')].
  by destruct adj.
Qed.

Lemma raws_split k n : (k <= n)%nat -> raws n = raws k ++ raws (n - k).
Proof. intros. rewrite <- replicate_add. f_equal. lia. Qed.

Lemma raws_cons n : (0 < n)%nat -> raws n = Raw :: raws (n - 1).
Proof. destruct n; [lia|]. simpl. by rewrite Nat.sub_0_r. Qed.

(** The transfer that keeps the positions, into a buffer whose first slots are
    raw. *)
Lemma transfer_spec xs tl post :
  make_transfer_without_shift trivial (length xs) (mkMem (vals xs ++ tl) (raws (length xs) ++ post)) =
  Ok (mkMem ((left_slot trivial <$> xs) ++ tl) (vals xs ++ post)) tt.
Proof.
  unfold make_transfer_without_shift.
  apply (move_to_aux trivial xs _ _ [] tl [] (raws (length xs)) post); auto. by rewrite length_replicate.
Qed.

(** The transfer that leaves a gap of [length ys] slots at offset [i]. *)
Lemma transfer_shift_spec i xs ys tl post j :
  (i <= length xs)%nat -> j = (i + length ys)%nat ->
  make_transfer_with_shift_right trivial i j (length xs)
    (mkMem (vals xs ++ tl) (raws i ++ vals ys ++ raws (length xs - i) ++ post)) =
  Ok (mkMem ((left_slot trivial <$> xs) ++ tl)
       (vals (take i xs ++ ys ++ drop i xs) ++ post)) tt.
Proof.
  intros Hi ->. unfold make_transfer_with_shift_right.
  pose proof (take_drop i xs) as Hxs.
  assert (length (take i xs) = i) as Hlt by (rewrite length_take; lia).
  assert (length (drop i xs) = length xs - i)%nat as Hld by (rewrite length_drop; lia).
  revert Hxs Hlt Hld. generalize (take i xs) (drop i xs). intros as_ bs <- Hlt Hld.
  rewrite <- Hld, <- Hlt.
  erewrite bind_Ok; [|apply (move_to_aux trivial as_ _ _ [] (vals bs ++ tl) [] (raws (length as_))
    (vals ys ++ raws (length bs) ++ post)); [shape|done|done|done|len]].
  replace (length (as_ ++ bs) - length as_)%nat with (length bs) by len.
  cbn [app].
  rewrite (move_to_aux trivial bs _ _ (left_slot trivial <$> as_) tl (vals as_ ++ vals ys)
    (raws (length bs)) post); [f_equal; f_equal; shape|shape|shape|len..].
Qed.

(** ** Appending *)

Lemma back_mkv xs x tl : back (mkv (xs ++ [x]) tl) = Ok (mkv (xs ++ [x]) tl) x.
Proof.
  unfold back. unfold mbind at 1, M_bind at 1, get. rewrite size_mkv, length_snoc. cbn [pred].
  apply on_mem_Ok. apply (load_at Blk _ (vals xs) x tl); [shape|len].
Qed.

Lemma calc_growth_spec xs :
  fits (Z.max 1 (2 * Z.of_nat (length xs))) ->
  calc_growth (mkv xs []) = Z.max 1 (2 * Z.of_nat (length xs)).
Proof.
  intros Hf. pose proof (fits_small _ Hf) as Hu. destruct Hf as [Hf _].
  unfold calc_growth, calc_growth_unchecked, MIN_CAPACITY, GROWTH_MULTIPLIER, max_size in *.
  cbn [vcap mkv length]. rewrite Nat.add_0_r.
  destruct (Z.eqb_spec (Z.of_nat (length xs)) (2 ^ 64 - 1 - 1)); [lia|].
  destruct (Z.eqb_spec (Z.of_nat (length xs)) 0); [lia|].
  rewrite wrap_small by lia. lia.
Qed.

(** [emplace_back] in spare capacity, and with a reallocation. *)
Lemma emplace_back_room xs x s tl :
  Z.of_nat (length xs) < 2 ^ 64 - 1 ->
  emplace_back trivial sizeof alloc_ok x (mkv xs (s :: tl)) = Ok (mkv (xs ++ [x]) tl) x.
Proof.
  intros Hn. unfold emplace_back. unfold mbind at 1, M_bind at 1, get. cbn [vsize vcap mkv].
  destruct (Z.eqb_spec (Z.of_nat (length xs)) (Z.of_nat (length xs + length (s :: tl)))) as [Hz|_].
  { simpl in Hz. lia. }
  rewrite <- (back_mkv xs x tl). unfold mbind at 1, M_bind at 1. rewrite size_mkv.
  unfold make_construct_at_helper, construct_at.
  erewrite bind_Ok.
  2: { apply on_mem_Ok. erewrite bind_Ok; [|apply (set_slot_at Blk _ (vals xs) s (Val x) tl); [done|len]].
       reflexivity. }
  unfold modify, set_size, mkv. cbn [vmem vsize vcap]. rewrite wrap_small by lia.
  rewrite length_snoc, fmap_app. simpl. rewrite <- app_assoc. simpl.
  replace (Z.of_nat (length xs) + 1) with (Z.of_nat (S (length xs))) by lia.
  by replace (length xs + S (length tl))%nat with (S (length xs) + length tl)%nat by lia.
Qed.

Lemma emplace_back_grow xs x :
  let n := Z.max 1 (2 * Z.of_nat (length xs)) in
  fits n ->
  emplace_back trivial sizeof alloc_ok x (mkv xs []) =
  if alloc_ok (n * sizeof) then Ok (mkv (xs ++ [x]) (raws (Z.to_nat n - S (length xs)))) x
  else Throw (mkv xs []) bad_alloc.
Proof.
  intros n Hf. unfold emplace_back. unfold mbind at 1, M_bind at 1, get. cbn [vsize vcap mkv].
  destruct (Z.eqb_spec (Z.of_nat (length xs)) (Z.of_nat (length xs + length (@nil (slot T))))) as [_|Hz].
  2: { simpl in Hz. lia. }
  fold (mkv xs []). rewrite calc_growth_spec by done. fold n. rewrite size_mkv.
  pose proof Hf as [Hn _]. unfold max_size in Hn.
  unfold mbind at 1, M_bind at 1.
  erewrite (grow_spec true n _ _ xs [] _ _ (left_slot trivial <$> xs) []).
  2: done.
  2: { unfold make_construct_at_helper, construct_at.
       erewrite bind_Ok; [|eapply (set_slot_at Aux _ (raws (length xs)) Raw (Val x)
         (raws (Z.to_nat n - S (length xs)))); [|len]]; [reflexivity|].
       simpl. rewrite (raws_split (length xs) (Z.to_nat n)), (raws_cons (Z.to_nat n - length xs)) by lia.
       by replace (Z.to_nat n - length xs - 1)%nat with (Z.to_nat n - S (length xs))%nat by lia. }
  2: { apply transfer_spec. }
  2: len.
  2: apply left_live.
  destruct (alloc_ok (n * sizeof)); [|done].
  rewrite <- (back_mkv xs x). unfold mkv. rewrite length_snoc, length_replicate, fmap_app.
  rewrite wrap_small by lia. rewrite <- app_assoc. simpl.
  do 3 f_equal; lia.
Qed.
(** ** Insertion *)

(** Shape of a vector state after its memory and size were updated. *)
Lemma mkv_eq m sz c xs tl :
  m = mkMem (vals xs ++ tl) [] -> sz = Z.of_nat (length xs) -> c = Z.of_nat (length xs + length tl) ->
  mkVec m sz c = mkv xs tl.
Proof. by intros -> -> ->. Qed.

Lemma on_mem_bind {A B} (op : M (mem T) A) (k : A -> M (vec T) B) m sz c m' a :
  op m = Ok m' a -> (on_mem op ≫= k) (mkVec m sz c) = k a (mkVec m' sz c).
Proof. intros Ho. by erewrite bind_Ok by (by apply on_mem_Ok). Qed.

Lemma emplace_room as_ bs x s tl :
  bs <> [] -> Z.of_nat (length (as_ ++ bs)) < 2 ^ 64 - 1 ->
  emplace trivial sizeof alloc_ok (length as_) x (mkv (as_ ++ bs) (s :: tl)) =
  Ok (mkv (as_ ++ x :: bs) tl) (length as_).
Proof.
  intros Hbs Hn. destruct bs as [|z bs _] using rev_ind; [done|].
  unfold emplace. unfold mbind at 1, M_bind at 1, get. rewrite size_mkv.
  rewrite decide_False by len. cbn [vsize vcap mkv].
  destruct (Z.eqb_spec (Z.of_nat (length (as_ ++ bs ++ [z])))
    (Z.of_nat (length (as_ ++ bs ++ [z]) + length (s :: tl)))) as [Hz|_]; [len|].
  unfold mbind at 1, M_bind at 1. unfold mkv.
  erewrite on_mem_bind; [|apply (take_value_at trivial Blk _ (vals (as_ ++ bs)) z (s :: tl)); [shape|len]].
  erewrite on_mem_bind; [|unfold make_construct_at_helper, construct_at; erewrite bind_Ok;
    [|apply (set_slot_at Blk _ (vals (as_ ++ bs) ++ [left_slot trivial z]) s (Val z) tl); [shape|len]];
    reflexivity].
  unfold mbind at 1, M_bind at 1, modify, set_size. cbn [vsize vcap vmem].
  destruct (shift_right_spec trivial bs [] (vals as_) [left_slot trivial z] (Val z :: tl)
    (length as_) (length (as_ ++ bs ++ [z]) - length as_) 1) as (junk & Hr & Hj & Hl); try len.
  { apply (left_live trivial [z]). }
  destruct junk as [|j [|? ?]]; simpl in Hj; try lia. inversion Hl as [|? ? Hl1 _]; subst.
  erewrite on_mem_bind.
  2: { etrans; [|exact Hr]. f_equal. simpl. f_equal. shape. }
  erewrite on_mem_Ok; [|apply (assign_at Blk _ (vals as_) j x (vals bs ++ Val z :: tl)); [shape|done|len]].
  unfold mret, M_ret. f_equal. rewrite wrap_small by len. apply mkv_eq; [|len|len].
  f_equal. shape.
Qed.

Lemma emplace_grow as_ bs x :
  let n := Z.max 1 (2 * Z.of_nat (length (as_ ++ bs))) in
  bs <> [] -> fits n ->
  emplace trivial sizeof alloc_ok (length as_) x (mkv (as_ ++ bs) []) =
  if alloc_ok (n * sizeof)
  then Ok (mkv (as_ ++ x :: bs) (raws (Z.to_nat n - S (length (as_ ++ bs))))) (length as_)
  else Throw (mkv (as_ ++ bs) []) bad_alloc.
Proof.
  intros n Hbs Hf. assert (0 < length bs)%nat by (destruct bs; simpl; [done|lia]).
  assert (length as_ + length bs < Z.to_nat n)%nat by (subst n; len).
  unfold emplace. unfold mbind at 1, M_bind at 1, get. rewrite size_mkv.
  rewrite decide_False by len. cbn [vsize vcap mkv length].
  rewrite Nat.add_0_r, Z.eqb_refl. fold (mkv (as_ ++ bs) []). rewrite calc_growth_spec by done. fold n.
  pose proof Hf as [Hn _]. unfold max_size in Hn.
  unfold mbind at 1, M_bind at 1.
  erewrite (grow_spec true n _ _ (as_ ++ bs) [] _ _ (left_slot trivial <$> (as_ ++ bs)) []).
  2: done.
  2: { unfold make_construct_at_helper, construct_at.
       erewrite bind_Ok; [|eapply (set_slot_at Aux _ (raws (length as_)) Raw (Val x)
         (raws (length bs) ++ raws (Z.to_nat n - S (length (as_ ++ bs))))); [|len]]; [reflexivity|].
       simpl. rewrite (raws_split (length as_) (Z.to_nat n)), (raws_cons (Z.to_nat n - length as_)) by len.
       rewrite (raws_split (length bs) (_ - 1)) by len.
       by replace (Z.to_nat n - length as_ - 1 - length bs)%nat
         with (Z.to_nat n - S (length (as_ ++ bs)))%nat by len. }
  2: { pose proof (transfer_shift_spec (length as_) (as_ ++ bs) [x] []
        (raws (Z.to_nat n - S (length (as_ ++ bs)))) (length as_ + 1)) as Ht.
       replace (length (as_ ++ bs) - length as_)%nat with (length bs) in Ht by len.
       rewrite take_app_length, drop_app_length in Ht. apply Ht; len. }
  2: len.
  2: apply left_live.
  destruct (alloc_ok (n * sizeof)); [|done].
  unfold mret, M_ret. f_equal. rewrite wrap_small by len. apply mkv_eq; [|len|len].
  f_equal.
Qed.

(** Opening a gap of [length ys] live slots inside the used part, when the spare
    capacity is large enough and the gap is not longer than what lies behind
    it. *)
Lemma open_gap_short as_ b1 b2 tl1 tl2 sz c off count :
  length tl1 = length b2 -> off = length as_ -> count = length b2 -> (0 < count)%nat ->
  exists junk, length junk = count /\ Forall (fun s => is_live s = true) junk /\
  (forall (k : M (vec T) unit),
   (on_mem (uninitialized_move_n trivial (Blk, off + length b1)%nat count (Blk, length (as_ ++ b1 ++ b2)));;
    modify (fun v => set_size (u64 (vsize v + Z.of_nat count)) v);;
    on_mem (shift_right trivial (Blk, off) (length (as_ ++ b1 ++ b2) - off) count);; k)
     (mkVec (mkMem (vals (as_ ++ b1 ++ b2) ++ tl1 ++ tl2) []) sz c) =
   k (mkVec (mkMem (vals as_ ++ junk ++ vals (b1 ++ b2) ++ tl2) []) (u64 (sz + Z.of_nat count)) c)).
Proof.
  intros Htl -> -> Hc.
  destruct (shift_right_spec trivial b1 [] (vals as_) (left_slot trivial <$> b2) (vals b2 ++ tl2)
    (length as_) (length (as_ ++ b1 ++ b2) - length as_) (length b2)) as (junk & Hr & Hj & Hl); try len.
  { apply left_live. }
  exists junk. split; [done|]. split; [done|]. intros k.
  erewrite on_mem_bind; [|apply (move_behind trivial b2 [] _ (vals (as_ ++ b1)) [] tl1 tl2); [shape|len..]].
  unfold mbind at 1, M_bind at 1, modify, set_size. cbn [vsize vcap vmem].
  erewrite on_mem_bind; [|etrans; [|exact Hr]; f_equal; f_equal; shape].
  do 2 f_equal. f_equal. shape.
Qed.

Lemma split_list {A} (l : list A) k :
  (k <= length l)%nat -> exists a b, l = a ++ b /\ length a = k /\ length b = (length l - k)%nat.
Proof.
  intros Hk. exists (take k l), (drop k l). by rewrite take_drop, length_take, length_drop, Nat.min_l.
Qed.

(** The gap is at most as long as what lies behind it. *)
Lemma insert_range_short as_ bs src tl1 tl2 :
  length tl1 = length src -> Z.of_nat (length (as_ ++ bs ++ src)) < 2 ^ 64 -> (length src <= length bs)%nat ->
  insert_range_without_grow trivial src (length src) (length as_) (mkv (as_ ++ bs) (tl1 ++ tl2)) =
  Ok (mkv (as_ ++ src ++ bs) tl2) tt.
Proof.
  intros Htl Hn Hle. unfold insert_range_without_grow. unfold mbind at 1, M_bind at 1, get.
  rewrite size_mkv. destruct (Nat.leb_spec (length src) (length (as_ ++ bs) - length as_)); [|len].
  destruct (decide (length src = 0)%nat) as [Hz|Hz].
  { apply length_zero_iff_nil in Hz as ->. destruct tl1; [|done]. simpl.
    unfold mbind, M_bind, modify, set_size, on_mem, mret, M_ret, shift_right, mkv. simpl.
    rewrite wrap_small by len. f_equal. apply mkv_eq; [done|len|len]. }
  destruct (split_list bs (length bs - length src) ltac:(lia)) as (b1 & b2 & -> & H1 & H2).
  destruct (open_gap_short as_ b1 b2 tl1 tl2 (Z.of_nat (length (as_ ++ b1 ++ b2)))
    (Z.of_nat (length (as_ ++ b1 ++ b2) + length (tl1 ++ tl2))) (length as_) (length src))
    as (junk & Hj & Hl & Hrun); try len.
  replace (length as_ + (length (as_ ++ b1 ++ b2) - length as_ - length src))%nat
    with (length as_ + length b1)%nat by len.
  unfold mkv. rewrite Hrun. erewrite on_mem_Ok; [|apply (copy_n_spec (length src) src Blk _ (vals as_) junk
    (vals (b1 ++ b2) ++ tl2)); [done|len|done|lia|done]].
  f_equal. rewrite wrap_small by len. apply mkv_eq; [|len|len].
  rewrite firstn_all. f_equal. shape.
Qed.

(** The gap reaches into raw storage. *)
Lemma insert_range_long as_ bs src tl1 tl2 :
  length tl1 = length src -> Z.of_nat (length (as_ ++ bs ++ src)) < 2 ^ 64 -> (length bs < length src)%nat ->
  insert_range_without_grow trivial src (length src) (length as_) (mkv (as_ ++ bs) (tl1 ++ tl2)) =
  Ok (mkv (as_ ++ src ++ bs) tl2) tt.
Proof.
  intros Htl Hn Hlt. unfold insert_range_without_grow. unfold mbind at 1, M_bind at 1, get.
  rewrite size_mkv. destruct (Nat.leb_spec (length src) (length (as_ ++ bs) - length as_)); [len|].
  destruct (split_list tl1 (length src - length bs) ltac:(lia)) as (t1 & t2 & -> & Ht1 & Ht2).
  destruct (split_list src (length bs) ltac:(lia)) as (s1 & s2 & -> & Hs1 & Hs2).
  replace (length (as_ ++ bs) - length as_)%nat with (length s1) by len.
  rewrite drop_app_length. replace (length (s1 ++ s2) - length s1)%nat with (length s2) by len.
  unfold mkv, make_range_construct_helper.
  erewrite on_mem_bind; [|erewrite bind_Ok; [|apply (uninitialized_copy_n_spec (length s2)
    s2 Blk _ (vals (as_ ++ bs)) t1 (t2 ++ tl2)); [shape|len|len|lia]]; reflexivity].
  unfold mbind at 1, M_bind at 1, modify, set_size. cbn [vsize vcap vmem].
  unfold mbind at 1, M_bind at 1, get. unfold size_n. cbn [vsize].
  rewrite firstn_all, wrap_small, Hs1 by len.
  erewrite on_mem_bind; [|apply (move_behind trivial bs [] _ (vals as_) (vals s2) t2 tl2); [shape|len|len|len]].
  unfold mbind at 1, M_bind at 1, modify, set_size. cbn [vsize vcap vmem].
  erewrite on_mem_Ok; [|apply (copy_n_spec (length bs) (s1 ++ s2) Blk _ (vals as_) (left_slot trivial <$> bs)
    (vals s2 ++ vals bs ++ tl2)); [done|len|len|len|apply left_live]].
  f_equal. rewrite wrap_small by len. apply mkv_eq; [|len|len].
  rewrite <- Hs1, take_app_length. f_equal. shape.
Qed.

Lemma append_range_spec xs src tl1 tl2 :
  length tl1 = length src -> Z.of_nat (length (xs ++ src)) < 2 ^ 64 ->
  append_range_without_grow src (length src) (mkv xs (tl1 ++ tl2)) = Ok (mkv (xs ++ src) tl2) tt.
Proof.
  intros Htl Hn. unfold append_range_without_grow. unfold mbind at 1, M_bind at 1, get. rewrite size_mkv.
  unfold mkv, make_range_construct_helper.
  erewrite on_mem_bind; [|erewrite bind_Ok; [|apply (uninitialized_copy_n_spec (length src)
    src Blk _ (vals xs) tl1 tl2); [done|len|done|lia]]; reflexivity].
  unfold modify, set_size. cbn [vsize vcap vmem]. rewrite firstn_all, wrap_small by len.
  f_equal. apply mkv_eq; [|len|len]. f_equal. shape.
Qed.

(** Reallocation with [ys] constructed at the offset. *)
Lemma grow_insert as_ bs ys tl n construction :
  fits n -> Z.of_nat (length (as_ ++ ys ++ bs)) <= n ->
  (forall blk0 post, construction (mkMem blk0 (raws (length as_) ++ raws (length ys) ++ post)) =
     Ok (mkMem blk0 (raws (length as_) ++ vals ys ++ post)) (Z.of_nat (length ys))) ->
  grow sizeof alloc_ok true n construction
    (make_transfer_with_shift_right trivial (length as_) (length as_ + length ys)) (mkv (as_ ++ bs) tl) =
  if alloc_ok (n * sizeof)
  then Ok (mkv (as_ ++ ys ++ bs) (raws (Z.to_nat n - length (as_ ++ ys ++ bs)))) tt
  else Throw (mkv (as_ ++ bs) tl) bad_alloc.
Proof.
  intros Hf Hn Hc. pose proof Hf as [Hmax _]. unfold max_size in Hmax.
  erewrite (grow_spec true n _ _ (as_ ++ bs) tl _ _ (left_slot trivial <$> (as_ ++ bs)) tl).
  2: done.
  2: { rewrite (raws_split (length as_) (Z.to_nat n)) by len.
       rewrite (raws_split (length ys) (Z.to_nat n - length as_)) by len. apply Hc. }
  2: { rewrite (raws_split (length bs) (Z.to_nat n - length as_ - length ys)) by len.
       pose proof (transfer_shift_spec (length as_) (as_ ++ bs) ys tl
         (raws (Z.to_nat n - length as_ - length ys - length bs)) (length as_ + length ys)) as Ht.
       replace (length (as_ ++ bs) - length as_)%nat with (length bs) in Ht by len.
       rewrite take_app_length, drop_app_length in Ht. apply Ht; len. }
  2: len.
  2: apply left_live.
  destruct (alloc_ok (n * sizeof)); [|done]. f_equal.
  rewrite wrap_small by len. apply mkv_eq; [|len|len]. do 3 f_equal. len.
Qed.

Lemma optimal_growth xs tl required :
  fits (2 * required) -> Z.of_nat (length xs + length tl) < required ->
  exists n, calc_optimal_growth (mkv xs tl) required = n /\ required <= n <= 2 * required /\ fits n.
Proof.
  intros [Hf Hb] Hr. unfold calc_optimal_growth, calc_growth, calc_growth_unchecked,
    MIN_CAPACITY, GROWTH_MULTIPLIER, fits, max_size in *. cbn [vcap mkv].
  set (c := Z.of_nat (length xs + length tl)) in *.
  assert (0 <= c) by lia.
  destruct (Z.eqb_spec c (2 ^ 64 - 1 - 1)); [lia|]. destruct (Z.eqb_spec c 0).
  - eexists. split; [done|]. split; [lia|]. split; [lia|]. nia.
  - rewrite wrap_small by lia. eexists. split; [done|]. split; [lia|]. split; [lia|]. nia.
Qed.

(** [insert(pos, first, last)]: the elements of the range, at the offset; the
    returned iterator points behind the old elements. *)
Lemma insert_range_spec as_ bs src tl :
  let xs := as_ ++ bs in
  let required := Z.of_nat (length (xs ++ src)) in
  fits (2 * required) ->
  strong (insert_range trivial sizeof alloc_ok (length as_) src (mkv xs tl)) (mkv xs tl)
    (fun v r => r = length xs /\ exists tl', v = mkv (as_ ++ src ++ bs) tl' /\
     (length (xs ++ src) + length tl' <= Nat.max (length xs + length tl) (2 * length (xs ++ src)))%nat).
Proof.
  intros xs required Hf. unfold insert_range. unfold mbind at 1, M_bind at 1, get. rewrite size_mkv.
  cbn [vsize vcap mkv]. pose proof Hf as [Hmax _]. unfold max_size in Hmax.
  replace (u64 (Z.of_nat (length xs) + Z.of_nat (length src))) with required.
  2: { rewrite wrap_small; subst required; len. }
  fold (mkv xs tl). destruct (Z.ltb_spec (Z.of_nat (length xs + length tl)) required) as [Hlt|Hge].
  - destruct (optimal_growth xs tl required Hf Hlt) as (n & Hgn & Hn & Hfn). rewrite Hgn.
    unfold mbind, M_bind. rewrite (grow_insert as_ bs src tl n).
    + destruct (alloc_ok (n * sizeof)); [|by split; [|left]]. split; [done|]. eexists. split; [done|].
      subst required xs. rewrite length_replicate. len.
    + done.
    + subst required xs. len.
    + intros blk0 post. unfold make_range_construct_helper.
      erewrite bind_Ok; [|apply (uninitialized_copy_n_spec (length src) src Aux _ (raws (length as_))
        (raws (length src)) post); [done|len|len|lia]].
      by rewrite firstn_all.
  - destruct (split_list tl (length src)) as (tl1 & tl2 & -> & Ht1 & Ht2).
    { subst required xs. len. }
    assert (length (xs ++ src) + length tl2 <=
      Nat.max (length xs + length (tl1 ++ tl2)) (2 * length (xs ++ src)))%nat as Hb by (subst xs required; len).
    destruct (decide (length as_ = length xs)) as [Hd|Hd].
    + assert (bs = []) as ->. { apply length_zero_iff_nil. subst xs. len. }
      subst xs. rewrite app_nil_r in *. unfold mbind, M_bind.
      rewrite append_range_spec by (auto; subst required; len).
      split; [done|]. exists tl2. by rewrite app_nil_r.
    + unfold mbind, M_bind. subst xs.
      destruct (Nat.le_gt_cases (length src) (length bs)).
      * rewrite insert_range_short by (auto; subst required; len). split; [done|]. by exists tl2.
      * rewrite insert_range_long by (auto; subst required; len). split; [done|]. by exists tl2.
Qed.

(** ** Removal *)

Lemma pop_back_spec xs x tl :
  Z.of_nat (length (xs ++ [x])) < 2 ^ 64 ->
  pop_back (mkv (xs ++ [x]) tl) = Ok (mkv xs (Raw :: tl)) tt.
Proof.
  intros Hn. unfold pop_back. unfold mbind at 1, M_bind at 1, get. rewrite size_mkv, length_snoc. cbn [pred].
  unfold mkv. erewrite on_mem_bind; [|apply (destroy_at_at Blk _ (vals xs) (Val x) tl); [shape|done|len]].
  unfold modify, set_size. cbn [vsize vcap vmem]. rewrite length_snoc in *.
  rewrite wrap_small by lia. f_equal. apply mkv_eq; [done|lia|simpl; lia].
Qed.

Lemma clear_spec xs tl : clear (mkv xs tl) = Ok (mkv [] (raws (length xs) ++ tl)) tt.
Proof.
  unfold clear. unfold mbind at 1, M_bind at 1, get. rewrite size_mkv. unfold mkv.
  erewrite on_mem_bind; [|apply (destroy_n_spec (vals xs) Blk _ [] tl); [done|done|len|apply vals_live]].
  unfold modify, set_size. cbn [vsize vcap vmem]. f_equal. apply mkv_eq; [done|done|len].
Qed.

(** Erasure keeps the other elements in order; the storage of the erased ones
    still holds objects. *)
Lemma erase_impl_spec as_ ms bs tl :
  ms <> [] -> Z.of_nat (length (as_ ++ ms ++ bs)) < 2 ^ 64 ->
  exists junk, erase_impl trivial (length as_) (length ms) (mkv (as_ ++ ms ++ bs) tl) =
    Ok (mkv (as_ ++ bs) (junk ++ tl)) (length as_) /\ length junk = length ms /\
    Forall (fun s => is_live s = true) junk.
Proof.
  intros Hms Hn. assert (0 < length ms)%nat by (destruct ms; simpl; [done|lia]).
  destruct (shift_left_spec trivial bs [] (vals as_) (vals ms) tl (length as_)
    (length (as_ ++ ms ++ bs) - length as_) (length ms)) as (junk & Hr & Hj & Hl); try len.
  { apply vals_live. }
  exists junk. split; [|done]. unfold erase_impl. unfold mbind at 1, M_bind at 1, get. rewrite size_mkv.
  unfold mkv. erewrite on_mem_bind; [|etrans; [|exact Hr]; f_equal; f_equal; shape].
  unfold mbind, M_bind, modify, set_size. cbn [vsize vcap vmem]. unfold mret, M_ret. f_equal.
  rewrite wrap_small by len. apply mkv_eq; [|len|len]. f_equal. shape.
Qed.

(** ** Capacity and size *)

Lemma realloc_spec xs tl n (construction : M (mem T) Z) a :
  fits n -> Z.of_nat (length xs) <= n ->
  (forall m, construction m = Ok m a) ->
  grow sizeof alloc_ok false n construction (make_transfer_without_shift trivial) (mkv xs tl) =
  if alloc_ok (n * sizeof) then Ok (mkv xs (raws (Z.to_nat n - length xs))) tt
  else Throw (mkv xs tl) bad_alloc.
Proof.
  intros Hf Hn Hc. erewrite (grow_spec false n _ _ xs tl _ _ (left_slot trivial <$> xs) tl).
  2: done.
  2: apply Hc.
  2: { rewrite (raws_split (length xs) (Z.to_nat n)) by lia. apply transfer_spec. }
  2: len.
  2: apply left_live.
  destruct (alloc_ok (n * sizeof)); [|done]. f_equal. apply mkv_eq; [done|done|len].
Qed.

Lemma reserve_spec xs tl c :
  fits c ->
  strong (reserve trivial sizeof alloc_ok c (mkv xs tl)) (mkv xs tl) (fun v _ =>
    exists tl', v = mkv xs tl' /\ c <= Z.of_nat (length xs + length tl') /\
      Z.of_nat (length xs + length tl') = Z.max c (Z.of_nat (length xs + length tl))).
Proof.
  intros Hf. unfold reserve. unfold mbind at 1, M_bind at 1, get. cbn [vsize vcap mkv]. fold (mkv xs tl).
  destruct (Z.ltb_spec (Z.of_nat (length xs + length tl)) c) as [Hlt|Hge].
  - erewrite realloc_spec; [|done|lia|done]. destruct (alloc_ok (c * sizeof)); [|by split; [|left]].
    eexists. split; [done|]. len.
  - exists tl. split; [done|]. lia.
Qed.

Lemma shrink_to_fit_spec xs tl :
  fits (Z.of_nat (length xs)) ->
  strong (shrink_to_fit trivial sizeof alloc_ok (mkv xs tl)) (mkv xs tl) (fun v _ => v = mkv xs []).
Proof.
  intros Hf. unfold shrink_to_fit. unfold mbind at 1, M_bind at 1, get. cbn [vsize vcap mkv]. fold (mkv xs tl).
  destruct (Z.ltb_spec (Z.of_nat (length xs)) (Z.of_nat (length xs + length tl))) as [Hlt|Hge].
  - erewrite realloc_spec; [|done|lia|done]. destruct (alloc_ok (Z.of_nat (length xs) * sizeof)); [|by split; [|left]].
    simpl. by replace (Z.to_nat (Z.of_nat (length xs)) - length xs)%nat with 0%nat by lia.
  - destruct tl; [done|simpl in Hge; lia].
Qed.

(** [resize]: shrinking destroys the tail, growing constructs [x] behind the old
    elements. *)
Lemma resize_fill_spec xs tl n x :
  fits n ->
  strong (resize_fill trivial sizeof alloc_ok n x (mkv xs tl)) (mkv xs tl) (fun v _ =>
    exists tl', v = mkv (take (Z.to_nat n) xs ++ replicate (Z.to_nat n - length xs) x) tl' /\
      n + Z.of_nat (length tl') = Z.max n (Z.of_nat (length xs + length tl))).
Proof.
  intros Hf. pose proof Hf as [Hn _]. unfold max_size in Hn.
  unfold resize_fill. unfold mbind at 1, M_bind at 1, get. unfold resize_impl.
  unfold mbind at 1, M_bind at 1, get. cbn [vsize vcap mkv]. rewrite ?size_mkv.
  destruct (Z.ltb_spec n (Z.of_nat (length xs))) as [Hlt|Hge];
    [|destruct (Z.ltb_spec (Z.of_nat (length xs)) n) as [Hgt|Heq];
      [destruct (Z.leb_spec n (Z.of_nat (length xs + length tl))) as [Hcap|Hcap]|]].
  - destruct (split_list xs (Z.to_nat n) ltac:(lia)) as (as_ & bs & -> & Ha & Hb).
    replace (Z.to_nat (Z.of_nat (length (as_ ++ bs)) - n)) with (length bs) by len.
    unfold mkv. erewrite on_mem_bind; [|apply (destroy_n_spec (vals bs) Blk _ (vals as_) tl);
      [shape|len|len|apply vals_live]].
    unfold modify, set_size. cbn [vsize vcap vmem]. exists (raws (length bs) ++ tl).
    rewrite <- Ha, take_app_length. replace (length as_ - length (as_ ++ bs))%nat with 0%nat by len.
    simpl. rewrite app_nil_r. split; [|len]. apply mkv_eq; [done|lia|len].
  - destruct (split_list tl (Z.to_nat n - length xs) ltac:(lia)) as (t1 & t2 & -> & Ht1 & Ht2).
    rewrite wrap_small by lia. unfold mkv, make_construct_fill_helper.
    unfold mbind at 1, M_bind at 1.
    erewrite on_mem_bind; [|erewrite bind_Ok; [|apply (uninitialized_fill_n_spec _ x Blk _ (vals xs) t1 t2);
      [done|len|len]]; reflexivity].
    unfold mret, M_ret, modify, set_size. cbn [vsize vcap vmem]. exists t2.
    rewrite firstn_all2 by lia. split; [|len]. apply mkv_eq; [|len|len].
    replace (Z.to_nat (n - Z.of_nat (length xs))) with (Z.to_nat n - length xs)%nat by lia.
    rewrite fmap_app, fmap_replicate, <- app_assoc. done.
  - rewrite wrap_small by lia. unfold mbind at 1, M_bind at 1.
    erewrite (grow_spec false n _ _ xs tl _ _ (left_slot trivial <$> xs) tl).
    2: done.
    2: { unfold make_construct_fill_helper. erewrite bind_Ok; [reflexivity|].
         apply (uninitialized_fill_n_spec _ x Aux _ (raws (length xs))
           (raws (Z.to_nat (n - Z.of_nat (length xs)))) []); [|len|len].
         rewrite app_nil_r. simpl. rewrite (raws_split (length xs) (Z.to_nat n)) by lia.
         do 2 f_equal. lia. }
    2: { rewrite app_nil_r. apply transfer_spec. }
    2: len.
    2: apply left_live.
    destruct (alloc_ok (n * sizeof)); [|by split; [|left]].
    unfold modify, set_size. cbn [vsize vcap vmem]. exists [].
    rewrite firstn_all2 by lia. split; [|len]. apply mkv_eq; [|len|len].
    replace (Z.to_nat (n - Z.of_nat (length xs))) with (Z.to_nat n - length xs)%nat by lia.
    by rewrite app_nil_r, fmap_app, fmap_replicate.
  - rewrite ret_bind. unfold modify, set_size. cbn [vsize vcap vmem]. exists tl.
    replace (Z.to_nat n - length xs)%nat with 0%nat by lia. rewrite firstn_all2 by lia.
    simpl. rewrite app_nil_r. split; [|lia]. apply mkv_eq; [done|lia|lia].
Qed.

(** ** Insertion of copies

    [insert(pos, count, value)] in front of an element is the insertion of a
    range of [count] copies, for element types whose [fill_n] assigns in a loop. *)

Lemma uninitialized_fill_as_copy n k x p (m : mem T) :
  (n <= k)%nat -> uninitialized_fill_n p n x m = uninitialized_copy_n (replicate k x) n p m.
Proof.
  revert k p m. induction n as [|n IH]; intros k p m Hk; [done|]. destruct k as [|k]; [lia|].
  cbn [uninitialized_fill_n uninitialized_copy_n replicate head tail access]. rewrite ret_bind.
  unfold mbind, M_bind. destruct (construct_at p x m); try done. apply IH. lia.
Qed.

Lemma fill_loop_as_copy n k x p (m : mem T) :
  (n <= k)%nat -> fill_loop p n x m = copy_n (replicate k x) n p m.
Proof.
  revert k p m. induction n as [|n IH]; intros k p m Hk; [done|]. destruct k as [|k]; [lia|].
  cbn [fill_loop copy_n replicate head tail access]. rewrite ret_bind.
  unfold mbind, M_bind. destruct (assign p x m); try done. apply IH. lia.
Qed.

Lemma fill_n_as_copy n k x p (m : mem T) :
  is_memset_safe lay x = false -> (n <= k)%nat ->
  fill_n lay p n x m = copy_n (replicate k x) n p m.
Proof.
  intros Hs Hk. unfold fill_n. rewrite Hs. case_decide; [by subst|]. by apply fill_loop_as_copy.
Qed.

Lemma bind_ext {S A B} (m : M S A) (k k' : A -> M S B) s :
  (forall a s', k a s' = k' a s') -> (m ≫= k) s = (m ≫= k') s.
Proof. intros Hk. unfold mbind, M_bind. destruct (m s); auto. Qed.

Lemma bind_ext_l {S A B} (m m' : M S A) (k : A -> M S B) s :
  m s = m' s -> (m ≫= k) s = (m' ≫= k) s.
Proof. intros Hm. unfold mbind, M_bind. by rewrite Hm. Qed.

Lemma on_mem_ext {A} (op op' : M (mem T) A) v :
  (forall m, op m = op' m) -> on_mem op v = on_mem op' v.
Proof. intros Ho. unfold on_mem. by rewrite Ho. Qed.

Lemma construct_fill_as_range b pos x n k (m : mem T) :
  (n <= k)%nat ->
  make_construct_fill_helper b pos x (Z.of_nat n) m = make_range_construct_helper b pos (replicate k x) n m.
Proof.
  intros Hk. unfold make_construct_fill_helper, make_range_construct_helper. rewrite Nat2Z.id.
  apply bind_ext_l. by apply uninitialized_fill_as_copy.
Qed.

Lemma insert_n_without_grow_as_range count x off v :
  is_memset_safe lay x = false ->
  insert_n_without_grow trivial lay count x off v =
  insert_range_without_grow trivial (replicate count x) count off v.
Proof.
  intros Hs. unfold insert_n_without_grow, insert_range_without_grow. apply bind_ext. intros v0 v1.
  destruct (Nat.leb_spec count (size_n v0 - off)).
  - do 3 (apply bind_ext; intros). apply on_mem_ext. intros m. by apply fill_n_as_copy.
  - rewrite drop_replicate.
    etrans; [apply bind_ext_l, on_mem_ext; intros m; by apply construct_fill_as_range|].
    do 4 (apply bind_ext; intros). apply on_mem_ext. intros m. apply fill_n_as_copy; [done|lia].
Qed.

Lemma grow_ext adj n (c c' : M (mem T) Z) tr v :
  (forall m, c m = c' m) ->
  grow sizeof alloc_ok adj n c tr v = grow sizeof alloc_ok adj n c' tr v.
Proof.
  intros Hc. unfold grow, grow_unchecked. destruct (n <=? max_size); [|done].
  do 2 (apply bind_ext; intros). apply bind_ext_l. by apply on_mem_ext.
Qed.

Lemma insert_n_as_range as_size of_size off n x v :
  is_memset_safe lay x = false -> off <> size_n v ->
  insert_n trivial lay sizeof alloc_ok as_size of_size off (Z.of_nat n) x v =
  insert_range trivial sizeof alloc_ok off (replicate n x) v.
Proof.
  intros Hs Hoff. unfold insert_n, insert_range. unfold mbind at 1, M_bind at 1, get.
  unfold mbind at 2, M_bind at 2, get. rewrite length_replicate, Nat2Z.id.
  apply bind_ext_l. destruct (vcap v <? _).
  - apply grow_ext. intros m. by apply construct_fill_as_range.
  - rewrite !decide_False by done. by apply insert_n_without_grow_as_range.
Qed.

End spec.
