(* ===== verification/VectorTheorems.v ===== *)
(** * Theorems about the vector

    The contract of a sequence container as a function on lists, the vector as
    an implementation of it, the strong exception guarantee, and the cases in
    which the code does not do what its interface promises. *)
From Stdlib Require Import ZArith Lia.
From stdpp Require Import base list gmap numbers.
From S2P Require Import Prelude Refinement Memory MemorySpec Vector VectorSpec.
#[local] Open Scope Z_scope.

(** ** The contract *)

Inductive list_op (T : Type) :=
  | PushBack (x : T)
  | PopBack
  | Emplace (i : nat) (x : T)
  | InsertRange (i : nat) (src : list T)
  | InsertCopies (i n : nat) (x : T)
  | EraseRange (i j : nat)
  | Resize (n : nat) (x : T)
  | Reserve (c : Z)
  | ShrinkToFit
  | Clear
  | At (i : nat)
  | Back.
Arguments PushBack {T}. Arguments PopBack {T}. Arguments Emplace {T}. Arguments InsertRange {T}.
Arguments InsertCopies {T}. Arguments EraseRange {T}. Arguments Resize {T}. Arguments Reserve {T}.
Arguments ShrinkToFit {T}. Arguments Clear {T}. Arguments At {T}. Arguments Back {T}.

Inductive list_result (T : Type) := LUnit | LVal (x : T) | LPos (n : nat) | LOutOfRange.
Arguments LUnit {T}. Arguments LVal {T}. Arguments LPos {T}. Arguments LOutOfRange {T}.

Section contract.
Context {T : Type}.

Definition list_step (o : list_op T) (xs : list T) : list T * list_result T :=
  match o with
  | PushBack x => (xs ++ [x], LVal x)
  | PopBack => (take (pred (length xs)) xs, LUnit)
  | Emplace i x => (take i xs ++ x :: drop i xs, LPos i)
  | InsertRange i src => (take i xs ++ src ++ drop i xs, LPos (length xs))
  | InsertCopies i n x => (take i xs ++ replicate n x ++ drop i xs, LPos (length xs))
  | EraseRange i j => (take i xs ++ drop j xs, LPos i)
  | Resize n x => (take n xs ++ replicate (n - length xs) x, LUnit)
  | Reserve _ | ShrinkToFit => (xs, LUnit)
  | Clear => ([], LUnit)
  | At i => (xs, match xs !! i with Some x => LVal x | None => LOutOfRange end)
  | Back => (xs, match xs !! pred (length xs) with Some x => LVal x | None => LUnit end)
  end.

(** Positions inside the sequence and at most [limit] elements.  Several copies of a value are
    inserted in front of an element, not at the end, where [insert_at_end_swaps_arguments]
    holds, and are not copies that [fill_n] writes with [memset], for which
    [insert_zeros_wrong] does. *)
Definition list_ok (memset_safe : T -> bool) (limit : Z) (o : list_op T) (xs : list T) : Prop :=
  match o with
  | PushBack _ => Z.of_nat (length xs) < limit
  | PopBack | Back => (0 < length xs)%nat
  | Emplace i _ => (i <= length xs)%nat /\ Z.of_nat (length xs) < limit
  | InsertRange i src => (i <= length xs)%nat /\ Z.of_nat (length xs + length src) <= limit
  | InsertCopies i n x => (i < length xs)%nat /\ Z.of_nat (length xs + n) <= limit /\ memset_safe x = false
  | EraseRange i j => (i <= j <= length xs)%nat
  | Resize n _ => Z.of_nat n <= limit
  | Reserve c => 0 <= c <= limit
  | ShrinkToFit | Clear => True
  | At i => Z.of_nat i < limit
  end.

#[global] Instance list_ok_dec f limit o xs : Decision (list_ok f limit o xs).
Proof. destruct o; simpl; apply _. Defined.

End contract.

(** ** The vector as an implementation *)

Section implementation.
Context {T : Type} (trivial : bool) (lay : layout_of T).
Context (sizeof : Z) (alloc_ok : Z -> bool).
Context (as_size : T -> Z) (of_size : Z -> T).

Definition catch_out_of_range (m : M (vec T) T) : M (vec T) (list_result T) := fun v =>
  match m v with
  | Ok v' x => Ok v' (LVal x)
  | Throw v' out_of_range => Ok v' LOutOfRange
  | Throw v' e => Throw v' e
  | Fault => Fault
  | Diverge => Diverge
  end.

Definition vec_step (o : list_op T) : M (vec T) (list_result T) :=
  match o with
  | PushBack x => y ← emplace_back trivial sizeof alloc_ok x; mret (LVal y)
  | PopBack => pop_back;; mret LUnit
  | Emplace i x => p ← emplace trivial sizeof alloc_ok i x; mret (LPos p)
  | InsertRange i src => p ← insert_range trivial sizeof alloc_ok i src; mret (LPos p)
  | InsertCopies i n x =>
      p ← insert_n trivial lay sizeof alloc_ok as_size of_size i (Z.of_nat n) x; mret (LPos p)
  | EraseRange i j => p ← erase_range trivial i j; mret (LPos p)
  | Resize n x => resize_fill trivial sizeof alloc_ok (Z.of_nat n) x;; mret LUnit
  | Reserve c => reserve trivial sizeof alloc_ok c;; mret LUnit
  | ShrinkToFit => shrink_to_fit trivial sizeof alloc_ok;; mret LUnit
  | Clear => clear;; mret LUnit
  | At i => catch_out_of_range (at_index (Z.of_nat i))
  | Back => x ← back; mret (LVal x)
  end.

Context (sizeof_pos : 0 < sizeof) (limit : Z) (limit_fits : fits sizeof (2 * limit)) (limit_pos : 1 <= limit).

Definition holds (v : vec T) (xs : list T) : Prop :=
  exists tl, v = mkv xs tl /\ Z.of_nat (length xs) <= limit /\
    Z.of_nat (length xs + length tl) <= 2 * limit.

Lemma fits_below n : 0 <= n <= 2 * limit -> fits sizeof n.
Proof. destruct limit_fits. unfold fits. nia. Qed.

Lemma limit_small : 2 * limit < 2 ^ 64 - 1.
Proof. destruct limit_fits as [Hl _]. unfold max_size in Hl. lia. Qed.

(** Throwing leaves the vector as it was. *)
Lemma strong_post {A B} (op : M (vec T) A) (k : A -> M (vec T) B) v Q P :
  strong (op v) v Q -> (forall v' a, Q v' a -> strong (k a v') v P) -> strong ((op ≫= k) v) v P.
Proof. unfold mbind, M_bind. destruct (op v); simpl; auto. Qed.

Lemma push_back_step xs tl x :
  Z.of_nat (length xs) < limit -> Z.of_nat (length xs + length tl) <= 2 * limit ->
  strong (emplace_back trivial sizeof alloc_ok x (mkv xs tl)) (mkv xs tl)
    (fun v r => holds v (xs ++ [x]) /\ r = x).
Proof.
  intros Hn Hc. pose proof limit_small. destruct tl as [|s tl].
  - rewrite emplace_back_grow by (auto; apply fits_below; lia).
    destruct (alloc_ok _); [|by split; [|left]]. split; [|done]. eexists. split; [done|].
    rewrite length_snoc, length_replicate. lia.
  - rewrite emplace_back_room by lia. split; [|done]. exists tl. split; [done|].
    rewrite length_snoc. simpl in Hc. lia.
Qed.

Lemma emplace_step xs tl i x :
  (i <= length xs)%nat -> Z.of_nat (length xs) < limit -> Z.of_nat (length xs + length tl) <= 2 * limit ->
  strong (emplace trivial sizeof alloc_ok i x (mkv xs tl)) (mkv xs tl)
    (fun v r => holds v (take i xs ++ x :: drop i xs) /\ r = i).
Proof.
  intros Hi Hn Hc. pose proof limit_small.
  destruct (split_list xs i Hi) as (as_ & bs & -> & <- & Hb). rewrite take_app_length, drop_app_length.
  destruct (decide (bs = [])) as [->|Hbs].
  - rewrite app_nil_r in *. unfold emplace. unfold mbind at 1, M_bind at 1, get.
    rewrite size_mkv, decide_True by done. eapply strong_post; [by apply push_back_step|].
    intros v' y [(tl' & -> & Hl & Hc') ->]. unfold mbind, M_bind, get, mret, M_ret.
    rewrite size_mkv, length_snoc. split; [|done]. by exists tl'.
  - assert (0 < length bs)%nat by (destruct bs; simpl; [done|lia]).
    destruct tl as [|s tl].
    + rewrite emplace_grow by (auto; apply fits_below; lia).
      destruct (alloc_ok _); [|by split; [|left]]. split; [|done]. eexists. split; [done|]. len.
    + rewrite emplace_room by (auto; len). split; [|done]. exists tl. split; [done|]. len.
Qed.

Lemma insert_range_step xs tl i src :
  (i <= length xs)%nat -> Z.of_nat (length xs + length src) <= limit ->
  Z.of_nat (length xs + length tl) <= 2 * limit ->
  strong (insert_range trivial sizeof alloc_ok i src (mkv xs tl)) (mkv xs tl)
    (fun v r => holds v (take i xs ++ src ++ drop i xs) /\ r = length xs).
Proof.
  intros Hi Hn Hc. destruct (split_list xs i Hi) as (as_ & bs & -> & <- & Hb).
  rewrite take_app_length, drop_app_length.
  pose proof (insert_range_spec trivial sizeof sizeof_pos alloc_ok as_ bs src tl) as Hs. cbv zeta in Hs.
  specialize (Hs ltac:(apply fits_below; len)).
  destruct (insert_range _ _ _ _ _ _) as [v r|v e| |]; simpl in *; auto.
  destruct Hs as (-> & tl' & -> & Hb'). split; [|done]. exists tl'. split; [done|]. len.
Qed.

Lemma vec_step_strong o v xs :
  holds v xs -> list_ok (is_memset_safe lay) limit o xs ->
  strong (vec_step o v) v (fun v' r => holds v' (list_step o xs).1 /\ r = (list_step o xs).2).
Proof.
  intros (tl & -> & Hlen & Hcap) Ho. pose proof limit_small.
  destruct o as [x| |i x|i src|i n x|i j|n x|c| | |i|]; cbn [vec_step list_step list_ok fst snd] in *.
  - eapply strong_post; [by apply push_back_step|]. by intros v' r [? ->].
  - destruct xs as [|x xs _] using rev_ind; [simpl in *; lia|].
    unfold mbind, M_bind. rewrite pop_back_spec by lia. split; [|done].
    rewrite length_snoc in *. cbn [pred]. rewrite take_app_length. exists (Raw :: tl).
    split; [done|]. simpl. lia.
  - destruct Ho as [Hi Hn]. eapply strong_post; [by apply emplace_step|]. by intros v' r [? ->].
  - destruct Ho as [Hi Hn]. eapply strong_post; [by apply insert_range_step|]. by intros v' r [? ->].
  - destruct Ho as (Hi & Hn & Hs). unfold mbind, M_bind.
    rewrite insert_n_as_range by (rewrite ?size_mkv; auto; lia).
    pose proof (insert_range_step xs tl i (replicate n x)) as Hr. rewrite length_replicate in Hr.
    specialize (Hr ltac:(lia) Hn Hcap). destruct (insert_range _ _ _ _ _ _) as [v r|v e| |]; simpl in *; auto.
    by destruct Hr as [? ->].
  - unfold erase_range, mbind, M_bind. destruct (decide (i = j)) as [->|Hij].
    + split; [|done]. rewrite take_drop. by exists tl.
    + destruct (split_list xs i ltac:(lia)) as (as_ & r & -> & <- & Hr). rewrite length_app in *.
      destruct (split_list r (j - length as_) ltac:(lia)) as (ms & bs & -> & Hm & Hb).
      rewrite <- Hm. destruct (erase_impl_spec trivial as_ ms bs tl) as (junk & -> & Hj & _).
      * intros ->. simpl in *. lia.
      * len.
      * split; [|done]. rewrite take_app_length. replace j with (length (as_ ++ ms)) by len.
        rewrite (app_assoc as_ ms), drop_app_length. exists (junk ++ tl). split; [done|len].
  - eapply strong_post; [apply resize_fill_spec; auto; apply fits_below; lia|].
    intros v' _ (tl' & -> & Ht). rewrite Nat2Z.id in *. split; [|done]. exists tl'. split; [done|].
    rewrite length_app, length_take, length_replicate. lia.
  - eapply strong_post; [apply reserve_spec; auto; apply fits_below; lia|].
    intros v' _ (tl' & -> & _ & Ht). split; [|done]. exists tl'. split; [done|]. lia.
  - eapply strong_post; [apply shrink_to_fit_spec; auto; apply fits_below; lia|].
    intros v' _ ->. split; [|done]. exists []. split; [done|]. simpl. lia.
  - unfold mbind, M_bind. rewrite clear_spec. split; [|done]. eexists. split; [done|]. len.
  - unfold catch_out_of_range, at_index. unfold mbind, M_bind, get. cbn [vsize mkv].
    destruct (Z.ltb_spec (Z.of_nat i) (Z.of_nat (length xs))) as [Hi|Hi].
    + destruct (split_list xs i ltac:(lia)) as (as_ & bs & -> & <- & Hb).
      destruct bs as [|x bs]; [simpl in Hb; rewrite app_nil_r in *; lia|].
      rewrite list_lookup_middle by done. unfold mkv. rewrite Nat2Z.id.
      erewrite on_mem_Ok; [|apply (load_at Blk _ (Val <$> as_) x ((Val <$> bs) ++ tl)); [shape|len]].
      split; [|done]. exists tl. done.
    + rewrite lookup_ge_None_2 by lia. split; [|done]. by exists tl.
  - destruct xs as [|x xs _] using rev_ind; [simpl in *; lia|].
    unfold mbind, M_bind. rewrite back_mkv, length_snoc. cbn [pred]. rewrite list_lookup_middle by done.
    split; [|done]. by exists tl.
Qed.

Lemma vec_step_refines o v xs :
  holds v xs -> list_ok (is_memset_safe lay) limit o xs ->
  post (vec_step o v) (fun v' r => holds v' (list_step o xs).1 /\ r = (list_step o xs).2).
Proof.
  intros Hv Ho. pose proof (vec_step_strong o v xs Hv Ho) as Hs. by destruct (vec_step o v).
Qed.

#[export] Instance vector_impl : Implements vec_step list_step := {|
  represents := holds;
  supported := list_ok (is_memset_safe lay) limit;
  implements_step := vec_step_refines;
|}.

End implementation.

(** ** Properties *)

(** A 4-byte unsigned element type: [fill_n] writes zero with [memset]. *)
Definition uint32_layout : layout_of Z := {|
  sizeof_T := 4;
  to_bytes := le_bytes 4;
  of_bytes := le_word;
  is_memset_safe := fun x => x =? 0;
|}.
Definition vector_alloc (bytes : Z) : bool := true.

(** C2: a sequence of operations on a vector, among [push_back], [pop_back], [emplace],
    insertion of a range, insertion of copies, [erase] of a range, [resize], [reserve],
    [shrink_to_fit], [clear], [at] and [back], has the results and the final elements of the
    same sequence on a list, or ends with an exception; no operation leaves the buffer, reads
    raw storage or destroys an object twice, and every loop terminates.  Both insertions return
    the position of the old end, wherever they insert.  The limits: constructors of elements
    do not throw, positions lie in the sequence, sizes stay below a limit that the address space
    allows, and copies of one value are inserted in front of an element and are of a value that
    [fill_n] does not write with [memset] (at the end the code swaps the arguments, and
    [memset] is given the number of elements as a number of bytes). *)
Theorem vector_refines_list {T} trivial (lay : layout_of T) sizeof alloc_ok as_size of_size limit
    (os : list (list_op T)) xs :
  0 < sizeof -> fits sizeof (2 * limit) -> 1 <= limit -> Z.of_nat (length xs) <= limit ->
  supported_run (list_ok (is_memset_safe lay) limit) list_step os xs ->
  post (run_ops (vec_step trivial lay sizeof alloc_ok as_size of_size) os (mkv xs [])) (fun v' rs =>
    exists tl, v' = mkv (run_spec list_step os xs).1 tl /\ rs = (run_spec list_step os xs).2).
Proof.
  intros Hs Hf Hl Hn Hok.
  pose (I := vector_impl trivial lay sizeof alloc_ok as_size of_size Hs limit Hf Hl).
  eapply post_mono; [apply (run_ops_refines (H := I)); [|exact Hok]|].
  - exists []. split; [done|]. simpl. lia.
  - intros v' rs [(tl & -> & _) ->]. by exists tl.
Qed.

Definition vector_demo : list (list_op Z) :=
  [PushBack 1; PushBack 2; PushBack 3; Emplace 1 9; InsertRange 2 [7; 8]; InsertCopies 1 2 5;
   EraseRange 0 2; PopBack; Resize 8 4; At 7; At 8; ShrinkToFit; Reserve 20; Back].

Lemma vector_refines_list_witness :
  run_spec list_step vector_demo [] =
    ([5; 9; 7; 8; 2; 4; 4; 4],
     [LVal 1; LVal 2; LVal 3; LPos 1; LPos 4; LPos 6; LPos 0; LUnit; LUnit; LVal 4; LOutOfRange;
      LUnit; LUnit; LVal 4]) /\
  post (run_ops (vec_step false uint32_layout 4 vector_alloc id id) vector_demo (mkv [] [])) (fun v rs =>
    exists tl, v = mkv [5; 9; 7; 8; 2; 4; 4; 4] tl /\ length rs = 14%nat).
Proof.
  split; [by vm_compute|].
  eapply post_mono; [apply (vector_refines_list false uint32_layout 4 vector_alloc id id 100 vector_demo [])|].
  - lia.
  - by split.
  - lia.
  - simpl. lia.
  - apply (bool_decide_unpack _). by vm_compute.
  - intros v rs (tl & -> & ->). by exists tl.
Defined.

(** C24: the operations of [list_op] (those of [vector_refines_list], under its limits: range
    and copy assignment are not among them) have the strong exception guarantee when the
    constructors of the elements do not throw: one that ends with an exception leaves the
    vector exactly as it was, storage included, and the exception is [bad_alloc] or
    [length_error].  The [out_of_range] of [at] is a result here. *)
Theorem vector_strong_guarantee {T} trivial (lay : layout_of T) sizeof alloc_ok as_size of_size limit
    (o : list_op T) xs tl v' e :
  0 < sizeof -> fits sizeof (2 * limit) -> 1 <= limit ->
  Z.of_nat (length xs) <= limit -> Z.of_nat (length xs + length tl) <= 2 * limit ->
  list_ok (is_memset_safe lay) limit o xs ->
  vec_step trivial lay sizeof alloc_ok as_size of_size o (mkv xs tl) = Throw v' e ->
  v' = mkv xs tl /\ (e = bad_alloc \/ e = length_error).
Proof.
  intros Hs Hf Hl Hn Hc Hok Ht.
  pose proof (vec_step_strong trivial lay sizeof alloc_ok as_size of_size Hs limit Hf Hl o (mkv xs tl) xs) as Hst.
  rewrite Ht in Hst. apply Hst; [|done]. by exists tl.
Qed.

Lemma vector_strong_guarantee_witness :
  exists v', vec_step false uint32_layout 4 (fun _ => false) id id (PushBack 3) (mkv [1; 2] []) =
    Throw v' bad_alloc /\ v' = mkv [1; 2] [].
Proof.
  exists (mkv [1; 2] []). split; [by vm_compute|].
  apply (vector_strong_guarantee false uint32_layout 4 (fun _ => false) id id 100 (PushBack 3) [1; 2] []
    _ bad_alloc).
  - lia.
  - by split.
  - lia.
  - simpl. lia.
  - simpl. lia.
  - apply (bool_decide_unpack _). by vm_compute.
  - by vm_compute.
Defined.

(** Assigning a longer vector into spare capacity leaves the source range:
    [assign_range] advances [first] instead of the end of the copied part, so
    the copy runs from the middle of the source away from it. *)
Theorem copy_assign_runs_away {T} sizeof alloc_ok (x y z : T) s t tl :
  copy_assign sizeof alloc_ok [y; z] (mkv [x] (s :: t :: tl)) = Fault.
Proof.
  unfold copy_assign, assign_range_forward, mbind, M_bind, get. cbn [vcap mkv length].
  destruct (Z.ltb_spec (Z.of_nat (1 + S (S (length tl)))) (Z.of_nat 2)); [lia|done].
Qed.

(** Erasing an element never destroys an object: the vector shrinks, but a
    moved-from object stays alive in its unused capacity, where the destructor
    does not reach it. *)
Theorem erase_leaks_object {T} (x y z : T) :
  exists v, erase false 0 (mkv [x; y; z] []) = Ok v 0%nat /\ v = mkv [y; z] [Moved] /\
    exists v', destroy_and_deallocate v = Ok v' tt.
Proof. exists (mkv [y; z] [Moved]). split; [done|]. split; [done|]. by eexists. Qed.

(** Inserting zeros in front of an element of a vector of 4-byte integers
    stores wrong values: [fill_n] passes the number of elements to [memset] as
    a number of bytes. *)
Theorem insert_zeros_wrong :
  exists v r, insert_n true uint32_layout 4 vector_alloc id id 0 2 0
      (mkv [0x11111111; 0x22222222; 0x33333333] [Raw; Raw]) = Ok v r /\
    v = mkv [0x11110000; 0x22222222; 0x11111111; 0x22222222; 0x33333333] [].
Proof. eexists _, _. by vm_compute. Qed.

(** Inserting copies at the end, when they fit into the capacity, swaps the number of copies
    and their value: two copies of 5 become five copies of 2. *)
Theorem insert_at_end_swaps_arguments :
  exists v r, insert_n true uint32_layout 4 vector_alloc id id 1 2 5 (mkv [1] (replicate 6 Raw)) = Ok v r /\
    v = mkv [1; 2; 2; 2; 2; 2] [Raw].
Proof. eexists _, _. by vm_compute. Qed.
