(* ===== verification/ExcMachine.v ===== *)
(** * The machine under the exception engine

    What the exception engine of [runtime/src/exc_engine] works on: the read-only
    data of the driver's image (unwind information, exception tables, type
    descriptors), the writable memory (stacks, exception objects), the frame of
    the active throw ([throw_frame]: register context, machine frame and
    [catch_info]) and the record of the functions of the driver that the engine
    calls (destructors, copy constructors, cleanup funclets).

    The driver that links the library is a parameter, [program]: its image, the
    effect of its functions on memory, and the handler behind each handler
    address.  Pointers are 64-bit integers, [nullptr] is 0; a load of an unmapped
    byte, and a store to one or to the image, is undefined behaviour. *)
From stdpp Require Import base list gmap numbers.
From S2P Require Import Prelude.
#[local] Open Scope Z_scope.

(** ** The program *)

(** The functions that are language-specific handlers of a frame. *)
Inductive handler_kind :=
  | CxxFrameHandler3 | GSHandlerCheck_EH
  | CxxFrameHandler4 | GSHandlerCheck_EH4
  | cxx_call_catch_frame_handler | cxx_seh_frame_handler
  | foreign_handler.

Class program := {
  image : gmap Z Z;
  ImageBase : Z;
  call : Z -> list Z -> gmap Z Z -> gmap Z Z;
  handler_of : Z -> handler_kind;
  GSHandlerCheckCommon : Z }.

(** ** State *)

Record machine_frame := MachineFrame {
  rip : Z; cs : Z; eflags : Z; rsp : Z; ss : Z }.

Record catch_info := CatchInfo {
  continuation_address : list Z;
  primary_frame_ptr : Z;
  exception_object_or_link : Z;
  throw_info_if_owner : Z;
  unwind_context : Z }.

(** [frame_walk_context] is kept as its 32 quadwords, because the code indexes
    across its fields: xmm6..xmm14 at 0, [padding1] at 18, [dummy_rsp] at 19,
    xmm15 at 20, rbx rbp rsi rdi r12..r15 at 22, [padding2] at 30, [dummy_rip]
    at 31. *)
Abbreviation frame_walk_context := (list Z).
Definition offsetof_dummy_rsp : nat := 19.
Definition offsetof_xmm15 : nat := 20.
Definition offsetof_rbx : nat := 22.
Definition offsetof_dummy_rip : nat := 31.

Record engine := Engine {
  ram : gmap Z Z;
  calls : list (Z * list Z);
  ctx : frame_walk_context;
  mach : machine_frame;
  ci : catch_info }.

Definition set_ram (m : gmap Z Z) (s : engine) : engine :=
  Engine m (calls s) (ctx s) (mach s) (ci s).
Definition set_ctx (c : frame_walk_context) (s : engine) : engine :=
  Engine (ram s) (calls s) c (mach s) (ci s).
Definition set_mach (f : machine_frame) (s : engine) : engine :=
  Engine (ram s) (calls s) (ctx s) f (ci s).
Definition set_ci (c : catch_info) (s : engine) : engine :=
  Engine (ram s) (calls s) (ctx s) (mach s) c.

Definition set_rip (a : Z) (f : machine_frame) : machine_frame :=
  MachineFrame a (cs f) (eflags f) (rsp f) (ss f).
Definition set_rsp (a : Z) (f : machine_frame) : machine_frame :=
  MachineFrame (rip f) (cs f) (eflags f) a (ss f).

Definition set_continuation (k : nat) (a : Z) (c : catch_info) : catch_info :=
  CatchInfo (<[k := a]> (continuation_address c)) (primary_frame_ptr c)
    (exception_object_or_link c) (throw_info_if_owner c) (unwind_context c).
Definition set_primary (p : Z) (c : catch_info) : catch_info :=
  CatchInfo (continuation_address c) p (exception_object_or_link c)
    (throw_info_if_owner c) (unwind_context c).
Definition set_exception (obj ti : Z) (c : catch_info) : catch_info :=
  CatchInfo (continuation_address c) (primary_frame_ptr c) obj ti (unwind_context c).
Definition set_unwind_context (u : Z) (c : catch_info) : catch_info :=
  CatchInfo (continuation_address c) (primary_frame_ptr c)
    (exception_object_or_link c) (throw_info_if_owner c) u.

Definition terminate {A} (r : BugCheckReason) : M engine A := throw (terminated r).

(** ** [flag_set] *)

Definition has_any_of (value flags : Z) : bool := negb (Z.land value flags =? 0).

(** [~value] in an underlying type of [w] bits. *)
Definition bit_negation (w value : Z) : Z := wrap w (Z.lnot value).

Fixpoint count_trailing_zeros (fuel : nat) (value : Z) : option Z :=
  match fuel with
  | O => None
  | S fuel =>
      if Z.land value 1 =? 0
      then Z.succ <$> count_trailing_zeros fuel (Z.shiftr value 1)
      else Some 0
  end.

(** [get<flag>()]: a single bit as 0 or 1, a field of several bits shifted down. *)
Definition flag_get (mask value : Z) : option Z :=
  if negb (Z.land mask (mask - 1) =? 0)
  then Z.shiftr (Z.land value mask) <$> count_trailing_zeros 64 mask
  else Some (if Z.land value mask =? 0 then 0 else 1).

(** ** Relative virtual addresses *)

(** [base + rva]: 64-bit address arithmetic. *)
Definition rva_add (base rva : Z) : Z := u64 (base + rva).

(** [make_rva(ptr, base)]: [convert_narrow] to 32 bits. *)
Definition make_rva (ptr base : Z) : Z := u32 (ptr - base).

(** ** Loads, stores and calls *)

Section machine.
Context `{P : program}.

Definition byte_of (m : gmap Z Z) (a : Z) : option Z :=
  match image !! a with Some b => Some b | None => m !! a end.

Fixpoint bytes_of (m : gmap Z Z) (n : nat) (a : Z) : option (list Z) :=
  match n with
  | O => Some []
  | S n => b ← byte_of m a; l ← bytes_of m n (a + 1); Some (b :: l)
  end.

Fixpoint put_bytes (l : list Z) (a : Z) (m : gmap Z Z) : option (gmap Z Z) :=
  match l with
  | [] => Some m
  | b :: l =>
      match image !! a, m !! a with
      | None, Some _ => put_bytes l (a + 1) (<[a := b]> m)
      | _, _ => None
      end
  end.

Definition load_bytes (n : nat) (a : Z) : M engine (list Z) :=
  s ← get; access (bytes_of (ram s) n a).

Definition load (n : nat) (a : Z) : M engine Z :=
  l ← load_bytes n a; mret (le_word l).

Definition store_bytes (l : list Z) (a : Z) : M engine unit :=
  s ← get; m ← access (put_bytes l a (ram s)); modify (set_ram m).

Definition store (n : nat) (v a : Z) : M engine unit := store_bytes (le_bytes n v) a.

Definition memcpy (dst src size : Z) : M engine unit :=
  l ← load_bytes (Z.to_nat size) src; store_bytes l dst.

(** A call of a function of the driver: recorded, and run on the memory. *)
Definition invoke (f : Z) (args : list Z) : M engine unit :=
  modify (fun s => Engine (call f args (ram s)) (calls s ++ [(f, args)])
                          (ctx s) (mach s) (ci s)).

(** [member_ptr::apply]; the [member_ptr] is at address [mp]. *)
Definition member_ptr_apply (mp obj : Z) : M engine Z :=
  vbase_offset ← load 4 mp;
  vbtable_ptr_offset ← load 4 (mp + 4);
  member_offset ← load 4 (mp + 8);
  obj ← (if vbtable_ptr_offset =? 0 then mret obj else
           let vbtable_ptr := u64 (obj + vbtable_ptr_offset) in
           vbtable ← load 8 vbtable_ptr;
           off ← load 4 (u64 (vbtable + vbase_offset));
           mret (u64 (vbtable_ptr + off)));
  mret (u64 (obj + member_offset)).

(** *** Loads *)

Lemma bytes_of_app m n k a l l' :
  bytes_of m n a = Some l -> bytes_of m k (a + Z.of_nat n) = Some l' ->
  bytes_of m (n + k) a = Some (l ++ l').
Proof.
  revert a l; induction n as [|n IH]; intros a l Hl Hl'; simpl in *.
  - rewrite Z.add_0_r in Hl'. by simplify_eq.
  - destruct (byte_of m a) as [b|]; simpl in *; [|done].
    destruct (bytes_of m n (a + 1)) as [t|] eqn:E; simpl in *; simplify_eq.
    erewrite IH; [done|done|]. rewrite <- Hl'. f_equal; lia.
Qed.

Lemma length_bytes_of m n a l : bytes_of m n a = Some l -> length l = n.
Proof.
  revert a l; induction n as [|n IH]; intros a l Hl; simpl in *; simplify_eq; [done|].
  destruct (byte_of m a) as [b|]; simpl in *; [|done].
  destruct (bytes_of m n (a + 1)) as [t|] eqn:E; simpl in *; simplify_eq.
  simpl. by erewrite IH.
Qed.

(** The image holds the bytes [l] at [a]. *)
Definition image_at (a : Z) (l : list Z) : Prop :=
  forall m, bytes_of m (length l) a = Some l.

Lemma image_at_app a l l' :
  image_at a l -> image_at (a + Z.of_nat (length l)) l' -> image_at a (l ++ l').
Proof. intros H H' m. rewrite length_app. by apply bytes_of_app. Qed.

Lemma bytes_of_split m n k a l :
  bytes_of m (n + k) a = Some l ->
  bytes_of m n a = Some (take n l) /\ bytes_of m k (a + Z.of_nat n) = Some (drop n l).
Proof.
  revert a l; induction n as [|n IH]; intros a l Hl; simpl in *.
  - by rewrite Z.add_0_r.
  - destruct (byte_of m a) as [b|]; simpl in *; [|done].
    destruct (bytes_of m (n + k) (a + 1)) as [t|] eqn:E; simpl in *; simplify_eq.
    destruct (IH _ _ E) as [-> H2]; simpl. split; [done|]. rewrite <- H2. f_equal; lia.
Qed.

Lemma image_at_split a l l' :
  image_at a (l ++ l') -> image_at a l /\ image_at (a + Z.of_nat (length l)) l'.
Proof.
  intros H. split; intros m; specialize (H m); rewrite length_app in H;
    apply bytes_of_split in H as [H1 H2].
  - by rewrite take_app_length in H1.
  - by rewrite drop_app_length in H2.
Qed.

Lemma load_image n a l s :
  image_at a l -> length l = n -> load n a s = Ok s (le_word l).
Proof.
  intros H <-. unfold load, load_bytes, mbind, M_bind, get, access; simpl.
  by rewrite H.
Qed.

(** A load depends only on the memory. *)
Lemma load_ram n a s s' v :
  ram s' = ram s -> load n a s = Ok s v -> load n a s' = Ok s' v.
Proof.
  intros Hr. unfold load, load_bytes, mbind, M_bind, get, access, mret, M_ret.
  rewrite Hr. destruct (bytes_of (ram s) n a); by intros [= <-].
Qed.

(** The bytes at [a] whose byte map is known: used to check a concrete image. *)
Lemma image_at_lookup a l :
  (forall i b, l !! i = Some b -> image !! (a + Z.of_nat i) = Some b) -> image_at a l.
Proof.
  intros H m. revert a H; induction l as [|b l IH]; intros a H; [done|].
  simpl. unfold byte_of. pose proof (H 0%nat b eq_refl) as Hb.
  rewrite Z.add_0_r in Hb. rewrite Hb; simpl.
  rewrite IH; [done|]. intros i c Hi. rewrite <- (H (S i) c Hi). f_equal; lia.
Qed.
End machine.
