(* ===== verification/Unwind.v ===== *)
(** * Function tables and the frame unwinder (unwind_handler.cpp)

    [frame_walk_pdata] finds the exception directory of the image and, by binary
    search, the function entry of a program counter; [unwind] interprets the
    unwind codes of a function to recover its caller's registers. *)
From stdpp Require Import base list gmap numbers.
From S2P Require Import Prelude ExcMachine.
#[local] Open Scope Z_scope.

Record frame_walk_pdata := Pdata {
  m_image_base : Z;
  m_functions : Z;
  m_function_count : Z;
  m_image_size : Z }.

Inductive UnwindCode :=
  | PushNonVolatileReg | AllocLarge | AllocSmall | SetFramePointer
  | SaveNonVolatileReg | SaveFarNonVolatileReg | Epilog | Reserved07
  | SaveXmm128 | SaveFarXmm128 | PushMachineFrame.

Definition to_UnwindCode (x : Z) : option UnwindCode :=
  match x with
  | 0 => Some PushNonVolatileReg | 1 => Some AllocLarge | 2 => Some AllocSmall
  | 3 => Some SetFramePointer | 4 => Some SaveNonVolatileReg
  | 5 => Some SaveFarNonVolatileReg | 6 => Some Epilog | 7 => Some Reserved07
  | 8 => Some SaveXmm128 | 9 => Some SaveFarXmm128 | 10 => Some PushMachineFrame
  | _ => None
  end.

Definition sizeof_function : Z := 12.
Definition sizeof_extended_header : Z := 168.

Section unwind.
Context `{P : program}.

(** [frame_walk_pdata::frame_walk_pdata]: any failed check of the PE headers
    leaves the [do ... while (false)] and bug checks. *)
Definition make_frame_walk_pdata (base : Z) : M engine frame_walk_pdata :=
  let corrupted := terminate CorruptedPeHeader in
  magic ← load 2 base;
  if negb (magic =? 0x5a4d) then corrupted else
  image_header ← load 4 (base + 0x3c);
  let pe := rva_add base image_header in
  pe_magic ← load 4 pe;
  if negb (pe_magic =? 0x4550) then corrupted else
  machine ← load 2 (pe + 4);
  if negb (machine =? 0x8664) then corrupted else
  opt_magic ← load 2 (pe + 0x18);
  if negb (opt_magic =? 0x20b) then corrupted else
  headers_size ← load 4 (pe + 0x54);
  if negb (image_header + sizeof_extended_header <=? headers_size) then corrupted else
  image_size ← load 4 (pe + 0x50);
  if negb (headers_size <=? image_size) then corrupted else
  directory_count ← load 4 (pe + 0x84);
  if negb (4 <=? directory_count) then corrupted else
  table_size ← load 4 (pe + 0xa4);
  if negb (table_size mod sizeof_function =? 0) then corrupted else
  table_rva ← load 4 (pe + 0xa0);
  mret (Pdata base (rva_add base table_rva) (table_size / sizeof_function) image_size).

Definition for_this_image : M engine frame_walk_pdata := make_frame_walk_pdata ImageBase.

Definition contains_address (pd : frame_walk_pdata) (addr : Z) : bool :=
  (m_image_base pd <=? addr) && (signed 64 (addr - m_image_base pd) <? m_image_size pd).

Fixpoint find_function_loop (fuel : nat) (pd : frame_walk_pdata) (pc_rva left right : Z)
    : M engine Z :=
  match fuel with
  | O => diverge
  | S fuel =>
      if left <? right then
        let idx := left + (right - left) / 2 in
        let fn_ptr := m_functions pd + idx * sizeof_function in
        fn_begin ← load 4 fn_ptr;
        if pc_rva <? fn_begin then find_function_loop fuel pd pc_rva left idx
        else
          fn_end ← load 4 (fn_ptr + 4);
          if fn_end <=? pc_rva then find_function_loop fuel pd pc_rva (idx + 1) right
          else mret fn_ptr
      else mret 0
  end.

Definition find_function_entry (pd : frame_walk_pdata) (addr : Z) : M engine Z :=
  if negb (contains_address pd addr) then terminate NoMatchingExceptionHandler else
  find_function_loop (S (Z.to_nat (m_function_count pd))) pd
    (make_rva addr (m_image_base pd)) 0 (m_function_count pd).

(** [frame_walk_context::gp]: the quadword of a non-volatile register. *)
Definition gp_conv : list Z := [-1; -1; -1; 0; -1; 1; 2; 3; -1; -1; -1; -1; 4; 5; 6; 7].

Definition gp (idx : Z) : M engine nat :=
  offs ← access (gp_conv !! Z.to_nat idx);
  if offs <? 0 then terminate CorruptedMachineState
  else mret (offsetof_rbx + Z.to_nat offs)%nat.

Definition read_gp (idx : Z) : M engine Z :=
  k ← gp idx; s ← get; access (ctx s !! k).

Definition write_gp (idx v : Z) : M engine unit :=
  k ← gp idx; modify (fun s => set_ctx (<[k := v]> (ctx s)) s).

(** [get_xmm]: the first of the two quadwords of [(&ctx.xmm6)[idx - 6]]. *)
Definition get_xmm (idx : Z) : M engine nat :=
  if (idx <? 6) || (16 <=? idx) then terminate CorruptedMachineState
  else mret (2 * Z.to_nat (idx - 6))%nat.

Definition write_xmm (idx lo hi : Z) : M engine unit :=
  k ← get_xmm idx;
  modify (fun s => set_ctx (<[S k := hi]> (<[k := lo]> (ctx s))) s).

(** [get_unwind_data_as<uint32_t>] and [unwind_info.data[idx]]. *)
Definition get_unwind_data_as (n : nat) (ui idx : Z) : M engine Z :=
  load n (ui + 4 + 2 * idx).

Definition unwind_data (ui idx : Z) : M engine Z := load 2 (ui + 4 + 2 * idx).

Definition rsp_of : M engine Z := s ← get; mret (rsp (mach s)).
Definition put_rsp (v : Z) : M engine unit :=
  modify (fun s => set_mach (set_rsp (u64 v) (mach s)) s).
Definition put_rip (v : Z) : M engine unit :=
  modify (fun s => set_mach (set_rip v (mach s)) s).

(** One iteration of the loop of [unwind]: the code at [idx], the index of the
    last slot it used, and whether the code replaced [rip]. *)
Definition unwind_step (ui idx : Z) : M engine (Z * bool) :=
  code_info ← load 1 (ui + 4 + 2 * idx + 1);
  let info := Z.shiftr code_info 4 in
  sp ← rsp_of;
  match to_UnwindCode (Z.land code_info 15) with
  | Some PushNonVolatileReg =>
      v ← load 8 sp; _ ← write_gp info v; _ ← put_rsp (sp + 8); mret (idx, false)
  | Some AllocLarge =>
      d ← unwind_data ui (idx + 1);
      if info =? 0 then _ ← put_rsp (sp + d * 8); mret (idx + 1, false)
      else _ ← put_rsp (sp + d); mret (idx + 2, false)
  | Some AllocSmall => _ ← put_rsp (sp + (info * 8 + 8)); mret (idx, false)
  | Some SetFramePointer =>
      b ← load 1 (ui + 3);
      v ← read_gp (Z.land b 15);
      _ ← put_rsp (v - Z.shiftr b 4 * 16); mret (idx, false)
  | Some SaveNonVolatileReg =>
      d ← unwind_data ui (idx + 1);
      v ← load 8 (u64 (sp + d * 8)); _ ← write_gp info v; mret (idx + 1, false)
  | Some SaveFarNonVolatileReg =>
      d ← get_unwind_data_as 4 ui idx;
      v ← load 8 (u64 (sp + d)); _ ← write_gp info v; mret (idx + 2, false)
  | Some Epilog => mret (idx + 1, false)
  | Some Reserved07 => mret (idx + 2, false)
  | Some SaveXmm128 =>
      d ← unwind_data ui (idx + 1);
      lo ← load 8 (u64 (sp + d * 16)); hi ← load 8 (u64 (sp + d * 16) + 8);
      _ ← write_xmm info lo hi; mret (idx + 1, false)
  | Some SaveFarXmm128 =>
      d ← unwind_data ui (idx + 1);
      lo ← load 8 (u64 (sp + d)); hi ← load 8 (u64 (sp + d) + 8);
      _ ← write_xmm info lo hi; mret (idx + 2, false)
  | Some PushMachineFrame =>
      let sp := u64 (sp + info * 8) in
      _ ← put_rsp sp;
      ip ← load 8 sp; _ ← put_rip ip;
      v ← load 8 (u64 (sp + 24)); _ ← put_rsp v; mret (idx, true)
  | None => mret (idx, false)
  end.

Fixpoint unwind_loop (fuel : nat) (ui code_count idx : Z) (rip_updated : bool)
    : M engine bool :=
  match fuel with
  | O => diverge
  | S fuel =>
      if idx <? code_count then
        '(idx, r) ← unwind_step ui idx;
        unwind_loop fuel ui code_count (idx + 1) (rip_updated || r)
      else mret rip_updated
  end.

Definition unwind (ui : Z) : M engine unit :=
  code_count ← load 1 (ui + 2);
  rip_updated ← unwind_loop (S (Z.to_nat code_count)) ui code_count 0 false;
  if rip_updated : bool then mret tt else
  sp ← rsp_of; ip ← load 8 sp; _ ← put_rip ip; put_rsp (sp + 8).
End unwind.
