(* ===== verification/UnwindSpec.v ===== *)
(** * Function search and prologue inversion

    The binary search of [find_function_entry] agrees with a linear search on a
    sorted table, and [unwind] inverts the x64 prologues made of register pushes
    and stack allocations. *)
From stdpp Require Import base list gmap numbers.
From S2P Require Import Prelude ExcMachine Unwind.
#[local] Open Scope Z_scope.

(** ** The exception directory *)

Record fn_entry := FnEntry { fn_begin : Z; fn_end : Z; fn_unwind : Z }.

Definition fn_bytes (f : fn_entry) : list Z :=
  le_bytes 4 (fn_begin f) ++ le_bytes 4 (fn_end f) ++ le_bytes 4 (fn_unwind f).

Definition fn_covers (pc : Z) (f : fn_entry) : Prop := fn_begin f <= pc < fn_end f.

#[export] Instance fn_covers_dec pc f : Decision (fn_covers pc f).
Proof. unfold fn_covers; apply _. Defined.

(** Functions are listed by address and do not overlap. *)
Definition fn_sorted (fns : list fn_entry) : Prop :=
  forall i j f g, (i < j)%nat -> fns !! i = Some f -> fns !! j = Some g ->
    fn_end f <= fn_begin g.

Definition is_u32 (x : Z) : Prop := 0 <= x < 2 ^ 32.

Definition fn_ok (f : fn_entry) : Prop :=
  is_u32 (fn_begin f) /\ is_u32 (fn_end f) /\ fn_begin f <= fn_end f.

Section directory.
Context `{P : program}.

(** The image holds the table [fns] where [pd] says its functions are. *)
Record directory_at (pd : frame_walk_pdata) (fns : list fn_entry) : Prop := {
  dir_image i f : fns !! i = Some f ->
    image_at (m_functions pd + Z.of_nat i * sizeof_function) (fn_bytes f);
  dir_count : m_function_count pd = Z.of_nat (length fns);
  dir_ok : Forall fn_ok fns;
  dir_sorted : fn_sorted fns }.

Lemma le_word_u32 x : is_u32 x -> le_word (le_bytes 4 x) = x.
Proof. intros [? ?]. rewrite le_word_le_bytes. apply Z.mod_small. simpl. lia. Qed.

Lemma load_fn_begin pd fns i f s :
  directory_at pd fns -> fns !! i = Some f ->
  load 4 (m_functions pd + Z.of_nat i * sizeof_function) s = Ok s (fn_begin f).
Proof.
  intros H Hi. pose proof (dir_image _ _ H i f Hi) as Hb.
  apply image_at_split in Hb as [Hb _].
  rewrite (load_image _ _ _ _ Hb) by apply length_le_bytes.
  rewrite le_word_u32; [done|].
  apply (Forall_lookup_1 _ _ _ _ (dir_ok _ _ H) Hi).
Qed.

Lemma load_fn_end pd fns i f s :
  directory_at pd fns -> fns !! i = Some f ->
  load 4 (m_functions pd + Z.of_nat i * sizeof_function + 4) s = Ok s (fn_end f).
Proof.
  intros H Hi. pose proof (dir_image _ _ H i f Hi) as Hb.
  apply image_at_split in Hb as [_ Hb]. apply image_at_split in Hb as [Hb _].
  rewrite length_le_bytes in Hb. change (Z.of_nat 4) with 4 in Hb.
  rewrite (load_image _ _ _ _ Hb) by apply length_le_bytes.
  rewrite le_word_u32; [done|].
  apply (Forall_lookup_1 _ _ _ _ (dir_ok _ _ H) Hi).
Qed.

Definition fn_result (pd : frame_walk_pdata) (o : option (nat * fn_entry)) : Z :=
  match o with
  | Some (i, _) => m_functions pd + Z.of_nat i * sizeof_function
  | None => 0
  end.

(** On a sorted table at most one entry covers an address. *)
Lemma fn_unique fns pc i f :
  Forall fn_ok fns -> fn_sorted fns -> fns !! i = Some f -> fn_covers pc f ->
  list_find (fn_covers pc) fns = Some (i, f).
Proof.
  intros Hok Hs Hi Hc. apply list_find_Some. split_and!; [done|done|].
  intros j g Hj Hlt Hg. pose proof (Hs _ _ _ _ Hlt Hj Hi).
  unfold fn_covers in *; lia.
Qed.

Lemma find_function_loop_spec pd fns pc fuel l r s :
  directory_at pd fns -> (l <= r <= length fns)%nat -> (r - l < fuel)%nat ->
  (forall i f, (i < l)%nat -> fns !! i = Some f -> ~ fn_covers pc f) ->
  (forall i f, (r <= i)%nat -> fns !! i = Some f -> ~ fn_covers pc f) ->
  find_function_loop fuel pd pc (Z.of_nat l) (Z.of_nat r) s =
    Ok s (fn_result pd (list_find (fn_covers pc) fns)).
Proof.
  intros H. revert l r; induction fuel as [|fuel IH]; intros l r Hlr Hf Hlo Hhi; [lia|].
  simpl. destruct (Z.ltb_spec (Z.of_nat l) (Z.of_nat r)) as [Hlt|Hge].
  2: { assert (list_find (fn_covers pc) fns = None) as ->; [|done].
       apply list_find_None, list.Forall_forall. intros f Hin Hc.
       apply list_elem_of_lookup in Hin as [i Hi].
       destruct (decide (i < l)%nat); [by eapply Hlo|]. eapply (Hhi i); [lia|done|done]. }
  pose (k := (l + (r - l) / 2)%nat).
  assert (Hk : (l <= k < r)%nat).
  { unfold k. pose proof (Nat.div_lt (r - l) 2). lia. }
  replace (Z.of_nat l + (Z.of_nat r - Z.of_nat l) / 2) with (Z.of_nat k).
  2: { unfold k. rewrite Nat2Z.inj_add, Nat2Z.inj_div, Nat2Z.inj_sub by lia. done. }
  destruct (lookup_lt_is_Some_2 fns k) as [f Hfk]; [lia|].
  rewrite (bind_Ok _ _ _ _ _ (load_fn_begin _ _ _ _ s H Hfk)).
  assert (Hord : forall i g, fns !! i = Some g ->
    ((i < k)%nat -> fn_end g <= fn_begin f) /\ ((k < i)%nat -> fn_end f <= fn_begin g)).
  { intros i g Hi. split; intros Hik.
    - by eapply (dir_sorted _ _ H i k).
    - by eapply (dir_sorted _ _ H k i). }
  pose proof (Forall_lookup_1 _ _ _ _ (dir_ok _ _ H) Hfk) as (_ & _ & Hfok).
  destruct (Z.ltb_spec pc (fn_begin f)) as [Hb|Hb].
  { apply IH; [lia|lia|done|]. intros i g Hi Hg.
    destruct (Hord i g Hg) as [_ Hgt]. unfold fn_covers.
    destruct (decide (i = k)) as [->|]; [simplify_eq; lia|].
    specialize (Hgt ltac:(lia)). lia. }
  rewrite (bind_Ok _ _ _ _ _ (load_fn_end _ _ _ _ s H Hfk)).
  destruct (Z.leb_spec (fn_end f) pc) as [He|He].
  - replace (Z.of_nat k + 1) with (Z.of_nat (S k)) by lia.
    apply IH; [lia|lia| |done]. intros i g Hi Hg.
    destruct (Hord i g Hg) as [Hl _]. unfold fn_covers.
    destruct (decide (i = k)) as [->|]; [simplify_eq; lia|].
    specialize (Hl ltac:(lia)). lia.
  - erewrite fn_unique; [done|apply H|apply H|done|]. unfold fn_covers; lia.
Qed.
End directory.

(** ** Prologues

    A prologue as the x64 ABI describes it: pushes of non-volatile registers and
    allocations of stack space, with the unwind codes that document them. *)
Inductive prolog_op := op_push (r : Z) | op_alloc (n : Z).

Definition gp_slot (r : Z) : nat :=
  (offsetof_rbx + Z.to_nat (gp_conv !!! Z.to_nat r))%nat.

Definition op_ok (op : prolog_op) : Prop :=
  match op with
  | op_push r => r ∈ [3; 5; 6; 7; 12; 13; 14; 15]
  | op_alloc n => n mod 8 = 0 /\ 8 <= n < 8 * 65536
  end.

#[export] Instance op_ok_dec op : Decision (op_ok op).
Proof. destruct op; unfold op_ok; apply _. Defined.

(** The unwind code of an operation at offset [off] of the prologue: one slot of
    two bytes, or two slots for a large allocation. *)
Definition op_code (off : Z) (op : prolog_op) : list Z :=
  match op with
  | op_push r => [off; 16 * r]
  | op_alloc n => if n <=? 128 then [off; 16 * (n / 8 - 1) + 2]
                  else [off; 1] ++ le_bytes 2 (n / 8)
  end.

Definition op_slots (op : prolog_op) : nat :=
  match op with
  | op_push _ => 1
  | op_alloc n => if n <=? 128 then 1 else 2
  end.

(** The codes are listed in the reverse order of the prologue. *)
Definition prolog_codes (ops : list (Z * prolog_op)) : list Z :=
  concat ((fun '(off, op) => op_code off op) <$> rev ops).

Definition slots_of (ops : list (Z * prolog_op)) : nat := sum_list_with (op_slots ∘ snd) ops.

Fixpoint poke (l : list Z) (a : Z) (m : gmap Z Z) : gmap Z Z :=
  match l with [] => m | b :: l => <[a := b]> (poke l (a + 1) m) end.

(** The effect of the prologue on the stack pointer and the memory. *)
Fixpoint prolog (regs : frame_walk_context) (ops : list (Z * prolog_op)) (sp : Z)
    (m : gmap Z Z) : Z * gmap Z Z :=
  match ops with
  | [] => (sp, m)
  | (_, op_push r) :: ops =>
      prolog regs ops (sp - 8) (poke (le_bytes 8 (regs !!! gp_slot r)) (sp - 8) m)
  | (_, op_alloc n) :: ops => prolog regs ops (sp - n) m
  end.

(** The registers a prologue saved, put back into [c]. *)
Definition restore (regs : frame_walk_context) (ops : list (Z * prolog_op))
    (c : frame_walk_context) : frame_walk_context :=
  foldr (fun '(_, op) c =>
    match op with op_push r => <[gp_slot r := regs !!! gp_slot r]> c | op_alloc _ => c end)
    c ops.

Section prologue.
Context `{P : program}.

Definition undo (op : prolog_op) : M engine unit :=
  sp ← rsp_of;
  match op with
  | op_push r => v ← load 8 sp; _ ← write_gp r v; put_rsp (sp + 8)
  | op_alloc n => put_rsp (sp + n)
  end.

Fixpoint undo_all (ops : list (Z * prolog_op)) : M engine unit :=
  match ops with
  | [] => mret tt
  | (_, op) :: ops => _ ← undo op; undo_all ops
  end.

Lemma op_ok_gp r s : op_ok (op_push r) -> gp r s = Ok s (gp_slot r).
Proof.
  unfold op_ok. intros H.
  repeat (apply elem_of_cons in H as [->|H]; [reflexivity|]). by apply elem_of_nil in H.
Qed.

Lemma gp_slot_lt r : op_ok (op_push r) -> (gp_slot r < 32)%nat.
Proof.
  unfold op_ok. intros H.
  repeat (apply elem_of_cons in H as [->|H]; [vm_compute; lia|]). by apply elem_of_nil in H.
Qed.

Lemma nibbles c k : 0 <= c < 16 ->
  Z.land (16 * k + c) 15 = c /\ Z.shiftr (16 * k + c) 4 = k.
Proof.
  intros Hc. change 15 with (Z.ones 4). rewrite Z.land_ones, Z.shiftr_div_pow2 by lia.
  change (2 ^ 4) with 16. split; zdiv.
Qed.

(** A code is interpreted as the inverse of its operation. *)
Lemma unwind_step_op ui idx off op s :
  op_ok op -> image_at (ui + 4 + 2 * idx) (op_code off op) ->
  unwind_step ui idx s =
    (_ ← undo op; mret (idx + Z.of_nat (op_slots op) - 1, false)) s.
Proof.
  intros Hop Hi. unfold unwind_step.
  assert (Hc : forall b rest, image_at (ui + 4 + 2 * idx) (off :: b :: rest) ->
    load 1 (ui + 4 + 2 * idx + 1) s = Ok s b).
  { intros b rest Hb. apply (image_at_split _ [off] (b :: rest)) in Hb as [_ Hb].
    apply (image_at_split _ [b] rest) in Hb as [Hb _].
    rewrite (load_image 1 _ _ _ Hb) by done. simpl. f_equal; lia. }
  destruct op as [r|n]; simpl op_code in Hi; simpl op_slots.
  - rewrite (bind_Ok _ _ _ _ _ (Hc _ _ Hi)).
    destruct (nibbles 0 r) as [E1 E2]; [lia|]. rewrite Z.add_0_r in E1, E2.
    rewrite E1, E2. unfold to_UnwindCode, undo.
    unfold mbind, M_bind, rsp_of, get, mret, M_ret; simpl.
    destruct (load 8 _ s) as [s1 v| | |]; try done.
    destruct (write_gp r v s1); try done. simpl. by rewrite Z.add_simpl_r.
  - destruct Hop as [Hm Hn]. destruct (Z.leb_spec n 128) as [Hs|Hs]; simpl in Hi.
    + rewrite (bind_Ok _ _ _ _ _ (Hc _ _ Hi)).
      destruct (nibbles 2 (n / 8 - 1)) as [E1 E2]; [lia|]. rewrite E1, E2.
      unfold to_UnwindCode, undo, mbind, M_bind, rsp_of, get, mret, M_ret; simpl.
      replace ((n / 8 - 1) * 8 + 8) with n by zdiv. by rewrite Z.add_simpl_r.
    + rewrite (bind_Ok _ _ _ _ _ (Hc _ _ Hi)).
      change (Z.shiftr 1 4) with 0. change (Z.land 1 15) with 1. simpl.
      apply (image_at_split _ [off; 1]) in Hi as [_ Hi].
      unfold unwind_data.
      replace (ui + 4 + 2 * (idx + 1)) with (ui + 4 + 2 * idx + Z.of_nat (length [off; 1]))
        by (simpl; lia).
      unfold mbind, M_bind, rsp_of, get, mret, M_ret; simpl.
      rewrite (load_image 2 _ _ _ Hi) by done. simpl.
      unfold undo, mbind, M_bind, rsp_of, get, mret, M_ret; simpl.
      replace ((n / 8) mod 256 + 256 * ((n / 8 / 256) mod 256 + 256 * 0)) with (n / 8) by zdiv.
      replace (n / 8 * 8) with n by zdiv. do 2 f_equal; lia.
Qed.

Lemma length_op_code off op : length (op_code off op) = (2 * op_slots op)%nat.
Proof. destruct op; simpl; [done|]. by destruct (n <=? 128). Qed.

Lemma unwind_loop_ops ui ops fuel idx b s :
  Forall (op_ok ∘ snd) ops ->
  image_at (ui + 4 + 2 * idx) (concat ((fun '(off, op) => op_code off op) <$> ops)) ->
  (length ops < fuel)%nat ->
  unwind_loop fuel ui (idx + Z.of_nat (slots_of ops)) idx b s = (_ ← undo_all ops; mret b) s.
Proof.
  revert fuel idx s; induction ops as [|[off op] ops IH]; intros fuel idx s Hok Hi Hf;
    (destruct fuel as [|fuel]; [simpl in Hf; lia|]).
  - unfold slots_of; simpl. by rewrite Z.add_0_r, Z.ltb_irrefl.
  - apply list.Forall_cons in Hok as [Hop Hok]. simpl in Hi.
    apply image_at_split in Hi as [Hi1 Hi2]. rewrite length_op_code in Hi2.
    assert (Hs : slots_of ((off, op) :: ops) = (op_slots op + slots_of ops)%nat) by done.
    assert (1 <= op_slots op)%nat by (destruct op; simpl; [lia|destruct (n <=? 128); lia]).
    rewrite Hs. cbn [unwind_loop]. rewrite (proj2 (Z.ltb_lt _ _)) by lia.
    unfold mbind at 1, M_bind at 1. rewrite (unwind_step_op _ _ off op) by done.
    simpl undo_all. unfold mbind, M_bind, mret, M_ret.
    destruct (undo op s) as [s1 []| | |]; try done.
    specialize (IH fuel (idx + Z.of_nat (op_slots op)) s1 Hok).
    rewrite orb_false_r.
    replace (idx + Z.of_nat (op_slots op) - 1 + 1) with (idx + Z.of_nat (op_slots op)) by lia.
    replace (idx + Z.of_nat (op_slots op + slots_of ops)) with
      (idx + Z.of_nat (op_slots op) + Z.of_nat (slots_of ops)) by lia.
    apply IH; [|simpl in Hf; lia].
    by replace (ui + 4 + 2 * (idx + Z.of_nat (op_slots op)))
      with (ui + 4 + 2 * idx + Z.of_nat (2 * op_slots op)) by lia.
Qed.

(** *** Reading the stack back *)

Definition ops_ok (ops : list (Z * prolog_op)) : Prop := Forall (op_ok ∘ snd) ops.

Lemma poke_outside l a m k : (k < a \/ a + Z.of_nat (length l) <= k) -> poke l a m !! k = m !! k.
Proof.
  revert a; induction l as [|b l IH]; intros a Hk; [done|].
  simpl in *. rewrite lookup_insert_ne by lia. apply IH. lia.
Qed.

(** Two memories have the same, writable bytes in [[lo, hi)]. *)
Definition same_stack (lo hi : Z) (m m' : gmap Z Z) : Prop :=
  forall a, lo <= a < hi -> image !! a = None /\ m !! a = m' !! a.

Lemma bytes_of_poke l a m m' :
  same_stack a (a + Z.of_nat (length l)) m (poke l a m') ->
  bytes_of m (length l) a = Some l.
Proof.
  revert a; induction l as [|b l IH]; intros a H; [done|].
  simpl in *. unfold byte_of. destruct (H a) as [-> ->]; [lia|].
  rewrite lookup_insert_eq; simpl. rewrite IH; [done|]. intros k Hk.
  destruct (H k) as [Hi ->]; [lia|]. by rewrite lookup_insert_ne by lia.
Qed.

Lemma load_poke n v a s m' :
  0 <= v < 256 ^ Z.of_nat n ->
  same_stack a (a + Z.of_nat n) (ram s) (poke (le_bytes n v) a m') ->
  load n a s = Ok s v.
Proof.
  intros Hv H. unfold load, load_bytes, mbind, M_bind, get, access, mret, M_ret.
  pose proof (bytes_of_poke (le_bytes n v) a (ram s) m') as Hb.
  rewrite length_le_bytes in Hb. rewrite Hb by done.
  by rewrite le_word_le_bytes, Z.mod_small.
Qed.

(** A prologue moves the stack pointer down and writes only below it. *)
Lemma prolog_below regs ops sp m sp' m' :
  ops_ok ops -> prolog regs ops sp m = (sp', m') ->
  sp' <= sp /\ forall k, sp <= k -> m' !! k = m !! k.
Proof.
  intros Hok. revert sp m; induction ops as [|[off [r|n]] ops IH]; intros sp m H; cbn [prolog] in H.
  - simplify_eq. auto with lia.
  - apply list.Forall_cons in Hok as [_ Hok]. destruct (IH Hok _ _ H) as [H1 H2].
    split; [lia|]. intros k Hk. rewrite H2 by lia. apply poke_outside.
    rewrite length_le_bytes. lia.
  - apply list.Forall_cons in Hok as [[_ Hn] Hok]. destruct (IH Hok _ _ H) as [H1 H2].
    split; [lia|]. intros k Hk. apply H2. lia.
Qed.

Definition words_ok (c : frame_walk_context) : Prop :=
  length c = 32%nat /\ Forall (fun v => 0 <= v < 2 ^ 64) c.

Lemma words_ok_slot c r : words_ok c -> op_ok (op_push r) -> 0 <= c !!! gp_slot r < 2 ^ 64.
Proof.
  intros [Hl Hc] Hr. apply gp_slot_lt in Hr.
  apply (Forall_lookup_1 (fun v => 0 <= v < 2 ^ 64) c (gp_slot r) _ Hc).
  apply list_lookup_lookup_total_lt. lia.
Qed.

Lemma undo_all_app ops ops' s :
  undo_all (ops ++ ops') s = (_ ← undo_all ops; undo_all ops') s.
Proof.
  revert s; induction ops as [|[off op] ops IH]; intros s; [done|].
  simpl. unfold mbind, M_bind. destruct (undo op s); [|done..]. apply IH.
Qed.

Definition with_sp (sp : Z) (c : frame_walk_context) (s : engine) : engine :=
  Engine (ram s) (calls s) c (set_rsp sp (mach s)) (ci s).

Lemma undo_op_spec off op regs sp m s :
  op_ok op -> words_ok regs -> 0 <= sp < 2 ^ 64 ->
  (let '(sp', m') := prolog regs [(off, op)] sp m in
   rsp (mach s) = sp' -> same_stack sp' sp (ram s) m' ->
   undo op s = Ok (with_sp sp (restore regs [(off, op)] (ctx s)) s) tt).
Proof.
  intros Hop Hr Hsp. destruct op as [r|n]; cbn [prolog restore foldr]; intros Hrsp Hst; unfold undo.
  - unfold mbind at 1, M_bind at 1, rsp_of; simpl. rewrite Hrsp.
    erewrite bind_Ok; [|apply load_poke with (m' := m)].
    2: { change (256 ^ Z.of_nat 8) with (2 ^ 64). by apply words_ok_slot. }
    2: { change (Z.of_nat 8) with 8. by rewrite Z.sub_add. }
    unfold write_gp, put_rsp, modify, mbind, M_bind. rewrite op_ok_gp by done. simpl.
    rewrite Z.sub_add, wrap_small by lia. done.
  - unfold mbind, M_bind, rsp_of, put_rsp, modify; simpl. rewrite Hrsp.
    rewrite Z.sub_add, wrap_small by lia. done.
Qed.

Lemma undo_prolog regs ops sp m s :
  ops_ok ops -> words_ok regs -> 0 <= sp < 2 ^ 64 ->
  (let '(sp', m') := prolog regs ops sp m in
   0 <= sp' -> rsp (mach s) = sp' -> same_stack sp' sp (ram s) m' ->
   undo_all (rev ops) s = Ok (with_sp sp (restore regs ops (ctx s)) s) tt).
Proof.
  intros Hok Hr. revert sp m; induction ops as [|[off op] ops IH]; intros sp m Hsp.
  { simpl. intros _ <- _. unfold with_sp, set_rsp. by destruct s as [? ? ? [] ?]. }
  apply list.Forall_cons in Hok as [Hop Hok].
  destruct (prolog regs [(off, op)] sp m) as [sp1 m1] eqn:E1.
  assert (prolog regs ((off, op) :: ops) sp m = prolog regs ops sp1 m1) as ->.
  { destruct op; cbn [prolog] in *; by simplify_eq. }
  destruct (prolog regs ops sp1 m1) as [sp' m'] eqn:E2. intros H0 Hrsp Hst.
  destruct (prolog_below _ _ _ _ _ _ Hok E2) as [Hle Hab].
  destruct (prolog_below regs [(off, op)] sp m sp1 m1) as [Hle1 _];
    [by constructor|done|].
  specialize (IH Hok sp1 m1). rewrite E2 in IH.
  simpl rev. rewrite undo_all_app.
  erewrite bind_Ok; [|apply IH; [lia|done|done|intros a Ha; apply Hst; lia]].
  pose proof (undo_op_spec off op regs sp m
    (with_sp sp1 (restore regs ops (ctx s)) s) Hop Hr Hsp) as Hu.
  rewrite E1 in Hu. simpl undo_all.
  erewrite bind_Ok; [|apply Hu; [done|]].
  - done.
  - intros a Ha. destruct (Hst a) as [Hi Hm]; [lia|]. split; [done|].
    rewrite <- Hab by lia. done.
Qed.

(** The frame of a function after its prologue: [s] is any later state in which
    the function's frame and its caller's return address are intact. *)
Record in_frame (ui : Z) (ops : list (Z * prolog_op)) (regs : frame_walk_context)
    (sp ret : Z) (m : gmap Z Z) (s : engine) : Prop := {
  if_ops : ops_ok ops;
  if_regs : words_ok regs;
  if_ctx : length (ctx s) = 32%nat;
  if_slots : (slots_of ops < 256)%nat;
  if_sp : 0 <= fst (prolog regs ops sp m) /\ sp + 8 < 2 ^ 64;
  if_rsp : rsp (mach s) = fst (prolog regs ops sp m);
  if_stack : same_stack (fst (prolog regs ops sp m)) sp (ram s) (snd (prolog regs ops sp m));
  if_ret : load 8 sp s = Ok s ret;
  if_info : exists b0 b1 b3, image_at ui ([b0; b1; Z.of_nat (slots_of ops); b3] ++
                                          prolog_codes ops) }.

(** The caller's state. *)
Definition unwound (ops : list (Z * prolog_op)) (regs : frame_walk_context) (sp ret : Z)
    (s : engine) : engine :=
  Engine (ram s) (calls s) (restore regs ops (ctx s))
    (set_rip ret (set_rsp (sp + 8) (mach s))) (ci s).

Lemma slots_of_rev ops : slots_of (rev ops) = slots_of ops.
Proof.
  induction ops as [|[off op] ops IH]; [done|].
  unfold slots_of in *. cbn [rev]. rewrite sum_list_with_app. cbn. lia.
Qed.

Lemma slots_of_length ops : (length ops <= slots_of ops)%nat.
Proof.
  unfold slots_of. induction ops as [|[off op] l IH]; [done|].
  cbn. destruct op; cbn; [lia|]. destruct (n <=? 128); lia.
Qed.

Lemma unwind_in_frame ui ops regs sp ret m s :
  in_frame ui ops regs sp ret m s -> unwind ui s = Ok (unwound ops regs sp ret s) tt.
Proof.
  intros H.
  destruct (if_info _ _ _ _ _ _ _ H) as (b0 & b1 & b3 & Hi).
  apply image_at_split in Hi as [Hh Hc].
  apply (image_at_split _ [b0; b1]) in Hh as [_ Hh].
  apply (image_at_split _ [Z.of_nat (slots_of ops)]) in Hh as [Hh _].
  pose proof (if_sp _ _ _ _ _ _ _ H) as Hsp.
  assert (Hle := prolog_below regs ops sp m _ _ (if_ops _ _ _ _ _ _ _ H)
                   (surjective_pairing _)).
  unfold unwind. erewrite bind_Ok; [|exact (load_image 1 _ _ _ Hh eq_refl)].
  cbn [le_word]. rewrite Z.mul_0_r, Z.add_0_r, Nat2Z.id.
  pose proof (undo_prolog regs ops sp m s (if_ops _ _ _ _ _ _ _ H)
                (if_regs _ _ _ _ _ _ _ H) ltac:(lia)) as Hu.
  rewrite (surjective_pairing (prolog regs ops sp m)) in Hu.
  specialize (Hu ltac:(lia) (if_rsp _ _ _ _ _ _ _ H) (if_stack _ _ _ _ _ _ _ H)).
  pose proof (slots_of_length (rev ops)) as Hlen. pose proof (slots_of_rev ops) as Hrev.
  pose proof (unwind_loop_ops ui (rev ops) (S (slots_of ops)) 0 false s) as Hl.
  rewrite Hrev, Z.add_0_l, (bind_Ok _ _ _ _ _ Hu) in Hl.
  erewrite bind_Ok; [|apply Hl].
  2: { apply list.Forall_forall. intros x Hx. apply list_elem_of_In, in_rev in Hx.
       apply (proj1 (list.Forall_forall _ _) (if_ops _ _ _ _ _ _ _ H)).
       by apply list_elem_of_In. }
  2: { by rewrite Z.mul_0_r, Z.add_0_r. }
  2: lia.
  cbv iota. erewrite (bind_Ok rsp_of); [|reflexivity]. cbn [with_sp mach rsp set_rsp].
  erewrite bind_Ok; [|eapply load_ram; [|apply H]; done].
  unfold mbind, M_bind, put_rip, put_rsp, modify. cbn.
  rewrite wrap_small by lia. done.
Qed.
End prologue.
