(* ===== verification/UnwindTheorems.v ===== *)
(** * Properties of the function search and the unwinder *)
From stdpp Require Import base list gmap numbers.
From S2P Require Import Prelude ExcMachine Unwind UnwindSpec.
#[local] Open Scope Z_scope.

(** ** Helper lemmas *)

Lemma restore_push regs off r ops c :
  restore regs ((off, op_push r) :: ops) c =
    <[gp_slot r := regs !!! gp_slot r]> (restore regs ops c).
Proof. done. Qed.

Lemma restore_alloc regs off n ops c :
  restore regs ((off, op_alloc n) :: ops) c = restore regs ops c.
Proof. done. Qed.

Lemma restore_length regs ops c : length (restore regs ops c) = length c.
Proof.
  induction ops as [|[off [r|n]] ops IH]; [done| |by rewrite restore_alloc].
  by rewrite restore_push, length_insert.
Qed.

Lemma restore_pushed regs ops c off r :
  length c = 32%nat -> ops_ok ops -> (off, op_push r) ∈ ops ->
  restore regs ops c !! gp_slot r = Some (regs !!! gp_slot r).
Proof.
  intros Hl Hok. induction ops as [|[off' op] ops IH]; intros Hin; [by apply elem_of_nil in Hin|].
  apply list.Forall_cons in Hok as [Hop Hok]. apply elem_of_cons in Hin as [Heq|Hin].
  - simplify_eq. rewrite restore_push. apply list_lookup_insert_eq.
    rewrite restore_length, Hl. by apply gp_slot_lt.
  - destruct op as [r'|n]; [|rewrite restore_alloc; by apply IH]. rewrite restore_push.
    destruct (decide (gp_slot r' = gp_slot r)) as [->|Hne].
    + apply list_lookup_insert_eq. rewrite restore_length, Hl.
      rewrite list.Forall_forall in Hok. by apply gp_slot_lt, (Hok _ Hin).
    + rewrite list_lookup_insert_ne by done. by apply IH.
Qed.

Lemma restore_other regs ops c k :
  (forall off r, (off, op_push r) ∈ ops -> gp_slot r <> k) ->
  restore regs ops c !! k = c !! k.
Proof.
  intros H. induction ops as [|[off [r|n]] ops IH]; [done| |].
  - rewrite restore_push, list_lookup_insert_ne by (eapply H; left). apply IH.
    intros off' r' Hin. eapply H. by right.
  - rewrite restore_alloc. apply IH. intros off' r' Hin. eapply H. by right.
Qed.

Section theorems.
Context `{P : program}.

(** C19: Unwinding inverts the prologue.  In any state in which a function's frame
    is intact (whatever its body did to the registers), [unwind] interprets the
    unwind codes of a prologue of pushes and stack allocations so that the stack
    pointer is the caller's, [rip] is the return address, every pushed register
    has the value it had on entry and every other register is left alone; it
    terminates and touches no memory outside the frame and the codes. *)
Theorem unwind_inverts_prologue ui ops regs sp ret m s :
  in_frame ui ops regs sp ret m s ->
  exists c, unwind ui s =
    Ok (Engine (ram s) (calls s) c (set_rip ret (set_rsp (sp + 8) (mach s))) (ci s)) tt /\
    (forall off r, (off, op_push r) ∈ ops -> c !! gp_slot r = Some (regs !!! gp_slot r)) /\
    (forall k, (forall off r, (off, op_push r) ∈ ops -> gp_slot r <> k) ->
       c !! k = ctx s !! k).
Proof.
  intros H. exists (restore regs ops (ctx s)). split.
  2: { split; [|intros k Hk; by apply restore_other].
       intros off r Hin. eapply restore_pushed; [apply H|apply H|done]. }
  by apply unwind_in_frame with (m := m).
Qed.

(** C39: The binary search finds the function of an address.  On an exception
    directory that is sorted and free of overlaps, [find_function_entry] returns,
    for every address inside the image, the entry a linear scan finds, and
    [nullptr] when no function covers the address; it terminates and reads only
    the directory. *)
Theorem find_function_entry_correct pd fns addr s :
  directory_at pd fns -> contains_address pd addr = true ->
  find_function_entry pd addr s =
    Ok s (fn_result pd (list_find (fn_covers (make_rva addr (m_image_base pd))) fns)).
Proof.
  intros H Hc. unfold find_function_entry. rewrite Hc; simpl negb; cbv iota.
  rewrite (dir_count _ _ H), Nat2Z.id.
  apply (find_function_loop_spec pd fns _ _ 0%nat (length fns)); try done; try lia.
  intros i f Hi Hf. apply lookup_lt_Some in Hf. lia.
Qed.

(** Long operands are read from the wrong place.  The displacement of
    [UWOP_SAVE_NONVOL_FAR] is the 32-bit value behind its slot, but the code reads
    32 bits starting at the slot itself, so the register is loaded from an address
    made of the slot's own bytes; the 32-bit size of [UWOP_ALLOC_LARGE] with
    operation info 1 is cut to its low 16 bits. *)
Theorem long_operands_misread ui idx off r d s :
  0 <= r < 16 -> 0 <= off < 256 -> 0 <= d < 2 ^ 32 ->
  (image_at (ui + 4 + 2 * idx) ([off; 16 * r + 5] ++ le_bytes 4 d) ->
   unwind_step ui idx s =
     (v ← load 8 (u64 (rsp (mach s) +
                       (off + 256 * (16 * r + 5) + 65536 * (d mod 65536))));
      _ ← write_gp r v; mret (idx + 2, false)) s) /\
  (image_at (ui + 4 + 2 * idx) ([off; 16 * 1 + 1] ++ le_bytes 4 d) ->
   unwind_step ui idx s =
     (_ ← put_rsp (rsp (mach s) + d mod 65536); mret (idx + 2, false)) s).
Proof.
  intros Hr Ho Hd. split; intros Hi; unfold unwind_step.
  - pose proof (image_at_split _ [off] _ Hi) as [_ Hb].
    apply (image_at_split _ [16 * r + 5]) in Hb as [Hb _].
    erewrite bind_Ok; [|exact (load_image 1 _ _ _ Hb eq_refl)].
    cbn [le_word]. rewrite Z.mul_0_r, Z.add_0_r.
    destruct (nibbles 5 r) as [-> ->]; [lia|].
    erewrite (bind_Ok rsp_of); [|reflexivity]. cbn [to_UnwindCode].
    replace ([off; 16 * r + 5] ++ le_bytes 4 d) with
      ([off; 16 * r + 5; d mod 256; d / 256 mod 256] ++
       [d / 256 / 256 mod 256; d / 256 / 256 / 256 mod 256]) in Hi by done.
    apply image_at_split in Hi as [Hi _].
    unfold get_unwind_data_as. erewrite bind_Ok; [|exact (load_image 4 _ _ _ Hi eq_refl)].
    cbn [le_word].
    replace (off + 256 * (16 * r + 5 + 256 * (d mod 256 + 256 * (d / 256 mod 256 + 256 * 0))))
      with (off + 256 * (16 * r + 5) + 65536 * (d mod 65536)) by zdiv.
    done.
  - pose proof (image_at_split _ [off] _ Hi) as [_ Hb].
    apply (image_at_split _ [16 * 1 + 1]) in Hb as [Hb _].
    erewrite bind_Ok; [|exact (load_image 1 _ _ _ Hb eq_refl)].
    cbn [le_word]. rewrite Z.mul_0_r, Z.add_0_r.
    destruct (nibbles 1 1) as [-> ->]; [lia|].
    erewrite (bind_Ok rsp_of); [|reflexivity]. cbn [to_UnwindCode].
    apply (image_at_split _ [off; 16 * 1 + 1]) in Hi as [_ Hi].
    replace (le_bytes 4 d) with ([d mod 256; d / 256 mod 256] ++
       [d / 256 / 256 mod 256; d / 256 / 256 / 256 mod 256]) in Hi by done.
    apply image_at_split in Hi as [Hi _].
    unfold unwind_data. replace (ui + 4 + 2 * (idx + 1)) with
      (ui + 4 + 2 * idx + Z.of_nat (length [off; 16 * 1 + 1])) by (simpl; lia).
    erewrite bind_Ok; [|exact (load_image 2 _ _ _ Hi eq_refl)].
    cbn [le_word].
    replace (d mod 256 + 256 * (d / 256 mod 256 + 256 * 0)) with (d mod 65536) by zdiv.
    done.
Qed.

(** The saved xmm15 is never restored.  [get_xmm] indexes an array that starts
    at [xmm6], but [padding1] and [dummy_rsp] lie between [xmm14] and [xmm15]:
    restoring register 15 leaves both halves of the saved [xmm15] as they were and
    writes over [dummy_rsp]. *)
Theorem xmm15_not_restored lo hi s :
  length (ctx s) = 32%nat ->
  exists s', write_xmm 15 lo hi s = Ok s' tt /\
    ctx s' !! offsetof_xmm15 = ctx s !! offsetof_xmm15 /\
    ctx s' !! S offsetof_xmm15 = ctx s !! S offsetof_xmm15 /\
    ctx s' !! offsetof_dummy_rsp = Some hi.
Proof.
  intros Hl. eexists. split; [reflexivity|]. cbn -[insert lookup].
  unfold offsetof_xmm15, offsetof_dummy_rsp.
  change (Z.to_nat (15 - 6)) with 9%nat. cbn [Nat.mul Nat.add].
  rewrite !list_lookup_insert_ne by done. split_and!; [done|done|].
  apply list_lookup_insert_eq. rewrite length_insert. lia.
Qed.
End theorems.

(** ** Witnesses *)

Definition demo_ops : list (Z * prolog_op) := [(1, op_push 3); (2, op_push 5); (6, op_alloc 32)].

Definition demo_fns : list fn_entry := [FnEntry 16 32 0; FnEntry 32 48 0; FnEntry 64 80 0].

Definition demo_image : gmap Z Z :=
  poke ([1; 6; 3; 0] ++ prolog_codes demo_ops) 0x1000
    (poke (concat (fn_bytes <$> demo_fns)) 0x2000
       (poke ([0; 16 * 3 + 5] ++ le_bytes 4 0x12345) 0x3004
          (poke ([0; 17] ++ le_bytes 4 0x12345) 0x3104 ∅))).

#[local] Instance demo_program : program := {|
  image := demo_image;
  ImageBase := 0;
  call := fun _ _ m => m;
  handler_of := fun _ => foreign_handler;
  GSHandlerCheckCommon := 0 |}.

Definition demo_regs : frame_walk_context := Z.of_nat <$> seq 100 32.

Definition demo_stack : gmap Z Z := poke (le_bytes 8 0x4444) 0x8100 ∅.

(** The function's body has zeroed every register. *)
Definition demo_engine : engine :=
  let '(sp, m) := prolog demo_regs demo_ops 0x8100 demo_stack in
  Engine m [] (replicate 32 0) (MachineFrame 0x5000 0 0 sp 0) (CatchInfo [0; 0] 0 0 0 0).

Definition demo_pdata : frame_walk_pdata := Pdata 0x1000000 0x2000 3 1000.

Lemma same_stack_refl lo hi m :
  (forall a, lo <= a < hi -> image !! a = None) -> same_stack lo hi m m.
Proof. intros H a Ha. auto. Qed.

Lemma demo_image_low a : 0x4000 <= a -> image (program := demo_program) !! a = None.
Proof.
  intros Ha. cbn [image demo_program]. unfold demo_image.
  rewrite !poke_outside by (right; cbn -[Z.add]; lia). apply lookup_empty.
Qed.

Lemma demo_in_frame :
  in_frame 0x1000 demo_ops demo_regs 0x8100 0x4444 demo_stack demo_engine.
Proof.
  split.
  - unfold ops_ok, demo_ops. rewrite !list.Forall_cons. cbn [snd compose].
    split; [set_solver|]. split; [set_solver|].
    split; [unfold op_ok; split; [done|lia]|by apply list.Forall_nil].
  - split; [done|]. apply list.Forall_forall. intros v Hv.
    unfold demo_regs in Hv. apply list_elem_of_fmap in Hv as (k & -> & Hk).
    apply elem_of_seq in Hk. lia.
  - reflexivity.
  - vm_compute. lia.
  - vm_compute. split; [discriminate|reflexivity].
  - reflexivity.
  - apply same_stack_refl. intros a Ha. apply demo_image_low.
    revert Ha. vm_compute (fst _). lia.
  - reflexivity.
  - exists 1, 6, 0. intros m. vm_compute. reflexivity.
Qed.

Lemma unwind_inverts_prologue_witness :
  exists c, unwind 0x1000 demo_engine =
    Ok (Engine (ram demo_engine) [] c (MachineFrame 0x4444 0 0 0x8108 0) (ci demo_engine)) tt /\
    c !! gp_slot 5 = Some (demo_regs !!! gp_slot 5) /\ c !! gp_slot 12 = Some 0.
Proof.
  destruct (unwind_inverts_prologue _ _ _ _ _ _ _ demo_in_frame) as (c & H1 & H2 & H3).
  exists c. split; [exact H1|]. split.
  - apply (H2 2 5). right; left.
  - rewrite H3; [vm_compute; reflexivity|]. intros off r Hin. unfold demo_ops in Hin.
    repeat (apply elem_of_cons in Hin as [[= -> ->]|Hin]; [vm_compute; lia|]).
    apply elem_of_cons in Hin as [[=]|Hin]. by apply elem_of_nil in Hin.
Defined.

Lemma find_function_entry_correct_witness :
  directory_at demo_pdata demo_fns /\
  find_function_entry demo_pdata 0x1000021 demo_engine = Ok demo_engine (0x2000 + 12) /\
  find_function_entry demo_pdata 0x1000032 demo_engine = Ok demo_engine 0.
Proof.
  assert (directory_at demo_pdata demo_fns).
  { split.
    - intros [|[|[|i]]] f Hf; [injection Hf as <-; intros m; vm_compute; reflexivity..|done].
    - reflexivity.
    - repeat constructor; cbn; lia.
    - intros i j f g Hij Hi Hj. destruct i as [|[|[|i]]], j as [|[|[|j]]];
        try lia; try done; injection Hi as <-; injection Hj as <-; cbn; lia. }
  split; [done|]. split.
  - rewrite (find_function_entry_correct _ demo_fns); [reflexivity|done|reflexivity].
  - rewrite (find_function_entry_correct _ demo_fns); [reflexivity|done|reflexivity].
Defined.

Lemma long_operands_misread_witness :
  unwind_step 0x3000 0 demo_engine =
    (v ← load 8 (u64 (rsp (mach demo_engine) + (0 + 256 * 53 + 65536 * 0x2345)));
     _ ← write_gp 3 v; mret (2, false)) demo_engine /\
  unwind_step 0x3100 0 demo_engine =
    (_ ← put_rsp (rsp (mach demo_engine) + 0x2345); mret (2, false)) demo_engine.
Proof.
  split.
  - apply (long_operands_misread 0x3000 0 0 3 0x12345); try lia.
    intros m. vm_compute. reflexivity.
  - apply (long_operands_misread 0x3100 0 0 3 0x12345); try lia.
    intros m. vm_compute. reflexivity.
Defined.

Lemma xmm15_not_restored_witness :
  exists s', write_xmm 15 7 8 demo_engine = Ok s' tt /\ ctx s' !! offsetof_dummy_rsp = Some 8.
Proof.
  destruct (xmm15_not_restored 7 8 demo_engine eq_refl) as (s' & H & _ & _ & H').
  by exists s'.
Defined.
