(* ===== verification/Catch.v ===== *)
(** * Catch blocks and exception ownership (catch.cpp, catch.hpp, throw.cpp)

    The part of the exception engine that decides whether a catch block takes an
    exception, initialises the catch variable, and hands the exception object over
    when a catch block throws again: an exception object is owned by exactly one
    [catch_info], a rethrow links to the owner until the owner's frame is unwound. *)
From stdpp Require Import base list gmap numbers.
From S2P Require Import Prelude ExcMachine Unwind.
#[local] Open Scope Z_scope.

(** ** Flags of the exception tables (exception_info.hpp) *)

Definition IsSimpleType : Z := 0x01.
Definition ByReferenceOnly : Z := 0x02.
Definition HasVirtualBase : Z := 0x04.

Definition ThrowIsConst : Z := 0x01.
Definition ThrowIsVolatile : Z := 0x02.
Definition ThrowIsUnaligned : Z := 0x04.

Definition IsReference : Z := 0x8.
Definition IsEllipsis : Z := 0x40.

Definition ExceptionFlagUnwinding : Z := 0x02.

(** ** Dispatching *)

Inductive symbol := unwind_cookie | rethrow_probe_cookie | other_cookie.

#[global] Instance symbol_eq_dec : EqDecision symbol.
Proof. solve_decision. Defined.

Inductive ExceptionDisposition :=
  | ContinueExecution | ContinueSearch | Nested | Collided | CxxHandler.

(** [fn], [handler] and [extra_data] are pointers; the throw frame the context
    refers to is the one of the engine's state. *)
Record dispatcher_context := DispatcherContext {
  last_instruction : Z;
  fn : Z;
  pdata : frame_walk_pdata;
  handler : Z;
  extra_data : Z;
  history_table : Z;
  scope_index : Z;
  cookie : symbol }.

Definition make_context (c : symbol) (pd : frame_walk_pdata) : dispatcher_context :=
  DispatcherContext 0 0 pd 0 0 0 0 c.

Definition set_fn (a : Z) (d : dispatcher_context) : dispatcher_context :=
  DispatcherContext (last_instruction d) a (pdata d) (handler d) (extra_data d)
    (history_table d) (scope_index d) (cookie d).
Definition set_handler (a : Z) (d : dispatcher_context) : dispatcher_context :=
  DispatcherContext (last_instruction d) (fn d) (pdata d) a (extra_data d)
    (history_table d) (scope_index d) (cookie d).
Definition set_extra_data (a : Z) (d : dispatcher_context) : dispatcher_context :=
  DispatcherContext (last_instruction d) (fn d) (pdata d) (handler d) a
    (history_table d) (scope_index d) (cookie d).

(** A Windows exception record of another origin: its code and flags.  The
    engine's own calls pass [&win::exc_record_cookie], here [None]. *)
Definition exception_record : Type := option (Z * Z).

(** [verify_seh] and [verify_seh_in_cxx_handler]. *)
Definition verify_seh (flags : Z) : M engine unit :=
  if has_any_of flags ExceptionFlagUnwinding then terminate UnwindingNonCxxFrame else mret tt.

(** Offsets of [catch_info] and [catch_frame]. *)
Definition off_primary_frame_ptr : Z := 16.
Definition off_exception_object : Z := 24.
Definition off_throw_info : Z := 32.
Definition off_unwind_context : Z := 40.
Definition off_catch_info : Z := 72.

Section catch.
Context `{P : program}.

(** [catch_info::get_exception_object] and [get_throw_info] of the throw frame. *)
Definition get_exception_object : M engine Z :=
  s ← get;
  if negb (throw_info_if_owner (ci s) =? 0) then mret (exception_object_or_link (ci s))
  else if negb (exception_object_or_link (ci s) =? 0)
  then load 8 (exception_object_or_link (ci s) + off_exception_object)
  else mret 0.

Definition get_throw_info : M engine Z :=
  s ← get;
  if negb (exception_object_or_link (ci s) =? 0) then
    if throw_info_if_owner (ci s) =? 0
    then load 8 (exception_object_or_link (ci s) + off_throw_info)
    else mret (throw_info_if_owner (ci s))
  else mret 0.

(** Fields of [catchable_type]: properties 0, desc 4, offset 8, size 20, copy_fn 24. *)
Definition copy_to_catch_block (base catchable catch_var object : Z) : M engine unit :=
  properties ← load 4 catchable;
  if has_any_of properties IsSimpleType then
    size ← load 4 (catchable + 20); memcpy catch_var object size
  else
    copy_fn ← load 4 (catchable + 24);
    if copy_fn =? 0 then
      address ← member_ptr_apply (catchable + 8) object;
      size ← load 4 (catchable + 20); memcpy catch_var address size
    else if has_any_of properties HasVirtualBase then
      invoke (rva_add base copy_fn) [catch_var; object; 1]
    else invoke (rva_add base copy_fn) [catch_var; object].

Definition transfer_to_catch_block (base adjectives catchable catch_var object : Z)
    : M engine unit :=
  properties ← load 4 catchable;
  if negb (has_any_of properties ByReferenceOnly) || has_any_of adjectives IsReference then
    if negb (has_any_of adjectives IsReference)
    then copy_to_catch_block base catchable catch_var object
    else store 8 object catch_var
  else mret tt.

(** [n] entries of the catchable list remain, the next one is number [idx]. *)
Fixpoint match_catchables (n : nat) (base adjectives match_type catch_var object types idx : Z)
    : M engine bool :=
  match n with
  | O => mret false
  | S n =>
      rva ← load 4 (types + 4 * idx);
      let catchable := rva_add base rva in
      desc ← load 4 (catchable + 4);
      if rva_add base desc =? match_type then
        _ ← transfer_to_catch_block base adjectives catchable catch_var object; mret true
      else match_catchables n base adjectives match_type catch_var object types (idx + 1)
  end.

Definition process_catch_block_unchecked
    (base adjectives match_type catch_var object catchable_list : Z) : M engine bool :=
  count ← load 4 catchable_list;
  match_catchables (Z.to_nat count) base adjectives match_type catch_var object
    (catchable_list + 4) 0.

(** Fields of [throw_info]: attributes 0, destroy_exc_obj 4, catchables 12. *)
Definition process_catch_block (base adjectives match_type catch_var object throw_info : Z)
    : M engine bool :=
  if has_any_of adjectives IsEllipsis then mret true else
  attributes ← load 4 throw_info;
  let qualifiers := Z.land attributes
    (Z.lor (Z.lor ThrowIsConst ThrowIsVolatile) ThrowIsUnaligned) in
  if negb (Z.land qualifiers (bit_negation 32 adjectives) =? 0) then mret false else
  catchables ← load 4 (throw_info + 12);
  process_catch_block_unchecked base adjectives match_type catch_var object
    (rva_add base catchables).

Definition cxx_seh_frame_handler_fn (record : exception_record) : M engine ExceptionDisposition :=
  _ ← match record with Some (_, flags) => verify_seh flags | None => mret tt end;
  mret ContinueSearch.

(** [__cxx_destroy_exception] on a [catch_info] with this object and throw info. *)
Definition cxx_destroy_exception (object throw_info : Z) : M engine unit :=
  if throw_info =? 0 then mret tt else
  destroy ← load 4 (throw_info + 4);
  if destroy =? 0 then mret tt else invoke (rva_add ImageBase destroy) [object].

(** [__cxx_call_catch_frame_handler]: the frame below a running catch block. *)
Definition cxx_call_catch_frame_handler_fn (record : exception_record) (frame_ptr : Z)
    (d : dispatcher_context) : M engine ExceptionDisposition :=
  match record with
  | Some (_, flags) => _ ← verify_seh flags; mret ContinueSearch
  | None =>
      let frame_ci := frame_ptr + off_catch_info in
      match cookie d with
      | rethrow_probe_cookie =>
          link ← load 8 (frame_ci + off_exception_object);
          if link =? 0 then terminate CorruptedExceptionHandler else
          owner ← load 8 (frame_ci + off_throw_info);
          s ← get;
          let obj := if negb (owner =? 0) then frame_ci else link in
          _ ← put (set_ci (set_exception obj (throw_info_if_owner (ci s)) (ci s)) s);
          mret CxxHandler
      | unwind_cookie =>
          s ← get;
          link ← load 8 (frame_ci + off_exception_object);
          owner ← load 8 (frame_ci + off_throw_info);
          _ ← (if (exception_object_or_link (ci s) =? 0) ||
                  (exception_object_or_link (ci s) =? frame_ci)
               then put (set_ci (set_exception link owner (ci s)) s)
               else cxx_destroy_exception link owner);
          primary ← load 8 (frame_ci + off_primary_frame_ptr);
          uctx ← load 8 (frame_ci + off_unwind_context);
          _ ← modify (fun s => set_ci (set_unwind_context uctx (set_primary primary (ci s))) s);
          mret CxxHandler
      | other_cookie => mret ContinueSearch
      end
  end.
End catch.
