(* ===== verification/FrameHandler4.v ===== *)
(** * The compressed exception tables (frame_handler4.cpp)

    Frame handler of functions compiled with the FH4 tables: a variable-length
    integer encoding, the header of a function's exception information, the table
    of regions (instruction pointer to state), the unwind graph (destructors of a
    state) and the try blocks with their catch handlers. *)
From stdpp Require Import base list gmap numbers.
From S2P Require Import Prelude ExcMachine Unwind Catch.
#[local] Open Scope Z_scope.

(** ** Flags *)

Definition FnIsCatchFunclet : Z := 0x01.
Definition FnHasMultipleFunclets : Z := 0x02.
Definition FnBbt : Z := 0x04.
Definition FnHasUnwindMap : Z := 0x08.
Definition FnHasTryBlockMap : Z := 0x10.

Definition HasTypeFlags : Z := 0x01.
Definition HasTypeInfo : Z := 0x02.
Definition HasCatchVar : Z := 0x04.
Definition ImageRva : Z := 0x08.
Definition ContinuationAddrCount : Z := 0x30.

Record exc_info := ExcInfo {
  fi_flags : Z;
  bbt_flags : Z;
  unwind_graph : Z;
  try_blocks : Z;
  regions : Z;
  primary_frame_rva : Z }.

Inductive edge_type := Trivial | ObjectOffset | ObjectPtrOffset | Function.

Record unwind_edge := UnwindEdge {
  target_offset : Z;
  type : edge_type;
  destroy_fn : Z;
  object : Z }.

Definition to_edge_type (x : Z) : edge_type :=
  match Z.land x 3 with
  | 0 => Trivial | 1 => ObjectOffset | 2 => ObjectPtrOffset | _ => Function
  end.

(** ** Variable-length integers *)

Definition lengths : list Z := [1; 2; 1; 3; 1; 2; 1; 4; 1; 2; 1; 3; 1; 2; 1; 5].

Definition shifts : list Z :=
  [0x19; 0x12; 0x19; 0x0b; 0x19; 0x12; 0x19; 0x04;
   0x19; 0x12; 0x19; 0x0b; 0x19; 0x12; 0x19; 0x00].

Section fh4.
Context `{P : program}.

(** Reads advance the cursor: the value and the position behind it. *)
Definition read_unsigned (p : Z) : M engine (Z * Z) :=
  b ← load 1 p;
  let enc_type := Z.to_nat (Z.land b 15) in
  length ← access (lengths !! enc_type);
  shift ← access (shifts !! enc_type);
  w ← load 4 (p + length - 4);
  mret (Z.shiftr w shift, p + length).

Definition read_int (p : Z) : M engine (Z * Z) :=
  w ← load 4 p; mret (signed 32 w, p + 4).

Definition read_rva (p : Z) : M engine (Z * Z) :=
  '(v, p) ← read_int p; mret (u32 v, p).

(** [unwind_edge::read]; [skip] discards the edge. *)
Definition edge_read (p : Z) : M engine (unwind_edge * Z) :=
  '(x, p) ← read_unsigned p;
  let ty := to_edge_type x in
  '(f, p) ← match ty with Trivial => mret (0, p) | _ => read_rva p end;
  '(o, p) ← match ty with
            | ObjectOffset | ObjectPtrOffset => read_unsigned p
            | _ => mret (0, p)
            end;
  mret (UnwindEdge (Z.shiftr x 2) ty f o, p).

Definition edge_skip (p : Z) : M engine Z := '(_, p) ← edge_read p; mret p.

(** ** The function header *)

(** The funclet map: [n] entries remain at [p]. *)
Fixpoint find_funclet (n : nat) (fn_begin p : Z) : M engine Z :=
  match n with
  | O => mret 0
  | S n =>
      '(fn_rva, p) ← read_rva p;
      '(regions, p) ← read_rva p;
      if fn_rva =? fn_begin then mret regions else find_funclet n fn_begin p
  end.

Definition load_exception_info (data image_base fn_begin : Z) : M engine exc_info :=
  flags ← load 1 data;
  let p := data + 1 in
  '(bbt, p) ← (if has_any_of flags FnBbt then read_unsigned p else mret (0, p));
  '(graph, p) ← (if has_any_of flags FnHasUnwindMap then read_rva p else mret (0, p));
  '(tries, p) ← (if has_any_of flags FnHasTryBlockMap then read_rva p else mret (0, p));
  '(regs, p) ←
    (if has_any_of flags FnHasMultipleFunclets then
       '(map, p) ← read_rva p;
       '(count, q) ← read_unsigned (rva_add image_base map);
       regs ← find_funclet (Z.to_nat count) fn_begin q;
       mret (regs, p)
     else read_rva p);
  '(frame, p) ← (if has_any_of flags FnIsCatchFunclet then read_unsigned p else mret (0, p));
  mret (ExcInfo flags bbt graph tries regs frame).

(** ** Regions *)

(** [n] regions remain at [p]; [fn_rva] is the start of the current one. *)
Fixpoint region_loop (n : nat) (pc p fn_rva state : Z) : M engine Z :=
  match n with
  | O => mret state
  | S n =>
      '(d, p) ← read_unsigned p;
      let fn_rva := u32 (fn_rva + d) in
      if pc <? fn_rva then mret state else
      '(x, p) ← read_unsigned p;
      region_loop n pc p fn_rva (signed 32 (u32 (x - 1)))
  end.

Definition lookup_region (eh_info : exc_info) (image_base fn control_pc : Z) : M engine Z :=
  if regions eh_info =? 0 then mret (-1) else
  let pc := make_rva control_pc (rva_add image_base fn) in
  '(count, p) ← read_unsigned (rva_add image_base (regions eh_info));
  region_loop (Z.to_nat count) pc p 0 (-1).

(** ** The unwind graph *)

Fixpoint skip_edges (n : nat) (idx final_state current last : Z) : M engine (Z * Z) :=
  match n with
  | O => mret (current, last)
  | S n =>
      current ← edge_skip current;
      skip_edges n (idx + 1) final_state current (if idx =? final_state then current else last)
  end.

(** The action of the edge at [entry], behind its offset and type [x]. *)
Definition run_edge (image_base frame_ptr x entry : Z) : M engine unit :=
  match to_edge_type x with
  | Trivial => mret tt
  | ObjectOffset =>
      '(f, entry) ← read_rva entry;
      '(off, entry) ← read_unsigned entry;
      invoke (rva_add image_base f) [frame_ptr + off]
  | ObjectPtrOffset =>
      '(f, entry) ← read_rva entry;
      '(off, entry) ← read_unsigned entry;
      obj ← load 8 (frame_ptr + off);
      invoke (rva_add image_base f) [obj]
  | Function =>
      '(f, entry) ← read_rva entry;
      invoke (rva_add image_base f) [rva_add image_base f; frame_ptr]
  end.

Fixpoint destroy_loop (fuel : nat) (image_base frame_ptr current last : Z) : M engine unit :=
  match fuel with
  | O => diverge
  | S fuel =>
      '(x, entry) ← read_unsigned current;
      let target := Z.shiftr x 2 in
      if target =? 0 then terminate CorruptedEhUnwindData else
      _ ← run_edge image_base frame_ptr x entry;
      if current - last <? target then mret tt
      else destroy_loop fuel image_base frame_ptr (current - target) last
  end.

Definition destroy_objects (image_base graph_rva frame_ptr initial_state final_state : Z)
    : M engine unit :=
  '(count, graph) ← read_unsigned (rva_add image_base graph_rva);
  if (initial_state <? 0) || (count <=? u32 initial_state)
  then terminate CorruptedEhUnwindData else
  '(current, last) ← skip_edges (Z.to_nat initial_state) 0 final_state graph graph;
  let last := if initial_state =? final_state then current else last in
  destroy_loop (S (Z.to_nat (current - last))) image_base frame_ptr current last.

(** ** Catch handlers *)

(** [catch_info.continuation_address[k] = a]: the array has two elements. *)
Definition write_continuation (k : nat) (a : Z) : M engine unit :=
  if (k <? 2)%nat then modify (fun s => set_ci (set_continuation k a (ci s)) s) else fault.

(** [n] continuation addresses remain at [q]. *)
Fixpoint read_continuations (n k : nat) (image_rva : bool) (image_base fn q : Z) : M engine Z :=
  match n with
  | O => mret q
  | S n =>
      '(a, q) ← (if image_rva then '(r, q) ← read_rva q; mret (rva_add image_base r, q)
                 else '(d, q) ← read_unsigned q; mret (fn + d, q));
      _ ← write_continuation k a;
      read_continuations n (S k) image_rva image_base fn q
  end.

(** One catch handler at [q]: whether it takes the exception, the address of its
    funclet, and the position behind it. *)
Definition try_handler (image_base fn_begin primary throw_info q : Z)
    : M engine (bool * Z * Z) :=
  handler_flags ← load 1 q;
  let q := q + 1 in
  '(type_flags, q) ← (if has_any_of handler_flags HasTypeFlags
                      then read_unsigned q else mret (0, q));
  '(type, q) ← (if has_any_of handler_flags HasTypeInfo then read_rva q else mret (0, q));
  count ← access (flag_get ContinuationAddrCount handler_flags);
  '(catch_var, q) ← (if has_any_of handler_flags HasCatchVar
                     then read_unsigned q else mret (0, q));
  '(handler, q) ← read_rva q;
  q ← read_continuations (Z.to_nat count) 0 (has_any_of handler_flags ImageRva) image_base
        (rva_add image_base fn_begin) q;
  obj ← get_exception_object;
  taken ← process_catch_block image_base type_flags (rva_add image_base type)
            (rva_add primary catch_var) obj throw_info;
  mret (taken, rva_add image_base handler, q).

(** [n] handlers of a try block remain at [q]; the funclet of the first that
    takes the exception. *)
Fixpoint handler_loop (n : nat) (image_base fn_begin primary throw_info q : Z)
    : M engine (option Z) :=
  match n with
  | O => mret None
  | S n =>
      '(taken, handler, q) ← try_handler image_base fn_begin primary throw_info q;
      if taken : bool then mret (Some handler)
      else handler_loop n image_base fn_begin primary throw_info q
  end.

(** The search of the try blocks: [n] blocks remain at [p].  [probe] is
    [probe_for_exception] on the current throw frame.  The result is the context
    and the target state. *)
Fixpoint try_block_loop (n : nat) (probe : M engine unit) (image_base fn_begin primary
    initial_state throw_info p : Z) (d : dispatcher_context) (target_state : Z)
    : M engine (dispatcher_context * Z) :=
  match n with
  | O => mret (d, target_state)
  | S n =>
      '(try_low, p) ← read_unsigned p;
      '(try_high, p) ← read_unsigned p;
      '(catch_high, p) ← read_unsigned p;
      '(handlers, p) ← read_rva p;
      if (u32 initial_state <? try_low) || (try_high <? u32 initial_state)
      then try_block_loop n probe image_base fn_begin primary initial_state throw_info p d
             target_state
      else
      throw_info ← (if throw_info =? 0 then _ ← probe; get_throw_info else mret throw_info);
      '(count, q) ← read_unsigned (rva_add image_base handlers);
      r ← handler_loop (Z.to_nat count) image_base fn_begin primary throw_info q;
      '(d, target_state) ←
        match r with
        | Some h =>
            let target := signed 32 (u32 (try_low - 1)) in
            _ ← modify (fun s => set_ci (set_unwind_context (u64 target)
                                           (set_primary primary (ci s))) s);
            mret (set_handler h d, target)
        | None => mret (d, target_state)
        end;
      if negb (handler d =? 0) then mret (d, target_state)
      else try_block_loop n probe image_base fn_begin primary initial_state throw_info p d
             target_state
  end.

Definition frame_handler4 (probe : M engine unit) (frame_ptr : Z) (d : dispatcher_context)
    : M engine (dispatcher_context * ExceptionDisposition) :=
  match cookie d with
  | rethrow_probe_cookie => mret (d, CxxHandler)
  | other_cookie => mret (d, ContinueSearch)
  | unwind_cookie =>
      let image_base := m_image_base (pdata d) in
      func_info ← load 4 (extra_data d);
      fn_begin ← load 4 (fn d);
      eh_info ← load_exception_info (rva_add image_base func_info) image_base fn_begin;
      s ← get;
      '(primary, initial_state) ←
        (if frame_ptr <=? primary_frame_ptr (ci s)
         then mret (primary_frame_ptr (ci s), signed 32 (unwind_context (ci s)))
         else
           st ← lookup_region eh_info image_base fn_begin (rip (mach s));
           primary ← (if has_any_of (fi_flags eh_info) FnIsCatchFunclet
                      then load 8 (rva_add frame_ptr (primary_frame_rva eh_info))
                      else mret frame_ptr);
           mret (primary, st));
      '(d, target_state) ←
        (if negb (try_blocks eh_info =? 0) && (0 <=? initial_state) then
           throw_info ← get_throw_info;
           '(count, p) ← read_unsigned (rva_add image_base (try_blocks eh_info));
           try_block_loop (Z.to_nat count) probe image_base fn_begin primary initial_state
             throw_info p d (-1)
         else mret (d, -1));
      _ ← (if target_state <? initial_state
           then destroy_objects image_base (unwind_graph eh_info) frame_ptr initial_state
                  target_state
           else mret tt);
      mret (d, CxxHandler)
  end.

(** [__CxxFrameHandler4] and [__GSHandlerCheck_EH4]. *)
Definition CxxFrameHandler4_fn (probe : M engine unit) (record : exception_record)
    (frame_ptr : Z) (d : dispatcher_context)
    : M engine (dispatcher_context * ExceptionDisposition) :=
  match record with
  | Some (_, flags) => _ ← verify_seh flags; mret (d, ContinueSearch)
  | None => frame_handler4 probe frame_ptr d
  end.

(** [gs_handler]: the kernel's stack cookie check of the frame. *)
Definition gs_handler (frame_ptr : Z) (d : dispatcher_context) : M engine unit :=
  invoke GSHandlerCheckCommon [frame_ptr; extra_data d + 4].

Definition GSHandlerCheck_EH4_fn (probe : M engine unit) (record : exception_record)
    (frame_ptr : Z) (d : dispatcher_context)
    : M engine (dispatcher_context * ExceptionDisposition) :=
  _ ← gs_handler frame_ptr d; CxxFrameHandler4_fn probe record frame_ptr d.
End fh4.
