(* ===== verification/FrameHandler4Spec.v ===== *)
(** * The compressed tables decoded

    A reference encoder for the FH4 tables and the proofs that the readers of
    frame_handler4.cpp invert it: integers, edges, regions and the unwind graph. *)
From stdpp Require Import base list gmap numbers.
From S2P Require Import Prelude ExcMachine Unwind Catch FrameHandler4.
#[local] Open Scope Z_scope.

(** ** Integers *)

(** The shortest encoding: the low bits of the first byte give the length. *)
Definition encode_unsigned (v : Z) : list Z :=
  if v <? 2 ^ 7 then le_bytes 1 (2 * v)
  else if v <? 2 ^ 14 then le_bytes 2 (4 * v + 1)
  else if v <? 2 ^ 21 then le_bytes 3 (8 * v + 3)
  else if v <? 2 ^ 28 then le_bytes 4 (16 * v + 7)
  else 15 :: le_bytes 4 v.

Definition u32_ok (v : Z) : Prop := 0 <= v < 2 ^ 32.

Lemma encode_unsigned_bytes v : Forall is_byte (encode_unsigned v).
Proof.
  unfold encode_unsigned. repeat case_match; try apply le_bytes_bytes.
  apply list.Forall_cons. split; [unfold is_byte; lia|apply le_bytes_bytes].
Qed.

Lemma encode_unsigned_length v : (1 <= length (encode_unsigned v) <= 5)%nat.
Proof. unfold encode_unsigned. repeat case_match; cbn [length]; rewrite ?length_le_bytes; lia. Qed.

Section reading.
Context `{P : program}.

(** The bytes [l] at [p], behind three readable bytes: [read_unsigned] always
    loads four bytes that end where the integer ends. *)
Definition readable_at (p : Z) (l : list Z) : Prop :=
  exists pre, length pre = 3%nat /\ Forall is_byte pre /\ image_at (p - 3) (pre ++ l).

Lemma readable_image p l : readable_at p l -> image_at p l.
Proof.
  intros (pre & Hl & _ & H). apply image_at_split in H as [_ H].
  rewrite Hl in H. by replace (p - 3 + Z.of_nat 3) with p in H by lia.
Qed.

Lemma readable_app p l l' :
  Forall is_byte l -> readable_at p (l ++ l') ->
  readable_at p l /\ readable_at (p + Z.of_nat (length l)) l'.
Proof.
  intros Hb (pre & Hl & Hpre & H). split.
  - exists pre. split; [done|]. split; [done|].
    rewrite (assoc_L (++)) in H. by apply image_at_split in H as [H _].
  - exists (drop (length l) (pre ++ l)). split.
    { rewrite length_drop, length_app. lia. }
    split; [by apply Forall_drop, Forall_app|].
    rewrite (assoc_L (++)), <- (take_drop (length l) (pre ++ l)), <- (assoc_L (++)) in H.
    apply image_at_split in H as [_ H].
    rewrite length_take, length_app in H.
    by replace (p - 3 + Z.of_nat (length l `min` (length pre + length l)))
      with (p + Z.of_nat (length l) - 3) in H by lia.
Qed.

(** What the four loaded bytes [w] and the first byte [b] must be for a value. *)
Lemma read_unsigned_raw p s b k l sh v :
  load 1 p s = Ok s b -> lengths !! Z.to_nat (Z.land b 15) = Some k ->
  shifts !! Z.to_nat (Z.land b 15) = Some sh ->
  image_at (p + k - 4) l -> length l = 4%nat -> Z.shiftr (le_word l) sh = v ->
  read_unsigned p s = Ok s (v, p + k).
Proof.
  intros Hb Hk Hs Hl Hn Hv. unfold read_unsigned.
  rewrite (bind_Ok _ _ _ _ _ Hb). cbv zeta. rewrite Hk, Hs. cbn [access].
  rewrite !ret_bind. by rewrite (bind_Ok _ _ _ _ _ (load_image 4 _ _ _ Hl Hn)), Hv.
Qed.

Lemma low_nibble b : Z.land b 15 = b mod 16.
Proof. change 15 with (Z.ones 4). by rewrite Z.land_ones by lia. Qed.

(** A length, a shift and the class of first bytes that select them. *)
Lemma nibble_class b :
  (b mod 2 = 0 -> lengths !! Z.to_nat (Z.land b 15) = Some 1 /\
                  shifts !! Z.to_nat (Z.land b 15) = Some 25) /\
  (b mod 4 = 1 -> lengths !! Z.to_nat (Z.land b 15) = Some 2 /\
                  shifts !! Z.to_nat (Z.land b 15) = Some 18) /\
  (b mod 8 = 3 -> lengths !! Z.to_nat (Z.land b 15) = Some 3 /\
                  shifts !! Z.to_nat (Z.land b 15) = Some 11) /\
  (b mod 16 = 7 -> lengths !! Z.to_nat (Z.land b 15) = Some 4 /\
                   shifts !! Z.to_nat (Z.land b 15) = Some 4) /\
  (b mod 16 = 15 -> lengths !! Z.to_nat (Z.land b 15) = Some 5 /\
                    shifts !! Z.to_nat (Z.land b 15) = Some 0).
Proof.
  rewrite low_nibble.
  assert (H2 : b mod 2 = (b mod 16) mod 2) by zdiv.
  assert (H4 : b mod 4 = (b mod 16) mod 4) by zdiv.
  assert (H8 : b mod 8 = (b mod 16) mod 8) by zdiv.
  rewrite H2, H4, H8. pose proof (Z.mod_pos_bound b 16 ltac:(lia)) as Hr.
  generalize dependent (b mod 16). intros k _ _ _ Hk.
  assert (k ∈ seqZ 0 16) as Hin by (apply elem_of_seqZ; lia). clear Hk.
  revert k Hin. apply list.Forall_forall.
  repeat constructor; vm_compute; split_and?; intros; try discriminate; done.
Qed.

Lemma load_first p b l s : readable_at p (b :: l) -> load 1 p s = Ok s b.
Proof.
  intros H. apply readable_image in H. apply (image_at_split _ [b]) in H as [H _].
  rewrite (load_image 1 _ _ _ H) by done. cbn. f_equal. lia.
Qed.

(** The last four bytes of what precedes the end of a [k]-byte integer. *)
Lemma readable_last p l k :
  readable_at p l -> k = Z.of_nat (length l) -> (1 <= length l)%nat ->
  exists pre, Forall is_byte pre /\ length pre = 3%nat /\
    image_at (p + k - 4) (drop (length l - 1) (pre ++ l)).
Proof.
  intros (pre & Hl & Hpre & H) -> H1. exists pre. split; [done|].
  split; [done|].
  rewrite <- (take_drop (length l - 1) (pre ++ l)) in H.
  apply image_at_split in H as [_ H]. rewrite length_take, length_app in H.
  by replace (p - 3 + Z.of_nat ((length l - 1) `min` (length pre + length l)))
    with (p + Z.of_nat (length l) - 4) in H by lia.
Qed.

Lemma read_unsigned_spec p v s :
  u32_ok v -> readable_at p (encode_unsigned v) ->
  read_unsigned p s = Ok s (v, p + Z.of_nat (length (encode_unsigned v))).
Proof.
  unfold u32_ok, encode_unsigned. intros Hv.
  repeat ztest; cbn [le_bytes length]; intros Hr;
    pose proof (load_first _ _ _ s Hr) as Hb;
    destruct (readable_last _ _ _ Hr eq_refl) as (pre & Hpre & Hlen & Hi);
    cbn [length] in *; try lia;
    (destruct pre as [|x0 [|x1 [|x2 [|]]]]; try discriminate Hlen);
    rewrite !list.Forall_cons in Hpre; destruct Hpre as (Hx0 & Hx1 & Hx2 & _);
    unfold is_byte in *; cbn [app drop Nat.sub] in Hi.
  - destruct (nibble_class ((2 * v) mod 256)) as [[Hk Hs] _]; [zdiv|].
    eapply read_unsigned_raw; [exact Hb|exact Hk|exact Hs|exact Hi|reflexivity|]. cbn [le_word]. rewrite Z.shiftr_div_pow2 by lia.
    change (2 ^ 25) with 33554432. zdiv.
  - destruct (nibble_class ((4 * v + 1) mod 256)) as [_ [[Hk Hs] _]]; [zdiv|].
    eapply read_unsigned_raw; [exact Hb|exact Hk|exact Hs|exact Hi|reflexivity|]. cbn [le_word]. rewrite Z.shiftr_div_pow2 by lia.
    change (2 ^ 18) with 262144. zdiv.
  - destruct (nibble_class ((8 * v + 3) mod 256)) as [_ [_ [[Hk Hs] _]]]; [zdiv|].
    eapply read_unsigned_raw; [exact Hb|exact Hk|exact Hs|exact Hi|reflexivity|]. cbn [le_word]. rewrite Z.shiftr_div_pow2 by lia.
    change (2 ^ 11) with 2048. zdiv.
  - destruct (nibble_class ((16 * v + 7) mod 256)) as [_ [_ [_ [[Hk Hs] _]]]]; [zdiv|].
    eapply read_unsigned_raw; [exact Hb|exact Hk|exact Hs|exact Hi|reflexivity|]. cbn [le_word]. rewrite Z.shiftr_div_pow2 by lia.
    change (2 ^ 4) with 16. zdiv.
  - destruct (nibble_class 15) as [_ [_ [_ [_ [Hk Hs]]]]]; [done|].
    eapply read_unsigned_raw; [exact Hb|exact Hk|exact Hs|exact Hi|reflexivity|]. cbn [le_word]. rewrite Z.shiftr_0_r. zdiv.
Qed.
End reading.

Definition encode_rva (v : Z) : list Z := le_bytes 4 v.

Section tables.
Context `{P : program}.

Lemma read_rva_spec p v s :
  u32_ok v -> readable_at p (encode_rva v) -> read_rva p s = Ok s (v, p + 4).
Proof.
  intros Hv H. apply readable_image in H. unfold read_rva, read_int.
  unfold mbind, M_bind. rewrite (load_image 4 _ _ _ H) by apply length_le_bytes.
  unfold encode_rva, mret, M_ret. rewrite le_word_le_bytes, Z.mod_small by (cbn; exact Hv).
  do 2 f_equal. unfold signed. rewrite (wrap_small 32 v) by done.
  destruct (v <? _); [by apply wrap_small|]. unfold wrap.
  replace (v - 2 ^ 32) with (v + (-1) * 2 ^ 32) by lia.
  rewrite Z.mod_add by done. by apply Z.mod_small.
Qed.

(** ** Regions *)

(** A region of the function's code: its first offset and its state. *)
Record region := Region { r_start : Z; r_state : Z }.

Fixpoint encode_regions (prev : Z) (rs : list region) : list Z :=
  match rs with
  | [] => []
  | r :: rs => encode_unsigned (r_start r - prev) ++ encode_unsigned (r_state r + 1) ++
               encode_regions (r_start r) rs
  end.

(** Starts do not decrease, states are -1 or the number of a state. *)
Fixpoint regions_ok (prev : Z) (rs : list region) : Prop :=
  match rs with
  | [] => True
  | r :: rs => prev <= r_start r < 2 ^ 32 /\ -1 <= r_state r < 2 ^ 31 /\
               regions_ok (r_start r) rs
  end.

(** The state of the last region that starts at or before [pc]. *)
Definition state_at (pc : Z) (rs : list region) : Z :=
  default (-1) (r_state <$> list.last (filter (fun r => r_start r <= pc) rs)).

Lemma signed_state x : -1 <= x < 2 ^ 31 -> signed 32 (u32 (x + 1 - 1)) = x.
Proof.
  intros Hx. rewrite Z.add_simpl_r. unfold signed. rewrite wrap_idemp.
  destruct (decide (x = -1)) as [->|]; [done|].
  rewrite wrap_small by lia. by rewrite (proj2 (Z.ltb_lt _ _)) by (cbn; lia).
Qed.

Lemma regions_ok_above prev rs pc :
  regions_ok prev rs -> pc < prev -> filter (fun r => r_start r <= pc) rs = [].
Proof.
  revert prev; induction rs as [|r rs IH]; intros prev Hok Hpc; [done|].
  destruct Hok as (Hs & _ & Hok). rewrite filter_cons_False by lia.
  apply (IH (r_start r)); [done|lia].
Qed.

Lemma region_loop_spec rs pc p prev state s :
  0 <= prev -> regions_ok prev rs -> readable_at p (encode_regions prev rs) ->
  region_loop (length rs) pc p prev state s =
    Ok s (default state (r_state <$> list.last (filter (fun r => r_start r <= pc) rs))).
Proof.
  revert p prev state; induction rs as [|r rs IH]; intros p prev state H0 Hok H; [done|].
  destruct Hok as (Hs & Hst & Hok). cbn [encode_regions] in H.
  apply readable_app in H as [H1 H]; [|apply encode_unsigned_bytes].
  apply readable_app in H as [H2 H]; [|apply encode_unsigned_bytes].
  cbn [region_loop length].
  erewrite bind_Ok; [|apply read_unsigned_spec; [|done]; unfold u32_ok; lia].
  cbv zeta beta iota. rewrite Zplus_minus, (wrap_small 32 (r_start r)) by lia.
  destruct (Z.ltb_spec pc (r_start r)) as [Hlt|Hge].
  - rewrite filter_cons_False by lia. by rewrite (regions_ok_above (r_start r)).
  - erewrite bind_Ok; [|apply read_unsigned_spec; [|done]; unfold u32_ok; lia].
    cbv beta iota. rewrite signed_state by lia. rewrite IH by (done || lia).
    rewrite filter_cons_True by lia.
    destruct (filter _ rs) as [|r' l]; [done|].
    rewrite last_cons_cons. by destruct (last_is_Some (r' :: l)) as [_ [? ->]].
Qed.
End tables.

(** ** The unwind graph

    A state has an action, a parent state (-1: none) and the distance its edge
    goes back in the encoded table. *)
Record node := Node { n_type : edge_type; n_fn : Z; n_obj : Z; n_parent : Z; n_offset : Z }.

Definition type_code (t : edge_type) : Z :=
  match t with Trivial => 0 | ObjectOffset => 1 | ObjectPtrOffset => 2 | Function => 3 end.

Definition encode_node (n : node) : list Z :=
  encode_unsigned (4 * n_offset n + type_code (n_type n)) ++
  match n_type n with
  | Trivial => []
  | ObjectOffset | ObjectPtrOffset => encode_rva (n_fn n) ++ encode_unsigned (n_obj n)
  | Function => encode_rva (n_fn n)
  end.

(** The position of a state in the encoded table. *)
Definition pos (g : list node) (i : nat) : Z :=
  Z.of_nat (length (concat (encode_node <$> take i g))).

(** Parents come before their children, and an edge goes back exactly to its
    parent, or behind the start of the table. *)
Definition node_ok (g : list node) (i : nat) (n : node) : Prop :=
  0 < n_offset n < 2 ^ 30 /\ u32_ok (n_fn n) /\ u32_ok (n_obj n) /\
  -1 <= n_parent n < Z.of_nat i /\
  (if decide (n_parent n = -1) then pos g i < n_offset n
   else n_offset n = pos g i - pos g (Z.to_nat (n_parent n))).

Definition graph_ok (g : list node) : Prop := forall i n, g !! i = Some n -> node_ok g i n.

(** The states from [i] up the tree, down to but excluding those [<= final]. *)
Fixpoint unwind_path (fuel : nat) (g : list node) (i final : Z) : list node :=
  match fuel with
  | O => []
  | S fuel =>
      if i <=? final then [] else
      match g !! Z.to_nat i with
      | Some n => n :: unwind_path fuel g (n_parent n) final
      | None => []
      end
  end.

Lemma encode_node_bytes n : Forall is_byte (encode_node n).
Proof.
  unfold encode_node. apply Forall_app. split; [apply encode_unsigned_bytes|].
  destruct (n_type n); unfold encode_rva; [by apply Forall_nil|..];
    rewrite ?Forall_app; auto using le_bytes_bytes, encode_unsigned_bytes.
Qed.

Lemma encode_node_length n : (0 < length (encode_node n))%nat.
Proof.
  unfold encode_node. rewrite length_app.
  pose proof (encode_unsigned_length (4 * n_offset n + type_code (n_type n))). lia.
Qed.

Lemma pos_S g i n :
  g !! i = Some n -> pos g (S i) = pos g i + Z.of_nat (length (encode_node n)).
Proof.
  intros H. unfold pos. rewrite (take_S_r _ _ _ H), fmap_app, concat_app, length_app.
  cbn. rewrite app_nil_r. lia.
Qed.

Lemma pos_lt g i j : (i < j <= length g)%nat -> pos g i < pos g j.
Proof.
  intros [Hij Hj]. induction Hij as [|j Hij IH].
  - destruct (lookup_lt_is_Some_2 g i) as [n Hn]; [lia|].
    rewrite (pos_S _ _ _ Hn). pose proof (encode_node_length n). lia.
  - destruct (lookup_lt_is_Some_2 g j) as [n Hn]; [lia|].
    rewrite (pos_S _ _ _ Hn). lia.
Qed.

Lemma pos_nonneg g i : 0 <= pos g i.
Proof. unfold pos. lia. Qed.

Lemma type_code_spec n :
  0 <= n_offset n -> to_edge_type (4 * n_offset n + type_code (n_type n)) = n_type n /\
  Z.shiftr (4 * n_offset n + type_code (n_type n)) 2 = n_offset n.
Proof.
  intros H. unfold to_edge_type. change 3 with (Z.ones 2).
  rewrite Z.land_ones, Z.shiftr_div_pow2 by lia. change (2 ^ 2) with 4.
  assert (Hm : (4 * n_offset n + type_code (n_type n)) mod 4 = type_code (n_type n)).
  { destruct (n_type n); cbn; zdiv. }
  rewrite Hm. split; destruct (n_type n); cbn; try done; zdiv.
Qed.

Section graph.
Context `{P : program}.

(** What a state does when it is left. *)
Definition node_action (image_base frame_ptr : Z) (n : node) : M engine unit :=
  let f := rva_add image_base (n_fn n) in
  match n_type n with
  | Trivial => mret tt
  | ObjectOffset => invoke f [frame_ptr + n_obj n]
  | ObjectPtrOffset => obj ← load 8 (frame_ptr + n_obj n); invoke f [obj]
  | Function => invoke f [f; frame_ptr]
  end.

Fixpoint run_actions (image_base frame_ptr : Z) (l : list node) : M engine unit :=
  match l with
  | [] => mret tt
  | n :: l => _ ← node_action image_base frame_ptr n; run_actions image_base frame_ptr l
  end.

Definition graph_at (p : Z) (g : list node) : Prop :=
  readable_at p (concat (encode_node <$> g)).

Lemma graph_node p g i n :
  graph_at p g -> g !! i = Some n -> readable_at (p + pos g i) (encode_node n).
Proof.
  unfold graph_at. intros H Hi.
  rewrite <- (take_drop_middle g i n Hi), fmap_app, concat_app in H. cbn in H.
  apply readable_app in H as [_ H].
  - apply readable_app in H as [H _]; [exact H|apply encode_node_bytes].
  - apply Forall_concat, Forall_fmap, Forall_true. intros; apply encode_node_bytes.
Qed.

Section one.
Context (g : list node) (i : nat) (n : node) (p : Z).
Context (Hok : node_ok g i n) (H : readable_at p (encode_node n)).

Lemma node_head s :
  read_unsigned p s =
    Ok s (4 * n_offset n + type_code (n_type n),
          p + Z.of_nat (length (encode_unsigned (4 * n_offset n + type_code (n_type n))))).
Proof using Hok H.
  apply readable_app in H as [H1 _]; [|apply encode_unsigned_bytes].
  apply read_unsigned_spec; [|done].
  destruct Hok as (Ho & _). unfold u32_ok. destruct (n_type n); cbn; lia.
Qed.

Lemma node_tail :
  readable_at (p + Z.of_nat (length (encode_unsigned (4 * n_offset n + type_code (n_type n)))))
    match n_type n with
    | Trivial => []
    | ObjectOffset | ObjectPtrOffset => encode_rva (n_fn n) ++ encode_unsigned (n_obj n)
    | Function => encode_rva (n_fn n)
    end.
Proof using H. apply readable_app in H as [_ H2]; [done|apply encode_unsigned_bytes]. Qed.

Lemma edge_skip_spec s : edge_skip p s = Ok s (p + Z.of_nat (length (encode_node n))).
Proof using Hok H.
  pose proof node_tail as Ht. pose proof Hok as (Ho & Hf & Hobj & _).
  unfold edge_skip, edge_read. unfold mbind at 1, M_bind at 1.
  erewrite bind_Ok by apply node_head. cbv beta iota zeta.
  destruct (type_code_spec n) as [-> ->]; [lia|].
  unfold encode_node. rewrite length_app. destruct (n_type n); cbn [length app].
  - rewrite !ret_bind. unfold mret, M_ret. f_equal. lia.
  - apply readable_app in Ht as [H1 H2]; [|apply le_bytes_bytes].
    erewrite bind_Ok by (by apply (read_rva_spec _ (n_fn n))). cbv beta iota.
    erewrite bind_Ok by (by apply (read_unsigned_spec _ (n_obj n))). unfold mret, M_ret; cbv beta iota; f_equal.
    rewrite length_app. unfold encode_rva. rewrite length_le_bytes. lia.
  - apply readable_app in Ht as [H1 H2]; [|apply le_bytes_bytes].
    erewrite bind_Ok by (by apply (read_rva_spec _ (n_fn n))). cbv beta iota.
    erewrite bind_Ok by (by apply (read_unsigned_spec _ (n_obj n))). unfold mret, M_ret; cbv beta iota; f_equal.
    rewrite length_app. unfold encode_rva. rewrite length_le_bytes. lia.
  - erewrite bind_Ok by (by apply (read_rva_spec _ (n_fn n))). unfold mret, M_ret; cbv beta iota; f_equal.
    unfold encode_rva. rewrite length_le_bytes. lia.
Qed.

Lemma run_edge_spec base frame s :
  run_edge base frame (4 * n_offset n + type_code (n_type n))
    (p + Z.of_nat (length (encode_unsigned (4 * n_offset n + type_code (n_type n))))) s =
  node_action base frame n s.
Proof using Hok H.
  pose proof node_tail as Ht. pose proof Hok as (Ho & Hf & Hobj & _).
  unfold run_edge, node_action.
  destruct (type_code_spec n) as [-> _]; [lia|]. destruct (n_type n); [done|..].
  - apply readable_app in Ht as [H1 H2]; [|apply le_bytes_bytes].
    erewrite bind_Ok by (by apply (read_rva_spec _ (n_fn n))). cbv beta iota.
    by erewrite bind_Ok by (by apply (read_unsigned_spec _ (n_obj n))).
  - apply readable_app in Ht as [H1 H2]; [|apply le_bytes_bytes].
    erewrite bind_Ok by (by apply (read_rva_spec _ (n_fn n))). cbv beta iota.
    by erewrite bind_Ok by (by apply (read_unsigned_spec _ (n_obj n))).
  - by erewrite bind_Ok by (by apply (read_rva_spec _ (n_fn n))).
Qed.
End one.

Context (p : Z) (g : list node) (Hat : graph_at p g) (Hok : graph_ok g).

Lemma skip_edges_spec final n idx last s :
  (idx + n <= length g)%nat ->
  skip_edges n (Z.of_nat idx) final (p + pos g idx) last s =
    Ok s (p + pos g (idx + n)%nat,
          if decide (Z.of_nat idx <= final < Z.of_nat (idx + n))
          then p + pos g (Z.to_nat (final + 1)) else last).
Proof using Hat Hok.
  revert idx last; induction n as [|n IH]; intros idx last Hlen; cbn [skip_edges].
  - rewrite Nat.add_0_r. rewrite decide_False by lia. done.
  - destruct (lookup_lt_is_Some_2 g idx) as [nd Hn]; [lia|].
    erewrite bind_Ok.
    2: { apply (edge_skip_spec g idx nd); [by apply Hok|by apply graph_node]. }
    rewrite <- Z.add_assoc, <- (pos_S _ _ _ Hn).
    replace (Z.of_nat idx + 1) with (Z.of_nat (S idx)) by lia.
    rewrite IH by lia. replace (S idx + n)%nat with (idx + S n)%nat by lia.
    apply (f_equal (Ok s)), (f_equal (pair _)).
    destruct (Z.eqb_spec (Z.of_nat idx) final) as [<-|Hne].
    + rewrite decide_False, decide_True by lia.
      by replace (Z.to_nat (Z.of_nat idx + 1)) with (S idx) by lia.
    + repeat case_decide; try lia; done.
Qed.

Lemma destroy_loop_spec base frame final fuel k i s :
  (i < length g)%nat -> -1 <= final < Z.of_nat i -> (i < k)%nat ->
  pos g i - pos g (Z.to_nat (final + 1)) < Z.of_nat fuel ->
  destroy_loop fuel base frame (p + pos g i) (p + pos g (Z.to_nat (final + 1))) s =
    run_actions base frame (unwind_path k g (Z.of_nat i) final) s.
Proof using Hat Hok.
  revert k i s; induction fuel as [|fuel IH]; intros k i s Hi Hf Hk Hfuel.
  { destruct (decide (i = Z.to_nat (final + 1))) as [->|]; [lia|].
    pose proof (pos_lt g (Z.to_nat (final + 1)) i). lia. }
  destruct k as [|k]; [lia|]. cbn [unwind_path destroy_loop].
  rewrite (proj2 (Z.leb_gt _ _)) by lia. rewrite Nat2Z.id.
  destruct (lookup_lt_is_Some_2 g i) as [nd Hn]; [lia|]. rewrite Hn.
  pose proof (Hok i nd Hn) as Hnok. pose proof (graph_node _ _ _ _ Hat Hn) as Hr.
  erewrite bind_Ok by (by eapply node_head). cbv beta iota zeta.
  pose proof Hnok as (Ho & _ & _ & Hpar & Hoff).
  destruct (type_code_spec nd) as [_ ->]; [lia|].
  rewrite (proj2 (Z.eqb_neq _ _)) by lia.
  cbn [run_actions]. unfold mbind, M_bind. rewrite (run_edge_spec g i) by done.
  destruct (node_action base frame nd s) as [s1 []| | |]; try done.
  replace (p + pos g i - (p + pos g (Z.to_nat (final + 1))))
    with (pos g i - pos g (Z.to_nat (final + 1))) by lia.
  destruct (decide (n_parent nd = -1)) as [Hroot|Hne].
  - rewrite (proj2 (Z.ltb_lt _ _)) by (pose proof (pos_nonneg g (Z.to_nat (final + 1))); lia).
    destruct k as [|k]; [done|]. cbn [unwind_path].
    by rewrite Hroot, (proj2 (Z.leb_le _ _)) by lia.
  - rewrite Hoff. replace (p + pos g i - (pos g i - pos g (Z.to_nat (n_parent nd))))
      with (p + pos g (Z.to_nat (n_parent nd))) by lia.
    destruct (decide (n_parent nd <= final)) as [Hle|Hgt].
    + rewrite (proj2 (Z.ltb_lt _ _))
        by (pose proof (pos_lt g (Z.to_nat (n_parent nd)) (Z.to_nat (final + 1))); lia).
      destruct k as [|k]; [lia|]. cbn [unwind_path].
      by rewrite (proj2 (Z.leb_le _ _)) by lia.
    + assert (pos g (Z.to_nat (final + 1)) <= pos g (Z.to_nat (n_parent nd))).
      { destruct (decide (Z.to_nat (final + 1) = Z.to_nat (n_parent nd))) as [->|]; [done|].
        pose proof (pos_lt g (Z.to_nat (final + 1)) (Z.to_nat (n_parent nd))). lia. }
      rewrite (proj2 (Z.ltb_ge _ _)) by lia.
      rewrite (IH k (Z.to_nat (n_parent nd))); [by rewrite Z2Nat.id by lia|lia..].
Qed.
End graph.
