(* ===== verification/FrameHandler3.v ===== *)
(** * The uncompressed exception tables (frame_handler3.cpp)

    Frame handler of functions compiled with the FH3 tables of fixed-size records
    ([function_eh_info], [try_block], [catch_handler], [eh_region],
    [unwind_graph_edge] of exception_info.hpp). *)
From stdpp Require Import base list gmap numbers.
From S2P Require Import Prelude ExcMachine Unwind Catch FrameHandler4.
#[local] Open Scope Z_scope.

Definition EhIsNoexcept : Z := 4.

Definition sizeof_try_block : Z := 20.
Definition sizeof_catch_handler : Z := 20.
Definition sizeof_eh_region : Z := 8.
Definition sizeof_unwind_graph_edge : Z := 8.

Record try_block := TryBlock {
  try_low : Z; try_high : Z; catch_high : Z; catch_count : Z; catch_handlers : Z }.

Record catch_handler := CatchHandler {
  adjectives : Z; type_desc : Z; catch_object_offset : Z; ch_handler : Z; node_offset : Z }.

Record function_eh_info := FunctionEhInfo {
  eh_unwind_graph : Z; try_block_count : Z; eh_try_blocks : Z; region_count : Z;
  eh_regions : Z; eh_flags : Z }.

Section fh3.
Context `{P : program}.

Definition load_i32 (a : Z) : M engine Z := v ← load 4 a; mret (signed 32 v).

Definition load_eh_info (a : Z) : M engine function_eh_info :=
  graph ← load 4 (a + 0x08); tbc ← load_i32 (a + 0x0c); tb ← load 4 (a + 0x10);
  rc ← load 4 (a + 0x14); r ← load 4 (a + 0x18); fl ← load 4 (a + 0x24);
  mret (FunctionEhInfo graph tbc tb rc r fl).

(** [try_blocks[idx]] and [catch_handlers[idx]]. *)
Definition load_try_block (blocks idx : Z) : M engine try_block :=
  let a := blocks + idx * sizeof_try_block in
  lo ← load_i32 a; hi ← load_i32 (a + 4); ch ← load_i32 (a + 8);
  n ← load_i32 (a + 12); h ← load 4 (a + 16);
  mret (TryBlock lo hi ch n h).

Definition load_catch_handler (handlers idx : Z) : M engine catch_handler :=
  let a := handlers + idx * sizeof_catch_handler in
  adj ← load 4 a; ty ← load 4 (a + 4); off ← load 4 (a + 8);
  h ← load 4 (a + 12); node ← load 4 (a + 16);
  mret (CatchHandler adj ty off h node).

(** [for (i = 1; i != region_count; ++i)]: [n] iterations remain. *)
Fixpoint region_state_loop (n : nat) (pc_rva regions i state : Z) : M engine Z :=
  match n with
  | O => mret state
  | S n =>
      first_ip ← load 4 (regions + i * sizeof_eh_region);
      if pc_rva <? first_ip then load_i32 (regions + (i - 1) * sizeof_eh_region + 4)
      else region_state_loop n pc_rva regions (i + 1) state
  end.

Definition region_state (regions region_count pc_rva : Z) : M engine Z :=
  let n := u32 (region_count - 1) in
  state ← load_i32 (regions + n * sizeof_eh_region + 4);
  region_state_loop (Z.to_nat n) pc_rva regions 1 state.

(** The handler of this try block whose funclet is the current function: the
    frame of the function the funclet belongs to. *)
Fixpoint find_primary_frame (n : nat) (handlers idx fn_begin frame_ptr primary : Z)
    : M engine Z :=
  match n with
  | O => mret primary
  | S n =>
      h ← load_catch_handler handlers idx;
      if ch_handler h =? fn_begin then
        primary ← load 8 (rva_add frame_ptr (node_offset h));
        if primary <? frame_ptr then terminate CorruptedExceptionHandler else mret primary
      else find_primary_frame n handlers (idx + 1) fn_begin frame_ptr primary
  end.

(** The search for the funclet the frame belongs to, downwards from
    [home_block_index = n - 1]: the new index, the primary frame and the low state
    of the funclet. *)
Fixpoint find_funclet_block (n : nat) (image_base blocks fn_begin frame_ptr state primary : Z)
    : M engine (Z * Z * Z) :=
  match n with
  | O => mret (-1, primary, -1)
  | S n =>
      tb ← load_try_block blocks (Z.of_nat n);
      if (try_high tb <? state) && (state <=? catch_high tb) then
        primary ← (if primary <? frame_ptr
                   then find_primary_frame (Z.to_nat (catch_count tb))
                          (rva_add image_base (catch_handlers tb)) 0 fn_begin frame_ptr primary
                   else mret primary);
        mret (Z.of_nat n, primary, try_low tb)
      else find_funclet_block n image_base blocks fn_begin frame_ptr state primary
  end.

(** The handlers of one try block: the first that takes the exception. *)
Fixpoint catch_loop (n : nat) (image_base handlers idx primary throw_info : Z)
    : M engine (option catch_handler) :=
  match n with
  | O => mret None
  | S n =>
      h ← load_catch_handler handlers idx;
      obj ← get_exception_object;
      taken ← process_catch_block image_base (adjectives h) (rva_add image_base (type_desc h))
                (rva_add primary (catch_object_offset h)) obj throw_info;
      if taken : bool then mret (Some h)
      else catch_loop n image_base handlers (idx + 1) primary throw_info
  end.

(** The try blocks from [idx] on, [n] of them: the context, the target state and
    whether a handler was found. *)
Fixpoint target_loop (n : nat) (probe : M engine unit) (image_base blocks idx state
    funclet_low_state home_block_index primary uctx throw_info : Z) (d : dispatcher_context)
    (target_state : Z) : M engine (dispatcher_context * Z * bool) :=
  match n with
  | O => mret (d, target_state, false)
  | S n =>
      tb ← load_try_block blocks idx;
      if (try_low tb <=? state) && (state <=? try_high tb) &&
         negb (try_low tb <? funclet_low_state) then
        throw_info ← (if throw_info =? 0 then _ ← probe; get_throw_info else mret throw_info);
        r ← catch_loop (Z.to_nat (catch_count tb)) image_base
              (rva_add image_base (catch_handlers tb)) 0 primary throw_info;
        match r with
        | Some h =>
            _ ← modify (fun s => set_ci (set_primary primary (ci s)) s);
            _ ← store 4 home_block_index (uctx + 4);
            _ ← store 4 (try_low tb - 1) uctx;
            mret (set_handler (rva_add image_base (ch_handler h)) d, try_low tb - 1, true)
        | None =>
            target_loop n probe image_base blocks (idx + 1) state funclet_low_state
              home_block_index primary uctx throw_info d target_state
        end
      else target_loop n probe image_base blocks (idx + 1) state funclet_low_state
             home_block_index primary uctx throw_info d target_state
  end.

(** [while (state > target_state)] over the unwind graph. *)
Fixpoint cleanup_loop (fuel : nat) (image_base graph frame_ptr state target_state : Z)
    : M engine unit :=
  match fuel with
  | O => diverge
  | S fuel =>
      if target_state <? state then
        let a := graph + state * sizeof_unwind_graph_edge in
        next ← load_i32 a;
        cleanup ← load 4 (a + 4);
        _ ← (if cleanup =? 0 then mret tt
             else invoke (rva_add image_base cleanup) [rva_add image_base cleanup; frame_ptr]);
        cleanup_loop fuel image_base graph frame_ptr next target_state
      else mret tt
  end.

(** [fuel] bounds the walk over the unwind graph. *)
Definition frame_handler3 (fuel : nat) (probe : M engine unit) (frame_ptr : Z)
    (d : dispatcher_context) : M engine (dispatcher_context * ExceptionDisposition) :=
  match cookie d with
  | rethrow_probe_cookie => mret (d, CxxHandler)
  | other_cookie => mret (d, ContinueSearch)
  | unwind_cookie =>
      s ← get;
      let uctx := unwind_context (ci s) in
      let image_base := m_image_base (pdata d) in
      eh_info_rva ← load 4 (extra_data d);
      eh ← load_eh_info (rva_add image_base eh_info_rva);
      let blocks := rva_add image_base (eh_try_blocks eh) in
      let primary := primary_frame_ptr (ci s) in
      '(state, home_block_index) ←
        (if primary <? frame_ptr then
           st ← region_state (rva_add image_base (eh_regions eh)) (region_count eh)
                  (make_rva (rip (mach s)) image_base);
           mret (st, try_block_count eh - 1)
         else
           st ← load_i32 uctx; home ← load_i32 (uctx + 4); mret (st, home));
      '(home_block_index, primary, funclet_low_state) ←
        (if primary =? frame_ptr then mret (-1, primary, -1)
         else
           fn_begin ← load 4 (fn d);
           '(home, p, low) ← find_funclet_block (Z.to_nat (home_block_index + 1)) image_base
                               blocks fn_begin frame_ptr state primary;
           mret (home, (if p <? frame_ptr then frame_ptr else p), low));
      throw_info ← get_throw_info;
      '(d, target_state, found) ←
        target_loop (Z.to_nat (try_block_count eh - (home_block_index + 1))) probe image_base
          blocks (home_block_index + 1) state funclet_low_state home_block_index primary uctx
          throw_info d funclet_low_state;
      if (home_block_index =? -1) && negb found && has_any_of (eh_flags eh) EhIsNoexcept
      then terminate NoexceptViolation else
      if target_state <? funclet_low_state then terminate CorruptedFunctionUnwindState else
      _ ← cleanup_loop fuel image_base (rva_add image_base (eh_unwind_graph eh)) frame_ptr state
            target_state;
      mret (d, CxxHandler)
  end.

(** [__CxxFrameHandler3] and [__GSHandlerCheck_EH]. *)
Definition CxxFrameHandler3_fn (fuel : nat) (probe : M engine unit) (record : exception_record)
    (frame_ptr : Z) (d : dispatcher_context)
    : M engine (dispatcher_context * ExceptionDisposition) :=
  match record with
  | Some (_, flags) => _ ← verify_seh flags; mret (d, ContinueSearch)
  | None => frame_handler3 fuel probe frame_ptr d
  end.

Definition GSHandlerCheck_EH_fn (fuel : nat) (probe : M engine unit) (record : exception_record)
    (frame_ptr : Z) (d : dispatcher_context)
    : M engine (dispatcher_context * ExceptionDisposition) :=
  _ ← gs_handler frame_ptr d; CxxFrameHandler3_fn fuel probe record frame_ptr d.
End fh3.
