(* ===== verification/CatchSpec.v ===== *)
(** * Matching catch blocks, handing over exceptions, leaving states

    Specifications of the engine's building blocks on the tables of a well-formed
    image: the catchable types of a thrown object, the qualifiers of a catch
    parameter, the cleanup states of the FH3 tables. *)
From stdpp Require Import base list gmap numbers.
From S2P Require Import Prelude ExcMachine Unwind Catch FrameHandler4 FrameHandler3.
#[local] Open Scope Z_scope.

Definition word_ok (x : Z) : Prop := 0 <= x < 2 ^ 32.

(** ** Thrown types *)

Record catchable := Catchable {
  c_properties : Z; c_desc : Z; c_vbase : Z; c_vbtable : Z; c_member : Z; c_size : Z;
  c_copy : Z }.

Definition words (l : list Z) : list Z := concat (le_bytes 4 <$> l).

Definition catchable_words (c : catchable) : list Z :=
  [c_properties c; c_desc c; c_vbase c; c_vbtable c; c_member c; c_size c; c_copy c].

(** Every const, volatile or unaligned qualifier of the thrown object is also on
    the catch parameter. *)
Definition qualifiers_kept (attributes adjectives : Z) : bool :=
  forallb (fun k => implb (Z.testbit attributes k) (Z.testbit adjectives k)) [0; 1; 2].

Lemma qualifiers_kept_spec attributes adj :
  (Z.land (Z.land attributes (Z.lor (Z.lor ThrowIsConst ThrowIsVolatile) ThrowIsUnaligned))
          (bit_negation 32 adj) =? 0) = qualifiers_kept attributes adj.
Proof.
  change (Z.lor (Z.lor ThrowIsConst ThrowIsVolatile) ThrowIsUnaligned) with 7.
  assert (Hb : forall k, 0 <= k < 32 ->
    Z.testbit (bit_negation 32 adj) k = negb (Z.testbit adj k)).
  { intros k Hk. unfold bit_negation, wrap.
    rewrite Z.mod_pow2_bits_low by lia. by rewrite Z.lnot_spec by lia. }
  assert (H7 : forall k, 3 <= k -> Z.testbit 7 k = false).
  { intros k Hk. apply (Z.bits_above_log2 7); [lia|]. vm_compute (Z.log2 7). lia. }
  unfold qualifiers_kept. cbn [forallb]. apply eq_true_iff_eq.
  rewrite Z.eqb_eq, !andb_true_iff, !implb_true_iff. split.
  - intros H0.
    assert (Hk : forall k, 0 <= k < 3 -> Z.testbit attributes k = true -> Z.testbit adj k = true).
    { intros k Hk Ha. apply (f_equal (fun z => Z.testbit z k)) in H0.
      rewrite !Z.land_spec, Ha, Hb, Z.bits_0 in H0 by lia.
      assert (Z.testbit 7 k = true) as H7k.
      { assert (k = 0 \/ k = 1 \/ k = 2) as [->|[->| ->]] by lia; done. }
      rewrite H7k in H0. by destruct (Z.testbit adj k). }
    repeat split; intros; apply Hk; (lia || done).
  - intros (H0 & H1 & H2 & _). apply Z.bits_inj'. intros k Hk.
    rewrite !Z.land_spec, Z.bits_0.
    destruct (decide (3 <= k)); [rewrite H7 by lia; by rewrite andb_false_r|].
    rewrite Hb by lia.
    assert (Z.testbit attributes k = true -> Z.testbit adj k = true) as Himp.
    { assert (k = 0 \/ k = 1 \/ k = 2) as [->|[->| ->]] by lia; done. }
    destruct (Z.testbit attributes k); [|done]. rewrite Himp by done. apply andb_false_r.
Qed.

Section spec.
Context `{P : program}.

Lemma length_words l : length (words l) = (4 * length l)%nat.
Proof.
  induction l as [|x l IH]; [done|]. unfold words in *. rewrite fmap_cons. cbn [concat].
  rewrite length_app, length_le_bytes, IH. cbn [length]. lia.
Qed.

(** The [i]-th 32-bit word of a table. *)
Lemma load_word a l i x s :
  image_at a (words l) -> l !! i = Some x -> word_ok x ->
  load 4 (a + 4 * Z.of_nat i) s = Ok s x.
Proof.
  intros H Hi Hx. rewrite <- (take_drop_middle l i x Hi) in H.
  unfold words in H. rewrite fmap_app, fmap_cons, concat_app in H. cbn [concat] in H.
  apply image_at_split in H as [_ H]. fold (words (take i l)) in H.
  rewrite length_words, length_take in H. apply image_at_split in H as [H _].
  apply lookup_lt_Some in Hi.
  replace (a + Z.of_nat (4 * (i `min` length l))) with (a + 4 * Z.of_nat i) in H by lia.
  rewrite (load_image 4 _ _ _ H) by apply length_le_bytes.
  rewrite le_word_le_bytes. f_equal. apply Z.mod_small. exact Hx.
Qed.

(** A thrown type: its [throw_info] at [ti], the list of its catchable types. *)
Record throw_at (base ti attributes : Z) (rvas : list Z) (cs : list catchable) : Prop := {
  ta_list : exists destroy compat lst,
    image_at ti (words [attributes; destroy; compat; lst]) /\ word_ok lst /\
    image_at (rva_add base lst) (words (Z.of_nat (length rvas) :: rvas));
  ta_attr : word_ok attributes;
  ta_count : Z.of_nat (length rvas) < 2 ^ 32;
  ta_rvas : Forall word_ok rvas;
  ta_len : length cs = length rvas;
  ta_types i rva c : rvas !! i = Some rva -> cs !! i = Some c ->
    image_at (rva_add base rva) (words (catchable_words c)) /\
    word_ok (c_desc c) /\ word_ok (c_properties c) }.

(** Initialising the catch variable from the catchable type at [a]. *)
Definition bind_catch_var (base adjectives a : Z) (c : catchable) (catch_var object : Z)
    : M engine unit :=
  if has_any_of adjectives IsReference then store 8 object catch_var
  else if has_any_of (c_properties c) ByReferenceOnly then mret tt
  else copy_to_catch_block base a catch_var object.

Definition type_matches (base match_type : Z) (c : catchable) : Prop :=
  rva_add base (c_desc c) = match_type.

#[global] Instance type_matches_dec base ty c : Decision (type_matches base ty c).
Proof. unfold type_matches; apply _. Defined.

Lemma transfer_to_catch_block_spec base adj a c var obj s :
  image_at a (words (catchable_words c)) -> word_ok (c_properties c) ->
  transfer_to_catch_block base adj a var obj s = bind_catch_var base adj a c var obj s.
Proof.
  intros H Hp. unfold transfer_to_catch_block, bind_catch_var.
  pose proof (load_word a _ 0 (c_properties c) s H eq_refl Hp) as Hl.
  rewrite Z.mul_0_r, Z.add_0_r in Hl. rewrite (bind_Ok _ _ _ _ _ Hl).
  destruct (has_any_of (c_properties c) ByReferenceOnly), (has_any_of adj IsReference); done.
Qed.

(** The loop over the list from entry [i] on. *)
Lemma match_catchables_spec base adj ty var obj ti attributes rvas cs types s n i :
  throw_at base ti attributes rvas cs -> image_at types (words rvas) ->
  (i + n = length rvas)%nat ->
  match_catchables n base adj ty var obj types (Z.of_nat i) s =
    match list_find (type_matches base ty) (drop i cs) with
    | None => Ok s false
    | Some (j, c) =>
        (_ ← bind_catch_var base adj (rva_add base (rvas !!! (i + j)%nat)) c var obj;
         mret true) s
    end.
Proof.
  intros Ht Hi. revert i; induction n as [|n IH]; intros i Hn.
  - rewrite drop_ge; [done|]. rewrite (ta_len _ _ _ _ _ Ht). lia.
  - cbn [match_catchables].
    destruct (lookup_lt_is_Some_2 rvas i) as [rva Hr]; [lia|].
    destruct (lookup_lt_is_Some_2 cs i) as [c Hc]; [rewrite (ta_len _ _ _ _ _ Ht); lia|].
    destruct (ta_types _ _ _ _ _ Ht i rva c Hr Hc) as (Him & Hd & Hp).
    pose proof (Forall_lookup_1 _ _ _ _ (ta_rvas _ _ _ _ _ Ht) Hr) as Hrok.
    rewrite (bind_Ok _ _ _ _ _ (load_word _ _ _ _ s Hi Hr Hrok)). cbv zeta.
    rewrite (bind_Ok _ _ _ _ _ (load_word _ _ 1 _ s Him eq_refl Hd)).
    rewrite (drop_S _ _ _ Hc). cbn [list_find].
    destruct (Z.eqb_spec (rva_add base (c_desc c)) ty) as [Heq|Hne].
    + rewrite decide_True by exact Heq. rewrite Nat.add_0_r.
      rewrite (list_lookup_total_correct _ _ _ Hr).
      unfold mbind, M_bind. by rewrite (transfer_to_catch_block_spec _ _ _ c).
    + rewrite decide_False by exact Hne.
      replace (Z.of_nat i + 1) with (Z.of_nat (S i)) by lia.
      rewrite IH by lia. destruct (list_find _ (drop (S i) cs)) as [[j c']|]; [|done].
      cbn. by replace (i + S j)%nat with (S (i + j))%nat by lia.
Qed.

(** ** Cleanup states (FH3) *)

Record cleanup := Cleanup { cl_next : Z; cl_fn : Z }.

Definition cleanup_ok (i : nat) (c : cleanup) : Prop :=
  -1 <= cl_next c < Z.of_nat i /\ word_ok (cl_fn c).

Definition cleanups_ok (g : list cleanup) : Prop :=
  Z.of_nat (length g) < 2 ^ 31 /\ forall i c, g !! i = Some c -> cleanup_ok i c.

Definition cleanup_words (g : list cleanup) : list Z :=
  concat ((fun c => [u32 (cl_next c); cl_fn c]) <$> g).

Fixpoint cleanup_path (fuel : nat) (g : list cleanup) (i target : Z) : list cleanup :=
  match fuel with
  | O => []
  | S fuel =>
      if i <=? target then [] else
      match g !! Z.to_nat i with
      | Some c => c :: cleanup_path fuel g (cl_next c) target
      | None => []
      end
  end.

Fixpoint run_cleanups (base frame_ptr : Z) (l : list cleanup) : M engine unit :=
  match l with
  | [] => mret tt
  | c :: l =>
      _ ← (if cl_fn c =? 0 then mret tt
           else invoke (rva_add base (cl_fn c)) [rva_add base (cl_fn c); frame_ptr]);
      run_cleanups base frame_ptr l
  end.

Lemma cleanup_words_lookup g i c :
  g !! i = Some c ->
  cleanup_words g !! (2 * i)%nat = Some (u32 (cl_next c)) /\
  cleanup_words g !! (2 * i + 1)%nat = Some (cl_fn c).
Proof.
  revert i; induction g as [|c' g IH]; intros [|i] Hi; try done; cbn in Hi.
  - by simplify_eq.
  - replace (2 * S i)%nat with (S (S (2 * i))) by lia. apply (IH i Hi).
Qed.

Lemma signed_next x : -1 <= x < 2 ^ 31 -> signed 32 (u32 x) = x.
Proof.
  intros Hx. unfold signed. rewrite wrap_idemp.
  destruct (decide (x = -1)) as [->|]; [done|].
  rewrite wrap_small by lia. by rewrite (proj2 (Z.ltb_lt _ _)) by (cbn; lia).
Qed.

Lemma cleanup_loop_spec base graph frame g target fuel k i s :
  cleanups_ok g -> image_at graph (words (cleanup_words g)) ->
  -1 <= target -> -1 <= i < Z.of_nat (length g) ->
  i - target < Z.of_nat fuel -> i < Z.of_nat k -> (0 < fuel)%nat ->
  cleanup_loop fuel base graph frame i target s =
    run_cleanups base frame (cleanup_path k g i target) s.
Proof.
  intros [Hlen Hok] Hi Ht. revert k i s; induction fuel as [|fuel IH]; intros k i s Hr Hf Hk Hp;
    [lia|]. cbn [cleanup_loop].
  destruct (Z.ltb_spec target i) as [Hlt|Hge].
  2: { destruct k; cbn [cleanup_path]; [done|]. by rewrite (proj2 (Z.leb_le _ _)) by lia. }
  destruct k as [|k]; [lia|]. cbn [cleanup_path]. rewrite (proj2 (Z.leb_gt _ _)) by lia.
  destruct (lookup_lt_is_Some_2 g (Z.to_nat i)) as [c Hc]; [lia|]. rewrite Hc.
  destruct (cleanup_words_lookup _ _ _ Hc) as [H1 H2]. destruct (Hok _ _ Hc) as [Hn Hfn].
  unfold load_i32. unfold sizeof_unwind_graph_edge.
  replace (graph + i * 8) with (graph + 4 * Z.of_nat (2 * Z.to_nat i)) by lia.
  replace (graph + 4 * Z.of_nat (2 * Z.to_nat i) + 4)
    with (graph + 4 * Z.of_nat (2 * Z.to_nat i + 1)) by lia.
  cbv zeta. erewrite bind_Ok.
  2: { rewrite (bind_Ok _ _ _ _ _ (load_word _ _ _ _ s Hi H1 (wrap_range 32 _ ltac:(lia)))).
       reflexivity. }
  rewrite (bind_Ok _ _ _ _ _ (load_word _ _ _ _ s Hi H2 Hfn)).
  rewrite signed_next by lia. cbn [run_cleanups]. unfold mbind, M_bind.
  destruct ((if cl_fn c =? 0 then mret tt else invoke _ _) s) as [s1 []| | |]; try done.
  apply IH; lia.
Qed.
End spec.
