(* ===== verification/Dispatch.v ===== *)
(** * Exception dispatch (catch.cpp)

    [__cxx_dispatch_exception] walks the stack: it runs the handler of the current
    frame and unwinds one frame, until a handler has chosen a catch block.  A
    rethrow has no exception object of its own; a frame handler that needs one
    calls [probe_for_exception], which walks on until the frame of a running catch
    block supplies the exception.  The loops are bounded by [fuel]: the code ends
    them only by finding a handler or by a bug check. *)
From stdpp Require Import base list gmap numbers.
From S2P Require Import Prelude ExcMachine Unwind Catch FrameHandler4 FrameHandler3.
#[local] Open Scope Z_scope.

Definition HandlerInfoException : Z := 0x1.
Definition HandlerInfoUnwind : Z := 0x2.

Section dispatch.
Context `{P : program}.

(** The handler's address and data lie behind the unwind codes. *)
Definition get_frame_handler (image_base ui unwind_slots : Z) : M engine (Z * Z) :=
  let a := ui + 4 + 2 * unwind_slots in
  rva ← load 4 a; mret (rva_add image_base rva, a + 4).

Definition prepare_for_non_cxx_handler (d : dispatcher_context) : M engine dispatcher_context :=
  s ← get;
  _ ← put (set_ctx (<[offsetof_dummy_rip := rip (mach s)]>
                     (<[offsetof_dummy_rsp := rsp (mach s)]> (ctx s))) s);
  mret (DispatcherContext (rip (mach s)) (fn d) (pdata d) (handler d) (extra_data d) 0 0
          (cookie d)).

(** The call [handler(&win::exc_record_cookie, frame_ptr, ...)]. *)
Definition call_handler (fuel : nat) (probe : M engine unit) (h frame_ptr : Z)
    (d : dispatcher_context) : M engine dispatcher_context :=
  match handler_of h with
  | CxxFrameHandler3 => '(d, _) ← CxxFrameHandler3_fn fuel probe None frame_ptr d; mret d
  | GSHandlerCheck_EH => '(d, _) ← GSHandlerCheck_EH_fn fuel probe None frame_ptr d; mret d
  | CxxFrameHandler4 => '(d, _) ← CxxFrameHandler4_fn probe None frame_ptr d; mret d
  | GSHandlerCheck_EH4 => '(d, _) ← GSHandlerCheck_EH4_fn probe None frame_ptr d; mret d
  | cxx_call_catch_frame_handler =>
      _ ← cxx_call_catch_frame_handler_fn None frame_ptr d; mret d
  | cxx_seh_frame_handler => _ ← cxx_seh_frame_handler_fn None; mret d
  | foreign_handler => _ ← invoke h [frame_ptr]; mret d
  end.

Definition execute_handler (fuel : nat) (probe : M engine unit) (d : dispatcher_context)
    : M engine (dispatcher_context * Z) :=
  let image_base := m_image_base (pdata d) in
  s ← get;
  f ← find_function_entry (pdata d) (rip (mach s));
  let d := set_fn f d in
  ui_rva ← load 4 (f + 8);
  let ui := rva_add image_base ui_rva in
  b ← load 1 ui;
  if has_any_of (Z.shiftr b 3) (Z.lor HandlerInfoException HandlerInfoUnwind) then
    code_count ← load 1 (ui + 2);
    let unwind_slots := Z.land (code_count + 1) (Z.lnot 1) in
    '(h, data) ← get_frame_handler image_base ui unwind_slots;
    let d := set_extra_data data d in
    b3 ← load 1 (ui + 3);
    frame_ptr ← (if Z.land b3 15 =? 0 then rsp_of else read_gp (Z.land b3 15));
    d ← prepare_for_non_cxx_handler d;
    d ← call_handler fuel probe h frame_ptr d;
    mret (d, ui)
  else mret (d, ui).

(** The probe walks with the throw frame's own context and machine frame. *)
Fixpoint probe_loop (fuel : nat) (pd : frame_walk_pdata) (d : dispatcher_context)
    : M engine unit :=
  match fuel with
  | O => diverge
  | S n =>
      '(d, ui) ← execute_handler n (probe_loop n pd (make_context rethrow_probe_cookie pd)) d;
      s ← get;
      if negb (exception_object_or_link (ci s) =? 0) then mret tt
      else _ ← unwind ui; probe_loop n pd d
  end.

Definition probe_for_exception (fuel : nat) (pd : frame_walk_pdata) : M engine unit :=
  probe_loop fuel pd (make_context rethrow_probe_cookie pd).

Fixpoint dispatch_loop (fuel : nat) (d : dispatcher_context) : M engine Z :=
  match fuel with
  | O => diverge
  | S n =>
      '(d, ui) ← execute_handler n (probe_for_exception n (pdata d)) d;
      if negb (handler d =? 0) then mret (handler d)
      else _ ← unwind ui; dispatch_loop n d
  end.

Definition cxx_dispatch_exception (fuel : nat) (exception_object throw_info : Z) : M engine Z :=
  pd ← for_this_image;
  _ ← modify (fun s => set_ci (set_primary 0 (set_exception exception_object throw_info (ci s))) s);
  dispatch_loop fuel (make_context unwind_cookie pd).
End dispatch.
