(* ===== verification/ExcTheorems.v ===== *)
(** * Properties of the exception engine *)
From stdpp Require Import base list gmap numbers.
From S2P Require Import Prelude ExcMachine Unwind UnwindSpec Catch FrameHandler4.
From S2P Require Import FrameHandler4Spec FrameHandler3 CatchSpec Dispatch.
#[local] Open Scope Z_scope.

Section theorems.
Context `{P : program}.

(** C40: The compressed integers decode to what was encoded.  Wherever the image
    holds the encoding of a 32-bit value, [read_unsigned] returns that value and
    leaves the cursor right behind the encoding, whatever bytes precede it; the
    four bytes it loads may begin before the encoding but its result does not
    depend on them. *)
Theorem read_unsigned_roundtrip p v s :
  u32_ok v -> readable_at p (encode_unsigned v) ->
  read_unsigned p s = Ok s (v, p + Z.of_nat (length (encode_unsigned v))).
Proof. apply read_unsigned_spec. Qed.

(** The region table gives the state of an instruction.  For a function whose
    regions are encoded in the order of their addresses, [lookup_region] returns
    the state of the last region that starts at or before the instruction, and -1
    (no state) when there is none or the function has no regions. *)
Theorem lookup_region_correct eh base fn_rva pc rs s :
  regions_ok 0 rs -> Z.of_nat (length rs) < 2 ^ 32 ->
  (regions eh <> 0 -> readable_at (rva_add base (regions eh))
     (encode_unsigned (Z.of_nat (length rs)) ++ encode_regions 0 rs)) ->
  lookup_region eh base fn_rva pc s =
    Ok s (if decide (regions eh = 0) then -1
          else state_at (make_rva pc (rva_add base fn_rva)) rs).
Proof.
  intros Hok Hlen H. unfold lookup_region.
  destruct (Z.eqb_spec (regions eh) 0) as [->|Hne]; [done|].
  rewrite decide_False by done. specialize (H Hne).
  apply readable_app in H as [H1 H2]; [|apply encode_unsigned_bytes].
  cbv zeta. erewrite bind_Ok by (apply (read_unsigned_spec _ (Z.of_nat (length rs)));
                                 [unfold u32_ok; lia|exact H1]).
  cbv beta iota. rewrite Nat2Z.id. by apply region_loop_spec.
Qed.

(** C20: Unwinding a function destroys its objects in reverse order of construction.
    For a well-formed unwind graph, [destroy_objects] performs exactly the actions
    of the states on the path from the initial state towards the root that lie
    above the final state, innermost first, each once, and stops; a state outside
    the graph is reported as corrupted unwind data and nothing is destroyed. *)
Theorem destroy_objects_correct base rva frame initial final g s :
  graph_ok g -> Z.of_nat (length g) < 2 ^ 31 -> -(2 ^ 31) <= initial < 2 ^ 31 ->
  readable_at (rva_add base rva)
    (encode_unsigned (Z.of_nat (length g)) ++ concat (encode_node <$> g)) ->
  (-1 <= final < initial -> initial < Z.of_nat (length g) ->
   destroy_objects base rva frame initial final s =
     run_actions base frame (unwind_path (S (Z.to_nat initial)) g initial final) s) /\
  (initial < 0 \/ Z.of_nat (length g) <= initial ->
   destroy_objects base rva frame initial final s = Throw s (terminated CorruptedEhUnwindData)).
Proof.
  intros Hok Hlen Hi H. apply readable_app in H as [H1 H2]; [|apply encode_unsigned_bytes].
  unfold destroy_objects.
  erewrite bind_Ok by (apply (read_unsigned_spec _ (Z.of_nat (length g)));
                       [unfold u32_ok; lia|exact H1]).
  cbv beta iota. set (p := rva_add base rva + _) in *. split.
  - intros Hf Hin. rewrite (wrap_small 32 initial) by lia.
    rewrite (proj2 (Z.ltb_ge _ _)), (proj2 (Z.leb_gt _ _)) by lia. cbn [orb].
    pose proof (skip_edges_spec p g H2 Hok final (Z.to_nat initial) 0 p s ltac:(lia)) as Hs.
    unfold pos in Hs at 1. cbn [take fmap list_fmap concat length Z.of_nat] in Hs.
    rewrite Z.add_0_r in Hs. erewrite bind_Ok by exact Hs. cbv beta iota zeta.
    rewrite (proj2 (Z.eqb_neq _ _)) by lia. rewrite Nat.add_0_l.
    replace (if decide _ then p + pos g (Z.to_nat (final + 1)) else p)
      with (p + pos g (Z.to_nat (final + 1))).
    2: { destruct (decide (Z.of_nat 0 <= final < _)) as [_|Hd]; [done|]. replace final with (-1) by lia.
         change (Z.to_nat (-1 + 1)) with 0%nat. apply Z.add_0_r. }
    rewrite (destroy_loop_spec p g H2 Hok _ _ _ _ (S (Z.to_nat initial))); [|lia..].
    by rewrite Z2Nat.id by lia.
  - intros Hbad. destruct (Z.ltb_spec initial 0); [done|].
    rewrite (wrap_small 32 initial) by lia.
    by rewrite (proj2 (Z.leb_le _ _)) by lia.
Qed.

(** C22: Which catch block takes an exception.  An ellipsis takes every exception; a
    block that would drop a const, volatile or unaligned qualifier of the thrown
    object takes none; otherwise the block takes the exception exactly when its
    type is one of the catchable types of the thrown object, and the catch variable
    is initialised from the first such type: a reference is bound to the exception
    object, a value is copied unless the type is catchable by reference only. *)
Theorem process_catch_block_correct base adj ty var obj ti attributes rvas cs s :
  throw_at base ti attributes rvas cs ->
  process_catch_block base adj ty var obj ti s =
    if has_any_of adj IsEllipsis then Ok s true else
    if negb (qualifiers_kept attributes adj) then Ok s false else
    match list_find (type_matches base ty) cs with
    | None => Ok s false
    | Some (i, c) =>
        (_ ← bind_catch_var base adj (rva_add base (rvas !!! i)) c var obj; mret true) s
    end.
Proof.
  intros H. unfold process_catch_block. destruct (has_any_of adj IsEllipsis); [done|].
  destruct (ta_list _ _ _ _ _ H) as (destroy & compat & lst & Hti & Hl & Hlst).
  pose proof (load_word _ _ 0 _ s Hti eq_refl (ta_attr _ _ _ _ _ H)) as Ha.
  rewrite Z.mul_0_r, Z.add_0_r in Ha. rewrite (bind_Ok _ _ _ _ _ Ha). cbv zeta.
  rewrite qualifiers_kept_spec. destruct (qualifiers_kept attributes adj); [|done].
  cbn [negb]. pose proof (load_word _ _ 3 _ s Hti eq_refl Hl) as Hc.
  change (4 * Z.of_nat 3) with 12 in Hc. rewrite (bind_Ok _ _ _ _ _ Hc).
  unfold process_catch_block_unchecked.
  pose proof (load_word _ _ 0 _ s Hlst eq_refl) as Hn.
  rewrite Z.mul_0_r, Z.add_0_r in Hn. pose proof (ta_count _ _ _ _ _ H).
  erewrite bind_Ok by (apply Hn; unfold word_ok; lia). rewrite Nat2Z.id.
  apply (image_at_split _ (le_bytes 4 (Z.of_nat (length rvas))) (words rvas)) in Hlst as [_ Hlst].
  rewrite length_le_bytes in Hlst.
  exact (match_catchables_spec base adj ty var obj ti attributes rvas cs _ s _ 0 H Hlst eq_refl).
Qed.

(** The [catch_info] of the frame of a running catch block, in memory. *)
Record catch_frame_at (fp obj ti primary uctx : Z) (s : engine) : Prop := {
  cf_obj : load 8 (fp + off_catch_info + off_exception_object) s = Ok s obj;
  cf_ti : load 8 (fp + off_catch_info + off_throw_info) s = Ok s ti;
  cf_primary : load 8 (fp + off_catch_info + off_primary_frame_ptr) s = Ok s primary;
  cf_uctx : load 8 (fp + off_catch_info + off_unwind_context) s = Ok s uctx }.

Lemma catch_frame_ram fp obj ti primary uctx s s' :
  ram s' = ram s -> catch_frame_at fp obj ti primary uctx s ->
  catch_frame_at fp obj ti primary uctx s'.
Proof. intros Hr []. split; by eapply load_ram. Qed.

(** The destructor of the thrown object, or 0, and that it leaves the catch
    block's frame alone. *)
Record destructor_of (fp obj ti primary uctx destroy : Z) (s : engine) : Prop := {
  do_load : ti <> 0 -> load 4 (ti + 4) s = Ok s destroy;
  do_keeps : forall s', ram s' = call (rva_add ImageBase destroy) [obj] (ram s) ->
    catch_frame_at fp obj ti primary uctx s' }.

(** C38: An exception object is handed over or destroyed, never both and never
    neither.  When the stack is unwound through the frame of a running catch block,
    the engine takes over that block's exception if the active throw has none or is
    a rethrow of it (no destructor runs), and otherwise runs the destructor of the
    block's exception exactly once and keeps its own; either way the search goes on
    from the frame and state of the function the catch block belongs to. *)
Theorem exception_handed_over_or_destroyed fp obj ti primary uctx destroy d s :
  cookie d = unwind_cookie -> catch_frame_at fp obj ti primary uctx s ->
  destructor_of fp obj ti primary uctx destroy s ->
  exists s', cxx_call_catch_frame_handler_fn None fp d s = Ok s' CxxHandler /\
    primary_frame_ptr (ci s') = primary /\ unwind_context (ci s') = uctx /\
    let mine := exception_object_or_link (ci s) in
    if decide (mine = 0 \/ mine = fp + off_catch_info) then
      exception_object_or_link (ci s') = obj /\ throw_info_if_owner (ci s') = ti /\
      calls s' = calls s
    else
      exception_object_or_link (ci s') = mine /\
      throw_info_if_owner (ci s') = throw_info_if_owner (ci s) /\
      calls s' = calls s ++ (if decide (ti = 0 \/ destroy = 0) then []
                             else [(rva_add ImageBase destroy, [obj])]).
Proof.
  intros Hc Hcf Hd. unfold cxx_call_catch_frame_handler_fn. rewrite Hc. cbv zeta.
  rewrite (bind_Ok get _ s s s eq_refl).
  rewrite (bind_Ok _ _ _ _ _ (cf_obj _ _ _ _ _ _ Hcf)), (bind_Ok _ _ _ _ _ (cf_ti _ _ _ _ _ _ Hcf)).
  assert (Hfin : forall s1, catch_frame_at fp obj ti primary uctx s1 ->
    (primary ← load 8 (fp + off_catch_info + off_primary_frame_ptr);
     uctx ← load 8 (fp + off_catch_info + off_unwind_context);
     _ ← modify (fun s => set_ci (set_unwind_context uctx (set_primary primary (ci s))) s);
     mret CxxHandler) s1 =
    Ok (set_ci (set_unwind_context uctx (set_primary primary (ci s1))) s1) CxxHandler).
  { intros s1 H1. rewrite (bind_Ok _ _ _ _ _ (cf_primary _ _ _ _ _ _ H1)).
    by rewrite (bind_Ok _ _ _ _ _ (cf_uctx _ _ _ _ _ _ H1)). }
  destruct ((exception_object_or_link (ci s) =? 0) ||
            (exception_object_or_link (ci s) =? fp + off_catch_info)) eqn:E.
  - destruct (decide _) as [_|Hn];
      [|exfalso; apply orb_true_iff in E as [E|E]; apply Z.eqb_eq in E; tauto].
    eexists. split; [|split; [|split; [|split; [|split]]]].
    + erewrite (bind_Ok (put _)) by reflexivity. apply Hfin. by apply (catch_frame_ram _ _ _ _ _ s).
    + done. + done. + done. + done. + done.
  - apply orb_false_iff in E as [E1 E2]. zbool.
    destruct (decide _) as [Hn|_]; [exfalso; tauto|].
    unfold cxx_destroy_exception.
    destruct (Z.eqb_spec ti 0) as [Ht|Ht].
    { rewrite (decide_True (P := _ \/ _)) by tauto. rewrite app_nil_r.
      eexists. split; [rewrite ret_bind; by apply Hfin|done]. }
    assert (Hld := do_load _ _ _ _ _ _ _ Hd Ht).
    destruct (Z.eqb_spec destroy 0) as [Hz|Hz].
    + rewrite (decide_True (P := _ \/ _)) by tauto. rewrite app_nil_r.
      eexists. split; [|].
      * erewrite bind_Ok; [by apply Hfin|].
        rewrite (bind_Ok _ _ _ _ _ Hld). by rewrite Hz.
      * done.
    + rewrite (decide_False (P := _ \/ _)) by tauto.
      eexists. split; [|].
      * erewrite bind_Ok; [|rewrite (bind_Ok _ _ _ _ _ Hld);
          rewrite (proj2 (Z.eqb_neq _ _)) by done; reflexivity].
        apply Hfin. by apply Hd.
      * done.
Qed.

(** A rethrow finds the exception being handled.  When a probe for the active
    exception reaches the frame of a running catch block, the throw is linked to
    the [catch_info] that owns the exception: afterwards [get_exception_object] and
    [get_throw_info] give the object and the type the owner holds, whether that
    block owns the exception or is itself handling a rethrow of it.  A catch block
    without an exception is reported as a corrupted handler. *)
Theorem rethrow_finds_exception fp obj ti primary uctx owner_obj owner_ti d s :
  cookie d = rethrow_probe_cookie -> throw_info_if_owner (ci s) = 0 ->
  catch_frame_at fp obj ti primary uctx s -> 0 < fp ->
  (ti = 0 -> obj <> 0 -> load 8 (obj + off_exception_object) s = Ok s owner_obj /\
                         load 8 (obj + off_throw_info) s = Ok s owner_ti) ->
  (ti <> 0 -> owner_obj = obj /\ owner_ti = ti) ->
  if decide (obj = 0) then
    cxx_call_catch_frame_handler_fn None fp d s = Throw s (terminated CorruptedExceptionHandler)
  else exists s', cxx_call_catch_frame_handler_fn None fp d s = Ok s' CxxHandler /\
    get_exception_object s' = Ok s' owner_obj /\ get_throw_info s' = Ok s' owner_ti /\
    calls s' = calls s /\ mach s' = mach s.
Proof.
  intros Hc Hown Hcf Hfp Hlink Hself.
  unfold cxx_call_catch_frame_handler_fn. rewrite Hc.
  cbv zeta. rewrite (bind_Ok _ _ _ _ _ (cf_obj _ _ _ _ _ _ Hcf)).
  destruct (Z.eqb_spec obj 0) as [->|Hne]; [by rewrite decide_True|].
  rewrite decide_False by done.
  rewrite (bind_Ok _ _ _ _ _ (cf_ti _ _ _ _ _ _ Hcf)).
  rewrite (bind_Ok get _ s s s eq_refl). eexists. split; [reflexivity|].
  rewrite Hown. unfold get_exception_object, get_throw_info.
  rewrite !(bind_Ok get _ _ _ _ eq_refl). cbn [ci set_ci set_exception throw_info_if_owner
    exception_object_or_link Z.eqb negb].
  destruct (Z.eqb_spec ti 0) as [Ht|Ht]; cbn [negb].
  - destruct (Hlink Ht Hne) as [H1 H2]. rewrite (proj2 (Z.eqb_neq _ _)) by done. cbn [negb].
    split; [by apply (load_ram _ _ s)|]. split; [by apply (load_ram _ _ s)|]. done.
  - destruct (Hself Ht) as [-> ->].
    rewrite (proj2 (Z.eqb_neq (fp + off_catch_info) 0)) by (unfold off_catch_info; lia).
    cbn [negb]. destruct Hcf. split; [by apply (load_ram _ _ s)|].
    split; [by apply (load_ram _ _ s)|]. done.
Qed.
End theorems.

(** ** Witnesses *)

Definition x_regions : list region := [Region 0x10 0; Region 0x20 1; Region 0x300 (-1)].

Definition x_graph : list node :=
  [Node ObjectOffset 0x300 0x20 (-1) 8; Node Function 0x400 0 0 6;
   Node ObjectPtrOffset 0x500 0x28 0 11; Node Trivial 0 0 2 6].

Definition x_catchables : list catchable :=
  [Catchable 0 0x2000 0 0 0 24 0x600; Catchable 0 0x2100 0 0 8 16 0x700].

Definition x_image : gmap Z Z :=
  poke ([0; 0; 0] ++ encode_unsigned 3 ++ encode_regions 0 x_regions) (0x10100 - 3)
    (poke ([0; 0; 0] ++ encode_unsigned 4 ++ concat (encode_node <$> x_graph)) (0x10200 - 3)
       (poke ([0; 0; 0] ++ encode_unsigned 0x12345) (0x10300 - 3)
          (poke (words [1; 0x800; 0; 0x1100]) 0x11000
             (poke (words [2; 0x1200; 0x1300]) 0x11100
                (poke (words (catchable_words (Catchable 0 0x2000 0 0 0 24 0x600))) 0x11200
                   (poke (words (catchable_words (Catchable 0 0x2100 0 0 8 16 0x700))) 0x11300
                      ∅)))))).

#[local] Instance x_program : program := {|
  image := x_image;
  ImageBase := 0x10000;
  call := fun _ _ m => m;
  handler_of := fun _ => foreign_handler;
  GSHandlerCheckCommon := 0 |}.

(** A catch variable at 0x90000, an object pointer in the frame at 0x80028, and the
    frame of a running catch block at 0x80800 that owns the object 0x70000. *)
Definition x_ram : gmap Z Z :=
  poke (le_bytes 8 0) 0x90000
    (poke (le_bytes 8 0x71000) 0x80028
       (poke (le_bytes 8 0x80f00 ++ le_bytes 8 0x70000 ++ le_bytes 8 0x11000 ++ le_bytes 8 5)
          (0x80800 + 88) ∅)).

Definition x_engine (obj ti : Z) : engine :=
  Engine x_ram [] (replicate 32 0) (MachineFrame 0 0 0 0x80000 0) (CatchInfo [0; 0] 0 obj ti 0).

Definition x_context (c : symbol) : dispatcher_context := make_context c (Pdata 0x10000 0 0 0).

Lemma x_readable a l :
  image_at a ([0; 0; 0] ++ l) -> readable_at (a + 3) l.
Proof.
  intros H. exists [0; 0; 0]. split; [done|]. split; [|by rewrite Z.add_simpl_r].
  repeat constructor; unfold is_byte; lia.
Qed.

Lemma read_unsigned_roundtrip_witness :
  read_unsigned 0x10300 (x_engine 0 0) = Ok (x_engine 0 0) (0x12345, 0x10300 + 3).
Proof.
  apply (read_unsigned_roundtrip 0x10300 0x12345).
  - unfold u32_ok; lia.
  - apply (x_readable (0x10300 - 3)). intros m. vm_compute. reflexivity.
Defined.

Lemma lookup_region_correct_witness :
  lookup_region (ExcInfo 0 0 0 0 0x100 0) 0x10000 0 0x10025 (x_engine 0 0) =
    Ok (x_engine 0 0) 1.
Proof.
  rewrite (lookup_region_correct _ _ _ _ x_regions).
  - reflexivity.
  - cbn; lia.
  - cbn; lia.
  - intros _. apply (x_readable (0x10100 - 3)). intros m. vm_compute. reflexivity.
Defined.

Lemma x_graph_ok : graph_ok x_graph.
Proof.
  intros [|[|[|[|i]]]] n Hn; [injection Hn as <-..|done];
    unfold node_ok, u32_ok; vm_compute (pos _ _); cbn; repeat split; try lia;
    try (case_decide; vm_compute; lia); vm_compute; reflexivity.
Qed.

Lemma destroy_objects_correct_witness :
  exists s', destroy_objects 0x10000 0x200 0x80000 3 (-1) (x_engine 0 0) = Ok s' tt /\
    calls s' = [(0x10500, [0x71000]); (0x10300, [0x80020])].
Proof.
  destruct (destroy_objects_correct 0x10000 0x200 0x80000 3 (-1) x_graph (x_engine 0 0)) as [H _].
  - exact x_graph_ok.
  - cbn; lia.
  - lia.
  - apply (x_readable (0x10200 - 3)). intros m. vm_compute. reflexivity.
  - eexists. split; [rewrite H; [vm_compute; reflexivity|lia|cbn; lia]|reflexivity].
Defined.

Lemma x_throw : throw_at 0x10000 0x11000 1 [0x1200; 0x1300] x_catchables.
Proof.
  split.
  - exists 0x800, 0, 0x1100. split; [intros m; vm_compute; reflexivity|].
    split; [unfold word_ok; lia|]. intros m; vm_compute; reflexivity.
  - unfold word_ok; lia.
  - cbn; lia.
  - repeat constructor; unfold word_ok; lia.
  - reflexivity.
  - intros [|[|i]] rva c Hr Hc; [injection Hr as <-; injection Hc as <-..|done];
      (split; [intros m; vm_compute; reflexivity|unfold word_ok; cbn; lia]).
Qed.

(** A [const] object caught by [const T&] binds the reference; [T&] does not match. *)
Lemma process_catch_block_correct_witness :
  (exists s', process_catch_block 0x10000 9 0x12100 0x90000 0x70000 0x11000 (x_engine 0 0) =
                Ok s' true /\ load 8 0x90000 s' = Ok s' 0x70000) /\
  process_catch_block 0x10000 8 0x12100 0x90000 0x70000 0x11000 (x_engine 0 0) =
    Ok (x_engine 0 0) false.
Proof.
  split.
  - eexists. split; [rewrite (process_catch_block_correct _ _ _ _ _ _ _ _ _ _ x_throw);
      vm_compute; reflexivity|vm_compute; reflexivity].
  - by rewrite (process_catch_block_correct _ _ _ _ _ _ _ _ _ _ x_throw).
Defined.

Lemma x_catch_frame obj ti :
  catch_frame_at 0x80800 0x70000 0x11000 0x80f00 5 (x_engine obj ti).
Proof. split; vm_compute; reflexivity. Qed.

(** A second exception leaves the catch block: the first one is destroyed. *)
Lemma exception_handed_over_or_destroyed_witness :
  exists s', cxx_call_catch_frame_handler_fn None 0x80800 (x_context unwind_cookie)
               (x_engine 0x72000 0x11000) = Ok s' CxxHandler /\
    exception_object_or_link (ci s') = 0x72000 /\ calls s' = [(0x10800, [0x70000])].
Proof.
  destruct (exception_handed_over_or_destroyed 0x80800 0x70000 0x11000 0x80f00 5 0x800
    (x_context unwind_cookie) (x_engine 0x72000 0x11000)) as (s' & H & _ & _ & H').
  - reflexivity.
  - apply x_catch_frame.
  - split; [intros _; vm_compute; reflexivity|].
    intros s' Hr. by apply (catch_frame_ram _ _ _ _ _ (x_engine 0 0)), x_catch_frame.
  - exists s'. split; [exact H|]. cbv zeta in H'.
    rewrite decide_False in H' by (cbn; intros [?|?]; discriminate).
    destruct H' as (H1 & _ & H2). split; [exact H1|exact H2].
Defined.

Lemma rethrow_finds_exception_witness :
  exists s', cxx_call_catch_frame_handler_fn None 0x80800 (x_context rethrow_probe_cookie)
               (x_engine 0 0) = Ok s' CxxHandler /\ get_exception_object s' = Ok s' 0x70000.
Proof.
  destruct (rethrow_finds_exception 0x80800 0x70000 0x11000 0x80f00 5 0x70000 0x11000
    (x_context rethrow_probe_cookie) (x_engine 0 0)) as (s' & H & H' & _).
  - reflexivity.
  - reflexivity.
  - apply x_catch_frame.
  - lia.
  - intros; discriminate.
  - intros; done.
  - exists s'. split; [exact H|exact H'].
Defined.
