(* ===== verification/DispatchTheorems.v ===== *)
(** * Properties of the stack walk and of the FH3 handler *)
From stdpp Require Import base list gmap numbers.
From S2P Require Import Prelude ExcMachine Unwind UnwindSpec Catch FrameHandler4.
From S2P Require Import FrameHandler3 CatchSpec Dispatch.
#[local] Open Scope Z_scope.

Section walk.
Context `{P : program}.

(** [s] is in a function without exception handler, called by the function in
    [s']; [f] is the function's entry in the exception directory. *)
Record plain_frame (pd : frame_walk_pdata) (f : Z) (s s' : engine) : Prop := {
  pf_step : exists fns i e ui ops regs sp ret m b,
    directory_at pd fns /\ contains_address pd (rip (mach s)) = true /\
    list_find (fn_covers (make_rva (rip (mach s)) (m_image_base pd))) fns = Some (i, e) /\
    f = fn_result pd (Some (i, e)) /\
    is_u32 (fn_unwind e) /\ ui = rva_add (m_image_base pd) (fn_unwind e) /\
    load 1 ui s = Ok s b /\
    has_any_of (Z.shiftr b 3) (Z.lor HandlerInfoException HandlerInfoUnwind) = false /\
    in_frame ui ops regs sp ret m s /\ s' = unwound ops regs sp ret s }.

(** [n] such frames lie between [s] and [s']; [f'] is the entry of the last one. *)
Inductive walks (pd : frame_walk_pdata) : nat -> Z -> engine -> Z -> engine -> Prop :=
  | walks_here f s : walks pd 0 f s f s
  | walks_up n f f1 f' s s1 s' :
      plain_frame pd f1 s s1 -> walks pd n f1 s1 f' s' -> walks pd (S n) f s f' s'.

Lemma load_fn_unwind pd fns i e s :
  directory_at pd fns -> fns !! i = Some e -> is_u32 (fn_unwind e) ->
  load 4 (fn_result pd (Some (i, e)) + 8) s = Ok s (fn_unwind e).
Proof.
  intros H Hi Hu. pose proof (dir_image _ _ H i e Hi) as Hb.
  apply image_at_split in Hb as [_ Hb]. apply image_at_split in Hb as [_ Hb].
  rewrite !length_le_bytes in Hb. cbn [fn_result].
  replace (m_functions pd + Z.of_nat i * sizeof_function + 8) with
    (m_functions pd + Z.of_nat i * sizeof_function + Z.of_nat 4 + Z.of_nat 4) by lia.
  rewrite (load_image 4 _ _ _ Hb) by apply length_le_bytes. by rewrite le_word_u32.
Qed.

(** A frame without handler: nothing is called, the entry is recorded. *)
Lemma execute_handler_plain fuel probe d f s s' :
  plain_frame (pdata d) f s s' ->
  exists ui, execute_handler fuel probe d s = Ok s (set_fn f d, ui) /\ unwind ui s = Ok s' tt.
Proof.
  intros [(fns & i & e & ui & ops & regs & sp & ret & m & b & Hdir & Hc & Hf & -> & Hu & -> &
           Hb & Hfl & Hfr & ->)].
  eexists. split; [|by eapply unwind_in_frame].
  unfold execute_handler. rewrite (bind_Ok get _ s s s eq_refl).
  erewrite bind_Ok.
  2: { unfold find_function_entry. rewrite Hc; cbn [negb].
       rewrite (dir_count _ _ Hdir), Nat2Z.id.
       apply (find_function_loop_spec _ fns _ _ 0%nat (length fns)); try done; try lia.
       intros j g Hj Hg. apply lookup_lt_Some in Hg. lia. }
  rewrite Hf. cbv zeta. apply list_find_Some in Hf as (Hi & _).
  rewrite (bind_Ok _ _ _ _ _ (load_fn_unwind _ _ _ _ s Hdir Hi Hu)).
  rewrite (bind_Ok _ _ _ _ _ Hb). by rewrite Hfl.
Qed.

Lemma in_frame_rsp ui ops regs sp ret m s :
  in_frame ui ops regs sp ret m s -> rsp (mach s) < rsp (mach (unwound ops regs sp ret s)).
Proof.
  intros H. cbn. rewrite (if_rsp _ _ _ _ _ _ _ H).
  pose proof (prolog_below regs ops sp m _ _ (if_ops _ _ _ _ _ _ _ H) (surjective_pairing _)).
  lia.
Qed.

Lemma walks_grow pd n f s f' s' :
  walks pd n f s f' s' -> ci s' = ci s /\ calls s' = calls s /\ ram s' = ram s /\
    (if decide (n = 0%nat) then True else rsp (mach s) < rsp (mach s')).
Proof.
  induction 1 as [|n f f1 f' s s1 s' Hp Hw IH]; [done|]. destruct IH as (-> & -> & -> & IH).
  destruct Hp as [(? & ? & ? & ui & ops & regs & sp & ret & m & b & _ & _ & _ & _ & _ & _ &
                   _ & _ & Hfr & ->)].
  apply in_frame_rsp in Hfr. split_and!; [done..|]. cbn [decide].
  destruct (decide (n = 0%nat)) as [->|]; case_decide; try lia.
  inversion Hw; subst. done.
Qed.

(** C21: The search for a handler walks the call chain.  Through any number of intact frames
    whose functions have neither an exception nor a termination handler and whose prologues
    push non-volatile registers and allocate less than 512 KB of stack each,
    [__cxx_dispatch_exception] recovers frame by frame the caller's stack pointer, return
    address and pushed registers, calls nothing and changes no memory, and goes on searching
    in the first frame above them; every step is one turn of its loop.  Not covered are
    prologues that save registers with a move, save xmm registers, set a frame pointer or have
    operands of 32 bits; for some of these [xmm15_not_restored] and [long_operands_misread]
    show that the caller is not recovered. *)
Theorem dispatch_walks_call_chain n k d f' s s' :
  walks (pdata d) n (fn d) s f' s' -> handler d = 0 ->
  dispatch_loop (n + k) d s = dispatch_loop k (set_fn f' d) s' /\
  calls s' = calls s /\ ram s' = ram s /\ ci s' = ci s.
Proof.
  intros Hw Hh. split; [|by destruct (walks_grow _ _ _ _ _ _ Hw) as (-> & -> & -> & _)].
  remember (pdata d) as pd eqn:Epd. remember (fn d) as f eqn:Ef.
  revert d Epd Ef Hh; induction Hw as [f s|n f f1 f' s s1 s' Hp Hw IH]; intros d Epd Ef Hh; subst.
  - cbn [Nat.add]. by destruct d.
  - cbn [Nat.add dispatch_loop].
    destruct (execute_handler_plain (n + k) (probe_for_exception (n + k) (pdata d)) d f1 s s1 Hp)
      as (ui & He & Hu).
    rewrite (bind_Ok _ _ _ _ _ He). cbv beta iota. cbn [handler set_fn]. rewrite Hh. cbn [Z.eqb negb].
    rewrite (bind_Ok _ _ _ _ _ Hu). rewrite (IH (set_fn f1 d)); done.
Qed.

(** A probe loses the throw's own frame.  [probe_for_exception] walks with the
    throw frame's registers instead of a copy: when the catch block being handled is
    found [n] frames up, the probe returns with the machine frame of that block's
    frame in place of the thrower's, so the stack pointer the handler search goes on
    with lies above the frame it is in. *)
Theorem probe_moves_throw_frame n k pd d f' s s' s'' d' ui :
  pdata d = pd -> walks pd (S n) (fn d) s f' s' -> exception_object_or_link (ci s) = 0 ->
  execute_handler k (probe_loop k pd (make_context rethrow_probe_cookie pd)) (set_fn f' d) s' =
    Ok s'' (d', ui) ->
  exception_object_or_link (ci s'') <> 0 -> mach s'' = mach s' ->
  probe_loop (S n + S k) pd d s = Ok s'' tt /\ rsp (mach s) < rsp (mach s'').
Proof.
  intros Hpd Hw H0 He Hexc Hmach. split.
  2: { rewrite Hmach. by destruct (walks_grow _ _ _ _ _ _ Hw) as (_ & _ & _ & ?). }
  remember (fn d) as f eqn:Ef. revert d Hpd Ef He. generalize (S n) as j, Hw. clear Hw n.
  intros j Hw. revert H0. induction Hw as [f s|n f f1 f' s s1 s' Hp Hw IH];
    intros H0 d <- -> He; cbn [Nat.add probe_loop].
  - replace (set_fn (fn d) d) with d in He by (by destruct d).
    rewrite (bind_Ok _ _ _ _ _ He). rewrite (bind_Ok get _ s'' s'' s'' eq_refl).
    by rewrite (proj2 (Z.eqb_neq _ _)) by done.
  - destruct (execute_handler_plain (n + S k)
      (probe_loop (n + S k) (pdata d) (make_context rethrow_probe_cookie (pdata d))) d f1 s s1 Hp)
      as (ui1 & He1 & Hu).
    rewrite (bind_Ok _ _ _ _ _ He1). rewrite (bind_Ok get _ s s s eq_refl).
    rewrite H0. cbn [Z.eqb negb]. rewrite (bind_Ok _ _ _ _ _ Hu).
    assert (Hci : ci s1 = ci s).
    { destruct Hp as [(? & ? & ? & ? & ? & ? & ? & ? & ? & ? & _ & _ & _ & _ & _ & _ &
                       _ & _ & _ & ->)]. done. }
    apply (IH Hmach) with (d := set_fn f1 d); [by rewrite Hci|done..].
Qed.

(** Leaving the states of an FH3 function runs its cleanups once each.  For an
    unwind graph in which every state leads to a lower one, the loop that leaves the
    states above the target calls exactly the cleanup funclets of the states on the
    path, innermost first, with the frame of the function, and terminates. *)
Theorem cleanup_correct base graph frame g state target fuel s :
  cleanups_ok g -> image_at graph (words (cleanup_words g)) ->
  -1 <= target -> -1 <= state < Z.of_nat (length g) -> state - target < Z.of_nat fuel ->
  (0 < fuel)%nat ->
  cleanup_loop fuel base graph frame state target s =
    run_cleanups base frame (cleanup_path (S (Z.to_nat state)) g state target) s.
Proof. intros. apply cleanup_loop_spec; try done; lia. Qed.
End walk.

(** ** A concrete driver

    Two functions: a plain one, and the frame below a running catch block. *)

Definition w_ops : list (Z * prolog_op) := [(1, op_push 3); (5, op_alloc 32)].

Definition w_fns : list fn_entry :=
  [FnEntry 0x100 0x200 0x1000; FnEntry 0x200 0x300 0x1100].

(** An FH3 function with one try block and one [catch (...)]. *)
Definition fh3_tables : gmap Z Z :=
  poke (words [0x12300]) 0x22000
    (poke (words [0; 2; 0x12400; 1; 0x12500; 1; 0x12600; 0; 0; 0]) 0x22300
       (poke (words (cleanup_words [Cleanup (-1) 0x300; Cleanup 0 0x400])) 0x22400
          (poke (words [0; 0; 1; 1; 0x12700]) 0x22500
             (poke (words [0; 0]) 0x22600
                (poke (words [0x40; 0; 0; 0x900; 0]) 0x22700 ∅))))).

Definition w_image : gmap Z Z :=
  poke ([1; 5; 2; 0] ++ prolog_codes w_ops) 0x11000
    (poke ([25; 0; 0; 0] ++ le_bytes 4 0x1800) 0x11100
       (poke (concat (fn_bytes <$> w_fns)) 0x12000 fh3_tables)).

#[local] Instance w_program : program := {|
  image := w_image;
  ImageBase := 0x10000;
  call := fun _ _ m => m;
  handler_of := fun a => if a =? 0x11800 then cxx_call_catch_frame_handler else foreign_handler;
  GSHandlerCheckCommon := 0 |}.

Definition w_pdata : frame_walk_pdata := Pdata 0x10000 0x12000 2 0x5000.

Definition w_regs : frame_walk_context := Z.of_nat <$> seq 100 32.

(** The return address and, above it, the frame of the running catch block. *)
Definition w_stack : gmap Z Z :=
  poke (le_bytes 8 0x10210) 0x80100
    (poke (le_bytes 8 0x80800 ++ le_bytes 8 0x70000 ++ le_bytes 8 0x60000 ++ le_bytes 8 5)
       (0x80108 + 88) ∅).

Definition w_ci : catch_info := CatchInfo [0; 0] 0 0 0 0.

Definition w_engine : engine :=
  let '(sp, m) := prolog w_regs w_ops 0x80100 w_stack in
  Engine m [] (replicate 32 0) (MachineFrame 0x10110 0 0 sp 0) w_ci.

Definition w_caller : engine := unwound w_ops w_regs 0x80100 0x10210 w_engine.

Lemma w_directory : directory_at w_pdata w_fns.
Proof.
  split.
  - intros [|[|i]] f Hf; [injection Hf as <-; intros m; vm_compute; reflexivity..|done].
  - reflexivity.
  - repeat constructor; cbn; lia.
  - intros i j f g Hij Hi Hj. destruct i as [|[|i]], j as [|[|j]];
      try lia; try done; injection Hi as <-; injection Hj as <-; cbn; lia.
Qed.

Lemma w_image_low a : 0x30000 <= a -> image (program := w_program) !! a = None.
Proof.
  intros Ha. cbn [image w_program]. unfold w_image, fh3_tables.
  rewrite !poke_outside by (right; vm_compute (Z.of_nat _); lia). apply lookup_empty.
Qed.

Lemma w_in_frame : in_frame 0x11000 w_ops w_regs 0x80100 0x10210 w_stack w_engine.
Proof.
  split.
  - unfold ops_ok, w_ops. rewrite !list.Forall_cons. cbn [snd compose].
    split; [set_solver|]. split; [unfold op_ok; split; [done|lia]|by apply list.Forall_nil].
  - split; [done|]. apply list.Forall_forall. intros v Hv.
    unfold w_regs in Hv. apply list_elem_of_fmap in Hv as (k & -> & Hk).
    apply elem_of_seq in Hk. lia.
  - reflexivity.
  - vm_compute. lia.
  - vm_compute. split; [discriminate|reflexivity].
  - reflexivity.
  - intros a Ha. split; [|reflexivity]. apply w_image_low.
    revert Ha. vm_compute (fst _). lia.
  - vm_compute. reflexivity.
  - exists 1, 5, 0. intros m. vm_compute. reflexivity.
Qed.

Lemma w_walks : walks w_pdata 1 0 w_engine 0x12000 w_caller.
Proof.
  eapply walks_up; [|apply walks_here]. split.
  exists w_fns, 0%nat, (FnEntry 0x100 0x200 0x1000), 0x11000, w_ops, w_regs, 0x80100, 0x10210,
    w_stack, 1.
  split; [exact w_directory|]. split; [reflexivity|]. split; [vm_compute; reflexivity|].
  split; [reflexivity|]. split; [cbn; unfold is_u32; lia|]. split; [reflexivity|].
  split; [vm_compute; reflexivity|]. split; [reflexivity|].
  split; [exact w_in_frame|reflexivity].
Qed.

Definition w_context (c : symbol) : dispatcher_context := make_context c w_pdata.

Lemma dispatch_walks_call_chain_witness :
  dispatch_loop 3 (w_context unwind_cookie) w_engine =
    dispatch_loop 2 (set_fn 0x12000 (w_context unwind_cookie)) w_caller.
Proof. apply (dispatch_walks_call_chain 1 2 (w_context unwind_cookie) 0x12000 _ _ w_walks eq_refl). Defined.

(** The probe that started with the stack pointer 0x800d8 ends with 0x80108. *)
Lemma probe_moves_throw_frame_witness :
  exists s'', probe_loop 2 w_pdata (w_context rethrow_probe_cookie) w_engine = Ok s'' tt /\
    rsp (mach w_engine) < rsp (mach s'') /\ rsp (mach s'') = 0x80108.
Proof.
  assert (Hc : match execute_handler 0
                 (probe_loop 0 w_pdata (make_context rethrow_probe_cookie w_pdata))
                 (set_fn 0x12000 (w_context rethrow_probe_cookie)) w_caller with
               | Ok s _ => mach s = mach w_caller /\
                           exception_object_or_link (ci s) = 0x80108 + 72
               | _ => False end) by (vm_compute; split; reflexivity).
  destruct (execute_handler _ _ _ _) as [s'' [d' ui]|? ?| |] eqn:E;
    [|destruct Hc|destruct Hc|destruct Hc].
  destruct Hc as [Hm He]. exists s''.
  destruct (probe_moves_throw_frame 0 0 w_pdata (w_context rethrow_probe_cookie) 0x12000
              w_engine w_caller s'' d' ui) as [H1 H2].
  - reflexivity.
  - exact w_walks.
  - reflexivity.
  - exact E.
  - rewrite He. discriminate.
  - exact Hm.
  - split; [exact H1|]. split; [exact H2|]. rewrite Hm. reflexivity.
Defined.

Lemma cleanup_correct_witness :
  exists s', cleanup_loop 3 0x10000 0x22400 0x80000 1 (-1) w_engine = Ok s' tt /\
    calls s' = [(0x10400, [0x10400; 0x80000]); (0x10300, [0x10300; 0x80000])].
Proof.
  rewrite (cleanup_correct 0x10000 0x22400 0x80000 [Cleanup (-1) 0x300; Cleanup 0 0x400] 1 (-1) 3).
  - eexists. split; reflexivity.
  - split; [cbn; lia|]. intros [|[|i]] c Hc; [injection Hc as <-..|done];
      unfold cleanup_ok, word_ok; cbn; lia.
  - intros m. vm_compute. reflexivity.
  - lia.
  - cbn; lia.
  - lia.
  - lia.
Defined.

(** ** The uninitialised context pointer of FH3 *)

Definition fh3_context : dispatcher_context :=
  DispatcherContext 0 0x12000 w_pdata 0 0x22000 0 0 unwind_cookie.

(** A throw of an object at 0x70000 whose [unwind_context] holds [u]. *)
Definition fh3_engine (u : Z) : engine :=
  Engine (poke (le_bytes 8 0) 0x90000 ∅) [] (replicate 32 0) (MachineFrame 0x10110 0 0 0x80000 0)
    (CatchInfo [0; 0] 0 0x70000 0x60000 u).

(** The FH3 handler stores through an uninitialised pointer.  It uses the value of
    [catch_info.unwind_context] as the address of its state, which
    [__cxx_dispatch_exception] never sets: on a function whose [catch (...)] takes the
    exception, the handler stores the state at whatever address the field happens to
    hold, which is undefined behaviour when nothing writable is there, and only when
    the field happens to be the address of writable memory does it enter the catch
    block at 0x10900. *)
Theorem fh3_stores_through_garbage :
  frame_handler3 10 diverge 0x80000 fh3_context (fh3_engine 0xdead0000) = Fault /\
  frame_handler3 10 diverge 0x80000 fh3_context (fh3_engine 0) = Fault /\
  match frame_handler3 10 diverge 0x80000 fh3_context (fh3_engine 0x90000) with
  | Ok s (d, disp) => handler d = 0x10900 /\ disp = CxxHandler
  | _ => False
  end.
Proof. vm_compute. done. Qed.
