(* ===== verification/ExceptionPool.v ===== *)
(** * The reserve of memory for exceptions (exception.cpp, exception.hpp)

    [exception_allocator] keeps one page, cut into eight slots, so that exceptions
    can be created when the heap cannot be used.  [m_slots] is a stack of free slots
    whose top is [m_current_slot]; larger requests, and requests when the page is
    used up, go to the kernel's pool, which is a parameter. *)
From stdpp Require Import base list gmap numbers sorting.
From S2P Require Import Prelude.
#[local] Open Scope Z_scope.

(** The kernel's pool allocator (ExAllocatePool): the blocks in use, by address and
    size, and a request give a new block or nothing. *)
Class kernel := {
  kernel_alloc : gmap Z Z -> Z -> option Z;
  kernel_disjoint live n a b m : kernel_alloc live n = Some a -> 0 < n ->
    live !! b = Some m -> 0 < m -> a + n <= b \/ b + m <= a;
  kernel_aligned live n a : kernel_alloc live n = Some a -> 0 < a /\ a mod 16 = 0 }.

Definition PAGE_SIZE : Z := 4096.
Definition SLOT_SIZE : Z := 512.
Definition RESERVED_BYTES_COUNT : Z := PAGE_SIZE * 1.
Definition SLOT_COUNT : Z := RESERVED_BYTES_COUNT / SLOT_SIZE.
Definition CACHE_LINE_SIZE : Z := 64.
Definition DISPATCH_LEVEL : Z := 2.

Record exception_allocator := ExceptionAllocator {
  m_slots : list Z;
  m_buffer : Z;
  m_current_slot : Z;
  blocks : gmap Z Z;
  current_irql : Z }.

Definition set_slots (l : list Z) (s : exception_allocator) : exception_allocator :=
  ExceptionAllocator l (m_buffer s) (m_current_slot s) (blocks s) (current_irql s).
Definition set_buffer (b : Z) (s : exception_allocator) : exception_allocator :=
  ExceptionAllocator (m_slots s) b (m_current_slot s) (blocks s) (current_irql s).
Definition set_current_slot (c : Z) (s : exception_allocator) : exception_allocator :=
  ExceptionAllocator (m_slots s) (m_buffer s) c (blocks s) (current_irql s).
Definition set_blocks (m : gmap Z Z) (s : exception_allocator) : exception_allocator :=
  ExceptionAllocator (m_slots s) (m_buffer s) (m_current_slot s) m (current_irql s).

(** The slots of a page at [b]. *)
Definition slot_addresses (b : Z) : list Z := (fun i => b + SLOT_SIZE * i) <$> seqZ 0 SLOT_COUNT.

Section pool.
Context `{K : kernel}.

(** [allocate_impl] for a cache line aligned request: the pool's own alignment is
    smaller, so the request is rounded up to a page. *)
Definition allocate_impl (bytes_count : Z) : M exception_allocator (option Z) :=
  s ← get;
  let size := Z.max bytes_count PAGE_SIZE in
  match kernel_alloc (blocks s) size with
  | Some a => _ ← put (set_blocks (<[a := size]> (blocks s)) s); mret (Some a)
  | None => mret None
  end.

(** [deallocate_memory]: freeing a block that is not in use is undefined. *)
Definition deallocate_memory (p : Z) : M exception_allocator unit :=
  if p =? 0 then mret tt else
  s ← get;
  _ ← access (blocks s !! p);
  put (set_blocks (delete p (blocks s)) s).

(** [run]: true for STATUS_SUCCESS, false for STATUS_NO_MEMORY. *)
Definition pool_run : M exception_allocator bool :=
  r ← allocate_impl RESERVED_BYTES_COUNT;
  match r with
  | None => _ ← modify (set_buffer 0); mret false
  | Some b => _ ← modify (fun s => set_slots (slot_addresses b) (set_buffer b s)); mret true
  end.

(** The value of [InterlockedIncrement(&counter) - 1] converted to [size_t]. *)
Definition claimed_index (counter : Z) : Z := u64 (signed 32 (u32 (counter + 1)) - 1).

Definition try_get_slot : M exception_allocator (option Z) :=
  s ← get;
  let slot_index := claimed_index (m_current_slot s) in
  _ ← put (set_current_slot (u32 (m_current_slot s + 1)) s);
  if slot_index <? SLOT_COUNT then
    p ← access (m_slots s !! Z.to_nat slot_index); mret (Some p)
  else
    _ ← modify (fun s => set_current_slot (u32 (m_current_slot s - 1)) s); mret None.

Definition allocate_from_heap (bytes_count : Z) : M exception_allocator Z :=
  s ← get;
  if DISPATCH_LEVEL <? current_irql s then throw bad_alloc else
  r ← allocate_impl bytes_count;
  match r with Some p => mret p | None => throw bad_alloc end.

Definition pool_allocate (bytes_count : Z) : M exception_allocator Z :=
  if bytes_count <=? SLOT_SIZE then
    r ← try_get_slot;
    match r with
    | Some p => if p =? 0 then allocate_from_heap bytes_count else mret p
    | None => allocate_from_heap bytes_count
    end
  else allocate_from_heap bytes_count.

Definition free_to_heap (p : Z) : M exception_allocator unit := deallocate_memory p.

(** [m_slots[i] = p]. *)
Definition store_slot (i p : Z) : M exception_allocator unit :=
  s ← get;
  if (0 <=? i) && (i <? SLOT_COUNT)
  then put (set_slots (<[Z.to_nat i := p]> (m_slots s)) s) else fault.

Definition pool_deallocate (p : Z) : M exception_allocator unit :=
  s ← get;
  let last_slot_begin := m_buffer s + RESERVED_BYTES_COUNT - SLOT_SIZE in
  if (p <? m_buffer s) || (last_slot_begin <? p) then free_to_heap p
  else
    let c := u32 (m_current_slot s - 1) in
    _ ← put (set_current_slot c s);
    store_slot (signed 32 c) p.

(** The bytes of the block at [p]: those of a slot, or those the kernel gave. *)
Definition block_size (p : Z) (s : exception_allocator) : Z :=
  if (p <? m_buffer s) || (m_buffer s + RESERVED_BYTES_COUNT - SLOT_SIZE <? p)
  then default 0 (blocks s !! p) else SLOT_SIZE.

(** The destructor of the allocator. *)
Definition pool_destroy : M exception_allocator unit :=
  s ← get; deallocate_memory (m_buffer s).
End pool.

(** ** The reserve as a set of blocks

    [own] lists the blocks handed out and not yet returned. *)
Definition in_page (b p : Z) : Prop := b <= p <= b + RESERVED_BYTES_COUNT - SLOT_SIZE.

#[export] Instance in_page_dec b p : Decision (in_page b p).
Proof. unfold in_page; apply _. Defined.

Record pool_inv (s : exception_allocator) (own : list Z) : Prop := {
  pi_buffer : 0 < m_buffer s /\ m_buffer s mod 16 = 0;
  pi_len : length (m_slots s) = 8%nat;
  pi_count : m_current_slot s = Z.of_nat (length (filter (in_page (m_buffer s)) own));
  pi_slots : drop (Z.to_nat (m_current_slot s)) (m_slots s) ++ filter (in_page (m_buffer s)) own
             ≡ₚ slot_addresses (m_buffer s);
  pi_page : blocks s !! m_buffer s = Some RESERVED_BYTES_COUNT;
  pi_blocks p : p <> m_buffer s ->
    is_Some (blocks s !! p) <-> p ∈ own /\ ~ in_page (m_buffer s) p;
  pi_sizes p m : blocks s !! p = Some m -> 0 < p /\ 0 < m;
  pi_nodup : NoDup own }.

Lemma slot_addresses_bounds b p :
  p ∈ slot_addresses b -> in_page b p /\ exists i, p = b + 512 * i.
Proof.
  unfold slot_addresses, in_page. intros H. apply list_elem_of_fmap in H as (i & -> & Hi).
  apply elem_of_seqZ in Hi. change SLOT_COUNT with 8 in Hi.
  unfold RESERVED_BYTES_COUNT, SLOT_SIZE, PAGE_SIZE. split; [lia|eauto].
Qed.

Lemma slot_addresses_NoDup b : NoDup (slot_addresses b).
Proof.
  unfold slot_addresses. apply NoDup_fmap_2; [|apply NoDup_seqZ].
  intros i j. unfold SLOT_SIZE. lia.
Qed.

Lemma length_slot_addresses b : length (slot_addresses b) = 8%nat.
Proof. reflexivity. Qed.

Lemma claimed_index_small c : 0 <= c < 2 ^ 31 - 1 -> claimed_index c = c.
Proof.
  intros Hc. unfold claimed_index, signed. rewrite wrap_idemp, (wrap_small 32) by lia.
  rewrite (proj2 (Z.ltb_lt _ _)) by (cbn; lia). rewrite Z.add_simpl_r. apply wrap_small. lia.
Qed.

Section invariant.
Context `{K : kernel}.

Lemma pool_count_le s own : pool_inv s own -> 0 <= m_current_slot s <= 8.
Proof.
  intros H. pose proof (Permutation_length (pi_slots _ _ H)) as Hl.
  rewrite length_app, length_slot_addresses in Hl. rewrite (pi_count _ _ H) in *. lia.
Qed.

(** A block of the kernel's pool. *)
Lemma allocate_from_heap_post n s own :
  pool_inv s own ->
  match allocate_from_heap n s with
  | Ok s' p => pool_inv s' (p :: own) /\ p mod 16 = 0 /\ 0 < p
  | Throw s' e => s' = s /\ e = bad_alloc
  | _ => False
  end.
Proof.
  intros H. unfold allocate_from_heap, allocate_impl. unfold mbind, M_bind, get, put, throw.
  destruct (DISPATCH_LEVEL <? current_irql s); [done|].
  destruct (kernel_alloc (blocks s) (Z.max n PAGE_SIZE)) as [a|] eqn:E; [|done]. cbn.
  destruct (kernel_aligned _ _ _ E) as [Ha0 Ha]. split; [|done].
  assert (Hpos : 0 < Z.max n PAGE_SIZE) by (unfold PAGE_SIZE; lia).
  assert (Hout : ~ in_page (m_buffer s) a).
  { pose proof (kernel_disjoint _ _ _ _ _ E Hpos (pi_page _ _ H)) as Hd.
    unfold in_page, RESERVED_BYTES_COUNT, SLOT_SIZE, PAGE_SIZE in *. lia. }
  assert (Hnew : blocks s !! a = None).
  { destruct (blocks s !! a) as [m|] eqn:Eb; [|done].
    pose proof (pi_sizes _ _ H _ _ Eb) as [_ Hm].
    pose proof (kernel_disjoint _ _ _ _ _ E Hpos Eb Hm). lia. }
  assert (Hab : a <> m_buffer s) by (intros ->; by rewrite (pi_page _ _ H) in Hnew).
  assert (Hfresh : a ∉ own).
  { intros Hin. assert (is_Some (blocks s !! a)) as [? ?] by (by apply (pi_blocks _ _ H)).
    congruence. }
  split; cbn [m_buffer m_slots m_current_slot blocks set_blocks];
    rewrite ?filter_cons_False by done; try apply H.
  - rewrite lookup_insert_ne by done. apply H.
  - intros p Hp. rewrite elem_of_cons.
    destruct (decide (p = a)) as [->|Hne].
    + rewrite lookup_insert_eq. naive_solver.
    + rewrite lookup_insert_ne by done. rewrite (pi_blocks _ _ H p Hp). naive_solver.
  - intros p m. destruct (decide (p = a)) as [->|Hne].
    + rewrite lookup_insert_eq. naive_solver.
    + rewrite lookup_insert_ne by done. apply H.
  - constructor; [done|apply H].
Qed.

(** A slot of the page. *)
Lemma try_get_slot_post s own :
  pool_inv s own ->
  match try_get_slot s with
  | Ok s' (Some p) => pool_inv s' (p :: own) /\ p mod 16 = 0 /\ 0 < p
  | Ok s' None => s' = s /\ m_current_slot s = 8
  | _ => False
  end.
Proof.
  intros H. pose proof (pool_count_le _ _ H) as Hc. unfold try_get_slot.
  unfold mbind, M_bind, get, put. rewrite claimed_index_small by lia.
  change SLOT_COUNT with 8. destruct (Z.ltb_spec (m_current_slot s) 8) as [Hlt|Hge].
  2: { cbn. unfold set_current_slot; cbn. split; [|lia].
       rewrite (wrap_small 32 (m_current_slot s + 1)), Z.add_simpl_r, wrap_small by lia.
       by destruct s. }
  destruct (lookup_lt_is_Some_2 (m_slots s) (Z.to_nat (m_current_slot s))) as [p Hp].
  { rewrite (pi_len _ _ H). lia. }
  rewrite Hp. cbn. rewrite (wrap_small 32) by lia.
  pose proof (pi_slots _ _ H) as Hs. rewrite (drop_S _ _ _ Hp) in Hs.
  assert (Hin : p ∈ slot_addresses (m_buffer s)) by (rewrite <- Hs; left).
  apply slot_addresses_bounds in Hin as [Hpage [i Hi]].
  pose proof (pi_buffer _ _ H) as [Hb0 Hb]. split.
  2: { split; [subst p; zdiv|unfold in_page in Hpage; lia]. }
  assert (Hfresh : p ∉ own).
  { pose proof (slot_addresses_NoDup (m_buffer s)) as Hnd. rewrite <- Hs in Hnd. cbn in Hnd.
    apply NoDup_cons in Hnd as [Hnin _]. intros Hin. apply Hnin. apply elem_of_app. right.
    by apply list_elem_of_filter. }
  split; cbn [m_buffer m_slots m_current_slot blocks set_current_slot];
    rewrite ?filter_cons_True by done; try apply H.
  - cbn [length]. rewrite (pi_count _ _ H). lia.
  - replace (Z.to_nat (m_current_slot s + 1)) with (S (Z.to_nat (m_current_slot s))) by lia.
    rewrite <- Hs. by rewrite <- Permutation_middle.
  - intros q Hq. rewrite elem_of_cons, (pi_blocks _ _ H q Hq). naive_solver.
  - constructor; [done|apply H].
Qed.

Lemma pool_allocate_post n s own :
  pool_inv s own ->
  match pool_allocate n s with
  | Ok s' p => pool_inv s' (p :: own) /\ p mod 16 = 0 /\ 0 < p
  | Throw s' e => s' = s /\ e = bad_alloc
  | _ => False
  end.
Proof.
  intros H. unfold pool_allocate. destruct (n <=? SLOT_SIZE); [|by apply allocate_from_heap_post].
  unfold mbind, M_bind. pose proof (try_get_slot_post s own H) as Ht.
  destruct (try_get_slot s) as [s' [p|]| | |]; try done.
  - destruct Ht as (Hi & Ha & Hp). by rewrite (proj2 (Z.eqb_neq _ _)) by lia.
  - destruct Ht as [-> _]. by apply allocate_from_heap_post.
Qed.

(** A block is as large as the request. *)
Lemma in_page_size b p s : m_buffer s = b -> in_page b p -> block_size p s = SLOT_SIZE.
Proof.
  intros <- H. unfold in_page in H. unfold block_size.
  by rewrite (proj2 (Z.ltb_ge _ _)), (proj2 (Z.ltb_ge _ _)) by lia.
Qed.

Lemma try_get_slot_size s own s' p :
  pool_inv s own -> try_get_slot s = Ok s' (Some p) -> block_size p s' = SLOT_SIZE.
Proof.
  intros H Ht. pose proof (try_get_slot_post s own H) as Hp. rewrite Ht in Hp.
  destruct Hp as (Hi & _). apply (in_page_size (m_buffer s')); [done|].
  assert (m_buffer s' = m_buffer s /\ p ∈ drop (Z.to_nat (m_current_slot s)) (m_slots s)) as [-> Hin].
  { pose proof (pool_count_le _ _ H) as Hc. unfold try_get_slot, mbind, M_bind, get, put in Ht.
    rewrite claimed_index_small in Ht by lia. case_match; [|by unfold modify, mret, M_ret in Ht; simplify_eq].
    unfold access in Ht. destruct (m_slots s !! _) as [q|] eqn:Hq; [|done].
    unfold mret, M_ret in Ht. simplify_eq. split; [done|]. rewrite (drop_S _ _ _ Hq). left. }
  apply (slot_addresses_bounds (m_buffer s)). rewrite <- (pi_slots _ _ H). apply elem_of_app. by left.
Qed.

Lemma allocate_from_heap_size n s own s' p :
  pool_inv s own -> allocate_from_heap n s = Ok s' p -> block_size p s' = Z.max n PAGE_SIZE.
Proof.
  intros H Ha. pose proof (allocate_from_heap_post n s own H) as Hp. rewrite Ha in Hp.
  unfold allocate_from_heap, allocate_impl, mbind, M_bind, get, put, throw in Ha.
  destruct (DISPATCH_LEVEL <? current_irql s); [done|].
  destruct (kernel_alloc (blocks s) (Z.max n PAGE_SIZE)) as [a|] eqn:E; [|done].
  cbn in Ha. unfold mret, M_ret in Ha. injection Ha as <- <-. assert (Hpos : 0 < Z.max n PAGE_SIZE) by (unfold PAGE_SIZE; lia).
  pose proof (kernel_disjoint _ _ _ _ _ E Hpos (pi_page _ _ H)) as Hd.
  assert (block_size a (set_blocks (<[a:=Z.max n PAGE_SIZE]> (blocks s)) s) = Z.max n PAGE_SIZE) as Hb; [|done].
  unfold block_size. cbn [m_buffer set_blocks blocks]. rewrite lookup_insert_eq.
  unfold RESERVED_BYTES_COUNT, SLOT_SIZE, PAGE_SIZE in *.
  rewrite (proj2 (orb_true_iff _ _)); [done|]. rewrite !Z.ltb_lt. lia.
Qed.

Lemma pool_allocate_size n s own s' p :
  pool_inv s own -> pool_allocate n s = Ok s' p -> n <= block_size p s'.
Proof.
  intros H Ha. unfold pool_allocate in Ha.
  destruct (Z.leb_spec n SLOT_SIZE) as [Hn|Hn].
  2: { rewrite (allocate_from_heap_size _ _ _ _ _ H Ha). lia. }
  unfold mbind, M_bind in Ha. pose proof (try_get_slot_post s own H) as Ht.
  destruct (try_get_slot s) as [s1 [q|]| | |] eqn:E; try done.
  - destruct Ht as (_ & _ & Hq). rewrite (proj2 (Z.eqb_neq _ _)) in Ha by lia.
    unfold mret, M_ret in Ha. simplify_eq. by rewrite (try_get_slot_size _ _ _ _ H E).
  - destruct Ht as [-> _]. rewrite (allocate_from_heap_size _ _ _ _ _ H Ha). lia.
Qed.

Lemma perm_remove_filter (b p : Z) (own : list Z) k :
  own !! k = Some p -> filter (in_page b) own ≡ₚ
    (if decide (in_page b p) then p :: filter (in_page b) (delete k own)
     else filter (in_page b) (delete k own)).
Proof.
  intros Hk. rewrite (delete_Permutation own k p Hk) at 1.
  case_decide; [by rewrite filter_cons_True|by rewrite filter_cons_False].
Qed.

Lemma elem_of_delete_NoDup (own : list Z) k p q :
  NoDup own -> own !! k = Some p -> q ∈ delete k own <-> q ∈ own /\ q <> p.
Proof.
  intros Hnd Hk. pose proof (delete_Permutation own k p Hk) as Hp.
  rewrite Hp in Hnd. apply NoDup_cons in Hnd as [Hnin _].
  assert (q ∈ own <-> q ∈ p :: delete k own) as Hq by (by rewrite <- Hp).
  rewrite Hq, elem_of_cons. split; [|by intros [[?|?] ?]].
  intros Hin. split; [by right|]. by intros ->.
Qed.

Lemma pool_deallocate_post s own k p :
  pool_inv s own -> own !! k = Some p ->
  exists s', pool_deallocate p s = Ok s' tt /\ pool_inv s' (delete k own).
Proof.
  intros H Hk. pose proof (pool_count_le _ _ H) as Hc.
  pose proof (perm_remove_filter (m_buffer s) p own k Hk) as Hf.
  pose proof (fun q => elem_of_delete_NoDup own k p q (pi_nodup _ _ H) Hk) as Hd.
  assert (Hown : p ∈ own) by (by eapply list_elem_of_lookup_2).
  assert (Hnd : NoDup (delete k own)).
  { pose proof (pi_nodup _ _ H) as Hn. rewrite (delete_Permutation own k p Hk) in Hn.
    by apply NoDup_cons in Hn as [_ Hn]. }
  unfold pool_deallocate. unfold mbind, M_bind, get, put.
  destruct (decide (in_page (m_buffer s) p)) as [Hin|Hout].
  - assert (((p <? m_buffer s) ||
             (m_buffer s + RESERVED_BYTES_COUNT - SLOT_SIZE <? p)) = false) as ->.
    { unfold in_page in Hin. apply orb_false_iff. split; apply Z.ltb_ge; lia. }
    assert (1 <= m_current_slot s).
    { rewrite (pi_count _ _ H), Hf. cbn [length]. lia. }
    unfold store_slot, mbind, M_bind, get, put; cbn [set_current_slot m_slots].
    unfold signed. rewrite wrap_idemp, (wrap_small 32) by lia.
    rewrite (proj2 (Z.ltb_lt (m_current_slot s - 1) (2 ^ (32 - 1)))) by (cbn; lia).
    rewrite (proj2 (Z.leb_le _ _)), (proj2 (Z.ltb_lt _ _)) by (change SLOT_COUNT with 8; lia).
    cbn [andb]. eexists. split; [reflexivity|].
    split; cbn [m_buffer m_slots m_current_slot blocks set_slots set_current_slot]; try apply H.
    + rewrite length_insert. apply H.
    + rewrite (pi_count _ _ H), Hf. cbn [length]. lia.
    + rewrite <- (pi_slots _ _ H), Hf.
      rewrite (drop_S (<[_ := p]> (m_slots s)) p (Z.to_nat (m_current_slot s - 1))).
      2: { apply list_lookup_insert_eq. rewrite (pi_len _ _ H). lia. }
      rewrite drop_insert_lt by lia.
      replace (S (Z.to_nat (m_current_slot s - 1))) with (Z.to_nat (m_current_slot s)) by lia.
      cbn [app]. by rewrite Permutation_middle.
    + intros q Hq. rewrite (pi_blocks _ _ H q Hq), Hd. naive_solver.
    + exact Hnd.
  - assert (((p <? m_buffer s) ||
             (m_buffer s + RESERVED_BYTES_COUNT - SLOT_SIZE <? p)) = true) as ->.
    { unfold in_page in Hout. apply orb_true_iff.
      destruct (Z.ltb_spec p (m_buffer s)); [by left|right; apply Z.ltb_lt; lia]. }
    assert (Hpb : p <> m_buffer s).
    { intros ->. apply Hout. unfold in_page, RESERVED_BYTES_COUNT, SLOT_SIZE, PAGE_SIZE. lia. }
    unfold free_to_heap, deallocate_memory.
    destruct (Z.eqb_spec p 0) as [->|Hp0].
    { exfalso. assert (is_Some (blocks s !! 0)) as [m Hm] by (by apply (pi_blocks _ _ H)).
      apply (pi_sizes _ _ H) in Hm. lia. }
    assert (is_Some (blocks s !! p)) as [m Hm] by (by apply (pi_blocks _ _ H)).
    unfold mbind, M_bind, get, put, access. rewrite Hm. eexists. split; [reflexivity|].
    split; cbn [m_buffer m_slots m_current_slot blocks set_blocks]; try apply H; try done.
    + rewrite (pi_count _ _ H), Hf. done.
    + rewrite <- (pi_slots _ _ H), Hf. done.
    + rewrite lookup_delete_ne by done. apply H.
    + intros q Hq. destruct (decide (q = p)) as [->|Hne].
      * rewrite lookup_delete_eq, Hd. split; [by intros [? ?]|naive_solver].
      * rewrite lookup_delete_ne, (pi_blocks _ _ H q Hq), Hd by done. naive_solver.
    + intros q m' Hq. apply lookup_delete_Some in Hq as [_ Hq]. by apply (pi_sizes _ _ H) in Hq.
Qed.

(** The allocator right after a successful start. *)
Lemma pool_run_post s :
  m_current_slot s = 0 -> length (m_slots s) = 8%nat ->
  blocks s = ∅ ->
  match pool_run s with
  | Ok s' true => pool_inv s' []
  | Ok s' false => m_buffer s' = 0
  | _ => False
  end.
Proof.
  intros Hc Hl Hb. unfold pool_run, allocate_impl, mbind, M_bind, get, put. rewrite Hb.
  change (Z.max RESERVED_BYTES_COUNT PAGE_SIZE) with 4096.
  destruct (kernel_alloc ∅ 4096) as [b|] eqn:E; [|done].
  destruct (kernel_aligned _ _ _ E) as [Hb0 Ha].
  split; cbn -[slot_addresses RESERVED_BYTES_COUNT]; rewrite ?Hc; try done.
  - by rewrite lookup_insert_eq.
  - intros p Hp. rewrite lookup_insert_ne by done. rewrite lookup_empty.
    split; [by intros [? ?]|]. by intros [?%elem_of_nil _].
  - intros p m. destruct (decide (p = b)) as [->|Hne].
    + rewrite lookup_insert_eq. intros [= <-]. lia.
    + by rewrite lookup_insert_ne, lookup_empty.
  - constructor.
Qed.

(** ** Sequences of requests *)

Inductive pool_op := PAllocate (bytes_count : Z) | PDeallocate (k : nat).

(** One request of the owner of the blocks [own]: a new block, or the return of
    its [k]-th block. *)
Definition pool_step (op : pool_op) (own : list Z) : M exception_allocator (list Z) :=
  match op with
  | PAllocate n => p ← pool_allocate n; mret (p :: own)
  | PDeallocate k =>
      match own !! k with
      | Some p => _ ← pool_deallocate p; mret (delete k own)
      | None => mret own
      end
  end.

(** A refused request is survived by its caller. *)
Fixpoint pool_requests (ops : list pool_op) (own : list Z) : M exception_allocator (list Z) :=
  match ops with
  | [] => mret own
  | op :: ops => fun s =>
      match pool_step op own s with
      | Ok s own => pool_requests ops own s
      | Throw s _ => pool_requests ops own s
      | Fault => Fault
      | Diverge => Diverge
      end
  end.

Lemma pool_requests_inv ops s own :
  pool_inv s own ->
  exists s' own', pool_requests ops own s = Ok s' own' /\ pool_inv s' own'.
Proof.
  revert s own; induction ops as [|op ops IH]; intros s own H; [by exists s, own|].
  cbn [pool_requests]. destruct op as [n|k]; cbn [pool_step].
  - pose proof (pool_allocate_post n s own H) as Ha. unfold mbind, M_bind.
    destruct (pool_allocate n s) as [s1 p|s1 e| |]; try done.
    + apply IH, Ha.
    + destruct Ha as [-> _]. by apply IH.
  - destruct (own !! k) as [p|] eqn:Hk; [|by apply IH].
    destruct (pool_deallocate_post s own k p H Hk) as (s1 & Hd & Hi).
    unfold mbind, M_bind. rewrite Hd. by apply IH.
Qed.
End invariant.

(** ** Concurrent requests

    [allocate] and [deallocate] touch the shared state in two separate steps: the
    interlocked change of the counter and the access to [m_slots].  A thread is
    between the steps of a request, or idle with the slots it owns. *)
Inductive thread_pc :=
  | idle
  | claimed (slot_index : Z)
  | overdrawn
  | releasing (slot_index p : Z).

Record thread := Thread { pc : thread_pc; owned : list Z }.

(** What the scheduler runs next: thread [t] begins an allocation, begins to return
    its slot [p], or does the second step of its request. *)
Inductive action :=
  | begin_allocate (t : nat)
  | begin_deallocate (t : nat) (p : Z)
  | finish (t : nat).

(** The first step of [try_get_slot]: the claimed index decides how it goes on. *)
Definition claim_step (s : exception_allocator) : exception_allocator * thread_pc :=
  let i := claimed_index (m_current_slot s) in
  (set_current_slot (u32 (m_current_slot s + 1)) s,
   if i <? SLOT_COUNT then claimed i else overdrawn).

(** The first step of [deallocate] for a slot of the page. *)
Definition release_step (p : Z) (s : exception_allocator) : exception_allocator * thread_pc :=
  let c := u32 (m_current_slot s - 1) in
  (set_current_slot c s, releasing (signed 32 c) p).

Definition run_action (a : action) (sys : exception_allocator * list thread)
    : outcome (exception_allocator * list thread) unit :=
  let '(s, ts) := sys in
  match a with
  | begin_allocate t =>
      match ts !! t with
      | Some (Thread idle own) =>
          let '(s, k) := claim_step s in Ok (s, <[t := Thread k own]> ts) tt
      | _ => Ok sys tt
      end
  | begin_deallocate t p =>
      match ts !! t with
      | Some (Thread idle own) =>
          if decide (p ∈ own) then
            let '(s, k) := release_step p s in
            Ok (s, <[t := Thread k (filter (fun q => q <> p) own)]> ts) tt
          else Ok sys tt
      | _ => Ok sys tt
      end
  | finish t =>
      match ts !! t with
      | Some (Thread (claimed i) own) =>
          match m_slots s !! Z.to_nat i with
          | Some p => Ok (s, <[t := Thread idle (p :: own)]> ts) tt
          | None => Fault
          end
      | Some (Thread overdrawn own) =>
          Ok (set_current_slot (u32 (m_current_slot s - 1)) s, <[t := Thread idle own]> ts) tt
      | Some (Thread (releasing i p) own) =>
          match store_slot i p s with
          | Ok s _ => Ok (s, <[t := Thread idle own]> ts) tt
          | _ => Fault
          end
      | _ => Ok sys tt
      end
  end.

Fixpoint run_schedule (l : list action) (sys : exception_allocator * list thread)
    : outcome (exception_allocator * list thread) unit :=
  match l with
  | [] => Ok sys tt
  | a :: l => match run_action a sys with Ok sys _ => run_schedule l sys | o => o end
  end.

(** Run alone, the two steps are the functions above. *)
Lemma claim_step_alone s :
  try_get_slot s =
    match run_schedule [begin_allocate 0; finish 0] (s, [Thread idle []]) with
    | Ok (s', [Thread idle own]) _ => Ok s' (head own)
    | Ok (s', _) _ => Ok s' None
    | _ => Fault
    end.
Proof.
  unfold try_get_slot, mbind, M_bind, get, put, modify, access, claim_step; cbn.
  unfold claim_step. destruct (claimed_index (m_current_slot s) <? SLOT_COUNT); cbn; [|done].
  by destruct (m_slots s !! _).
Qed.

Lemma release_step_alone p s :
  in_page (m_buffer s) p ->
  pool_deallocate p s =
    match run_schedule [begin_deallocate 0 p; finish 0] (s, [Thread idle [p]]) with
    | Ok (s', _) _ => Ok s' tt
    | _ => Fault
    end.
Proof.
  intros Hin. unfold pool_deallocate, mbind, M_bind, get, put.
  assert (((p <? m_buffer s) ||
           (m_buffer s + RESERVED_BYTES_COUNT - SLOT_SIZE <? p)) = false) as ->.
  { unfold in_page in Hin. apply orb_false_iff. split; apply Z.ltb_ge; lia. }
  cbn -[store_slot]. rewrite decide_True by left. cbn -[store_slot].
  unfold store_slot, mbind, M_bind, get, put, fault. by destruct (_ && _).
Qed.
