(* ===== verification/ExceptionBase.v ===== *)
(** * Exception objects and their shared messages (exception.cpp, exception.hpp)

    An [exception_base] is one pointer, [m_data]: either the address of a string
    literal, or, marked by its lowest bit, the address of a reference-counted
    message allocated from the reserve of [ExceptionPool].  Copies share the
    message; the last destructor returns it.  What a block holds when it is handed out and the
    conversion of wide messages are parameters. *)
From stdpp Require Import base list gmap numbers.
From S2P Require Import Prelude Refinement ExceptionPool.
#[local] Open Scope Z_scope.

Definition SHARED_DATA_MASK : Z := 1.
Definition sizeof_shared_data : Z := 16.

Record shared_data := SharedData { description : list Z; ref_counter : Z }.

(** The objects of type [exception_base], by identity, and the messages in use. *)
Record exc_world := ExcWorld {
  pool : exception_allocator;
  shared : gmap Z shared_data;
  objects : gmap nat Z }.

Definition set_pool (p : exception_allocator) (s : exc_world) : exc_world :=
  ExcWorld p (shared s) (objects s).
Definition set_shared (m : gmap Z shared_data) (s : exc_world) : exc_world :=
  ExcWorld (pool s) m (objects s).
Definition set_objects (m : gmap nat Z) (s : exc_world) : exc_world :=
  ExcWorld (pool s) (shared s) m.

Definition mask (p : Z) : Z := Z.lor p SHARED_DATA_MASK.
Definition unmask (p : Z) : Z := Z.land p (Z.lnot SHARED_DATA_MASK).
Definition is_shared (m_data : Z) : bool := Z.land m_data SHARED_DATA_MASK =? 1.

(** Run an operation of the reserve. *)
Definition on_pool {A} (m : M exception_allocator A) : M exc_world A := fun s =>
  match m (pool s) with
  | Ok p a => Ok (set_pool p s) a
  | Throw p e => Throw (set_pool p s) e
  | Fault => Fault
  | Diverge => Diverge
  end.

Section exception_base.
Context `{K : kernel}.
(** The text of the literal at an address, and the address of the empty one. *)
Context (literal : Z -> list Z) (empty_literal : Z).

Definition m_data (o : nat) : M exc_world Z := s ← get; access (objects s !! o).
Definition put_data (o : nat) (d : Z) : M exc_world unit :=
  modify (fun s => set_objects (<[o := d]> (objects s)) s).

(** [get_shared()]. *)
Definition get_shared (d : Z) : M exc_world shared_data :=
  s ← get; access (shared s !! unmask d).

(** [leftover s a i] is what byte [i] behind the header of the block at [a] holds when the
    block is handed out. *)
Abbreviation leftovers := (exc_world -> Z -> Z -> Z).

(** The bytes behind the header in a new block after [msg] is written to them; writing
    outside of the block is undefined. *)
Definition write_message (leftover : leftovers) (buffer : Z) (msg : list Z) : M exc_world (list Z) :=
  s ← get;
  let n := Z.of_nat (length msg) in
  let room := block_size buffer (pool s) - sizeof_shared_data in
  if n <=? room then mret (msg ++ (leftover s buffer <$> seqZ n (room - n))) else fault.

(** [saved_msg] is the block from there to its end.  The terminator is written at
    [msg_length]; the description is what stands in front of it, with a reference count of
    one. *)
Definition construct_header (buffer : Z) (saved_msg : list Z) (msg_length : Z) : M exc_world Z :=
  if msg_length <? Z.of_nat (length saved_msg) then
    let text := take (Z.to_nat msg_length) saved_msg ++ [0] in
    _ ← modify (fun s => set_shared (<[buffer := SharedData text 1]> (shared s)) s);
    mret (mask buffer)
  else fault.

Definition make_shared_data (leftover : leftovers) (msg : list Z) : M exc_world Z :=
  buffer ← on_pool (pool_allocate (sizeof_shared_data + Z.of_nat (length msg) + 1));
  saved_msg ← write_message leftover buffer msg;
  construct_header buffer saved_msg (Z.of_nat (length msg)).

(** [to_multibyte] is a wide text in the code page of the system (RtlUnicodeToMultiByteN),
    [conversion_failed] the address of the literal [UNICODE_CONVERSION_FAILED].  For a wide
    message [construct_header] is given the length of the source in bytes. *)
Definition make_shared_data_wide (leftover : leftovers) (to_multibyte : list Z -> list Z) (msg : list Z) : M exc_world Z :=
  let src_length_in_bytes := u32 (2 * Z.of_nat (length msg)) in
  let description := to_multibyte (take (Z.to_nat (src_length_in_bytes / 2)) msg) in
  buffer ← on_pool (pool_allocate (sizeof_shared_data + Z.of_nat (length description) + 1));
  saved_msg ← write_message leftover buffer description;
  construct_header buffer saved_msg src_length_in_bytes.

Definition construct_from_unicode (leftover : leftovers) (to_multibyte : list Z -> list Z)
    (conversion_failed : Z) (msg : list Z) : M exc_world Z :=
  s ← get;
  if DISPATCH_LEVEL <=? current_irql (pool s) then mret conversion_failed
  else make_shared_data_wide leftover to_multibyte msg.

(** [exception_base(const char*, size_t)] and the constructor from a literal. *)
Definition construct_message (leftover : leftovers) (o : nat) (msg : list Z) : M exc_world unit :=
  d ← make_shared_data leftover msg; put_data o d.

(** [exception_base(const wchar_t*, size_t)]. *)
Definition construct_wide (leftover : leftovers) (to_multibyte : list Z -> list Z)
    (conversion_failed : Z) (o : nat) (msg : list Z) : M exc_world unit :=
  d ← construct_from_unicode leftover to_multibyte conversion_failed msg; put_data o d.

Definition construct_literal (o : nat) (p : Z) : M exc_world unit := put_data o p.

(** What the copy constructor does to the message it shares. *)
Definition acquire (d : Z) : M exc_world unit :=
  if is_shared d then
    sd ← get_shared d;
    modify (fun s => set_shared (<[unmask d := SharedData (description sd)
                                                 (u64 (ref_counter sd + 1))]> (shared s)) s)
  else mret tt.

(** The body of the destructor. *)
Definition release (d : Z) : M exc_world unit :=
  if is_shared d then
    sd ← get_shared d;
    let n := u64 (ref_counter sd - 1) in
    if n =? 0 then
      _ ← modify (fun s => set_shared (delete (unmask d) (shared s)) s);
      on_pool (pool_deallocate (unmask d))
    else modify (fun s => set_shared (<[unmask d := SharedData (description sd) n]> (shared s)) s)
  else mret tt.

Definition copy_ctor (o other : nat) : M exc_world unit :=
  d ← m_data other; _ ← put_data o d; acquire d.

Definition move_ctor (o other : nat) : M exc_world unit :=
  d ← m_data other; _ ← put_data o d; put_data other empty_literal.

(** [tmp{other}; swap(tmp);] and the destructor of [tmp]. *)
Definition exc_copy_assign (o other : nat) : M exc_world unit :=
  if decide (o = other) then mret tt else
  tmp ← m_data other; _ ← acquire tmp;
  old ← m_data o; _ ← put_data o tmp; release old.

Definition exc_move_assign (o other : nat) : M exc_world unit :=
  if decide (o = other) then mret tt else
  tmp ← m_data other; _ ← put_data other empty_literal;
  old ← m_data o; _ ← put_data o tmp; release old.

Definition exc_destroy (o : nat) : M exc_world unit :=
  d ← m_data o; _ ← modify (fun s => set_objects (delete o (objects s)) s); release d.

Definition get_message (o : nat) : M exc_world (list Z) :=
  d ← m_data o;
  if is_shared d then sd ← get_shared d; mret (description sd) else mret (literal d).

(** ** The contract: every object has a message of its own *)

Inductive exc_op :=
  | EMessage (o : nat) (msg : list Z)
  | ELiteral (o : nat) (p : Z)
  | ECopy (o other : nat)
  | EMove (o other : nat)
  | EAssign (o other : nat)
  | EMoveAssign (o other : nat)
  | EDestroy (o : nat)
  | EWhat (o : nat).

Definition exc_step (leftover : leftovers) (op : exc_op) : M exc_world (option (list Z)) :=
  match op with
  | EMessage o msg => _ ← construct_message leftover o msg; mret None
  | ELiteral o p => _ ← construct_literal o p; mret None
  | ECopy o other => _ ← copy_ctor o other; mret None
  | EMove o other => _ ← move_ctor o other; mret None
  | EAssign o other => _ ← exc_copy_assign o other; mret None
  | EMoveAssign o other => _ ← exc_move_assign o other; mret None
  | EDestroy o => _ ← exc_destroy o; mret None
  | EWhat o => msg ← get_message o; mret (Some msg)
  end.

Definition exc_spec (op : exc_op) (m : gmap nat (list Z)) : gmap nat (list Z) * option (list Z) :=
  let text o := default [] (m !! o) in
  match op with
  | EMessage o msg => (<[o := msg ++ [0]]> m, None)
  | ELiteral o p => (<[o := literal p]> m, None)
  | ECopy o other => (<[o := text other]> m, None)
  | EMove o other => (<[other := literal empty_literal]> (<[o := text other]> m), None)
  | EAssign o other => (<[o := text other]> m, None)
  | EMoveAssign o other =>
      (if decide (o = other) then m
       else <[o := text other]> (<[other := literal empty_literal]> m), None)
  | EDestroy o => (delete o m, None)
  | EWhat o => (m, Some (text o))
  end.

(** Objects are constructed once, used while they live, there are fewer than 2^32 of them,
    and literals are at even addresses: the lowest bit of the address marks shared data.
    Wide messages are not part of the contract. *)
Definition exc_supported (op : exc_op) (m : gmap nat (list Z)) : Prop :=
  Z.of_nat (size m) < 2 ^ 32 /\
  match op with
  | EMessage o _ => m !! o = None
  | ELiteral o p => m !! o = None /\ p mod 2 = 0
  | ECopy o other | EMove o other => m !! o = None /\ is_Some (m !! other)
  | EAssign o other | EMoveAssign o other => is_Some (m !! o) /\ is_Some (m !! other)
  | EDestroy o | EWhat o => is_Some (m !! o)
  end.

#[global] Instance exc_supported_dec op m : Decision (exc_supported op m).
Proof. destruct op; unfold exc_supported; apply _. Defined.

(** ** Reference counts *)

(** The number of objects with this [m_data]. *)
Definition holders (objs : gmap nat Z) (d : Z) : nat := matching (fun x : nat * Z => x.2 = d) objs.

Lemma holders_insert_new objs o x d :
  objs !! o = None ->
  holders (<[o := x]> objs) d = ((if decide (x = d) then 1 else 0) + holders objs d)%nat.
Proof. intros Ho. exact (matching_insert_new (fun x : nat * Z => x.2 = d) objs o x Ho). Qed.

Lemma holders_delete objs o x d :
  objs !! o = Some x ->
  holders objs d = ((if decide (x = d) then 1 else 0) + holders (delete o objs) d)%nat.
Proof. intros Ho. exact (matching_delete (fun x : nat * Z => x.2 = d) objs o x Ho). Qed.

Lemma holders_insert objs o x y d :
  objs !! o = Some x ->
  (holders (<[o := y]> objs) d + (if decide (x = d) then 1 else 0) =
   (if decide (y = d) then 1 else 0) + holders objs d)%nat.
Proof. intros Ho. exact (matching_insert (fun x : nat * Z => x.2 = d) objs o x y Ho). Qed.

Lemma holders_pos objs o d : objs !! o = Some d -> (0 < holders objs d)%nat.
Proof. intros Ho. apply matching_pos. eauto. Qed.

Lemma holders_le objs d : (holders objs d <= size objs)%nat.
Proof. apply matching_le. Qed.

Lemma mask_even a : a mod 2 = 0 -> mask a = a + 1 /\ unmask (mask a) = a /\ is_shared (mask a) = true.
Proof.
  intros Ha. unfold mask, unmask, is_shared, SHARED_DATA_MASK.
  assert (Hl : forall x, Z.land x 1 = x mod 2).
  { intros x. change 1 with (Z.ones 1). by rewrite Z.land_ones by lia. }
  assert (Hm : Z.lor a 1 = a + 1).
  { pose proof (Z.add_lor_land a 1) as H. rewrite Hl, Ha in H. lia. }
  rewrite Hm, Hl, <- Z.ldiff_land.
  change (Z.ldiff (a + 1) 1) with (Z.ldiff (a + 1) (Z.ones 1)).
  rewrite Z.ldiff_ones_r by lia. rewrite Z.shiftl_mul_pow2, Z.shiftr_div_pow2 by lia.
  split; [done|]. split; [zdiv|]. apply Z.eqb_eq. zdiv.
Qed.

Lemma shared_odd d : is_shared d = true -> mask (unmask d) = d /\ unmask d mod 2 = 0.
Proof.
  unfold mask, unmask, is_shared, SHARED_DATA_MASK. intros H. apply Z.eqb_eq in H.
  assert (Hl : forall x, Z.land x 1 = x mod 2).
  { intros x. change 1 with (Z.ones 1). by rewrite Z.land_ones by lia. }
  rewrite Hl in H. rewrite <- Z.ldiff_land. change (Z.ldiff d 1) with (Z.ldiff d (Z.ones 1)).
  rewrite Z.ldiff_ones_r by lia. rewrite Z.shiftl_mul_pow2, Z.shiftr_div_pow2 by lia.
  change (2 ^ 1) with 2.
  pose proof (Z.add_lor_land (d / 2 * 2) 1) as Ha. rewrite Hl, Z.mod_mul in Ha by lia.
  split; [|by apply Z.mod_mul]. zdiv.
Qed.

Lemma literal_even d : d mod 2 = 0 -> is_shared d = false.
Proof.
  unfold is_shared, SHARED_DATA_MASK. intros H. change 1 with (Z.ones 1) at 1.
  rewrite Z.land_ones by lia. change (2 ^ 1) with 2. by rewrite H.
Qed.

(** ** The invariant

    [ex] lists the values of [m_data] held by temporaries. *)
Definition held (objs : gmap nat Z) (ex : list Z) (d : Z) : nat :=
  (holders objs d + length (filter (fun x => x = d) ex))%nat.

Record refs_inv (s : exc_world) (ex : list Z) : Prop := {
  ri_pool : exists own, pool_inv (pool s) own /\ forall a, a ∈ own <-> is_Some (shared s !! a);
  ri_count a sd : shared s !! a = Some sd ->
    a mod 16 = 0 /\ ref_counter sd = Z.of_nat (held (objects s) ex (mask a)) /\
    0 < ref_counter sd;
  ri_alive d : (0 < held (objects s) ex d)%nat -> is_shared d = true ->
    is_Some (shared s !! unmask d) }.

Definition message_of (s : exc_world) (d : Z) : list Z :=
  if is_shared d then default [] (description <$> shared s !! unmask d) else literal d.

Lemma held_cons objs ex x d :
  held objs (x :: ex) d = ((if decide (x = d) then 1 else 0) + held objs ex d)%nat.
Proof.
  unfold held. case_decide; [rewrite filter_cons_True by done|rewrite filter_cons_False by done];
    cbn [length]; lia.
Qed.

(** Changes of who holds what, without changing how many hold it. *)
Lemma refs_inv_ext s ex objs ex' :
  refs_inv s ex -> (forall d, is_shared d = true -> held objs ex' d = held (objects s) ex d) ->
  refs_inv (set_objects objs s) ex'.
Proof.
  intros [H1 H2 H3] He. split; cbn.
  - done.
  - intros a sd Ha. destruct (H2 _ _ Ha) as (Hm & Hr & Hp). split; [done|]. rewrite He; [done|].
    apply mask_even. zdiv.
  - intros d Hd Hs. rewrite He in Hd by done. by apply H3.
Qed.

Lemma refs_inv_put_new s ex o d :
  refs_inv s (d :: ex) -> objects s !! o = None ->
  refs_inv (set_objects (<[o := d]> (objects s)) s) ex.
Proof.
  intros H Ho. eapply refs_inv_ext; [done|]. intros d' _. rewrite held_cons.
  unfold held. rewrite holders_insert_new by done. lia.
Qed.

Lemma refs_inv_swap s ex o d old :
  refs_inv s (d :: ex) -> objects s !! o = Some old ->
  refs_inv (set_objects (<[o := d]> (objects s)) s) (old :: ex).
Proof.
  intros H Ho. eapply refs_inv_ext; [done|]. intros d' _. rewrite !held_cons.
  unfold held. pose proof (holders_insert (objects s) o old d d' Ho). lia.
Qed.

Lemma refs_inv_delete s ex o d :
  refs_inv s ex -> objects s !! o = Some d ->
  refs_inv (set_objects (delete o (objects s)) s) (d :: ex).
Proof.
  intros H Ho. eapply refs_inv_ext; [done|]. intros d' _. rewrite held_cons.
  unfold held. rewrite (holders_delete (objects s) o d d' Ho). lia.
Qed.

Lemma refs_inv_literal s ex x :
  refs_inv s ex -> is_shared x = false -> refs_inv s (x :: ex).
Proof.
  intros H Hx. replace s with (set_objects (objects s) s) by (by destruct s).
  eapply refs_inv_ext; [done|]. intros d Hd. rewrite held_cons, decide_False; [done|].
  intros ->. congruence.
Qed.

(** ** Taking and giving up references *)

Lemma acquire_spec s ex d :
  refs_inv s ex -> (0 < held (objects s) ex d)%nat -> Z.of_nat (held (objects s) ex d) < 2 ^ 63 ->
  exists s', acquire d s = Ok s' tt /\ refs_inv s' (d :: ex) /\ objects s' = objects s /\
    forall d', message_of s' d' = message_of s d'.
Proof.
  intros H Hd Hlt. unfold acquire. destruct (is_shared d) eqn:Es.
  2: { exists s. split; [done|]. split; [by apply refs_inv_literal|done]. }
  destruct (ri_alive _ _ H d Hd Es) as [sd Hsd].
  destruct (shared_odd d Es) as [Hmask Heven].
  destruct (ri_count _ _ H _ _ Hsd) as (Ha & Hr & Hp). rewrite Hmask in Hr.
  eexists. split.
  { unfold get_shared, mbind, M_bind, get, access. rewrite Hsd. reflexivity. }
  split; [|split; [done|]].
  - split; cbn.
    + destruct (ri_pool _ _ H) as (own & Hpool & Hown). exists own. split; [done|].
      intros a. rewrite Hown. destruct (decide (a = unmask d)) as [->|Hne].
      * rewrite lookup_insert_eq, Hsd. split; eauto.
      * by rewrite lookup_insert_ne.
    + intros a sd'. destruct (decide (a = unmask d)) as [->|Hne].
      * rewrite lookup_insert_eq. intros [= <-]. cbn [ref_counter].
        rewrite Hmask, held_cons, decide_True by done.
        rewrite wrap_small by lia. split; [done|]. lia.
      * rewrite lookup_insert_ne by done. intros Hs'.
        destruct (ri_count _ _ H _ _ Hs') as (Ha' & Hr' & Hp').
        split; [done|]. rewrite held_cons, decide_False; [done|]. intros ->. apply Hne.
        symmetry. apply mask_even. zdiv.
    + intros d' Hd' Hs'. destruct (decide (unmask d' = unmask d)) as [->|Hne].
      * rewrite lookup_insert_eq. eauto.
      * rewrite lookup_insert_ne by done. apply (ri_alive _ _ H); [|done].
        rewrite held_cons, decide_False in Hd'; [done|]. intros ->. done.
  - intros d'. unfold message_of. destruct (is_shared d'); [|done]. cbn.
    destruct (decide (unmask d' = unmask d)) as [->|Hne].
    + by rewrite lookup_insert_eq, Hsd.
    + by rewrite lookup_insert_ne.
Qed.

Lemma release_spec s ex d :
  refs_inv s (d :: ex) -> Z.of_nat (held (objects s) (d :: ex) d) < 2 ^ 63 ->
  exists s', release d s = Ok s' tt /\ refs_inv s' ex /\ objects s' = objects s /\
    forall d', (0 < held (objects s) ex d')%nat -> message_of s' d' = message_of s d'.
Proof.
  intros H Hlt. unfold release. destruct (is_shared d) eqn:Es.
  2: { exists s. split; [done|]. split; [|done].
       replace s with (set_objects (objects s) s) by (by destruct s).
       eapply refs_inv_ext; [done|]. intros d' Hd'. rewrite held_cons, decide_False; [done|].
       intros ->. congruence. }
  destruct (shared_odd d Es) as [Hmask Heven].
  assert (Hd : (0 < held (objects s) (d :: ex) d)%nat) by (rewrite held_cons, decide_True by done; lia).
  destruct (ri_alive _ _ H d Hd Es) as [sd Hsd].
  destruct (ri_count _ _ H _ _ Hsd) as (Ha & Hr & Hp). rewrite Hmask in Hr.
  destruct (ri_pool _ _ H) as (own & Hpool & Hown).
  erewrite bind_Ok by (unfold get_shared, mbind, M_bind, get, access; rewrite Hsd; reflexivity).
  cbv zeta. rewrite wrap_small by lia.
  assert (Hother : forall a sd', a <> unmask d -> shared s !! a = Some sd' ->
    a mod 16 = 0 /\ ref_counter sd' = Z.of_nat (held (objects s) ex (mask a)) /\ 0 < ref_counter sd').
  { intros a sd' Hne Hs'. destruct (ri_count _ _ H _ _ Hs') as (Ha' & Hr' & Hp').
    split; [done|]. rewrite held_cons, decide_False in Hr'; [done|]. intros ->. apply Hne.
    symmetry. apply mask_even. zdiv. }
  rewrite held_cons, decide_True in Hr by done.
  destruct (Z.eqb_spec (ref_counter sd - 1) 0) as [Hz|Hz].
  - assert (Hin : unmask d ∈ own) by (apply Hown; eauto).
    apply list_elem_of_lookup in Hin as [k Hk].
    destruct (pool_deallocate_post _ _ _ _ Hpool Hk) as (p' & Hde & Hpool').
    eexists. split.
    { unfold mbind, M_bind, modify. unfold on_pool. cbn [pool set_shared]. rewrite Hde. reflexivity. }
    assert (Hz' : held (objects s) ex d = 0%nat) by lia.
    split; [|split; [done|]].
    + split; cbn.
      * exists (delete k own). split; [done|]. intros a.
        rewrite (elem_of_delete_NoDup own k (unmask d) a (pi_nodup _ _ Hpool) Hk), Hown.
        destruct (decide (a = unmask d)) as [->|Hne].
        { rewrite lookup_delete_eq. split; [naive_solver|by intros [? ?]]. }
        rewrite lookup_delete_ne by done. naive_solver.
      * intros a sd' Hs'. apply lookup_delete_Some in Hs' as [Hne Hs']. by apply Hother.
      * intros d' Hd' Hs'. assert (unmask d' <> unmask d).
        { intros Heq. destruct (shared_odd d' Hs') as [Hm' _]. rewrite Heq, Hmask in Hm'.
          subst d'. lia. }
        rewrite lookup_delete_ne by done. apply (ri_alive _ _ H); [|done]. rewrite held_cons. lia.
    + intros d' Hd'. unfold message_of. destruct (is_shared d') eqn:Es'; [|done]. cbn.
      rewrite lookup_delete_ne; [done|]. intros Heq.
      destruct (shared_odd d' Es') as [Hm' _]. rewrite <- Heq, Hmask in Hm'. subst d'. lia.
  - eexists. split; [reflexivity|]. split; [|split; [done|]].
    + split; cbn.
      * exists own. split; [done|]. intros a. rewrite Hown.
        destruct (decide (a = unmask d)) as [->|Hne].
        { rewrite lookup_insert_eq, Hsd. split; eauto. }
        by rewrite lookup_insert_ne.
      * intros a sd'. destruct (decide (a = unmask d)) as [->|Hne].
        { rewrite lookup_insert_eq. intros [= <-]. cbn [ref_counter]. rewrite Hmask.
          split; [done|]. lia. }
        rewrite lookup_insert_ne by done. by apply Hother.
      * intros d' Hd' Hs'. destruct (decide (unmask d' = unmask d)) as [->|Hne].
        { rewrite lookup_insert_eq. eauto. }
        rewrite lookup_insert_ne by done. apply (ri_alive _ _ H); [|done]. rewrite held_cons. lia.
    + intros d' Hd'. unfold message_of. destruct (is_shared d'); [|done]. cbn.
      destruct (decide (unmask d' = unmask d)) as [->|Hne].
      * by rewrite lookup_insert_eq, Hsd.
      * by rewrite lookup_insert_ne.
Qed.

(** ** Each operation against the contract *)

Definition exc_rep (s : exc_world) (m : gmap nat (list Z)) : Prop :=
  refs_inv s [] /\ m = message_of s <$> objects s.

Context (empty_even : empty_literal mod 2 = 0).

Lemma held_nil objs d : held objs [] d = holders objs d.
Proof. unfold held. cbn. lia. Qed.

Lemma held_bound objs ex d :
  Z.of_nat (size objs) < 2 ^ 32 -> (length ex <= 2)%nat -> Z.of_nat (held objs ex d) < 2 ^ 63.
Proof.
  intros Hs He. unfold held. pose proof (holders_le objs d).
  pose proof (length_filter (fun x => x = d) ex). lia.
Qed.

Lemma rep_text s m o d :
  exc_rep s m -> objects s !! o = Some d -> default [] (m !! o) = message_of s d.
Proof. intros [_ ->] Ho. by rewrite lookup_fmap, Ho. Qed.

Lemma rep_lookup s m o : exc_rep s m -> is_Some (m !! o) -> exists d, objects s !! o = Some d.
Proof. intros [_ ->] [t Ht]. apply lookup_fmap_Some in Ht as (d & _ & Hd). eauto. Qed.

Lemma rep_new s m o : exc_rep s m -> m !! o = None -> objects s !! o = None.
Proof. intros [_ ->] Ht. rewrite lookup_fmap in Ht. by apply fmap_None in Ht. Qed.

Lemma messages_ext s s' :
  objects s' = objects s ->
  (forall d, (0 < holders (objects s) d)%nat -> message_of s' d = message_of s d) ->
  message_of s' <$> objects s' = message_of s <$> objects s.
Proof.
  intros Ho Hm. rewrite Ho. apply map_fmap_ext. intros o d Hd. by eapply Hm, holders_pos.
Qed.

Lemma message_of_objects s objs d : message_of (set_objects objs s) d = message_of s d.
Proof. done. Qed.

(** Releasing the last temporary. *)
Lemma release_rep s d :
  refs_inv s [d] -> Z.of_nat (size (objects s)) < 2 ^ 32 ->
  exists s', release d s = Ok s' tt /\ exc_rep s' (message_of s <$> objects s).
Proof.
  intros H Hsz. destruct (release_spec s [] d H) as (s' & Hr & Hi & Ho & Hm).
  { apply held_bound; [done|]. cbn. lia. }
  exists s'. split; [done|]. split; [done|]. symmetry. apply messages_ext; [done|].
  intros d' Hd'. apply Hm. by rewrite held_nil.
Qed.

(** What a new block makes of a message: the block of [construct_header]. *)
Lemma make_header leftover buffer msg n s :
  sizeof_shared_data + Z.of_nat (length msg) <= block_size buffer (pool s) -> 0 <= n ->
  (saved_msg ← write_message leftover buffer msg; construct_header buffer saved_msg n) s =
  let room := block_size buffer (pool s) - sizeof_shared_data in
  if n <? room then
    Ok (set_shared (<[buffer := SharedData (take (Z.to_nat n)
          (msg ++ (leftover s buffer <$> seqZ (Z.of_nat (length msg)) (room - Z.of_nat (length msg)))) ++ [0]) 1]>
          (shared s)) s) (mask buffer)
  else Fault.
Proof.
  intros Hr Hn. unfold write_message, construct_header. unfold mbind at 1, M_bind at 1.
  unfold mbind at 1, M_bind at 1, get. cbv zeta. rewrite (proj2 (Z.leb_le _ _)) by lia.
  unfold mret, M_ret. rewrite length_app, length_fmap, length_seqZ.
  replace (Z.of_nat (length msg + Z.to_nat _)) with (block_size buffer (pool s) - sizeof_shared_data) by lia.
  by case_match.
Qed.

Lemma construct_message_post leftover o msg s m :
  exc_rep s m -> m !! o = None ->
  post (construct_message leftover o msg s) (fun s' _ => exc_rep s' (<[o := msg ++ [0]]> m)).
Proof.
  intros Hrep Ho. pose proof (rep_new _ _ _ Hrep Ho) as Hno. destruct Hrep as [H ->].
  destruct (ri_pool _ _ H) as (own & Hpool & Hown). unfold construct_message, make_shared_data, on_pool.
  unfold mbind at 1, M_bind at 1. unfold mbind at 1, M_bind at 1.
  pose proof (pool_allocate_post (sizeof_shared_data + Z.of_nat (length msg) + 1) _ _ Hpool) as Ha.
  destruct (pool_allocate _ (pool s)) as [p' b|p' e| |] eqn:Ea; try done.
  pose proof (pool_allocate_size _ _ _ _ _ Hpool Ea) as Hsize.
  destruct Ha as (Hpool' & Hb & _). rewrite make_header by (cbn [pool set_pool]; lia).
  cbv zeta. cbn [pool set_pool]. rewrite (proj2 (Z.ltb_lt _ _)) by lia.
  rewrite Nat2Z.id, take_app_length. cbn -[mask].
  assert (Hfresh : shared s !! b = None).
  { pose proof (pi_nodup _ _ Hpool') as Hnd. apply list.NoDup_cons in Hnd as [Hnin _].
    destruct (shared s !! b) eqn:E; [|done]. exfalso. apply Hnin, Hown. eauto. }
  assert (Hb2 : b mod 2 = 0) by zdiv.
  destruct (mask_even b Hb2) as (_ & Hun & Hsh).
  assert (H0 : holders (objects s) (mask b) = 0%nat).
  { destruct (holders (objects s) (mask b)) eqn:E; [done|].
    destruct (ri_alive _ _ H (mask b)) as [? Hx]; [rewrite held_nil; lia|done|].
    rewrite Hun in Hx. congruence. }
  split.
  - split; cbn -[mask].
    + exists (b :: own). split; [done|]. intros a. rewrite elem_of_cons, Hown.
      destruct (decide (a = b)) as [->|Hne].
      * rewrite lookup_insert_eq. split; eauto.
      * rewrite lookup_insert_ne by done. split; [by intros [?|?]|by right].
    + intros a sd. rewrite held_nil, holders_insert_new by done.
      destruct (decide (a = b)) as [->|Hne].
      * rewrite lookup_insert_eq. intros [= <-]. cbn [ref_counter].
        rewrite decide_True by done. split; [done|]. lia.
      * rewrite lookup_insert_ne by done. intros Hs.
        destruct (ri_count _ _ H _ _ Hs) as (Ha & Hr & Hp). rewrite held_nil in Hr.
        rewrite decide_False; [done|]. intros Heq.
        destruct (mask_even a) as (_ & Hua & _); [zdiv|]. apply Hne. congruence.
    + intros d. rewrite held_nil, holders_insert_new by done. intros Hd Hs.
      destruct (decide (unmask d = b)) as [->|Hne]; [rewrite lookup_insert_eq; eauto|].
      rewrite lookup_insert_ne by done. apply (ri_alive _ _ H); [|done]. rewrite held_nil.
      destruct (decide (mask b = d)) as [<-|]; [by rewrite Hun in Hne|lia].
  - cbn [objects set_objects]. rewrite fmap_insert. f_equal.
    + unfold message_of. cbn -[mask unmask is_shared]. by rewrite Hsh, Hun, lookup_insert_eq.
    + apply map_fmap_ext. intros o' d Hd. unfold message_of. destruct (is_shared d) eqn:Es; [|done].
      cbn -[unmask]. rewrite lookup_insert_ne; [done|]. intros ->.
      destruct (shared_odd d Es) as [Hm _]. apply holders_pos in Hd. rewrite <- Hm in Hd. lia.
Qed.

Lemma put_data_new o d s :
  refs_inv s [d] -> objects s !! o = None ->
  exc_rep (set_objects (<[o := d]> (objects s)) s)
          (<[o := message_of s d]> (message_of s <$> objects s)).
Proof.
  intros H Ho. split; [by apply refs_inv_put_new|].
  cbn [objects set_objects]. by rewrite fmap_insert.
Qed.

Lemma acquire_put o d s :
  (_ ← put_data o d; acquire d) s = (_ ← acquire d; put_data o d) s.
Proof.
  unfold acquire, put_data, modify, mbind, M_bind, get_shared, get, access.
  destruct (is_shared d); [|done]. unfold mbind, M_bind, get, mret, M_ret.
  cbn [shared set_objects]. destruct (shared s !! unmask d); reflexivity.
Qed.

Lemma m_data_Ok o d s : objects s !! o = Some d -> m_data o s = Ok s d.
Proof. intros Ho. unfold m_data, mbind, M_bind, get, access. by rewrite Ho. Qed.

Lemma fresh_ex s d : refs_inv s [] -> d mod 2 = 0 -> refs_inv s [d].
Proof. intros H Hd. apply refs_inv_literal; [done|by apply literal_even]. Qed.

Lemma copy_ctor_post o other s m :
  exc_rep s m -> m !! o = None -> is_Some (m !! other) -> Z.of_nat (size (objects s)) < 2 ^ 32 ->
  post (copy_ctor o other s) (fun s' _ => exc_rep s' (<[o := default [] (m !! other)]> m)).
Proof.
  intros Hrep Ho Hot Hsz. destruct (rep_lookup _ _ _ Hrep Hot) as [d Hd].
  rewrite (rep_text _ _ _ _ Hrep Hd). pose proof (rep_new _ _ _ Hrep Ho) as Hno.
  destruct Hrep as [H ->]. unfold copy_ctor. rewrite (bind_Ok _ _ _ _ _ (m_data_Ok _ _ _ Hd)).
  rewrite acquire_put.
  destruct (acquire_spec s [] d H) as (s1 & Ha & Hi & Hob & Hm).
  { rewrite held_nil. by eapply holders_pos. }
  { apply held_bound; [done|cbn; lia]. }
  rewrite (bind_Ok _ _ _ _ _ Ha). cbn. rewrite <- (messages_ext s s1 Hob (fun d' _ => Hm d')).
  rewrite <- (Hm d). apply put_data_new; [done|]. by rewrite Hob.
Qed.

Lemma move_ctor_post o other s m :
  exc_rep s m -> m !! o = None -> is_Some (m !! other) ->
  post (move_ctor o other s) (fun s' _ =>
    exc_rep s' (<[other := literal empty_literal]> (<[o := default [] (m !! other)]> m))).
Proof.
  intros Hrep Ho Hot. destruct (rep_lookup _ _ _ Hrep Hot) as [d Hd].
  rewrite (rep_text _ _ _ _ Hrep Hd). pose proof (rep_new _ _ _ Hrep Ho) as Hno.
  assert (Hne : o <> other) by congruence. destruct Hrep as [H ->].
  unfold move_ctor. rewrite (bind_Ok _ _ _ _ _ (m_data_Ok _ _ _ Hd)).
  erewrite bind_Ok by reflexivity. unfold put_data, modify. cbn [post objects set_objects].
  rewrite (insert_insert_ne (objects s) other o) by done.
  rewrite (insert_insert_ne (message_of s <$> objects s) other o) by done.
  pose proof (refs_inv_swap s [] other empty_literal d (fresh_ex _ _ H empty_even) Hd) as H1.
  pose proof (put_data_new o d _ H1) as H2. cbn [objects set_objects] in H2.
  rewrite lookup_insert_ne, fmap_insert in H2 by done. specialize (H2 Hno).
  rewrite !message_of_objects in H2. change (message_of (set_objects _ s)) with (message_of s) in H2.
  unfold message_of at 2 in H2. by rewrite (literal_even empty_literal) in H2 by done.
Qed.

(** [swap] with a temporary and its destruction: the common end of both assignments. *)
Lemma assign_tail o tmp old s :
  refs_inv s [tmp] -> objects s !! o = Some old -> Z.of_nat (size (objects s)) < 2 ^ 32 ->
  post ((old ← m_data o; _ ← put_data o tmp; release old) s) (fun s' _ =>
    exc_rep s' (<[o := message_of s tmp]> (message_of s <$> objects s))).
Proof.
  intros H Ho Hsz. rewrite (bind_Ok _ _ _ _ _ (m_data_Ok _ _ _ Ho)).
  pose proof (refs_inv_swap s [] o tmp old H Ho) as H1.
  destruct (release_rep _ old H1) as (s' & Hr & Hrep).
  { cbn. by rewrite map_size_insert_Some by eauto. }
  erewrite bind_Ok by reflexivity. rewrite Hr. cbn in *. by rewrite fmap_insert in Hrep.
Qed.

Lemma exc_copy_assign_post o other s m :
  exc_rep s m -> is_Some (m !! o) -> is_Some (m !! other) -> Z.of_nat (size (objects s)) < 2 ^ 32 ->
  post (exc_copy_assign o other s) (fun s' _ => exc_rep s' (<[o := default [] (m !! other)]> m)).
Proof.
  intros Hrep Ho Hot Hsz. unfold exc_copy_assign. case_decide as Heq.
  { subst other. cbn. destruct Hot as [t Ht]. by rewrite Ht, insert_id. }
  destruct (rep_lookup _ _ _ Hrep Hot) as [d Hd]. destruct (rep_lookup _ _ _ Hrep Ho) as [old Hold].
  rewrite (rep_text _ _ _ _ Hrep Hd). destruct Hrep as [H ->].
  rewrite (bind_Ok _ _ _ _ _ (m_data_Ok _ _ _ Hd)).
  destruct (acquire_spec s [] d H) as (s1 & Ha & Hi & Hob & Hm).
  { rewrite held_nil. by eapply holders_pos. }
  { apply held_bound; [done|cbn; lia]. }
  rewrite (bind_Ok _ _ _ _ _ Ha). rewrite <- (messages_ext s s1 Hob (fun d' _ => Hm d')), <- (Hm d).
  eapply assign_tail; rewrite ?Hob; done.
Qed.

Lemma exc_move_assign_post o other s m :
  exc_rep s m -> is_Some (m !! o) -> is_Some (m !! other) -> Z.of_nat (size (objects s)) < 2 ^ 32 ->
  post (exc_move_assign o other s) (fun s' _ => exc_rep s'
    (if decide (o = other) then m
     else <[o := default [] (m !! other)]> (<[other := literal empty_literal]> m))).
Proof.
  intros Hrep Ho Hot Hsz. unfold exc_move_assign. case_decide as Heq; [done|].
  destruct (rep_lookup _ _ _ Hrep Hot) as [d Hd]. destruct (rep_lookup _ _ _ Hrep Ho) as [old Hold].
  rewrite (rep_text _ _ _ _ Hrep Hd). destruct Hrep as [H ->].
  rewrite (bind_Ok _ _ _ _ _ (m_data_Ok _ _ _ Hd)).
  pose proof (refs_inv_swap s [] other empty_literal d (fresh_ex _ _ H empty_even) Hd) as H1.
  erewrite bind_Ok by reflexivity.
  eapply post_mono; [eapply (assign_tail o d old _ H1)|].
  - cbn. by rewrite lookup_insert_ne.
  - cbn. by rewrite map_size_insert_Some by eauto.
  - intros s' [] Hs'. cbn [objects set_objects] in Hs'. rewrite fmap_insert in Hs'.
    change (message_of (set_objects _ s)) with (message_of s) in Hs'.
    unfold message_of at 2 in Hs'. by rewrite (literal_even empty_literal) in Hs' by done.
Qed.

Lemma exc_destroy_post o s m :
  exc_rep s m -> is_Some (m !! o) -> Z.of_nat (size (objects s)) < 2 ^ 32 ->
  post (exc_destroy o s) (fun s' _ => exc_rep s' (delete o m)).
Proof.
  intros Hrep Ho Hsz. destruct (rep_lookup _ _ _ Hrep Ho) as [d Hd]. destruct Hrep as [H ->].
  unfold exc_destroy. rewrite (bind_Ok _ _ _ _ _ (m_data_Ok _ _ _ Hd)).
  destruct (release_rep _ d (refs_inv_delete s [] o d H Hd)) as (s' & Hr & Hrep).
  { cbn. pose proof (map_size_delete_Some o (objects s) (ex_intro _ _ Hd)). lia. }
  erewrite bind_Ok by reflexivity. rewrite Hr. cbn in *. by rewrite fmap_delete in Hrep.
Qed.

Lemma get_message_spec o s m :
  exc_rep s m -> is_Some (m !! o) -> get_message o s = Ok s (default [] (m !! o)).
Proof.
  intros Hrep Ho. destruct (rep_lookup _ _ _ Hrep Ho) as [d Hd].
  rewrite (rep_text _ _ _ _ Hrep Hd). destruct Hrep as [H ->].
  unfold get_message. rewrite (bind_Ok _ _ _ _ _ (m_data_Ok _ _ _ Hd)). unfold message_of.
  destruct (is_shared d) eqn:Es; [|done].
  destruct (ri_alive _ _ H d) as [sd Hsd]; [rewrite held_nil; by eapply holders_pos|done|].
  unfold get_shared, mbind, M_bind, get, access. by rewrite Hsd.
Qed.

#[export] Instance exception_impl (leftover : leftovers) : Implements (exc_step leftover) exc_spec.
Proof.
  refine {| represents := exc_rep; supported := exc_supported |}.
  intros op s m Hrep [Hsz Hop].
  assert (Hsz' : Z.of_nat (size (objects s)) < 2 ^ 32).
  { destruct Hrep as [_ ->]. by rewrite map_size_fmap in Hsz. }
  destruct op as [o msg|o p|o other|o other|o other|o other|o|o];
    cbn [exc_step exc_spec fst snd] in *.
  - eapply post_bind; [by apply construct_message_post|]. done.
  - destruct Hop as [Ho Hp]. pose proof (rep_new _ _ _ Hrep Ho) as Hno. destruct Hrep as [H ->].
    cbn. split; [|done].
    pose proof (put_data_new o p s (fresh_ex _ _ H Hp) Hno) as Hn.
    unfold message_of at 1 in Hn. by rewrite (literal_even p Hp) in Hn.
  - destruct Hop. eapply post_bind; [by apply copy_ctor_post|]. done.
  - destruct Hop. eapply post_bind; [by apply move_ctor_post|]. done.
  - destruct Hop. eapply post_bind; [by apply exc_copy_assign_post|]. done.
  - destruct Hop. eapply post_bind; [by apply exc_move_assign_post|]. done.
  - eapply post_bind; [by apply exc_destroy_post|]. done.
  - unfold mbind, M_bind. by rewrite (get_message_spec _ _ _ Hrep Hop).
Defined.
(** ** Wide messages *)

(** A message of [n] bytes in a slot, with the length of the source in bytes. *)
Lemma wide_block leftover to_multibyte conversion_failed o msg s own :
  pool_inv (pool s) own -> current_irql (pool s) < DISPATCH_LEVEL ->
  length (to_multibyte msg) = length msg -> m_current_slot (pool s) < SLOT_COUNT ->
  (length msg <= 495)%nat ->
  exists p s', p mod 16 = 0 /\ construct_wide leftover to_multibyte conversion_failed o msg s =
    let n := Z.of_nat (length msg) in
    if 2 * n <? 496 then
      put_data o (mask p) (set_shared (<[p := SharedData (take (Z.to_nat (2 * n))
        (to_multibyte msg ++ (leftover s' p <$> seqZ n (496 - n))) ++ [0]) 1]> (shared s')) s')
    else Fault.
Proof.
  intros Hp Hq Hn Hslot Hmax.
  unfold construct_wide, construct_from_unicode, make_shared_data_wide. cbv zeta.
  rewrite wrap_small by lia. rewrite (Z.mul_comm 2), Z.div_mul, Nat2Z.id, firstn_all by lia.
  unfold mbind at 1, M_bind at 1. unfold mbind at 1, M_bind at 1, get.
  rewrite (proj2 (Z.leb_gt _ _)) by done. unfold mbind at 1, M_bind at 1, on_pool, pool_allocate.
  rewrite (proj2 (Z.leb_le _ _)) by (unfold SLOT_SIZE, sizeof_shared_data; lia).
  unfold mbind at 1, M_bind at 1. pose proof (try_get_slot_post (pool s) own Hp) as Ht.
  destruct (try_get_slot (pool s)) as [s1 [p|]| | |] eqn:E; try done.
  2: { destruct Ht as [_ Ht]. change SLOT_COUNT with 8 in Hslot. lia. }
  destruct Ht as (_ & Ha & Hp0). rewrite (proj2 (Z.eqb_neq _ _)) by lia.
  pose proof (try_get_slot_size _ _ _ _ Hp E) as Hsize.
  exists p, (set_pool s1 s). split; [done|]. unfold mret, M_ret.
  rewrite make_header by (cbn [pool set_pool]; rewrite ?Hsize; unfold SLOT_SIZE, sizeof_shared_data; lia).
  cbv zeta. cbn [pool set_pool]. rewrite Hsize, Hn. change (SLOT_SIZE - sizeof_shared_data) with 496.
  by destruct (_ <? 496).
Qed.

Lemma take_wide (f : Z -> Z) (l : list Z) n :
  length l = n -> (n <= 247)%nat ->
  take (Z.to_nat (2 * Z.of_nat n)) (l ++ (f <$> seqZ (Z.of_nat n) (496 - Z.of_nat n))) =
  l ++ (f <$> seqZ (Z.of_nat n) (Z.of_nat n)).
Proof.
  intros Hl Hn. replace (496 - Z.of_nat n) with (Z.of_nat n + (496 - 2 * Z.of_nat n)) by lia.
  rewrite seqZ_app, fmap_app, app_assoc by lia. apply take_app_length'.
  rewrite length_app, length_fmap, length_seqZ. lia.
Qed.

Lemma get_message_put o p sd s s' :
  p mod 16 = 0 -> put_data o (mask p) (set_shared (<[p := sd]> (shared s)) s) = Ok s' tt ->
  get_message o s' = Ok s' (description sd).
Proof.
  intros Hp. unfold put_data, modify. intros [= <-]. unfold get_message, m_data.
  destruct (mask_even p) as (_ & Hu & Hsh); [zdiv|].
  unfold mbind, M_bind, get. cbn [objects set_objects set_shared]. rewrite lookup_insert_eq. cbn [access].
  unfold mret, M_ret. rewrite Hsh. unfold get_shared, mbind, M_bind, get. cbn [shared set_objects set_shared].
  by rewrite Hu, lookup_insert_eq.
Qed.
End exception_base.
