(* ===== verification/ExceptionTheorems.v ===== *)
(** * Properties of exception memory and exception objects *)
From stdpp Require Import base list gmap numbers.
From S2P Require Import Prelude Refinement ExceptionPool ExceptionBase.
#[local] Open Scope Z_scope.

(** ** Where a sequence can end early *)

(** Unfolds an operation down to its tests and follows every branch. *)
Ltac follow_branches H :=
  unfold construct_message, make_shared_data, write_message, construct_header, construct_literal, copy_ctor,
    move_ctor, exc_copy_assign, exc_move_assign, exc_destroy, get_message, acquire, release,
    get_shared, m_data, put_data, on_pool, pool_allocate, try_get_slot, allocate_from_heap,
    allocate_impl, pool_deallocate, free_to_heap, deallocate_memory, store_slot, access,
    mbind, M_bind, get, put, modify, mret, M_ret, throw, fault in H;
  repeat (case_match; simplify_eq; try done).

(** Only the construction of a message throws, and only [bad_alloc]. *)
Lemma exc_step_throws `{K : kernel} literal empty leftover op s s' e :
  exc_step literal empty leftover op s = Throw s' e ->
  e = bad_alloc /\ exists o msg, op = EMessage o msg.
Proof.
  intros H. destruct op; cbn [exc_step] in H; follow_branches H; simplify_eq; eauto.
Qed.

(** C25: The reserve, used by one thread at a time, never hands out a block that is in use
    (several threads at once can make it do so: [pool_threads_race]).  After a successful
    start, however requests and returns of blocks follow each other, each one succeeds or is refused
    with [bad_alloc]; the blocks in use are pairwise distinct, and the slots in use
    together with the slots on the free stack are always exactly the eight slots of
    the page. *)
Theorem pool_blocks_distinct `{K : kernel} s0 s ops :
  m_current_slot s0 = 0 -> length (m_slots s0) = 8%nat -> blocks s0 = ∅ ->
  pool_run s0 = Ok s true ->
  exists s' own, pool_requests ops [] s = Ok s' own /\ NoDup own /\
    drop (Z.to_nat (m_current_slot s')) (m_slots s') ++ filter (in_page (m_buffer s')) own
      ≡ₚ slot_addresses (m_buffer s').
Proof.
  intros Hc Hl Hb Hr. pose proof (pool_run_post s0 Hc Hl Hb) as Hi. rewrite Hr in Hi.
  destruct (pool_requests_inv ops s [] Hi) as (s' & own & Hs & Hinv).
  exists s', own. split; [done|]. split; apply Hinv.
Qed.

(** C15: Exceptions behave as if each had a message of its own.  Every sequence of
    constructions from narrow strings and from literals, copies, moves, assignments, destructions and calls of [what()] on
    exception objects gives the messages it would give if every object stored its own
    text: sharing is not observable, no message is read after it was returned to the
    reserve, none is returned twice, and the reserve stays consistent.  The only way
    for the sequence to end early is that memory for a new message is refused.  The limits:
    the literals, the empty one included, are at even addresses (at an odd address a literal is
    taken for shared data, [odd_literal_is_taken_for_shared]), there are fewer than 2^32
    objects, one thread uses them, and no message is constructed from a wide string, where the
    code puts the terminator in the wrong place ([wide_message_terminator]). *)
Theorem exceptions_refine_messages `{K : kernel} literal empty leftover ops s m :
  empty mod 2 = 0 -> exc_rep literal s m ->
  supported_run exc_supported (exc_spec literal empty) ops m ->
  post (run_ops (exc_step literal empty leftover) ops s) (fun s' rs =>
    refs_inv s' [] /\ rs = (run_spec (exc_spec literal empty) ops m).2 /\
    message_of literal s' <$> objects s' = (run_spec (exc_spec literal empty) ops m).1) /\
  (forall s' e, run_ops (exc_step literal empty leftover) ops s = Throw s' e ->
    e = bad_alloc /\ exists o msg, EMessage o msg ∈ ops).
Proof.
  intros He Hrep Hok. split.
  2: { intros s' e H. apply run_ops_throws in H as (op & t & t' & Hin & Ht).
       apply exc_step_throws in Ht as (-> & o & msg & ->). eauto. }
  eapply post_mono; [apply (run_ops_refines (H := exception_impl literal empty He leftover)); done|].
  intros s' rs [[Hi Hm] ->]. split; [done|]. split; [done|]. by rewrite Hm.
Qed.

(** A literal at an odd address is taken for shared data: reading its message follows an
    address that is not that of any message. *)
Theorem odd_literal_is_taken_for_shared literal o p s :
  p mod 2 = 1 -> shared s !! (p - 1) = None ->
  exists s', construct_literal o p s = Ok s' tt /\ get_message literal o s' = Fault.
Proof.
  intros Hp Hs. eexists. split; [done|]. unfold get_message, m_data, put_data, modify.
  unfold mbind, M_bind, get. cbn [objects set_objects]. rewrite lookup_insert_eq. cbn [access].
  destruct (mask_even literal (p - 1)) as (Hm & Hu & Hsh); [zdiv|]. rewrite Z.sub_add in Hm. rewrite Hm in *.
  unfold mret, M_ret. rewrite Hsh. unfold get_shared, mbind, M_bind, get. cbn [shared set_objects].
  by rewrite Hu, Hs.
Qed.

(** C26: Constructing an exception from a wide string of [n] characters that the code page
    writes in as many bytes, with a free slot in the reserve.  At or above [DISPATCH_LEVEL] the
    message is the literal for a failed conversion.  Below it, the header is given the length
    of the source in bytes, 2n, instead of n: up to 247 characters the message is the text
    followed by n bytes that the block happened to hold before the terminator; from 248 to 495
    characters the block has room for the text but the terminator is written outside of it. *)
Theorem wide_message_terminator `{K : kernel} literal leftover to_multibyte failed o msg s m :
  exc_rep literal s m -> m !! o = None ->
  let n := length msg in
  (DISPATCH_LEVEL <= current_irql (pool s) ->
    construct_wide leftover to_multibyte failed o msg s = put_data o failed s) /\
  (current_irql (pool s) < DISPATCH_LEVEL -> length (to_multibyte msg) = n ->
   m_current_slot (pool s) < SLOT_COUNT -> (n <= 495)%nat ->
    if (n <=? 247)%nat then exists s' rest,
      construct_wide leftover to_multibyte failed o msg s = Ok s' tt /\ length rest = n /\
      get_message literal o s' = Ok s' (to_multibyte msg ++ rest ++ [0])
    else construct_wide leftover to_multibyte failed o msg s = Fault).
Proof.
  intros [Hi _] _ n. split.
  { intros Hq. unfold construct_wide, construct_from_unicode, mbind, M_bind, get.
    by rewrite (proj2 (Z.leb_le _ _)) by done. }
  intros Hq Hn Hslot Hmax. destruct (ri_pool _ _ Hi) as (own & Hp & _).
  destruct (wide_block leftover to_multibyte failed o msg s own Hp Hq Hn Hslot Hmax) as (p & s' & Hpm & ->).
  destruct (Nat.leb_spec n 247).
  - cbv zeta. rewrite (proj2 (Z.ltb_lt _ _)) by (subst n; lia). eexists _, _. split; [reflexivity|].
    split; [|erewrite (get_message_put literal 0 o p) by done; cbn [description]; subst n;
      by rewrite (take_wide _ _ _ Hn), <- app_assoc by done].
    by rewrite length_fmap, length_seqZ, Nat2Z.id.
  - cbv zeta. by rewrite (proj2 (Z.ltb_ge _ _)) by (subst n; lia).
Qed.

(** ** Witnesses *)

(** A kernel that puts each block behind all others. *)
Definition top_of (l : list (Z * Z)) : Z := foldr (fun x t => Z.max (x.1 + x.2) t) 0 l.

Lemma top_of_le l a m : (a, m) ∈ l -> a + m <= top_of l.
Proof.
  induction l as [|[b n] l IH]; intros H; [by apply elem_of_nil in H|].
  apply elem_of_cons in H as [[= <- <-]|H]; cbn; [lia|]. specialize (IH H). unfold top_of in IH. lia.
Qed.

Definition bump (live : gmap Z Z) (n : Z) : option Z :=
  Some (16 * (Z.max 0 (top_of (map_to_list live)) / 16 + 256)).

#[local] Program Instance bump_kernel : kernel := {| kernel_alloc := bump |}.
Next Obligation.
  intros live n a b m [= <-] Hn Hb Hm. right.
  apply elem_of_map_to_list, top_of_le in Hb. zdiv.
Qed.
Next Obligation. intros live n a [= <-]. split; zdiv. Qed.

Definition pool_start : exception_allocator := ExceptionAllocator (replicate 8 0) 0 0 ∅ 0.

Definition pool_ready : exception_allocator :=
  match pool_run pool_start with Ok s _ => s | _ => pool_start end.

Definition demo_requests : list pool_op :=
  replicate 9 (PAllocate 100) ++ [PDeallocate 4; PAllocate 600; PAllocate 50; PDeallocate 0].

Lemma pool_blocks_distinct_witness :
  exists s' own, pool_requests demo_requests [] pool_ready = Ok s' own /\ NoDup own /\
    length own = 9%nat.
Proof.
  destruct (pool_blocks_distinct pool_start pool_ready demo_requests) as (s' & own & H & Hnd & _).
  - reflexivity.
  - reflexivity.
  - reflexivity.
  - vm_compute. reflexivity.
  - exists s', own. split; [exact H|]. split; [exact Hnd|].
    apply (f_equal (fun o => match o with Ok _ l => length l | _ => 0%nat end)) in H.
    vm_compute in H. symmetry. exact H.
Defined.

Definition demo_world : exc_world := ExcWorld pool_ready ∅ ∅.

Definition demo_exc_ops : list exc_op :=
  [EMessage 1 [72; 105]; ECopy 2 1; ELiteral 3 64; EAssign 3 1; EDestroy 1; EWhat 3;
   EMove 4 2; EWhat 2; EMoveAssign 3 4; EWhat 3; EDestroy 3; EDestroy 4].

Definition demo_literal (p : Z) : list Z := if p =? 64 then [79; 75; 0] else [0].

Lemma demo_world_rep : exc_rep demo_literal demo_world ∅.
Proof.
  split; [|reflexivity]. split.
  - exists []. split; [|intros a; cbn [shared demo_world]; rewrite lookup_empty;
      split; [by intros ?%elem_of_nil|by intros [? ?]]].
    pose proof (pool_run_post pool_start eq_refl eq_refl eq_refl) as Hp.
    unfold demo_world, pool_ready; cbn [pool].
    destruct (pool_run pool_start) as [s [|]| | |] eqn:E; try (vm_compute in E; discriminate E).
    exact Hp.
  - intros a sd Ha. cbn [shared demo_world] in Ha. by rewrite lookup_empty in Ha.
  - intros d Hd. vm_compute in Hd. lia.
Qed.

Lemma exceptions_refine_messages_witness :
  post (run_ops (exc_step demo_literal 32 (fun _ _ _ => 170)) demo_exc_ops demo_world) (fun s' rs =>
    refs_inv s' [] /\
    rs = [None; None; None; None; None; Some [72; 105; 0]; None; Some [0]; None;
          Some [72; 105; 0]; None; None]) /\
  match run_ops (exc_step demo_literal 32 (fun _ _ _ => 170)) demo_exc_ops demo_world with
  | Ok s' _ => size (shared s') = 0%nat | _ => False end.
Proof.
  split; [|vm_compute; reflexivity].
  eapply post_mono; [apply (exceptions_refine_messages demo_literal 32 (fun _ _ _ => 170) demo_exc_ops demo_world ∅)|].
  - reflexivity.
  - exact demo_world_rep.
  - apply (bool_decide_unpack _). vm_compute. exact I.
  - intros s' rs (Hi & Hr & _). split; [exact Hi|]. rewrite Hr. vm_compute. reflexivity.
Defined.

Lemma wide_message_terminator_witness :
  (exists s' rest, construct_wide (fun _ _ _ => 170) id 66 7 [72; 105] demo_world = Ok s' tt /\
     length rest = 2%nat /\ get_message demo_literal 7 s' = Ok s' ([72; 105] ++ rest ++ [0])) /\
  construct_wide (fun _ _ _ => 170) id 66 7 (replicate 300 65) demo_world = Fault.
Proof.
  split.
  - destruct (wide_message_terminator demo_literal (fun _ _ _ => 170) id 66 7 [72; 105] demo_world ∅
      demo_world_rep eq_refl) as [_ H]. apply H; [done|done|done|cbn; lia].
  - destruct (wide_message_terminator demo_literal (fun _ _ _ => 170) id 66 7 (replicate 300 65) demo_world ∅
      demo_world_rep eq_refl) as [_ H]. apply H; [done|done|done|cbn; lia].
Defined.

Lemma odd_literal_is_taken_for_shared_witness :
  exists s', construct_literal 1 65 demo_world = Ok s' tt /\ get_message demo_literal 1 s' = Fault.
Proof. by apply odd_literal_is_taken_for_shared. Defined.

(** ** Threads that use the reserve at the same time *)

Definition two_threads : exception_allocator * list thread :=
  (pool_ready, [Thread idle []; Thread idle []]).

Definition slot_at (i : Z) : Z := m_buffer pool_ready + SLOT_SIZE * i.

(** Thread 0 takes two slots and starts to return the first; before it has put the
    slot back, thread 1 allocates. *)
Definition stale_slot : list action :=
  [begin_allocate 0; finish 0; begin_allocate 0; finish 0;
   begin_deallocate 0 (slot_at 0); begin_allocate 1; finish 1; finish 0].

(** Thread 0 takes all eight slots; thread 1 asks for a ninth, and before it has
    undone its increment, thread 0 returns a slot. *)
Definition overdraw : list action :=
  concat (replicate 8 [begin_allocate 0; finish 0]) ++
  [begin_allocate 1; begin_deallocate 0 (slot_at 3); finish 0].

(** The reserve is not safe to use from several threads.  The counter is changed
    atomically but the slot is read or written afterwards: there is an interleaving of
    one thread returning a slot and another allocating after which both own the same
    slot, and one after which a slot's address is stored past the end of [m_slots]. *)
Theorem pool_threads_race :
  match run_schedule stale_slot two_threads with
  | Ok (_, ts) _ => ts = [Thread idle [slot_at 1]; Thread idle [slot_at 1]]
  | _ => False
  end /\ run_schedule overdraw two_threads = Fault.
Proof. vm_compute. done. Qed.
