(* ===== verification/Algorithms.v ===== *)
(** * Sequence algorithms (algorithm_impl.hpp, algorithm.hpp)

    The algorithms that only read: a range is a list, an iterator its index.  A read
    behind the end of the list is undefined behaviour. *)
From stdpp Require Import base list numbers.
From S2P Require Import Prelude.

Section algorithms.
Context {A : Type}.

(** A read-only computation: the state plays no part. *)
Abbreviation R := (M unit).

(** ** [binary_search] *)

Fixpoint binary_search_loop (fuel : nat) (l : list A) (pred : A -> bool) (first count : nat)
    : R nat :=
  match fuel with
  | O => diverge
  | S fuel =>
      if (0 <? count)%nat then
        let count_half := (count / 2)%nat in
        x ← access (l !! (first + count_half)%nat);
        if pred x then
          binary_search_loop fuel l pred (first + count_half + 1)%nat
            (count - (count_half + 1))%nat
        else binary_search_loop fuel l pred first count_half
      else mret first
  end.

(** [pred x] is the comparison [pred(x, value)]; [eq x] is [x == value]. *)
Definition binary_search (l : list A) (pred eq : A -> bool) : R bool :=
  first ← binary_search_loop (S (length l)) l pred 0 (length l);
  if (first =? length l)%nat then mret false
  else x ← access (l !! first); mret (eq x).

(** ** [equal], [find], [find_if] *)

Fixpoint equal (pred : A -> A -> bool) (l r : list A) : R bool :=
  match l, r with
  | [], _ => mret true
  | x :: l, y :: r => if pred x y then equal pred l r else mret false
  | _ :: _, [] => fault
  end.

(** The overload on two ranges of random access iterators. *)
Definition equal_ranges (pred : A -> A -> bool) (l r : list A) : R bool :=
  if negb (length l =? length r)%nat then mret false else equal pred l r.

Fixpoint find_if (pred : A -> bool) (l : list A) : nat :=
  match l with
  | [] => 0%nat
  | x :: l => if pred x then 0%nat else S (find_if pred l)
  end.

Definition find_if_not (pred : A -> bool) (l : list A) : nat := find_if (negb ∘ pred) l.

(** ** [find_subrange] *)

Fixpoint count_matches_at_begin (comp : A -> A -> bool) (l : list A) (i : nat) (sub : list A)
    (matches : nat) : R (nat * nat) :=
  match sub with
  | [] => mret (i, matches)
  | y :: sub =>
      x ← access (l !! i);
      if comp x y then count_matches_at_begin comp l (S i) sub (S matches)
      else mret (i, matches)
  end.

Fixpoint find_subrange_loop (fuel : nat) (comp : A -> A -> bool) (l sub : list A)
    (first range_length : nat) : R nat :=
  match fuel with
  | O => diverge
  | S fuel =>
      if (length sub <=? range_length)%nat then
        '(last, matches) ← count_matches_at_begin comp l first sub 0;
        if (matches =? length sub)%nat then mret first
        else find_subrange_loop fuel comp l sub (S last) (range_length - (matches + 1))
      else mret (length l)
  end.

(** The range is [l] from index [first] on. *)
Definition find_subrange (comp : A -> A -> bool) (l : list A) (first : nat) (sub : list A) : R nat :=
  find_subrange_loop (S (length l)) comp l sub first (length l - first).

(** ** Correctness *)

(** The part of the list before [first] satisfies [pred], the part from
    [first + count] on does not. *)
Lemma binary_search_loop_spec l pred fuel first count :
  (forall i j x y, (i <= j)%nat -> l !! i = Some x -> l !! j = Some y ->
     pred y = true -> pred x = true) ->
  (count < fuel)%nat -> (first + count <= length l)%nat ->
  (forall i x, (i < first)%nat -> l !! i = Some x -> pred x = true) ->
  (forall i x, (first + count <= i)%nat -> l !! i = Some x -> pred x = false) ->
  exists k, binary_search_loop fuel l pred first count tt = Ok tt k /\ (k <= length l)%nat /\
    (forall i x, (i < k)%nat -> l !! i = Some x -> pred x = true) /\
    (forall i x, (k <= i)%nat -> l !! i = Some x -> pred x = false).
Proof.
  intros Hmono. revert first count.
  induction fuel as [|fuel IH]; intros first count Hf Hl Hlo Hhi; [lia|].
  cbn [binary_search_loop]. destruct (Nat.ltb_spec 0 count) as [Hc|Hc].
  2: { exists first. split; [done|]. split; [lia|]. split; [done|].
       intros i x Hi. apply Hhi. lia. }
  assert (Hh : (count / 2 < count)%nat) by (apply Nat.div_lt; lia).
  destruct (lookup_lt_is_Some_2 l (first + count / 2)%nat) as [x Hx]; [lia|].
  cbv zeta. erewrite bind_Ok by (rewrite Hx; reflexivity).
  destruct (pred x) eqn:Ep.
  - apply IH; [lia|lia| |].
    + intros i y Hi Hy. apply (Hmono i (first + count / 2)%nat y x); [lia|done|done|done].
    + intros i y Hi Hy. apply (Hhi i y); [lia|done].
  - apply IH; [lia|lia|done|].
    intros i y Hi Hy. destruct (pred y) eqn:Ey; [|done].
    rewrite (Hmono (first + count / 2)%nat i x y) in Ep; [done|lia|done|done|done].
Qed.

Lemma count_matches_spec comp l i sub n k m :
  (forall x y, comp x y = true <-> x = y) ->
  count_matches_at_begin comp l i sub n tt = Ok tt (k, m) ->
  (k - i = m - n)%nat /\ (i <= k)%nat /\ (n <= m)%nat /\ (m - n <= length sub)%nat /\
  forall j, (j < m - n)%nat -> l !! (i + j)%nat = sub !! j.
Proof.
  intros Hc. revert i n; induction sub as [|y sub IH]; intros i n H; cbn in H.
  - injection H as <- <-. split_and!; try lia; intros j Hj; lia.
  - destruct (l !! i) as [x|] eqn:Hx; [|done]. unfold mbind, M_bind in H. cbn in H.
    destruct (comp x y) eqn:Ec.
    + apply IH in H as (H1 & H2 & H3 & H4 & H5). cbn [length]. split_and!; try lia.
      intros [|j] Hj.
      * apply Hc in Ec as ->. by rewrite Nat.add_0_r.
      * replace (i + S j)%nat with (S i + j)%nat by lia. cbn. apply H5. lia.
    + injection H as <- <-. split_and!; try lia; intros j Hj; lia.
Qed.

Lemma count_matches_total comp l i sub n :
  (i + length sub <= length l)%nat ->
  exists k m, count_matches_at_begin comp l i sub n tt = Ok tt (k, m) /\ (k - i = m - n)%nat /\
    (i <= k)%nat /\ (n <= m)%nat /\ (m - n <= length sub)%nat.
Proof.
  revert i n; induction sub as [|y sub IH]; intros i n Hl; cbn.
  - exists i, n. split; [done|]. lia.
  - cbn in Hl. destruct (lookup_lt_is_Some_2 l i) as [x Hx]; [lia|]. rewrite Hx.
    unfold mbind, M_bind; cbn. destruct (comp x y).
    + destruct (IH (S i) (S n)) as (k & m & -> & ? & ? & ? & ?); [lia|].
      exists k, m. split; [done|]. lia.
    + exists i, n. split; [done|]. lia.
Qed.

(** A found position is a match, the search stays inside the range and ends. *)
Lemma find_subrange_loop_spec comp l sub fuel first :
  (forall x y, comp x y = true <-> x = y) -> (first <= length l)%nat ->
  (length l - first < fuel)%nat ->
  exists k, find_subrange_loop fuel comp l sub first (length l - first) tt = Ok tt k /\
    (k <= length l)%nat /\
    ((k < length l)%nat -> (first <= k)%nat /\ take (length sub) (drop k l) = sub).
Proof.
  intros Hc. revert first; induction fuel as [|fuel IH]; intros first Hf Hfu; [lia|].
  cbn [find_subrange_loop].
  destruct (Nat.leb_spec (length sub) (length l - first)) as [Hle|Hgt].
  2: { exists (length l). split; [done|]. lia. }
  destruct (count_matches_total comp l first sub 0) as (k & m & Hk & H1 & H2 & H3 & H4); [lia|].
  rewrite (bind_Ok _ _ _ _ _ Hk). cbv beta iota.
  destruct (Nat.eqb_spec m (length sub)) as [->|Hne].
  - exists first. split; [done|]. split; [lia|]. intros Hlt. split; [lia|].
    destruct (count_matches_spec _ _ _ _ _ _ _ Hc Hk) as (_ & _ & _ & _ & Hm).
    apply list_eq. intros j. destruct (decide (j < length sub)%nat) as [Hj|Hj].
    + rewrite lookup_take_lt, lookup_drop by done. apply Hm. lia.
    + rewrite lookup_take_ge by lia. symmetry. apply lookup_ge_None. lia.
  - replace (length l - first - (m + 1))%nat with (length l - S k)%nat by lia.
    destruct (IH (S k)) as (r & Hr & Hr1 & Hr2); [lia|lia|].
    exists r. split; [done|]. split; [lia|]. intros Hlt. destruct (Hr2 Hlt). split; [lia|done].
Qed.
End algorithms.
