(* ===== verification/StringView.v ===== *)
(** * String views over the kernel's counted strings

    [basic_winnt_string_view] (string_view.hpp) on ANSI_STRING and UNICODE_STRING:
    a pointer to characters and two 16-bit byte counts (string_fwd.hpp), with the
    character traits (char_traits_impl.hpp) and search routines
    (string_algorithm_impl.hpp).  [Buffer] is modelled as the characters that can be
    read from the pointer on; a character is its value in the character type (signed
    for [char]), so that [<] on characters is [<] on [Z]. *)
From stdpp Require Import base list numbers.
From S2P Require Import Prelude Algorithms.
#[local] Open Scope Z_scope.

Record native_string := NativeString { Buffer : list Z; Length : Z; MaximumLength : Z }.

(** ** Character traits *)

Fixpoint traits_compare (count : nat) (str1 str2 : list Z) : M unit Z :=
  match count with
  | O => mret 0
  | S count =>
      x ← access (head str1); y ← access (head str2);
      if negb (x =? y) then mret (if x <? y then -1 else 1)
      else traits_compare count (tail str1) (tail str2)
  end.

(** The index of the character, or [None] for [nullptr]. *)
Fixpoint traits_find (count : nat) (str : list Z) (ch : Z) : M unit (option nat) :=
  match count with
  | O => mret None
  | S count =>
      x ← access (head str);
      if x =? ch then mret (Some 0%nat)
      else r ← traits_find count (tail str) ch; mret (S <$> r)
  end.

Fixpoint traits_length (str : list Z) : M unit nat :=
  match str with
  | [] => fault
  | x :: str => if x =? 0 then mret 0%nat else n ← traits_length str; mret (S n)
  end.

(** ** Searching *)

Definition npos : Z := 65535.

Definition find_ch (str : list Z) (ch length start_pos : Z) : M unit Z :=
  if length <=? start_pos then mret npos else
  r ← traits_find (Z.to_nat (length - start_pos)) (drop (Z.to_nat start_pos) str) ch;
  mret (match r with Some i => start_pos + Z.of_nat i | None => npos end).

Fixpoint rfind_loop (str : list Z) (ch : Z) (idx : nat) : M unit Z :=
  match idx with
  | O => mret npos
  | S pos =>
      x ← access (str !! pos);
      if x =? ch then mret (Z.of_nat pos) else rfind_loop str ch pos
  end.

Definition rfind_ch (str : list Z) (ch length start_pos : Z) : M unit Z :=
  if length <=? start_pos then mret npos else rfind_loop str ch (Z.to_nat length).

(** A start behind the end makes an inverted range, which is undefined. *)
Definition find_substr (str : list Z) (str_start_pos str_length : Z) (substr : list Z)
    (substr_length : Z) : M unit Z :=
  if str_length <? substr_length then mret npos else
  if str_length <? str_start_pos then fault else
  k ← find_subrange Z.eqb (take (Z.to_nat str_length) str) (Z.to_nat str_start_pos)
        (take (Z.to_nat substr_length) substr);
  mret (if (k =? Z.to_nat str_length)%nat then npos else Z.of_nat k).

(** ** The view; [sizeof_char] is the size of a character *)

Section view.
Context (sizeof_char : Z).

Definition bytes_count_to_ch (n : Z) : Z := n / sizeof_char.
Definition ch_count_to_bytes (n : Z) : Z := u16 (n * sizeof_char).

Definition get_size (s : native_string) : Z := bytes_count_to_ch (Length s).
Definition set_size (n : Z) (s : native_string) : native_string :=
  NativeString (Buffer s) (ch_count_to_bytes n) (MaximumLength s).
Definition decrease_size (n : Z) (s : native_string) : native_string :=
  NativeString (Buffer s) (u16 (Length s - ch_count_to_bytes n)) (MaximumLength s).
Definition set_buffer_ptr (b : list Z) (s : native_string) : native_string :=
  NativeString b (Length s) (MaximumLength s).

(** The counts are 16 bits wide: a longer string is cut. *)
Definition make_native_str (str : list Z) (length : Z) : native_string :=
  NativeString str (ch_count_to_bytes length) (ch_count_to_bytes length).

Definition view_of_literal (str : list Z) : M unit native_string :=
  n ← traits_length str; mret (make_native_str str (u16 (Z.of_nat n))).

Definition view_at (idx : Z) (s : native_string) : M unit Z :=
  if negb (idx <? get_size s) then throw out_of_range
  else access (Buffer s !! Z.to_nat idx).

Definition view_front (s : native_string) : M unit Z := access (Buffer s !! 0%nat).
Definition view_back (s : native_string) : M unit Z :=
  if get_size s =? 0 then fault else access (Buffer s !! Z.to_nat (get_size s - 1)).

Definition view_empty (s : native_string) : bool := get_size s =? 0.

Definition remove_prefix (count : Z) (s : native_string) : native_string :=
  decrease_size count (set_buffer_ptr (drop (Z.to_nat count) (Buffer s)) s).

Definition remove_suffix (count : Z) (s : native_string) : native_string := decrease_size count s.

Definition substr_unchecked (pos count : Z) (s : native_string) : native_string :=
  let rest := u16 (get_size s - pos) in
  make_native_str (drop (Z.to_nat pos) (Buffer s)) (Z.min rest count).

(** The check throws, but the function is [noexcept]: the program is terminated. *)
Definition view_substr (pos count : Z) (s : native_string) : M unit native_string :=
  if get_size s <? pos then throw (terminated NoexceptViolation) else mret (substr_unchecked pos count s).

Definition compare_unchecked (lhs : list Z) (lhs_count : Z) (rhs : list Z) (rhs_count : Z)
    : M unit Z :=
  cmp_result ← traits_compare (Z.to_nat (Z.min lhs_count rhs_count)) lhs rhs;
  mret (if (cmp_result =? 0) && negb (lhs_count =? rhs_count)
        then (if lhs_count <? rhs_count then -1 else 1) else cmp_result).

Definition view_compare (s other : native_string) : M unit Z :=
  compare_unchecked (Buffer s) (get_size s) (Buffer other) (get_size other).

Definition view_eq (s other : native_string) : M unit bool :=
  c ← view_compare s other; mret (c =? 0).

Definition view_lt (s other : native_string) : M unit bool :=
  c ← view_compare s other; mret (c <? 0).

Definition starts_with (s other : native_string) : M unit bool :=
  if get_size s <? get_size other then mret false else
  c ← compare_unchecked (Buffer s) (get_size other) (Buffer other) (get_size other);
  mret (c =? 0).

(** The [int] result of [compare] is converted to [bool]. *)
Definition ends_with (s other : native_string) : M unit bool :=
  if get_size s <? get_size other then mret false else
  c ← view_compare (substr_unchecked (get_size s - get_size other) (get_size other) s) other;
  mret (negb (c =? 0)).

Definition view_find (s other : native_string) (my_pos : Z) : M unit Z :=
  find_substr (Buffer s) my_pos (get_size s) (Buffer other) (get_size other).

Definition view_find_ch (s : native_string) (ch my_pos : Z) : M unit Z :=
  find_ch (Buffer s) ch (get_size s) my_pos.

Definition view_contains (s other : native_string) : M unit bool :=
  p ← view_find s other 0; mret (negb (p =? npos)).

(** The returned count and the characters [copy] writes to its destination. *)
Definition view_copy (count pos : Z) (s : native_string) : M unit (Z * list Z) :=
  if get_size s <? pos then throw out_of_range else
  let copied := Z.min (u16 (get_size s - pos)) count in
  if Z.of_nat (length (Buffer s)) <? pos + copied then fault else
  mret (copied, take (Z.to_nat copied) (drop (Z.to_nat pos) (Buffer s))).

(** ** What a view shows *)

(** The characters of the view are all readable. *)
Record view_ok (s : native_string) : Prop := {
  vo_length : 0 <= Length s < 2 ^ 16;
  vo_whole : Length s mod sizeof_char = 0;
  vo_buffer : get_size s <= Z.of_nat (length (Buffer s)) }.

Definition chars (s : native_string) : list Z := take (Z.to_nat (get_size s)) (Buffer s).

Context (char_size : sizeof_char = 1 \/ sizeof_char = 2).

Lemma get_size_range s : view_ok s -> 0 <= get_size s /\ get_size s * sizeof_char = Length s.
Proof.
  intros [Hl Hw _]. unfold get_size, bytes_count_to_ch. destruct char_size as [->| ->]; zdiv.
Qed.

Lemma length_chars s : view_ok s -> Z.of_nat (length (chars s)) = get_size s.
Proof.
  intros H. pose proof (get_size_range s H). pose proof (vo_buffer s H).
  unfold chars. rewrite length_take. lia.
Qed.

(** Lexicographic order of two strings, as -1, 0 or 1. *)
Fixpoint lex_compare (l r : list Z) : Z :=
  match l, r with
  | [], [] => 0
  | [], _ :: _ => -1
  | _ :: _, [] => 1
  | x :: l, y :: r => if x =? y then lex_compare l r else if x <? y then -1 else 1
  end.

Lemma lex_compare_eq l r : lex_compare l r = 0 <-> l = r.
Proof.
  revert r; induction l as [|x l IH]; intros [|y r]; cbn; try (split; congruence).
  destruct (Z.eqb_spec x y) as [->|Hne]; [rewrite IH; split; congruence|].
  destruct (x <? y); split; congruence.
Qed.

Lemma traits_compare_spec n l r :
  (n <= length l)%nat -> (n <= length r)%nat ->
  traits_compare n l r tt = Ok tt (lex_compare (take n l) (take n r)).
Proof.
  revert l r; induction n as [|n IH]; intros [|x l] [|y r] Hl Hr; cbn in *; try lia; try done.
  unfold mbind, M_bind; cbn. destruct (Z.eqb_spec x y) as [->|Hne]; cbn; [|done].
  apply IH; lia.
Qed.

Lemma lex_compare_app l r n :
  n = (length l `min` length r)%nat ->
  lex_compare l r = let c := lex_compare (take n l) (take n r) in
    if (c =? 0) && negb (length l =? length r)%nat
    then (if (length l <? length r)%nat then -1 else 1) else c.
Proof.
  intros ->. revert r; induction l as [|x l IH]; intros [|y r]; cbn; try done.
  destruct (Z.eqb_spec x y) as [->|Hne]; [exact (IH r)|].
  destruct (x <? y); done.
Qed.

Lemma compare_unchecked_spec l m r n :
  0 <= m <= Z.of_nat (length l) -> 0 <= n <= Z.of_nat (length r) ->
  compare_unchecked l m r n tt =
    Ok tt (lex_compare (take (Z.to_nat m) l) (take (Z.to_nat n) r)).
Proof.
  intros Hm Hn. unfold compare_unchecked.
  erewrite bind_Ok by (apply traits_compare_spec; lia).
  rewrite (lex_compare_app (take (Z.to_nat m) l) (take (Z.to_nat n) r) _ eq_refl).
  rewrite !take_take, !length_take. cbv zeta.
  replace (Z.to_nat (Z.min m n)) with (Z.to_nat m `min` Z.to_nat n)%nat by lia.
  replace ((Z.to_nat m `min` length l) `min` (Z.to_nat n `min` length r) `min` Z.to_nat m)%nat
    with (Z.to_nat m `min` Z.to_nat n)%nat by lia.
  replace ((Z.to_nat m `min` length l) `min` (Z.to_nat n `min` length r) `min` Z.to_nat n)%nat
    with (Z.to_nat m `min` Z.to_nat n)%nat by lia.
  replace (Z.to_nat m `min` length l)%nat with (Z.to_nat m) by lia.
  replace (Z.to_nat n `min` length r)%nat with (Z.to_nat n) by lia.
  assert ((m =? n) = (Z.to_nat m =? Z.to_nat n)%nat) as ->.
  { destruct (Z.eqb_spec m n), (Nat.eqb_spec (Z.to_nat m) (Z.to_nat n)); lia || done. }
  assert ((m <? n) = (Z.to_nat m <? Z.to_nat n)%nat) as ->; [|done].
  destruct (Z.ltb_spec m n), (Nat.ltb_spec (Z.to_nat m) (Z.to_nat n)); lia || done.
Qed.

Lemma view_compare_spec s other :
  view_ok s -> view_ok other ->
  view_compare s other tt = Ok tt (lex_compare (chars s) (chars other)).
Proof.
  intros Hs Ho. pose proof (get_size_range s Hs). pose proof (get_size_range other Ho).
  apply compare_unchecked_spec; split; try apply vo_buffer; (done || lia).
Qed.

Lemma substr_suffix s n :
  view_ok s -> 0 <= n <= get_size s ->
  view_ok (substr_unchecked (get_size s - n) n s) /\
  chars (substr_unchecked (get_size s - n) n s) =
    drop (Z.to_nat (get_size s - n)) (chars s).
Proof.
  intros Hs Hn. pose proof (get_size_range s Hs) as [Hg Hb]. pose proof (vo_length s Hs).
  assert (Hsz : get_size s < 2 ^ 16) by (destruct char_size as [E|E]; rewrite E in Hb; lia).
  assert (Hnb : 0 <= n * sizeof_char < 2 ^ 16) by (destruct char_size as [->| ->] in *; lia).
  unfold substr_unchecked. replace (get_size s - (get_size s - n)) with n by lia.
  rewrite (wrap_small 16 n) by lia. rewrite Z.min_id.
  assert (Hgs : get_size (make_native_str (drop (Z.to_nat (get_size s - n)) (Buffer s)) n) = n).
  { unfold get_size, make_native_str, bytes_count_to_ch, ch_count_to_bytes; cbn [Length].
    rewrite wrap_small by done. apply Z.div_mul. destruct char_size; lia. }
  split.
  - split; [|  |rewrite Hgs; unfold make_native_str; cbn [Buffer]; rewrite length_drop;
                pose proof (vo_buffer s Hs); lia].
    + unfold make_native_str, ch_count_to_bytes; cbn [Length]. by rewrite wrap_small.
    + unfold make_native_str, ch_count_to_bytes; cbn [Length]. rewrite wrap_small by done.
      apply Z.mod_mul. destruct char_size; lia.
  - unfold chars. rewrite Hgs. unfold make_native_str; cbn [Buffer].
    rewrite skipn_firstn_comm. f_equal. lia.
Qed.
End view.
