(* ===== verification/StringTheorems.v ===== *)
(** * Properties of the algorithms and the string views *)
From stdpp Require Import base list numbers.
From S2P Require Import Prelude Algorithms StringView.
#[local] Open Scope Z_scope.

(** [binary_search] decides membership.  On a range partitioned by the comparison
    (a sorted range), with an equality that holds exactly for elements that are
    neither before nor behind the value, [binary_search] returns whether the range
    holds the value, reads only inside the range and terminates. *)
Theorem binary_search_correct {A} (l : list A) (pred eq : A -> bool) :
  (forall i j x y, (i <= j)%nat -> l !! i = Some x -> l !! j = Some y ->
     pred y = true -> pred x = true) ->
  (forall x, eq x = true -> pred x = false) ->
  (forall i j x y, (i <= j)%nat -> l !! i = Some x -> l !! j = Some y ->
     pred x = false -> eq y = true -> eq x = true) ->
  exists b, binary_search l pred eq tt = Ok tt b /\
    (b = true <-> exists x, x ∈ l /\ eq x = true).
Proof.
  intros Hmono Heq Hfirst. unfold binary_search.
  destruct (binary_search_loop_spec l pred (S (length l)) 0 (length l) Hmono)
    as (k & Hk & Hle & Hlo & Hhi); [lia|lia|intros; lia| |].
  { intros i x Hi Hx. apply lookup_lt_Some in Hx. lia. }
  rewrite (bind_Ok _ _ _ _ _ Hk).
  assert (Hpos : forall x, x ∈ l -> eq x = true -> exists i, l !! i = Some x /\ (k <= i)%nat).
  { intros x Hin Hx. apply list_elem_of_lookup in Hin as [i Hi]. exists i. split; [done|].
    destruct (decide (k <= i)%nat); [done|]. exfalso.
    pose proof (Hlo i x ltac:(lia) Hi) as Hp. rewrite (Heq x Hx) in Hp. done. }
  destruct (Nat.eqb_spec k (length l)) as [->|Hne].
  - exists false. split; [done|]. split; [done|]. intros (x & Hin & Hx).
    destruct (Hpos x Hin Hx) as (i & Hi & Hge). apply lookup_lt_Some in Hi. lia.
  - destruct (lookup_lt_is_Some_2 l k) as [y Hy]; [lia|].
    exists (eq y). split; [cbv iota; unfold mbind, M_bind; rewrite Hy; reflexivity|]. split.
    + intros Hey. exists y. split; [by eapply list_elem_of_lookup_2|done].
    + intros (x & Hin & Hx). destruct (Hpos x Hin Hx) as (i & Hi & Hge).
      apply (Hfirst k i y x Hge Hy Hi); [apply (Hhi k y); [lia|done]|done].
Qed.


(** [ends_with] answers the opposite.  It returns the result of [compare] as a
    truth value: for a string that is not longer than the view, it is true exactly
    when the view does not end with that string. *)
Theorem ends_with_inverted w s other :
  w = 1 \/ w = 2 -> view_ok w s -> view_ok w other -> get_size w other <= get_size w s ->
  ends_with w s other tt =
    Ok tt (negb (bool_decide
      (drop (length (chars w s) - length (chars w other)) (chars w s) = chars w other))).
Proof.
  intros Hw Hs Ho Hle. unfold ends_with. rewrite (proj2 (Z.ltb_ge _ _)) by lia.
  pose proof (get_size_range w Hw other Ho) as [Hg _].
  destruct (substr_suffix w Hw s (get_size w other) Hs ltac:(lia)) as [Hok Hch].
  erewrite bind_Ok by (by apply view_compare_spec). rewrite Hch. unfold mret, M_ret.
  do 2 f_equal. pose proof (length_chars w Hw s Hs). pose proof (length_chars w Hw other Ho).
  replace (length (chars w s) - length (chars w other))%nat
    with (Z.to_nat (get_size w s - get_size w other)) by lia.
  rewrite bool_decide_decide. destruct (decide _) as [E|E].
  - apply Z.eqb_eq. by apply lex_compare_eq.
  - apply Z.eqb_neq. by rewrite lex_compare_eq.
Qed.

Definition ascii_view (l : list Z) : native_string := make_native_str 1 l (Z.of_nat (length l)).

(** A position [find] returns is a match, but matches are missed.  For views of
    readable memory and a start inside the view, [find] terminates, reads only inside
    the views, and any position it returns is a place at or behind the start where the
    other string occurs.  It can miss an occurrence, because after a partial match it
    skips the characters it has compared: in aab it does not find ab. *)
Theorem find_sound_but_incomplete :
  (forall w s other my_pos, w = 1 \/ w = 2 -> view_ok w s -> view_ok w other ->
     0 <= my_pos <= get_size w s ->
     exists p, view_find w s other my_pos tt = Ok tt p /\
       (p = npos \/ my_pos <= p /\
        take (length (chars w other)) (drop (Z.to_nat p) (chars w s)) = chars w other)) /\
  view_find 1 (ascii_view [97; 97; 98]) (ascii_view [97; 98]) 0 tt = Ok tt npos /\
  take 2 (drop 1 [97; 97; 98]) = [97; 98].
Proof.
  split; [|by vm_compute]. intros w s other my_pos Hw Hs Ho Hp. unfold view_find, find_substr.
  pose proof (get_size_range w Hw s Hs) as [Hg _].
  pose proof (length_chars w Hw s Hs) as Hl.
  destruct (get_size w s <? get_size w other); [by exists npos; auto|].
  rewrite (proj2 (Z.ltb_ge _ _)) by lia. fold (chars w s). fold (chars w other).
  unfold find_subrange.
  destruct (find_subrange_loop_spec Z.eqb (chars w s) (chars w other) (S (length (chars w s)))
              (Z.to_nat my_pos)) as (k & Hk & Hk1 & Hk2); [apply Z.eqb_eq|lia|lia|].
  rewrite (bind_Ok _ _ _ _ _ Hk). eexists. split; [reflexivity|].
  destruct (Nat.eqb_spec k (Z.to_nat (get_size w s))) as [->|Hne]; [by left|right].
  destruct Hk2 as [H1 H2]; [lia|]. split; [lia|]. by rewrite Nat2Z.id.
Qed.

(** ** Witnesses *)

Lemma binary_search_correct_witness :
  binary_search [1; 3; 5; 5; 9] (fun x => x <? 5) (fun x => x =? 5) tt = Ok tt true.
Proof.
  destruct (binary_search_correct [1; 3; 5; 5; 9] (fun x => x <? 5) (fun x => x =? 5))
    as (b & Hb & Hiff).
  - intros i j x y Hij Hx Hy. assert (x <= y).
    { destruct i as [|[|[|[|[|i]]]]], j as [|[|[|[|[|j]]]]]; try lia; try done;
        injection Hx as <-; injection Hy as <-; lia. }
    rewrite !Z.ltb_lt. lia.
  - intros x Hx. apply Z.eqb_eq in Hx. apply Z.ltb_ge. lia.
  - intros i j x y Hij Hx Hy. assert (x <= y).
    { destruct i as [|[|[|[|[|i]]]]], j as [|[|[|[|[|j]]]]]; try lia; try done;
        injection Hx as <-; injection Hy as <-; lia. }
    rewrite Z.ltb_ge, !Z.eqb_eq. lia.
  - rewrite Hb. f_equal. apply Hiff. exists 5. split; [rewrite !elem_of_cons; tauto|reflexivity].
Defined.

Lemma ascii_view_ok l : Z.of_nat (length l) < 2 ^ 16 -> view_ok 1 (ascii_view l).
Proof.
  intros Hl. unfold ascii_view, make_native_str. split; cbn [Length Buffer].
  - apply (wrap_range 16). lia.
  - apply Z.mod_1_r.
  - unfold get_size, bytes_count_to_ch, ch_count_to_bytes; cbn [Length].
    rewrite Z.div_1_r, Z.mul_1_r, wrap_small by lia. lia.
Qed.


Lemma ends_with_inverted_witness :
  ends_with 1 (ascii_view [97; 98]) (ascii_view [98]) tt = Ok tt false /\
  ends_with 1 (ascii_view [97; 98]) (ascii_view [99]) tt = Ok tt true.
Proof.
  split.
  - rewrite (ends_with_inverted 1); [reflexivity|by left|apply ascii_view_ok; cbn; lia..|].
    vm_compute. discriminate.
  - rewrite (ends_with_inverted 1); [reflexivity|by left|apply ascii_view_ok; cbn; lia..|].
    vm_compute. discriminate.
Defined.
