(* ===== verification/WinntString.v ===== *)
(** * Owning strings (include/string.hpp)

    [basic_winnt_string]: a native counted string whose buffer is either inside the
    object ([m_buffer]) or a block of the allocator.  A pointer to characters is a
    place inside an object, inside a block, or in memory the string does not own;
    reading or writing behind the end of a buffer, or through a pointer to a block
    that was freed, is undefined behaviour.

    [size_type] is USHORT: sums and products of sizes are 16 bits wide.  Copying is
    modelled for ranges that do not overlap or coincide. *)
From Stdlib Require Import ZArith Lia.
From stdpp Require Import base list gmap numbers.
From S2P Require Import Prelude Algorithms StringView.
#[local] Open Scope Z_scope.

Inductive location := Sso | Heap (id : nat).

#[export] Instance location_eq_dec : EqDecision location.
Proof. solve_decision. Defined.

(** The native string and the buffer inside the object. *)
Record winnt_string := WinntStr {
  str_Buffer : location;
  str_Length : Z;
  str_MaximumLength : Z;
  m_buffer : list Z }.

(** The strings, by identity, and the blocks of the allocator. *)
Record str_world := StrWorld { strings : gmap nat winnt_string; char_blocks : gmap nat (list Z) }.

Definition set_strings (m : gmap nat winnt_string) (w : str_world) : str_world :=
  StrWorld m (char_blocks w).
Definition set_char_blocks (m : gmap nat (list Z)) (w : str_world) : str_world :=
  StrWorld (strings w) m.

Inductive char_ptr := InObject (o : nat) (off : nat) | InBlock (id : nat) (off : nat)
                    | Outside (text : list Z).

Definition ptr_add (p : char_ptr) (n : Z) : char_ptr :=
  match p with
  | InObject o off => InObject o (off + Z.to_nat n)
  | InBlock id off => InBlock id (off + Z.to_nat n)
  | Outside l => Outside (drop (Z.to_nat n) l)
  end.

(** The allocator of the string: a new block of the requested number of characters,
    with arbitrary contents. *)
Class char_memory := {
  new_chars : gmap nat (list Z) -> Z -> option (nat * list Z);
  new_chars_fresh m n id l : new_chars m n = Some (id, l) -> m !! id = None;
  new_chars_length m n id l : new_chars m n = Some (id, l) -> Z.of_nat (length l) = n }.

(** ** Memory *)

Definition get_str (o : nat) : M str_world winnt_string := w ← get; access (strings w !! o).
Definition put_str (o : nat) (s : winnt_string) : M str_world unit :=
  modify (fun w => set_strings (<[o := s]> (strings w)) w).

(** [n] characters of a buffer from [off] on. *)
Definition slice (l : list Z) (off n : nat) : M str_world (list Z) :=
  if (off + n <=? length l)%nat then mret (take n (drop off l)) else fault.

(** A buffer with characters replaced from [off] on. *)
Definition overwrite (l : list Z) (off : nat) (new : list Z) : M str_world (list Z) :=
  if (off + length new <=? length l)%nat
  then mret (take off l ++ new ++ drop (off + length new) l) else fault.

Definition read_chars (p : char_ptr) (n : Z) : M str_world (list Z) :=
  w ← get;
  match p with
  | InObject o off => s ← access (strings w !! o); slice (m_buffer s) off (Z.to_nat n)
  | InBlock id off => l ← access (char_blocks w !! id); slice l off (Z.to_nat n)
  | Outside l => slice l 0 (Z.to_nat n)
  end.

Definition write_chars (p : char_ptr) (new : list Z) : M str_world unit :=
  w ← get;
  match p with
  | InObject o off =>
      s ← access (strings w !! o);
      l ← overwrite (m_buffer s) off new;
      put_str o (WinntStr (str_Buffer s) (str_Length s) (str_MaximumLength s) l)
  | InBlock id off =>
      l ← access (char_blocks w !! id);
      l ← overwrite l off new;
      put (set_char_blocks (<[id := l]> (char_blocks w)) w)
  | Outside _ => fault
  end.

(** [traits_type::copy], [move] and [assign]. *)
Definition copy_chars (dst src : char_ptr) (count : Z) : M str_world unit :=
  l ← read_chars src count; write_chars dst l.
Definition fill_chars (dst : char_ptr) (count ch : Z) : M str_world unit :=
  write_chars dst (replicate (Z.to_nat count) ch).

(** Runs a constructor: when it throws, there is no object. *)
Definition constructing (o : nat) (m : M str_world unit) : M str_world unit := fun w =>
  match m w with
  | Throw w e => Throw (set_strings (delete o (strings w)) w) e
  | r => r
  end.

Section string.
Context (sizeof_char : Z) (SSO_BUFFER_CH_COUNT : Z) `{A : char_memory}.

Abbreviation to_ch := (bytes_count_to_ch sizeof_char).
Abbreviation to_bytes := (ch_count_to_bytes sizeof_char).

(** ** The native string *)

Definition str_size (s : winnt_string) : Z := to_ch (str_Length s).
Definition str_capacity (s : winnt_string) : Z := to_ch (str_MaximumLength s).
Definition str_max_size : Z := to_ch (65535 - 1).

Definition with_buffer (b : location) (s : winnt_string) : winnt_string :=
  WinntStr b (str_Length s) (str_MaximumLength s) (m_buffer s).
Definition with_size (n : Z) (s : winnt_string) : winnt_string :=
  WinntStr (str_Buffer s) (to_bytes n) (str_MaximumLength s) (m_buffer s).
Definition with_capacity (n : Z) (s : winnt_string) : winnt_string :=
  WinntStr (str_Buffer s) (str_Length s) (to_bytes n) (m_buffer s).
Definition increase_str_size (n : Z) (s : winnt_string) : winnt_string :=
  WinntStr (str_Buffer s) (u16 (str_Length s + to_bytes n)) (str_MaximumLength s) (m_buffer s).
Definition decrease_str_size (n : Z) (s : winnt_string) : winnt_string :=
  WinntStr (str_Buffer s) (u16 (str_Length s - to_bytes n)) (str_MaximumLength s) (m_buffer s).

Definition update_str (o : nat) (f : winnt_string -> winnt_string) : M str_world unit :=
  s ← get_str o; put_str o (f s).

Definition loc_ptr (o : nat) (b : location) : char_ptr :=
  match b with Sso => InObject o 0 | Heap id => InBlock id 0 end.
Definition data (o : nat) : M str_world char_ptr :=
  s ← get_str o; mret (loc_ptr o (str_Buffer s)).

Definition is_small (s : winnt_string) : bool := str_capacity s <=? SSO_BUFFER_CH_COUNT.

Definition as_small (size : Z) (s : winnt_string) : winnt_string :=
  with_capacity SSO_BUFFER_CH_COUNT (with_size size (with_buffer Sso s)).
Definition become_small (o : nat) (size : Z) : M str_world unit := update_str o (as_small size).

(** ** Growth *)

Definition allocate_chars (ch_count : Z) : M str_world nat :=
  w ← get;
  match new_chars (char_blocks w) ch_count with
  | Some (id, l) => _ ← put (set_char_blocks (<[id := l]> (char_blocks w)) w); mret id
  | None => throw bad_alloc
  end.

(** Freeing anything but a block in use is undefined. *)
Definition deallocate_chars (b : location) : M str_world unit :=
  match b with
  | Sso => fault
  | Heap id =>
      w ← get;
      _ ← access (char_blocks w !! id);
      put (set_char_blocks (delete id (char_blocks w)) w)
  end.

(** What is moved from the old to the new buffer, and the new size. *)
Definition transfer_policy : Type := char_ptr -> Z -> char_ptr -> M str_world Z.

Definition str_transfer_without_shift : transfer_policy := fun dst count src =>
  _ ← copy_chars dst src count; mret count.

Definition str_dummy_transfer : transfer_policy := fun _ count _ => mret count.

(** [make_shifter]: the second part goes to [dst + bounds.second]. *)
Definition str_shifter (index inserted : Z) : transfer_policy := fun dst count src =>
  _ ← copy_chars dst src index;
  _ ← copy_chars (ptr_add dst inserted) (ptr_add src index) (u16 (count - index));
  mret (u16 (count + (inserted - index))).

Definition str_grow_unchecked (o : nat) (new_capacity : Z) (transfer : transfer_policy)
    : M str_world unit :=
  s ← get_str o;
  new_buffer ← (if new_capacity <=? SSO_BUFFER_CH_COUNT then mret Sso
                else id ← allocate_chars new_capacity; mret (Heap id));
  new_size ← transfer (loc_ptr o new_buffer) (str_size s) (loc_ptr o (str_Buffer s));
  _ ← (if is_small s then mret tt else deallocate_chars (str_Buffer s));
  update_str o (fun s => with_capacity new_capacity (with_size new_size (with_buffer new_buffer s))).

Definition str_grow (o : nat) (new_capacity : Z) (transfer : transfer_policy) : M str_world unit :=
  if new_capacity <=? str_max_size then str_grow_unchecked o new_capacity transfer
  else throw length_error.

Definition grow_if_needed (o : nat) (new_capacity : Z) (transfer : transfer_policy)
    : M str_world unit :=
  s ← get_str o;
  if str_capacity s <? new_capacity then str_grow o new_capacity transfer else mret tt.

Definition str_calc_growth_unchecked (old_capacity : Z) : Z := u16 (old_capacity * 2).

Definition str_calc_growth (s : winnt_string) : Z :=
  if str_capacity s =? str_max_size then npos
  else Z.min str_max_size (str_calc_growth_unchecked (str_capacity s)).

Definition str_calc_optimal_growth (s : winnt_string) (required : Z) : Z :=
  Z.max (str_calc_growth s) required.

(** ** Concatenation, insertion, erasure *)

Definition concat_impl (o : nat) (handler : char_ptr -> Z -> M str_world unit)
    (reallocator : Z -> M str_world unit) (count : Z) : M str_world unit :=
  s ← get_str o;
  let old_size := str_size s in
  _ ← reallocator (u16 (old_size + count));
  p ← data o;
  _ ← handler (ptr_add p old_size) count;
  update_str o (increase_str_size count).

Definition copy_helper (src : char_ptr) : char_ptr -> Z -> M str_world unit :=
  fun dst count => copy_chars dst src count.
Definition fill_helper (ch : Z) : char_ptr -> Z -> M str_world unit :=
  fun dst count => fill_chars dst count ch.

Definition concat_with_optimal_growth (o : nat) handler (count : Z) : M str_world unit :=
  concat_impl o handler (fun required =>
    s ← get_str o;
    if str_capacity s <? required
    then str_grow o (str_calc_optimal_growth s required) str_transfer_without_shift
    else mret tt) count.

Definition concat_without_transfer_old_data (o : nat) handler (count : Z) : M str_world unit :=
  concat_impl o handler (fun required => grow_if_needed o required str_dummy_transfer) count.

Definition str_insert_impl (o : nat) (index : Z) handler (count : Z) : M str_world unit :=
  s ← get_str o;
  let old_size := str_size s in
  let required := u16 (old_size + count) in
  let need_to_shift := u16 (old_size - index) in
  _ ← (if str_capacity s <? required
       then str_grow o (str_calc_optimal_growth s required) (str_shifter index count)
       else
         p ← data o;
         let base := ptr_add p index in
         _ ← copy_chars (ptr_add base count) base need_to_shift;
         update_str o (increase_str_size count));
  p ← data o;
  handler (ptr_add p index) count.

(** A negative number of characters to shift becomes a huge one. *)
Definition erase_unchecked (o : nat) (index count : Z) : M str_world unit :=
  s ← get_str o;
  p ← data o;
  let first := ptr_add p index in
  let need_to_shift := str_size s - (index + count) in
  if need_to_shift <? 0 then fault else
  _ ← copy_chars first (ptr_add first count) need_to_shift;
  update_str o (decrease_str_size count).

(** ** Construction, assignment, destruction *)

(** The object before its constructor's body: the fields are zero, the buffer is not
    initialised. *)
Definition raw_string (junk : list Z) : winnt_string := WinntStr Sso 0 0 junk.

Definition construct_empty (o : nat) (junk : list Z) : M str_world unit :=
  _ ← put_str o (raw_string junk); become_small o 0.

Definition construct_fill (o : nat) (junk : list Z) (count ch : Z) : M str_world unit :=
  constructing o (_ ← construct_empty o junk;
    concat_without_transfer_old_data o (fill_helper ch) count).

(** From a pointer and a length; a native string and another string are passed as
    their buffer and size. *)
Definition construct_chars (o : nat) (junk : list Z) (src : char_ptr) (length : Z)
    : M str_world unit :=
  constructing o (_ ← construct_empty o junk;
    concat_without_transfer_old_data o (copy_helper src) length).

Definition str_copy_construct (o : nat) (junk : list Z) (other : nat) : M str_world unit :=
  s ← get_str other;
  construct_chars o junk (loc_ptr other (str_Buffer s)) (str_size s).

(** From a part of another string. *)
Definition construct_part (o : nat) (junk : list Z) (other : nat) (pos count : Z)
    : M str_world unit :=
  s ← get_str other;
  if str_size s <? pos then throw out_of_range else
  construct_chars o junk (ptr_add (loc_ptr other (str_Buffer s)) pos)
    (Z.min (u16 (str_size s - pos)) count).

Definition str_move_construct (o : nat) (junk : list Z) (other : nat) : M str_world unit :=
  s ← get_str other;
  _ ← put_str o (WinntStr (str_Buffer s) (str_Length s) (str_MaximumLength s) junk);
  _ ← (if is_small s then
         _ ← update_str o (with_buffer Sso);
         copy_chars (loc_ptr o Sso) (loc_ptr other (str_Buffer s)) (str_size s)
       else mret tt);
  become_small other 0.

Definition release_buffer (o : nat) : M str_world unit :=
  s ← get_str o;
  if is_small s then mret tt else deallocate_chars (str_Buffer s).

(** [~basic_winnt_string]. *)
Definition destroy_string (o : nat) : M str_world unit :=
  _ ← release_buffer o; modify (fun w => set_strings (delete o (strings w)) w).

Definition str_clear (o : nat) : M str_world unit := update_str o (with_size 0).

(** [assign] from a native string; the comparison of addresses never holds because the
    argument is a copy. *)
Definition assign_chars (o : nat) (src : char_ptr) (count : Z) : M str_world unit :=
  _ ← str_clear o; concat_without_transfer_old_data o (copy_helper src) count.

(** The allocators propagate on assignment. *)
Definition str_copy_assign (o other : nat) : M str_world unit :=
  if decide (o = other) then mret tt else
  _ ← release_buffer o;
  _ ← become_small o 0;
  s ← get_str other;
  concat_without_transfer_old_data o (copy_helper (loc_ptr other (str_Buffer s))) (str_size s).

Definition str_move_assign (o other : nat) : M str_world unit :=
  if decide (o = other) then mret tt else
  _ ← release_buffer o;
  s ← get_str other;
  _ ← (if is_small s then
         _ ← become_small o (str_size s);
         copy_chars (loc_ptr o Sso) (loc_ptr other (str_Buffer s)) (str_size s)
       else
         t ← get_str o;
         put_str o (WinntStr (str_Buffer s) (str_Length s) (str_MaximumLength s) (m_buffer t)));
  become_small other 0.

Definition assign_ch (o : nat) (ch : Z) : M str_world unit :=
  p ← data o; _ ← fill_chars p 1 ch; update_str o (with_size 1).

(** ** Element access *)

Definition str_at (o : nat) (idx : Z) : M str_world Z :=
  s ← get_str o;
  if idx <? str_size s then
    l ← read_chars (ptr_add (loc_ptr o (str_Buffer s)) idx) 1; access (head l)
  else throw out_of_range.

(** [copy]: the characters written to the destination. *)
Definition str_copy (o : nat) (count pos : Z) : M str_world (list Z) :=
  s ← get_str o;
  if str_size s <? pos then throw out_of_range else
  read_chars (ptr_add (loc_ptr o (str_Buffer s)) pos) (Z.min (u16 (str_size s - pos)) count).

(** ** Modifiers *)

Definition str_reserve (o : nat) (new_capacity : Z) : M str_world unit :=
  grow_if_needed o new_capacity str_transfer_without_shift.

Definition push_back (o : nat) (ch : Z) : M str_world unit :=
  s ← get_str o;
  _ ← (if str_capacity s =? str_size s
       then str_grow o (str_calc_growth s) str_transfer_without_shift else mret tt);
  p ← data o;
  _ ← write_chars (ptr_add p (str_size s)) [ch];
  update_str o (increase_str_size 1).

Definition str_pop_back (o : nat) : M str_world unit := update_str o (decrease_str_size 1).

Definition str_resize (o : nat) (new_size ch : Z) : M str_world unit :=
  _ ← str_reserve o new_size;
  s ← get_str o;
  _ ← (if str_size s <? new_size then
         p ← data o; fill_chars (ptr_add p (str_size s)) (new_size - str_size s) ch
       else mret tt);
  update_str o (with_size new_size).

Definition append_fill (o : nat) (count ch : Z) : M str_world unit :=
  s ← get_str o; str_resize o (u16 (str_size s + count)) ch.

Definition append_chars (o : nat) (src : char_ptr) (count : Z) : M str_world unit :=
  concat_with_optimal_growth o (copy_helper src) count.

(** [append(other)], [operator+=(other)]. *)
Definition append_string (o other : nat) : M str_world unit :=
  s ← get_str other; append_chars o (loc_ptr other (str_Buffer s)) (str_size s).

Definition append_part (o other : nat) (pos count : Z) : M str_world unit :=
  s ← get_str other;
  if str_size s <? pos then throw out_of_range else
  append_chars o (ptr_add (loc_ptr other (str_Buffer s)) pos)
    (Z.min (u16 (str_size s - pos)) count).

(** Characters from input iterators. *)
Fixpoint append_range (o : nat) (l : list Z) : M str_world unit :=
  match l with [] => mret tt | ch :: l => _ ← push_back o ch; append_range o l end.

Definition insert_chars (o : nat) (index : Z) (src : char_ptr) (count : Z) : M str_world unit :=
  s ← get_str o;
  if str_size s <? index then throw out_of_range else
  if index =? str_size s then append_chars o src count
  else str_insert_impl o index (copy_helper src) count.

Definition str_erase (o : nat) (index count : Z) : M str_world unit :=
  s ← get_str o;
  if str_size s <? index then throw out_of_range else
  erase_unchecked o index (Z.min count (u16 (str_size s - index))).

(** [erase(first, last)] with the positions of the iterators. *)
Definition erase_between (o : nat) (first last : Z) : M str_world unit :=
  erase_unchecked o first (u16 (last - first)).

Definition str_substr (o : nat) (junk : list Z) (other : nat) (pos count : Z) : M str_world unit :=
  s ← get_str other;
  if str_size s <? pos then throw out_of_range else
  construct_chars o junk (ptr_add (loc_ptr other (str_Buffer s)) pos)
    (Z.min (u16 (str_size s - pos)) count).

(** ** Concatenation operators; [o] is the result *)

(** A local string is destroyed when the rest of the function throws. *)
Definition with_local (o : nat) (m : M str_world unit) : M str_world unit := fun w =>
  match m w with
  | Throw w e => match destroy_string o w with Ok w _ => Throw w e | r => r end
  | r => r
  end.

(** [operator+(const string&, const string&)] for two sizes of the inner buffer. *)
Definition concat_strings (lhs_buffer rhs_buffer : Z) (o : nat) (junk : list Z) (lhs rhs : nat)
    : M str_world unit :=
  if rhs_buffer <=? lhs_buffer
  then _ ← str_copy_construct o junk lhs; with_local o (append_string o rhs)
  else _ ← str_copy_construct o junk rhs; with_local o (append_string o lhs).

(** [operator+(const CharT*, const string&)] and [operator+(CharT, const string&)]. *)
Definition concat_literal_string (o : nat) (junk : list Z) (text : list Z) (rhs : nat)
    : M str_world unit :=
  n ← (fun w => match traits_length text tt with Ok _ n => Ok w n | _ => Fault end);
  _ ← str_copy_construct o junk rhs;
  with_local o (append_chars o (Outside text) (u16 (Z.of_nat n))).
Definition concat_ch_string (o : nat) (junk : list Z) (ch : Z) (rhs : nat) : M str_world unit :=
  _ ← str_copy_construct o junk rhs; with_local o (push_back o ch).
Definition concat_string_ch (o : nat) (junk : list Z) (lhs : nat) (ch : Z) : M str_world unit :=
  _ ← str_copy_construct o junk lhs; with_local o (push_back o ch).

(** [operator+(string&&, string&&)]; the result is moved out of one of the operands. *)
Definition concat_moved (o : nat) (junk : list Z) (lhs rhs : nat) : M str_world unit :=
  l ← get_str lhs; r ← get_str rhs;
  let total := str_size l + str_size r in
  if total <=? str_capacity l then _ ← append_string lhs rhs; str_move_construct o junk lhs
  else if total <=? str_capacity r then _ ← append_string rhs lhs; str_move_construct o junk rhs
  else
    _ ← construct_empty o junk;
    with_local o (_ ← str_reserve o (u16 total);
                  _ ← append_string o lhs; append_string o rhs).
End string.
