(* ===== verification/WinntStringSpec.v ===== *)
(** * The operations of owning strings on their contents

    [str_ok] is the invariant of one string, [world_ok] that of all strings: every
    block of the allocator is the buffer of exactly one string.  [step_to] says that
    an operation has changed one string and left the others alone. *)
From Stdlib Require Import ZArith Lia.
From stdpp Require Import base list gmap numbers.
From S2P Require Import Prelude Algorithms StringView WinntString.
#[local] Open Scope Z_scope.

Definition buffer_chars (b : gmap nat (list Z)) (s : winnt_string) : list Z :=
  match str_Buffer s with Sso => m_buffer s | Heap id => default [] (b !! id) end.

(** Characters of one or two bytes; a buffer inside the object. *)
Class char_width (n : Z) : Prop := char_width_cases : n = 1 \/ n = 2.
Class inner_size (n : Z) : Prop := inner_size_range : 0 < n <= 32767.

Section spec.
Context (sizeof_char : Z) (sso : Z) `{A : char_memory}.
Context {char_size : char_width sizeof_char} {sso_range : inner_size sso}.

Abbreviation size := (str_size sizeof_char).
Abbreviation capacity := (str_capacity sizeof_char).
Abbreviation max_size := (str_max_size sizeof_char).

(** ** Sizes in bytes *)

Lemma max_size_range : 32767 <= max_size /\ max_size * sizeof_char < 2 ^ 16.
Proof.
  unfold str_max_size, bytes_count_to_ch. destruct char_size as [->| ->]; split; vm_compute; congruence.
Qed.

Lemma max_size_lt : max_size < 2 ^ 16.
Proof. pose proof max_size_range. destruct char_size as [E|E]; rewrite E in *; lia. Qed.

Lemma to_bytes_eq n : 0 <= n <= max_size -> ch_count_to_bytes sizeof_char n = n * sizeof_char.
Proof.
  intros Hn. pose proof max_size_range as [_ Hm]. unfold ch_count_to_bytes. apply wrap_small.
  split; [destruct char_size as [->| ->]; lia|]. destruct char_size as [E|E]; rewrite E in *; lia.
Qed.

Lemma to_ch_mul n : bytes_count_to_ch sizeof_char (n * sizeof_char) = n.
Proof. unfold bytes_count_to_ch. apply Z.div_mul. destruct char_size; lia. Qed.

Lemma to_ch_bytes n : 0 <= n <= max_size ->
  bytes_count_to_ch sizeof_char (ch_count_to_bytes sizeof_char n) = n.
Proof. intros Hn. by rewrite to_bytes_eq, to_ch_mul. Qed.

(** ** The invariant *)

Record str_ok (b : gmap nat (list Z)) (s : winnt_string) : Prop := {
  so_length : str_Length s = size s * sizeof_char;
  so_maximum : str_MaximumLength s = capacity s * sizeof_char;
  so_size : 0 <= size s <= capacity s;
  so_capacity : sso <= capacity s <= max_size;
  so_inner : Z.of_nat (length (m_buffer s)) = sso;
  so_location : match str_Buffer s with
                | Sso => capacity s = sso
                | Heap id => sso < capacity s /\ exists l, b !! id = Some l
                end;
  so_chars : Z.of_nat (length (buffer_chars b s)) = capacity s }.

Definition contents (b : gmap nat (list Z)) (s : winnt_string) : list Z :=
  take (Z.to_nat (size s)) (buffer_chars b s).

Lemma length_contents b s : str_ok b s -> Z.of_nat (length (contents b s)) = size s.
Proof.
  intros H. pose proof (so_size _ _ H). pose proof (so_chars _ _ H).
  unfold contents. rewrite length_take. lia.
Qed.

Lemma is_small_location b s :
  str_ok b s -> is_small sizeof_char sso s = bool_decide (str_Buffer s = Sso).
Proof.
  intros H. pose proof (so_location _ _ H) as Hl. unfold is_small.
  destruct (str_Buffer s) as [|id]; [rewrite bool_decide_true by done; apply Z.leb_le; lia|].
  rewrite bool_decide_false by done. apply Z.leb_gt. lia.
Qed.

(** One string has changed, and with it at most its own block. *)
Record step_to (w : str_world) (o : nat) (s s' : winnt_string) (w' : str_world) : Prop := {
  st_strings : strings w' = <[o := s']> (strings w);
  st_ok : str_ok (char_blocks w') s';
  st_frame id : str_Buffer s <> Heap id -> str_Buffer s' <> Heap id ->
    char_blocks w' !! id = char_blocks w !! id;
  st_new id : str_Buffer s' = Heap id -> str_Buffer s = Heap id \/ char_blocks w !! id = None;
  st_old id : str_Buffer s = Heap id -> str_Buffer s' <> Heap id -> char_blocks w' !! id = None }.

Lemma step_refl w o s : strings w !! o = Some s -> str_ok (char_blocks w) s -> step_to w o s s w.
Proof.
  intros Ho Hs. split; try done; [by rewrite insert_id|]. intros id Hid. by left.
Qed.

Lemma step_trans w o s s' s'' w' w'' :
  step_to w o s s' w' -> step_to w' o s' s'' w'' -> step_to w o s s'' w''.
Proof.
  intros H1 H2. split.
  - rewrite (st_strings _ _ _ _ _ H2), (st_strings _ _ _ _ _ H1). apply insert_insert_eq.
  - apply H2.
  - intros id Hs Hs''. destruct (decide (str_Buffer s' = Heap id)) as [E|E].
    + rewrite (st_old _ _ _ _ _ H2) by done. by destruct (st_new _ _ _ _ _ H1 id E) as [?| ->].
    + rewrite (st_frame _ _ _ _ _ H2) by done. by apply (st_frame _ _ _ _ _ H1).
  - intros id Hs''. destruct (st_new _ _ _ _ _ H2 id Hs'') as [Hs'|Hs'].
    + by apply (st_new _ _ _ _ _ H1).
    + destruct (decide (str_Buffer s = Heap id)) as [E|E]; [by left|right].
      destruct (decide (str_Buffer s' = Heap id)) as [E'|E'].
      * by destruct (st_new _ _ _ _ _ H1 id E') as [?|?].
      * by rewrite <- (st_frame _ _ _ _ _ H1 id E E').
  - intros id Hs Hs''. destruct (decide (str_Buffer s' = Heap id)) as [E|E].
    + by apply (st_old _ _ _ _ _ H2).
    + rewrite (st_frame _ _ _ _ _ H2) by done. by apply (st_old _ _ _ _ _ H1).
Qed.

(** Every block is the buffer of exactly one string. *)
Record world_ok (w : str_world) : Prop := {
  wo_strings o s : strings w !! o = Some s -> str_ok (char_blocks w) s;
  wo_distinct o o' s s' id : strings w !! o = Some s -> strings w !! o' = Some s' ->
    str_Buffer s = Heap id -> str_Buffer s' = Heap id -> o = o';
  wo_owned id l : char_blocks w !! id = Some l ->
    exists o s, strings w !! o = Some s /\ str_Buffer s = Heap id }.

(** The text of every string. *)
Definition texts (w : str_world) : gmap nat (list Z) := contents (char_blocks w) <$> strings w.

Lemma contents_frame b b' s :
  (forall id, str_Buffer s = Heap id -> b' !! id = b !! id) ->
  buffer_chars b' s = buffer_chars b s /\ (str_ok b s -> str_ok b' s).
Proof.
  intros Hf. assert (E : buffer_chars b' s = buffer_chars b s).
  { unfold buffer_chars. destruct (str_Buffer s) as [|id]; [done|]. by rewrite Hf. }
  split; [done|]. intros H. split; try apply H; [|rewrite E; apply H].
  pose proof (so_location _ _ H) as Hl. destruct (str_Buffer s) as [|id]; [done|]. by rewrite Hf.
Qed.

(** A step of one string preserves the invariant and the other texts. *)
Lemma step_other w o s s' w' o' t :
  world_ok w -> strings w !! o = Some s -> step_to w o s s' w' ->
  strings w !! o' = Some t -> o' <> o ->
  forall id, str_Buffer t = Heap id -> char_blocks w' !! id = char_blocks w !! id.
Proof.
  intros Hw Ho Hs Ht Hne id Hid. apply (st_frame _ _ _ _ _ Hs).
  - intros E. by destruct (wo_distinct _ Hw o' o t s id Ht Ho Hid E).
  - intros E. destruct (st_new _ _ _ _ _ Hs id E) as [E'|E'].
    + by destruct (wo_distinct _ Hw o' o t s id Ht Ho Hid E').
    + pose proof (so_location _ _ (wo_strings _ Hw _ _ Ht)) as Hl. rewrite Hid in Hl.
      destruct Hl as (_ & l & Hl). congruence.
Qed.

Lemma step_world w o s s' w' :
  world_ok w -> strings w !! o = Some s -> step_to w o s s' w' ->
  world_ok w' /\ texts w' = <[o := contents (char_blocks w') s']> (texts w).
Proof.
  intros Hw Ho Hs. pose proof (fun o' t => step_other w o s s' w' o' t Hw Ho Hs) as Hf.
  split.
  - split.
    + intros o' t. rewrite (st_strings _ _ _ _ _ Hs). destruct (decide (o' = o)) as [->|Hne].
      * rewrite lookup_insert_eq. intros [= <-]. apply Hs.
      * rewrite lookup_insert_ne by done. intros Ht.
        apply (contents_frame (char_blocks w)); [|by apply (wo_strings _ Hw o')].
        intros id. by apply (Hf o').
    + intros o1 o2 s1 s2 id. rewrite (st_strings _ _ _ _ _ Hs), !lookup_insert_Some.
      intros [[<- <-]|[H1 H1']] [[<- <-]|[H2 H2']] E1 E2; try done.
      * exfalso. destruct (st_new _ _ _ _ _ Hs id E1) as [E|E].
        -- by apply H2, (wo_distinct _ Hw o o2 s s2 id).
        -- pose proof (so_location _ _ (wo_strings _ Hw _ _ H2')) as Hl. rewrite E2 in Hl.
           destruct Hl as (_ & l & Hl). congruence.
      * exfalso. destruct (st_new _ _ _ _ _ Hs id E2) as [E|E].
        -- by apply H1, (wo_distinct _ Hw o o1 s s1 id).
        -- pose proof (so_location _ _ (wo_strings _ Hw _ _ H1')) as Hl. rewrite E1 in Hl.
           destruct Hl as (_ & l & Hl). congruence.
      * by apply (wo_distinct _ Hw o1 o2 s1 s2 id).
    + intros id l Hl. destruct (decide (str_Buffer s' = Heap id)) as [E|E].
      { exists o, s'. rewrite (st_strings _ _ _ _ _ Hs), lookup_insert_eq. done. }
      destruct (decide (str_Buffer s = Heap id)) as [E'|E'].
      { rewrite (st_old _ _ _ _ _ Hs) in Hl by done. done. }
      rewrite (st_frame _ _ _ _ _ Hs) in Hl by done.
      destruct (wo_owned _ Hw _ _ Hl) as (o' & t & Ht & Hid). exists o', t.
      split; [|done]. rewrite (st_strings _ _ _ _ _ Hs), lookup_insert_ne; [done|].
      intros <-. congruence.
  - apply map_eq. intros o'. unfold texts. rewrite (st_strings _ _ _ _ _ Hs), fmap_insert.
    destruct (decide (o' = o)) as [->|Hne]; [by rewrite !lookup_insert_eq|].
    rewrite !lookup_insert_ne by done. rewrite !lookup_fmap.
    destruct (strings w !! o') as [t|] eqn:Ht; [|done]. cbn. f_equal. unfold contents.
    by rewrite (proj1 (contents_frame (char_blocks w) (char_blocks w') t (Hf o' t Ht Hne))).
Qed.

(** ** Reading, writing and resizing the buffer of a string *)

Lemma get_str_ok w o s : strings w !! o = Some s -> get_str o w = Ok w s.
Proof. intros H. unfold get_str, mbind, M_bind, get. by rewrite H. Qed.

Lemma update_str_ok w o s f :
  strings w !! o = Some s ->
  update_str o f w = Ok (set_strings (<[o := f s]> (strings w)) w) tt.
Proof. intros H. unfold update_str. by rewrite (bind_Ok _ _ _ _ _ (get_str_ok _ _ _ H)). Qed.

Lemma data_ok w o s : strings w !! o = Some s -> data o w = Ok w (loc_ptr o (str_Buffer s)).
Proof. intros H. unfold data. by rewrite (bind_Ok _ _ _ _ _ (get_str_ok _ _ _ H)). Qed.

Lemma slice_ok (l : list Z) off n w : (off + n <= length l)%nat ->
  slice l off n w = Ok w (take n (drop off l)).
Proof. intros H. unfold slice. by rewrite (proj2 (Nat.leb_le _ _)). Qed.

Lemma overwrite_ok (l : list Z) off new w : (off + length new <= length l)%nat ->
  overwrite l off new w = Ok w (take off l ++ new ++ drop (off + length new) l).
Proof. intros H. unfold overwrite. by rewrite (proj2 (Nat.leb_le _ _)). Qed.

(** The block of a string that is not inside the object. *)
Lemma own_block b s id : str_ok b s -> str_Buffer s = Heap id -> b !! id = Some (buffer_chars b s).
Proof.
  intros H E. pose proof (so_location _ _ H) as Hl. unfold buffer_chars. rewrite E in *.
  by destruct Hl as (_ & l & ->).
Qed.

Lemma read_own w o s off n :
  strings w !! o = Some s -> str_ok (char_blocks w) s ->
  0 <= off -> 0 <= n -> off + n <= capacity s ->
  read_chars (ptr_add (loc_ptr o (str_Buffer s)) off) n w =
    Ok w (take (Z.to_nat n) (drop (Z.to_nat off) (buffer_chars (char_blocks w) s))).
Proof.
  intros Ho Hs H1 H2 H3. pose proof (so_chars _ _ Hs) as Hc. unfold read_chars.
  rewrite (bind_Ok get _ w w w eq_refl). destruct (str_Buffer s) as [|id] eqn:E; cbn.
  - rewrite Ho, access_bind. unfold buffer_chars in *. rewrite E in *. apply slice_ok. lia.
  - rewrite (own_block _ _ _ Hs E), access_bind. apply slice_ok. lia.
Qed.

Definition set_own_chars (l : list Z) (s : winnt_string) : winnt_string :=
  match str_Buffer s with
  | Sso => WinntStr (str_Buffer s) (str_Length s) (str_MaximumLength s) l
  | Heap _ => s
  end.

Lemma write_own w o s off new :
  strings w !! o = Some s -> str_ok (char_blocks w) s ->
  0 <= off -> off + Z.of_nat (length new) <= capacity s ->
  let l := buffer_chars (char_blocks w) s in
  let l' := take (Z.to_nat off) l ++ new ++ drop (Z.to_nat off + length new) l in
  exists w', write_chars (ptr_add (loc_ptr o (str_Buffer s)) off) new w = Ok w' tt /\
    step_to w o s (set_own_chars l' s) w' /\
    buffer_chars (char_blocks w') (set_own_chars l' s) = l'.
Proof.
  intros Ho Hs H1 H2 l l'. pose proof (so_chars _ _ Hs) as Hc. fold l in Hc.
  assert (Hlen : length l' = length l).
  { unfold l'. rewrite !length_app, length_take, length_drop. lia. }
  unfold write_chars, set_own_chars. rewrite (bind_Ok get _ w w w eq_refl).
  destruct (str_Buffer s) as [|id] eqn:E; cbn [loc_ptr ptr_add plus].
  - rewrite Ho, access_bind. assert (El : m_buffer s = l) by (unfold l, buffer_chars; by rewrite E).
    rewrite El, (bind_Ok _ _ _ _ _ (overwrite_ok l (Z.to_nat off) new w ltac:(lia))).
    rewrite E. eexists. split; [reflexivity|]. fold l'. split; [|done].
    split; cbn [strings char_blocks set_strings]; try done.
    + split; try apply Hs; cbn [m_buffer str_Buffer].
      * rewrite Hlen, <- El. apply Hs.
      * pose proof (so_location _ _ Hs) as Hl. by rewrite E in Hl.
      * unfold buffer_chars; cbn [m_buffer str_Buffer]. by rewrite Hlen.
    + intros id Hid. congruence.
  - rewrite (own_block _ _ _ Hs E), access_bind. fold l.
    rewrite (bind_Ok _ _ _ _ _ (overwrite_ok l (Z.to_nat off) new w ltac:(lia))).
    eexists. split; [reflexivity|]. fold l'.
    assert (Hb : buffer_chars (<[id := l']> (char_blocks w)) s = l').
    { unfold buffer_chars. by rewrite E, lookup_insert_eq. }
    split; [|exact Hb].
    split; cbn [strings char_blocks set_char_blocks]; try done.
    + by rewrite insert_id.
    + destruct Hs. split; try done; [|rewrite Hb; congruence]. rewrite E in *.
      rewrite lookup_insert_eq. naive_solver.
    + intros id' Hid _. rewrite lookup_insert_ne; [done|]. congruence.
    + intros id' Hid. by left.
Qed.

Lemma set_own_fields l s :
  str_Buffer (set_own_chars l s) = str_Buffer s /\ size (set_own_chars l s) = size s /\
  capacity (set_own_chars l s) = capacity s.
Proof. unfold set_own_chars. destruct (str_Buffer s) eqn:E; rewrite ?E; done. Qed.

Lemma size_with_size n s : 0 <= n <= max_size -> size (with_size sizeof_char n s) = n.
Proof. intros Hn. by apply to_ch_bytes. Qed.

(** Setting the size within the capacity. *)
Lemma resize_own w o s n :
  strings w !! o = Some s -> str_ok (char_blocks w) s -> 0 <= n <= capacity s ->
  step_to w o s (with_size sizeof_char n s)
    (set_strings (<[o := with_size sizeof_char n s]> (strings w)) w) /\
  contents (char_blocks w) (with_size sizeof_char n s) =
    take (Z.to_nat n) (buffer_chars (char_blocks w) s).
Proof.
  intros Ho Hs Hn. pose proof (so_capacity _ _ Hs) as Hcap.
  assert (Hsz : size (with_size sizeof_char n s) = n) by (apply size_with_size; lia).
  split; [|unfold contents; by rewrite Hsz].
  split; cbn [strings char_blocks set_strings]; try done.
  - destruct Hs. split; try done; rewrite ?Hsz; try done.
    cbn. apply to_bytes_eq. lia.
  - intros id Hid. by left.
Qed.

Lemma increase_eq b s n :
  str_ok b s -> 0 <= n -> size s + n <= capacity s ->
  increase_str_size sizeof_char n s = with_size sizeof_char (size s + n) s.
Proof.
  intros Hs Hn Hle. pose proof (so_capacity _ _ Hs). pose proof (so_size _ _ Hs).
  unfold increase_str_size, with_size. f_equal. rewrite (so_length _ _ Hs).
  rewrite !to_bytes_eq by lia. rewrite <- Z.mul_add_distr_r. apply wrap_small.
  pose proof max_size_range as [_ Hm]. destruct char_size as [E|E]; rewrite E in *; lia.
Qed.

Lemma decrease_eq b s n :
  str_ok b s -> 0 <= n <= size s ->
  decrease_str_size sizeof_char n s = with_size sizeof_char (size s - n) s.
Proof.
  intros Hs Hn. pose proof (so_capacity _ _ Hs). pose proof (so_size _ _ Hs).
  unfold decrease_str_size, with_size. f_equal. rewrite (so_length _ _ Hs).
  rewrite !to_bytes_eq by lia. rewrite <- Z.mul_sub_distr_r. apply wrap_small.
  pose proof max_size_range as [_ Hm]. destruct char_size as [E|E]; rewrite E in *; lia.
Qed.
End spec.
