(* ===== verification/WinntStringOps.v ===== *)
(** * Growth, concatenation and the other modifiers of owning strings *)
From Stdlib Require Import ZArith Lia.
From stdpp Require Import base list gmap numbers.
From S2P Require Import Prelude Algorithms StringView WinntString WinntStringSpec.
#[local] Open Scope Z_scope.

Definition str_error (e : exn) : Prop := e = bad_alloc \/ e = length_error.

Section ops.
Context (sizeof_char : Z) (sso : Z) `{A : char_memory}.
Context {char_size : char_width sizeof_char} {sso_range : inner_size sso}.

Abbreviation size := (str_size sizeof_char).
Abbreviation capacity := (str_capacity sizeof_char).
Abbreviation max_size := (str_max_size sizeof_char).
Abbreviation str_ok := (str_ok sizeof_char sso).
Abbreviation step_to := (step_to sizeof_char sso).
Abbreviation contents := (contents sizeof_char).
Abbreviation world_ok := (world_ok sizeof_char sso).

(** An operation on one string: on success the string has changed as [Q] says, on
    failure nothing has changed. *)
Definition changes (w : str_world) (o : nat) (s : winnt_string)
    (Q : gmap nat (list Z) -> winnt_string -> Prop) (r : outcome str_world unit) : Prop :=
  match r with
  | Ok w' _ => exists s', step_to w o s s' w' /\ Q (char_blocks w') s'
  | Throw w' e => w' = w /\ str_error e
  | _ => False
  end.

Lemma changes_mono w o s (Q Q' : gmap nat (list Z) -> winnt_string -> Prop) r :
  changes w o s Q r -> (forall b s', Q b s' -> Q' b s') -> changes w o s Q' r.
Proof. destruct r; cbn; try done. intros (s' & ? & ?) HQ. eauto. Qed.

(** Continuing after a successful step. *)
Lemma changes_bind w o s Q Q' (m : M str_world unit) k :
  strings w !! o = Some s ->
  changes w o s Q' (m w) ->
  (forall w' s', step_to w o s s' w' -> strings w' !! o = Some s' -> str_ok (char_blocks w') s' ->
     Q' (char_blocks w') s' -> exists w'' s'', k tt w' = Ok w'' tt /\ step_to w' o s' s'' w'' /\
     Q (char_blocks w'') s'') ->
  changes w o s Q ((m ≫= k) w).
Proof.
  intros Ho Hm Hk. unfold mbind, M_bind. destruct (m w) as [w' []|w' e| |]; cbn in Hm; try done.
  destruct Hm as (s' & Hs & HQ).
  destruct (Hk w' s' Hs) as (w'' & s'' & -> & Hs' & HQ'); [|apply Hs|done|].
  - rewrite (st_strings _ _ _ _ _ _ _ Hs). apply lookup_insert_eq.
  - cbn. exists s''. split; [by eapply step_trans|done].
Qed.

(** ** Growth *)

Lemma allocate_ok w c id l :
  new_chars (char_blocks w) c = Some (id, l) ->
  allocate_chars c w = Ok (set_char_blocks (<[id := l]> (char_blocks w)) w) id.
Proof. intros E. unfold allocate_chars, mbind, M_bind, get. by rewrite E. Qed.

Lemma allocate_fails w c :
  new_chars (char_blocks w) c = None -> allocate_chars c w = Throw w bad_alloc.
Proof. intros E. unfold allocate_chars, mbind, M_bind, get. by rewrite E. Qed.

Lemma grow_general w o s c (tr : transfer_policy) (f : list Z -> list Z) n :
  strings w !! o = Some s -> str_ok (char_blocks w) s -> capacity s < c ->
  (forall id l0, char_blocks w !! id = None -> Z.of_nat (length l0) = c ->
     tr (InBlock id 0) (size s) (loc_ptr o (str_Buffer s))
       (set_char_blocks (<[id := l0]> (char_blocks w)) w) =
     Ok (set_char_blocks (<[id := f l0]> (char_blocks w)) w) n) ->
  (forall l0, Z.of_nat (length l0) = c -> length (f l0) = length l0) -> 0 <= n <= c ->
  changes w o s (fun b s' => size s' = n /\ capacity s' = c /\
                   exists l0, Z.of_nat (length l0) = c /\ buffer_chars b s' = f l0)
    (str_grow sizeof_char sso o c tr w).
Proof.
  intros Ho Hs Hc Htr Hf Hn. unfold str_grow.
  destruct (Z.leb_spec c max_size) as [Hmax|Hmax]; [|cbn; split; [done|unfold str_error; tauto]].
  unfold str_grow_unchecked. rewrite (bind_Ok _ _ _ _ _ (get_str_ok _ _ _ Ho)).
  pose proof (so_capacity _ _ _ _ Hs) as Hcap. rewrite (proj2 (Z.leb_gt c sso)) by lia.
  destruct (new_chars (char_blocks w) c) as [[id l0]|] eqn:En.
  2: { erewrite bind_Throw by (apply bind_Throw; by apply allocate_fails).
       split; [done|unfold str_error; tauto]. }
  erewrite bind_Ok by (rewrite (bind_Ok _ _ _ _ _ (allocate_ok _ _ _ _ En)); reflexivity).
  cbn [loc_ptr].
  pose proof (new_chars_fresh _ _ _ _ En) as Hfresh. pose proof (new_chars_length _ _ _ _ En) as Hl0.
  rewrite (bind_Ok _ _ _ _ _ (Htr id l0 Hfresh Hl0)).
  rewrite (is_small_location _ _ _ _ Hs).
  set (s' := with_capacity sizeof_char c (with_size sizeof_char n (with_buffer (Heap id) s))).
  assert (Hsz : size s' = n) by (apply (to_ch_bytes sizeof_char); lia).
  assert (Hcp : capacity s' = c) by (apply (to_ch_bytes sizeof_char); lia).
  assert (Hok : forall b, b !! id = Some (f l0) -> str_ok b s').
  { intros b Hb. split; rewrite ?Hsz, ?Hcp; try lia.
    - cbn. apply (to_bytes_eq sizeof_char); lia.
    - cbn. apply (to_bytes_eq sizeof_char); lia.
    - apply Hs.
    - cbn. split; [lia|eauto].
    - unfold buffer_chars, s'; cbn. rewrite Hb. cbn. rewrite Hf by done. done. }
  assert (HQ : forall b, b !! id = Some (f l0) -> size s' = n /\ capacity s' = c /\
            exists l0, Z.of_nat (length l0) = c /\ buffer_chars b s' = f l0).
  { intros b Hb. split; [done|]. split; [done|]. exists l0. split; [done|].
    unfold buffer_chars, s'; cbn. by rewrite Hb. }
  destruct (str_Buffer s) as [|old] eqn:E.
  - rewrite bool_decide_true by done. rewrite ret_bind.
    rewrite (update_str_ok _ o s) by done. cbn. exists s'. split; [|apply HQ, lookup_insert_eq].
    split; cbn [strings char_blocks set_strings set_char_blocks].
    + done.
    + apply Hok, lookup_insert_eq.
    + intros id' _ Hid. cbn in Hid. rewrite lookup_insert_ne; [done|]. congruence.
    + intros id' [= <-]. by right.
    + intros id' Hid. congruence.
  - rewrite bool_decide_false by done. unfold deallocate_chars.
    pose proof (own_block _ _ _ _ _ Hs E) as Hown.
    assert (Hne : old <> id) by (intros ->; congruence).
    rewrite (bind_Ok (w0 ← get; _ ← access (char_blocks w0 !! old); put _) _ _
      (set_char_blocks (delete old (<[id := f l0]> (char_blocks w))) w) tt).
    2: { rewrite (bind_Ok get _ _ _ _ eq_refl). cbn [char_blocks set_char_blocks].
         rewrite lookup_insert_ne by done. rewrite Hown. done. }
    rewrite (update_str_ok _ o s) by done. cbn. exists s'.
    assert (Hid : delete old (<[id := f l0]> (char_blocks w)) !! id = Some (f l0)).
    { rewrite lookup_delete_ne by done. apply lookup_insert_eq. }
    split; [|by apply HQ].
    split; cbn [strings char_blocks set_strings set_char_blocks].
    + done.
    + by apply Hok.
    + intros id' H1 H2. cbn in H2. rewrite lookup_delete_ne, lookup_insert_ne by congruence. done.
    + intros id' [= <-]. by right.
    + intros id' Hid' _. rewrite E in Hid'. injection Hid' as <-. apply lookup_delete_eq.
Qed.

(** Moving characters from the old buffer into a new block. *)
Lemma transfer_own w o s id l0 to from n :
  strings w !! o = Some s -> str_ok (char_blocks w) s -> char_blocks w !! id = None ->
  0 <= from -> 0 <= n -> from + n <= capacity s -> (to + Z.to_nat n <= length l0)%nat ->
  copy_chars (InBlock id to) (ptr_add (loc_ptr o (str_Buffer s)) from) n
      (set_char_blocks (<[id := l0]> (char_blocks w)) w) =
    Ok (set_char_blocks (<[id := take to l0 ++
          take (Z.to_nat n) (drop (Z.to_nat from) (buffer_chars (char_blocks w) s)) ++
          drop (to + Z.to_nat n) l0]> (char_blocks w)) w) tt.
Proof.
  intros Ho Hs Hid H1 H2 H3 H4. set (w1 := set_char_blocks (<[id := l0]> (char_blocks w)) w).
  pose proof (so_chars _ _ _ _ Hs) as Hch.
  destruct (contents_frame sizeof_char sso (char_blocks w) (char_blocks w1) s) as [Hb Hok].
  { intros i Hi. cbn. rewrite lookup_insert_ne; [done|]. intros <-.
    rewrite (own_block _ _ _ _ _ Hs Hi) in Hid. done. }
  unfold copy_chars. rewrite (bind_Ok _ _ _ _ _ (read_own sizeof_char sso w1 o s from n Ho (Hok Hs)
    H1 H2 H3)), Hb. set (new := take _ (drop _ _)).
  assert (Hnew : length new = Z.to_nat n) by (unfold new; rewrite length_take, length_drop; lia).
  unfold write_chars. rewrite (bind_Ok get _ w1 w1 w1 eq_refl).
  change (char_blocks w1) with (<[id := l0]> (char_blocks w)).
  rewrite lookup_insert_eq, access_bind.
  rewrite (bind_Ok _ _ _ _ _ (overwrite_ok l0 to new w1 ltac:(lia))).
  unfold put, w1, set_char_blocks. cbn. by rewrite insert_insert_eq, Hnew.
Qed.

Lemma ptr_add_0 p : ptr_add p 0 = p.
Proof. destruct p; cbn; by rewrite ?Nat.add_0_r. Qed.

(** Growing keeps the text. *)
Lemma str_grow_spec w o s c :
  strings w !! o = Some s -> str_ok (char_blocks w) s -> capacity s < c ->
  changes w o s (fun b s' => size s' = size s /\ capacity s' = c /\
                   contents b s' = contents (char_blocks w) s)
    (str_grow sizeof_char sso o c str_transfer_without_shift w).
Proof.
  intros Ho Hs Hc. pose proof (so_size _ _ _ _ Hs) as Hsz. pose proof (so_chars _ _ _ _ Hs) as Hch.
  pose proof (length_contents _ _ _ _ Hs) as Hlc.
  eapply changes_mono.
  - apply (grow_general w o s c _
      (fun l0 => contents (char_blocks w) s ++ drop (Z.to_nat (size s)) l0) (size s)); try done; [| |lia].
    + intros id l0 Hid Hl. unfold str_transfer_without_shift.
      pose proof (transfer_own w o s id l0 0 0 (size s) Ho Hs Hid) as Ht. rewrite ptr_add_0 in Ht.
      erewrite bind_Ok by (apply Ht; lia). reflexivity.
    + intros l0 Hl. rewrite length_app, length_drop. lia.
  - intros b s' (H1 & H2 & l0 & Hl0 & Hb). split; [done|]. split; [done|].
    unfold WinntStringSpec.contents at 1. rewrite H1, Hb, take_app_le by lia. apply take_ge. lia.
Qed.

(** Growing for an insertion in front of the text. *)
Lemma grow_front_spec w o s c n :
  strings w !! o = Some s -> str_ok (char_blocks w) s -> capacity s < c -> 0 <= n ->
  size s + n <= c -> c < 2 ^ 16 ->
  changes w o s (fun b s' => size s' = size s + n /\ capacity s' = c /\
      drop (Z.to_nat n) (contents b s') = contents (char_blocks w) s)
    (str_grow sizeof_char sso o c (str_shifter 0 n) w).
Proof.
  intros Ho Hs Hc Hn Hle Hlt. pose proof (so_size _ _ _ _ Hs) as Hsz.
  pose proof (length_contents _ _ _ _ Hs) as Hlc. eapply changes_mono.
  - apply (grow_general w o s c _ (fun l0 => take (Z.to_nat n) l0 ++ contents (char_blocks w) s ++
      drop (Z.to_nat n + Z.to_nat (size s)) l0) (size s + n)); try done; [| |lia].
    + intros id l0 Hid Hl. unfold str_shifter.
      pose proof (transfer_own w o s id l0 0 0 0 Ho Hs Hid) as Ht.
      pose proof (transfer_own w o s id l0 (Z.to_nat n) 0 (size s) Ho Hs Hid) as Ht'.
      rewrite !ptr_add_0 in *. erewrite bind_Ok by (apply Ht; lia).
      change (take 0 l0 ++ _ ++ drop (0 + Z.to_nat 0) l0) with l0. cbn [ptr_add plus].
      rewrite !Z.sub_0_r, !(wrap_small 16) by lia.
      erewrite bind_Ok by (apply Ht'; lia). reflexivity.
    + intros l0 Hl. rewrite !length_app, length_drop, length_take. lia.
  - intros b s' (H1 & H2 & l0 & Hl0 & Hb). split; [done|]. split; [done|].
    unfold WinntStringSpec.contents at 1. rewrite H1, Hb.
    assert (length (take (Z.to_nat n) l0) = Z.to_nat n) as Ht by (rewrite length_take; lia).
    rewrite (assoc_L (++)), take_app_le by (rewrite length_app; lia).
    rewrite take_ge by (rewrite length_app; lia). rewrite <- Ht at 1. apply drop_app_length.
Qed.

(** Growing an empty string without moving its text. *)
Lemma grow_dummy_spec w o s c :
  strings w !! o = Some s -> str_ok (char_blocks w) s -> capacity s < c -> size s = 0 ->
  changes w o s (fun b s' => size s' = 0 /\ capacity s' = c /\ contents b s' = [])
    (str_grow sizeof_char sso o c str_dummy_transfer w).
Proof.
  intros Ho Hs Hc H0. pose proof (so_size _ _ _ _ Hs) as Hsz.
  eapply changes_mono; [apply (grow_general w o s c _ (fun l0 => l0) 0); try done|].
  - intros id l0 _ _. unfold str_dummy_transfer. by rewrite H0.
  - lia.
  - intros b s' (H1 & H2 & _). split; [done|]. split; [done|]. unfold contents. by rewrite H1.
Qed.

(** ** Concatenation *)

Lemma take_overwrite (l new : list Z) n m :
  (n + length new = m)%nat -> (m <= length l)%nat ->
  take m (take n l ++ new ++ drop m l) = take n l ++ new.
Proof.
  intros Hm Hl. assert (length (take n l) = n) as Hn by (rewrite length_take; lia).
  rewrite (assoc_L (++)), take_app_le by (rewrite length_app; lia).
  apply take_ge. rewrite length_app. lia.
Qed.

(** Writing into the buffer and setting the size. *)
Lemma rewrite_own w o s off new n :
  strings w !! o = Some s -> str_ok (char_blocks w) s -> 0 <= off ->
  off + Z.of_nat (length new) <= capacity s -> 0 <= n <= capacity s ->
  let l := buffer_chars (char_blocks w) s in
  exists w1 s1, write_chars (ptr_add (loc_ptr o (str_Buffer s)) off) new w = Ok w1 tt /\
    step_to w o s s1 w1 /\ strings w1 !! o = Some s1 /\
    str_Buffer s1 = str_Buffer s /\ size s1 = size s /\ capacity s1 = capacity s /\
    buffer_chars (char_blocks w1) s1 =
      take (Z.to_nat off) l ++ new ++ drop (Z.to_nat off + length new) l /\
    exists w', update_str o (with_size sizeof_char n) w1 = Ok w' tt /\
      step_to w o s (with_size sizeof_char n s1) w' /\
      buffer_chars (char_blocks w') (with_size sizeof_char n s1) =
        buffer_chars (char_blocks w1) s1 /\
      contents (char_blocks w') (with_size sizeof_char n s1) =
        take (Z.to_nat n) (take (Z.to_nat off) l ++ new ++ drop (Z.to_nat off + length new) l).
Proof.
  intros Ho Hs H1 H2 Hn l.
  destruct (write_own _ _ w o s off new Ho Hs) as (w1 & Hw & Hst & Hb); [lia|lia|].
  set (s1 := set_own_chars _ s) in *.
  assert (str_Buffer s1 = str_Buffer s /\ size s1 = size s /\ capacity s1 = capacity s)
    as (F1 & F2 & F3) by apply set_own_fields.
  assert (Ho1 : strings w1 !! o = Some s1).
  { rewrite (st_strings _ _ _ _ _ _ _ Hst). apply lookup_insert_eq. }
  pose proof (st_ok _ _ _ _ _ _ _ Hst) as Hok1.
  destruct (resize_own _ _ w1 o s1 n Ho1 Hok1) as [Hr Hc]; [lia|].
  exists w1, s1. repeat (split; [done|]). eexists. split; [apply (update_str_ok _ _ _ _ Ho1)|].
  split; [by eapply step_trans|]. split; [done|]. cbn [char_blocks set_strings]. by rewrite Hc, Hb.
Qed.

(** Writing behind the text and extending the size. *)
Lemma append_own w o s new :
  strings w !! o = Some s -> str_ok (char_blocks w) s ->
  size s + Z.of_nat (length new) <= capacity s ->
  exists w1 w' s', write_chars (ptr_add (loc_ptr o (str_Buffer s)) (size s)) new w = Ok w1 tt /\
    update_str o (with_size sizeof_char (size s + Z.of_nat (length new))) w1 = Ok w' tt /\
    update_str o (increase_str_size sizeof_char (Z.of_nat (length new))) w1 = Ok w' tt /\
    step_to w o s s' w' /\ contents (char_blocks w') s' = contents (char_blocks w) s ++ new.
Proof.
  intros Ho Hs Hle. pose proof (so_size _ _ _ _ Hs) as Hsz. pose proof (so_chars _ _ _ _ Hs) as Hch.
  destruct (rewrite_own w o s (size s) new (size s + Z.of_nat (length new)) Ho Hs)
    as (w1 & s1 & Hw & Hst & Ho1 & _ & F2 & F3 & _ & w' & Hu & Hst' & _ & Hc); [lia..|].
  exists w1, w', (with_size sizeof_char (size s + Z.of_nat (length new)) s1).
  split; [done|]. split; [done|]. split.
  - rewrite <- Hu, !(update_str_ok _ _ _ _ Ho1).
    by rewrite (increase_eq _ _ _ _ _ (st_ok _ _ _ _ _ _ _ Hst)), F2 by lia.
  - split; [done|]. rewrite Hc.
    replace (Z.to_nat (size s + Z.of_nat (length new))) with (Z.to_nat (size s) + length new)%nat by lia.
    apply take_overwrite; lia.
Qed.

(** The handler writes these characters, also after the string has grown. *)
Definition writes (w : str_world) (o : nat) (s : winnt_string)
    (handler : char_ptr -> Z -> M str_world unit) (new : list Z) : Prop :=
  forall w' s' p, step_to w o s s' w' -> handler p (Z.of_nat (length new)) w' = write_chars p new w'.

Lemma writes_fill w o s n ch : writes w o s (fill_helper ch) (replicate n ch).
Proof.
  intros w' s' p _. unfold fill_helper, fill_chars. by rewrite length_replicate, Nat2Z.id.
Qed.

Lemma writes_outside w o s l m : (m <= length l)%nat ->
  writes w o s (copy_helper (Outside l)) (take m l).
Proof.
  intros Hm w' s' p _. unfold copy_helper, copy_chars, read_chars. rewrite length_take, Nat.min_l by done.
  erewrite bind_Ok; [reflexivity|]. rewrite (bind_Ok get _ w' w' w' eq_refl), Nat2Z.id.
  apply slice_ok. lia.
Qed.

(** Characters of another string. *)
Lemma writes_other w o s o' t off n :
  world_ok w -> strings w !! o = Some s -> strings w !! o' = Some t -> o' <> o ->
  0 <= off -> 0 <= n -> off + n <= size t ->
  writes w o s (copy_helper (ptr_add (loc_ptr o' (str_Buffer t)) off))
    (take (Z.to_nat n) (drop (Z.to_nat off) (contents (char_blocks w) t))).
Proof.
  intros Hw Ho Ho' Hne Hoff Hn Hle w' s' p Hst.
  pose proof (wo_strings _ _ _ Hw _ _ Ho') as Ht. pose proof (so_size _ _ _ _ Ht) as Hsz.
  pose proof (length_contents _ _ _ _ Ht) as Hlc.
  destruct (contents_frame sizeof_char sso (char_blocks w) (char_blocks w') t) as [Hb Hok].
  { intros id. by apply (step_other sizeof_char sso w o s s' w' o' t). }
  assert (Ho'' : strings w' !! o' = Some t).
  { rewrite (st_strings _ _ _ _ _ _ _ Hst). by rewrite lookup_insert_ne. }
  assert (Hlen : length (take (Z.to_nat n) (drop (Z.to_nat off) (contents (char_blocks w) t))) = Z.to_nat n).
  { rewrite length_take, length_drop. lia. }
  unfold copy_helper, copy_chars. rewrite Hlen, Z2Nat.id by done.
  erewrite bind_Ok by (apply (read_own sizeof_char sso w' o' t off n Ho'' (Hok Ht)); lia).
  f_equal. rewrite Hb. unfold WinntStringSpec.contents. rewrite skipn_firstn_comm, take_take.
  f_equal. lia.
Qed.

(** What the reallocation in front of a concatenation must do. *)
Definition makes_room (w : str_world) (o : nat) (s : winnt_string) (required : Z)
    (r : outcome str_world unit) : Prop :=
  changes w o s (fun b s' => size s' = size s /\ required <= capacity s' /\
                   contents b s' = contents (char_blocks w) s) r.

Lemma concat_spec w o s handler reallocator new :
  strings w !! o = Some s -> str_ok (char_blocks w) s -> writes w o s handler new ->
  size s + Z.of_nat (length new) < 2 ^ 16 ->
  makes_room w o s (size s + Z.of_nat (length new))
    (reallocator (size s + Z.of_nat (length new)) w) ->
  changes w o s (fun b s' => contents b s' = contents (char_blocks w) s ++ new)
    (concat_impl sizeof_char o handler reallocator (Z.of_nat (length new)) w).
Proof.
  intros Ho Hs Hh Hlt Hroom. pose proof (so_size _ _ _ _ Hs) as Hsz.
  unfold concat_impl. rewrite (bind_Ok _ _ _ _ _ (get_str_ok _ _ _ Ho)).
  rewrite (wrap_small 16) by lia.
  eapply changes_bind; [exact Ho|exact Hroom|]. intros w1 s1 Hst Ho1 Hs1 (E1 & E2 & E3).
  rewrite (bind_Ok _ _ _ _ _ (data_ok _ _ _ Ho1)).
  destruct (append_own w1 o s1 new Ho1 Hs1) as (wm & w2 & s2 & Hw & _ & Hu & Hst2 & Hc); [lia|].
  exists w2, s2. split; [|split; [done|by rewrite Hc, E3]].
  rewrite <- (Hh w1 s1 _ Hst) in Hw. rewrite <- E1, (bind_Ok _ _ _ _ _ Hw). exact Hu.
Qed.

Lemma growth_gt s b : str_ok b s -> capacity s <= 32767 -> capacity s < str_calc_growth sizeof_char s.
Proof.
  intros Hs Hle. pose proof (so_capacity _ _ _ _ Hs) as Hc.
  pose proof (inner_size_range : 0 < sso <= 32767) as Hsso. unfold str_calc_growth.
  destruct (Z.eqb_spec (capacity s) max_size) as [E|E]; [unfold npos; lia|].
  unfold str_calc_growth_unchecked. rewrite wrap_small by lia. lia.
Qed.

Lemma str_reserve_spec w o s n :
  strings w !! o = Some s -> str_ok (char_blocks w) s ->
  changes w o s (fun b s' => size s' = size s /\ n <= capacity s' /\
                   contents b s' = contents (char_blocks w) s)
    (str_reserve sizeof_char sso o n w).
Proof.
  intros Ho Hs. unfold str_reserve, grow_if_needed. rewrite (bind_Ok _ _ _ _ _ (get_str_ok _ _ _ Ho)).
  destruct (Z.ltb_spec (capacity s) n) as [Hlt|Hge].
  - eapply changes_mono; [by apply str_grow_spec|]. intros b s' (H1 & H2 & H3).
    split; [done|]. split; [lia|done].
  - cbn. exists s. split; [by apply step_refl|done].
Qed.

Lemma append_spec w o s handler new :
  strings w !! o = Some s -> str_ok (char_blocks w) s -> writes w o s handler new ->
  size s + Z.of_nat (length new) < 2 ^ 16 ->
  changes w o s (fun b s' => contents b s' = contents (char_blocks w) s ++ new)
    (concat_with_optimal_growth sizeof_char sso o handler (Z.of_nat (length new)) w).
Proof.
  intros Ho Hs Hh Hlt. apply concat_spec; try done.
  unfold makes_room. rewrite (bind_Ok _ _ _ _ _ (get_str_ok _ _ _ Ho)).
  destruct (Z.ltb_spec (capacity s) (size s + Z.of_nat (length new))) as [Hc|Hc].
  - eapply changes_mono; [apply str_grow_spec; [done|done|unfold str_calc_optimal_growth; lia]|].
    intros b s' (H1 & H2 & H3). split; [done|]. split; [|done].
    rewrite H2. unfold str_calc_optimal_growth. lia.
  - cbn. exists s. split; [by apply step_refl|done].
Qed.

(** Appending with room does not throw. *)
Lemma append_room w o s handler new :
  strings w !! o = Some s -> str_ok (char_blocks w) s -> writes w o s handler new ->
  size s + Z.of_nat (length new) <= capacity s ->
  exists w' s', concat_with_optimal_growth sizeof_char sso o handler (Z.of_nat (length new)) w = Ok w' tt /\
    step_to w o s s' w' /\ contents (char_blocks w') s' = contents (char_blocks w) s ++ new.
Proof.
  intros Ho Hs Hh Hle. pose proof (so_size _ _ _ _ Hs). pose proof (so_capacity _ _ _ _ Hs).
  pose proof (max_size_lt sizeof_char).
  destruct (append_own w o s new Ho Hs Hle) as (w1 & w2 & s2 & Hw & _ & Hu & Hst & Hc).
  exists w2, s2. split; [|done]. unfold concat_with_optimal_growth, concat_impl.
  rewrite (bind_Ok _ _ _ _ _ (get_str_ok _ _ _ Ho)). rewrite (wrap_small 16) by lia.
  rewrite (bind_Ok _ _ _ w tt).
  2: { rewrite (bind_Ok _ _ _ _ _ (get_str_ok _ _ _ Ho)). by rewrite (proj2 (Z.ltb_ge _ _)). }
  rewrite (bind_Ok _ _ _ _ _ (data_ok _ _ _ Ho)). rewrite (bind_Ok _ _ _ w1 tt); [done|].
  by rewrite (Hh w s _ (step_refl _ _ _ _ _ Ho Hs)).
Qed.

(** Filling an empty string. *)
Lemma fill_empty_spec w o s handler new :
  strings w !! o = Some s -> str_ok (char_blocks w) s -> writes w o s handler new ->
  size s = 0 -> Z.of_nat (length new) < 2 ^ 16 ->
  changes w o s (fun b s' => contents b s' = new)
    (concat_without_transfer_old_data sizeof_char sso o handler (Z.of_nat (length new)) w).
Proof.
  intros Ho Hs Hh H0 Hlt.
  assert (Hnil : contents (char_blocks w) s = []) by (unfold WinntStringSpec.contents; by rewrite H0).
  eapply changes_mono; [apply concat_spec; try done; [lia|]|].
  - unfold makes_room, grow_if_needed. rewrite (bind_Ok _ _ _ _ _ (get_str_ok _ _ _ Ho)).
    destruct (Z.ltb_spec (capacity s) (size s + Z.of_nat (length new))) as [Hc|Hc].
    + eapply changes_mono; [by apply grow_dummy_spec|]. intros b s' (H1 & H2 & H3).
      rewrite Hnil. split; [lia|]. split; [lia|done].
    + cbn. exists s. split; [by apply step_refl|done].
  - intros b s'. by rewrite Hnil.
Qed.

(** ** The other modifiers *)

Lemma str_push_back_spec w o s ch :
  strings w !! o = Some s -> str_ok (char_blocks w) s -> size s <= 32767 ->
  changes w o s (fun b s' => contents b s' = contents (char_blocks w) s ++ [ch])
    (push_back sizeof_char sso o ch w).
Proof.
  intros Ho Hs Hlt. unfold push_back. rewrite (bind_Ok _ _ _ _ _ (get_str_ok _ _ _ Ho)).
  pose proof (so_size _ _ _ _ Hs) as Hsz.
  apply (changes_bind _ _ _ _ (fun b s' => size s' = size s /\ size s < capacity s' /\
    contents b s' = contents (char_blocks w) s)); [done| |].
  - destruct (Z.eqb_spec (capacity s) (size s)) as [E|E].
    + pose proof (growth_gt s _ Hs ltac:(lia)).
      eapply changes_mono; [by apply str_grow_spec|]. intros b s' (H1 & H2 & H3).
      split; [done|]. split; [lia|done].
    + cbn. exists s. split; [by apply step_refl|]. split; [done|]. split; [lia|done].
  - intros w1 s1 Hst Ho1 Hs1 (E1 & E2 & E3).
    rewrite (bind_Ok _ _ _ _ _ (data_ok _ _ _ Ho1)).
    destruct (append_own w1 o s1 [ch] Ho1 Hs1) as (wm & w2 & s2 & Hw & _ & Hu & Hst2 & Hc); [cbn; lia|].
    exists w2, s2. rewrite <- E1. split; [by rewrite (bind_Ok _ _ _ _ _ Hw)|].
    split; [done|by rewrite Hc, E3].
Qed.

Lemma str_pop_back_spec w o s :
  strings w !! o = Some s -> str_ok (char_blocks w) s -> 0 < size s ->
  changes w o s (fun b s' => contents b s' = removelast (contents (char_blocks w) s))
    (str_pop_back sizeof_char o w).
Proof.
  intros Ho Hs Hlt. pose proof (so_size _ _ _ _ Hs) as Hsz. pose proof (so_chars _ _ _ _ Hs) as Hch.
  unfold str_pop_back.
  rewrite (update_str_ok _ _ _ _ Ho), (decrease_eq _ _ _ _ _ Hs) by lia.
  destruct (resize_own _ _ w o s (size s - 1) Ho Hs) as [Hr Hc]; [lia|].
  cbn. eexists. split; [exact Hr|]. cbn. rewrite Hc. unfold WinntStringSpec.contents.
  replace (Z.to_nat (size s)) with (S (Z.to_nat (size s - 1))) by lia.
  rewrite removelast_firstn; [done|]. lia.
Qed.

Lemma str_clear_spec w o s :
  strings w !! o = Some s -> str_ok (char_blocks w) s ->
  exists w', str_clear sizeof_char o w = Ok w' tt /\
    step_to w o s (with_size sizeof_char 0 s) w' /\ size (with_size sizeof_char 0 s) = 0.
Proof.
  intros Ho Hs. pose proof (so_size _ _ _ _ Hs). pose proof (so_capacity _ _ _ _ Hs).
  eexists. split; [apply (update_str_ok _ _ _ _ Ho)|].
  split; [apply (resize_own _ _ w o s 0 Ho Hs); lia|].
  apply (size_with_size sizeof_char). lia.
Qed.

Lemma resize_spec w o s n ch :
  strings w !! o = Some s -> str_ok (char_blocks w) s -> 0 <= n ->
  changes w o s (fun b s' => contents b s' =
      take (Z.to_nat n) (contents (char_blocks w) s) ++ replicate (Z.to_nat (n - size s)) ch)
    (str_resize sizeof_char sso o n ch w).
Proof.
  intros Ho Hs Hn. unfold str_resize. eapply changes_bind; [exact Ho|by apply str_reserve_spec|].
  intros w1 s1 Hst Ho1 Hs1 (E1 & E2 & E3). cbv beta.
  rewrite (bind_Ok _ _ _ _ _ (get_str_ok _ _ _ Ho1)). pose proof (so_size _ _ _ _ Hs1) as Hsz.
  pose proof (length_contents _ _ _ _ Hs1) as Hlc. rewrite <- E3, <- E1.
  destruct (Z.ltb_spec (size s1) n) as [Hlt|Hge].
  - set (new := replicate (Z.to_nat (n - size s1)) ch).
    assert (Hlen : size s1 + Z.of_nat (length new) = n) by (unfold new; rewrite length_replicate; lia).
    destruct (append_own w1 o s1 new Ho1 Hs1) as (wm & w2 & s2 & Hw & Hu & _ & Hst2 & Hc); [lia|].
    exists w2, s2. rewrite Hlen in Hu. split; [|split; [done|]].
    + rewrite (bind_Ok _ _ _ wm tt); [done|]. by rewrite (bind_Ok _ _ _ _ _ (data_ok _ _ _ Ho1)).
    + rewrite Hc, take_ge by lia. done.
  - destruct (resize_own _ _ w1 o s1 n Ho1 Hs1) as [Hr Hc]; [lia|].
    eexists _, _. split; [rewrite ret_bind; by apply update_str_ok|]. split; [exact Hr|].
    cbn [char_blocks set_strings]. rewrite Hc. unfold WinntStringSpec.contents.
    rewrite take_take, Nat.min_l by lia. replace (Z.to_nat (n - size s1)) with 0%nat by lia.
    by rewrite app_nil_r.
Qed.

Lemma ptr_add_add p n m : 0 <= n -> 0 <= m -> ptr_add (ptr_add p n) m = ptr_add p (n + m).
Proof.
  intros Hn Hm. destruct p; cbn; by rewrite ?drop_drop, Z2Nat.inj_add, ?Nat.add_assoc by lia.
Qed.

(** Moving characters inside the buffer. *)
Lemma move_own w o s to from n :
  strings w !! o = Some s -> str_ok (char_blocks w) s -> 0 <= to -> 0 <= from -> 0 <= n ->
  from + n <= capacity s ->
  copy_chars (ptr_add (loc_ptr o (str_Buffer s)) to) (ptr_add (loc_ptr o (str_Buffer s)) from) n w =
  write_chars (ptr_add (loc_ptr o (str_Buffer s)) to)
    (take (Z.to_nat n) (drop (Z.to_nat from) (buffer_chars (char_blocks w) s))) w.
Proof.
  intros Ho Hs ???? . unfold copy_chars. apply bind_Ok. by apply (read_own sizeof_char sso).
Qed.

Lemma erase_unchecked_spec w o s i n :
  strings w !! o = Some s -> str_ok (char_blocks w) s -> 0 <= i -> 0 <= n -> i + n <= size s ->
  changes w o s (fun b s' => contents b s' =
      take (Z.to_nat i) (contents (char_blocks w) s) ++
      drop (Z.to_nat (i + n)) (contents (char_blocks w) s))
    (erase_unchecked sizeof_char o i n w).
Proof.
  intros Ho Hs Hi Hn Hle. pose proof (so_size _ _ _ _ Hs) as Hsz. pose proof (so_chars _ _ _ _ Hs) as Hch.
  unfold erase_unchecked. rewrite (bind_Ok _ _ _ _ _ (get_str_ok _ _ _ Ho)).
  rewrite (bind_Ok _ _ _ _ _ (data_ok _ _ _ Ho)). rewrite (proj2 (Z.ltb_ge _ _)) by lia.
  rewrite ptr_add_add by lia. set (l := buffer_chars (char_blocks w) s) in *.
  set (new := take (Z.to_nat (size s - (i + n))) (drop (Z.to_nat (i + n)) l)).
  assert (Hnew : Z.of_nat (length new) = size s - (i + n)).
  { unfold new. rewrite length_take, length_drop. lia. }
  destruct (rewrite_own w o s i new (size s - n) Ho Hs)
    as (w1 & s1 & Hw & Hst & Ho1 & _ & F2 & F3 & _ & w' & Hu & Hst' & _ & Hc); [lia..|].
  rewrite (bind_Ok _ _ _ w1 tt).
  2: { rewrite (move_own w o s i (i + n) _ Ho Hs) by lia. exact Hw. }
  rewrite (update_str_ok _ _ _ _ Ho1), (decrease_eq _ _ _ _ _ (st_ok _ _ _ _ _ _ _ Hst)), F2 by lia.
  rewrite (update_str_ok _ _ _ _ Ho1) in Hu. injection Hu as ->. cbn.
  eexists. split; [exact Hst'|]. rewrite Hc. fold l. unfold WinntStringSpec.contents. fold l.
  replace (Z.to_nat (size s - n)) with (Z.to_nat i + length new)%nat by lia.
  rewrite take_overwrite by lia. rewrite take_take, Nat.min_l by lia. f_equal.
  rewrite skipn_firstn_comm. unfold new. f_equal. lia.
Qed.

Lemma str_erase_spec w o s i n :
  strings w !! o = Some s -> str_ok (char_blocks w) s -> 0 <= i <= size s -> 0 <= n ->
  changes w o s (fun b s' => contents b s' =
      take (Z.to_nat i) (contents (char_blocks w) s) ++
      drop (Z.to_nat (i + n)) (contents (char_blocks w) s))
    (str_erase sizeof_char o i n w).
Proof.
  intros Ho Hs Hi Hn. unfold str_erase. rewrite (bind_Ok _ _ _ _ _ (get_str_ok _ _ _ Ho)).
  pose proof (so_size _ _ _ _ Hs). pose proof (so_capacity _ _ _ _ Hs).
  pose proof (max_size_lt sizeof_char). pose proof (length_contents _ _ _ _ Hs) as Hlc.
  rewrite (proj2 (Z.ltb_ge _ _)), (wrap_small 16) by lia.
  eapply changes_mono; [apply (erase_unchecked_spec w o s i _ Ho Hs); lia|].
  intros b s' ->. f_equal.
  destruct (Z.min_spec n (size s - i)) as [[_ ->]|[Hm ->]]; [done|].
  rewrite !drop_ge by lia. done.
Qed.
End ops.
