(* ===== verification/WinntStringLife.v ===== *)
(** * Insertion into owning strings, their construction, assignment and destruction *)
From Stdlib Require Import ZArith Lia.
From stdpp Require Import base list gmap numbers.
From S2P Require Import Prelude Algorithms StringView WinntString WinntStringSpec WinntStringOps.
#[local] Open Scope Z_scope.

Section life.
Context (sizeof_char : Z) (sso : Z) `{A : char_memory}.
Context {char_size : char_width sizeof_char} {sso_range : inner_size sso}.

Abbreviation size := (str_size sizeof_char).
Abbreviation capacity := (str_capacity sizeof_char).
Abbreviation max_size := (str_max_size sizeof_char).
Abbreviation str_ok := (str_ok sizeof_char sso).
Abbreviation step_to := (step_to sizeof_char sso).
Abbreviation contents := (contents sizeof_char).
Abbreviation world_ok := (world_ok sizeof_char sso).
Abbreviation changes := (changes sizeof_char sso).
Abbreviation writes := (writes sizeof_char sso).

(** ** Insertion *)

(** Room for [k] characters at position [i]. *)
Definition room_at (w : str_world) (s : winnt_string) (i k : Z)
    (b : gmap nat (list Z)) (s' : winnt_string) : Prop :=
  size s' = size s + k /\
  take (Z.to_nat i) (contents b s') = take (Z.to_nat i) (contents (char_blocks w) s) /\
  drop (Z.to_nat (i + k)) (contents b s') = drop (Z.to_nat i) (contents (char_blocks w) s).

Lemma take_gap (l : list Z) i k m n :
  (i + k + m <= length l)%nat -> n = (i + k + m)%nat ->
  let l' := take n (take (i + k) l ++ take m (drop i l) ++ drop n l) in
  take i l' = take i (take (i + m) l) /\ drop (i + k) l' = drop i (take (i + m) l).
Proof.
  intros Hl -> l'. assert (Hk : length (take (i + k) l) = (i + k)%nat) by (rewrite length_take; lia).
  assert (Hm : length (take m (drop i l)) = m) by (rewrite length_take, length_drop; lia).
  assert (El : l' = take (i + k) l ++ take m (drop i l)).
  { unfold l'. rewrite (assoc_L (++)), take_app_le by (rewrite length_app; lia).
    apply take_ge. rewrite length_app. lia. }
  rewrite El. split.
  - rewrite take_app_le by lia. rewrite !take_take. f_equal. lia.
  - rewrite <- Hk at 1. rewrite drop_app_length, skipn_firstn_comm. f_equal. lia.
Qed.

Lemma shift_in_place w o s i k :
  strings w !! o = Some s -> str_ok (char_blocks w) s -> 0 <= i <= size s -> 0 <= k ->
  size s + k <= capacity s ->
  exists w' s', (_ ← copy_chars (ptr_add (ptr_add (loc_ptr o (str_Buffer s)) i) k)
                    (ptr_add (loc_ptr o (str_Buffer s)) i) (size s - i);
              update_str o (increase_str_size sizeof_char k)) w = Ok w' tt /\
    step_to w o s s' w' /\ room_at w s i k (char_blocks w') s'.
Proof.
  intros Ho Hs Hi Hk Hle. pose proof (so_chars _ _ _ _ Hs) as Hch. pose proof (so_capacity _ _ _ _ Hs) as Hcap.
  rewrite ptr_add_add by lia.
  set (l := buffer_chars (char_blocks w) s) in *.
  set (new := take (Z.to_nat (size s - i)) (drop (Z.to_nat i) l)).
  assert (Hnew : Z.of_nat (length new) = size s - i).
  { unfold new. rewrite length_take, length_drop. lia. }
  destruct (rewrite_own sizeof_char sso w o s (i + k) new (size s + k) Ho Hs)
    as (w1 & s1 & Hw & Hst & Ho1 & _ & F2 & F3 & _ & w' & Hu & Hst' & _ & Hc); [lia..|].
  exists w', (with_size sizeof_char (size s + k) s1). split; [|split; [done|]].
  - rewrite (bind_Ok _ _ _ w1 tt).
    2: { rewrite (move_own sizeof_char sso w o s _ _ _ Ho Hs) by lia. exact Hw. }
    rewrite <- Hu, !(update_str_ok _ _ _ _ Ho1).
    by rewrite (increase_eq sizeof_char sso _ _ _ (st_ok _ _ _ _ _ _ _ Hst)), F2 by lia.
  - split; [apply (size_with_size sizeof_char); lia|]. rewrite Hc. fold l.
    replace (Z.to_nat (i + k) + length new)%nat with (Z.to_nat (size s + k)) by lia.
    unfold WinntStringSpec.contents. fold l.
    pose proof (take_gap l (Z.to_nat i) (Z.to_nat k) (Z.to_nat (size s - i)) (Z.to_nat (size s + k))
      ltac:(lia) ltac:(lia)) as Hg. cbv zeta in Hg. fold new in Hg.
    replace (Z.to_nat i + Z.to_nat k)%nat with (Z.to_nat (i + k)) in Hg by lia.
    replace (Z.to_nat i + Z.to_nat (size s - i))%nat with (Z.to_nat (size s)) in Hg by lia. exact Hg.
Qed.

(** Writing the inserted characters into the room made for them. *)
Lemma write_room w o s i handler new w1 s1 :
  strings w !! o = Some s -> step_to w o s s1 w1 -> writes w o s handler new -> 0 <= i <= size s ->
  room_at w s i (Z.of_nat (length new)) (char_blocks w1) s1 ->
  exists w2 s2, (p ← data o; handler (ptr_add p i) (Z.of_nat (length new))) w1 = Ok w2 tt /\
    step_to w1 o s1 s2 w2 /\
    contents (char_blocks w2) s2 = take (Z.to_nat i) (contents (char_blocks w) s) ++ new ++
                                   drop (Z.to_nat i) (contents (char_blocks w) s).
Proof.
  intros Ho Hst Hh Hi (E1 & E2 & E3). set (k := Z.of_nat (length new)) in *.
  pose proof (st_ok _ _ _ _ _ _ _ Hst) as Hs1.
  assert (Ho1 : strings w1 !! o = Some s1).
  { rewrite (st_strings _ _ _ _ _ _ _ Hst). apply lookup_insert_eq. }
  rewrite (bind_Ok _ _ _ _ _ (data_ok _ _ _ Ho1)).
  rewrite (Hh w1 s1 _ Hst). pose proof (so_size _ _ _ _ Hs1). pose proof (so_chars _ _ _ _ Hs1).
  destruct (rewrite_own sizeof_char sso w1 o s1 i new (size s1) Ho1 Hs1)
    as (w2 & s2 & Hw & Hst2 & _ & _ & F2 & _ & Hb & _); [lia..|].
  exists w2, s2. split; [done|]. split; [done|]. rewrite <- E2, <- E3.
  unfold WinntStringSpec.contents. rewrite F2, Hb. set (l := buffer_chars (char_blocks w1) s1) in *.
  rewrite take_take, Nat.min_l, skipn_firstn_comm, (assoc_L (++)) by lia.
  assert (Ht : length (take (Z.to_nat i) l ++ new) = Z.to_nat (i + k)).
  { rewrite length_app, length_take. lia. }
  rewrite take_app, Ht, (take_ge (_ ++ new)) by lia.
  replace (Z.to_nat i + length new)%nat with (Z.to_nat (i + k)) by lia.
  by rewrite <- (assoc_L (++)).
Qed.

(** An insertion that has room does not throw. *)
Lemma insert_impl_room w o s i handler new :
  strings w !! o = Some s -> str_ok (char_blocks w) s -> writes w o s handler new ->
  0 <= i <= size s -> size s + Z.of_nat (length new) <= capacity s ->
  exists w' s', str_insert_impl sizeof_char sso o i handler (Z.of_nat (length new)) w = Ok w' tt /\
    step_to w o s s' w' /\
    contents (char_blocks w') s' = take (Z.to_nat i) (contents (char_blocks w) s) ++ new ++
                                   drop (Z.to_nat i) (contents (char_blocks w) s).
Proof.
  intros Ho Hs Hh Hi Hle. pose proof (so_capacity _ _ _ _ Hs). pose proof (max_size_lt sizeof_char).
  unfold str_insert_impl. rewrite (bind_Ok _ _ _ _ _ (get_str_ok _ _ _ Ho)).
  rewrite !(wrap_small 16), (proj2 (Z.ltb_ge _ _)) by lia. cbv zeta.
  destruct (shift_in_place w o s i (Z.of_nat (length new)) Ho Hs) as (w1 & s1 & Hr & Hst & Hroom); [lia..|].
  destruct (write_room w o s i handler new w1 s1 Ho Hst Hh Hi Hroom) as (w2 & s2 & Hr2 & Hst2 & Hc).
  exists w2, s2. split; [|split; [by eapply step_trans|done]].
  rewrite (bind_Ok _ _ _ w1 tt); [done|]. by rewrite (bind_Ok _ _ _ _ _ (data_ok _ _ _ Ho)).
Qed.

(** An insertion in front of the whole text, that may have to grow. *)
Lemma insert_front_spec w o s handler new :
  strings w !! o = Some s -> str_ok (char_blocks w) s -> writes w o s handler new ->
  size s + Z.of_nat (length new) < 2 ^ 16 ->
  changes w o s (fun b s' => contents b s' = new ++ contents (char_blocks w) s)
    (str_insert_impl sizeof_char sso o 0 handler (Z.of_nat (length new)) w).
Proof.
  intros Ho Hs Hh Hlt. pose proof (so_size _ _ _ _ Hs). pose proof (so_capacity _ _ _ _ Hs).
  destruct (Z.ltb_spec (capacity s) (size s + Z.of_nat (length new))) as [Hc|Hc].
  2: { destruct (insert_impl_room w o s 0 handler new Ho Hs Hh) as (w' & s' & -> & Hst & Ht); [lia..|].
       exists s'. by split. }
  set (k := Z.of_nat (length new)) in *.
  unfold str_insert_impl. rewrite (bind_Ok _ _ _ _ _ (get_str_ok _ _ _ Ho)).
  rewrite !(wrap_small 16) by lia. cbv zeta. rewrite (proj2 (Z.ltb_lt _ _) Hc).
  apply (changes_bind _ _ _ _ _ _ (room_at w s 0 k)); [done| |].
  - assert (Hopt : str_calc_optimal_growth sizeof_char s (size s + k) < 2 ^ 16).
    { unfold str_calc_optimal_growth, str_calc_growth, npos. pose proof (max_size_lt sizeof_char).
      destruct (_ =? _); lia. }
    eapply changes_mono; [apply grow_front_spec; try done; unfold str_calc_optimal_growth; lia|].
    intros b s' (H1 & H2 & H3). split; [done|]. split; [done|exact H3].
  - intros w1 s1 Hst Ho1 Hs1 Hroom.
    apply (write_room w o s 0 handler new w1 s1); try done; lia.
Qed.

(** ** All strings *)

(** The texts after success and after an exception. *)
Definition yields (ts ts_error : gmap nat (list Z)) (r : outcome str_world unit) : Prop :=
  match r with
  | Ok w' _ => world_ok w' /\ texts sizeof_char w' = ts
  | Throw w' e => world_ok w' /\ texts sizeof_char w' = ts_error /\ str_error e
  | _ => False
  end.

Lemma texts_lookup w o s :
  strings w !! o = Some s -> texts sizeof_char w !! o = Some (contents (char_blocks w) s).
Proof. intros H. unfold texts. by rewrite lookup_fmap, H. Qed.

Lemma changes_yields w o s l r :
  world_ok w -> strings w !! o = Some s -> changes w o s (fun b s' => contents b s' = l) r ->
  yields (<[o := l]> (texts sizeof_char w)) (texts sizeof_char w) r.
Proof.
  intros Hw Ho. destruct r as [w' []|w' e| |]; cbn; try done.
  - intros (s' & Hst & <-). by apply (step_world sizeof_char sso w o s).
  - by intros [-> He].
Qed.

(** A new string in its own buffer. *)
Lemma add_small w o s :
  world_ok w -> strings w !! o = None -> str_ok (char_blocks w) s -> str_Buffer s = Sso ->
  let w' := set_strings (<[o := s]> (strings w)) w in
  world_ok w' /\ texts sizeof_char w' = <[o := contents (char_blocks w) s]> (texts sizeof_char w).
Proof.
  intros Hw Ho Hs Hb w'. split; [|apply fmap_insert]. split; cbn [strings char_blocks set_strings w'].
  - intros o' t. rewrite lookup_insert_Some. intros [[<- <-]|[_ Ht]]; [done|].
    by apply (wo_strings _ _ _ Hw o').
  - intros o1 o2 s1 s2 id. rewrite !lookup_insert_Some.
    intros [[<- <-]|[_ H1]] [[<- <-]|[_ H2]] E1 E2; try congruence.
    by apply (wo_distinct _ _ _ Hw o1 o2 s1 s2 id).
  - intros id l Hl. destruct (wo_owned _ _ _ Hw _ _ Hl) as (o' & t & Ht & Hid).
    exists o', t. split; [|done]. rewrite lookup_insert_ne; [done|]. intros ->. congruence.
Qed.

(** A string whose buffer is released and that is no longer counted. *)
Lemma release_buffer_spec w o s :
  world_ok w -> strings w !! o = Some s ->
  exists b, release_buffer sizeof_char sso o w = Ok (set_char_blocks b w) tt /\
    let w' := StrWorld (delete o (strings w)) b in
    world_ok w' /\ texts sizeof_char w' = delete o (texts sizeof_char w).
Proof.
  intros Hw Ho. pose proof (wo_strings _ _ _ Hw _ _ Ho) as Hs.
  assert (Hgen : forall b, (forall id, str_Buffer s <> Heap id -> b !! id = char_blocks w !! id) ->
    (forall id, str_Buffer s = Heap id -> b !! id = None) ->
    let w' := StrWorld (delete o (strings w)) b in
    world_ok w' /\ texts sizeof_char w' = delete o (texts sizeof_char w)).
  { intros b Hf Hd w'.
    assert (Hother : forall o' t, o' <> o -> strings w !! o' = Some t ->
      forall id, str_Buffer t = Heap id -> b !! id = char_blocks w !! id).
    { intros o' t Hne Ht id Hid. apply Hf. intros E. by apply Hne, (wo_distinct _ _ _ Hw o' o t s id). }
    split.
    - split; cbn [strings char_blocks w'].
      + intros o' t. rewrite lookup_delete_Some. intros [Hne Ht].
        apply (contents_frame sizeof_char sso (char_blocks w)); [|by apply (wo_strings _ _ _ Hw o')].
        by apply (Hother o').
      + intros o1 o2 s1 s2 id. rewrite !lookup_delete_Some. intros [_ H1] [_ H2].
        by apply (wo_distinct _ _ _ Hw).
      + intros id l Hl. assert (E : str_Buffer s <> Heap id) by (intros E; by rewrite (Hd id E) in Hl).
        rewrite (Hf id E) in Hl. destruct (wo_owned _ _ _ Hw _ _ Hl) as (o' & t & Ht & Hid).
        exists o', t. split; [|done]. rewrite lookup_delete_ne; [done|]. intros ->. congruence.
    - apply map_eq. intros o'. unfold texts. cbn [strings char_blocks w']. rewrite fmap_delete.
      destruct (decide (o' = o)) as [->|Hne]; [by rewrite !lookup_delete_eq|].
      rewrite !lookup_delete_ne, !lookup_fmap by done.
      destruct (strings w !! o') as [t|] eqn:Ht; [|done]. cbn. f_equal. unfold WinntStringSpec.contents.
      by rewrite (proj1 (contents_frame sizeof_char sso (char_blocks w) b t (Hother o' t Hne Ht))). }
  unfold release_buffer. rewrite (bind_Ok _ _ _ _ _ (get_str_ok _ _ _ Ho)), (is_small_location _ _ _ _ Hs).
  destruct (str_Buffer s) as [|id] eqn:E.
  - exists (char_blocks w). rewrite bool_decide_true by done. split; [by destruct w|]. apply Hgen; done.
  - exists (delete id (char_blocks w)). rewrite bool_decide_false by done. split.
    + unfold deallocate_chars. rewrite (bind_Ok get _ w w w eq_refl).
      by rewrite (own_block _ _ _ _ _ Hs E).
    + apply Hgen; [intros id' Hid; rewrite lookup_delete_ne by congruence; done|].
      intros id' [= ->]. apply lookup_delete_eq.
Qed.

Lemma destroy_string_spec w o s :
  world_ok w -> strings w !! o = Some s ->
  exists w', destroy_string sizeof_char sso o w = Ok w' tt /\ world_ok w' /\
    texts sizeof_char w' = delete o (texts sizeof_char w).
Proof.
  intros Hw Ho. destruct (release_buffer_spec w o s Hw Ho) as (b & Hr & Hok & Ht).
  eexists. split; [unfold destroy_string; by rewrite (bind_Ok _ _ _ _ _ Hr)|]. by split.
Qed.

(** An empty string in its own buffer, whatever the fields were. *)
Lemma as_small_ok b s n :
  Z.of_nat (length (m_buffer s)) = sso -> 0 <= n <= sso ->
  str_ok b (as_small sizeof_char sso n s) /\ size (as_small sizeof_char sso n s) = n /\
  capacity (as_small sizeof_char sso n s) = sso.
Proof.
  intros Hl Hn. pose proof (max_size_range sizeof_char) as [Hmax _].
  pose proof (inner_size_range : 0 < sso <= 32767) as Hsso.
  assert (Hsz : size (as_small sizeof_char sso n s) = n) by (apply (to_ch_bytes sizeof_char); lia).
  assert (Hcp : capacity (as_small sizeof_char sso n s) = sso) by (apply (to_ch_bytes sizeof_char); lia).
  split; [|done]. split; rewrite ?Hsz, ?Hcp; try done; try lia.
  all: cbn; apply (to_bytes_eq sizeof_char); lia.
Qed.

Lemma contents_empty b s : size s = 0 -> contents b s = [].
Proof. intros H. unfold WinntStringSpec.contents. by rewrite H. Qed.

(** ** Construction *)

Lemma construct_empty_spec w o junk :
  world_ok w -> strings w !! o = None -> Z.of_nat (length junk) = sso ->
  exists s, construct_empty sizeof_char sso o junk w = Ok (set_strings (<[o := s]> (strings w)) w) tt /\
    let w' := set_strings (<[o := s]> (strings w)) w in
    world_ok w' /\ size s = 0 /\ texts sizeof_char w' = <[o := []]> (texts sizeof_char w).
Proof.
  intros Hw Ho Hj. set (s := as_small sizeof_char sso 0 (raw_string junk)). exists s.
  pose proof (inner_size_range : 0 < sso <= 32767) as Hsso.
  destruct (as_small_ok (char_blocks w) (raw_string junk) 0 Hj ltac:(lia)) as (Hok & Hsz & _). fold s in Hok, Hsz.
  split.
  - unfold construct_empty, become_small. rewrite (bind_Ok (put_str o _) _ _ _ _ eq_refl).
    rewrite (update_str_ok _ o (raw_string junk)) by apply lookup_insert_eq.
    unfold set_strings; cbn. by rewrite insert_insert_eq.
  - destruct (add_small w o s Hw Ho Hok eq_refl) as [H1 H2]. split; [done|]. split; [done|].
    by rewrite H2, contents_empty.
Qed.

(** A constructor that fills the empty string. *)
Lemma construct_with w o junk handler new :
  world_ok w -> strings w !! o = None -> Z.of_nat (length junk) = sso ->
  Z.of_nat (length new) < 2 ^ 16 ->
  (forall s, world_ok (set_strings (<[o := s]> (strings w)) w) ->
     writes (set_strings (<[o := s]> (strings w)) w) o s handler new) ->
  yields (<[o := new]> (texts sizeof_char w)) (texts sizeof_char w)
    (constructing o (_ ← construct_empty sizeof_char sso o junk;
       concat_without_transfer_old_data sizeof_char sso o handler (Z.of_nat (length new))) w).
Proof.
  intros Hw Ho Hj Hlt Hh. destruct (construct_empty_spec w o junk Hw Ho Hj) as (s & Hc & Hw1 & Hsz & Ht).
  set (w1 := set_strings (<[o := s]> (strings w)) w) in *.
  assert (Ho1 : strings w1 !! o = Some s) by apply lookup_insert_eq.
  unfold constructing. rewrite (bind_Ok _ _ _ _ _ Hc).
  pose proof (fill_empty_spec sizeof_char sso w1 o s handler new Ho1 (wo_strings _ _ _ Hw1 _ _ Ho1)
    (Hh s Hw1) Hsz Hlt) as Hf.
  destruct (concat_without_transfer_old_data _ _ _ _ _ w1) as [w2 []|w2 e| |]; cbn in Hf; try done.
  - apply (changes_yields w1 o s new (Ok w2 tt)) in Hf; [|done|done]. cbn in *. destruct Hf as [H1 H2].
    split; [done|]. by rewrite H2, Ht, insert_insert_eq.
  - destruct Hf as [-> He].
    assert (Hback : set_strings (delete o (strings w1)) w1 = w).
    { unfold w1, set_strings. cbn. rewrite delete_insert_id by done. by destruct w. }
    rewrite Hback. done.
Qed.

Lemma construct_fill_spec w o junk n ch :
  world_ok w -> strings w !! o = None -> Z.of_nat (length junk) = sso -> Z.of_nat n < 2 ^ 16 ->
  yields (<[o := replicate n ch]> (texts sizeof_char w)) (texts sizeof_char w)
    (construct_fill sizeof_char sso o junk (Z.of_nat n) ch w).
Proof.
  intros Hw Ho Hj Hn. pose proof (construct_with w o junk (fill_helper ch) (replicate n ch)) as H.
  rewrite length_replicate in H. apply H; try done. intros s _. apply writes_fill.
Qed.

Lemma construct_outside_spec w o junk text n :
  world_ok w -> strings w !! o = None -> Z.of_nat (length junk) = sso ->
  (n <= length text)%nat -> Z.of_nat n < 2 ^ 16 ->
  yields (<[o := take n text]> (texts sizeof_char w)) (texts sizeof_char w)
    (construct_chars sizeof_char sso o junk (Outside text) (Z.of_nat n) w).
Proof.
  intros Hw Ho Hj Hle Hn. assert (Hl : length (take n text) = n) by (rewrite length_take; lia).
  pose proof (construct_with w o junk (copy_helper (Outside text)) (take n text)) as H.
  rewrite Hl in H. apply H; try done. intros s _. by apply writes_outside.
Qed.

(** From a part of another string. *)
Lemma construct_other_spec w o junk o' t pos n :
  world_ok w -> strings w !! o = None -> Z.of_nat (length junk) = sso ->
  strings w !! o' = Some t -> 0 <= pos -> 0 <= n -> pos + n <= size t ->
  yields (<[o := take (Z.to_nat n) (drop (Z.to_nat pos) (contents (char_blocks w) t))]> (texts sizeof_char w))
    (texts sizeof_char w)
    (construct_chars sizeof_char sso o junk (ptr_add (loc_ptr o' (str_Buffer t)) pos) n w).
Proof.
  intros Hw Ho Hj Ho' Hp Hn Hle. pose proof (wo_strings _ _ _ Hw _ _ Ho') as Hok.
  pose proof (length_contents _ _ _ _ Hok) as Hlc. pose proof (so_size _ _ _ _ Hok).
  pose proof (so_capacity _ _ _ _ Hok). pose proof (max_size_lt sizeof_char).
  set (new := take _ (drop _ _)).
  assert (Hl : Z.of_nat (length new) = n) by (unfold new; rewrite length_take, length_drop; lia).
  pose proof (construct_with w o junk (copy_helper (ptr_add (loc_ptr o' (str_Buffer t)) pos)) new) as Hc.
  rewrite Hl in Hc. apply Hc; [done..|lia|]. intros s Hw1. apply (writes_other sizeof_char sso (set_strings (<[o := s]> (strings w)) w) o s o' t pos n); try done.
  - apply lookup_insert_eq.
  - cbn. rewrite lookup_insert_ne; [done|]. intros ->. congruence.
  - intros ->. congruence.
Qed.

(** ** Moving *)

Lemma become_small_step w o s n :
  strings w !! o = Some s -> str_ok (char_blocks w) s -> str_Buffer s = Sso -> 0 <= n <= sso ->
  exists w', become_small sizeof_char sso o n w = Ok w' tt /\ char_blocks w' = char_blocks w /\
    step_to w o s (as_small sizeof_char sso n s) w'.
Proof.
  intros Ho Hs Hb Hn. eexists. split; [by apply update_str_ok|]. split; [done|].
  split; cbn [strings char_blocks set_strings]; try done.
  - by apply as_small_ok, Hn; apply Hs.
  - intros id Hid. congruence.
Qed.

(** The fields of another string with one's own buffer. *)
Definition same_fields (s : winnt_string) (buf : list Z) : winnt_string :=
  WinntStr (str_Buffer s) (str_Length s) (str_MaximumLength s) buf.

(** The text is copied from one inner buffer to the other. *)
Lemma take_text_small w o other s buf :
  world_ok w -> strings w !! o = None -> strings w !! other = Some s -> str_Buffer s = Sso ->
  Z.of_nat (length buf) = sso ->
  exists w', (_ ← copy_chars (loc_ptr o Sso) (loc_ptr other Sso) (size s);
              become_small sizeof_char sso other 0)
      (set_strings (<[o := same_fields s buf]> (strings w)) w) = Ok w' tt /\
    world_ok w' /\
    texts sizeof_char w' = <[other := []]> (<[o := contents (char_blocks w) s]> (texts sizeof_char w)).
Proof.
  intros Hw Ho Hs Hb Hbuf. set (u := same_fields s buf).
  pose proof (wo_strings _ _ _ Hw _ _ Hs) as Hok. pose proof (so_size _ _ _ _ Hok) as Hsz.
  pose proof (length_contents _ _ _ _ Hok) as Hlc. pose proof (inner_size_range : 0 < sso <= 32767) as Hsso.
  assert (Hne : other <> o) by (intros ->; congruence).
  assert (Hu : str_ok (char_blocks w) u).
  { destruct Hok. split; try done. unfold buffer_chars, u; cbn. rewrite Hb in *. by rewrite Hbuf. }
  destruct (add_small w o u Hw Ho Hu Hb) as [Hw1 Ht1].
  set (w1 := set_strings (<[o := u]> (strings w)) w) in *.
  assert (Ho1 : strings w1 !! o = Some u) by apply lookup_insert_eq.
  assert (Hs1 : strings w1 !! other = Some s) by (cbn; by rewrite lookup_insert_ne).
  pose proof (read_own sizeof_char sso w1 other s 0 (size s) Hs1 (wo_strings _ _ _ Hw1 _ _ Hs1)) as Hr.
  assert (Hsu : size u = size s) by done. assert (Hcu : capacity u = capacity s) by done.
  destruct (rewrite_own sizeof_char sso w1 o u 0 (contents (char_blocks w) s) (size u) Ho1 Hu)
    as (w2 & u2 & Hwr & Hst & _ & _ & F2 & _ & Hbuf2 & _); [lia..|].
  rewrite Hb in Hr. change (str_Buffer u) with (str_Buffer s) in Hwr.
  rewrite Hb in Hwr. rewrite ptr_add_0 in Hr, Hwr.
  destruct (step_world _ _ _ _ _ _ _ Hw1 Ho1 Hst) as [Hw2 Ht2].
  assert (Hs2 : strings w2 !! other = Some s).
  { rewrite (st_strings _ _ _ _ _ _ _ Hst). by rewrite lookup_insert_ne. }
  destruct (become_small_step w2 other s 0 Hs2 (wo_strings _ _ _ Hw2 _ _ Hs2) Hb)
    as (w3 & Hbs & Hb3 & Hst3); [lia|].
  destruct (step_world _ _ _ _ _ _ _ Hw2 Hs2 Hst3) as [Hw3 Ht3].
  exists w3. split.
  - rewrite (bind_Ok _ _ _ w2 tt); [exact Hbs|]. unfold copy_chars.
    rewrite (bind_Ok _ _ _ _ _ (Hr ltac:(lia) ltac:(lia) ltac:(lia))). exact Hwr.
  - split; [done|]. rewrite Ht3, Ht2, Ht1, insert_insert_eq. rewrite contents_empty.
    2: { apply (as_small_ok (char_blocks w) s 0 (so_inner _ _ _ _ Hok)). lia. }
    f_equal. f_equal. unfold WinntStringSpec.contents at 1. rewrite F2, Hbuf2, Hsu.
    change (take (Z.to_nat 0) _) with (@nil Z). rewrite app_nil_l. rewrite take_app_le by lia. apply take_ge. lia.
Qed.

(** The block of the allocator changes hands. *)
Lemma give_block w o other s id buf :
  world_ok w -> strings w !! o = None -> strings w !! other = Some s -> str_Buffer s = Heap id ->
  Z.of_nat (length buf) = sso ->
  exists w', become_small sizeof_char sso other 0
      (set_strings (<[o := same_fields s buf]> (strings w)) w) = Ok w' tt /\
    world_ok w' /\
    texts sizeof_char w' = <[other := []]> (<[o := contents (char_blocks w) s]> (texts sizeof_char w)).
Proof.
  intros Hw Ho Hs Hb Hbuf. set (u := same_fields s buf). set (t := as_small sizeof_char sso 0 s).
  pose proof (wo_strings _ _ _ Hw _ _ Hs) as Hok. pose proof (inner_size_range : 0 < sso <= 32767) as Hsso.
  assert (Hne : other <> o) by (intros ->; congruence).
  destruct (as_small_ok (char_blocks w) s 0 (so_inner _ _ _ _ Hok) ltac:(lia)) as (Ht & Htz & _).
  fold t in Ht, Htz.
  assert (Hu : str_ok (char_blocks w) u).
  { destruct Hok as [?????? Hch]. split; try done. revert Hch. unfold buffer_chars, u. cbn. by rewrite Hb. }
  eexists. split; [apply (update_str_ok _ _ s); cbn; by rewrite lookup_insert_ne|]. fold t. split.
  - split; cbn [strings char_blocks set_strings].
    + intros o' v. rewrite !lookup_insert_Some. intros [[<- <-]|[_ [[<- <-]|[_ Hv]]]]; [done|done|].
      by apply (wo_strings _ _ _ Hw o').
    + intros o1 o2 s1 s2 i. rewrite !lookup_insert_Some.
      intros [[<- <-]|[N1 [[<- <-]|[M1 H1]]]] [[<- <-]|[N2 [[<- <-]|[M2 H2]]]] E1 E2; try done.
      * exfalso. apply N2. symmetry. by apply (wo_distinct _ _ _ Hw o2 other s2 s i).
      * exfalso. apply N1. symmetry. by apply (wo_distinct _ _ _ Hw o1 other s1 s i).
      * by apply (wo_distinct _ _ _ Hw o1 o2 s1 s2 i).
    + intros i l Hl. destruct (wo_owned _ _ _ Hw _ _ Hl) as (o' & v & Hv & Hi).
      destruct (decide (o' = other)) as [->|Ho'].
      * exists o, u. rewrite lookup_insert_ne, lookup_insert_eq by done. split; [done|].
        unfold u; cbn. congruence.
      * exists o', v. split; [|done]. rewrite !lookup_insert_ne; [done| |done]. intros ->. congruence.
  - unfold texts. cbn [strings char_blocks set_strings]. rewrite !fmap_insert.
    rewrite (contents_empty _ t Htz).
    replace (contents (char_blocks w) u) with (contents (char_blocks w) s); [done|].
    unfold WinntStringSpec.contents, buffer_chars, u. cbn. by rewrite Hb.
Qed.

Lemma move_construct_spec w o junk other s :
  world_ok w -> strings w !! o = None -> Z.of_nat (length junk) = sso -> strings w !! other = Some s ->
  yields (<[other := []]> (<[o := contents (char_blocks w) s]> (texts sizeof_char w)))
    (texts sizeof_char w) (str_move_construct sizeof_char sso o junk other w).
Proof.
  intros Hw Ho Hj Hs. pose proof (wo_strings _ _ _ Hw _ _ Hs) as Hok.
  unfold str_move_construct. rewrite (bind_Ok _ _ _ _ _ (get_str_ok _ _ _ Hs)).
  rewrite (bind_Ok (put_str o _) _ _ _ _ eq_refl), (is_small_location _ _ _ _ Hok).
  destruct (str_Buffer s) as [|id] eqn:E.
  - rewrite bool_decide_true by done.
    destruct (take_text_small w o other s junk Hw Ho Hs E Hj) as (w' & Hrun & H1 & H2).
    unfold same_fields in Hrun. rewrite E in Hrun.
    set (w1 := set_strings _ w) in *.
    assert (Hup : update_str o (with_buffer Sso) w1 = Ok w1 tt).
    { rewrite (update_str_ok _ o (WinntStr Sso (str_Length s) (str_MaximumLength s) junk))
        by apply lookup_insert_eq.
      unfold with_buffer, w1, set_strings. cbn. by rewrite insert_insert_eq. }
    unfold mbind, M_bind in *. rewrite Hup. destruct (copy_chars _ _ _ w1); try done.
    rewrite Hrun. done.
  - rewrite bool_decide_false by done. rewrite ret_bind.
    destruct (give_block w o other s id junk Hw Ho Hs E Hj) as (w' & Hrun & H1 & H2).
    unfold same_fields in Hrun. rewrite E in Hrun. rewrite Hrun. done.
Qed.

(** ** Assignment *)

Lemma copy_assign_spec w o other u s :
  world_ok w -> strings w !! o = Some u -> strings w !! other = Some s ->
  yields (<[o := contents (char_blocks w) s]> (texts sizeof_char w))
    (<[o := []]> (texts sizeof_char w)) (str_copy_assign sizeof_char sso o other w).
Proof.
  intros Hw Ho Hs. pose proof (wo_strings _ _ _ Hw _ _ Hs) as Hok.
  unfold str_copy_assign. destruct (decide (o = other)) as [->|Hne].
  { cbn. split; [done|]. simplify_eq. by rewrite insert_id by by apply texts_lookup. }
  destruct (release_buffer_spec w o u Hw Ho) as (b & Hr & Hw0 & Ht0). rewrite (bind_Ok _ _ _ _ _ Hr).
  set (w0 := StrWorld (delete o (strings w)) b) in *. set (e := as_small sizeof_char sso 0 u).
  pose proof (inner_size_range : 0 < sso <= 32767) as Hsso.
  destruct (as_small_ok b u 0 (so_inner _ _ _ _ (wo_strings _ _ _ Hw _ _ Ho)) ltac:(lia)) as (He & Hez & _).
  fold e in He, Hez.
  destruct (add_small w0 o e Hw0 (lookup_delete_eq _ _) He eq_refl) as [Hw1 Ht1].
  rewrite (contents_empty _ e Hez), Ht0, insert_delete_eq in Ht1.
  set (w1 := set_strings (<[o := e]> (strings w0)) w0) in *.
  rewrite (bind_Ok (become_small _ _ _ _) _ _ w1 tt).
  2: { unfold become_small. rewrite (update_str_ok _ o u) by done. unfold w1, w0, set_strings. cbn.
       by rewrite insert_delete_eq. }
  assert (Hs1 : strings w1 !! other = Some s) by (cbn; by rewrite lookup_insert_ne, lookup_delete_ne).
  assert (Ho1 : strings w1 !! o = Some e) by apply lookup_insert_eq.
  pose proof (wo_strings _ _ _ Hw1 _ _ Hs1) as Hok1. pose proof (so_size _ _ _ _ Hok1).
  pose proof (so_capacity _ _ _ _ Hok1). pose proof (max_size_lt sizeof_char).
  assert (Hc : contents (char_blocks w1) s = contents (char_blocks w) s).
  { assert (texts sizeof_char w1 !! other = texts sizeof_char w !! other) as E
      by (by rewrite Ht1, lookup_insert_ne).
    rewrite (texts_lookup w1 other s Hs1), (texts_lookup w other s Hs) in E. by injection E. }
  rewrite (bind_Ok _ _ _ _ _ (get_str_ok _ _ _ Hs1)).
  pose proof (length_contents _ _ _ _ Hok1) as Hlc. rewrite Hc in Hlc.
  pose proof (fill_empty_spec sizeof_char sso w1 o e
    (copy_helper (loc_ptr other (str_Buffer s))) (contents (char_blocks w) s) Ho1 He) as Hf.
  rewrite Hlc in Hf. apply (changes_yields w1 o e) in Hf; [|done|done| |done|lia].
  - by rewrite Ht1, insert_insert_eq in Hf.
  - pose proof (writes_other sizeof_char sso w1 o e other s 0 (size s) Hw1 Ho1 Hs1) as Hwr.
    rewrite ptr_add_0, Hc in Hwr.
    change (drop (Z.to_nat 0) ?l) with l in Hwr. rewrite take_ge in Hwr by lia. apply Hwr; [done|lia..].
Qed.

Lemma move_assign_spec w o other u s :
  world_ok w -> strings w !! o = Some u -> strings w !! other = Some s -> o <> other ->
  yields (<[other := []]> (<[o := contents (char_blocks w) s]> (texts sizeof_char w)))
    (texts sizeof_char w) (str_move_assign sizeof_char sso o other w).
Proof.
  intros Hw Ho Hs Hne. pose proof (wo_strings _ _ _ Hw _ _ Hs) as Hok.
  pose proof (so_inner _ _ _ _ (wo_strings _ _ _ Hw _ _ Ho)) as Hu.
  unfold str_move_assign. rewrite decide_False by done.
  destruct (release_buffer_spec w o u Hw Ho) as (b & Hr & Hw0 & Ht0). rewrite (bind_Ok _ _ _ _ _ Hr).
  set (w0 := StrWorld (delete o (strings w)) b) in *.
  assert (Hs0 : strings w0 !! other = Some s) by (cbn; by rewrite lookup_delete_ne).
  assert (Ho0 : strings w0 !! o = None) by apply lookup_delete_eq.
  assert (Hc : contents (char_blocks w0) s = contents (char_blocks w) s).
  { assert (texts sizeof_char w0 !! other = texts sizeof_char w !! other) as E
      by (by rewrite Ht0, lookup_delete_ne).
    rewrite (texts_lookup w0 other s Hs0), (texts_lookup w other s Hs) in E. by injection E. }
  rewrite (bind_Ok (get_str other) _ _ (set_char_blocks b w) s) by by apply get_str_ok.
  rewrite (is_small_location _ _ _ _ Hok).
  assert (Hput : forall x, set_strings (<[o := x]> (strings w)) (set_char_blocks b w) =
    set_strings (<[o := x]> (strings w0)) w0).
  { intros x. unfold w0, set_strings, set_char_blocks. cbn. by rewrite insert_delete_eq. }
  destruct (str_Buffer s) as [|id] eqn:E.
  - rewrite bool_decide_true by done.
    destruct (take_text_small w0 o other s (m_buffer u) Hw0 Ho0 Hs0 E Hu) as (w' & Hrun & H1 & H2).
    assert (Hsf : as_small sizeof_char sso (size s) u = same_fields s (m_buffer u)).
    { pose proof (so_size _ _ _ _ Hok). pose proof (so_capacity _ _ _ _ Hok).
      pose proof (so_location _ _ _ _ Hok) as Hl. rewrite E in Hl.
      unfold as_small, same_fields, with_capacity, with_size, with_buffer. cbn. rewrite E.
      f_equal; rewrite (to_bytes_eq sizeof_char) by lia; symmetry; [apply Hok|].
      rewrite <- Hl. apply Hok. }
    unfold mbind, M_bind in *. unfold become_small at 1. rewrite (update_str_ok _ o u) by done.
    cbn [strings set_char_blocks]. rewrite Hput, Hsf. destruct (copy_chars _ _ _ _); try done.
    rewrite Hrun. cbn. split; [done|]. by rewrite H2, Ht0, insert_delete_eq, Hc.
  - rewrite bool_decide_false by done.
    destruct (give_block w0 o other s id (m_buffer u) Hw0 Ho0 Hs0 E Hu) as (w' & Hrun & H1 & H2).
    rewrite (bind_Ok _ _ _ (set_strings (<[o := same_fields s (m_buffer u)]> (strings w0)) w0) tt).
    2: { rewrite (bind_Ok (get_str o) _ _ (set_char_blocks b w) u) by by apply get_str_ok.
         unfold put_str, modify. cbn [strings set_char_blocks]. rewrite Hput. unfold same_fields.
         by rewrite E. }
    rewrite Hrun. cbn. split; [done|]. by rewrite H2, Ht0, insert_delete_eq, Hc.
Qed.

Lemma assign_outside_spec w o s text n :
  world_ok w -> strings w !! o = Some s -> (n <= length text)%nat -> Z.of_nat n < 2 ^ 16 ->
  yields (<[o := take n text]> (texts sizeof_char w)) (<[o := []]> (texts sizeof_char w))
    (assign_chars sizeof_char sso o (Outside text) (Z.of_nat n) w).
Proof.
  intros Hw Ho Hle Hn. pose proof (wo_strings _ _ _ Hw _ _ Ho) as Hok.
  destruct (str_clear_spec sizeof_char sso w o s Ho Hok) as (w1 & Hr & Hst & Hz).
  set (e := with_size sizeof_char 0 s) in *.
  destruct (step_world _ _ _ _ _ _ _ Hw Ho Hst) as [Hw1 Ht1].
  assert (Ho1 : strings w1 !! o = Some e).
  { rewrite (st_strings _ _ _ _ _ _ _ Hst). apply lookup_insert_eq. }
  rewrite (contents_empty _ e Hz) in Ht1.
  assert (Hl : length (take n text) = n) by (rewrite length_take; lia).
  unfold assign_chars. rewrite (bind_Ok _ _ _ _ _ Hr).
  pose proof (fill_empty_spec sizeof_char sso w1 o e (copy_helper (Outside text)) (take n text) Ho1
    (wo_strings _ _ _ Hw1 _ _ Ho1)) as Hf. rewrite Hl in Hf.
  apply (changes_yields w1 o e) in Hf; [|done|done|by apply writes_outside|done|done].
  by rewrite Ht1, insert_insert_eq in Hf.
Qed.

Lemma assign_ch_spec w o s ch :
  world_ok w -> strings w !! o = Some s ->
  yields (<[o := [ch]]> (texts sizeof_char w)) (texts sizeof_char w) (assign_ch sizeof_char o ch w).
Proof.
  intros Hw Ho. pose proof (wo_strings _ _ _ Hw _ _ Ho) as Hok.
  pose proof (so_capacity _ _ _ _ Hok). pose proof (inner_size_range : 0 < sso <= 32767).
  destruct (rewrite_own sizeof_char sso w o s 0 [ch] 1 Ho Hok)
    as (w1 & s1 & Hwr & _ & _ & _ & _ & _ & _ & w' & Hu & Hst & _ & Hc); [cbn; lia..|].
  rewrite ptr_add_0 in Hwr. unfold assign_ch. rewrite (bind_Ok _ _ _ _ _ (data_ok _ _ _ Ho)).
  unfold fill_chars. change (replicate (Z.to_nat 1) ch) with [ch].
  rewrite (bind_Ok _ _ _ _ _ Hwr), Hu. apply (changes_yields w o s [ch] (Ok w' tt)); [done|done|].
  cbn. eexists. split; [exact Hst|]. by rewrite Hc.
Qed.
End life.
