(* ===== verification/WinntStringContract.v ===== *)
(** * The contract of owning strings

    All strings as a map from their identities to their texts; the operations of the
    strings implement the operations on texts. *)
From Stdlib Require Import ZArith Lia.
From stdpp Require Import base list gmap numbers.
From S2P Require Import Prelude Refinement Algorithms StringView.
From S2P Require Import WinntString WinntStringSpec WinntStringOps WinntStringLife.
#[local] Open Scope Z_scope.

(** ** Operations on texts *)

Inductive text_op :=
  | TEmpty (o : nat)
  | TFill (o n : nat) (ch : Z)
  | TText (o : nat) (text : list Z)
  | TCopy (o other : nat)
  | TMove (o other : nat)
  | TSubstr (o other pos count : nat)
  | TDestroy (o : nat)
  | TAssign (o other : nat)
  | TMoveAssign (o other : nat)
  | TAssignText (o : nat) (text : list Z)
  | TAssignCh (o : nat) (ch : Z)
  | TPush (o : nat) (ch : Z)
  | TPop (o : nat)
  | TAppend (o : nat) (text : list Z)
  | TAppendString (o other : nat)
  | TAppendPart (o other pos count : nat)
  | TAppendFill (o n : nat) (ch : Z)
  | TAppendRange (o : nat) (text : list Z)
  | TInsert (o i : nat) (text : list Z)
  | TErase (o i n : nat)
  | TEraseBetween (o first last : nat)
  | TResize (o n : nat) (ch : Z)
  | TReserve (o n : nat)
  | TClear (o : nat)
  | TAt (o i : nat)
  | TCopyOut (o count pos : nat).

Inductive text_result := TDone | TChar (ch : Z) | TString (l : list Z) | TOutOfRange.

Abbreviation text_map := (gmap nat (list Z)).

(** A part of a text; a position behind the end is refused. *)
Definition part (l : list Z) (pos count : nat) : option (list Z) :=
  if decide (pos <= length l)%nat then Some (take count (drop pos l)) else None.

Definition set_text (o : nat) (l : list Z) (ts : text_map) : text_map * text_result :=
  (<[o := l]> ts, TDone).
Definition set_part (o : nat) (l : option (list Z)) (ts : text_map) : text_map * text_result :=
  match l with Some l => set_text o l ts | None => (ts, TOutOfRange) end.

Definition text_of (ts : text_map) (o : nat) : list Z := default [] (ts !! o).

Definition text_spec (op : text_op) (ts : text_map) : text_map * text_result :=
  match op with
  | TEmpty o => set_text o [] ts
  | TFill o n ch => set_text o (replicate n ch) ts
  | TText o text | TAssignText o text => set_text o text ts
  | TCopy o o' | TAssign o o' => set_text o (text_of ts o') ts
  | TMove o o' => (<[o' := []]> (<[o := text_of ts o']> ts), TDone)
  | TMoveAssign o o' =>
      (if decide (o = o') then ts else <[o' := []]> (<[o := text_of ts o']> ts), TDone)
  | TSubstr o o' pos count => set_part o (part (text_of ts o') pos count) ts
  | TDestroy o => (delete o ts, TDone)
  | TAssignCh o ch => set_text o [ch] ts
  | TPush o ch => set_text o (text_of ts o ++ [ch]) ts
  | TPop o => set_text o (removelast (text_of ts o)) ts
  | TAppend o text | TAppendRange o text => set_text o (text_of ts o ++ text) ts
  | TAppendString o o' => set_text o (text_of ts o ++ text_of ts o') ts
  | TAppendPart o o' pos count =>
      set_part o (app (text_of ts o) <$> part (text_of ts o') pos count) ts
  | TAppendFill o n ch => set_text o (text_of ts o ++ replicate n ch) ts
  | TInsert o i text =>
      let l := text_of ts o in
      set_part o (if decide (i <= length l)%nat then Some (take i l ++ text ++ drop i l) else None) ts
  | TErase o i n =>
      let l := text_of ts o in
      set_part o (if decide (i <= length l)%nat then Some (take i l ++ drop (i + n) l) else None) ts
  | TEraseBetween o first last =>
      set_text o (take first (text_of ts o) ++ drop last (text_of ts o)) ts
  | TResize o n ch =>
      let l := text_of ts o in set_text o (take n l ++ replicate (n - length l) ch) ts
  | TReserve _ _ => (ts, TDone)
  | TClear o => set_text o [] ts
  | TAt o i => (ts, match text_of ts o !! i with Some ch => TChar ch | None => TOutOfRange end)
  | TCopyOut o count pos =>
      (ts, match part (text_of ts o) pos count with Some l => TString l | None => TOutOfRange end)
  end.

(** The operations the contract covers: strings that exist or do not, texts that 16 bits can
    count and a growth that 16 bits can double, no string appended to itself, an insertion at
    the front, at the end or behind it.  What happens outside of it is in WinntStringTheorems. *)
Definition len (ts : text_map) (o : nat) : Z := Z.of_nat (length (text_of ts o)).
Definition unused (ts : text_map) (o : nat) : Prop := ts !! o = None.
Definition live (ts : text_map) (o : nat) : Prop := is_Some (ts !! o).

Definition text_ok (op : text_op) (ts : text_map) : Prop :=
  match op with
  | TEmpty o => unused ts o
  | TFill o n _ => unused ts o /\ Z.of_nat n < 2 ^ 16
  | TText o text => unused ts o /\ Z.of_nat (length text) < 2 ^ 16
  | TCopy o o' | TMove o o' | TSubstr o o' _ _ => unused ts o /\ live ts o'
  | TDestroy o | TClear o | TReserve o _ | TAt o _ | TCopyOut o _ _ | TErase o _ _
  | TAssignCh o _ | TResize o _ _ => live ts o
  | TAssign o o' | TMoveAssign o o' => live ts o /\ live ts o'
  | TAssignText o text => live ts o /\ Z.of_nat (length text) < 2 ^ 16
  | TPush o _ => live ts o /\ len ts o <= 32767
  | TPop o => live ts o /\ 0 < len ts o
  | TAppend o text => live ts o /\ len ts o + Z.of_nat (length text) < 2 ^ 16
  | TAppendString o o' => live ts o /\ live ts o' /\ o <> o' /\ len ts o + len ts o' < 2 ^ 16
  | TAppendPart o o' pos count => live ts o /\ live ts o' /\ o <> o' /\
      len ts o + Z.min (Z.of_nat count) (len ts o') < 2 ^ 16
  | TAppendFill o n _ => live ts o /\ len ts o + Z.of_nat n < 2 ^ 16
  | TAppendRange o text => live ts o /\ len ts o + Z.of_nat (length text) <= 32768
  | TInsert o i text => live ts o /\ len ts o + Z.of_nat (length text) < 2 ^ 16 /\
      (i = 0 \/ length (text_of ts o) <= i)%nat
  | TEraseBetween o first last => live ts o /\ (first <= last <= length (text_of ts o))%nat
  end.

#[export] Instance live_dec ts o : Decision (live ts o).
Proof. unfold live. apply _. Defined.
#[export] Instance unused_dec ts o : Decision (unused ts o).
Proof. unfold unused. apply _. Defined.
#[export] Instance text_ok_dec op ts : Decision (text_ok op ts).
Proof. destruct op; cbn; apply _. Defined.

(** The texts when an operation throws: an assignment has emptied its target, a range
    has been appended in part, everything else is unchanged. *)
Definition after_throw (op : text_op) (ts ts' : text_map) : Prop :=
  match op with
  | TAssign o _ | TAssignText o _ => ts' = <[o := []]> ts
  | TAppendRange o text => exists k, ts' = <[o := text_of ts o ++ take k text]> ts
  | _ => ts' = ts
  end.

(** ** The strings as an implementation *)

Section contract.
Context (sizeof_char : Z) (sso : Z) (junk : list Z) `{A : char_memory}.

Definition finish (m : M str_world unit) : M str_world text_result := _ ← m; mret TDone.
Definition or_out_of_range (m : M str_world text_result) : M str_world text_result := fun w =>
  match m w with Throw w' out_of_range => Ok w' TOutOfRange | r => r end.

Definition text_step (op : text_op) : M str_world text_result :=
  or_out_of_range match op with
  | TEmpty o => finish (construct_empty sizeof_char sso o junk)
  | TFill o n ch => finish (construct_fill sizeof_char sso o junk (Z.of_nat n) ch)
  | TText o text =>
      finish (construct_chars sizeof_char sso o junk (Outside text) (Z.of_nat (length text)))
  | TCopy o o' => finish (str_copy_construct sizeof_char sso o junk o')
  | TMove o o' => finish (str_move_construct sizeof_char sso o junk o')
  | TSubstr o o' pos count =>
      finish (str_substr sizeof_char sso o junk o' (Z.of_nat pos) (Z.of_nat count))
  | TDestroy o => finish (destroy_string sizeof_char sso o)
  | TAssign o o' => finish (str_copy_assign sizeof_char sso o o')
  | TMoveAssign o o' => finish (str_move_assign sizeof_char sso o o')
  | TAssignText o text => finish (assign_chars sizeof_char sso o (Outside text) (Z.of_nat (length text)))
  | TAssignCh o ch => finish (assign_ch sizeof_char o ch)
  | TPush o ch => finish (push_back sizeof_char sso o ch)
  | TPop o => finish (str_pop_back sizeof_char o)
  | TAppend o text => finish (append_chars sizeof_char sso o (Outside text) (Z.of_nat (length text)))
  | TAppendString o o' => finish (append_string sizeof_char sso o o')
  | TAppendPart o o' pos count =>
      finish (append_part sizeof_char sso o o' (Z.of_nat pos) (Z.of_nat count))
  | TAppendFill o n ch => finish (append_fill sizeof_char sso o (Z.of_nat n) ch)
  | TAppendRange o text => finish (append_range sizeof_char sso o text)
  | TInsert o i text =>
      finish (insert_chars sizeof_char sso o (Z.of_nat i) (Outside text) (Z.of_nat (length text)))
  | TErase o i n => finish (str_erase sizeof_char o (Z.of_nat i) (Z.of_nat n))
  | TEraseBetween o first last =>
      finish (erase_between sizeof_char o (Z.of_nat first) (Z.of_nat last))
  | TResize o n ch => finish (str_resize sizeof_char sso o (Z.of_nat n) ch)
  | TReserve o n => finish (str_reserve sizeof_char sso o (Z.of_nat n))
  | TClear o => finish (str_clear sizeof_char o)
  | TAt o i => ch ← str_at sizeof_char o (Z.of_nat i); mret (TChar ch)
  | TCopyOut o count pos =>
      l ← str_copy sizeof_char o (Z.of_nat count) (Z.of_nat pos); mret (TString l)
  end.

Context {char_size : char_width sizeof_char} {sso_range : inner_size sso}.
Context (junk_length : Z.of_nat (length junk) = sso).

Abbreviation size := (str_size sizeof_char).
Abbreviation contents := (contents sizeof_char).
Abbreviation world_ok := (world_ok sizeof_char sso).
Abbreviation texts := (texts sizeof_char).

(** The operation has done what the contract says, or has thrown. *)
Definition meets (op : text_op) (ts : text_map) (r : outcome str_world text_result) : Prop :=
  match r with
  | Ok w' v => world_ok w' /\ texts w' = (text_spec op ts).1 /\ v = (text_spec op ts).2
  | Throw w' e => world_ok w' /\ after_throw op ts (texts w') /\ str_error e
  | _ => False
  end.

Lemma yields_meets op m w ts T E :
  yields sizeof_char sso T E (m w) -> text_spec op ts = (T, TDone) -> after_throw op ts E ->
  meets op ts (or_out_of_range (finish m) w).
Proof.
  intros Hy Hs He. unfold or_out_of_range, finish, mbind, M_bind.
  destruct (m w) as [w' []|w' e| |]; cbn in *; try done.
  - rewrite Hs. tauto.
  - destruct Hy as (H1 & H2 & [-> | ->]); cbn; rewrite H2; unfold str_error; tauto.
Qed.

Lemma live_inv w o :
  world_ok w -> live (texts w) o ->
  exists s, strings w !! o = Some s /\ text_of (texts w) o = contents (char_blocks w) s /\
    len (texts w) o = size s /\ str_ok sizeof_char sso (char_blocks w) s /\
    0 <= size s < 2 ^ 16.
Proof.
  intros Hw [l Hl]. unfold texts in Hl. rewrite lookup_fmap in Hl.
  destruct (strings w !! o) as [s|] eqn:E; [|done]. exists s.
  pose proof (wo_strings _ _ _ Hw _ _ E) as Hok.
  assert (Ht : text_of (texts w) o = contents (char_blocks w) s).
  { unfold text_of. by rewrite (texts_lookup _ w o s E). }
  pose proof (so_size _ _ _ _ Hok). pose proof (so_capacity _ _ _ _ Hok).
  pose proof (max_size_lt sizeof_char).
  split; [done|]. split; [done|]. split; [|split; [done|lia]]. unfold len. rewrite Ht.
  by apply (length_contents sizeof_char sso).
Qed.

Lemma unused_string w o : unused (texts w) o -> strings w !! o = None.
Proof. unfold unused, WinntStringSpec.texts. rewrite lookup_fmap. by destruct (strings w !! o). Qed.

Lemma changes_meets op m w o s l :
  world_ok w -> strings w !! o = Some s ->
  changes sizeof_char sso w o s (fun b s' => contents b s' = l) (m w) ->
  text_spec op (texts w) = set_text o l (texts w) -> after_throw op (texts w) (texts w) ->
  meets op (texts w) (or_out_of_range (finish m) w).
Proof. intros Hw Ho Hc. apply yields_meets. by apply (changes_yields sizeof_char sso w o s). Qed.

(** An operation that refuses its position. *)
Lemma refused_meets op m w :
  world_ok w -> m w = Throw w out_of_range -> text_spec op (texts w) = (texts w, TOutOfRange) ->
  meets op (texts w) (or_out_of_range (finish m) w).
Proof.
  intros Hw Hm Hs. unfold or_out_of_range, finish, mbind, M_bind. rewrite Hm. cbn. by rewrite Hs.
Qed.

(** *** Construction and destruction *)

Lemma construct_meets w op :
  world_ok w -> text_ok op (texts w) ->
  match op with
  | TEmpty _ | TFill _ _ _ | TText _ _ | TCopy _ _ | TMove _ _ | TDestroy _ =>
      meets op (texts w) (text_step op w)
  | _ => True
  end.
Proof.
  intros Hw Hok. destruct op as [o|o n ch|o text|o o'|o o'| |o| | | | | | | | | | | | | | | | | | | ];
    try done; cbn [text_ok] in Hok; cbn [text_step].
  - destruct (construct_empty_spec sizeof_char sso w o junk Hw (unused_string _ _ Hok) junk_length)
      as (s & Hr & H1 & _ & H2).
    eapply (yields_meets _ _ _ _ _ (texts w)); [rewrite Hr; by split|done|done].
  - destruct Hok as [Hf Hn]. eapply yields_meets; [|done..].
    apply (construct_fill_spec sizeof_char sso w o junk n ch); [done|by apply unused_string|done|done].
  - destruct Hok as [Hf Hn].
    pose proof (construct_outside_spec sizeof_char sso w o junk text (length text) Hw (unused_string _ _ Hf)
      junk_length ltac:(done) Hn) as Hy. rewrite firstn_all in Hy. by eapply yields_meets.
  - destruct Hok as [Hf Hl]. destruct (live_inv w o' Hw Hl) as (t & Ht & Hc & _ & Hs & Hz).
    pose proof (construct_other_spec sizeof_char sso w o junk o' t 0 (size t) Hw (unused_string _ _ Hf)
      junk_length Ht) as Hy. rewrite ptr_add_0 in Hy. change (drop (Z.to_nat 0) ?l) with l in Hy.
    rewrite take_ge in Hy by (pose proof (length_contents _ _ _ _ Hs); lia).
    eapply yields_meets; [|by cbn; rewrite Hc|done].
    unfold str_copy_construct. rewrite (bind_Ok _ _ _ _ _ (get_str_ok _ _ _ Ht)). apply Hy; lia.
  - destruct Hok as [Hf Hl]. destruct (live_inv w o' Hw Hl) as (t & Ht & Hc & _).
    eapply yields_meets; [by apply (move_construct_spec sizeof_char sso w o junk o' t Hw (unused_string _ _ Hf))|by cbn; rewrite Hc|done].
  - destruct (live_inv w o Hw Hok) as (s & Hs & _).
    destruct (destroy_string_spec sizeof_char sso w o s Hw Hs) as (w' & Hr & H1 & H2).
    eapply (yields_meets _ _ _ _ _ (texts w)); [rewrite Hr; by split|done|done].
Qed.

(** *** Assignment *)

Lemma assign_meets w op :
  world_ok w -> text_ok op (texts w) ->
  match op with
  | TAssign _ _ | TMoveAssign _ _ | TAssignText _ _ | TAssignCh _ _ | TClear _ =>
      meets op (texts w) (text_step op w)
  | _ => True
  end.
Proof.
  intros Hw Hok. destruct op as [| | | | | | |o o'|o o'|o text|o ch| | | | | | | | | | | | |o| | ];
    try done; cbn [text_ok] in Hok; cbn [text_step].
  - destruct Hok as [H1 H2]. destruct (live_inv w o Hw H1) as (s & Hs & _).
    destruct (live_inv w o' Hw H2) as (t & Ht & Hc & _).
    eapply yields_meets; [by apply (copy_assign_spec sizeof_char sso w o o' s t)|by cbn; rewrite Hc|done].
  - destruct Hok as [H1 H2]. destruct (live_inv w o Hw H1) as (s & Hs & _).
    destruct (live_inv w o' Hw H2) as (t & Ht & Hc & _).
    destruct (decide (o = o')) as [<-|Hne].
    + eapply (yields_meets _ _ _ _ _ (texts w));
        [|by cbn; rewrite decide_True by done|done]. unfold str_move_assign. by rewrite decide_True.
    + eapply yields_meets; [by apply (move_assign_spec sizeof_char sso w o o' s t)| |done].
      cbn. by rewrite decide_False, Hc.
  - destruct Hok as [H1 Hn]. destruct (live_inv w o Hw H1) as (s & Hs & _).
    pose proof (assign_outside_spec sizeof_char sso w o s text (length text) Hw Hs ltac:(done) Hn) as Hy.
    rewrite firstn_all in Hy. by eapply yields_meets.
  - destruct (live_inv w o Hw Hok) as (s & Hs & _).
    eapply yields_meets; [by apply (assign_ch_spec sizeof_char sso w o s)|done|done].
  - destruct (live_inv w o Hw Hok) as (s & Hs & _ & _ & Hso & _).
    destruct (str_clear_spec sizeof_char sso w o s Hs Hso) as (w' & Hr & Hst & Hz).
    eapply changes_meets; [done|exact Hs| |done|done]. rewrite Hr. eexists. split; [exact Hst|].
    by apply contents_empty.
Qed.

(** *** Parts of other strings *)

(** The position check and the length of a part. *)
Lemma part_of w o t pos count :
  strings w !! o = Some t -> str_ok sizeof_char sso (char_blocks w) t ->
  if size t <? Z.of_nat pos then part (contents (char_blocks w) t) pos count = None
  else
    let n := Z.min (u16 (size t - Z.of_nat pos)) (Z.of_nat count) in
    0 <= n /\ Z.of_nat pos + n <= size t /\
    part (contents (char_blocks w) t) pos count =
      Some (take (Z.to_nat n) (drop (Z.to_nat (Z.of_nat pos)) (contents (char_blocks w) t))).
Proof.
  intros Ho Hs. pose proof (length_contents _ _ _ _ Hs) as Hl. pose proof (so_size _ _ _ _ Hs).
  pose proof (so_capacity _ _ _ _ Hs). pose proof (max_size_lt sizeof_char).
  unfold part. destruct (Z.ltb_spec (size t) (Z.of_nat pos)) as [Hlt|Hge].
  - rewrite decide_False by lia. done.
  - cbv zeta. rewrite (wrap_small 16), decide_True, Nat2Z.id by lia. split; [lia|]. split; [lia|].
    f_equal. destruct (Z.min_spec (size t - Z.of_nat pos) (Z.of_nat count)) as [[Hm ->]|[_ ->]].
    + rewrite !take_ge by (rewrite length_drop; lia). done.
    + by rewrite Nat2Z.id.
Qed.

Lemma part_meets w op :
  world_ok w -> text_ok op (texts w) ->
  match op with
  | TSubstr _ _ _ _ | TAppendPart _ _ _ _ | TCopyOut _ _ _ => meets op (texts w) (text_step op w)
  | _ => True
  end.
Proof.
  intros Hw Hok. destruct op as [| | | | |o o' pos count| | | | | | | | | |o o' pos count| | | | | | | | | |o count pos];
    try done; cbn [text_ok] in Hok; cbn [text_step].
  - destruct Hok as [Hf Hl]. destruct (live_inv w o' Hw Hl) as (t & Ht & Hc & _ & Hs & _).
    pose proof (part_of w o' t pos count Ht Hs) as Hp.
    destruct (size t <? Z.of_nat pos) eqn:Hcase.
    + apply refused_meets; [done| |by cbn; rewrite Hc, Hp].
      unfold str_substr. by rewrite (bind_Ok _ _ _ _ _ (get_str_ok _ _ _ Ht)), Hcase.
    + destruct Hp as (H1 & H2 & Hp). eapply yields_meets; [|cbn; rewrite Hc, Hp; done|done].
      unfold str_substr. rewrite (bind_Ok _ _ _ _ _ (get_str_ok _ _ _ Ht)), Hcase.
      apply (construct_other_spec sizeof_char sso w o junk o' t); try done; [by apply unused_string|lia].
  - destruct Hok as (Hl & Hl' & Hne & Hn). destruct (live_inv w o Hw Hl) as (s & Hs & Hcs & Hls & Hso & _).
    destruct (live_inv w o' Hw Hl') as (t & Ht & Hc & Hlt & Hto & _).
    pose proof (part_of w o' t pos count Ht Hto) as Hp.
    destruct (size t <? Z.of_nat pos) eqn:Hcase.
    + apply refused_meets; [done| |by cbn; rewrite Hc, Hp].
      unfold append_part. by rewrite (bind_Ok _ _ _ _ _ (get_str_ok _ _ _ Ht)), Hcase.
    + destruct Hp as (H1 & H2 & Hp). eapply changes_meets; [done|exact Hs| |cbn; rewrite Hc, Hp, Hcs; done|done].
      unfold append_part. rewrite (bind_Ok _ _ _ _ _ (get_str_ok _ _ _ Ht)), Hcase.
      set (n := Z.min (u16 _) _) in *. pose proof (length_contents _ _ _ _ Hto) as Hlc.
      set (new := take _ _). assert (Hnew : Z.of_nat (length new) = n).
      { unfold new. rewrite length_take, length_drop. lia. }
      unfold append_chars. rewrite <- Hnew. apply append_spec; try done; [|lia].
      apply (writes_other sizeof_char sso); try (done || lia || congruence).
  - destruct (live_inv w o Hw Hok) as (t & Ht & Hc & _ & Hs & _).
    pose proof (part_of w o t pos count Ht Hs) as Hp.
    assert (Hcap := so_size _ _ _ _ Hs).
    destruct (size t <? Z.of_nat pos) eqn:Hcase.
    + assert (Hr : str_copy sizeof_char o (Z.of_nat count) (Z.of_nat pos) w = Throw w out_of_range).
      { unfold str_copy. by rewrite (bind_Ok _ _ _ _ _ (get_str_ok _ _ _ Ht)), Hcase. }
      unfold text_step, or_out_of_range, mbind, M_bind. rewrite Hr. cbn. by rewrite Hc, Hp.
    + destruct Hp as (H1 & H2 & Hp).
      assert (Hr := read_own sizeof_char sso w o t (Z.of_nat pos) _ Ht Hs ltac:(lia) H1 ltac:(lia)).
      eassert (Hr' : str_copy sizeof_char o (Z.of_nat count) (Z.of_nat pos) w = Ok w _).
      { unfold str_copy. rewrite (bind_Ok _ _ _ _ _ (get_str_ok _ _ _ Ht)), Hcase. exact Hr. }
      unfold text_step, or_out_of_range, mbind, M_bind. rewrite Hr'.
      cbn. rewrite Hc, Hp. split; [done|]. split; [done|]. f_equal.
      unfold WinntStringSpec.contents. rewrite skipn_firstn_comm, take_take. f_equal. lia.
Qed.

(** *** The other modifiers *)

Lemma str_append_range_spec w o s text :
  world_ok w -> strings w !! o = Some s -> size s + Z.of_nat (length text) <= 32768 ->
  match append_range sizeof_char sso o text w with
  | Ok w' _ => world_ok w' /\
      texts w' = <[o := contents (char_blocks w) s ++ text]> (texts w)
  | Throw w' e => world_ok w' /\ str_error e /\
      exists k, texts w' = <[o := contents (char_blocks w) s ++ take k text]> (texts w)
  | _ => False
  end.
Proof.
  revert w s. induction text as [|ch text IH]; intros w s Hw Ho Hn; cbn [append_range].
  { cbn. rewrite app_nil_r, insert_id by by apply texts_lookup. done. }
  cbn [length] in Hn. pose proof (wo_strings _ _ _ Hw _ _ Ho) as Hs.
  pose proof (str_push_back_spec sizeof_char sso w o s ch Ho Hs ltac:(lia)) as Hp.
  unfold mbind, M_bind. destruct (push_back _ _ _ _ w) as [w1 []|w1 e| |]; cbn in Hp; try done.
  - destruct Hp as (s1 & Hst & Hc). destruct (step_world _ _ _ _ _ _ _ Hw Ho Hst) as [Hw1 Ht1].
    assert (Ho1 : strings w1 !! o = Some s1).
    { rewrite (st_strings _ _ _ _ _ _ _ Hst). apply lookup_insert_eq. }
    pose proof (length_contents _ _ _ _ (st_ok _ _ _ _ _ _ _ Hst)) as Hl1.
    pose proof (length_contents _ _ _ _ Hs) as Hl. rewrite Hc, length_app in Hl1. cbn in Hl1.
    specialize (IH w1 s1 Hw1 Ho1 ltac:(lia)). rewrite Hc, Ht1 in IH.
    destruct (append_range _ _ _ _ w1) as [w2 []|w2 e| |]; try done.
    + destruct IH as [H1 H2]. split; [done|].
      by rewrite H2, insert_insert_eq, <- (assoc_L (++)).
    + destruct IH as (H1 & He & k & H2). split; [done|]. split; [done|]. exists (S k).
      by rewrite H2, insert_insert_eq, <- (assoc_L (++)).
  - destruct Hp as [-> He]. split; [done|]. split; [done|]. exists 0%nat.
    cbn. by rewrite app_nil_r, insert_id by by apply texts_lookup.
Qed.

Lemma append_text w o s text :
  strings w !! o = Some s -> str_ok sizeof_char sso (char_blocks w) s ->
  size s + Z.of_nat (length text) < 2 ^ 16 ->
  changes sizeof_char sso w o s (fun b s' => contents b s' = contents (char_blocks w) s ++ text)
    (append_chars sizeof_char sso o (Outside text) (Z.of_nat (length text)) w).
Proof.
  intros Ho Hs Hn. apply append_spec; try done.
  pose proof (writes_outside sizeof_char sso w o s text (length text) ltac:(done)) as H.
  by rewrite firstn_all in H.
Qed.

Lemma append_meets w op :
  world_ok w -> text_ok op (texts w) ->
  match op with
  | TPush _ _ | TPop _ | TAppend _ _ | TAppendString _ _ | TAppendFill _ _ _ | TAppendRange _ _ =>
      meets op (texts w) (text_step op w)
  | _ => True
  end.
Proof.
  intros Hw Hok.
  destruct op as [| | | | | | | | | | |o ch|o|o text|o o'| |o n ch|o text| | | | | | | | ];
    try done; cbn [text_ok] in Hok; cbn [text_step].
  - destruct Hok as [Hl Hn]. destruct (live_inv w o Hw Hl) as (s & Hs & Hc & Hlen & Hso & _).
    apply (changes_meets _ _ w o s _ Hw Hs (str_push_back_spec _ _ w o s ch Hs Hso ltac:(lia))); [cbn; by rewrite Hc|done].
  - destruct Hok as [Hl Hn]. destruct (live_inv w o Hw Hl) as (s & Hs & Hc & Hlen & Hso & _).
    apply (changes_meets _ _ w o s _ Hw Hs (str_pop_back_spec _ _ w o s Hs Hso ltac:(lia))); [cbn; by rewrite Hc|done].
  - destruct Hok as [Hl Hn]. destruct (live_inv w o Hw Hl) as (s & Hs & Hc & Hlen & Hso & _).
    apply (changes_meets _ _ w o s _ Hw Hs (append_text w o s text Hs Hso ltac:(lia))); [cbn; by rewrite Hc|done].
  - destruct Hok as (Hl & Hl' & Hne & Hn).
    destruct (live_inv w o Hw Hl) as (s & Hs & Hc & Hlen & Hso & _).
    destruct (live_inv w o' Hw Hl') as (t & Ht & Hc' & Hlen' & Hto & Hz).
    eapply changes_meets; [done|exact Hs| |cbn; by rewrite Hc, Hc'|done].
    unfold append_string. rewrite (bind_Ok _ _ _ _ _ (get_str_ok _ _ _ Ht)).
    pose proof (length_contents _ _ _ _ Hto) as Hlt. unfold append_chars.
    rewrite <- Hlt. apply (append_spec sizeof_char sso); [done|done| |lia].
    pose proof (writes_other sizeof_char sso w o s o' t 0 (size t) Hw Hs Ht ltac:(done) ltac:(done)
      ltac:(lia) ltac:(lia)) as Hwr.
    rewrite ptr_add_0 in Hwr. change (drop (Z.to_nat 0) ?l) with l in Hwr.
    by rewrite take_ge in Hwr by lia.
  - destruct Hok as [Hl Hn]. destruct (live_inv w o Hw Hl) as (s & Hs & Hc & Hlen & Hso & Hz).
    pose proof (length_contents _ _ _ _ Hso) as Hlc.
    eapply changes_meets; [done|exact Hs| |cbn; by rewrite Hc|done].
    unfold append_fill. rewrite (bind_Ok _ _ _ _ _ (get_str_ok _ _ _ Hs)).
    rewrite (wrap_small 16) by lia.
    eapply changes_mono; [apply (resize_spec sizeof_char sso); [done|done|lia]|]. intros b s' ->.
    rewrite take_ge by lia. do 2 f_equal. lia.
  - destruct Hok as [Hl Hn]. destruct (live_inv w o Hw Hl) as (s & Hs & Hc & Hlen & Hso & _).
    pose proof (str_append_range_spec w o s text Hw Hs ltac:(lia)) as Hr.
    unfold text_step, or_out_of_range, finish, mbind, M_bind.
    destruct (append_range _ _ _ _ w) as [w' []|w' e| |]; try done.
    + destruct Hr as [H1 H2]. cbn. by rewrite Hc.
    + destruct Hr as (H1 & [-> | ->] & k & H2); cbn; rewrite Hc, H2; (split; [done|]);
        (split; [by exists k|unfold str_error; tauto]).
Qed.

Lemma edit_meets w op :
  world_ok w -> text_ok op (texts w) ->
  match op with
  | TInsert _ _ _ | TErase _ _ _ | TEraseBetween _ _ _ => meets op (texts w) (text_step op w)
  | _ => True
  end.
Proof.
  intros Hw Hok.
  destruct op as [| | | | | | | | | | | | | | | | | |o i text|o i n|o first last| | | | | ];
    try done; cbn [text_ok] in Hok; cbn [text_step].
  - destruct Hok as (Hl & Hn & Hi). destruct (live_inv w o Hw Hl) as (s & Hs & Hc & Hlen & Hso & Hz).
    pose proof (length_contents _ _ _ _ Hso) as Hlc. rewrite Hc in Hi.
    destruct (decide (i <= length (contents (char_blocks w) s))%nat) as [Hle|Hgt].
    2: { apply refused_meets; [done| |cbn; by rewrite Hc, decide_False].
         unfold insert_chars. rewrite (bind_Ok _ _ _ _ _ (get_str_ok _ _ _ Hs)).
         by rewrite (proj2 (Z.ltb_lt _ _)) by lia. }
    eapply (changes_meets _ _ w o s _ Hw Hs); [|cbn; by rewrite Hc, decide_True|done].
    unfold insert_chars. rewrite (bind_Ok _ _ _ _ _ (get_str_ok _ _ _ Hs)).
    rewrite (proj2 (Z.ltb_ge _ _)) by lia.
    destruct (Z.eqb_spec (Z.of_nat i) (size s)) as [E|E].
    + eapply changes_mono; [apply (append_text w o s text Hs Hso); lia|]. intros b s' ->.
      rewrite take_ge, drop_ge, app_nil_r by lia. done.
    + assert (i = 0%nat) as -> by lia.
      pose proof (writes_outside sizeof_char sso w o s text (length text) ltac:(done)) as Hwr.
      rewrite firstn_all in Hwr.
      by apply (insert_front_spec sizeof_char sso w o s _ text Hs Hso Hwr ltac:(lia)).
  - destruct (live_inv w o Hw Hok) as (s & Hs & Hc & Hlen & Hso & Hz).
    pose proof (length_contents _ _ _ _ Hso) as Hlc.
    destruct (decide (i <= length (contents (char_blocks w) s))%nat) as [Hle|Hgt].
    2: { apply refused_meets; [done| |cbn; by rewrite Hc, decide_False].
         unfold str_erase. rewrite (bind_Ok _ _ _ _ _ (get_str_ok _ _ _ Hs)).
         by rewrite (proj2 (Z.ltb_lt _ _)) by lia. }
    eapply (changes_meets _ _ w o s _ Hw Hs); [|cbn; by rewrite Hc, decide_True|done].
    eapply changes_mono; [apply (str_erase_spec sizeof_char sso w o s _ _ Hs Hso); lia|].
    intros b s' ->. by rewrite <- Nat2Z.inj_add, !Nat2Z.id.
  - destruct Hok as [Hl Hn]. destruct (live_inv w o Hw Hl) as (s & Hs & Hc & Hlen & Hso & Hz).
    pose proof (length_contents _ _ _ _ Hso) as Hlc. rewrite Hc in Hn.
    eapply (changes_meets _ _ w o s _ Hw Hs); [|cbn; by rewrite Hc|done].
    unfold erase_between. rewrite (wrap_small 16) by lia.
    eapply changes_mono; [apply (erase_unchecked_spec sizeof_char sso w o s _ _ Hs Hso); lia|].
    intros b s' ->. rewrite Nat2Z.id. do 2 f_equal. lia.
Qed.

Lemma rest_meets w op :
  world_ok w -> text_ok op (texts w) ->
  match op with
  | TResize _ _ _ | TReserve _ _ | TAt _ _ => meets op (texts w) (text_step op w)
  | _ => True
  end.
Proof.
  intros Hw Hok.
  destruct op as [| | | | | | | | | | | | | | | | | | | | |o n ch|o n| |o i| ];
    try done; cbn [text_ok] in Hok; cbn [text_step];
    destruct (live_inv w o Hw Hok) as (s & Hs & Hc & Hlen & Hso & Hz);
    pose proof (length_contents _ _ _ _ Hso) as Hlc.
  - eapply (changes_meets _ _ w o s _ Hw Hs); [|cbn; by rewrite Hc|done].
    eapply changes_mono; [apply (resize_spec sizeof_char sso w o s); [done|done|lia]|].
    intros b s' ->. rewrite Nat2Z.id. do 2 f_equal. lia.
  - eapply (changes_meets _ _ w o s (contents (char_blocks w) s) Hw Hs); [| |done].
    + eapply changes_mono; [by apply (str_reserve_spec sizeof_char sso w o s)|]. by intros b s' (_ & _ & ->).
    + cbn. unfold set_text. by rewrite insert_id by by apply texts_lookup.
  - assert (Hcap := so_size _ _ _ _ Hso). destruct (Z.ltb_spec (Z.of_nat i) (size s)) as [Hlt|Hge].
    + destruct (lookup_lt_is_Some_2 (contents (char_blocks w) s) i ltac:(lia)) as [ch Hch].
      assert (Hr : str_at sizeof_char o (Z.of_nat i) w = Ok w ch).
      { unfold str_at. rewrite (bind_Ok _ _ _ _ _ (get_str_ok _ _ _ Hs)).
        rewrite (proj2 (Z.ltb_lt _ _)) by done.
        rewrite (bind_Ok _ _ _ _ _ (read_own sizeof_char sso w o s (Z.of_nat i) 1 Hs Hso
          ltac:(lia) ltac:(lia) ltac:(lia))). rewrite Nat2Z.id.
        unfold WinntStringSpec.contents in Hch. rewrite lookup_take in Hch.
        destruct (decide _) in Hch; [|done]. by rewrite (drop_S _ ch). }
      unfold text_step, or_out_of_range, mbind, M_bind. rewrite Hr. cbn. by rewrite Hc, Hch.
    + assert (Hr : str_at sizeof_char o (Z.of_nat i) w = Throw w out_of_range).
      { unfold str_at. rewrite (bind_Ok _ _ _ _ _ (get_str_ok _ _ _ Hs)).
        by rewrite (proj2 (Z.ltb_ge _ _)). }
      unfold text_step, or_out_of_range, mbind, M_bind. rewrite Hr. cbn.
      by rewrite Hc, lookup_ge_None_2 by lia.
Qed.

Lemma text_step_meets w op :
  world_ok w -> text_ok op (texts w) -> meets op (texts w) (text_step op w).
Proof.
  intros Hw Hok.
  pose proof (construct_meets w op Hw Hok). pose proof (assign_meets w op Hw Hok).
  pose proof (part_meets w op Hw Hok). pose proof (append_meets w op Hw Hok).
  pose proof (edit_meets w op Hw Hok). pose proof (rest_meets w op Hw Hok).
  destruct op; assumption.
Qed.

Definition holds_texts (w : str_world) (ts : text_map) : Prop := world_ok w /\ texts w = ts.

#[local] Program Instance strings_impl : Implements text_step text_spec :=
  {| represents := holds_texts; supported := text_ok |}.
Next Obligation.
  intros op w ts [Hw <-] Hok. pose proof (text_step_meets w op Hw Hok) as Hm.
  destruct (text_step op w); cbn in *; try done. unfold holds_texts. tauto.
Qed.

Lemma run_texts ops w :
  world_ok w -> supported_run text_ok text_spec ops (texts w) ->
  post (run_ops text_step ops w) (fun w' rs =>
    holds_texts w' (run_spec text_spec ops (texts w)).1 /\ rs = (run_spec text_spec ops (texts w)).2).
Proof. intros Hw Hok. by apply (run_ops_refines (H := strings_impl)). Qed.
End contract.
