(* ===== verification/WinntStringTheorems.v ===== *)
(** * Properties of owning strings *)
From Stdlib Require Import ZArith Lia.
From stdpp Require Import base list gmap numbers.
From S2P Require Import Prelude Refinement Algorithms StringView.
From S2P Require Import WinntString WinntStringSpec WinntStringOps WinntStringLife WinntStringContract.
#[local] Open Scope Z_scope.

(** No strings, no blocks. *)
Definition no_strings : str_world := StrWorld ∅ ∅.

Lemma no_strings_ok sizeof_char sso : world_ok sizeof_char sso no_strings.
Proof. split; intros *; cbn; rewrite lookup_empty; done. Qed.

(** An allocator that never fails. *)
#[local] Program Instance pool_chars : char_memory := {|
  new_chars m n :=
    if 0 <=? n then Some (fresh (dom m), replicate (Z.to_nat n) 204) else None |}.
Next Obligation.
  intros m n id l. cbn. destruct (0 <=? n); [|done]. intros [= <- _].
  apply not_elem_of_dom, is_fresh.
Qed.
Next Obligation.
  intros m n id l. cbn. destruct (Z.leb_spec 0 n); [|done]. intros [= _ <-].
  rewrite length_replicate. lia.
Qed.

#[local] Instance char_ansi : char_width 1. Proof. by left. Defined.
#[local] Instance char_wide : char_width 2. Proof. by right. Defined.
#[local] Instance inner_16 : inner_size 16. Proof. by unfold inner_size. Defined.

Definition junk16 : list Z := replicate 16 170.
Definition abc (n : nat) : list Z := Z.of_nat <$> seq 97 n.

(** ** The contract *)

(** C4: Strings behave like lists of characters.  Starting with no strings, every
    sequence of constructions, copies, moves, assignments, appends, insertions at the
    front or the end, erasures, resizings, accesses and destructions has the results and
    the final texts of the same sequence on a map from identities to lists, or ends with
    an exception; no operation leaves a buffer, uses a freed block or frees a block
    twice.  The limits ([text_ok]): an insertion inside a text is left out, which loses
    characters when it has to grow ([insert_growth_loses_text]; with room it is
    [insert_with_room]), and so is appending a string to itself, which reads a freed block
    ([self_append_uses_freed_block]); the total of an append is below 2^16 characters, that
    of an appended range at most 32768, and a character is pushed to at most 32767
    ([push_back_limits]); constructions name strings that do not exist yet, all other operations
    strings that exist. *)
Theorem strings_refine_texts sizeof_char sso junk `{A : char_memory}
    `{char_width sizeof_char} `{inner_size sso} ops :
  Z.of_nat (length junk) = sso -> supported_run text_ok text_spec ops ∅ ->
  post (run_ops (text_step sizeof_char sso junk) ops no_strings) (fun w rs =>
    holds_texts sizeof_char sso w (run_spec text_spec ops ∅).1 /\
    rs = (run_spec text_spec ops ∅).2).
Proof.
  intros Hj Hok. by apply (run_texts sizeof_char sso junk Hj ops no_strings (no_strings_ok _ _)).
Qed.

Definition demo_text_ops : list text_op :=
  [TText 0 (abc 12); TCopy 1 0; TAppendString 1 0; TInsert 1 0 (abc 3); TErase 1 5 10; TMove 2 1;
   TPush 2 33; TSubstr 3 2 4 6; TAssign 0 3; TResize 3 20 46; TMoveAssign 0 3; TAppendRange 0 (abc 5);
   TAt 0 21; TAt 0 40; TPop 0; TCopyOut 0 4 18; TDestroy 1; TAppendPart 2 0 30 1; TEraseBetween 0 2 6].

Lemma strings_refine_texts_witness :
  post (run_ops (text_step 2 16 junk16) demo_text_ops no_strings) (fun w rs =>
    holds_texts 2 16 w (run_spec text_spec demo_text_ops ∅).1 /\
    rs = (run_spec text_spec demo_text_ops ∅).2).
Proof.
  apply (strings_refine_texts 2 16 junk16); [reflexivity|].
  apply (bool_decide_unpack _). vm_compute. exact I.
Defined.

(** The sequence runs to its end. *)
Example demo_text_run :
  match run_ops (text_step 2 16 junk16) demo_text_ops no_strings with
  | Ok w rs => texts 2 w = (run_spec text_spec demo_text_ops ∅).1 /\
               rs = (run_spec text_spec demo_text_ops ∅).2
  | _ => False
  end.
Proof. vm_compute. split; reflexivity. Qed.

(** C23: Strings own their memory and survive exceptions.  An operation that throws leaves
    all strings valid and their texts as they were, except that an assignment leaves its
    target empty and a range may have been appended in part; only a failed allocation and
    a text that is too long are reported.  In a valid state every block of the allocator
    belongs to exactly one string, so that none is left when all strings are destroyed.
    This is about the operations of [strings_refine_texts] under its limits [text_ok]: no
    insertion inside a text, no string appended to itself, no text beyond the limits of
    growth; those fault or lose characters. *)
Theorem strings_exception_safe sizeof_char sso junk `{A : char_memory}
    `{char_width sizeof_char} `{inner_size sso} w op :
  Z.of_nat (length junk) = sso -> world_ok sizeof_char sso w -> text_ok op (texts sizeof_char w) ->
  match text_step sizeof_char sso junk op w with
  | Ok w' _ => world_ok sizeof_char sso w' /\ (strings w' = ∅ -> char_blocks w' = ∅)
  | Throw w' e => world_ok sizeof_char sso w' /\ str_error e /\
      after_throw op (texts sizeof_char w) (texts sizeof_char w')
  | _ => False
  end.
Proof.
  intros Hj Hw Hok. pose proof (text_step_meets sizeof_char sso junk Hj w op Hw Hok) as Hm.
  destruct (text_step _ _ _ op w) as [w' r|w' e| |]; cbn in Hm; try done; [|tauto].
  destruct Hm as [Hw' _]. split; [done|]. intros He. apply map_empty. intros id.
  destruct (char_blocks w' !! id) as [l|] eqn:E; [|done].
  destruct (wo_owned _ _ _ Hw' id l E) as (o & s & Ho & _). by rewrite He in Ho.
Qed.

(** An allocator that has no memory left. *)
Program Definition no_memory : char_memory := {| new_chars _ _ := None |}.
Next Obligation. done. Qed.
Next Obligation. done. Qed.

Lemma strings_exception_safe_witness :
  let w := StrWorld {[0%nat := WinntStr Sso 6 32 junk16]} ∅ in
  match text_step (A := no_memory) 2 16 junk16 (TAssignText 0 (abc 20)) w with
  | Throw w' e => e = bad_alloc /\ texts 2 w' !! 0%nat = Some [] | _ => False end /\
  match text_step (A := no_memory) 2 16 junk16 (TAssignText 0 (abc 20)) w with
  | Ok w' _ => world_ok 2 16 w' /\ (strings w' = ∅ -> char_blocks w' = ∅)
  | Throw w' e => world_ok 2 16 w' /\ str_error e /\
      after_throw (TAssignText 0 (abc 20)) (texts 2 w) (texts 2 w')
  | _ => False
  end.
Proof.
  intros w. split; [by vm_compute|].
  apply (strings_exception_safe (A := no_memory) 2 16 junk16 w); [done| |apply (bool_decide_unpack _); by vm_compute].
  destruct (add_small 2 16 no_strings 0 (WinntStr Sso 6 32 junk16)) as [H _].
  - apply no_strings_ok.
  - done.
  - by split.
  - done.
  - exact H.
Defined.

(** ** Insertion *)

(** Inserting in the middle works as long as there is room: if the capacity holds the
    result, the characters from the position on move behind the inserted ones, and no
    other string changes. *)
Theorem insert_with_room sizeof_char sso `{A : char_memory}
    `{char_width sizeof_char} `{inner_size sso} w o s i text :
  world_ok sizeof_char sso w -> strings w !! o = Some s ->
  let l := contents sizeof_char (char_blocks w) s in
  (i <= length l)%nat ->
  Z.of_nat (length l + length text) <= str_capacity sizeof_char s ->
  exists w', insert_chars sizeof_char sso o (Z.of_nat i) (Outside text) (Z.of_nat (length text)) w
      = Ok w' tt /\ world_ok sizeof_char sso w' /\
    texts sizeof_char w' = <[o := take i l ++ text ++ drop i l]> (texts sizeof_char w).
Proof.
  intros Hw Ho l Hi Hroom. pose proof (wo_strings _ _ _ Hw _ _ Ho) as Hs.
  pose proof (length_contents _ _ _ _ Hs) as Hl. fold l in Hl.
  pose proof (so_capacity _ _ _ _ Hs). pose proof (max_size_lt sizeof_char).
  pose proof (writes_outside sizeof_char sso w o s text (length text) ltac:(done)) as Hwr.
  rewrite firstn_all in Hwr.
  assert (exists w' s', insert_chars sizeof_char sso o (Z.of_nat i) (Outside text)
      (Z.of_nat (length text)) w = Ok w' tt /\ step_to sizeof_char sso w o s s' w' /\
    contents sizeof_char (char_blocks w') s' = take i l ++ text ++ drop i l) as (w' & s' & Hr & Hst & <-).
  { unfold insert_chars. rewrite (bind_Ok _ _ _ _ _ (get_str_ok _ _ _ Ho)).
    rewrite (proj2 (Z.ltb_ge _ _)) by lia. destruct (Z.eqb_spec (Z.of_nat i) (str_size sizeof_char s)) as [E|E].
    - rewrite take_ge, drop_ge, app_nil_r by lia. apply (append_room sizeof_char sso); [done..|lia].
    - pose proof (insert_impl_room sizeof_char sso w o s (Z.of_nat i) _ text Ho Hs Hwr) as Hins.
      rewrite Nat2Z.id in Hins. apply Hins; lia. }
  exists w'. split; [done|]. by apply (step_world sizeof_char sso w o s).
Qed.

Lemma insert_with_room_witness :
  let s := WinntStr Sso 6 32 (abc 16) in
  let w := StrWorld {[0%nat := s]} ∅ in
  exists w', insert_chars (A := no_memory) 2 16 0 1 (Outside [33; 34]) 2 w = Ok w' tt /\ world_ok 2 16 w' /\
    texts 2 w' = <[0%nat := [97; 33; 34; 98; 99]]> (texts 2 w).
Proof.
  intros s w. apply (insert_with_room (A := no_memory) 2 16 w 0 s 1 [33; 34]).
  - destruct (add_small 2 16 no_strings 0 s) as [H _]; [apply no_strings_ok|done|by split|done|exact H].
  - reflexivity.
  - vm_compute. lia.
  - by vm_compute.
Defined.

(** An insertion that has to grow loses text.  Inserting two characters behind the
    fourth of sixteen characters, in a string whose capacity is sixteen, succeeds with
    fourteen characters: the tail is copied over the first part, and the size is too small
    by the position. *)
Theorem insert_growth_loses_text :
  match run_ops (text_step 2 16 junk16) [TText 0 (abc 16); TInsert 0 4 [33; 34]] no_strings with
  | Ok w _ => texts 2 w !! 0%nat =
      Some ([97; 98; 101; 102; 33; 34] ++ drop 8 (abc 16)) /\
      texts 2 w !! 0%nat <> (text_spec (TInsert 0 4 [33; 34]) {[0%nat := abc 16]}).1 !! 0%nat
  | _ => False
  end.
Proof. vm_compute. split; [reflexivity|discriminate]. Qed.

(** A string cannot be appended to itself when it has to grow: the old buffer is
    freed before the characters are read from it. *)
Theorem self_append_uses_freed_block :
  run_ops (text_step 2 16 junk16) [TText 0 (abc 20); TAppendString 0 0] no_strings = Fault.
Proof. vm_compute. reflexivity. Qed.

(** ** Limits *)

Lemma grow_into_itself sizeof_char sso `{A : char_memory} `{char_width sizeof_char} `{inner_size sso}
    w o s tr :
  strings w !! o = Some s -> tr = str_transfer_without_shift -> str_ok sizeof_char sso (char_blocks w) s ->
  sso < str_size sizeof_char s ->
  str_grow sizeof_char sso o 0 tr w = Fault.
Proof.
  intros Ho -> Hs Hlt. pose proof (so_size _ _ _ _ Hs). pose proof (inner_size_range : 0 < sso <= 32767).
  pose proof (so_capacity _ _ _ _ Hs). pose proof (so_chars _ _ _ _ Hs).
  unfold str_grow. rewrite (proj2 (Z.leb_le _ _)) by lia. unfold str_grow_unchecked.
  rewrite (bind_Ok _ _ _ _ _ (get_str_ok _ _ _ Ho)), (proj2 (Z.leb_le 0 sso)), ret_bind by lia.
  assert (Hc : str_transfer_without_shift (loc_ptr o Sso) (str_size sizeof_char s)
    (loc_ptr o (str_Buffer s)) w = Fault); [|unfold mbind, M_bind; by rewrite Hc].
  unfold str_transfer_without_shift, copy_chars.
  pose proof (read_own sizeof_char sso w o s 0 (str_size sizeof_char s) Ho Hs) as Hr.
  rewrite ptr_add_0 in Hr. assert (Hf : forall l, sso < Z.of_nat (length l) ->
    write_chars (loc_ptr o Sso) l w = Fault).
  { intros l Hl. unfold write_chars. rewrite (bind_Ok get _ w w w eq_refl). cbn [loc_ptr].
    rewrite Ho, access_bind. unfold mbind, M_bind, overwrite.
    by rewrite (proj2 (Nat.leb_gt _ _)) by (pose proof (so_inner _ _ _ _ Hs); lia). }
  unfold mbind, M_bind. rewrite Hr, Hf by (rewrite ?length_take, ?length_drop; lia). done.
Qed.

(** The limits of [push_back].  A string of 16-bit characters takes a character at the
    end whatever its size, or reports that it is too long or that there is no memory and
    keeps its text.  A string of 8-bit characters that is full with 32768 characters, a
    capacity reached by doubling from 16, computes a new capacity of zero (32768 times 2 in
    16 bits) and copies its text over its inner buffer, out of bounds. *)
Theorem push_back_limits `{A : char_memory} sso `{inner_size sso} w o s ch :
  strings w !! o = Some s ->
  (world_ok 2 sso w ->
     yields 2 sso (<[o := contents 2 (char_blocks w) s ++ [ch]]> (texts 2 w)) (texts 2 w)
       (push_back 2 sso o ch w)) /\
  (world_ok 1 sso w -> str_size 1 s = 32768 -> str_capacity 1 s = 32768 ->
     push_back 1 sso o ch w = Fault).
Proof.
  intros Ho. split.
  - intros Hw. pose proof (wo_strings _ _ _ Hw _ _ Ho) as Hs.
    apply (changes_yields 2 sso w o s); [done|done|]. apply (str_push_back_spec 2 sso); [done|done|].
    pose proof (so_size _ _ _ _ Hs). pose proof (so_capacity _ _ _ _ Hs) as Hc.
    change (str_max_size 2) with 32767 in Hc. lia.
  - intros Hw Hsz Hcap. pose proof (wo_strings _ _ _ Hw _ _ Ho) as Hs.
    pose proof (inner_size_range : 0 < sso <= 32767).
    unfold push_back. rewrite (bind_Ok _ _ _ _ _ (get_str_ok _ _ _ Ho)), Hcap, Hsz.
    change (32768 =? 32768) with true. unfold str_calc_growth. rewrite Hcap.
    change (if 32768 =? str_max_size 1 then npos else
      Z.min (str_max_size 1) (str_calc_growth_unchecked 32768)) with 0.
    assert (Hf : str_grow 1 sso o 0 str_transfer_without_shift w = Fault)
      by (apply (grow_into_itself 1 sso w o s); [done|done|done|lia]).
    unfold mbind at 1, M_bind at 1. by rewrite Hf.
Qed.

(** The full string is reached by [resize]. *)
Definition full_ansi : str_world :=
  match run_ops (text_step 1 16 junk16) [TEmpty 0; TResize 0 32768 120] no_strings with
  | Ok w _ => w | _ => no_strings end.

Lemma push_back_limits_witness :
  exists s, strings full_ansi !! 0%nat = Some s /\ push_back 1 16 0 33 full_ansi = Fault.
Proof.
  destruct (strings full_ansi !! 0%nat) as [s|] eqn:E.
  2: { exfalso. revert E. vm_compute. discriminate. }
  exists s. split; [reflexivity|]. apply (push_back_limits 16 full_ansi 0 s 33 E).
  - assert (Hok : supported_run text_ok text_spec [TEmpty 0; TResize 0 32768 120] ∅)
      by (apply (bool_decide_unpack _); by vm_compute).
    pose proof (run_texts 1 16 junk16 eq_refl _ no_strings (no_strings_ok 1 16) Hok) as Hp.
    unfold full_ansi. destruct (run_ops _ _ no_strings) as [w rs|w e| |]; try apply no_strings_ok.
    by destruct Hp as [[Hp _] _].
  - revert E. vm_compute. intros [= <-]. reflexivity.
  - revert E. vm_compute. intros [= <-]. reflexivity.
Defined.

(** ** Concatenation operators *)

Section plus.
Context (sizeof_char sso : Z) (junk : list Z) `{A : char_memory}.
Context `{char_width sizeof_char} `{inner_size sso} (junk_length : Z.of_nat (length junk) = sso).

(** A local result is destroyed when the rest of the operator throws. *)
Lemma local_yields w o s l m ts :
  world_ok sizeof_char sso w -> strings w !! o = Some s -> texts sizeof_char w = <[o := l]> ts ->
  ts !! o = None -> forall l',
  changes sizeof_char sso w o s (fun b s' => contents sizeof_char b s' = l') (m w) ->
  yields sizeof_char sso (<[o := l']> ts) ts (with_local sizeof_char sso o m w).
Proof.
  intros Hw Ho Ht Hn l' Hc. apply (changes_yields sizeof_char sso w o s) in Hc; [|done|done].
  unfold with_local. destruct (m w) as [w' []|w' e| |] eqn:E; cbn in Hc; try done.
  - destruct Hc as [H1 H2]. cbn. split; [done|]. by rewrite H2, Ht, insert_insert_eq.
  - destruct Hc as (H1 & H2 & He).
    assert (live (texts sizeof_char w') o) as Hl by (rewrite H2, Ht; unfold live; rewrite lookup_insert_eq; eauto).
    destruct (live_inv _ _ junk w' o H1 Hl) as (s' & Hs' & _).
    destruct (destroy_string_spec sizeof_char sso w' o s' H1 Hs') as (w2 & -> & H3 & H4).
    cbn. split; [done|]. split; [|done]. by rewrite H4, H2, Ht, delete_insert_id.
Qed.

(** Copy an operand, then append something to the copy. *)
Lemma copy_then w o o' l l' m :
  world_ok sizeof_char sso w -> unused (texts sizeof_char w) o -> texts sizeof_char w !! o' = Some l ->
  (forall w1 s1, world_ok sizeof_char sso w1 -> strings w1 !! o = Some s1 ->
     contents sizeof_char (char_blocks w1) s1 = l ->
     texts sizeof_char w1 = <[o := l]> (texts sizeof_char w) ->
     changes sizeof_char sso w1 o s1 (fun b s' => contents sizeof_char b s' = l') (m w1)) ->
  yields sizeof_char sso (<[o := l']> (texts sizeof_char w)) (texts sizeof_char w)
    ((_ ← str_copy_construct sizeof_char sso o junk o'; with_local sizeof_char sso o m) w).
Proof.
  intros Hw Hu Hl Hm.
  assert (Hok : text_ok (TCopy o o') (texts sizeof_char w)) by (split; [done|by eexists]).
  pose proof (construct_meets sizeof_char sso junk junk_length w (TCopy o o') Hw Hok) as Hc.
  cbn in Hc. unfold text_step, or_out_of_range, finish, mbind, M_bind in *.
  destruct (str_copy_construct _ _ _ _ _ w) as [w1 []|w1 e| |]; cbn in *; try done.
  - destruct Hc as (H1 & H2 & _). unfold text_of in H2. rewrite Hl in H2. cbn in H2.
    assert (live (texts sizeof_char w1) o) as Hlive by (rewrite H2; unfold live; rewrite lookup_insert_eq; eauto).
    destruct (live_inv _ _ junk w1 o H1 Hlive) as (s1 & Hs1 & Ht & _).
    unfold text_of in Ht. rewrite H2, lookup_insert_eq in Ht. cbn in Ht.
    apply (local_yields w1 o s1 l); [done|done|done|done|]. by apply Hm.
  - destruct (decide (e = out_of_range)) as [->|He]; [by destruct Hc as (_ & _ & ?)|].
    destruct e; try done; by destruct Hc as (H1 & H2 & [?|?]).
Qed.

Lemma plus_push w o o' l ch :
  world_ok sizeof_char sso w -> unused (texts sizeof_char w) o -> texts sizeof_char w !! o' = Some l ->
  Z.of_nat (length l) <= 32767 ->
  yields sizeof_char sso (<[o := l ++ [ch]]> (texts sizeof_char w)) (texts sizeof_char w)
    (concat_string_ch sizeof_char sso o junk o' ch w).
Proof.
  intros Hw Hu Hl Hn. apply (copy_then w o o' l); [done..|]. intros w1 s1 H1 H2 <- H3.
  pose proof (wo_strings _ _ _ H1 _ _ H2) as Hs. pose proof (length_contents _ _ _ _ Hs).
  apply (str_push_back_spec sizeof_char sso); [done|done|lia].
Qed.

Lemma traits_length_zero text rest :
  0 ∉ text -> traits_length (text ++ 0 :: rest) tt = Ok tt (length text).
Proof.
  induction text as [|x text IH]; intros Hz; [done|]. cbn.
  rewrite elem_of_cons in Hz. destruct (Z.eqb_spec x 0) as [E|E]; [naive_solver|].
  rewrite (bind_Ok _ _ _ _ _ (IH ltac:(tauto))). done.
Qed.

Lemma plus_literal w o o' l text rest :
  world_ok sizeof_char sso w -> unused (texts sizeof_char w) o -> texts sizeof_char w !! o' = Some l ->
  0 ∉ text -> Z.of_nat (length l + length text) < 2 ^ 16 ->
  yields sizeof_char sso (<[o := l ++ text]> (texts sizeof_char w)) (texts sizeof_char w)
    (concat_literal_string sizeof_char sso o junk (text ++ 0 :: rest) o' w).
Proof.
  intros Hw Hu Hl Hz Hn. unfold concat_literal_string.
  rewrite (bind_Ok _ _ _ w (length text)) by by rewrite traits_length_zero.
  rewrite (wrap_small 16) by lia.
  apply (copy_then w o o' l); [done..|]. intros w1 s1 H1 H2 <- H3.
  pose proof (wo_strings _ _ _ H1 _ _ H2) as Hs. pose proof (length_contents _ _ _ _ Hs).
  pose proof (writes_outside sizeof_char sso w1 o s1 (text ++ 0 :: rest) (length text)) as Hwr.
  rewrite take_app_length in Hwr.
  apply (append_spec sizeof_char sso); [done|done|apply Hwr; rewrite length_app; lia|lia].
Qed.

Lemma plus_strings w o o1 o2 l1 l2 n :
  world_ok sizeof_char sso w -> unused (texts sizeof_char w) o ->
  texts sizeof_char w !! o1 = Some l1 -> texts sizeof_char w !! o2 = Some l2 ->
  Z.of_nat (length l1 + length l2) < 2 ^ 16 ->
  yields sizeof_char sso (<[o := l1 ++ l2]> (texts sizeof_char w)) (texts sizeof_char w)
    (concat_strings sizeof_char sso n n o junk o1 o2 w).
Proof.
  intros Hw Hu H1 H2 Hn. unfold concat_strings. rewrite Z.leb_refl.
  apply (copy_then w o o1 l1); [done..|]. intros w1 s1 Hw1 Hs1 <- Ht1.
  assert (Hne : o <> o2) by (intros ->; unfold unused in Hu; congruence).
  assert (Hl2 : texts sizeof_char w1 !! o2 = Some l2) by (by rewrite Ht1, lookup_insert_ne).
  assert (Hlive : live (texts sizeof_char w1) o2) by by eexists.
  destruct (live_inv _ _ junk w1 o2 Hw1 Hlive) as (t & Ht & Hc & _ & Hto & _).
  unfold text_of in Hc. rewrite Hl2 in Hc. cbn in Hc.
  pose proof (wo_strings _ _ _ Hw1 _ _ Hs1) as Hs. pose proof (length_contents _ _ _ _ Hs).
  pose proof (length_contents _ _ _ _ Hto) as Hlt.
  unfold append_string. rewrite (bind_Ok _ _ _ _ _ (get_str_ok _ _ _ Ht)).
  pose proof (writes_other sizeof_char sso w1 o s1 o2 t 0 (str_size sizeof_char t) Hw1 Hs1 Ht ltac:(done)
    ltac:(done) ltac:(lia) ltac:(lia)) as Hwr.
  rewrite ptr_add_0 in Hwr. change (drop (Z.to_nat 0) ?l) with l in Hwr.
  rewrite take_ge in Hwr by lia. unfold append_chars. rewrite <- Hlt. subst l2.
  apply (append_spec sizeof_char sso); [done|done|done|lia].
Qed.
End plus.

(** The order of the operands of [operator+].  Two strings, and a string and a
    character, are concatenated in the order they are written, into a new string, or an
    exception leaves all strings as they were; but a character or a literal in front of a
    string is appended behind it. *)
Theorem plus_order sizeof_char sso junk `{A : char_memory} `{char_width sizeof_char} `{inner_size sso}
    w o o1 o2 l1 l2 n ch text rest :
  Z.of_nat (length junk) = sso -> world_ok sizeof_char sso w ->
  texts sizeof_char w !! o = None -> texts sizeof_char w !! o1 = Some l1 ->
  texts sizeof_char w !! o2 = Some l2 -> Z.of_nat (length l1 + length l2) < 2 ^ 16 ->
  Z.of_nat (length l1) <= 32767 -> 0 ∉ text -> Z.of_nat (length l1 + length text) < 2 ^ 16 ->
  let ts := texts sizeof_char w in
  yields sizeof_char sso (<[o := l1 ++ l2]> ts) ts (concat_strings sizeof_char sso n n o junk o1 o2 w) /\
  yields sizeof_char sso (<[o := l1 ++ [ch]]> ts) ts (concat_string_ch sizeof_char sso o junk o1 ch w) /\
  yields sizeof_char sso (<[o := l1 ++ [ch]]> ts) ts (concat_ch_string sizeof_char sso o junk ch o1 w) /\
  yields sizeof_char sso (<[o := l1 ++ text]> ts) ts
    (concat_literal_string sizeof_char sso o junk (text ++ 0 :: rest) o1 w).
Proof.
  intros Hj Hw Ho H1 H2 Hn1 Hn2 Hz Hn3 ts. split; [by apply plus_strings|].
  split; [by apply plus_push|]. split; [by apply plus_push|by apply plus_literal].
Qed.

(** The strings "cd" and "e"; no result yet. *)
Definition two_strings : str_world :=
  match run_ops (text_step 2 16 junk16) [TText 1 [99; 100]; TText 2 [101]] no_strings with
  | Ok w _ => w | _ => no_strings end.

Lemma plus_order_witness :
  match concat_literal_string 2 16 0 junk16 [97; 98; 0] 1 two_strings with
  | Ok w _ => texts 2 w !! 0%nat = Some [99; 100; 97; 98] | _ => False end /\
  let ts := texts 2 two_strings in
  yields 2 16 (<[0%nat := [99; 100; 101]]> ts) ts (concat_strings 2 16 16 16 0 junk16 1 2 two_strings) /\
  yields 2 16 (<[0%nat := [99; 100; 33]]> ts) ts (concat_string_ch 2 16 0 junk16 1 33 two_strings) /\
  yields 2 16 (<[0%nat := [99; 100; 33]]> ts) ts (concat_ch_string 2 16 0 junk16 33 1 two_strings) /\
  yields 2 16 (<[0%nat := [99; 100; 97; 98]]> ts) ts
    (concat_literal_string 2 16 0 junk16 [97; 98; 0] 1 two_strings).
Proof.
  split; [vm_compute; reflexivity|].
  apply (plus_order 2 16 junk16 two_strings 0 1 2 [99; 100] [101] 16 33 [97; 98] []);
    try (vm_compute; reflexivity).
  - assert (Hok : supported_run text_ok text_spec [TText 1 [99; 100]; TText 2 [101]] ∅)
      by (apply (bool_decide_unpack _); by vm_compute).
    pose proof (run_texts 2 16 junk16 eq_refl _ no_strings (no_strings_ok 2 16) Hok) as Hp.
    unfold two_strings. destruct (run_ops _ _ no_strings) as [w rs|w e| |]; try apply no_strings_ok.
    by destruct Hp as [[Hp _] _].
  - done.
  - by apply (bool_decide_unpack _).
Defined.
