(* ===== verification/SharedPtr.v ===== *)
(** * Smart pointers with shared ownership (include/smart_pointer.hpp)

    [shared_ptr] and [weak_ptr] are built on [refcounted_ptr_base]: a pointer to the
    object and a pointer to a block with two 32-bit counters.  The shared pointers
    together hold one weak reference, so that the counters outlive the object.

    An object may itself contain shared pointers, its members: destroying it destroys
    them, which may destroy further objects.  Accessing a pointer, an object or a
    block of counters that no longer exists is undefined behaviour. *)
From Stdlib Require Import ZArith Lia.
From stdpp Require Import base list gmap numbers.
From S2P Require Import Prelude.
#[local] Open Scope Z_scope.

Inductive ptr_kind := Shared | Weak.

#[export] Instance ptr_kind_eq_dec : EqDecision ptr_kind.
Proof. solve_decision. Defined.

(** [refcounted_ptr_base]. *)
Record rptr := RPtr { kind : ptr_kind; m_value_ptr : option nat; m_ref_counter : option nat }.

#[export] Instance rptr_eq_dec : EqDecision rptr.
Proof. solve_decision. Defined.

(** [ref_counter_base] and the pointer that the concrete counters store. *)
Record ref_counter := RefCounter {
  m_strong_counter : Z;
  m_weak_counter : Z;
  stored_ptr : nat }.

(** Pointers, counters and objects by identity.  An object is the list of its members
    that are still to be destroyed, in the order of their destruction. *)
Record ptr_world := PtrWorld {
  ptrs : gmap nat rptr;
  counters : gmap nat ref_counter;
  objects : gmap nat (list nat) }.

Definition set_ptrs (m : gmap nat rptr) (w : ptr_world) : ptr_world :=
  PtrWorld m (counters w) (objects w).
Definition set_counters (m : gmap nat ref_counter) (w : ptr_world) : ptr_world :=
  PtrWorld (ptrs w) m (objects w).
Definition set_objects (m : gmap nat (list nat)) (w : ptr_world) : ptr_world :=
  PtrWorld (ptrs w) (counters w) m.

Definition null_ptr (k : ptr_kind) : rptr := RPtr k None None.
Definition with_strong (n : Z) (rc : ref_counter) : ref_counter :=
  RefCounter n (m_weak_counter rc) (stored_ptr rc).
Definition with_weak (n : Z) (rc : ref_counter) : ref_counter :=
  RefCounter (m_strong_counter rc) n (stored_ptr rc).

(** ** Accesses *)

Definition read_ptr (p : nat) : M ptr_world rptr := w ← get; access (ptrs w !! p).
Definition write_ptr (p : nat) (v c : option nat) : M ptr_world unit :=
  r ← read_ptr p; modify (fun w => set_ptrs (<[p := RPtr (kind r) v c]> (ptrs w)) w).
Definition new_ptr (p : nat) (k : ptr_kind) : M ptr_world unit :=
  modify (fun w => set_ptrs (<[p := null_ptr k]> (ptrs w)) w).
Definition end_ptr (p : nat) : M ptr_world unit :=
  modify (fun w => set_ptrs (delete p (ptrs w)) w).

Definition read_counter (c : nat) : M ptr_world ref_counter := w ← get; access (counters w !! c).
Definition write_counter (c : nat) (rc : ref_counter) : M ptr_world unit :=
  modify (fun w => set_counters (<[c := rc]> (counters w)) w).
Definition delete_this (c : nat) : M ptr_world unit :=
  modify (fun w => set_counters (delete c (counters w)) w).

(** ** ref_counter_base *)

Definition Acquire (c : nat) : M ptr_world unit :=
  rc ← read_counter c; write_counter c (with_strong (u32 (m_strong_counter rc + 1)) rc).
Definition Follow (c : nat) : M ptr_world unit :=
  rc ← read_counter c; write_counter c (with_weak (u32 (m_weak_counter rc + 1)) rc).

Definition Unfollow (c : nat) : M ptr_world unit :=
  rc ← read_counter c;
  let n := u32 (m_weak_counter rc - 1) in
  _ ← write_counter c (with_weak n rc);
  if n =? 0 then delete_this c else mret tt.

(** ** Destruction; [release] is the [Release] of a counter *)

Section destruction.
Context (release : nat -> M ptr_world unit).

Definition decref_with (k : ptr_kind) (c : nat) : M ptr_world unit :=
  match k with Shared => release c | Weak => Unfollow c end.

Definition decref_if_not_null_with (p : nat) : M ptr_world unit :=
  r ← read_ptr p;
  match m_ref_counter r with Some c => decref_with (kind r) c | None => mret tt end.

Definition reset_with (p : nat) : M ptr_world unit :=
  _ ← decref_if_not_null_with p; write_ptr p None None.

(** The destructor of a pointer. *)
Definition destroy_ptr_with (p : nat) : M ptr_world unit :=
  _ ← reset_with p; end_ptr p.

Fixpoint destroy_members (o : nat) (members : list nat) : M ptr_world unit :=
  match members with
  | [] => mret tt
  | f :: members =>
      _ ← modify (fun w => set_objects (<[o := members]> (objects w)) w);
      _ ← destroy_ptr_with f;
      destroy_members o members
  end.

(** The destructor of an object, called through a deleter or in place; the storage of
    an object of its own goes with it, that of an object behind its counters with the
    counters. *)
Definition destroy_object_with (o : nat) : M ptr_world unit :=
  w ← get;
  members ← access (objects w !! o);
  _ ← destroy_members o members;
  modify (fun w => set_objects (delete o (objects w)) w).
End destruction.

Fixpoint release (fuel : nat) (c : nat) : M ptr_world unit :=
  match fuel with
  | O => diverge
  | S fuel =>
      rc ← read_counter c;
      let n := u32 (m_strong_counter rc - 1) in
      _ ← write_counter c (with_strong n rc);
      if n =? 0 then
        _ ← destroy_object_with (release fuel) (stored_ptr rc); Unfollow c
      else mret tt
  end.

(** A cascade of destructions can reach every block of counters once. *)
Definition Release (c : nat) : M ptr_world unit :=
  w ← get; release (S (size (counters w))) c.

Definition decref_if_not_null : nat -> M ptr_world unit := decref_if_not_null_with Release.
Definition reset : nat -> M ptr_world unit := reset_with Release.
Definition destroy_ptr : nat -> M ptr_world unit := destroy_ptr_with Release.
Definition destroy_object : nat -> M ptr_world unit := destroy_object_with Release.

(** ** refcounted_ptr_base *)

Definition incref (k : ptr_kind) (c : nat) : M ptr_world unit :=
  match k with Shared => Acquire c | Weak => Follow c end.

Definition incref_if_not_null (p : nat) : M ptr_world unit :=
  r ← read_ptr p;
  match m_ref_counter r with Some c => incref (kind r) c | None => mret tt end.

Definition use_count (p : nat) : M ptr_world Z :=
  r ← read_ptr p;
  match m_ref_counter r with
  | Some c => rc ← read_counter c; mret (m_strong_counter rc)
  | None => mret 0
  end.

(** [other] is read after the reference to the old object was dropped. *)
Definition copy_construct_from (p other : nat) : M ptr_world unit :=
  _ ← decref_if_not_null p;
  r ← read_ptr other;
  _ ← write_ptr p (m_value_ptr r) (m_ref_counter r);
  incref_if_not_null p.

Definition move_construct_from (p other : nat) : M ptr_world unit :=
  _ ← decref_if_not_null p;
  r ← read_ptr other;
  _ ← write_ptr p (m_value_ptr r) (m_ref_counter r);
  write_ptr other None None.

Definition swap_ptrs (p other : nat) : M ptr_world unit :=
  r ← read_ptr p; r' ← read_ptr other;
  _ ← write_ptr p (m_value_ptr r') (m_ref_counter r');
  write_ptr other (m_value_ptr r) (m_ref_counter r).

(** ** Construction and assignment *)

Definition copy_ptr (k : ptr_kind) (p other : nat) : M ptr_world unit :=
  _ ← new_ptr p k; copy_construct_from p other.
Definition move_ptr (k : ptr_kind) (p other : nat) : M ptr_world unit :=
  _ ← new_ptr p k; move_construct_from p other.
Definition assign_ptr (p other : nat) : M ptr_world unit :=
  if decide (p = other) then mret tt else copy_construct_from p other.
Definition move_assign_ptr (p other : nat) : M ptr_world unit :=
  if decide (p = other) then mret tt else move_construct_from p other.

Definition expired (q : nat) : M ptr_world bool := n ← use_count q; mret (n =? 0).

(** [shared_ptr(const weak_ptr&)]. *)
Definition shared_from_weak_ptr (p q : nat) : M ptr_world unit :=
  b ← expired q;
  if b : bool then throw bad_weak_ptr else _ ← new_ptr p Shared; copy_construct_from p q.

(** [weak_ptr::lock]: a temporary takes the reference and is moved into the result. *)
Definition lock (p tmp q : nat) : M ptr_world unit :=
  _ ← new_ptr tmp Shared;
  b ← expired q;
  _ ← (if b : bool then mret tt else copy_construct_from tmp q);
  _ ← move_ptr Shared p tmp;
  destroy_ptr tmp.

(** ** New objects *)

(** The block of counters comes from the allocator. *)
Class counter_memory := {
  new_counter : gmap nat ref_counter -> option nat;
  new_counter_fresh m c : new_counter m = Some c -> m !! c = None }.

Section allocation.
Context `{A : counter_memory}.

(** [new Ty]: an object with its members, all null. *)
Definition add_members (members : list nat) (m : gmap nat rptr) : gmap nat rptr :=
  foldr (fun f m => <[f := null_ptr Shared]> m) m members.
Definition new_object (o : nat) (members : list nat) : M ptr_world unit :=
  modify (fun w => PtrWorld (add_members members (ptrs w)) (counters w) (<[o := members]> (objects w))).

(** [make_ref_counter]: the guard deletes the object when there is no memory; a null
    pointer has no counters. *)
Definition make_ref_counter (ptr : option nat) : M ptr_world (option nat) :=
  match ptr with
  | None => mret None
  | Some o =>
      w ← get;
      match new_counter (counters w) with
      | Some c => _ ← write_counter c (RefCounter 1 1 o); mret (Some c)
      | None => _ ← destroy_object o; throw bad_alloc
      end
  end.

(** The constructor from a plain pointer is noexcept. *)
Definition shared_from_ptr (p : nat) (ptr : option nat) : M ptr_world unit :=
  noexcept (c ← make_ref_counter ptr; _ ← new_ptr p Shared; write_ptr p ptr c).

(** [reset(ptr)]: a temporary is swapped with the pointer. *)
Definition reset_ptr (p tmp : nat) (ptr : option nat) : M ptr_world unit :=
  _ ← shared_from_ptr tmp ptr; _ ← swap_ptrs tmp p; destroy_ptr tmp.

(** [make_shared] and [allocate_shared]: one block for the counters and the object. *)
Definition make_shared (p o : nat) (members : list nat) : M ptr_world unit :=
  w ← get;
  match new_counter (counters w) with
  | Some c =>
      _ ← new_object o members;
      _ ← write_counter c (RefCounter 1 1 o);
      _ ← new_ptr p Shared;
      write_ptr p (Some o) (Some c)
  | None => throw bad_alloc
  end.
End allocation.
