(* ===== verification/SharedPtrSpec.v ===== *)
(** * The invariant of shared ownership

    Both counters of a block are exactly the numbers of the pointers that refer to it.
    While an object is being destroyed its block is kept alive by the reference that
    the shared pointers held together ([D], the blocks being torn down), and a pointer
    whose reference was dropped but that was not yet set to null is stale ([S]). *)
From Stdlib Require Import ZArith Lia.
From stdpp Require Import base list gmap numbers.
From S2P Require Import Prelude Refinement SharedPtr.
#[local] Open Scope Z_scope.

(** ** Counting pointers *)

Definition refers (k : ptr_kind) (c : nat) (S : gset nat) (x : nat * rptr) : Prop :=
  kind x.2 = k /\ m_ref_counter x.2 = Some c /\ x.1 ∉ S.

#[export] Instance refers_dec k c S x : Decision (refers k c S x).
Proof. unfold refers. apply _. Defined.

Definition references (k : ptr_kind) (c : nat) (S : gset nat) (m : gmap nat rptr) : Z :=
  Z.of_nat (matching (refers k c S) m).

Lemma references_nonneg k c S m : 0 <= references k c S m.
Proof. unfold references. lia. Qed.

Lemma references_le k c S m : references k c S m <= Z.of_nat (size m).
Proof. unfold references. pose proof (matching_le (refers k c S) m). lia. Qed.

Lemma references_delete k c S m p r : m !! p = Some r ->
  references k c S m = references k c S (delete p m) + (if decide (refers k c S (p, r)) then 1 else 0).
Proof.
  intros Hp. unfold references. rewrite (matching_delete _ m p r Hp). unfold counted. case_decide; lia.
Qed.

Lemma references_insert_new k c S m p r : m !! p = None ->
  references k c S (<[p := r]> m) = references k c S m + (if decide (refers k c S (p, r)) then 1 else 0).
Proof.
  intros Hp. unfold references. rewrite matching_insert_new by done. unfold counted. case_decide; lia.
Qed.

Lemma references_insert k c S m p r r' : m !! p = Some r ->
  references k c S (<[p := r']> m) = references k c S m
    - (if decide (refers k c S (p, r)) then 1 else 0) + (if decide (refers k c S (p, r')) then 1 else 0).
Proof.
  intros Hp. unfold references. pose proof (matching_insert (refers k c S) m p r r' Hp) as H.
  unfold counted in H. repeat case_decide; lia.
Qed.

Lemma references_stale k c S m p r : m !! p = Some r ->
  references k c ({[p]} ∪ S) m = references k c S (delete p m).
Proof.
  intros Hp. unfold references, matching. do 2 f_equal. apply map_eq. intros q.
  destruct (decide (q = p)) as [->|Hne].
  - rewrite map_filter_delete, lookup_delete_eq. apply map_lookup_filter_None. right.
    intros r' _ (_ & _ & H). set_solver.
  - rewrite map_filter_delete, lookup_delete_ne by done. apply option_eq. intros r'.
    rewrite !map_lookup_filter_Some. unfold refers. cbn. set_solver.
Qed.

Lemma references_stale_other k c S m p r : m !! p = Some r -> ~ refers k c S (p, r) ->
  references k c ({[p]} ∪ S) m = references k c S m.
Proof.
  intros Hp Hr. rewrite (references_stale k c S m p r Hp), (references_delete k c S m p r Hp).
  rewrite decide_False by done. lia.
Qed.

Lemma references_pos k c S m : 0 < references k c S m <-> exists p r, m !! p = Some r /\ refers k c S (p, r).
Proof. unfold references. rewrite <- (matching_pos (refers k c S)). lia. Qed.

(** ** The invariant *)

(** The shared pointers, or the destruction in progress, hold a weak reference. *)
Definition held (D : gset nat) (c : nat) (rc : ref_counter) : Prop :=
  0 < m_strong_counter rc \/ c ∈ D.

#[export] Instance held_dec D c rc : Decision (held D c rc).
Proof. unfold held. apply _. Defined.

Record core (S D : gset nat) (w : ptr_world) : Prop := {
  iv_strong c rc : counters w !! c = Some rc -> m_strong_counter rc = references Shared c S (ptrs w);
  iv_weak c rc : counters w !! c = Some rc ->
    m_weak_counter rc = references Weak c S (ptrs w) + (if decide (held D c rc) then 1 else 0);
  iv_ptr p r : ptrs w !! p = Some r -> p ∉ S ->
    match m_ref_counter r with
    | Some c => exists rc, counters w !! c = Some rc /\ m_value_ptr r = Some (stored_ptr rc)
    | None => m_value_ptr r = None
    end;
  iv_object c rc : counters w !! c = Some rc -> 0 < m_strong_counter rc ->
    is_Some (objects w !! stored_ptr rc);
  iv_distinct c1 c2 rc1 rc2 : counters w !! c1 = Some rc1 -> counters w !! c2 = Some rc2 ->
    held D c1 rc1 -> held D c2 rc2 -> stored_ptr rc1 = stored_ptr rc2 -> c1 = c2;
  iv_owned o fs : objects w !! o = Some fs ->
    exists c rc, counters w !! c = Some rc /\ stored_ptr rc = o /\ held D c rc;
  iv_down c : c ∈ D -> exists rc, counters w !! c = Some rc /\ m_strong_counter rc = 0;
  iv_members o fs f : objects w !! o = Some fs -> f ∈ fs ->
    f ∉ S /\ exists r, ptrs w !! f = Some r /\ kind r = Shared;
  iv_disjoint o1 o2 fs1 fs2 f : objects w !! o1 = Some fs1 -> objects w !! o2 = Some fs2 ->
    f ∈ fs1 -> f ∈ fs2 -> o1 = o2;
  iv_nodup o fs : objects w !! o = Some fs -> NoDup fs;
  iv_bound : Z.of_nat (size (ptrs w)) < 2 ^ 32 - 1 }.

(** Every block has a reference. *)
Record inv (S D : gset nat) (w : ptr_world) : Prop := {
  iv_core : core S D w;
  iv_kept c rc : counters w !! c = Some rc -> 0 < m_weak_counter rc }.

(** A pointer inside an object. *)
Definition member (w : ptr_world) (p : nat) : Prop :=
  exists o fs, objects w !! o = Some fs /\ p ∈ fs.

(** Blocks whose object is alive. *)
Definition live_blocks (w : ptr_world) : nat :=
  size (filter (fun x : nat * ref_counter => 0 < m_strong_counter x.2) (counters w)).

(** What a destruction leaves alone: pointers that are not members, and the blocks and
    objects that are being torn down already. *)
Record frame (D : gset nat) (w w' : ptr_world) : Prop := {
  fr_ptrs p : ~ member w p -> ptrs w' !! p = ptrs w !! p;
  fr_members p : member w' p -> member w p;
  fr_down c rc : c ∈ D -> counters w !! c = Some rc ->
    (exists rc', counters w' !! c = Some rc' /\ stored_ptr rc' = stored_ptr rc) /\
    objects w' !! stored_ptr rc = objects w !! stored_ptr rc;
  fr_live : (live_blocks w' <= live_blocks w)%nat }.

Lemma frame_refl D w : frame D w w.
Proof. split; eauto. Qed.

Lemma frame_trans D w1 w2 w3 : frame D w1 w2 -> frame D w2 w3 -> frame D w1 w3.
Proof.
  intros H1 H2. split.
  - intros p Hp. rewrite (fr_ptrs _ _ _ H2), (fr_ptrs _ _ _ H1); [done|done|].
    intros Hm. by apply Hp, (fr_members _ _ _ H1).
  - intros p Hp. by apply (fr_members _ _ _ H1), (fr_members _ _ _ H2).
  - intros c rc Hc Hrc. destruct (fr_down _ _ _ H1 c rc Hc Hrc) as [(rc1 & Hrc1 & E1) Ho1].
    destruct (fr_down _ _ _ H2 c rc1 Hc Hrc1) as [(rc2 & Hrc2 & E2) Ho2].
    split; [exists rc2; split; [done|congruence]|]. rewrite E1 in Ho2. congruence.
  - pose proof (fr_live _ _ _ H1). pose proof (fr_live _ _ _ H2). lia.
Qed.

Lemma frame_subset D D' w w' : D ⊆ D' -> frame D' w w' -> frame D w w'.
Proof. intros Hs H. split; try apply H. intros c rc Hc. apply H. set_solver. Qed.

(** The counters are far from wrapping. *)
Lemma counters_bounded S D w c rc :
  core S D w -> counters w !! c = Some rc ->
  0 <= m_strong_counter rc < 2 ^ 32 - 1 /\ 0 <= m_weak_counter rc < 2 ^ 32.
Proof.
  intros H Hc. rewrite (iv_weak _ _ _ H _ _ Hc). rewrite (iv_strong _ _ _ H _ _ Hc).
  pose proof (iv_bound _ _ _ H). pose proof (references_le Shared c S (ptrs w)).
  pose proof (references_le Weak c S (ptrs w)). pose proof (references_nonneg Shared c S (ptrs w)).
  pose proof (references_nonneg Weak c S (ptrs w)). destruct (decide _); lia.
Qed.

(** * Dropping references

    [release_ok]: dropping a shared reference keeps the invariant, whatever cascade of
    destructions it sets off, and terminates. *)

Lemma read_ptr_ok w p r : ptrs w !! p = Some r -> read_ptr p w = Ok w r.
Proof. intros H. unfold read_ptr, mbind, M_bind, get. by rewrite H. Qed.

Lemma read_counter_ok w c rc : counters w !! c = Some rc -> read_counter c w = Ok w rc.
Proof. intros H. unfold read_counter, mbind, M_bind, get. by rewrite H. Qed.

Lemma write_ptr_ok w p r v c : ptrs w !! p = Some r ->
  write_ptr p v c w = Ok (set_ptrs (<[p := RPtr (kind r) v c]> (ptrs w)) w) tt.
Proof. intros H. unfold write_ptr. by rewrite (bind_Ok _ _ _ _ _ (read_ptr_ok _ _ _ H)). Qed.

(** ** Weak references *)

(** A block without references can go. *)
Lemma cleanup S D w c rc :
  core S D w -> counters w !! c = Some rc -> m_weak_counter rc = 0 ->
  core S D (set_counters (delete c (counters w)) w) /\ c ∉ D.
Proof.
  intros H Hc H0. pose proof (iv_weak _ _ _ H _ _ Hc) as Hw. pose proof (iv_strong _ _ _ H _ _ Hc) as Hs.
  pose proof (references_nonneg Weak c S (ptrs w)) as Hn. pose proof (references_nonneg Shared c S (ptrs w)).
  destruct (decide (held D c rc)) as [Hh|Hh]; [lia|].
  assert (Hd : c ∉ D) by (intros Hd; apply Hh; by right).
  assert (m_strong_counter rc <= 0) by (apply Znot_gt_le; intros ?; apply Hh; left; lia).
  split; [|done]. split; cbn [set_counters ptrs counters objects].
  - intros c' rc'. rewrite lookup_delete_Some. intros [_ ?]. by apply (iv_strong _ _ _ H).
  - intros c' rc'. rewrite lookup_delete_Some. intros [_ ?]. by apply (iv_weak _ _ _ H).
  - intros p r Hp HpS. pose proof (iv_ptr _ _ _ H p r Hp HpS) as Hr.
    destruct (m_ref_counter r) as [c'|] eqn:E; [|done]. destruct Hr as (rc' & Hc' & Hv).
    exists rc'. split; [|done]. rewrite lookup_delete_ne; [done|]. intros <-.
    assert (0 < references (kind r) c S (ptrs w)) as Hpos.
    { apply references_pos. exists p, r. split; [done|]. by split. }
    destruct (kind r); lia.
  - intros c' rc'. rewrite lookup_delete_Some. intros [_ ?]. by apply (iv_object _ _ _ H c').
  - intros c1 c2 rc1 rc2. rewrite !lookup_delete_Some. intros [_ Ha] [_ Hb]. by apply (iv_distinct _ _ _ H).
  - intros o fs Ho. destruct (iv_owned _ _ _ H o fs Ho) as (c' & rc' & Hc' & E & Hh').
    exists c', rc'. split; [|done]. rewrite lookup_delete_ne; [done|]. intros <-. by simplify_eq.
  - intros c' Hc'. destruct (iv_down _ _ _ H c' Hc') as (rc' & Hrc' & E). exists rc'. split; [|done].
    rewrite lookup_delete_ne; [done|]. intros <-. done.
  - apply (iv_members _ _ _ H).
  - apply (iv_disjoint _ _ _ H).
  - apply (iv_nodup _ _ _ H).
  - apply (iv_bound _ _ _ H).
Qed.

(** After the weak counter was decreased. *)
Lemma unfollow_finish S D w c rc :
  counters w !! c = Some rc -> 0 < m_weak_counter rc < 2 ^ 32 ->
  let n := m_weak_counter rc - 1 in
  let w1 := set_counters (<[c := with_weak n rc]> (counters w)) w in
  core S D w1 -> (forall c' rc', c' <> c -> counters w !! c' = Some rc' -> 0 < m_weak_counter rc') ->
  exists w', Unfollow c w = Ok w' tt /\ inv S D w' /\ ptrs w' = ptrs w /\ objects w' = objects w /\
    (forall c', c' <> c -> counters w' !! c' = counters w !! c') /\
    (c ∈ D -> counters w' !! c = Some (with_weak n rc)) /\
    (live_blocks w' <= live_blocks w1)%nat.
Proof.
  intros Hc Hr n w1 H1 Hk. unfold Unfollow. rewrite (bind_Ok _ _ _ _ _ (read_counter_ok _ _ _ Hc)).
  rewrite (wrap_small 32) by lia. fold n. cbv zeta.
  rewrite (bind_Ok _ _ w w1 tt) by done.
  assert (Hc1 : counters w1 !! c = Some (with_weak n rc)) by apply lookup_insert_eq.
  destruct (Z.eqb_spec n 0) as [E|E].
  - destruct (cleanup S D w1 c _ H1 Hc1 E) as [H2 Hd]. eexists. split; [reflexivity|].
    split; [split; [done|]|split; [done|split; [done|]]].
    + intros c' rc'. cbn. rewrite delete_insert_eq, lookup_delete_Some. intros [Hne ?]. eapply Hk; [|done]. done.
    + split; [|split].
      * intros c' Hne. cbn. by rewrite lookup_delete_ne, lookup_insert_ne.
      * done.
      * unfold live_blocks, w1. cbn [set_counters counters]. rewrite map_filter_delete. rewrite map_size_delete.
        case_match; [apply Nat.le_pred_l|done].
  - eexists. split; [reflexivity|]. split; [split; [done|]|split; [done|split; [done|]]].
    + intros c' rc'. cbn. rewrite lookup_insert_Some. intros [[<- <-]|[Hne ?]]; [cbn; lia|].
      eapply Hk; [|done]. done.
    + split; [|split; [done|done]]. intros c' Hne. cbn. by rewrite lookup_insert_ne.
Qed.

(** ** Stale pointers *)

Lemma refers_other k c S p r c' : m_ref_counter r = Some c' -> c <> c' -> ~ refers k c S (p, r).
Proof. intros H Hne (_ & H' & _). cbn in *. congruence. Qed.

Lemma refers_kind k c S p r : kind r <> k -> ~ refers k c S (p, r).
Proof. intros H (H' & _). done. Qed.

Lemma refers_null k c S p r : m_ref_counter r = None -> ~ refers k c S (p, r).
Proof. intros H (_ & H' & _). cbn in *. congruence. Qed.

(** A pointer that refers to a block drops its reference: one of the counters decreases. *)
Lemma drop_reference S D D' w p r c rc rc' :
  core S D w -> ptrs w !! p = Some r -> m_ref_counter r = Some c -> p ∉ S -> ~ member w p ->
  counters w !! c = Some rc -> stored_ptr rc' = stored_ptr rc ->
  m_strong_counter rc' = m_strong_counter rc - (if decide (kind r = Shared) then 1 else 0) ->
  m_weak_counter rc' = m_weak_counter rc - (if decide (kind r = Weak) then 1 else 0) ->
  (held D' c rc' <-> held D c rc) ->
  (forall c', c' <> c -> c' ∈ D' <-> c' ∈ D) ->
  (c ∈ D' -> m_strong_counter rc' = 0) ->
  core ({[p]} ∪ S) D' (set_counters (<[c := rc']> (counters w)) w).
Proof.
  intros H Hp Hr HpS Hm Hc Est Es Ew Hh HD Hd0.
  assert (Hself : forall k, refers k c S (p, r) <-> kind r = k).
  { intros k. unfold refers. cbn. tauto. }
  assert (Hcount : forall k, references k c ({[p]} ∪ S) (ptrs w) =
    references k c S (ptrs w) - (if decide (kind r = k) then 1 else 0)).
  { intros k. rewrite (references_stale k c S _ p r Hp), (references_delete k c S (ptrs w) p r Hp).
    destruct (decide (kind r = k)) as [E|E].
    - rewrite decide_True by by apply Hself. lia.
    - rewrite decide_False by (by rewrite Hself). lia. }
  assert (Hother : forall k c', c' <> c -> references k c' ({[p]} ∪ S) (ptrs w) = references k c' S (ptrs w)).
  { intros k c' Hne. apply (references_stale_other k c' S _ p r Hp). by apply (refers_other _ _ _ _ _ c). }
  assert (Hheld : forall c' rc0, c' <> c -> held D' c' rc0 <-> held D c' rc0).
  { intros c' rc0 Hne. unfold held. by rewrite HD. }
  split; cbn [set_counters ptrs counters objects].
  - intros c' rc0. rewrite lookup_insert_Some. intros [[<- <-]|[Hne Hc']].
    + rewrite Es, (iv_strong _ _ _ H _ _ Hc), Hcount. done.
    + rewrite Hother by done. by apply (iv_strong _ _ _ H).
  - intros c' rc0. rewrite lookup_insert_Some. intros [[<- <-]|[Hne Hc']].
    + rewrite Ew, (iv_weak _ _ _ H _ _ Hc), Hcount. rewrite (decide_ext (held D' c rc') (held D c rc) 1 0 Hh). lia.
    + rewrite Hother by done. rewrite (decide_ext (held D' c' rc0) (held D c' rc0) 1 0) by (apply Hheld; congruence).
      by apply (iv_weak _ _ _ H).
  - intros q rq Hq HqS. pose proof (iv_ptr _ _ _ H q rq Hq ltac:(set_solver)) as Hrq.
    destruct (m_ref_counter rq) as [c'|]; [|done]. destruct Hrq as (rc0 & Hc' & Hv).
    destruct (decide (c' = c)) as [->|Hne].
    + exists rc'. rewrite lookup_insert_eq. split; [done|]. rewrite Est. congruence.
    + exists rc0. by rewrite lookup_insert_ne.
  - intros c' rc0. rewrite lookup_insert_Some. intros [[<- <-]|[Hne Hc']] Hpos.
    + rewrite Est. apply (iv_object _ _ _ H c rc Hc). destruct (decide _); lia.
    + by apply (iv_object _ _ _ H c').
  - intros c1 c2 rc1 rc2. rewrite !lookup_insert_Some.
    intros [[<- <-]|[Hn1 H1]] [[<- <-]|[Hn2 H2]] Hh1 Hh2 Eo; try done.
    + apply (iv_distinct _ _ _ H c c2 rc rc2); try done; [by apply Hh|by apply Hheld|congruence].
    + apply (iv_distinct _ _ _ H c1 c rc1 rc); try done; [by apply Hheld|by apply Hh|congruence].
    + apply (iv_distinct _ _ _ H c1 c2 rc1 rc2); try done; by apply Hheld.
  - intros o fs Ho. destruct (iv_owned _ _ _ H o fs Ho) as (c' & rc0 & Hc' & E & Hh').
    destruct (decide (c' = c)) as [->|Hne].
    + exists c, rc'. rewrite lookup_insert_eq. simplify_eq. split; [done|]. split; [done|by apply Hh].
    + exists c', rc0. rewrite lookup_insert_ne by done. split; [done|]. split; [done|by apply Hheld].
  - intros c' Hc'. destruct (decide (c' = c)) as [->|Hne].
    + exists rc'. rewrite lookup_insert_eq. auto.
    + destruct (iv_down _ _ _ H c') as (rc0 & Hrc0 & E); [by apply HD|].
      exists rc0. by rewrite lookup_insert_ne.
  - intros o fs f Ho Hf. destruct (iv_members _ _ _ H o fs f Ho Hf) as [HfS Hfr]. split; [|done].
    rewrite elem_of_union, elem_of_singleton. intros [->|?]; [|done]. apply Hm. by exists o, fs.
  - apply (iv_disjoint _ _ _ H).
  - apply (iv_nodup _ _ _ H).
  - apply (iv_bound _ _ _ H).
Qed.

(** A weak pointer lets go of its block. *)
Lemma unfollow_weak S D w p r c :
  inv S D w -> ptrs w !! p = Some r -> kind r = Weak -> m_ref_counter r = Some c -> p ∉ S ->
  ~ member w p ->
  exists w', Unfollow c w = Ok w' tt /\ inv ({[p]} ∪ S) D w' /\ frame D w w' /\
    ptrs w' = ptrs w /\ objects w' = objects w.
Proof.
  intros [H Hk] Hp Hkind Hr HpS Hm.
  pose proof (iv_ptr _ _ _ H p r Hp HpS) as Hv. rewrite Hr in Hv. destruct Hv as (rc & Hc & _).
  destruct (counters_bounded _ _ _ _ _ H Hc) as [_ Hb].
  pose proof (Hk _ _ Hc) as Hpos.
  destruct (unfollow_finish ({[p]} ∪ S) D w c rc Hc ltac:(lia)) as (w' & Hu & Hi & Ep & Eo & Hcs & Hcd & Hl).
  - apply (drop_reference S D D w p r c rc); try done.
    + rewrite decide_False by (by rewrite Hkind). cbn. lia.
    + rewrite decide_True by done. cbn. lia.
    + intros Hd. destruct (iv_down _ _ _ H c Hd) as (rc0 & Hrc0 & E). by simplify_eq.
  - intros c' rc' _. apply Hk.
  - exists w'. split; [done|]. split; [done|]. split; [|done].
    split.
    + intros q _. by rewrite Ep.
    + intros q (o & fs & Ho & Hf). exists o, fs. by rewrite <- Eo.
    + intros c0 rc0 Hd0 Hc0. split; [|by rewrite Eo]. destruct (decide (c0 = c)) as [->|Hne].
      * simplify_eq. eexists. split; [by apply Hcd|done].
      * exists rc0. by rewrite Hcs.
    + etransitivity; [exact Hl|]. unfold live_blocks. cbn [set_counters counters].
      rewrite map_filter_insert. destruct (decide _) as [Hs|Hs].
      * rewrite map_size_insert_Some; [done|]. exists rc. by apply map_lookup_filter_Some.
      * rewrite map_filter_delete, map_size_delete. case_match; [apply Nat.le_pred_l|done].
Qed.

(** A stale pointer that is not a member is set to null, or ends. *)
Lemma unstale S D w p r r' :
  inv ({[p]} ∪ S) D w -> ptrs w !! p = Some r -> m_ref_counter r' = None -> m_value_ptr r' = None ->
  inv S D (set_ptrs (<[p := r']> (ptrs w)) w).
Proof.
  intros [H Hk] Hp Hn Hv. split; [|done].
  assert (Hcount : forall k c, references k c S (<[p := r']> (ptrs w)) = references k c ({[p]} ∪ S) (ptrs w)).
  { intros k c. rewrite (references_stale k c S _ p r Hp).
    rewrite (references_delete k c S (<[p := r']> (ptrs w)) p r' (lookup_insert_eq _ _ _)).
    rewrite delete_insert_eq, decide_False by by apply refers_null. lia. }
  split; cbn [set_ptrs ptrs counters objects].
  - intros c rc Hc. rewrite Hcount. by apply (iv_strong _ _ _ H).
  - intros c rc Hc. rewrite Hcount. by apply (iv_weak _ _ _ H).
  - intros q rq. rewrite lookup_insert_Some. intros [[<- <-]|[Hne Hq]] HqS; [by rewrite Hn|].
    apply (iv_ptr _ _ _ H q); [done|set_solver].
  - apply (iv_object _ _ _ H).
  - apply (iv_distinct _ _ _ H).
  - apply (iv_owned _ _ _ H).
  - apply (iv_down _ _ _ H).
  - intros o fs f Ho Hf. destruct (iv_members _ _ _ H o fs f Ho Hf) as (HfS & rf & Hrf & Hkf).
    split; [set_solver|]. exists rf. rewrite lookup_insert_ne; [done|set_solver].
  - apply (iv_disjoint _ _ _ H).
  - apply (iv_nodup _ _ _ H).
  - rewrite map_size_insert_Some by eauto. apply (iv_bound _ _ _ H).
Qed.

Lemma unstale_end S D w p r :
  inv ({[p]} ∪ S) D w -> ptrs w !! p = Some r -> inv S D (set_ptrs (delete p (ptrs w)) w).
Proof.
  intros [H Hk] Hp. split; [|done].
  split; cbn [set_ptrs ptrs counters objects].
  - intros c rc Hc. rewrite <- (references_stale _ _ S _ p r Hp). by apply (iv_strong _ _ _ H).
  - intros c rc Hc. rewrite <- (references_stale _ _ S _ p r Hp). by apply (iv_weak _ _ _ H).
  - intros q rq. rewrite lookup_delete_Some. intros [Hne Hq] HqS.
    apply (iv_ptr _ _ _ H q); [done|set_solver].
  - apply (iv_object _ _ _ H).
  - apply (iv_distinct _ _ _ H).
  - apply (iv_owned _ _ _ H).
  - apply (iv_down _ _ _ H).
  - intros o fs f Ho Hf. destruct (iv_members _ _ _ H o fs f Ho Hf) as (HfS & rf & Hrf & Hkf).
    split; [set_solver|]. exists rf. rewrite lookup_delete_ne; [done|set_solver].
  - apply (iv_disjoint _ _ _ H).
  - apply (iv_nodup _ _ _ H).
  - rewrite map_size_delete_Some by eauto. pose proof (iv_bound _ _ _ H). lia.
Qed.

(** A null pointer that is not a member may be regarded as stale. *)
Lemma stale_null S D w p r :
  inv S D w -> ptrs w !! p = Some r -> m_ref_counter r = None -> ~ member w p ->
  inv ({[p]} ∪ S) D w.
Proof.
  intros [H Hk] Hp Hn Hm. split; [|done].
  assert (Hcount : forall k c, references k c ({[p]} ∪ S) (ptrs w) = references k c S (ptrs w)).
  { intros k c. apply (references_stale_other k c S _ p r Hp). by apply refers_null. }
  split.
  - intros c rc Hc. rewrite Hcount. by apply (iv_strong _ _ _ H).
  - intros c rc Hc. rewrite Hcount. by apply (iv_weak _ _ _ H).
  - intros q rq Hq HqS. apply (iv_ptr _ _ _ H q); [done|set_solver].
  - apply (iv_object _ _ _ H).
  - apply (iv_distinct _ _ _ H).
  - apply (iv_owned _ _ _ H).
  - apply (iv_down _ _ _ H).
  - intros o fs f Ho Hf. destruct (iv_members _ _ _ H o fs f Ho Hf) as [HfS Hfr]. split; [|done].
    rewrite elem_of_union, elem_of_singleton. intros [->|?]; [|done]. apply Hm. by exists o, fs.
  - apply (iv_disjoint _ _ _ H).
  - apply (iv_nodup _ _ _ H).
  - apply (iv_bound _ _ _ H).
Qed.

(** ** Shared references *)

(** What dropping a shared reference has to do while fewer than [bound] objects live. *)
Definition release_ok (rel : nat -> M ptr_world unit) (bound : nat) : Prop :=
  forall S D w p r c,
    inv S D w -> ptrs w !! p = Some r -> kind r = Shared -> m_ref_counter r = Some c -> p ∉ S ->
    ~ member w p -> (live_blocks w < bound)%nat ->
    exists w', rel c w = Ok w' tt /\ inv ({[p]} ∪ S) D w' /\ frame D w w'.

Section destruction.
Context (rel : nat -> M ptr_world unit) (bound : nat) (rel_ok : release_ok rel bound).

Lemma decref_ok S D w p r :
  inv S D w -> ptrs w !! p = Some r -> p ∉ S -> ~ member w p -> (live_blocks w < bound)%nat ->
  exists w', decref_if_not_null_with rel p w = Ok w' tt /\ inv ({[p]} ∪ S) D w' /\ frame D w w'.
Proof.
  intros H Hp HpS Hm Hl. unfold decref_if_not_null_with.
  rewrite (bind_Ok _ _ _ _ _ (read_ptr_ok _ _ _ Hp)).
  destruct (m_ref_counter r) as [c|] eqn:E.
  - destruct (kind r) eqn:Ek; cbn [decref_with].
    + by apply (rel_ok S D w p r c).
    + destruct (unfollow_weak S D w p r c H Hp Ek E HpS Hm) as (w' & ? & ? & ? & _). eauto.
  - exists w. split; [done|]. split; [by apply (stale_null S D w p r)|apply frame_refl].
Qed.

Lemma reset_ok S D w p r :
  inv S D w -> ptrs w !! p = Some r -> p ∉ S -> ~ member w p -> (live_blocks w < bound)%nat ->
  exists w1, reset_with rel p w = Ok (set_ptrs (<[p := null_ptr (kind r)]> (ptrs w1)) w1) tt /\
    inv S D (set_ptrs (<[p := null_ptr (kind r)]> (ptrs w1)) w1) /\ frame D w w1 /\
    inv ({[p]} ∪ S) D w1.
Proof.
  intros H Hp HpS Hm Hl. destruct (decref_ok S D w p r H Hp HpS Hm Hl) as (w1 & Hd & Hi & Hf).
  exists w1. assert (Hp1 : ptrs w1 !! p = Some r) by (by rewrite (fr_ptrs _ _ _ Hf)).
  unfold reset_with. rewrite (bind_Ok _ _ _ _ _ Hd), (write_ptr_ok _ _ _ _ _ Hp1).
  split; [done|]. split; [|done]. by apply (unstale S D w1 p r).
Qed.

(** The destructor of a pointer. *)
Lemma destroy_ptr_ok S D w p r :
  inv S D w -> ptrs w !! p = Some r -> p ∉ S -> ~ member w p -> (live_blocks w < bound)%nat ->
  exists w1, destroy_ptr_with rel p w = Ok (set_ptrs (delete p (ptrs w1)) w1) tt /\
    inv S D (set_ptrs (delete p (ptrs w1)) w1) /\ frame D w w1.
Proof.
  intros H Hp HpS Hm Hl. destruct (reset_ok S D w p r H Hp HpS Hm Hl) as (w1 & Hd & _ & Hf & Hi).
  exists w1. assert (Hp1 : ptrs w1 !! p = Some r) by (by rewrite (fr_ptrs _ _ _ Hf)).
  unfold destroy_ptr_with. rewrite (bind_Ok _ _ _ _ _ Hd). unfold end_ptr, modify.
  cbn [set_ptrs ptrs]. rewrite delete_insert_eq. split; [done|].
  split; [by apply (unstale_end S D w1 p r)|done].
Qed.

(** A member leaves the object that is being destroyed. *)
Lemma pop_member S D w o f rest :
  inv S D w -> objects w !! o = Some (f :: rest) ->
  let w1 := set_objects (<[o := rest]> (objects w)) w in
  inv S D w1 /\ ~ member w1 f /\ f ∉ S /\ exists r, ptrs w !! f = Some r.
Proof.
  intros [H Hk] Ho w1. pose proof (iv_nodup _ _ _ H o _ Ho) as Hn. apply list.NoDup_cons in Hn as [Hf Hn].
  destruct (iv_members _ _ _ H o _ f Ho ltac:(by left)) as (HfS & r & Hr & _).
  assert (Hsub : forall o' fs', objects w1 !! o' = Some fs' ->
    exists fs, objects w !! o' = Some fs /\ (forall x, x ∈ fs' -> x ∈ fs) /\ NoDup fs').
  { intros o' fs'. cbn. rewrite lookup_insert_Some. intros [[<- <-]|[Hne Ho']].
    - exists (f :: rest). split; [done|]. split; [by right|done].
    - exists fs'. split; [done|]. split; [done|]. by apply (iv_nodup _ _ _ H o'). }
  split; [|split; [|eauto]].
  - split; [|done]. split; try apply H.
    + intros c rc Hc Hs. cbn. destruct (decide (o = stored_ptr rc)) as [<-|Hne].
      * rewrite lookup_insert_eq. eauto.
      * rewrite lookup_insert_ne by done. by apply (iv_object _ _ _ H c).
    + intros o' fs' Ho'. destruct (Hsub o' fs' Ho') as (fs & Hfs & _). by apply (iv_owned _ _ _ H o' fs).
    + intros o' fs' g Ho' Hg. destruct (Hsub o' fs' Ho') as (fs & Hfs & Hin & _).
      apply (iv_members _ _ _ H o' fs); auto.
    + intros o1 o2 fs1 fs2 g H1 H2 Hg1 Hg2.
      destruct (Hsub _ _ H1) as (l1 & Hl1 & Hi1 & _). destruct (Hsub _ _ H2) as (l2 & Hl2 & Hi2 & _).
      apply (iv_disjoint _ _ _ H o1 o2 l1 l2 g); auto.
    + intros o' fs' Ho'. by destruct (Hsub o' fs' Ho') as (fs & _ & _ & ?).
  - intros (o' & fs' & Ho' & Hf'). cbn in Ho'. apply lookup_insert_Some in Ho' as [[<- <-]|[Hne Ho']]; [done|].
    apply Hne. apply (iv_disjoint _ _ _ H o o' _ _ f Ho Ho'); [by left|done].
Qed.

Lemma members_ok S D c members : forall w rc,
  inv S D w -> c ∈ D -> counters w !! c = Some rc -> objects w !! stored_ptr rc = Some members ->
  (live_blocks w < bound)%nat ->
  exists w', destroy_members rel (stored_ptr rc) members w = Ok w' tt /\ inv S D w' /\
    frame (D ∖ {[c]}) w w' /\ objects w' !! stored_ptr rc = Some [] /\
    exists rc', counters w' !! c = Some rc' /\ stored_ptr rc' = stored_ptr rc.
Proof.
  induction members as [|f rest IH]; intros w rc H Hd Hc Ho Hl; cbn [destroy_members].
  { exists w. split; [done|]. split; [done|]. split; [apply frame_refl|]. split; [done|]. eauto. }
  destruct (pop_member S D w _ f rest H Ho) as (H1 & Hm1 & HfS & r & Hr).
  rewrite (bind_Ok (modify _) _ _ _ _ eq_refl). set (o := stored_ptr rc) in *.
  set (w1 := set_objects (<[o := rest]> (objects w)) w) in *.
  assert (Hsub : forall q, member w1 q -> member w q).
  { intros q (o' & fs & Ho' & Hq). cbn in Ho'.
    apply lookup_insert_Some in Ho' as [[<- <-]|[Hne Ho']]; [|by exists o', fs].
    exists o, (f :: rest). split; [done|by right]. }
  destruct (destroy_ptr_ok S D w1 f r H1 Hr HfS Hm1 Hl) as (w2 & Hrun & H2 & Hf2).
  set (w2' := set_ptrs (delete f (ptrs w2)) w2) in *. rewrite (bind_Ok _ _ _ _ _ Hrun).
  destruct (fr_down _ _ _ Hf2 c rc Hd Hc) as [(rc2 & Hc2 & E2) Ho2]. fold o in E2, Ho2.
  cbn [w1 set_objects objects] in Ho2. rewrite lookup_insert_eq in Ho2.
  assert (Hf : frame (D ∖ {[c]}) w w2').
  { split.
    - intros q Hq. cbn. rewrite lookup_delete_ne.
      + rewrite (fr_ptrs _ _ _ Hf2); [done|]. intros ?. by apply Hq, Hsub.
      + intros <-. apply Hq. exists o, (f :: rest). split; [done|by left].
    - intros q Hq. apply Hsub, (fr_members _ _ _ Hf2). destruct Hq as (o' & fs & ? & ?). by exists o', fs.
    - intros c0 rc0 Hd0 Hc0. destruct (fr_down _ _ _ Hf2 c0 rc0 ltac:(set_solver) Hc0) as [Ha Hb].
      split; [done|]. cbn. rewrite Hb. cbn. rewrite lookup_insert_ne; [done|]. intros E.
      assert (c0 = c) as ->; [|set_solver].
      apply (iv_distinct _ _ _ (iv_core _ _ _ H) c0 c rc0 rc); try done; right; set_solver.
    - etransitivity; [apply (fr_live _ _ _ Hf2)|done]. }
  rewrite <- E2 in Ho2 |- *. destruct (IH w2' rc2 H2 Hd Hc2 Ho2) as (w3 & Hr3 & H3 & Hf3 & Ho3 & Hc3).
  { pose proof (fr_live _ _ _ Hf). lia. }
  exists w3. split; [done|]. split; [done|]. split; [by eapply frame_trans|]. done.
Qed.
End destruction.

(** The last shared reference to a block: one live block less. *)
Lemma live_drop w c rc rc' :
  counters w !! c = Some rc -> 0 < m_strong_counter rc -> m_strong_counter rc' = 0 ->
  S (live_blocks (set_counters (<[c := rc']> (counters w)) w)) = live_blocks w.
Proof.
  intros Hc Hp H0. unfold live_blocks. cbn [set_counters counters].
  rewrite map_filter_insert, decide_False by (cbn; lia). rewrite map_filter_delete, map_size_delete.
  assert (Hf : filter (fun x : nat * ref_counter => 0 < m_strong_counter x.2) (counters w) !! c = Some rc)
    by (by apply map_lookup_filter_Some).
  rewrite Hf. assert (size (filter (fun x : nat * ref_counter => 0 < m_strong_counter x.2) (counters w)) <> 0%nat).
  { intros E. apply map_size_empty_inv in E. by rewrite E in Hf. }
  lia.
Qed.

Lemma live_keep w c rc rc' :
  counters w !! c = Some rc -> 0 < m_strong_counter rc ->
  (live_blocks (set_counters (<[c := rc']> (counters w)) w) <= live_blocks w)%nat.
Proof.
  intros Hc Hp. unfold live_blocks. cbn [set_counters counters].
  assert (Hf : filter (fun x : nat * ref_counter => 0 < m_strong_counter x.2) (counters w) !! c = Some rc)
    by (by apply map_lookup_filter_Some).
  rewrite map_filter_insert. destruct (decide _).
  - rewrite map_size_insert_Some by eauto. done.
  - rewrite map_filter_delete, map_size_delete. case_match; [apply Nat.le_pred_l|done].
Qed.

(** The end of a destruction: the object is gone and the block loses the reference of
    the shared pointers. *)
Lemma close_block S D w c rc :
  inv S ({[c]} ∪ D) w -> c ∉ D -> counters w !! c = Some rc -> objects w !! stored_ptr rc = Some [] ->
  exists w', (_ ← modify (fun w => set_objects (delete (stored_ptr rc) (objects w)) w); Unfollow c) w = Ok w' tt /\
    inv S D w' /\ ptrs w' = ptrs w /\ objects w' = delete (stored_ptr rc) (objects w) /\
    (forall c', c' <> c -> counters w' !! c' = counters w !! c') /\
    (live_blocks w' <= live_blocks w)%nat.
Proof.
  intros [H Hk] Hd Hc Ho. set (o := stored_ptr rc) in *.
  destruct (iv_down _ _ _ H c ltac:(set_solver)) as (rc0 & Hc0 & Hs0).
  assert (rc0 = rc) as -> by congruence.
  set (w1 := set_objects (delete o (objects w)) w).
  destruct (counters_bounded _ _ _ _ _ H Hc) as [_ Hb]. pose proof (Hk _ _ Hc) as Hpos.
  assert (Hheld : forall c' rc', c' <> c -> held D c' rc' <-> held ({[c]} ∪ D) c' rc').
  { intros c' rc' Hne. unfold held. set_solver. }
  assert (Hnot : ~ held D c rc) by (intros [?|?]; [lia|done]).
  destruct (unfollow_finish S D w1 c rc Hc ltac:(lia)) as (w' & Hu & Hi & Ep & Eo & Hcs & _ & Hl).
  - split; cbn [set_counters set_objects ptrs counters objects w1].
    + intros c' rc'. rewrite lookup_insert_Some. intros [[<- <-]|[Hne Hc']]; [|by apply (iv_strong _ _ _ H)].
      by apply (iv_strong _ _ _ H c rc).
    + intros c' rc'. rewrite lookup_insert_Some. intros [[<- <-]|[Hne Hc']].
      * cbn. rewrite (iv_weak _ _ _ H _ _ Hc). rewrite decide_True by (right; set_solver).
        rewrite decide_False by done. lia.
      * rewrite (decide_ext (held D c' rc') (held ({[c]} ∪ D) c' rc') 1 0) by (apply Hheld; congruence).
        by apply (iv_weak _ _ _ H).
    + intros p r Hp HpS. pose proof (iv_ptr _ _ _ H p r Hp HpS) as Hr.
      destruct (m_ref_counter r) as [c'|]; [|done]. destruct Hr as (rc' & Hc' & Hv).
      destruct (decide (c' = c)) as [->|Hne].
      * eexists. rewrite lookup_insert_eq. split; [done|]. cbn. congruence.
      * exists rc'. by rewrite lookup_insert_ne.
    + intros c' rc'. rewrite lookup_insert_Some. intros [[<- <-]|[Hne Hc']] Hs; [cbn in Hs; lia|].
      rewrite lookup_delete_ne; [by apply (iv_object _ _ _ H c')|]. intros E. apply Hne.
      apply (iv_distinct _ _ _ H c c' rc rc'); try done; [right; set_solver|by left].
    + intros c1 c2 rc1 rc2. rewrite !lookup_insert_Some.
      intros [[<- <-]|[Hn1 H1]] [[<- <-]|[Hn2 H2]] Hh1 Hh2; try done.
      intros E. apply (iv_distinct _ _ _ H c1 c2 rc1 rc2); try done; apply Hheld; congruence.
    + intros o' fs. rewrite lookup_delete_Some. intros [Hne Ho'].
      destruct (iv_owned _ _ _ H o' fs Ho') as (c' & rc' & Hc' & E & Hh').
      assert (c' <> c) by (intros ->; simplify_eq). exists c', rc'. rewrite lookup_insert_ne by done.
      split; [done|]. split; [done|by apply Hheld].
    + intros c' Hc'. destruct (iv_down _ _ _ H c' ltac:(set_solver)) as (rc' & Hrc' & E).
      exists rc'. rewrite lookup_insert_ne; [done|]. intros <-. done.
    + intros o' fs f. rewrite lookup_delete_Some. intros [_ Ho']. by apply (iv_members _ _ _ H o').
    + intros o1 o2 fs1 fs2 f. rewrite !lookup_delete_Some. intros [_ H1] [_ H2].
      by apply (iv_disjoint _ _ _ H o1 o2 fs1 fs2).
    + intros o' fs. rewrite lookup_delete_Some. intros [_ Ho']. by apply (iv_nodup _ _ _ H o').
    + apply (iv_bound _ _ _ H).
  - intros c' rc' _. apply Hk.
  - exists w'. rewrite (bind_Ok (modify _) _ _ _ _ eq_refl). fold w1. split; [done|]. split; [done|].
    split; [done|]. split; [done|]. split; [done|]. etransitivity; [exact Hl|].
    unfold live_blocks. cbn [set_counters counters w1 set_objects]. rewrite map_filter_insert, decide_False by (cbn; lia).
    rewrite map_filter_delete, map_size_delete. case_match; [apply Nat.le_pred_l|done].
Qed.

Lemma release_fuel_ok fuel : release_ok (release fuel) fuel.
Proof.
  induction fuel as [|fuel IH]; intros S D w p r c H Hp Hk Hr HpS Hm Hl; [lia|].
  pose proof (iv_ptr _ _ _ (iv_core _ _ _ H) p r Hp HpS) as Hv. rewrite Hr in Hv.
  destruct Hv as (rc & Hc & _).
  assert (Hpos : 0 < m_strong_counter rc).
  { rewrite (iv_strong _ _ _ (iv_core _ _ _ H) _ _ Hc). apply references_pos. exists p, r. by split. }
  destruct (counters_bounded _ _ _ _ _ (iv_core _ _ _ H) Hc) as [Hb _].
  cbn [release]. rewrite (bind_Ok _ _ _ _ _ (read_counter_ok _ _ _ Hc)), (wrap_small 32) by lia.
  set (n := m_strong_counter rc - 1). set (rc1 := with_strong n rc). cbv zeta.
  set (w1 := set_counters (<[c := rc1]> (counters w)) w).
  rewrite (bind_Ok _ _ w w1 tt) by done.
  assert (Hcd : c ∉ D).
  { intros Hd. destruct (iv_down _ _ _ (iv_core _ _ _ H) c Hd) as (rc0 & Hc0 & E). simplify_eq. lia. }
  assert (Hc1 : counters w1 !! c = Some rc1) by apply lookup_insert_eq.
  assert (Hdrop : forall D', (held D' c rc1) -> (forall c', c' <> c -> c' ∈ D' <-> c' ∈ D) ->
    (c ∈ D' -> n = 0) -> inv ({[p]} ∪ S) D' w1).
  { intros D' Hh HD Hd0. split.
    - apply (drop_reference S D D' w p r c rc rc1); try done; try apply H.
      + rewrite decide_True by done. done.
      + rewrite decide_False by (by rewrite Hk). cbn. lia.
      + split; [by left|done].
    - intros c' rc' . cbn. rewrite lookup_insert_Some. intros [[<- <-]|[_ Hc']].
      + apply (iv_kept _ _ _ H c rc Hc).
      + by apply (iv_kept _ _ _ H c'). }
  destruct (Z.eqb_spec n 0) as [E|E].
  - assert (H1 : inv ({[p]} ∪ S) ({[c]} ∪ D) w1).
    { apply Hdrop; [right; set_solver|clear; set_solver|done]. }
    destruct (iv_object _ _ _ (iv_core _ _ _ H) c rc Hc Hpos) as [fs Ho].
    pose proof (live_drop w c rc rc1 Hc Hpos E) as Hlive. fold w1 in Hlive.
    destruct (members_ok (release fuel) fuel IH ({[p]} ∪ S) ({[c]} ∪ D) c fs w1 rc1 H1 ltac:(set_solver) Hc1 Ho
      ltac:(lia)) as (w2 & Hr2 & H2 & Hf2 & Ho2 & rc2 & Hc2 & E2).
    rewrite <- E2 in Ho2. destruct (close_block ({[p]} ∪ S) D w2 c rc2 H2 Hcd Hc2 Ho2)
      as (w3 & Hr3 & H3 & Ep3 & Eo3 & Hcs3 & Hl3).
    exists w3. split; [|split; [done|]].
    + unfold destroy_object_with. rewrite E2 in Hr3. cbn [stored_ptr rc1 with_strong] in Hr2, Hr3.
      unfold mbind, M_bind, get in *. cbn [objects w1 set_counters]. rewrite Ho. cbn.
      rewrite Hr2. exact Hr3.
    + cbn [stored_ptr rc1 with_strong] in *. split.
      * intros q Hq. rewrite Ep3, (fr_ptrs _ _ _ Hf2); done.
      * intros q (o' & fs' & Ho' & Hq). apply (fr_members _ _ _ Hf2). exists o', fs'. split; [|done].
        rewrite Eo3 in Ho'. by apply lookup_delete_Some in Ho' as [_ ?].
      * intros c0 rc0 Hd0 Hc0. assert (Hne0 : c0 <> c) by (intros ->; done).
        assert (Hc01 : counters w1 !! c0 = Some rc0) by (cbn; by rewrite lookup_insert_ne).
        destruct (fr_down _ _ _ Hf2 c0 rc0 ltac:(set_solver) Hc01) as [(rc0' & Ha & Hb0) Hob].
        split; [exists rc0'; by rewrite Hcs3|]. rewrite Eo3, lookup_delete_ne; [by rewrite Hob|].
        rewrite E2. intros Eo. apply Hne0. symmetry.
        apply (iv_distinct _ _ _ (iv_core _ _ _ H) c c0 rc rc0); try done; [by left|by right].
      * pose proof (fr_live _ _ _ Hf2). lia.
  - exists w1. split; [done|]. split.
    + apply Hdrop; [left; cbn; lia|done|done].
    + split; try done.
      * intros c0 rc0 Hd0 Hc0. split; [|done]. exists rc0. split; [|done].
        cbn. rewrite lookup_insert_ne; [done|]. intros <-. done.
      * by apply (live_keep w c rc).
Qed.

Lemma Release_ok S D w p r c :
  inv S D w -> ptrs w !! p = Some r -> kind r = Shared -> m_ref_counter r = Some c -> p ∉ S ->
  ~ member w p ->
  exists w', Release c w = Ok w' tt /\ inv ({[p]} ∪ S) D w' /\ frame D w w'.
Proof.
  intros. unfold Release. rewrite (bind_Ok get _ w w w eq_refl).
  eapply release_fuel_ok; try done.
  unfold live_blocks. pose proof (map_size_filter (fun x : nat * ref_counter => 0 < m_strong_counter x.2) (counters w)).
  lia.
Qed.
