(* ===== verification/SharedPtrOps.v ===== *)
(** * Taking references, moving and swapping pointers, new objects *)
From Stdlib Require Import ZArith Lia.
From stdpp Require Import base list gmap numbers.
From S2P Require Import Prelude SharedPtr SharedPtrSpec.
#[local] Open Scope Z_scope.

(** A valid state between operations. *)
Definition valid (w : ptr_world) : Prop := inv ∅ ∅ w.

(** A pointer that lives on its own, not inside an object. *)
Definition root (w : ptr_world) (p : nat) (r : rptr) : Prop := ptrs w !! p = Some r /\ ~ member w p.

Lemma fresh_not_member S D w p : inv S D w -> ptrs w !! p = None -> ~ member w p.
Proof.
  intros [H _] Hp (o & fs & Ho & Hf). destruct (iv_members _ _ _ H o fs p Ho Hf) as (_ & r & Hr & _).
  congruence.
Qed.

(** ** A new pointer *)

Lemma new_ptr_ok w p k :
  valid w -> ptrs w !! p = None -> Z.of_nat (size (ptrs w)) + 1 < 2 ^ 32 - 1 ->
  valid (set_ptrs (<[p := null_ptr k]> (ptrs w)) w).
Proof.
  intros [H Hk] Hp Hs. split; [|done].
  assert (Hcount : forall k' c, references k' c ∅ (<[p := null_ptr k]> (ptrs w)) = references k' c ∅ (ptrs w)).
  { intros k' c. rewrite references_insert_new, decide_False by (done || by apply refers_null). lia. }
  split; cbn [set_ptrs ptrs counters objects]; try apply H.
  - intros c rc Hc. rewrite Hcount. by apply (iv_strong _ _ _ H).
  - intros c rc Hc. rewrite Hcount. by apply (iv_weak _ _ _ H).
  - intros q r. rewrite lookup_insert_Some. intros [[<- <-]|[Hne Hq]] HqS; [done|].
    by apply (iv_ptr _ _ _ H q).
  - intros o fs f Ho Hf. destruct (iv_members _ _ _ H o fs f Ho Hf) as (HfS & r & Hr & Hkr).
    split; [done|]. exists r. rewrite lookup_insert_ne; [done|]. intros <-. congruence.
  - rewrite map_size_insert_None by done. lia.
Qed.

(** ** Taking a reference *)

Definition more (k : ptr_kind) (rc : ref_counter) : ref_counter :=
  match k with
  | Shared => with_strong (m_strong_counter rc + 1) rc
  | Weak => with_weak (m_weak_counter rc + 1) rc
  end.

(** A null pointer takes over the object and the block of another one; an expired block
    gets no new shared reference. *)
Lemma gain w p r0 q r c rc :
  valid w -> ptrs w !! p = Some r0 -> m_ref_counter r0 = None ->
  ptrs w !! q = Some r -> m_ref_counter r = Some c -> counters w !! c = Some rc ->
  (kind r0 = Shared -> 0 < m_strong_counter rc) ->
  valid (PtrWorld (<[p := RPtr (kind r0) (m_value_ptr r) (Some c)]> (ptrs w))
           (<[c := more (kind r0) rc]> (counters w)) (objects w)).
Proof.
  intros [H Hk] Hp Hn Hq Hr Hc Hlive. set (x := RPtr (kind r0) (m_value_ptr r) (Some c)).
  assert (Hcount : forall k c', references k c' ∅ (<[p := x]> (ptrs w)) =
    references k c' ∅ (ptrs w) + (if decide (k = kind r0 /\ c' = c) then 1 else 0)).
  { intros k c'. rewrite (references_insert k c' ∅ (ptrs w) p r0 x Hp).
    rewrite (decide_False (P := refers k c' ∅ (p, r0))) by by apply refers_null.
    rewrite (decide_ext (refers k c' ∅ (p, x)) (k = kind r0 /\ c' = c) 1 0); [lia|].
    unfold refers, x. cbn. set_solver. }
  assert (Hv : m_value_ptr r = Some (stored_ptr rc)).
  { pose proof (iv_ptr _ _ _ H q r Hq ltac:(set_solver)) as Hv. rewrite Hr in Hv.
    destruct Hv as (rc' & Hrc' & ->). congruence. }
  assert (Hst : stored_ptr (more (kind r0) rc) = stored_ptr rc) by (by destruct (kind r0)).
  assert (Hheld : held ∅ c (more (kind r0) rc) <-> held ∅ c rc).
  { unfold held. destruct (kind r0); cbn; [|done]. pose proof (Hlive eq_refl). set_solver by lia. }
  split; [split|]; cbn [ptrs counters objects].
  - intros c' rc'. rewrite lookup_insert_Some, Hcount. intros [[<- <-]|[Hne Hc']].
    + rewrite <- (iv_strong _ _ _ H _ _ Hc). destruct (kind r0); cbn;
        [rewrite decide_True by done|rewrite decide_False by naive_solver]; lia.
    + rewrite decide_False by naive_solver. rewrite (iv_strong _ _ _ H _ _ Hc'). lia.
  - intros c' rc'. rewrite lookup_insert_Some, Hcount. intros [[<- <-]|[Hne Hc']].
    + rewrite (decide_ext _ _ 1 0 Hheld). pose proof (iv_weak _ _ _ H _ _ Hc) as Hw.
      destruct (kind r0); cbn; [rewrite (decide_False (P := _ /\ _)) by naive_solver; lia|].
      rewrite (decide_True (P := Weak = Weak /\ c = c)) by done. lia.
    + rewrite (decide_False (P := _ /\ _)) by naive_solver. rewrite (iv_weak _ _ _ H _ _ Hc'). lia.
  - intros p' r'. rewrite lookup_insert_Some. intros [[<- <-]|[Hne Hp']] _.
    + cbn. eexists. rewrite lookup_insert_eq. split; [done|]. by rewrite Hst.
    + pose proof (iv_ptr _ _ _ H p' r' Hp' ltac:(set_solver)) as Hr'.
      destruct (m_ref_counter r') as [c'|]; [|done]. destruct Hr' as (rc' & Hc' & Hv').
      destruct (decide (c' = c)) as [->|Hnc].
      * eexists. rewrite lookup_insert_eq. split; [done|]. rewrite Hst. congruence.
      * exists rc'. by rewrite lookup_insert_ne.
  - intros c' rc'. rewrite lookup_insert_Some. intros [[<- <-]|[Hne Hc']] Hs.
    + rewrite Hst. apply (iv_object _ _ _ H c rc Hc). destruct (kind r0); [by apply Hlive|done].
    + by apply (iv_object _ _ _ H c').
  - intros c1 c2 rc1 rc2. rewrite !lookup_insert_Some.
    intros [[<- <-]|[Hn1 H1]] [[<- <-]|[Hn2 H2]] Hh1 Hh2 E; try done.
    + apply (iv_distinct _ _ _ H c c2 rc rc2); try done; [by apply Hheld|congruence].
    + apply (iv_distinct _ _ _ H c1 c rc1 rc); try done; [by apply Hheld|congruence].
    + by apply (iv_distinct _ _ _ H c1 c2 rc1 rc2).
  - intros o fs Ho. destruct (iv_owned _ _ _ H o fs Ho) as (c' & rc' & Hc' & E & Hh).
    destruct (decide (c' = c)) as [->|Hne].
    + exists c, (more (kind r0) rc). rewrite lookup_insert_eq. simplify_eq. split; [done|].
      split; [done|by apply Hheld].
    + exists c', rc'. by rewrite lookup_insert_ne.
  - intros c' Hc'. set_solver.
  - intros o fs f Ho Hf. destruct (iv_members _ _ _ H o fs f Ho Hf) as (HfS & rf & Hrf & Hkf).
    split; [done|]. destruct (decide (f = p)) as [->|Hne].
    + eexists. rewrite lookup_insert_eq. split; [done|]. cbn. congruence.
    + exists rf. by rewrite lookup_insert_ne.
  - apply (iv_disjoint _ _ _ H).
  - apply (iv_nodup _ _ _ H).
  - rewrite map_size_insert_Some by eauto. apply (iv_bound _ _ _ H).
  - intros c' rc'. rewrite lookup_insert_Some. intros [[<- <-]|[Hne Hc']]; [|by apply (Hk c')].
    pose proof (Hk _ _ Hc). destruct (kind r0); cbn; lia.
Qed.

(** What an operation on roots leaves alone: every other root, and no pointer becomes a
    member. *)
Definition others (X : gset nat) (w w' : ptr_world) : Prop :=
  (forall q, ~ member w q -> q ∉ X -> ptrs w' !! q = ptrs w !! q) /\
  (forall q, member w' q -> member w q).

Lemma others_trans X w1 w2 w3 : others X w1 w2 -> others X w2 w3 -> others X w1 w3.
Proof.
  intros [H1 M1] [H2 M2]. split; [|auto].
  intros q Hm Hq. rewrite H2, H1; auto.
Qed.

Lemma others_mono X Y w w' : X ⊆ Y -> others X w w' -> others Y w w'.
Proof. intros Hs [H1 H2]. split; [|done]. intros q Hm Hq. apply H1; [done|set_solver]. Qed.

Lemma frame_others D w w' : frame D w w' -> others ∅ w w'.
Proof. intros H. split; [|apply (fr_members _ _ _ H)]. intros q Hm _. by apply (fr_ptrs _ _ _ H). Qed.

Lemma set_ptr_others w p r : others {[p]} w (set_ptrs (<[p := r]> (ptrs w)) w).
Proof. split; [|done]. intros q Hm Hq. cbn. rewrite lookup_insert_ne; [done|set_solver]. Qed.

Lemma Release_bound b : release_ok Release b.
Proof. intros S D w p r c H Hp Hk Hr HpS Hm _. by apply (Release_ok S D w p r c). Qed.

(** A shared pointer keeps its object alive. *)
Lemma shared_alive w q r c rc :
  valid w -> ptrs w !! q = Some r -> kind r = Shared -> m_ref_counter r = Some c ->
  counters w !! c = Some rc -> 0 < m_strong_counter rc.
Proof.
  intros [H _] Hq Hk Hr Hc. rewrite (iv_strong _ _ _ H _ _ Hc). apply references_pos. exists q, r.
  split; [done|]. split; [done|]. split; [done|]. set_solver.
Qed.

(** [copy_construct_from] into a null pointer. *)
Lemma copy_null w p r0 q r :
  valid w -> ptrs w !! p = Some r0 -> m_ref_counter r0 = None -> ptrs w !! q = Some r -> p <> q ->
  (kind r0 = Shared -> kind r = Shared \/
     forall c rc, m_ref_counter r = Some c -> counters w !! c = Some rc -> 0 < m_strong_counter rc) ->
  exists w', (r ← read_ptr q; _ ← write_ptr p (m_value_ptr r) (m_ref_counter r); incref_if_not_null p) w
      = Ok w' tt /\ valid w' /\
    ptrs w' = <[p := RPtr (kind r0) (m_value_ptr r) (m_ref_counter r)]> (ptrs w) /\
    objects w' = objects w.
Proof.
  intros H Hp Hn Hq Hne Hs. rewrite (bind_Ok _ _ _ _ _ (read_ptr_ok _ _ _ Hq)).
  rewrite (bind_Ok _ _ _ _ _ (write_ptr_ok _ _ _ _ _ Hp)). set (x := RPtr _ _ _).
  unfold incref_if_not_null. rewrite (bind_Ok _ _ _ _ _ (read_ptr_ok (set_ptrs _ w) p x (lookup_insert_eq _ _ _))).
  cbn [m_ref_counter x kind]. destruct (m_ref_counter r) as [c|] eqn:E.
  - pose proof (iv_ptr _ _ _ (iv_core _ _ _ H) q r Hq ltac:(set_solver)) as Hv. rewrite E in Hv.
    destruct Hv as (rc & Hc & Hv). destruct (counters_bounded _ _ _ _ _ (iv_core _ _ _ H) Hc) as [Hb1 Hb2].
    assert (Hlive : kind r0 = Shared -> 0 < m_strong_counter rc).
    { intros Hk. destruct (Hs Hk) as [Hkq|Hkq]; [by apply (shared_alive w q r c rc)|by apply (Hkq c)]. }
    pose proof (gain w p r0 q r c rc H Hp Hn Hq E Hc Hlive) as Hg. fold x in Hg.
    eexists. split; [|split; [exact Hg|done]].
    pose proof (iv_weak _ _ _ (iv_core _ _ _ H) _ _ Hc) as Hw.
    assert (Hwb : m_weak_counter rc + 1 < 2 ^ 32 \/ kind r0 = Shared).
    { destruct (kind r0) eqn:Ek; [by right|left].
      assert (Hgc := iv_core _ _ _ Hg). pose proof (counters_bounded _ _ _ c _ Hgc (lookup_insert_eq _ _ _)) as [_ Hb].
      cbn in Hb. lia. }
    unfold incref. destruct (kind r0) eqn:Ek.
    + unfold Acquire. rewrite (bind_Ok _ _ _ _ _ (read_counter_ok (set_ptrs _ w) c rc Hc)).
      rewrite (wrap_small 32) by lia. done.
    + unfold Follow. rewrite (bind_Ok _ _ _ _ _ (read_counter_ok (set_ptrs _ w) c rc Hc)).
      rewrite (wrap_small 32) by (destruct Hwb; [lia|done]). done.
  - eexists. split; [reflexivity|]. split; [|done].
    assert (Hv := iv_ptr _ _ _ (iv_core _ _ _ H) q r Hq ltac:(set_solver)). rewrite E in Hv.
    assert (Ex : x = r0).
    { pose proof (iv_ptr _ _ _ (iv_core _ _ _ H) p r0 Hp ltac:(set_solver)) as Hv0. rewrite Hn in Hv0.
      unfold x. rewrite Hv. destruct r0; cbn in *; congruence. }
    rewrite Ex. unfold set_ptrs. rewrite insert_id by done. by destruct w.
Qed.

(** ** Copying, moving, swapping roots *)

Lemma drop_root w p r :
  valid w -> root w p r ->
  exists w1, decref_if_not_null p w = Ok w1 tt /\ others ∅ w w1 /\ ptrs w1 !! p = Some r /\
    valid (set_ptrs (<[p := null_ptr (kind r)]> (ptrs w1)) w1).
Proof.
  intros H [Hp Hm]. destruct (decref_ok Release (S (live_blocks w)) (Release_bound _) ∅ ∅ w p r H Hp
    ltac:(set_solver) Hm ltac:(lia)) as (w1 & Hd & Hi & Hf).
  exists w1. split; [done|]. split; [by eapply frame_others|].
  assert (Hp1 : ptrs w1 !! p = Some r) by (by rewrite (fr_ptrs _ _ _ Hf)). split; [done|].
  by apply (unstale ∅ ∅ w1 p r).
Qed.

Lemma copy_root w p rp q r :
  valid w -> root w p rp -> root w q r -> p <> q -> (kind rp = Shared -> kind r = Shared) ->
  exists w', copy_construct_from p q w = Ok w' tt /\ valid w' /\ others {[p]} w w' /\
    ptrs w' !! p = Some (RPtr (kind rp) (m_value_ptr r) (m_ref_counter r)).
Proof.
  intros H Hp [Hq Hmq] Hne Hk. destruct (drop_root w p rp H Hp) as (w1 & Hd & Ho & Hp1 & Hv).
  set (w2 := set_ptrs (<[p := null_ptr (kind rp)]> (ptrs w1)) w1) in *.
  assert (Hq1 : ptrs w1 !! q = Some r) by (rewrite (proj1 Ho); [done|done|set_solver]).
  assert (Hq2 : ptrs w2 !! q = Some r) by (cbn; by rewrite lookup_insert_ne).
  destruct (copy_null w2 p (null_ptr (kind rp)) q r Hv (lookup_insert_eq _ _ _) eq_refl Hq2 Hne)
    as (w' & Hr & Hv' & Ep & Eo); [cbn; auto|].
  exists w'. split; [|split; [done|]].
  - unfold copy_construct_from. rewrite (bind_Ok _ _ _ _ _ Hd), (bind_Ok _ _ _ _ _ (read_ptr_ok _ _ _ Hq1)).
    rewrite (bind_Ok _ _ _ _ _ (read_ptr_ok _ _ _ Hq2)) in Hr.
    rewrite (bind_Ok _ _ _ _ _ (write_ptr_ok _ _ _ _ _ Hp1)).
    rewrite (bind_Ok _ _ _ _ _ (write_ptr_ok w2 p _ _ _ (lookup_insert_eq _ _ _))) in Hr.
    unfold w2, set_ptrs in Hr. cbn in Hr. rewrite insert_insert_eq in Hr. exact Hr.
  - split; [|by rewrite Ep, lookup_insert_eq]. apply (others_trans _ w w1).
    { apply (others_mono ∅); [set_solver|done]. }
    split.
    + intros q' _ Hq'. rewrite Ep. unfold w2. cbn.
      rewrite insert_insert_eq, lookup_insert_ne; [done|set_solver].
    + intros q' (o & fs & Ho' & Hf). exists o, fs. by rewrite Eo in Ho'.
Qed.

(** Exchanging the contents of two pointers of the same kind. *)
Lemma swap_valid w p q rp rq :
  valid w -> ptrs w !! p = Some rp -> ptrs w !! q = Some rq -> kind rp = kind rq -> p <> q ->
  valid (set_ptrs (<[q := rp]> (<[p := rq]> (ptrs w))) w).
Proof.
  intros [H Hk] Hp Hq Hkind Hne. split; [|done].
  assert (Hcount : forall k c, references k c ∅ (<[q := rp]> (<[p := rq]> (ptrs w))) = references k c ∅ (ptrs w)).
  { intros k c. rewrite (references_insert k c ∅ _ q rq) by by rewrite lookup_insert_ne.
    rewrite (references_insert k c ∅ _ p rp) by done.
    rewrite (decide_ext (refers k c ∅ (q, rp)) (refers k c ∅ (p, rp)) 1 0) by (unfold refers; set_solver).
    rewrite (decide_ext (refers k c ∅ (p, rq)) (refers k c ∅ (q, rq)) 1 0) by (unfold refers; set_solver).
    lia. }
  split; cbn [set_ptrs ptrs counters objects]; try apply H.
  - intros c rc Hc. rewrite Hcount. by apply (iv_strong _ _ _ H).
  - intros c rc Hc. rewrite Hcount. by apply (iv_weak _ _ _ H).
  - intros x rx. rewrite !lookup_insert_Some. intros [[<- <-]|[Hx [[<- <-]|[Hx' Hrx]]]] _.
    + by apply (iv_ptr _ _ _ H p).
    + by apply (iv_ptr _ _ _ H q).
    + by apply (iv_ptr _ _ _ H x).
  - intros o fs f Ho Hf. destruct (iv_members _ _ _ H o fs f Ho Hf) as (HfS & rf & Hrf & Hkf).
    split; [done|]. destruct (decide (f = q)) as [->|Hfq].
    + exists rp. rewrite lookup_insert_eq. split; [done|congruence].
    + destruct (decide (f = p)) as [->|Hfp].
      * exists rq. rewrite lookup_insert_ne, lookup_insert_eq by done. split; [done|congruence].
      * exists rf. by rewrite !lookup_insert_ne.
  - rewrite !map_size_insert_Some; [apply (iv_bound _ _ _ H)|by eauto|].
    rewrite lookup_insert_ne by done. eauto.
Qed.

Lemma swap_root w p q rp rq :
  valid w -> ptrs w !! p = Some rp -> ptrs w !! q = Some rq -> kind rp = kind rq -> p <> q ->
  exists w', swap_ptrs p q w = Ok w' tt /\ valid w' /\ w' = set_ptrs (<[q := rp]> (<[p := rq]> (ptrs w))) w.
Proof.
  intros H Hp Hq Hk Hne. eexists. split; [|split; [by apply (swap_valid w p q rp rq)|done]].
  unfold swap_ptrs. rewrite (bind_Ok _ _ _ _ _ (read_ptr_ok _ _ _ Hp)), (bind_Ok _ _ _ _ _ (read_ptr_ok _ _ _ Hq)).
  rewrite (bind_Ok _ _ _ _ _ (write_ptr_ok _ _ _ _ _ Hp)).
  rewrite (write_ptr_ok _ q rq) by (cbn; by rewrite lookup_insert_ne).
  unfold set_ptrs. cbn. rewrite Hk. destruct rp, rq; cbn in *. by rewrite Hk.
Qed.

(** Moving into a root that has dropped its reference. *)
Lemma move_root w p rp q r :
  valid w -> root w p rp -> root w q r -> p <> q -> kind rp = kind r ->
  exists w', move_construct_from p q w = Ok w' tt /\ valid w' /\ others {[p; q]} w w' /\
    ptrs w' !! p = Some r /\ ptrs w' !! q = Some (null_ptr (kind r)).
Proof.
  intros H Hp [Hq Hmq] Hne Hk. destruct (drop_root w p rp H Hp) as (w1 & Hd & Ho & Hp1 & Hv).
  set (w2 := set_ptrs (<[p := null_ptr (kind rp)]> (ptrs w1)) w1) in *.
  assert (Hq1 : ptrs w1 !! q = Some r) by (rewrite (proj1 Ho); [done|done|set_solver]).
  assert (Hq2 : ptrs w2 !! q = Some r) by (cbn; by rewrite lookup_insert_ne).
  pose proof (swap_valid w2 p q (null_ptr (kind rp)) r Hv (lookup_insert_eq _ _ _) Hq2 Hk Hne) as Hs.
  eexists. split; [|split; [exact Hs|]].
  - unfold move_construct_from. rewrite (bind_Ok _ _ _ _ _ Hd), (bind_Ok _ _ _ _ _ (read_ptr_ok _ _ _ Hq1)).
    rewrite (bind_Ok _ _ _ _ _ (write_ptr_ok _ _ _ _ _ Hp1)).
    rewrite (write_ptr_ok _ q r) by (cbn; by rewrite lookup_insert_ne).
    unfold w2, set_ptrs, null_ptr. cbn. rewrite insert_insert_eq, Hk. by destruct r.
  - cbn. rewrite insert_insert_eq. split; [|split].
    + apply (others_trans _ w w1); [apply (others_mono ∅); [set_solver|done]|]. split; [|done].
      intros x _ Hx. cbn. rewrite !lookup_insert_ne by set_solver. done.
    + rewrite lookup_insert_ne by done. by rewrite lookup_insert_eq.
    + by rewrite lookup_insert_eq, Hk.
Qed.

(** ** Destruction of roots *)

Lemma reset_root w p r :
  valid w -> root w p r ->
  exists w', reset p w = Ok w' tt /\ valid w' /\ others {[p]} w w' /\ ptrs w' !! p = Some (null_ptr (kind r)).
Proof.
  intros H Hr. destruct (drop_root w p r H Hr) as (w1 & Hd & Ho & Hp1 & Hv).
  eexists. split; [|split; [exact Hv|]].
  - unfold reset, reset_with. fold decref_if_not_null. by rewrite (bind_Ok _ _ _ _ _ Hd), (write_ptr_ok _ _ _ _ _ Hp1).
  - split; [|by cbn; rewrite lookup_insert_eq]. apply (others_trans _ w w1).
    + apply (others_mono ∅); [set_solver|done].
    + apply set_ptr_others.
Qed.

Lemma destroy_root w p r :
  valid w -> root w p r ->
  exists w', destroy_ptr p w = Ok w' tt /\ valid w' /\ others {[p]} w w' /\ ptrs w' !! p = None.
Proof.
  intros H [Hp Hm]. destruct (destroy_ptr_ok Release (S (live_blocks w)) (Release_bound _) ∅ ∅ w p r H Hp
    ltac:(set_solver) Hm ltac:(lia)) as (w1 & Hd & Hi & Hf).
  eexists. split; [exact Hd|]. split; [done|]. split; [|by cbn; rewrite lookup_delete_eq].
  apply (others_trans _ w w1); [apply (others_mono ∅); [set_solver|by eapply frame_others]|].
  split; [|done]. intros q _ Hq. cbn. rewrite lookup_delete_ne; [done|set_solver].
Qed.

(** ** New objects *)

Lemma add_members_lookup fs m q :
  add_members fs m !! q = if decide (q ∈ fs) then Some (null_ptr Shared) else m !! q.
Proof.
  induction fs as [|f fs IH]; [cbn; by rewrite decide_False by apply not_elem_of_nil|].
  change (add_members (f :: fs) m) with (<[f := null_ptr Shared]> (add_members fs m)).
  destruct (decide (q = f)) as [->|Hne].
  - rewrite lookup_insert_eq, decide_True; [done|by left].
  - rewrite lookup_insert_ne, IH by done. apply decide_ext. rewrite elem_of_cons. naive_solver.
Qed.

(** The identities of the members are new. *)
Definition new_members (fs : list nat) (m : gmap nat rptr) : Prop :=
  NoDup fs /\ Forall (fun f => m !! f = None) fs.

Lemma add_members_holders fs m k c :
  new_members fs m -> references k c ∅ (add_members fs m) = references k c ∅ m /\
  size (add_members fs m) = (size m + length fs)%nat.
Proof.
  unfold new_members. induction fs as [|f fs IH]; [split; [done|cbn; lia]|].
  change (add_members (f :: fs) m) with (<[f := null_ptr Shared]> (add_members fs m)). cbn [length].
  rewrite list.NoDup_cons, list.Forall_cons. intros ((Hf & Hn) & Hfm & Hm).
  destruct (IH (conj Hn Hm)) as [IH1 IH2].
  assert (Hnone : add_members fs m !! f = None) by (rewrite add_members_lookup, decide_False; done).
  split.
  - rewrite references_insert_new, decide_False by (done || by apply refers_null). lia.
  - rewrite map_size_insert_None by done. lia.
Qed.

(** A new object with its block and its first shared pointer. *)
Lemma adopt w p o fs c :
  valid w -> new_members (p :: fs) (ptrs w) -> objects w !! o = None -> counters w !! c = None ->
  Z.of_nat (size (ptrs w) + length fs) + 1 < 2 ^ 32 - 1 ->
  valid (PtrWorld (<[p := RPtr Shared (Some o) (Some c)]> (add_members fs (ptrs w)))
           (<[c := RefCounter 1 1 o]> (counters w)) (<[o := fs]> (objects w))).
Proof.
  intros [H Hk] [Hnd Hnew] Ho Hc Hb. apply list.NoDup_cons in Hnd as [Hpf Hnd].
  apply list.Forall_cons in Hnew as [Hpn Hnew].
  pose proof (fun k c => proj1 (add_members_holders fs (ptrs w) k c (conj Hnd Hnew))) as Hh0.
  pose proof (proj2 (add_members_holders fs (ptrs w) Shared 0 (conj Hnd Hnew))) as Hsz.
  set (m := add_members fs (ptrs w)) in *.
  assert (Hpm : m !! p = None) by (unfold m; by rewrite add_members_lookup, decide_False).
  set (x := RPtr Shared (Some o) (Some c)).
  assert (Hcount : forall k c', references k c' ∅ (<[p := x]> m) =
    references k c' ∅ (ptrs w) + (if decide (k = Shared /\ c' = c) then 1 else 0)).
  { intros k c'. rewrite references_insert_new, Hh0 by done. f_equal. apply decide_ext.
    unfold refers, x. cbn. set_solver. }
  assert (Hnone : forall k, references k c ∅ (ptrs w) = 0).
  { intros k. pose proof (references_nonneg k c ∅ (ptrs w)). apply Z.le_antisymm; [|done].
    apply Z.nlt_ge. intros (q & r & Hq & Hr & Hrc & _)%references_pos. cbn in *.
    pose proof (iv_ptr _ _ _ H q r Hq ltac:(set_solver)) as Hv. rewrite Hrc in Hv.
    destruct Hv as (rc & Hrc' & _). congruence. }
  assert (Hold : forall c' rc', counters w !! c' = Some rc' -> held ∅ c' rc' -> stored_ptr rc' <> o).
  { intros c' rc' Hc' [Hs|?]; [|set_solver]. intros <-.
    destruct (iv_object _ _ _ H c' rc' Hc' Hs). congruence. }
  split; [split|]; cbn [ptrs counters objects].
  - intros c' rc'. rewrite lookup_insert_Some, Hcount. intros [[<- <-]|[Hne Hc']].
    + rewrite Hnone, decide_True by done. done.
    + rewrite decide_False by naive_solver. rewrite (iv_strong _ _ _ H _ _ Hc'). lia.
  - intros c' rc'. rewrite lookup_insert_Some, Hcount. intros [[<- <-]|[Hne Hc']].
    + rewrite Hnone, (decide_False (P := _ /\ _)), decide_True; [done|by left|naive_solver].
    + rewrite (decide_False (P := _ /\ _)) by naive_solver. rewrite (iv_weak _ _ _ H _ _ Hc'). lia.
  - intros q r. rewrite lookup_insert_Some. intros [[<- <-]|[Hne Hq]] _.
    + cbn. eexists. by rewrite lookup_insert_eq.
    + unfold m in Hq. rewrite add_members_lookup in Hq. destruct (decide (q ∈ fs)); [by simplify_eq|].
      pose proof (iv_ptr _ _ _ H q r Hq ltac:(set_solver)) as Hv.
      destruct (m_ref_counter r) as [c'|]; [|done]. destruct Hv as (rc' & Hc' & Hv).
      exists rc'. rewrite lookup_insert_ne by congruence. done.
  - intros c' rc'. rewrite lookup_insert_Some. intros [[<- <-]|[Hne Hc']] Hs.
    + cbn. rewrite lookup_insert_eq. eauto.
    + rewrite lookup_insert_ne; [by apply (iv_object _ _ _ H c')|]. symmetry. apply (Hold c'); [done|by left].
  - intros c1 c2 rc1 rc2. rewrite !lookup_insert_Some.
    intros [[<- <-]|[Hn1 H1]] [[<- <-]|[Hn2 H2]] Hh1 Hh2 E; try done.
    + by destruct (Hold c2 rc2 H2 Hh2).
    + by destruct (Hold c1 rc1 H1 Hh1).
    + by apply (iv_distinct _ _ _ H c1 c2 rc1 rc2).
  - intros o' fs'. rewrite lookup_insert_Some. intros [[<- <-]|[Hne Ho']].
    + exists c, (RefCounter 1 1 o). rewrite lookup_insert_eq. split; [done|]. split; [done|by left].
    + destruct (iv_owned _ _ _ H o' fs' Ho') as (c' & rc' & Hc' & E & Hh). exists c', rc'.
      rewrite lookup_insert_ne by congruence. done.
  - intros c'. set_solver.
  - intros o' fs' f. rewrite lookup_insert_Some. intros [[<- <-]|[Hne Ho']] Hf; (split; [set_solver|]).
    + exists (null_ptr Shared). rewrite lookup_insert_ne by (intros <-; done).
      unfold m. by rewrite add_members_lookup, decide_True.
    + destruct (iv_members _ _ _ H o' fs' f Ho' Hf) as (_ & r & Hr & Hkr). exists r.
      rewrite lookup_insert_ne by congruence. unfold m. rewrite add_members_lookup, decide_False; [done|].
      intros Hin. rewrite Forall_forall in Hnew. rewrite (Hnew f) in Hr; [done|by apply list_elem_of_In].
  - assert (Hcross : forall o' fs' f, objects w !! o' = Some fs' -> f ∈ fs' -> f ∉ fs).
    { intros o' fs' f Ho' Hf Hin. destruct (iv_members _ _ _ H o' fs' f Ho' Hf) as (_ & r & Hr & _).
      rewrite Forall_forall in Hnew. rewrite (Hnew f) in Hr; [done|by apply list_elem_of_In]. }
    intros o1 o2 fs1 fs2 f. rewrite !lookup_insert_Some.
    intros [[<- <-]|[Hn1 H1]] [[<- <-]|[Hn2 H2]] Hf1 Hf2; try done.
    + by destruct (Hcross o2 fs2 f H2 Hf2).
    + by destruct (Hcross o1 fs1 f H1 Hf1).
    + by apply (iv_disjoint _ _ _ H o1 o2 fs1 fs2 f).
  - intros o' fs'. rewrite lookup_insert_Some. intros [[<- <-]|[Hne Ho']]; [done|].
    by apply (iv_nodup _ _ _ H o').
  - rewrite map_size_insert_None by done. lia.
  - intros c' rc'. rewrite lookup_insert_Some. intros [[<- <-]|[Hne Hc']]; [done|by apply (Hk c')].
Qed.
