(* ===== verification/SharedPtrTheorems.v ===== *)
(** * Properties of shared and weak pointers

    The states a client can reach with pointers that live on their own and objects
    whose members are set once; in all of them the counters are exact.  The assignments
    and resets through members that are undefined. *)
From Stdlib Require Import ZArith Lia.
From stdpp Require Import base list gmap numbers.
From S2P Require Import Prelude SharedPtr SharedPtrSpec SharedPtrOps.
#[local] Open Scope Z_scope.

(** ** Clients *)

Inductive sp_op :=
  | SNull (k : ptr_kind) (p : nat)
  | SNew (p o : nat) (members : list nat)
  | SMake (p o : nat) (members : list nat)
  | SCopy (k : ptr_kind) (p q : nat)
  | SFromWeak (p q : nat)
  | SMove (k : ptr_kind) (p q : nat)
  | SAssign (k : ptr_kind) (p q : nat)
  | SMoveAssign (k : ptr_kind) (p q : nat)
  | SReset (k : ptr_kind) (p : nat)
  | SResetPtr (p tmp o : nat) (members : list nat)
  | SSwap (k : ptr_kind) (p q : nat)
  | SDestroy (k : ptr_kind) (p : nat)
  | SLink (f q : nat)
  | SUseCount (k : ptr_kind) (p : nat)
  | SLock (p tmp q : nat).

Definition sp_unit (m : M ptr_world unit) : M ptr_world Z := _ ← m; mret 0.

Definition sp_step `{A : counter_memory} (op : sp_op) : M ptr_world Z :=
  match op with
  | SNull k p => sp_unit (new_ptr p k)
  | SNew p o fs => sp_unit (_ ← new_object o fs; shared_from_ptr p (Some o))
  | SMake p o fs => sp_unit (make_shared p o fs)
  | SCopy k p q => sp_unit (copy_ptr k p q)
  | SFromWeak p q => sp_unit (shared_from_weak_ptr p q)
  | SMove k p q => sp_unit (move_ptr k p q)
  | SAssign _ p q => sp_unit (assign_ptr p q)
  | SMoveAssign _ p q => sp_unit (move_assign_ptr p q)
  | SReset _ p => sp_unit (reset p)
  | SResetPtr p tmp o fs => sp_unit (_ ← new_object o fs; reset_ptr p tmp (Some o))
  | SSwap _ p q => sp_unit (swap_ptrs p q)
  | SDestroy _ p => sp_unit (destroy_ptr p)
  | SLink f q => sp_unit (assign_ptr f q)
  | SUseCount _ p => use_count p
  | SLock p tmp q => sp_unit (lock p tmp q)
  end.

#[export] Instance member_dec w p : Decision (member w p).
Proof.
  refine (cast_if (decide (map_Exists (fun _ fs => p ∈ fs) (objects w)))).
  - abstract (destruct m as (o & fs & ? & ?); by exists o, fs).
  - abstract (intros (o & fs & ? & ?); apply n; by exists o, fs).
Defined.

Definition root_of (k : ptr_kind) (w : ptr_world) (p : nat) : Prop :=
  match ptrs w !! p with Some r => kind r = k /\ ~ member w p | None => False end.
Definition absent (w : ptr_world) (p : nat) : Prop := ptrs w !! p = None.
Definition room (w : ptr_world) (n : nat) : Prop := Z.of_nat (size (ptrs w) + n) < 2 ^ 32 - 1.

#[export] Instance root_of_dec k w p : Decision (root_of k w p).
Proof. unfold root_of. destruct (ptrs w !! p); apply _. Defined.
#[export] Instance new_members_dec fs m : Decision (new_members fs m).
Proof. unfold new_members. apply _. Defined.

(** What a client must respect. *)
Definition sp_ok (op : sp_op) (w : ptr_world) : Prop :=
  match op with
  | SNull _ p => absent w p /\ room w 1
  | SNew p o fs | SMake p o fs =>
      new_members (p :: fs) (ptrs w) /\ objects w !! o = None /\ room w (length fs + 1)
  | SCopy k p q => absent w p /\ room w 1 /\ (root_of Shared w q \/ k = Weak /\ root_of Weak w q)
  | SFromWeak p q => absent w p /\ room w 1 /\ root_of Weak w q
  | SMove k p q => absent w p /\ room w 1 /\ root_of k w q
  | SAssign k p q | SMoveAssign k p q => root_of k w p /\ root_of k w q
  | SSwap k p q => root_of k w p /\ root_of k w q /\ p <> q
  | SReset k p | SDestroy k p | SUseCount k p => root_of k w p
  | SResetPtr p tmp o fs => root_of Shared w p /\
      new_members (tmp :: fs) (ptrs w) /\ objects w !! o = None /\ room w (length fs + 1)
  | SLink f q => ptrs w !! f = Some (null_ptr Shared) /\ root_of Shared w q /\ f <> q
  | SLock p tmp q => absent w p /\ absent w tmp /\ p <> tmp /\ room w 2 /\ root_of Weak w q
  end.

#[export] Instance sp_ok_dec op w : Decision (sp_ok op w).
Proof. destruct op; cbn; unfold absent, room; apply _. Defined.

(** ** Every operation keeps a valid state valid *)

Section steps.
Context `{A : counter_memory}.

(** Normal return in a valid state, or an exception that leaves everything as it was, or
    the end of the program. *)
Definition sp_good {R} (w : ptr_world) (r : outcome ptr_world R) : Prop :=
  match r with
  | Ok w' _ => valid w'
  | Throw w' e => (w' = w /\ (e = bad_alloc \/ e = bad_weak_ptr)) \/ e = terminated NoexceptViolation
  | _ => False
  end.

Lemma good_unit w (m : M ptr_world unit) : sp_good w (m w) -> sp_good w (sp_unit m w).
Proof. unfold sp_unit, mbind, M_bind. by destruct (m w). Qed.

Lemma root_of_inv k w p : root_of k w p -> exists r, root w p r /\ kind r = k.
Proof. unfold root_of, root. destruct (ptrs w !! p) as [r|]; [|done]. intros [? ?]. eauto. Qed.

Lemma new_null w p k :
  valid w -> absent w p -> room w 1 ->
  let w1 := set_ptrs (<[p := null_ptr k]> (ptrs w)) w in
  new_ptr p k w = Ok w1 tt /\ valid w1 /\ root w1 p (null_ptr k) /\
  (forall q r, root w q r -> root w1 q r /\ q <> p).
Proof.
  intros H Hp Hr w1. unfold room in Hr. split; [done|]. split; [apply new_ptr_ok; [done|done|lia]|].
  assert (Hm : forall q, member w1 q <-> member w q) by done.
  split; [split; [apply lookup_insert_eq|rewrite Hm; by eapply fresh_not_member]|].
  intros q r [Hq Hmq]. assert (q <> p) by (intros ->; unfold absent in Hp; congruence).
  split; [|done]. split; [cbn; by rewrite lookup_insert_ne|done].
Qed.

Lemma expired_ok w q r :
  valid w -> ptrs w !! q = Some r -> kind r = Weak ->
  exists b, expired q w = Ok w b /\
    (b = true <-> forall c, m_ref_counter r = Some c -> references Shared c ∅ (ptrs w) = 0).
Proof.
  intros H Hq Hk. unfold expired, use_count.
  pose proof (iv_ptr _ _ _ (iv_core _ _ _ H) q r Hq ltac:(set_solver)) as Hv.
  destruct (m_ref_counter r) as [c|] eqn:E.
  - destruct Hv as (rc & Hc & _). exists (m_strong_counter rc =? 0). split.
    + unfold mbind, M_bind. rewrite (read_ptr_ok _ _ _ Hq), E, (read_counter_ok _ _ _ Hc). done.
    + rewrite (iv_strong _ _ _ (iv_core _ _ _ H) _ _ Hc), Z.eqb_eq. naive_solver.
  - exists true. split; [|done]. unfold mbind, M_bind. by rewrite (read_ptr_ok _ _ _ Hq), E.
Qed.

(** [copy_construct_from] into a pointer that was just constructed. *)
Lemma copy_new w p k q r :
  valid w -> ptrs w !! p = Some (null_ptr k) -> ptrs w !! q = Some r -> p <> q ->
  (k = Shared -> kind r = Shared \/
     forall c rc, m_ref_counter r = Some c -> counters w !! c = Some rc -> 0 < m_strong_counter rc) ->
  exists w', copy_construct_from p q w = Ok w' tt /\ valid w' /\
    ptrs w' = <[p := RPtr k (m_value_ptr r) (m_ref_counter r)]> (ptrs w) /\ objects w' = objects w.
Proof.
  intros H Hp Hq Hne Hs. destruct (copy_null w p (null_ptr k) q r H Hp eq_refl Hq Hne Hs) as (w' & Hr & Hv & Ep & Eo).
  exists w'. split; [|done]. unfold copy_construct_from, decref_if_not_null, decref_if_not_null_with.
  rewrite (bind_Ok _ _ _ w tt); [exact Hr|]. by rewrite (bind_Ok _ _ _ _ _ (read_ptr_ok _ _ _ Hp)).
Qed.

Lemma shared_from_weak_good w p q :
  valid w -> absent w p -> room w 1 -> root_of Weak w q -> sp_good w (shared_from_weak_ptr p q w).
Proof.
  intros H Hp Hr Hq. destruct (root_of_inv _ _ _ Hq) as (r & [Hq' Hm] & Hk).
  destruct (expired_ok w q r H Hq' Hk) as (b & He & Hb). unfold shared_from_weak_ptr.
  rewrite (bind_Ok _ _ _ _ _ He). destruct b; [left; split; [done|by right]|].
  destruct (new_null w p Shared H Hp Hr) as (Hn & Hv & [Hp1 _] & Hroots).
  destruct (Hroots q r (conj Hq' Hm)) as [[Hq1 _] Hne]. rewrite (bind_Ok _ _ _ _ _ Hn).
  destruct (copy_new _ p Shared q r Hv Hp1 Hq1 ltac:(done)) as (w' & -> & Hv' & _); [|done].
  intros _. right. intros c rc Hc Hrc. cbn in Hrc.
  rewrite (iv_strong _ _ _ (iv_core _ _ _ H) _ _ Hrc). pose proof (references_nonneg Shared c ∅ (ptrs w)).
  assert (references Shared c ∅ (ptrs w) <> 0); [|lia]. intros E.
  assert (false = true); [|done]. apply Hb. intros c' Hc'. by simplify_eq.
Qed.

(** The result of [lock]: null if no shared pointer refers to the block. *)
Lemma lock_spec w p tmp q r :
  valid w -> absent w p -> absent w tmp -> p <> tmp -> room w 2 -> root w q r -> kind r = Weak ->
  exists w' b, lock p tmp q w = Ok w' tt /\ valid w' /\ others {[p; tmp]} w w' /\
    ptrs w' !! tmp = None /\
    (b = true <-> forall c, m_ref_counter r = Some c -> references Shared c ∅ (ptrs w) = 0) /\
    ptrs w' !! p = Some (if b then null_ptr Shared else RPtr Shared (m_value_ptr r) (m_ref_counter r)).
Proof.
  intros H Hp Ht Hne Hr [Hq Hm] Hk. unfold absent, room in *.
  destruct (new_null w tmp Shared H Ht ltac:(unfold room; lia)) as (Hn & Hv & [Ht1 Hmt1] & Hroots).
  set (w1 := set_ptrs (<[tmp := null_ptr Shared]> (ptrs w)) w) in *.
  destruct (Hroots q r (conj Hq Hm)) as [[Hq1 Hm1] Hqt].
  destruct (expired_ok w1 q r Hv Hq1 Hk) as (b & He & Hb).
  assert (Hcount : forall c, references Shared c ∅ (ptrs w1) = references Shared c ∅ (ptrs w)).
  { intros c. cbn. rewrite references_insert_new, decide_False by (done || by apply refers_null). lia. }
  assert (Hcopy : exists w2, (if b then mret tt else copy_construct_from tmp q) w1 = Ok w2 tt /\ valid w2 /\
    ptrs w2 = <[tmp := if b then null_ptr Shared else RPtr Shared (m_value_ptr r) (m_ref_counter r)]> (ptrs w1) /\
    objects w2 = objects w1).
  { destruct b.
    - exists w1. split; [done|]. split; [done|]. split; [by rewrite insert_id|done].
    - apply copy_new; try done. intros _. right. intros c rc Hc Hrc.
      rewrite (iv_strong _ _ _ (iv_core _ _ _ Hv) _ _ Hrc). pose proof (references_nonneg Shared c ∅ (ptrs w1)).
      assert (references Shared c ∅ (ptrs w1) <> 0); [|lia]. intros E.
      assert (false = true); [|done]. apply Hb. intros c' Hc'. by simplify_eq. }
  destruct Hcopy as (w2 & Hc & Hv2 & Ep2 & Eo2).
  set (x := if b then null_ptr Shared else RPtr Shared (m_value_ptr r) (m_ref_counter r)) in *.
  assert (Hkx : kind x = Shared) by (unfold x; by destruct b).
  assert (Hmem : forall o, member w2 o <-> member w o) by (intros o; unfold member; by rewrite Eo2).
  assert (Hp2 : absent w2 p) by (unfold absent; rewrite Ep2; cbn; by rewrite !lookup_insert_ne).
  assert (Hsz : size (ptrs w2) = (size (ptrs w) + 1)%nat).
  { rewrite Ep2. cbn. rewrite insert_insert_eq, map_size_insert_None by done. lia. }
  destruct (new_null w2 p Shared Hv2 Hp2 ltac:(unfold room; lia)) as (Hn3 & Hv3 & Hp3 & Hroots3).
  assert (Ht2 : root w2 tmp x).
  { split; [by rewrite Ep2, lookup_insert_eq|]. rewrite Hmem. by eapply fresh_not_member. }
  destruct (Hroots3 tmp x Ht2) as [Ht3 _].
  destruct (move_root _ p (null_ptr Shared) tmp x Hv3 Hp3 Ht3 Hne ltac:(by rewrite Hkx))
    as (w4 & Hmv & Hv4 & Ho4 & Hp4 & Ht4).
  destruct (destroy_root w4 tmp (null_ptr (kind x)) Hv4) as (w5 & Hd & Hv5 & Ho5 & Ht5).
  { split; [done|]. intros Hbad. apply (proj2 Ht3). by apply Ho4. }
  exists w5, b. split; [|split; [done|]].
  - unfold lock. rewrite (bind_Ok _ _ _ _ _ Hn), (bind_Ok _ _ _ _ _ He), (bind_Ok _ _ _ _ _ Hc).
    rewrite (bind_Ok _ _ _ w4 tt); [done|]. unfold move_ptr. by rewrite (bind_Ok _ _ _ _ _ Hn3).
  - split; [|split; [done|split]].
    + split.
      * intros y Hy Hnot. rewrite (proj1 Ho5), (proj1 Ho4).
        -- cbn. rewrite lookup_insert_ne, Ep2 by set_solver. cbn. by rewrite !lookup_insert_ne by set_solver.
        -- change (~ member w2 y). by rewrite Hmem.
        -- set_solver.
        -- intros Hbad. apply Hy. rewrite <- Hmem. by apply Ho4 in Hbad.
        -- set_solver.
      * intros y Hy. apply Ho5, Ho4 in Hy. by apply Hmem.
    + rewrite Hb. split; intros HH c Hc0; [rewrite <- Hcount|rewrite Hcount]; by apply HH.
    + rewrite (proj1 Ho5); [by rewrite Hp4| |set_solver].
      intros Hbad. apply (proj2 Hp3). by apply Ho4.
Qed.

(** *** New objects *)

Lemma destroy_null_members o fs w :
  NoDup fs -> (forall f, f ∈ fs -> ptrs w !! f = Some (null_ptr Shared)) ->
  exists w', destroy_members Release o fs w = Ok w' tt.
Proof.
  revert w. induction fs as [|f fs IH]; intros w Hnd Hf; [by exists w|].
  apply list.NoDup_cons in Hnd as [Hnf Hnd]. cbn [destroy_members].
  rewrite (bind_Ok (modify _) _ _ _ _ eq_refl). set (w1 := set_objects _ w).
  assert (H1 : ptrs w1 !! f = Some (null_ptr Shared)) by (apply Hf; by left).
  assert (Hd : destroy_ptr_with Release f w1 =
    Ok (set_ptrs (delete f (ptrs w1)) w1) tt).
  { unfold destroy_ptr_with, reset_with, decref_if_not_null_with.
    erewrite bind_Ok.
    2: { erewrite bind_Ok by (by rewrite (bind_Ok _ _ _ _ _ (read_ptr_ok _ _ _ H1))).
         by apply (write_ptr_ok w1 f). }
    unfold end_ptr, modify, set_ptrs. cbn. by rewrite delete_insert_eq. }
  rewrite (bind_Ok _ _ _ _ _ Hd). apply IH; [done|]. intros g Hg. cbn.
  rewrite lookup_delete_ne; [apply Hf; by right|]. intros ->. done.
Qed.

Lemma new_then_write p k v c w :
  (_ ← new_ptr p k; write_ptr p v c) w = Ok (set_ptrs (<[p := RPtr k v c]> (ptrs w)) w) tt.
Proof.
  rewrite (bind_Ok (new_ptr p k) _ _ _ _ eq_refl), (write_ptr_ok _ p (null_ptr k)) by apply lookup_insert_eq.
  unfold set_ptrs. cbn. by rewrite insert_insert_eq.
Qed.

(** [new Ty] and its first pointer; without memory for the block the program ends. *)
Lemma new_shared_good w p o fs :
  valid w -> new_members (p :: fs) (ptrs w) -> objects w !! o = None -> room w (length fs + 1) ->
  (exists c w', (_ ← new_object o fs; shared_from_ptr p (Some o)) w = Ok w' tt /\ valid w' /\
     ptrs w' = <[p := RPtr Shared (Some o) (Some c)]> (add_members fs (ptrs w)) /\
     objects w' = <[o := fs]> (objects w)) \/
  exists w', (_ ← new_object o fs; shared_from_ptr p (Some o)) w =
    Throw w' (terminated NoexceptViolation).
Proof.
  intros H Hnew Ho Hr. rewrite (bind_Ok (new_object o fs) _ _ _ _ eq_refl).
  set (w1 := PtrWorld _ _ _). unfold shared_from_ptr, noexcept, make_ref_counter, room in *.
  destruct (new_counter (counters w)) as [c|] eqn:E.
  - left. exists c. pose proof (new_counter_fresh _ _ E) as Hc.
    pose proof (adopt w p o fs c H Hnew Ho Hc ltac:(lia)) as Ha.
    eexists. split; [|split; [exact Ha|done]].
    rewrite (bind_Ok _ _ w1 (set_counters (<[c := RefCounter 1 1 o]> (counters w)) w1) (Some c)).
    { by rewrite new_then_write. }
    rewrite (bind_Ok get _ w1 w1 w1 eq_refl). cbn [counters w1]. by rewrite E.
  - right. destruct Hnew as [Hnd _]. apply list.NoDup_cons in Hnd as [_ Hnd].
    destruct (destroy_null_members o fs w1 Hnd) as (w2 & Hd).
    { intros f Hf. cbn. by rewrite add_members_lookup, decide_True. }
    assert (Hdo : exists w3, destroy_object o w1 = Ok w3 tt).
    { unfold destroy_object, destroy_object_with. rewrite (bind_Ok get _ w1 w1 w1 eq_refl). cbn [objects w1].
      rewrite lookup_insert_eq, access_bind, (bind_Ok _ _ _ _ _ Hd). eexists. reflexivity. }
    destruct Hdo as (w3 & Hdo). exists w3. rewrite (bind_Throw _ _ w1 w3 bad_alloc); [done|].
    rewrite (bind_Ok get _ w1 w1 w1 eq_refl). cbn [counters w1]. by rewrite E, (bind_Ok _ _ _ _ _ Hdo).
Qed.

Lemma make_shared_good w p o fs :
  valid w -> new_members (p :: fs) (ptrs w) -> objects w !! o = None -> room w (length fs + 1) ->
  sp_good w (make_shared p o fs w).
Proof.
  intros H Hnew Ho Hr. unfold make_shared, room in *. rewrite (bind_Ok get _ w w w eq_refl).
  destruct (new_counter (counters w)) as [c|] eqn:E; [|left; split; [done|by left]].
  pose proof (adopt w p o fs c H Hnew Ho (new_counter_fresh _ _ E) ltac:(lia)) as Ha.
  rewrite (bind_Ok (new_object o fs) _ _ _ _ eq_refl), (bind_Ok (write_counter _ _) _ _ _ _ eq_refl).
  by rewrite new_then_write.
Qed.

Lemma reset_ptr_good w p tmp o fs :
  valid w -> root_of Shared w p -> new_members (tmp :: fs) (ptrs w) -> objects w !! o = None ->
  room w (length fs + 1) -> sp_good w ((_ ← new_object o fs; reset_ptr p tmp (Some o)) w).
Proof.
  intros H Hp Hnew Ho Hr. destruct (root_of_inv _ _ _ Hp) as (r & [Hpr Hm] & Hk).
  destruct Hnew as [Hnd Hf]. pose proof Hf as [Ht Hf']%list.Forall_cons. rewrite Forall_forall in Hf'.
  pose proof Hnd as [Htf _]%list.NoDup_cons.
  assert (Hne : tmp <> p) by (intros ->; congruence).
  assert (Hpf : p ∉ fs) by (intros Hin; apply list_elem_of_In, Hf' in Hin; congruence).
  destruct (new_shared_good w tmp o fs H (conj Hnd Hf) Ho Hr) as [(c & w1 & Hn & Hv & Ep & Eo)|(w' & Hn)].
  2: { rewrite (bind_Ok (new_object o fs) _ _ _ _ eq_refl). rewrite (bind_Ok (new_object o fs) _ _ _ _ eq_refl) in Hn. unfold reset_ptr.
       rewrite (bind_Throw _ _ _ _ _ Hn). by right. }
  assert (Hrun : (_ ← new_object o fs; reset_ptr p tmp (Some o)) w = (_ ← swap_ptrs tmp p; destroy_ptr tmp) w1).
  { rewrite (bind_Ok (new_object o fs) _ _ _ _ eq_refl). rewrite (bind_Ok (new_object o fs) _ _ _ _ eq_refl) in Hn. unfold reset_ptr.
    by rewrite (bind_Ok _ _ _ _ _ Hn). }
  rewrite Hrun. assert (Ht1 : ptrs w1 !! tmp = Some (RPtr Shared (Some o) (Some c))) by (by rewrite Ep, lookup_insert_eq).
  assert (Hp1 : ptrs w1 !! p = Some r).
  { by rewrite Ep, lookup_insert_ne, add_members_lookup, decide_False. }
  destruct (swap_root w1 tmp p _ r Hv Ht1 Hp1 ltac:(by rewrite Hk) Hne) as (w2 & Hs & Hv2 & Ew2).
  rewrite (bind_Ok _ _ _ _ _ Hs). destruct (destroy_root w2 tmp r Hv2) as (w3 & -> & Hv3 & _); [|done].
  rewrite Ew2. split; [cbn; rewrite lookup_insert_ne, lookup_insert_eq by done; done|].
  intros (o' & fs' & Ho' & Hin). cbn in Ho'. rewrite Eo in Ho'.
  apply lookup_insert_Some in Ho' as [[<- <-]|[_ Ho']]; [done|].
  destruct (iv_members _ _ _ (iv_core _ _ _ H) o' fs' tmp Ho' Hin) as (_ & rt & Hrt & _). congruence.
Qed.

(** *** All operations *)

Lemma good_intro w (m : M ptr_world unit) w' : m w = Ok w' tt -> valid w' -> sp_good w (sp_unit m w).
Proof. intros E Hv. apply good_unit. by rewrite E. Qed.

Lemma sp_step_good op w : valid w -> sp_ok op w -> sp_good w (sp_step op w).
Proof.
  intros H Hok. destruct op as [k p|p o fs|p o fs|k p q|p q|k p q|k p q|k p q|k p|p tmp o fs|k p q|k p|f q|k p|p tmp q];
    cbn [sp_ok sp_step] in *.
  - destruct Hok as [Hp Hr]. destruct (new_null w p k H Hp Hr) as (Hn & Hv & _). by eapply good_intro.
  - destruct Hok as (Hnew & Ho & Hr). apply good_unit.
    destruct (new_shared_good w p o fs H Hnew Ho Hr) as [(c & w' & -> & Hv & _)|(w' & ->)]; [done|by right].
  - destruct Hok as (Hnew & Ho & Hr). by apply good_unit, make_shared_good.
  - destruct Hok as (Hp & Hr & Hq). destruct (new_null w p k H Hp Hr) as (Hn & Hv & [Hp1 _] & Hroots).
    assert (Hex : exists r, root w q r /\ (k = Shared -> kind r = Shared)).
    { destruct Hq as [Hq|[-> Hq]]; destruct (root_of_inv _ _ _ Hq) as (r & Hq' & Hk); by exists r. }
    destruct Hex as (r & Hq' & Hk). destruct (Hroots q r Hq') as [[Hq1 _] Hne].
    destruct (copy_new _ p k q r Hv Hp1 Hq1 ltac:(done)) as (w' & Hc & Hv' & _); [left; auto|].
    apply (good_intro w _ w'); [|done]. unfold copy_ptr. by rewrite (bind_Ok _ _ _ _ _ Hn).
  - destruct Hok as (Hp & Hr & Hq). by apply good_unit, shared_from_weak_good.
  - destruct Hok as (Hp & Hr & Hq). destruct (new_null w p k H Hp Hr) as (Hn & Hv & Hp1 & Hroots).
    destruct (root_of_inv _ _ _ Hq) as (r & Hq' & Hk). destruct (Hroots q r Hq') as [Hq1 Hne].
    destruct (move_root _ p _ q r Hv Hp1 Hq1 ltac:(done) ltac:(done)) as (w' & Hm & Hv' & _).
    apply (good_intro w _ w'); [|done]. unfold move_ptr. by rewrite (bind_Ok _ _ _ _ _ Hn).
  - destruct Hok as [Hp Hq]. destruct (root_of_inv _ _ _ Hp) as (rp & Hp' & Hkp).
    destruct (root_of_inv _ _ _ Hq) as (rq & Hq' & Hkq). apply good_unit. unfold assign_ptr.
    destruct (decide (p = q)) as [|Hne]; [done|].
    destruct (copy_root w p rp q rq H Hp' Hq' Hne ltac:(congruence)) as (w' & -> & Hv & _). done.
  - destruct Hok as [Hp Hq]. destruct (root_of_inv _ _ _ Hp) as (rp & Hp' & Hkp).
    destruct (root_of_inv _ _ _ Hq) as (rq & Hq' & Hkq). apply good_unit. unfold move_assign_ptr.
    destruct (decide (p = q)) as [|Hne]; [done|].
    destruct (move_root w p rp q rq H Hp' Hq' Hne ltac:(congruence)) as (w' & -> & Hv & _). done.
  - destruct (root_of_inv _ _ _ Hok) as (r & Hp & _).
    destruct (reset_root w p r H Hp) as (w' & E & Hv & _). by eapply good_intro.
  - destruct Hok as (Hp & Hnew & Ho & Hr). by apply good_unit, reset_ptr_good.
  - destruct Hok as (Hp & Hq & Hne). destruct (root_of_inv _ _ _ Hp) as (rp & [Hp' _] & Hkp).
    destruct (root_of_inv _ _ _ Hq) as (rq & [Hq' _] & Hkq).
    destruct (swap_root w p q rp rq H Hp' Hq' ltac:(congruence) Hne) as (w' & E & Hv & _). by eapply good_intro.
  - destruct (root_of_inv _ _ _ Hok) as (r & Hp & _).
    destruct (destroy_root w p r H Hp) as (w' & E & Hv & _). by eapply good_intro.
  - destruct Hok as (Hf & Hq & Hne). destruct (root_of_inv _ _ _ Hq) as (r & [Hq' _] & Hk).
    destruct (copy_new w f Shared q r H Hf Hq' Hne ltac:(by left)) as (w' & Hc & Hv & _).
    apply (good_intro w _ w'); [|done]. unfold assign_ptr. by rewrite decide_False.
  - destruct (root_of_inv _ _ _ Hok) as (r & [Hp _] & _). unfold use_count.
    rewrite (bind_Ok _ _ _ _ _ (read_ptr_ok _ _ _ Hp)). destruct (m_ref_counter r) as [c|] eqn:E; [|done].
    pose proof (iv_ptr _ _ _ (iv_core _ _ _ H) p r Hp ltac:(set_solver)) as Hv. rewrite E in Hv.
    destruct Hv as (rc & Hc & _). by rewrite (bind_Ok _ _ _ _ _ (read_counter_ok _ _ _ Hc)).
  - destruct Hok as (Hp & Ht & Hne & Hr & Hq). destruct (root_of_inv _ _ _ Hq) as (r & Hq' & Hk).
    destruct (lock_spec w p tmp q r H Hp Ht Hne Hr Hq' Hk) as (w' & b & E & Hv & _). by eapply good_intro.
Qed.
End steps.

(** ** Reachable states *)

Inductive sp_reachable `{A : counter_memory} : ptr_world -> Prop :=
  | sp_start : sp_reachable (PtrWorld ∅ ∅ ∅)
  | sp_next w op w' r : sp_reachable w -> sp_ok op w -> sp_step op w = Ok w' r -> sp_reachable w'.

Lemma empty_valid : valid (PtrWorld ∅ ∅ ∅).
Proof.
  split; [split|]; cbn; intros; rewrite ?lookup_empty, ?elem_of_empty in *; try done.
Qed.

Lemma reachable_valid `{A : counter_memory} w : sp_reachable w -> valid w.
Proof.
  induction 1 as [|w op w' r Hr IH Hok E]; [apply empty_valid|].
  pose proof (sp_step_good op w IH Hok) as Hg. by rewrite E in Hg.
Qed.

(** Runs operations while they are allowed and succeed. *)
Fixpoint sp_run `{A : counter_memory} (ops : list sp_op) (w : ptr_world) : option ptr_world :=
  match ops with
  | [] => Some w
  | op :: ops =>
      if decide (sp_ok op w) then
        match sp_step op w with Ok w' _ => sp_run ops w' | _ => None end
      else None
  end.

Lemma sp_run_reachable `{A : counter_memory} ops w w' :
  sp_reachable w -> sp_run ops w = Some w' -> sp_reachable w'.
Proof.
  revert w. induction ops as [|op ops IH]; intros w Hw; cbn; [by intros [= <-]|].
  destruct (decide (sp_ok op w)) as [Hok|]; [|done].
  destruct (sp_step op w) as [w1 r| | |] eqn:E; try done. apply IH. by eapply sp_next.
Qed.

(** An allocator that never fails. *)
Program Definition pool_counters : counter_memory := {| new_counter m := Some (fresh (dom m)) |}.
Next Obligation. intros m c [= <-]. apply not_elem_of_dom, is_fresh. Qed.

(** A list of three nodes, a second owner of the last one and two observers. *)
Definition demo_ops : list sp_op :=
  [SMake 0 100 [1%nat]; SNew 2 101 [3%nat]; SMake 4 102 []; SLink 3 4; SLink 1 2; SCopy Weak 5 0;
   SCopy Weak 6 4; SMove Shared 7 4; SDestroy Shared 2; SDestroy Shared 4].
Definition demo_world : ptr_world := default (PtrWorld ∅ ∅ ∅) (sp_run (A := pool_counters) demo_ops (PtrWorld ∅ ∅ ∅)).

Lemma demo_reachable : sp_reachable (A := pool_counters) demo_world.
Proof.
  apply (sp_run_reachable (A := pool_counters) demo_ops (PtrWorld ∅ ∅ ∅)); [constructor|].
  vm_compute. reflexivity.
Defined.

(** C5: Smart pointers are memory safe.  In every state a client reaches, an operation on
    shared and weak pointers returns normally, or throws bad_alloc or bad_weak_ptr and
    changes nothing, or ends the program because the noexcept constructor from a plain
    pointer has no memory for its counters.  No operation touches an object, a block of
    counters or a pointer that does not exist, and every cascade of destructions ends. *)
Theorem smart_pointers_safe `{A : counter_memory} w op :
  sp_reachable w -> sp_ok op w ->
  match sp_step op w with
  | Ok w' _ => sp_reachable w'
  | Throw w' e => (w' = w /\ (e = bad_alloc \/ e = bad_weak_ptr)) \/ e = terminated NoexceptViolation
  | _ => False
  end.
Proof.
  intros Hw Hok. pose proof (sp_step_good op w (reachable_valid w Hw) Hok) as Hg.
  destruct (sp_step op w) as [w' r|w' e| |] eqn:E; try done. by eapply sp_next.
Qed.

Lemma smart_pointers_safe_witness :
  match sp_step (A := pool_counters) (SDestroy Shared 0) demo_world with
  | Ok w' _ => objects w' !! 101%nat = None /\ objects w' !! 102%nat = Some [] | _ => False end /\
  match sp_step (A := pool_counters) (SDestroy Shared 0) demo_world with
  | Ok w' _ => sp_reachable (A := pool_counters) w'
  | Throw w' e => (w' = demo_world /\ (e = bad_alloc \/ e = bad_weak_ptr)) \/ e = terminated NoexceptViolation
  | _ => False
  end.
Proof.
  split; [vm_compute; split; reflexivity|].
  apply (smart_pointers_safe (A := pool_counters) demo_world (SDestroy Shared 0) demo_reachable).
  apply (bool_decide_unpack _). vm_compute. exact I.
Defined.

(** C6: Ownership is exact.  In every reachable state the strong counter of a block is the
    number of shared pointers that refer to it; an object is alive exactly while a shared
    pointer refers to it, and the pointer stores its address; when no pointers are left
    there are neither objects nor counters. *)
Theorem ownership_exact `{A : counter_memory} w :
  sp_reachable w ->
  (forall c rc, counters w !! c = Some rc -> m_strong_counter rc = references Shared c ∅ (ptrs w)) /\
  (forall p r c, ptrs w !! p = Some r -> kind r = Shared -> m_ref_counter r = Some c ->
     exists o fs, m_value_ptr r = Some o /\ objects w !! o = Some fs) /\
  (forall o fs, objects w !! o = Some fs ->
     exists p r, ptrs w !! p = Some r /\ kind r = Shared /\ m_value_ptr r = Some o) /\
  (ptrs w = ∅ -> counters w = ∅ /\ objects w = ∅).
Proof.
  intros Hw. pose proof (reachable_valid w Hw) as [H Hk].
  assert (Hobj : forall o fs, objects w !! o = Some fs ->
     exists p r, ptrs w !! p = Some r /\ kind r = Shared /\ m_value_ptr r = Some o).
  { intros o fs Ho. destruct (iv_owned _ _ _ H o fs Ho) as (c & rc & Hc & E & [Hs|?]); [|set_solver].
    rewrite (iv_strong _ _ _ H _ _ Hc) in Hs. apply references_pos in Hs as (p & r & Hp & Hkr & Hr & _).
    exists p, r. split; [done|]. split; [done|]. cbn in *.
    pose proof (iv_ptr _ _ _ H p r Hp ltac:(set_solver)) as Hv. rewrite Hr in Hv.
    destruct Hv as (rc' & Hc' & ->). congruence. }
  split; [apply (iv_strong _ _ _ H)|]. split; [|split; [done|]].
  - intros p r c Hp Hkr Hr. pose proof (iv_ptr _ _ _ H p r Hp ltac:(set_solver)) as Hv. rewrite Hr in Hv.
    destruct Hv as (rc & Hc & Hv). destruct (iv_object _ _ _ H c rc Hc) as [fs Ho].
    { by apply (shared_alive w p r c rc (Build_inv _ _ _ H Hk)). }
    eauto.
  - intros Hempty. assert (Hnone : forall k c, references k c ∅ (ptrs w) = 0) by (intros k c; by rewrite Hempty).
    split; apply map_empty.
    + intros c. destruct (counters w !! c) as [rc|] eqn:Hc; [|done]. exfalso.
      pose proof (Hk _ _ Hc). pose proof (iv_weak _ _ _ H _ _ Hc) as Hwk.
      pose proof (iv_strong _ _ _ H _ _ Hc) as Hst. rewrite Hnone in Hwk, Hst.
      rewrite decide_False in Hwk; [lia|]. intros [?|?]; [lia|set_solver].
    + intros o. destruct (objects w !! o) as [fs|] eqn:Ho; [|done]. exfalso.
      destruct (Hobj o fs Ho) as (p & r & Hp & _). by rewrite Hempty in Hp.
Qed.

Lemma ownership_exact_witness :
  size (objects demo_world) = 3%nat /\
  (forall c rc, counters demo_world !! c = Some rc ->
     m_strong_counter rc = references Shared c ∅ (ptrs demo_world)) /\
  (forall p r c, ptrs demo_world !! p = Some r -> kind r = Shared -> m_ref_counter r = Some c ->
     exists o fs, m_value_ptr r = Some o /\ objects demo_world !! o = Some fs) /\
  (forall o fs, objects demo_world !! o = Some fs ->
     exists p r, ptrs demo_world !! p = Some r /\ kind r = Shared /\ m_value_ptr r = Some o) /\
  (ptrs demo_world = ∅ -> counters demo_world = ∅ /\ objects demo_world = ∅).
Proof.
  split; [vm_compute; reflexivity|]. apply (ownership_exact (A := pool_counters) demo_world demo_reachable).
Defined.

(** [lock] gives a shared pointer to the object exactly while the object is alive.  On
    a weak pointer it returns a null pointer if no shared pointer refers to its block and a
    pointer to the same object and block otherwise, and changes no other pointer. *)
Theorem lock_correct `{A : counter_memory} w p tmp q r :
  sp_reachable w -> sp_ok (SLock p tmp q) w -> ptrs w !! q = Some r ->
  exists w', lock p tmp q w = Ok w' tt /\ others {[p; tmp]} w w' /\ ptrs w' !! tmp = None /\
    ((forall c, m_ref_counter r = Some c -> references Shared c ∅ (ptrs w) = 0) ->
       ptrs w' !! p = Some (null_ptr Shared)) /\
    (forall c, m_ref_counter r = Some c -> 0 < references Shared c ∅ (ptrs w) ->
       ptrs w' !! p = Some (RPtr Shared (m_value_ptr r) (Some c))).
Proof.
  intros Hw (Hp & Ht & Hne & Hroom & Hq) Hr. pose proof (reachable_valid w Hw) as H.
  destruct (root_of_inv _ _ _ Hq) as (r' & Hq' & Hk). assert (r' = r) as -> by (destruct Hq'; congruence).
  destruct (lock_spec w p tmp q r H Hp Ht Hne Hroom Hq' Hk) as (w' & b & E & _ & Ho & Ht' & Hb & Hp').
  exists w'. split; [done|]. split; [done|]. split; [done|]. split.
  - intros Hnone. rewrite Hp'. by assert (b = true) as -> by by apply Hb.
  - intros c Hc Hpos. rewrite Hp', Hc. destruct b; [|done]. exfalso.
    rewrite (proj1 Hb eq_refl c Hc) in Hpos. lia.
Qed.

Lemma lock_correct_witness :
  exists w', lock 20 21 6 demo_world = Ok w' tt /\ others {[20%nat; 21%nat]} demo_world w' /\
    ptrs w' !! 21%nat = None /\ ptrs w' !! 20%nat = Some (RPtr Shared (Some 102%nat) (Some 2%nat)).
Proof.
  destruct (ptrs demo_world !! 6%nat) as [r|] eqn:E; [|revert E; vm_compute; discriminate].
  destruct (lock_correct (A := pool_counters) demo_world 20 21 6 r demo_reachable) as (w' & H1 & H2 & H3 & _ & H4).
  - apply (bool_decide_unpack _). vm_compute. exact I.
  - exact E.
  - exists w'. split; [exact H1|]. split; [exact H2|]. split; [exact H3|].
    revert E. vm_compute. intros [= <-].
    apply (H4 2%nat); vm_compute; reflexivity.
Defined.

(** C34: Cascades of destructions end.  Dropping the reference of a shared pointer destroys
    each object at most once: as many nested releases as there are live objects are
    enough, and only members of destroyed objects and that pointer's own reference go. *)
Theorem release_terminates `{A : counter_memory} w p r c fuel :
  sp_reachable w -> root w p r -> kind r = Shared -> m_ref_counter r = Some c ->
  (live_blocks w < fuel)%nat ->
  exists w', release fuel c w = Ok w' tt /\ (live_blocks w' <= live_blocks w)%nat /\ others ∅ w w'.
Proof.
  intros Hw [Hp Hm] Hk Hc Hl.
  destruct (release_fuel_ok fuel ∅ ∅ w p r c (reachable_valid w Hw) Hp Hk Hc ltac:(set_solver) Hm Hl)
    as (w' & E & _ & Hf).
  exists w'. split; [done|]. split; [apply (fr_live _ _ _ Hf)|by eapply frame_others].
Qed.

Lemma release_terminates_witness :
  exists r c w', ptrs demo_world !! 0%nat = Some r /\ m_ref_counter r = Some c /\
    release 4 c demo_world = Ok w' tt /\ (live_blocks w' <= live_blocks demo_world)%nat /\ others ∅ demo_world w'.
Proof.
  assert (Hroot : root_of Shared demo_world 0) by (apply (bool_decide_unpack _); vm_compute; exact I).
  destruct (root_of_inv _ _ _ Hroot) as (r & Hr & Hk).
  assert (Hc : m_ref_counter r = Some 0%nat) by (destruct Hr as [E _]; revert E; vm_compute; intros [= <-]; reflexivity).
  destruct (release_terminates (A := pool_counters) demo_world 0 r 0 4 demo_reachable Hr Hk Hc) as (w' & H).
  - assert (live_blocks demo_world = 3%nat) as -> by (vm_compute; reflexivity). lia.
  - exists r, 0%nat, w'. split; [apply Hr|]. split; [exact Hc|exact H].
Defined.

(** ** Undefined behaviour *)

(** Two nodes of a list; the first one is held by pointer 0 and holds the second one. *)
Definition two_nodes : ptr_world := default (PtrWorld ∅ ∅ ∅)
  (sp_run (A := pool_counters)
     [SMake 0 100 [1%nat]; SMake 2 101 [3%nat]; SLink 1 2; SDestroy Shared 2] (PtrWorld ∅ ∅ ∅)).

(** Advancing along a list frees the node it reads.  With [head = head->next], by copy
    or by move, the old node and its member [next] are destroyed before [next] is read;
    taking a copy of [next] first is fine. *)
Theorem assign_from_member_undefined :
  assign_ptr 0 1 two_nodes = Fault /\ move_assign_ptr 0 1 two_nodes = Fault /\
  match (_ ← copy_ptr Shared 9 1; _ ← assign_ptr 0 9; destroy_ptr 9) two_nodes with
  | Ok w _ => objects w !! 100%nat = None /\ objects w !! 101%nat = Some [3%nat] | _ => False end.
Proof. vm_compute. repeat split; reflexivity. Qed.

(** One object, a shared and a weak pointer to it. *)
Definition observed : ptr_world := default (PtrWorld ∅ ∅ ∅)
  (sp_run (A := pool_counters) [SMake 0 100 []; SCopy Weak 5 0] (PtrWorld ∅ ∅ ∅)).

(** [lock] races with the destruction of the last shared pointer.  One thread tests
    that the weak pointer is not expired, a second one destroys the last shared pointer and
    with it the object, the first one increases the counter: it returns a pointer to an
    object that does not exist, whose destruction is undefined. *)
Theorem lock_race :
  match (_ ← new_ptr 8 Shared; expired 5) observed with
  | Ok w b => b = false /\
      match (_ ← destroy_ptr 0; copy_construct_from 8 5) w with
      | Ok w' _ => m_value_ptr <$> ptrs w' !! 8%nat = Some (Some 100%nat) /\ objects w' !! 100%nat = None /\
          destroy_ptr 8 w' = Fault
      | _ => False
      end
  | _ => False
  end.
Proof. vm_compute. repeat split; reflexivity. Qed.
