(* ===== verification/Locks.v ===== *)
(** * Taking several locks (include/mutex.hpp)

    [ktl::lock] takes any number of mutexes: it waits for one of them and only tries the
    others, and gives up what it has when one is taken.  [scoped_lock] calls it and
    unlocks the mutexes in its destructor.

    A call is a program that makes requests to mutexes.  A mutex is any type with [lock],
    [try_lock] and [unlock], so what a request does is a parameter: [interp] runs a
    program with given members of a mutex, and [request_step] is what the requirements of
    a lockable type allow, for threads that run at the same time. *)
From Stdlib Require Import ZArith Lia.
From stdpp Require Import base list gmap numbers.
From S2P Require Import Prelude.
#[local] Open Scope Z_scope.

Inductive request := RLock (m : nat) | RTryLock (m : nat) | RUnlock (m : nat) | RYield.

(** A program ends or makes a request; the reply is a boolean, the result of
    [try_lock], or an exception. *)
Inductive proc (A : Type) : Type :=
  | Return (a : A)
  | Raise (e : exn)
  | Request (q : request) (k : bool + exn -> proc A).
Arguments Return {A} a.
Arguments Raise {A} e.
Arguments Request {A} q k.

Fixpoint proc_bind {A B} (f : A -> proc B) (p : proc A) : proc B :=
  match p with
  | Return a => f a
  | Raise e => Raise e
  | Request q k => Request q (fun r => proc_bind f (k r))
  end.

#[export] Instance proc_ret : MRet proc := fun A => Return.
#[export] Instance proc_mbind : MBind proc := fun A B => proc_bind.

(** [try { p } catch (...) { h; throw; }]. *)
Fixpoint on_exception {A} (p : proc A) (h : proc unit) : proc A :=
  match p with
  | Return a => Return a
  | Raise e => _ ← h; Raise e
  | Request q k => Request q (fun r => on_exception (k r) h)
  end.

Definition send (q : request) : proc bool :=
  Request q (fun r => match r with inl b => Return b | inr e => Raise e end).

Definition call_lock (m : nat) : proc unit := _ ← send (RLock m); mret tt.
Definition call_try_lock (m : nat) : proc bool := send (RTryLock m).
Definition call_unlock (m : nat) : proc unit := _ ← send (RUnlock m); mret tt.
Definition yield : proc unit := _ ← send RYield; mret tt.

(** Runs a program; the members of the mutexes are [h]. *)
Fixpoint interp {S A} (h : request -> M S bool) (p : proc A) : M S A :=
  match p with
  | Return a => mret a
  | Raise e => throw e
  | Request q k => fun s =>
      match h q s with
      | Ok s b => interp h (k (inl b)) s
      | Throw s e => interp h (k (inr e)) s
      | Fault => Fault
      | Diverge => Diverge
      end
  end.

(** ** The functions on a pack of mutexes; [i] is the index of the first one *)

Fixpoint lock_target_from_locks (target i : Z) (mtxs : list nat) : proc unit :=
  match mtxs with
  | [] => mret tt
  | m :: mtxs =>
      _ ← (if target =? i then call_lock m else mret tt);
      lock_target_from_locks target (i + 1) mtxs
  end.

Fixpoint try_lock_target_from_locks (target i : Z) (mtxs : list nat) (result : bool) : proc bool :=
  match mtxs with
  | [] => mret result
  | m :: mtxs =>
      result ← (if target =? i then call_try_lock m else mret result);
      try_lock_target_from_locks target (i + 1) mtxs result
  end.

Fixpoint unlock_locks (first last i : Z) (mtxs : list nat) : proc unit :=
  match mtxs with
  | [] => mret tt
  | m :: mtxs =>
      _ ← (if (first <=? i) && (i <? last) then call_unlock m else mret tt);
      unlock_locks first last (i + 1) mtxs
  end.

(** One iteration of the loop of [try_lock_range]: the index to return, if any. *)
Definition try_lock_one (first current : Z) (mtxs : list nat) : proc (option Z) :=
  locked ← try_lock_target_from_locks current 0 mtxs false;
  if locked : bool then mret None
  else _ ← unlock_locks first current 0 mtxs; mret (Some current).

(** The iterations from [current] on, [todo] of them; an exception unlocks what was
    locked before [current]. *)
Fixpoint try_lock_loop (first current : Z) (mtxs : list nat) (todo : nat) : proc Z :=
  match todo with
  | O => mret (-1)
  | S todo =>
      r ← on_exception (try_lock_one first current mtxs) (unlock_locks first current 0 mtxs);
      match r with
      | Some failed => mret failed
      | None => try_lock_loop first (current + 1) mtxs todo
      end
  end.

Definition try_lock_range (first last : Z) (mtxs : list nat) : proc Z :=
  try_lock_loop first first mtxs (Z.to_nat (last - first)).

(** The index of a mutex that was taken by another thread, or -1.  [rollback_start] is
    [prev] while the mutexes in front of [prev] are tried and 0 afterwards. *)
Definition lock_attempt (prev : Z) (mtxs : list nat) : proc Z :=
  _ ← lock_target_from_locks prev 0 mtxs;
  failed ← on_exception (try_lock_range 0 prev mtxs) (unlock_locks prev (prev + 1) 0 mtxs);
  if failed =? -1 then
    failed ← on_exception (try_lock_range (prev + 1) (Z.of_nat (length mtxs)) mtxs)
                          (unlock_locks 0 (prev + 1) 0 mtxs);
    if failed =? -1 then mret (-1)
    else _ ← unlock_locks 0 (prev + 1) 0 mtxs; mret failed
  else _ ← unlock_locks prev (prev + 1) 0 mtxs; mret failed.

(** True: not locked. *)
Definition lock_attempt_small (mtx1 mtx2 : nat) : proc bool :=
  _ ← call_lock mtx1;
  locked ← on_exception (call_try_lock mtx2) (call_unlock mtx1);
  if locked : bool then mret false
  else _ ← call_unlock mtx1; _ ← yield; mret true.

(** One round of the loops of [lock_impl].  Its state is the variable [not_locked] with
    three and more mutexes, and which attempt is next with two; -1 ends the loop. *)
Definition lock_round (mtxs : list nat) (state : Z) : proc Z :=
  match mtxs with
  | [mtx1; mtx2] =>
      if state =? 0 then again ← lock_attempt_small mtx1 mtx2; mret (if again : bool then 1 else -1)
      else again ← lock_attempt_small mtx2 mtx1; mret (if again : bool then 0 else -1)
  | _ => lock_attempt state mtxs
  end.

(** The constructor of [scoped_lock] up to the end of its first round. *)
Definition scoped_lock (mtxs : list nat) : proc Z :=
  match mtxs with
  | [] => mret (-1)
  | [m] => _ ← call_lock m; mret (-1)
  | _ => lock_round mtxs 0
  end.

(** The destructor of [scoped_lock]. *)
Fixpoint unlock_all (mtxs : list nat) : proc unit :=
  match mtxs with
  | [] => mret tt
  | m :: mtxs => _ ← call_unlock m; unlock_all mtxs
  end.

(** [lock_impl] with a bound on the number of rounds. *)
Fixpoint lock_loop {S} (h : request -> M S bool) (fuel : nat) (mtxs : list nat) (state : Z) : M S unit :=
  if state =? -1 then mret tt else
  match fuel with
  | O => diverge
  | S fuel => state ← interp h (lock_round mtxs state); lock_loop h fuel mtxs state
  end.

(** ** Threads

    A thread enters critical sections one after the other: it constructs a
    [scoped_lock], does its work, and leaves the scope. *)
Inductive thread :=
  | Idle (todo : list (list nat))
  | Locking (mtxs : list nat) (p : proc Z) (todo : list (list nat))
  | Inside (mtxs : list nat) (todo : list (list nat))
  | Leaving (mtxs : list nat) (p : proc unit) (todo : list (list nat))
  | Failed (e : exn).

(** Which thread has locked a mutex. *)
Record system := System { owners : gmap nat nat; threads : list thread }.

(** What a lockable type does: [lock] returns when no thread has the mutex, [try_lock] may
    fail, both may throw; only the owner may call [unlock]. *)
Inductive request_step (t : nat) (o : gmap nat nat) : request -> bool + exn -> gmap nat nat -> Prop :=
  | step_lock m : o !! m = None -> request_step t o (RLock m) (inl true) (<[m := t]> o)
  | step_lock_throws m e : request_step t o (RLock m) (inr e) o
  | step_try m : o !! m = None -> request_step t o (RTryLock m) (inl true) (<[m := t]> o)
  | step_try_fails m : request_step t o (RTryLock m) (inl false) o
  | step_try_throws m e : request_step t o (RTryLock m) (inr e) o
  | step_unlock m : o !! m = Some t -> request_step t o (RUnlock m) (inl true) (delete m o)
  | step_yield : request_step t o RYield (inl true) o.

Inductive thread_step (t : nat) (o : gmap nat nat) : thread -> gmap nat nat -> thread -> Prop :=
  | step_enter mtxs todo : thread_step t o (Idle (mtxs :: todo)) o (Locking mtxs (scoped_lock mtxs) todo)
  | step_locked mtxs todo : thread_step t o (Locking mtxs (Return (-1)) todo) o (Inside mtxs todo)
  | step_again mtxs state todo : state <> -1 ->
      thread_step t o (Locking mtxs (Return state) todo) o (Locking mtxs (lock_round mtxs state) todo)
  | step_raise mtxs e todo : thread_step t o (Locking mtxs (Raise e) todo) o (Failed e)
  | step_request mtxs q k r o' todo : request_step t o q r o' ->
      thread_step t o (Locking mtxs (Request q k) todo) o' (Locking mtxs (k r) todo)
  | step_leave mtxs todo : thread_step t o (Inside mtxs todo) o (Leaving mtxs (unlock_all mtxs) todo)
  | step_release mtxs q k r o' todo : request_step t o q r o' ->
      thread_step t o (Leaving mtxs (Request q k) todo) o' (Leaving mtxs (k r) todo)
  | step_left mtxs todo : thread_step t o (Leaving mtxs (Return tt) todo) o (Idle todo).

(** Thread [t] makes a step. *)
Inductive system_step (t : nat) (s : system) : system -> Prop :=
  | step_thread th o' th' : threads s !! t = Some th -> thread_step t (owners s) th o' th' ->
      system_step t s (System o' (<[t := th']> (threads s))).

(** Threads with their critical sections, no mutex locked. *)
Definition start (work : list (list (list nat))) : system := System ∅ (Idle <$> work).

Inductive lock_reachable (work : list (list (list nat))) : system -> Prop :=
  | reach_start : lock_reachable work (start work)
  | reach_step s t s' : lock_reachable work s -> system_step t s s' -> lock_reachable work s'.

Definition finished (th : thread) : Prop :=
  match th with Idle [] | Failed _ => True | _ => False end.

Definition can_step (t : nat) (s : system) : Prop := exists s', system_step t s s'.

(** The thread is inside a call of [lock] of this mutex. *)
Definition waits_for (th : thread) (m : nat) : Prop :=
  match th with Locking _ (Request (RLock m') _) _ => m' = m | _ => False end.
