(* ===== verification/LocksSpec.v ===== *)
(** * Which mutexes a program holds

    [wp p H Q E]: started with the mutexes [H], the program [p] waits for a mutex only
    when it holds none, tries only mutexes it does not hold and unlocks only mutexes it
    holds; it returns in [Q] or throws in [E]. *)
From Stdlib Require Import ZArith Lia.
From stdpp Require Import base list gmap numbers sets.
From S2P Require Import Prelude Locks.
#[local] Open Scope Z_scope.

Fixpoint wp {A} (p : proc A) (H : gset nat) (Q : A -> gset nat -> Prop) (E : gset nat -> Prop) : Prop :=
  match p with
  | Return a => Q a H
  | Raise _ => E H
  | Request q k =>
      match q with
      | RLock m => H = ∅ /\ wp (k (inl true)) {[m]} Q E /\ forall e, wp (k (inr e)) ∅ Q E
      | RTryLock m => m ∉ H /\ wp (k (inl true)) ({[m]} ∪ H) Q E /\ wp (k (inl false)) H Q E /\
          forall e, wp (k (inr e)) H Q E
      | RUnlock m => m ∈ H /\ wp (k (inl true)) (H ∖ {[m]}) Q E
      | RYield => wp (k (inl true)) H Q E
      end
  end.

Section wp.
Context {A B : Type}.

Lemma wp_mono (p : proc A) H (Q Q' : A -> gset nat -> Prop) (E E' : gset nat -> Prop) :
  wp p H Q E -> (forall a H', Q a H' -> Q' a H') -> (forall H', E H' -> E' H') -> wp p H Q' E'.
Proof.
  intros Hp HQ HE. revert H Hp. induction p as [a|e|q k IH]; intros H Hp; simpl in *; auto.
  destruct q; naive_solver.
Qed.

Lemma wp_bind (p : proc A) (f : A -> proc B) H Q E :
  wp p H (fun a H' => wp (f a) H' Q E) E -> wp (p ≫= f) H Q E.
Proof.
  unfold mbind, proc_mbind. revert H. induction p as [a|e|q k IH]; intros H Hp; simpl in *; auto.
  destruct q; naive_solver.
Qed.

End wp.

Lemma wp_on_exception {A} (p : proc A) (h : proc unit) H Q E :
  wp p H Q (fun H' => wp h H' (fun _ => E) E) -> wp (on_exception p h) H Q E.
Proof.
  revert H. induction p as [a|e|q k IH]; intros H Hp; simpl in *; auto.
  - by apply (wp_bind h (fun _ => Raise e)).
  - destruct q; naive_solver.
Qed.

(** ** The mutexes with an index in a range *)

Fixpoint between (first last i : Z) (mtxs : list nat) : gset nat :=
  match mtxs with
  | [] => ∅
  | m :: mtxs =>
      (if (first <=? i) && (i <? last) then {[m]} else ∅) ∪ between first last (i + 1) mtxs
  end.

Lemma elem_of_between first last i mtxs m :
  m ∈ between first last i mtxs <->
  exists j : nat, mtxs !! j = Some m /\ first <= i + Z.of_nat j < last.
Proof.
  revert i. induction mtxs as [|x mtxs IH]; intros i; simpl.
  { split; [set_solver|]. intros (j & Hj & _). by rewrite lookup_nil in Hj. }
  rewrite elem_of_union, IH. split.
  - intros [Hm|(j & Hj & Hr)].
    + destruct (Z.leb_spec first i), (Z.ltb_spec i last); simpl in Hm; try set_solver.
      apply elem_of_singleton in Hm as ->. exists 0%nat. split; [done|lia].
    + exists (S j). split; [done|lia].
  - intros ([|j] & Hj & Hr); simpl in Hj.
    + left. simplify_eq. destruct (Z.leb_spec first i), (Z.ltb_spec i last); simpl; try lia. set_solver.
    + right. exists j. split; [done|lia].
Qed.

Lemma between_subset first last i mtxs m : m ∈ between first last i mtxs -> m ∈ mtxs.
Proof. rewrite elem_of_between. intros (j & Hj & _). apply list_elem_of_lookup. eauto. Qed.

Lemma between_all mtxs : between 0 (Z.of_nat (length mtxs)) 0 mtxs = list_to_set mtxs.
Proof.
  apply leibniz_equiv, set_equiv. intros m.
  rewrite elem_of_between, elem_of_list_to_set, list_elem_of_lookup. split.
  - intros (j & Hj & _). eauto.
  - intros (j & Hj). exists j. split; [done|]. apply lookup_lt_Some in Hj. lia.
Qed.

Lemma between_empty first last i mtxs : last <= first -> between first last i mtxs = ∅.
Proof.
  intros Hr. apply leibniz_equiv, set_equiv. intros m. rewrite elem_of_between. split; [|set_solver].
  intros (j & _ & ?). lia.
Qed.

Lemma between_split first mid last i mtxs : first <= mid <= last ->
  between first last i mtxs = between first mid i mtxs ∪ between mid last i mtxs.
Proof.
  intros Hr. apply leibniz_equiv, set_equiv. intros m. rewrite elem_of_union, !elem_of_between. split.
  - intros (j & Hj & ?). destruct (Z.ltb_spec (i + Z.of_nat j) mid); [left|right]; exists j; split; done || lia.
  - intros [(j & Hj & ?)|(j & Hj & ?)]; exists j; split; done || lia.
Qed.

Lemma between_disjoint first mid last i mtxs : NoDup mtxs ->
  between first mid i mtxs ## between mid last i mtxs.
Proof.
  intros Hd m. rewrite !elem_of_between. intros (j & Hj & ?) (j' & Hj' & ?).
  assert (j = j') by (by eapply NoDup_lookup). lia.
Qed.

Lemma between_one mtxs (j : nat) m : mtxs !! j = Some m ->
  between (Z.of_nat j) (Z.of_nat j + 1) 0 mtxs = {[m]}.
Proof.
  intros Hm. apply leibniz_equiv, set_equiv. intros x. rewrite elem_of_between, elem_of_singleton. split.
  - intros (j' & Hj' & ?). assert (j' = j) as -> by lia. congruence.
  - intros ->. exists j. split; [done|lia].
Qed.

Lemma between_cons_out first last i m mtxs : (first <=? i) && (i <? last) = false ->
  between first last i (m :: mtxs) = between first last (i + 1) mtxs.
Proof. intros E. simpl. rewrite E. set_solver. Qed.

(** ** The functions on packs *)

Section specs.
Context (Q : gset nat -> Prop) (E : gset nat -> Prop).

Lemma lock_target_spec j i mtxs m : mtxs !! j = Some m -> Q {[m]} -> E ∅ ->
  wp (lock_target_from_locks (i + Z.of_nat j) i mtxs) ∅ (fun _ => Q) E.
Proof.
  revert i j. induction mtxs as [|x mtxs IH]; intros i j Hj HQ HE; [by rewrite lookup_nil in Hj|].
  cbn [lock_target_from_locks]. destruct j as [|j].
  - injection Hj as ->. rewrite Z.add_0_r, Z.eqb_refl. cbn. split_and!; [done| |done].
    clear IH. assert (Hgt : forall i', i < i' ->
      wp (lock_target_from_locks i i' mtxs) {[m]} (fun _ => Q) E).
    { induction mtxs as [|y mtxs IH]; intros i' Hi; [done|]. cbn [lock_target_from_locks].
      rewrite (proj2 (Z.eqb_neq _ _)) by lia. cbn. apply IH. lia. }
    apply Hgt. lia.
  - rewrite (proj2 (Z.eqb_neq _ _)) by lia. cbn.
    replace (i + Z.of_nat (S j)) with (i + 1 + Z.of_nat j) by lia. by apply IH.
Qed.

Lemma unlock_locks_spec first last i mtxs H : NoDup mtxs -> between first last i mtxs ⊆ H ->
  Q (H ∖ between first last i mtxs) -> wp (unlock_locks first last i mtxs) H (fun _ => Q) E.
Proof.
  revert i H. induction mtxs as [|m mtxs IH]; intros i H Hd Hsub HQ; cbn.
  { replace (H ∖ _) with H in HQ by (simpl; set_solver). done. }
  apply NoDup_cons in Hd as [Hm Hd]. cbn [between] in *. destruct (_ && _) eqn:Er; cbn.
  - split; [set_solver|]. apply IH; [done| |].
    + intros x Hx. apply elem_of_difference. split; [set_solver|].
      intros ->%elem_of_singleton. by apply between_subset in Hx.
    + by rewrite difference_difference_l_L.
  - apply IH; [done|set_solver|]. by rewrite union_empty_l_L in HQ.
Qed.
End specs.

(** Only the mutex with the index is tried. *)
Lemma try_target_spec j i mtxs m result H (Q : bool -> gset nat -> Prop) E :
  mtxs !! j = Some m -> m ∉ H -> Q true ({[m]} ∪ H) -> Q false H -> E H ->
  wp (try_lock_target_from_locks (i + Z.of_nat j) i mtxs result) H Q E.
Proof.
  revert i j. induction mtxs as [|x mtxs IH]; intros i j Hj Hm Ht Hf HE; [by rewrite lookup_nil in Hj|].
  cbn [try_lock_target_from_locks]. destruct j as [|j].
  - injection Hj as ->. rewrite Z.add_0_r, Z.eqb_refl.
    assert (Hgt : forall b H' i', i < i' -> Q b H' ->
      wp (try_lock_target_from_locks i i' mtxs b) H' Q E).
    { clear. induction mtxs as [|y mtxs IH]; intros b H' i' Hi HQ; [done|].
      cbn [try_lock_target_from_locks]. rewrite (proj2 (Z.eqb_neq _ _)) by lia. cbn. apply IH; [lia|done]. }
    cbn. split_and!; [done|apply Hgt; [lia|done]|apply Hgt; [lia|done]|done].
  - rewrite (proj2 (Z.eqb_neq _ _)) by lia. cbn.
    replace (i + Z.of_nat (S j)) with (i + 1 + Z.of_nat j) by lia. by apply IH.
Qed.

(** What [try_lock_range] and [lock_attempt] return: -1 with everything locked, or the
    index of a mutex that was taken, with nothing more locked than before. *)
Definition range_result (first last : Z) (mtxs : list nat) (H : gset nat) (r : Z) (H' : gset nat) : Prop :=
  (r = -1 /\ H' = H ∪ between first last 0 mtxs) \/ (first <= r < last /\ H' = H).

Lemma union_difference_cancel (X Y : gset nat) : X ## Y -> (X ∪ Y) ∖ Y = X.
Proof. intros Hd. apply leibniz_equiv, set_equiv. set_solver. Qed.

(** The mutexes of the range in front of [current] are locked, besides [H]. *)
Lemma try_lock_one_spec first mtxs (j : nat) m H (Q : option Z -> gset nat -> Prop) (E : gset nat -> Prop) :
  NoDup mtxs -> mtxs !! j = Some m -> first <= Z.of_nat j -> m ∉ H ->
  H ## between first (Z.of_nat j) 0 mtxs ->
  Q None (H ∪ between first (Z.of_nat j + 1) 0 mtxs) -> Q (Some (Z.of_nat j)) H -> E H ->
  wp (on_exception (try_lock_one first (Z.of_nat j) mtxs) (unlock_locks first (Z.of_nat j) 0 mtxs))
     (H ∪ between first (Z.of_nat j) 0 mtxs) Q E.
Proof.
  intros Hd Hj Hf Hm Hdis HQ HQ' HE. apply wp_on_exception. unfold try_lock_one. apply wp_bind.
  pose proof (union_difference_cancel _ _ Hdis) as Hc.
  assert (Hback : forall B (v : B) (R : B -> gset nat -> Prop) E', R v H ->
    wp (unlock_locks first (Z.of_nat j) 0 mtxs) (H ∪ between first (Z.of_nat j) 0 mtxs) (fun _ => R v) E').
  { intros B v R E' HR. apply unlock_locks_spec; [done|set_solver|]. by rewrite Hc. }
  apply (try_target_spec j 0 mtxs m); [done| | | |].
  - pose proof (between_disjoint first (Z.of_nat j) (Z.of_nat j + 1) 0 mtxs Hd) as Hd'.
    rewrite (between_one _ _ _ Hj) in Hd'. set_solver.
  - cbn. rewrite (between_split first (Z.of_nat j)), (between_one _ _ _ Hj) in HQ by lia.
    by rewrite (union_comm_L {[m]}), <- union_assoc_L.
  - apply wp_bind. by apply (Hback _ (Some (Z.of_nat j)) Q).
  - apply (Hback _ tt (fun _ => E)). done.
Qed.

Lemma try_lock_loop_spec first mtxs H E todo current :
  NoDup mtxs -> 0 <= first <= current -> current + Z.of_nat todo <= Z.of_nat (length mtxs) ->
  H ## between first (current + Z.of_nat todo) 0 mtxs -> E H ->
  wp (try_lock_loop first current mtxs todo) (H ∪ between first current 0 mtxs)
     (range_result first (current + Z.of_nat todo) mtxs H) E.
Proof.
  intros Hd Hf Hl Hdis HE. revert current Hf Hl Hdis. induction todo as [|todo IH]; intros current Hf Hl Hdis.
  { rewrite Z.add_0_r. by left. }
  cbn [try_lock_loop]. apply wp_bind.
  destruct (lookup_lt_is_Some_2 mtxs (Z.to_nat current)) as [m Hm]; [lia|].
  rewrite (between_split first current (current + _)) in Hdis by lia.
  replace current with (Z.of_nat (Z.to_nat current)) at 1 2 3 by lia.
  eapply (try_lock_one_spec first mtxs (Z.to_nat current) m H); try done; try lia.
  - assert (m ∈ between current (current + Z.of_nat (S todo)) 0 mtxs); [|set_solver].
    apply elem_of_between. exists (Z.to_nat current). split; [done|lia].
  - replace (Z.of_nat (Z.to_nat current)) with current by lia. set_solver.
  - replace (Z.of_nat (Z.to_nat current)) with current by lia.
    replace (current + Z.of_nat (S todo)) with (current + 1 + Z.of_nat todo) in * by lia.
    apply IH; [lia|lia|]. by rewrite (between_split first current) by lia.
  - right. split; [lia|done].
Qed.

Lemma try_lock_range_spec first last mtxs H E :
  NoDup mtxs -> 0 <= first <= last -> last <= Z.of_nat (length mtxs) ->
  H ## between first last 0 mtxs -> E H ->
  wp (try_lock_range first last mtxs) H (range_result first last mtxs H) E.
Proof.
  intros Hd Hf Hl Hdis HE. unfold try_lock_range.
  replace last with (first + Z.of_nat (Z.to_nat (last - first))) in Hdis, Hl |- * by lia.
  replace (first + Z.of_nat (Z.to_nat (last - first)) - first) with (last - first) in * by lia.
  pose proof (try_lock_loop_spec first mtxs H E (Z.to_nat (last - first)) first Hd ltac:(lia) Hl Hdis HE) as Hp.
  rewrite (between_empty first first), union_empty_r_L in Hp by lia. exact Hp.
Qed.

(** A round ends with all mutexes, or with none and the state of the next round. *)
Definition round_result (mtxs : list nat) (r : Z) (H : gset nat) : Prop :=
  (r = -1 /\ H = list_to_set mtxs) \/ (0 <= r < Z.of_nat (length mtxs) /\ H = ∅).

Lemma lock_attempt_spec prev mtxs :
  NoDup mtxs -> 0 <= prev < Z.of_nat (length mtxs) ->
  wp (lock_attempt prev mtxs) ∅ (round_result mtxs) (fun H => H = ∅).
Proof.
  intros Hd Hp. set (n := Z.of_nat (length mtxs)).
  destruct (lookup_lt_is_Some_2 mtxs (Z.to_nat prev)) as [m Hm]; [lia|].
  assert (Hone : between prev (prev + 1) 0 mtxs = {[m]}).
  { pose proof (between_one mtxs (Z.to_nat prev) m Hm) as Ho. by rewrite Z2Nat.id in Ho by lia. }
  assert (H01 : between 0 prev 0 mtxs ## {[m]}) by (rewrite <- Hone; by apply between_disjoint).
  assert (Hsplit : between 0 (prev + 1) 0 mtxs = {[m]} ∪ between 0 prev 0 mtxs).
  { rewrite (between_split 0 prev), Hone by lia. apply union_comm_L. }
  assert (H12 : {[m]} ∪ between 0 prev 0 mtxs ## between (prev + 1) n 0 mtxs).
  { rewrite <- Hsplit. by apply between_disjoint. }
  assert (Hundo : forall B (v : B) (R : B -> gset nat -> Prop) (E : gset nat -> Prop), R v ∅ ->
    wp (unlock_locks prev (prev + 1) 0 mtxs) {[m]} (fun _ => R v) E /\
    wp (unlock_locks 0 (prev + 1) 0 mtxs) ({[m]} ∪ between 0 prev 0 mtxs) (fun _ => R v) E).
  { intros B v R E HR. split; (apply unlock_locks_spec; [done| |]).
    - by rewrite Hone. - by rewrite Hone, difference_diag_L.
    - by rewrite Hsplit. - by rewrite Hsplit, difference_diag_L. }
  unfold lock_attempt. apply wp_bind.
  replace prev with (0 + Z.of_nat (Z.to_nat prev)) at 1 by lia.
  apply (lock_target_spec _ _ (Z.to_nat prev) 0 mtxs m Hm); [|done].
  apply wp_bind, wp_on_exception.
  eapply wp_mono; [apply (try_lock_range_spec 0 prev mtxs {[m]} (fun H => H = {[m]})); try done; try lia; set_solver| |].
  - intros r H' [[-> ->]|[Hr ->]].
    + cbn [Z.eqb]. apply wp_bind, wp_on_exception.
      eapply wp_mono; [apply (try_lock_range_spec (prev + 1) n mtxs ({[m]} ∪ between 0 prev 0 mtxs)
        (fun H => H = {[m]} ∪ between 0 prev 0 mtxs)); try done; try lia| |].
      * intros r H' [[-> ->]|[Hr ->]].
        -- left. split; [done|]. rewrite <- Hsplit, <- between_split by lia. apply between_all.
        -- rewrite (proj2 (Z.eqb_neq _ _)) by lia. apply wp_bind.
           apply (Hundo _ r (round_result mtxs)). right. split; [lia|done].
      * intros H' ->. by apply (Hundo _ tt (fun _ H => H = ∅)).
    + rewrite (proj2 (Z.eqb_neq _ _)) by lia. apply wp_bind.
      apply (Hundo _ r (round_result mtxs)). right. split; [lia|done].
  - intros H' ->. by apply (Hundo _ tt (fun _ H => H = ∅)).
Qed.

Lemma lock_attempt_small_spec mtx1 mtx2 : mtx1 <> mtx2 ->
  wp (lock_attempt_small mtx1 mtx2) ∅
     (fun again H => H = if again : bool then ∅ else {[mtx1; mtx2]}) (fun H => H = ∅).
Proof. intros Hne. cbn. set_solver. Qed.

Definition round_state (mtxs : list nat) (state : Z) : Prop := 0 <= state < Z.of_nat (length mtxs).

Lemma lock_round_spec mtxs state :
  NoDup mtxs -> (2 <= length mtxs)%nat -> round_state mtxs state ->
  wp (lock_round mtxs state) ∅ (round_result mtxs) (fun H => H = ∅).
Proof.
  intros Hd Hl Hs. destruct mtxs as [|m1 [|m2 [|m3 ms]]]; cbn in Hl; try lia.
  - apply NoDup_cons in Hd as [Hm _]. assert (Hne : m1 <> m2) by set_solver.
    unfold lock_round, round_state, round_result in *. cbn [length list_to_set foldr] in *.
    case_match; apply wp_bind.
    + eapply wp_mono; [by apply lock_attempt_small_spec| |done].
      intros [] H' ->; [right; split; [lia|done]|left; split; [done|set_solver]].
    + eapply wp_mono; [apply lock_attempt_small_spec; congruence| |done].
      intros [] H' ->; [right; split; [lia|done]|left; split; [done|set_solver]].
  - by apply lock_attempt_spec.
Qed.

(** Only packs of two and more mutexes need another round. *)
Definition lock_result (mtxs : list nat) (r : Z) (H : gset nat) : Prop :=
  (r = -1 /\ H = list_to_set mtxs) \/ ((2 <= length mtxs)%nat /\ round_state mtxs r /\ H = ∅).

Lemma scoped_lock_spec mtxs : NoDup mtxs ->
  wp (scoped_lock mtxs) ∅ (lock_result mtxs) (fun H => H = ∅).
Proof.
  intros Hd. destruct mtxs as [|m [|m' ms]].
  - by left.
  - cbn. split; [done|]. split; [left; set_solver|done].
  - eapply wp_mono; [apply (lock_round_spec (m :: m' :: ms) 0 Hd)| |done]; [cbn; lia|unfold round_state; cbn; lia|].
    intros r H [[-> ->]|[Hr ->]]; [by left|right; split; [cbn; lia|done]].
Qed.

(** ** The system *)

(** [H] are the mutexes of thread [t]. *)
Definition owned_by (o : gmap nat nat) (t : nat) (H : gset nat) : Prop :=
  forall m, o !! m = Some t <-> m ∈ H.

Definition thread_ok (th : thread) (H : gset nat) : Prop :=
  match th with
  | Idle todo => H = ∅ /\ Forall NoDup todo
  | Locking mtxs p todo =>
      NoDup mtxs /\ Forall NoDup todo /\ wp p H (lock_result mtxs) (fun H => H = ∅)
  | Inside mtxs todo => NoDup mtxs /\ Forall NoDup todo /\ H = list_to_set mtxs
  | Leaving mtxs p todo =>
      Forall NoDup todo /\ exists rest, p = unlock_all rest /\ NoDup rest /\ H = list_to_set rest
  | Failed _ => H = ∅
  end.

Record system_ok (s : system) : Prop := {
  so_thread t th : threads s !! t = Some th -> exists H, owned_by (owners s) t H /\ thread_ok th H;
  so_owner m t : owners s !! m = Some t -> is_Some (threads s !! t) }.

(** A request of a program changes the mutexes of its own thread only. *)
Lemma request_step_ok {A} t o q (k : bool + exn -> proc A) r o' H Q E :
  request_step t o q r o' -> owned_by o t H -> wp (Request q k) H Q E ->
  exists H', owned_by o' t H' /\ wp (k r) H' Q E /\ forall m t', t' <> t -> o' !! m = Some t' <-> o !! m = Some t'.
Proof.
  unfold owned_by. intros Hs Ho Hp. destruct Hs as [m Hm|m e|m Hm|m|m e|m Hm|]; cbn in Hp.
  - destruct Hp as (-> & Hp & _). exists {[m]}. split_and!; [|done|].
    + intros x. rewrite lookup_insert. case_decide as Hx; [set_solver|]. rewrite Ho. set_solver.
    + intros x t' Ht. rewrite lookup_insert. case_decide as Hx; [|done]. subst. naive_solver.
  - destruct Hp as (-> & _ & Hp). exists ∅. naive_solver.
  - destruct Hp as (Hn & Hp & _). exists ({[m]} ∪ H). split_and!; [|done|].
    + intros x. rewrite lookup_insert. case_decide as Hx; [set_solver|]. rewrite Ho. set_solver.
    + intros x t' Ht. rewrite lookup_insert. case_decide as Hx; [|done]. subst. naive_solver.
  - exists H. naive_solver.
  - exists H. naive_solver.
  - destruct Hp as (Hn & Hp). exists (H ∖ {[m]}). split_and!; [|done|].
    + intros x. rewrite lookup_delete. case_decide as Hx; [set_solver|]. rewrite Ho. set_solver.
    + intros x t' Ht. rewrite lookup_delete. case_decide as Hx; [|done]. subst. naive_solver.
  - exists H. naive_solver.
Qed.

Lemma thread_step_ok t o th o' th' H :
  thread_step t o th o' th' -> owned_by o t H -> thread_ok th H ->
  exists H', owned_by o' t H' /\ thread_ok th' H' /\ forall m t', t' <> t -> o' !! m = Some t' <-> o !! m = Some t'.
Proof.
  intros Hs Ho Hth. destruct Hs as [mtxs todo|mtxs todo|mtxs st todo Hst|mtxs e todo|mtxs q k r o' todo Hq
    |mtxs todo|mtxs q k r o' todo Hq|mtxs todo]; cbn in Hth.
  - destruct Hth as [-> [Hd Htodo]%Forall_cons]. exists ∅. split_and!; [done| |done].
    cbn. split_and!; [done|done|by apply scoped_lock_spec].
  - destruct Hth as (Hd & Htodo & [[_ ->]|(_ & Hr & _)]); [|unfold round_state in Hr; lia].
    exists (list_to_set mtxs). split_and!; done.
  - destruct Hth as (Hd & Htodo & [[? _]|(Hl & Hr & ->)]); [done|]. exists ∅. split_and!; [done| |done].
    cbn. split_and!; [done|done|]. eapply wp_mono; [by apply lock_round_spec| |done].
    intros r H [[-> ->]|[Hr' ->]]; [by left|by right].
  - destruct Hth as (_ & _ & ->). exists ∅. split_and!; done.
  - destruct Hth as (Hd & Htodo & Hp). destruct (request_step_ok _ _ _ _ _ _ _ _ _ Hq Ho Hp) as (H' & Ho' & Hp' & Hf).
    exists H'. split_and!; done.
  - destruct Hth as (Hd & Htodo & ->). exists (list_to_set mtxs). split_and!; [done| |done].
    cbn. split; [done|by exists mtxs].
  - destruct Hth as (Htodo & [|m rest] & Hp & Hd & ->); [done|]. injection Hp as -> ->.
    apply NoDup_cons in Hd as [Hm Hd]. inversion Hq; subst.
    exists (list_to_set rest). split_and!.
    + intros x. rewrite lookup_delete. case_decide as Hx; [subst; set_solver|]. rewrite (Ho x). set_solver.
    + split; [done|by exists rest].
    + intros x t' Ht. rewrite lookup_delete. case_decide as Hx; [|done]. subst. naive_solver.
  - destruct Hth as (Htodo & [|m rest] & Hp & Hd & ->); [|done]. exists ∅. split_and!; done.
Qed.

Lemma system_step_ok t s s' : system_ok s -> system_step t s s' -> system_ok s'.
Proof.
  intros [Hth Hown] Hs. destruct Hs as [th o' th' Ht Hs].
  destruct (Hth t th Ht) as (H & Ho & Hok). pose proof (lookup_lt_Some _ _ _ Ht) as Hlt.
  destruct (thread_step_ok _ _ _ _ _ _ Hs Ho Hok) as (H' & Ho' & Hok' & Hf). split; cbn.
  - intros u thu. rewrite list_lookup_insert_Some. intros [(<- & <- & _)|[Hne Hu]]; [by exists H'|].
    destruct (Hth u thu Hu) as (Hset & Hu1 & Hu2). exists Hset. split; [|done].
    intros m. rewrite Hf by congruence. apply Hu1.
  - intros m u Hm. destruct (decide (u = t)) as [->|Hne].
    + by rewrite list_lookup_insert_eq.
    + rewrite list_lookup_insert_ne by congruence. apply (Hown m). by apply Hf in Hm.
Qed.

Lemma lock_reachable_ok work s : Forall (Forall NoDup) work -> lock_reachable work s -> system_ok s.
Proof.
  intros Hw. induction 1 as [|s t s' _ IH Hs]; [|by eapply system_step_ok].
  split; cbn; [|by intros]. intros t th Ht. apply list_lookup_fmap_Some in Ht as (todo & -> & Hin).
  exists ∅. split; [intros m; set_solver|]. cbn. split; [done|].
  rewrite Forall_forall in Hw. apply Hw. apply list_elem_of_lookup. eauto.
Qed.
