(* ===== verification/LocksTheorems.v ===== *)
(** * Properties of [ktl::lock] and [scoped_lock]

    Threads enter their critical sections in any interleaving; the mutexes of a section
    are distinct.  [run_schedule] executes an interleaving. *)
From Stdlib Require Import ZArith Lia.
From stdpp Require Import base list gmap numbers sets.
From S2P Require Import Prelude Locks LocksSpec.
#[local] Open Scope Z_scope.

(** ** Executing an interleaving *)

(** The effect of a request with a chosen reply. *)
Definition exec_request (t : nat) (o : gmap nat nat) (q : request) (r : bool + exn) : option (gmap nat nat) :=
  match q, r with
  | RLock m, inl true | RTryLock m, inl true =>
      if decide (o !! m = None) then Some (<[m := t]> o) else None
  | RLock _, inr _ | RTryLock _, inl false | RTryLock _, inr _ | RYield, inl true => Some o
  | RUnlock m, inl true => if decide (o !! m = Some t) then Some (delete m o) else None
  | _, _ => None
  end.

Definition exec_thread (t : nat) (r : bool + exn) (o : gmap nat nat) (th : thread) : option (gmap nat nat * thread) :=
  match th with
  | Idle (mtxs :: todo) => Some (o, Locking mtxs (scoped_lock mtxs) todo)
  | Locking mtxs (Return st) todo =>
      Some (o, if decide (st = -1) then Inside mtxs todo else Locking mtxs (lock_round mtxs st) todo)
  | Locking mtxs (Raise e) todo => Some (o, Failed e)
  | Locking mtxs (Request q k) todo => o' ← exec_request t o q r; Some (o', Locking mtxs (k r) todo)
  | Inside mtxs todo => Some (o, Leaving mtxs (unlock_all mtxs) todo)
  | Leaving mtxs (Request q k) todo => o' ← exec_request t o q r; Some (o', Leaving mtxs (k r) todo)
  | Leaving mtxs (Return tt) todo => Some (o, Idle todo)
  | _ => None
  end.

Definition exec_step (x : nat * (bool + exn)) (s : system) : option system :=
  th ← threads s !! x.1; '(o', th') ← exec_thread x.1 x.2 (owners s) th;
  Some (System o' (<[x.1 := th']> (threads s))).

Fixpoint run_schedule (xs : list (nat * (bool + exn))) (s : system) : option system :=
  match xs with [] => Some s | x :: xs => s' ← exec_step x s; run_schedule xs s' end.

Lemma exec_request_sound t o q r o' : exec_request t o q r = Some o' -> request_step t o q r o'.
Proof.
  destruct q, r as [[]|]; cbn; try done; repeat case_decide; intros [= <-]; by constructor.
Qed.

Lemma exec_thread_sound t r o th o' th' : exec_thread t r o th = Some (o', th') -> thread_step t o th o' th'.
Proof.
  destruct th as [[|mtxs todo]|mtxs [st|e|q k] todo|mtxs todo|mtxs [[]|e|q k] todo|e]; cbn; try done.
  - intros [= <- <-]. constructor.
  - case_decide; intros [= <- <-]; [subst|]; by constructor.
  - intros [= <- <-]. constructor.
  - destruct (exec_request t o q r) eqn:E; cbn; [|done]. intros [= <- <-].
    eapply step_request. by apply exec_request_sound.
  - intros [= <- <-]. constructor.
  - intros [= <- <-]. constructor.
  - destruct (exec_request t o q r) eqn:E; cbn; [|done]. intros [= <- <-].
    eapply step_release. by apply exec_request_sound.
Qed.

Lemma run_schedule_reachable work xs s s' :
  lock_reachable work s -> run_schedule xs s = Some s' -> lock_reachable work s'.
Proof.
  revert s. induction xs as [|[t r] xs IH]; intros s Hs; cbn; [by intros [= <-]|].
  unfold exec_step; cbn. destruct (threads s !! t) as [th|] eqn:Ht; cbn; [|done].
  destruct (exec_thread t r (owners s) th) as [[o' th']|] eqn:E; cbn; [|done].
  apply IH. eapply reach_step; [done|]. econstructor; [done|by apply (exec_thread_sound t r)].
Qed.

(** ** Progress *)

Definition waiting (th : thread) : Prop := exists m, waits_for th m.

(** A request other than [lock] can be answered. *)
Lemma request_progress {A} t o q (k : bool + exn -> proc A) H Q E :
  owned_by o t H -> wp (Request q k) H Q E -> (forall m, q <> RLock m) -> exists r o', request_step t o q r o'.
Proof.
  intros Ho Hp Hq. destruct q as [m|m|m|]; [by destruct (Hq m)| | |].
  - exists (inl false), o. constructor.
  - exists (inl true), (delete m o). constructor. apply Ho, Hp.
  - exists (inl true), o. constructor.
Qed.

Lemma thread_progress t o th H :
  owned_by o t H -> thread_ok th H -> ~ finished th -> ~ waiting th -> exists o' th', thread_step t o th o' th'.
Proof.
  intros Ho Hok Hf Hw. destruct th as [[|mtxs todo]|mtxs [st|e|q k] todo|mtxs todo|mtxs p todo|e]; cbn in Hok.
  - by destruct Hf.
  - do 2 eexists. constructor.
  - destruct (decide (st = -1)) as [->|]; do 2 eexists; by constructor.
  - do 2 eexists. constructor.
  - destruct Hok as (_ & _ & Hp). destruct (request_progress t o q k H _ _ Ho Hp) as (r & o' & Hr).
    { intros m ->. apply Hw. by exists m. }
    do 2 eexists. by apply (step_request _ _ _ _ _ r).
  - do 2 eexists. constructor.
  - destruct Hok as (_ & [|m rest] & -> & _ & ->); do 2 eexists; [constructor|].
    apply (step_release _ _ _ _ _ (inl true) (delete m o)). constructor. apply Ho. set_solver.
  - by destruct Hf.
Qed.

Lemma waiting_owns_nothing th H : thread_ok th H -> waiting th -> H = ∅.
Proof.
  intros Hok [m Hw]. destruct th as [|mtxs [|?|[] k] todo| | |]; try done. by destruct Hok as (_ & _ & -> & _).
Qed.

(** Distinct mutexes in every critical section. *)
Definition sections_ok (work : list (list (list nat))) : Prop := Forall (Forall NoDup) work.

#[export] Instance sections_ok_dec work : Decision (sections_ok work).
Proof. unfold sections_ok. apply _. Defined.

(** A thread that neither has ended nor is in a call of [lock] can go on. *)
Definition running (s : system) (t : nat) (th : thread) : Prop :=
  threads s !! t = Some th /\ ~ finished th /\ ~ waiting th /\ can_step t s.

Lemma runs s t th H : owned_by (owners s) t H -> thread_ok th H ->
  threads s !! t = Some th -> ~ finished th -> ~ waiting th -> running s t th.
Proof.
  intros Ho Hok Ht Hf Hw. split_and!; [done|done|done|].
  destruct (thread_progress t (owners s) th H Ho Hok Hf Hw) as (o' & th' & Hs).
  eexists. by econstructor.
Qed.

(** C10: No deadlock.  Whatever the threads do, a thread that has not ended goes on, or
    waits for a mutex that is free and can take it, or waits for a mutex of a thread that
    goes on: a waiting thread holds no mutex, so nobody waits for it. *)
Theorem lock_no_deadlock work s t th :
  sections_ok work -> lock_reachable work s -> threads s !! t = Some th -> ~ finished th ->
  running s t th \/
  (exists m, waits_for th m /\ owners s !! m = None /\
     exists s', system_step t s s' /\ owners s' !! m = Some t) \/
  (exists m t' th', waits_for th m /\ owners s !! m = Some t' /\ t' <> t /\ running s t' th').
Proof.
  intros Hw Hs Ht Hf. destruct (lock_reachable_ok _ _ Hw Hs) as [Hth Hown].
  destruct (Hth t th Ht) as (H & Ho & Hok).
  assert (Hdec : waiting th \/ ~ waiting th).
  { destruct th as [|mtxs [|?|[] k] todo| | |]; (right; intros [? []]; fail) || (left; by eexists). }
  destruct Hdec as [Hwait|Hwait]; [right|left; by eapply runs].
  pose proof (waiting_owns_nothing _ _ Hok Hwait) as ->. destruct Hwait as [m Hm].
  destruct (owners s !! m) as [t'|] eqn:Hmo; [right|left]; exists m.
  - destruct (Hown m t' Hmo) as [th' Ht']. destruct (Hth t' th' Ht') as (H' & Ho' & Hok').
    assert (Hin : m ∈ H') by (by apply Ho'). exists t', th'. split_and!; [done|done| |].
    + intros ->. apply (Ho m) in Hmo. set_solver.
    + eapply runs; [done|done|done| |].
      * destruct th' as [[]| | | |]; cbn in *; try done; set_solver.
      * intros Hw'. rewrite (waiting_owns_nothing _ _ Hok' Hw') in Hin. set_solver.
  - split_and!; [done|done|]. destruct th as [|mtxs [|?|[] k] todo| | |]; try done. cbn in Hm. subst.
    eexists. split; [econstructor; [exact Ht|]|]; [eapply step_request, step_lock; exact Hmo|].
    apply lookup_insert_eq.
Qed.

(** Thread 0 is inside its section, thread 1 waits for mutex 0, thread 2 holds mutex 2. *)
Definition demo_work : list (list (list nat)) := [[[0; 1]]; [[0; 1]; [1]]; [[2; 1; 0]]]%nat.
Definition demo_schedule : list (nat * (bool + exn)) :=
  [(0, inl true); (0, inl true); (0, inl true); (0, inl true);
   (1, inl true); (2, inl true); (2, inl true)]%nat.
Definition demo_system : system := default (System ∅ []) (run_schedule demo_schedule (start demo_work)).

Lemma demo_system_reachable : lock_reachable demo_work demo_system.
Proof.
  apply (run_schedule_reachable demo_work demo_schedule (start demo_work)); [constructor|].
  vm_compute. reflexivity.
Qed.

Lemma lock_no_deadlock_witness :
  exists th, threads demo_system !! 1%nat = Some th /\ (running demo_system 1 th \/
  (exists m, waits_for th m /\ owners demo_system !! m = None /\
     exists s', system_step 1 demo_system s' /\ owners s' !! m = Some 1%nat) \/
  (exists m t' th', waits_for th m /\ owners demo_system !! m = Some t' /\ t' <> 1%nat /\
     running demo_system t' th')).
Proof.
  destruct (threads demo_system !! 1%nat) as [th|] eqn:E; [|revert E; vm_compute; discriminate].
  exists th. split; [reflexivity|]. apply (lock_no_deadlock demo_work demo_system 1 th).
  - apply (bool_decide_unpack _). vm_compute. exact I.
  - exact demo_system_reachable.
  - exact E.
  - revert E. vm_compute. intros [= <-]. intros [].
Defined.

(** C12: Mutual exclusion.  A thread inside a critical section owns exactly the mutexes of
    the section, so no other thread is in a section with one of them; outside a section,
    also after an exception has left the constructor, a thread owns no mutex. *)
Theorem scoped_lock_exclusive work s t th :
  sections_ok work -> lock_reachable work s -> threads s !! t = Some th ->
  match th with
  | Inside mtxs _ =>
      (forall m, owners s !! m = Some t <-> m ∈ mtxs) /\
      forall t' mtxs' todo', t' <> t -> threads s !! t' = Some (Inside mtxs' todo') -> mtxs ## mtxs'
  | Idle _ | Failed _ => forall m, owners s !! m <> Some t
  | _ => True
  end.
Proof.
  intros Hw Hs Ht. destruct (lock_reachable_ok _ _ Hw Hs) as [Hth _].
  destruct (Hth t th Ht) as (H & Ho & Hok).
  destruct th as [todo|mtxs p todo|mtxs todo|mtxs p todo|e]; cbn in *; try done.
  - destruct Hok as [-> _]. intros m Hm. apply (Ho m) in Hm. set_solver.
  - destruct Hok as (_ & _ & ->). split; [intros m; rewrite (Ho m); set_solver|].
    intros t' mtxs' todo' Hne Ht' m Hm Hm'. destruct (Hth _ _ Ht') as (H' & Ho' & _ & _ & ->).
    assert (E1 : owners s !! m = Some t) by (apply Ho; set_solver).
    assert (E2 : owners s !! m = Some t') by (apply Ho'; set_solver). congruence.
  - subst. intros m Hm. apply (Ho m) in Hm. set_solver.
Qed.

Lemma scoped_lock_exclusive_witness :
  exists mtxs todo, threads demo_system !! 0%nat = Some (Inside mtxs todo) /\
  (forall m, owners demo_system !! m = Some 0%nat <-> m ∈ mtxs) /\
  forall t' mtxs' todo', t' <> 0%nat -> threads demo_system !! t' = Some (Inside mtxs' todo') -> mtxs ## mtxs'.
Proof.
  exists [0; 1]%nat, []. assert (E : threads demo_system !! 0%nat = Some (Inside [0; 1]%nat [])).
  { vm_compute. reflexivity. }
  split; [exact E|]. apply (scoped_lock_exclusive demo_work demo_system 0 _) in E.
  - exact E.
  - apply (bool_decide_unpack _). vm_compute. exact I.
  - exact demo_system_reachable.
Defined.

(** ** A thread alone *)

(** The members of a mutex when no other thread is active: waiting for a mutex that is
    locked does not end. *)
Definition alone (t : nat) (q : request) : M (gmap nat nat) bool :=
  o ← get;
  match q with
  | RLock m => if decide (o !! m = None) then _ ← put (<[m := t]> o); mret true else diverge
  | RTryLock m => if decide (o !! m = None) then _ ← put (<[m := t]> o); mret true else mret false
  | RUnlock m => if decide (o !! m = Some t) then _ ← put (delete m o); mret true else fault
  | RYield => mret true
  end.

Section alone.
Context (t : nat).

Lemma interp_bind {S A B} h (p : proc A) (f : A -> proc B) (s s' : S) a :
  interp h p s = Ok s' a -> interp h (p ≫= f) s = interp h (f a) s'.
Proof.
  unfold mbind, proc_mbind. revert s. induction p as [x|e|q k IH]; intros s; cbn.
  - by intros [= <- <-].
  - done.
  - destruct (h q s); try done; apply IH.
Qed.

Lemma interp_on_exception {S A} h (p : proc A) handler (s s' : S) a :
  interp h p s = Ok s' a -> interp h (on_exception p handler) s = Ok s' a.
Proof.
  revert s. induction p as [x|e|q k IH]; intros s; cbn; [done|done|].
  destruct (h q s); try done; apply IH.
Qed.

(** Thread [t] has taken the mutexes [X]. *)
Definition takes (o : gmap nat nat) (X : gset nat) (o' : gmap nat nat) : Prop :=
  forall m, o' !! m = if decide (m ∈ X) then Some t else o !! m.

Lemma takes_one o m : takes o {[m]} (<[m := t]> o).
Proof. intros x. rewrite lookup_insert. repeat case_decide; set_solver. Qed.

Lemma takes_trans o X o' Y o'' : takes o X o' -> takes o' Y o'' -> takes o (X ∪ Y) o''.
Proof. intros H1 H2 m. rewrite H2, H1. repeat case_decide; set_solver. Qed.

Lemma lock_target_alone j i mtxs m o : mtxs !! j = Some m -> o !! m = None ->
  interp (alone t) (lock_target_from_locks (i + Z.of_nat j) i mtxs) o = Ok (<[m := t]> o) tt.
Proof.
  assert (Hgt : forall l o a i', a < i' -> interp (alone t) (lock_target_from_locks a i' l) o = Ok o tt).
  { clear. induction l as [|y l IH]; intros o a i' Hi; [done|]. cbn [lock_target_from_locks].
    rewrite (proj2 (Z.eqb_neq _ _)) by lia. cbn. apply IH. lia. }
  revert i j. induction mtxs as [|x mtxs IH]; intros i j Hj Hm; [by rewrite lookup_nil in Hj|].
  cbn [lock_target_from_locks]. destruct j as [|j].
  - injection Hj as ->. rewrite Z.add_0_r, Z.eqb_refl.
    rewrite (interp_bind _ _ _ o (<[m := t]> o) tt); [apply Hgt; lia|].
    cbn. unfold alone, get, mbind, M_bind. by rewrite decide_True.
  - rewrite (proj2 (Z.eqb_neq _ _)) by lia. cbn.
    replace (i + Z.of_nat (S j)) with (i + 1 + Z.of_nat j) by lia. by apply IH.
Qed.

Lemma try_target_alone j i mtxs m r o : mtxs !! j = Some m -> o !! m = None ->
  interp (alone t) (try_lock_target_from_locks (i + Z.of_nat j) i mtxs r) o = Ok (<[m := t]> o) true.
Proof.
  assert (Hgt : forall l o a i' b, a < i' -> interp (alone t) (try_lock_target_from_locks a i' l b) o = Ok o b).
  { clear. induction l as [|y l IH]; intros o a i' b Hi; [done|]. cbn [try_lock_target_from_locks].
    rewrite (proj2 (Z.eqb_neq _ _)) by lia. cbn. apply IH. lia. }
  revert i j. induction mtxs as [|x mtxs IH]; intros i j Hj Hm; [by rewrite lookup_nil in Hj|].
  cbn [try_lock_target_from_locks]. destruct j as [|j].
  - injection Hj as ->. rewrite Z.add_0_r, Z.eqb_refl.
    rewrite (interp_bind _ _ _ o (<[m := t]> o) true); [apply Hgt; lia|].
    cbn. unfold alone, get, mbind, M_bind. by rewrite decide_True.
  - rewrite (proj2 (Z.eqb_neq _ _)) by lia. cbn.
    replace (i + Z.of_nat (S j)) with (i + 1 + Z.of_nat j) by lia. by apply IH.
Qed.

Lemma try_lock_loop_alone first mtxs todo current o :
  NoDup mtxs -> 0 <= current -> current + Z.of_nat todo <= Z.of_nat (length mtxs) ->
  (forall m, m ∈ between current (current + Z.of_nat todo) 0 mtxs -> o !! m = None) ->
  exists o', interp (alone t) (try_lock_loop first current mtxs todo) o = Ok o' (-1) /\
    takes o (between current (current + Z.of_nat todo) 0 mtxs) o'.
Proof.
  intros Hd. revert current o. induction todo as [|todo IH]; intros current o Hc Hl Hfree.
  { exists o. split; [done|]. rewrite between_empty by lia. intros m. by rewrite decide_False by set_solver. }
  destruct (lookup_lt_is_Some_2 mtxs (Z.to_nat current)) as [m Hm]; [lia|].
  pose proof (between_one mtxs _ _ Hm) as Hone. rewrite Z2Nat.id in Hone by lia.
  pose proof (between_disjoint current (current + 1) (current + Z.of_nat (S todo)) 0 mtxs Hd) as Hdis.
  replace (current + Z.of_nat (S todo)) with (current + 1 + Z.of_nat todo) in * by lia.
  rewrite Hone in Hdis. rewrite (between_split current (current + 1)), Hone in Hfree |- * by lia.
  destruct (IH (current + 1) (<[m := t]> o)) as (o' & E & Ht); [lia|lia| |].
  { intros x Hx. rewrite lookup_insert_ne by set_solver. apply Hfree. set_solver. }
  exists o'. split; [|by eapply takes_trans; [apply takes_one|]].
  cbn [try_lock_loop]. rewrite (interp_bind _ _ _ o (<[m := t]> o) None); [done|].
  apply interp_on_exception. unfold try_lock_one.
  rewrite (interp_bind _ _ _ o (<[m := t]> o) true); [done|].
  replace current with (0 + Z.of_nat (Z.to_nat current)) by lia.
  apply try_target_alone; [done|]. apply Hfree. set_solver.
Qed.

Lemma try_lock_range_alone first last mtxs o :
  NoDup mtxs -> 0 <= first <= last -> last <= Z.of_nat (length mtxs) ->
  (forall m, m ∈ between first last 0 mtxs -> o !! m = None) ->
  exists o', interp (alone t) (try_lock_range first last mtxs) o = Ok o' (-1) /\
    takes o (between first last 0 mtxs) o'.
Proof.
  intros Hd Hf Hl Hfree. unfold try_lock_range.
  replace last with (first + Z.of_nat (Z.to_nat (last - first))) in Hfree, Hl |- * by lia.
  replace (first + Z.of_nat (Z.to_nat (last - first)) - first) with (last - first) by lia.
  apply try_lock_loop_alone; [done|lia|done|done].
Qed.

Lemma lock_attempt_alone prev mtxs o :
  NoDup mtxs -> round_state mtxs prev -> (forall m, m ∈ mtxs -> o !! m = None) ->
  exists o', interp (alone t) (lock_attempt prev mtxs) o = Ok o' (-1) /\ takes o (list_to_set mtxs) o'.
Proof.
  unfold round_state. intros Hd Hp Hfree. set (n := Z.of_nat (length mtxs)) in *.
  destruct (lookup_lt_is_Some_2 mtxs (Z.to_nat prev)) as [m Hm]; [lia|].
  pose proof (between_one mtxs _ _ Hm) as Hone. rewrite Z2Nat.id in Hone by lia.
  pose proof (between_disjoint 0 prev (prev + 1) 0 mtxs Hd) as H01.
  pose proof (between_disjoint 0 (prev + 1) n 0 mtxs Hd) as H12.
  rewrite (between_split 0 prev), Hone in H12 by lia. rewrite Hone in H01.
  assert (Hall : list_to_set mtxs = ({[m]} ∪ between 0 prev 0 mtxs) ∪ between (prev + 1) n 0 mtxs :> gset nat).
  { rewrite <- between_all, (between_split 0 prev), (between_split prev (prev + 1)), Hone by lia. fold n. set_solver. }
  assert (Hf : forall x a b, x ∈ between a b 0 mtxs -> o !! x = None).
  { intros x a b Hx. apply Hfree. by apply between_subset in Hx. }
  assert (Hm0 : o !! m = None) by (apply Hfree, list_elem_of_lookup; eauto).
  pose proof (takes_one o m) as T0.
  destruct (try_lock_range_alone 0 prev mtxs (<[m := t]> o)) as (o1 & E1 & T1); [done|lia|lia| |].
  { intros x Hx. rewrite T0, decide_False by set_solver. by eapply Hf. }
  pose proof (takes_trans _ _ _ _ _ T0 T1) as T01.
  destruct (try_lock_range_alone (prev + 1) n mtxs o1) as (o2 & E2 & T2); [done|lia|lia| |].
  { intros x Hx. rewrite T01, decide_False by set_solver. by eapply Hf. }
  exists o2. split; [|rewrite Hall; by eapply takes_trans].
  unfold lock_attempt. rewrite (interp_bind _ _ _ o (<[m := t]> o) tt).
  2: { replace prev with (0 + Z.of_nat (Z.to_nat prev)) at 1 by lia. by apply lock_target_alone. }
  rewrite (interp_bind _ _ _ _ o1 (-1)) by by apply interp_on_exception.
  cbn [Z.eqb Pos.eqb]. rewrite (interp_bind _ _ _ _ o2 (-1)) by by apply interp_on_exception. done.
Qed.

Lemma lock_attempt_small_alone m1 m2 o :
  m1 <> m2 -> o !! m1 = None -> o !! m2 = None ->
  exists o', interp (alone t) (lock_attempt_small m1 m2) o = Ok o' false /\ takes o {[m1; m2]} o'.
Proof.
  intros Hne H1 H2. exists (<[m2 := t]> (<[m1 := t]> o)). split.
  - unfold lock_attempt_small. rewrite (interp_bind _ _ _ o (<[m1 := t]> o) tt).
    2: { cbn. unfold alone, get, put, mbind, M_bind. by rewrite decide_True. }
    rewrite (interp_bind _ _ _ _ (<[m2 := t]> (<[m1 := t]> o)) true); [done|]. apply interp_on_exception.
    cbn. unfold alone, get, put, mbind, M_bind. by rewrite decide_True by by rewrite lookup_insert_ne.
  - eapply takes_trans; apply takes_one.
Qed.

Lemma lock_round_alone mtxs state o :
  NoDup mtxs -> (2 <= length mtxs)%nat -> round_state mtxs state -> (forall m, m ∈ mtxs -> o !! m = None) ->
  exists o', interp (alone t) (lock_round mtxs state) o = Ok o' (-1) /\ takes o (list_to_set mtxs) o'.
Proof.
  intros Hd Hl Hs Hfree. destruct mtxs as [|m1 [|m2 [|m3 ms]]]; cbn in Hl; try lia.
  - apply NoDup_cons in Hd as [Hm _]. assert (Hne : m1 <> m2) by set_solver.
    unfold lock_round. cbn [list_to_set foldr]. case_match.
    + destruct (lock_attempt_small_alone m1 m2 o) as (o' & E & T); [done|apply Hfree; set_solver..|].
      exists o'. split; [by rewrite (interp_bind _ _ _ o o' false)|by rewrite union_empty_r_L].
    + destruct (lock_attempt_small_alone m2 m1 o) as (o' & E & T); [done|apply Hfree; set_solver..|].
      exists o'. split; [by rewrite (interp_bind _ _ _ o o' false)|].
      by rewrite union_empty_r_L, union_comm_L.
  - by apply lock_attempt_alone.
Qed.

(** The destructor gives back what was taken. *)
Lemma unlock_all_alone mtxs o o' :
  NoDup mtxs -> (forall m, m ∈ mtxs -> o !! m = None) -> takes o (list_to_set mtxs) o' ->
  interp (alone t) (unlock_all mtxs) o' = Ok o tt.
Proof.
  intros Hd. revert o'. induction Hd as [|m mtxs Hm Hd IH]; intros o' Hfree Ht.
  - cbn. unfold mret, M_ret. f_equal. apply map_eq. intros m. by rewrite Ht, decide_False by set_solver.
  - cbn [unlock_all]. rewrite (interp_bind _ _ _ o' (delete m o') tt).
    + apply IH; [set_solver|]. intros x. rewrite lookup_delete. case_decide as Hx.
      * subst. rewrite decide_False by set_solver. by rewrite Hfree by set_solver.
      * rewrite Ht. repeat case_decide; set_solver.
    + cbn. unfold alone, get, put, mbind, M_bind. rewrite decide_True; [done|]. by rewrite Ht, decide_True by set_solver.
Qed.
End alone.

(** Without competition a lock succeeds at once.  When nobody else is active and the
    mutexes are free, the first round takes all of them, from whichever mutex the loop
    goes on, and the destructor leaves every mutex as it was. *)
Theorem lock_alone_succeeds t mtxs state o :
  NoDup mtxs -> (2 <= length mtxs)%nat -> round_state mtxs state -> (forall m, m ∈ mtxs -> o !! m = None) ->
  exists o', lock_loop (alone t) 1 mtxs state o = Ok o' tt /\
    (forall m, o' !! m = if decide (m ∈ mtxs) then Some t else o !! m) /\
    interp (alone t) (unlock_all mtxs) o' = Ok o tt.
Proof.
  intros Hd Hl Hs Hfree. destruct (lock_round_alone t mtxs state o Hd Hl Hs Hfree) as (o' & E & T).
  exists o'. split_and!.
  - cbn [lock_loop]. unfold round_state in Hs. rewrite (proj2 (Z.eqb_neq _ _)) by lia.
    unfold mbind, M_bind. by rewrite E.
  - intros m. rewrite T. repeat case_decide; set_solver.
  - by apply (unlock_all_alone t mtxs o o').
Qed.

Lemma lock_alone_succeeds_witness :
  exists o', lock_loop (alone 5) 1 [3; 1; 2]%nat 2 {[9%nat := 7%nat]} = Ok o' tt /\
    (forall m, o' !! m = if decide (m ∈ [3; 1; 2]%nat) then Some 5%nat else ({[9%nat := 7%nat]} : gmap nat nat) !! m) /\
    interp (alone 5) (unlock_all [3; 1; 2]%nat) o' = Ok {[9%nat := 7%nat]} tt.
Proof.
  apply (lock_alone_succeeds 5 [3; 1; 2]%nat 2 {[9%nat := 7%nat]}).
  - apply (bool_decide_unpack _). vm_compute. exact I.
  - cbn. lia.
  - unfold round_state. cbn. lia.
  - intros m Hm. apply lookup_singleton_ne. set_solver.
Defined.
