(* ===== verification/SpinLock.v ===== *)
(** * Spin locks and the interrupt request level (include/mutex.hpp, src/mutex.cpp, irql.cpp)

    A processor that holds a spin lock runs at [DISPATCH_LEVEL].  [spin_lock] picks one of
    two policies by the levels it is used at: either the caller is already there, or the
    lock raises the level, remembers the old one and restores it with [unlock].

    The kernel's functions are parameters, described by [spin_kernel_laws]. *)
From Stdlib Require Import ZArith Lia.
From stdpp Require Import base list gmap numbers.
From S2P Require Import Prelude Locks.
#[local] Open Scope Z_scope.

Definition PASSIVE_LEVEL : Z := 0.
Definition APC_LEVEL : Z := 1.
Definition DISPATCH_LEVEL : Z := 2.

(** ** The kernel *)

Class spin_kernel (K : Type) := {
  KeGetCurrentIrql : K -> Z;
  (** Whether the lock is held by this processor. *)
  is_locked : K -> nat -> bool;
  KeRaiseIrql : Z -> M K Z;
  KeLowerIrql : Z -> M K unit;
  KeAcquireSpinLockRaiseToDpc : nat -> M K Z;
  KeAcquireSpinLockAtDpcLevel : nat -> M K unit;
  KeTryToAcquireSpinLockAtDpcLevel : nat -> M K bool;
  KeReleaseSpinLock : nat -> Z -> M K unit;
  KeReleaseSpinLockFromDpcLevel : nat -> M K unit }.

(** The level and the locks of a kernel state. *)
Definition kernel_is `{spin_kernel K} (k : K) (irql : Z) (locked : nat -> bool) : Prop :=
  KeGetCurrentIrql k = irql /\ forall l, is_locked k l = locked l.

Definition locked_with (l : nat) (locked : nat -> bool) : nat -> bool :=
  fun x => if decide (x = l) then true else locked x.
Definition locked_without (l : nat) (locked : nat -> bool) : nat -> bool :=
  fun x => if decide (x = l) then false else locked x.

(** The documented behaviour on one processor that no other one competes with. *)
Class spin_kernel_laws (K : Type) `{spin_kernel K} := {
  raise_law k i f new : kernel_is k i f -> i <= new ->
    exists k', KeRaiseIrql new k = Ok k' i /\ kernel_is k' new f;
  lower_law k i f new : kernel_is k i f -> new <= i ->
    exists k', KeLowerIrql new k = Ok k' tt /\ kernel_is k' new f;
  acquire_raise_law k i f l : kernel_is k i f -> i <= DISPATCH_LEVEL -> f l = false ->
    exists k', KeAcquireSpinLockRaiseToDpc l k = Ok k' i /\ kernel_is k' DISPATCH_LEVEL (locked_with l f);
  acquire_dpc_law k f l : kernel_is k DISPATCH_LEVEL f -> f l = false ->
    exists k', KeAcquireSpinLockAtDpcLevel l k = Ok k' tt /\ kernel_is k' DISPATCH_LEVEL (locked_with l f);
  try_dpc_law k f l : kernel_is k DISPATCH_LEVEL f ->
    exists k', KeTryToAcquireSpinLockAtDpcLevel l k = Ok k' (negb (f l)) /\
      kernel_is k' DISPATCH_LEVEL (locked_with l f);
  release_law k f l old : kernel_is k DISPATCH_LEVEL f -> f l = true -> old <= DISPATCH_LEVEL ->
    exists k', KeReleaseSpinLock l old k = Ok k' tt /\ kernel_is k' old (locked_without l f);
  release_dpc_law k f l : kernel_is k DISPATCH_LEVEL f -> f l = true ->
    exists k', KeReleaseSpinLockFromDpcLevel l k = Ok k' tt /\ kernel_is k' DISPATCH_LEVEL (locked_without l f) }.

(** ** The policies *)

Inductive SpinlockType := Mixed | DpcOnly.

Definition spin_lock_selector_impl (kind : Z) : option SpinlockType :=
  match kind with 1 => Some Mixed | 2 => Some DpcOnly | 3 => Some Mixed | _ => None end.

(** Nothing for a pair of levels that the static assertions refuse. *)
Definition spin_lock_type (MinIrql MaxIrql : Z) : option SpinlockType :=
  if (MinIrql <=? MaxIrql) && (MaxIrql <=? DISPATCH_LEVEL) then
    spin_lock_selector_impl
      (Z.lor (Z.b2z (MinIrql <=? APC_LEVEL)) (Z.shiftl (Z.b2z (MaxIrql <=? DISPATCH_LEVEL)) 1))
  else None.

Section spin.
Context `{spin_kernel K}.

(** The kernel, and [m_prev_irql] of every lock. *)
Record spin_world := SpinWorld { kern : K; m_prev_irql : gmap nat Z }.

Definition kernel_call {A} (m : M K A) : M spin_world A := fun w =>
  match m (kern w) with
  | Ok k a => Ok (SpinWorld k (m_prev_irql w)) a
  | Throw k e => Throw (SpinWorld k (m_prev_irql w)) e
  | Fault => Fault
  | Diverge => Diverge
  end.

Definition raise_irql (new_irql : Z) : M spin_world Z := kernel_call (KeRaiseIrql new_irql).
Definition lower_irql (new_irql : Z) : M spin_world unit := kernel_call (KeLowerIrql new_irql).

Definition set_prev_irql (l : nat) (irql : Z) : M spin_world unit :=
  modify (fun w => SpinWorld (kern w) (<[l := irql]> (m_prev_irql w))).
Definition prev_irql (l : nat) : M spin_world Z := w ← get; mret (m_prev_irql w !!! l).

Definition spin_lock (type : SpinlockType) (l : nat) : M spin_world unit :=
  match type with
  | DpcOnly => kernel_call (KeAcquireSpinLockAtDpcLevel l)
  | Mixed => old ← kernel_call (KeAcquireSpinLockRaiseToDpc l); set_prev_irql l old
  end.

Definition spin_try_lock (type : SpinlockType) (l : nat) : M spin_world bool :=
  match type with
  | DpcOnly => kernel_call (KeTryToAcquireSpinLockAtDpcLevel l)
  | Mixed =>
      prev ← raise_irql DISPATCH_LEVEL;
      locked ← kernel_call (KeTryToAcquireSpinLockAtDpcLevel l);
      if locked : bool then _ ← set_prev_irql l prev; mret true
      else _ ← lower_irql prev; mret false
  end.

Definition spin_unlock (type : SpinlockType) (l : nat) : M spin_world unit :=
  match type with
  | DpcOnly => kernel_call (KeReleaseSpinLockFromDpcLevel l)
  | Mixed => old ← prev_irql l; kernel_call (KeReleaseSpinLock l old)
  end.

(** Spin locks of a type as the mutexes of a program; [yield] is a kernel call. *)
Definition spin_request (yield : M spin_world bool) (type : SpinlockType) (q : request) : M spin_world bool :=
  match q with
  | RLock l => _ ← spin_lock type l; mret true
  | RTryLock l => spin_try_lock type l
  | RUnlock l => _ ← spin_unlock type l; mret true
  | RYield => yield
  end.

(** [irql_guard]: the constructor returns the level that the destructor restores. *)
Definition irql_guard (new_irql : Z) : M spin_world Z := raise_irql new_irql.
Definition irql_guard_destroy (m_old_irql : Z) : M spin_world unit := lower_irql m_old_irql.

(** Locks taken and released one inside the other. *)
Fixpoint lock_nested (type : SpinlockType) (ls : list nat) : M spin_world unit :=
  match ls with [] => mret tt | l :: ls => _ ← spin_lock type l; lock_nested type ls end.
Fixpoint unlock_nested (type : SpinlockType) (ls : list nat) : M spin_world unit :=
  match ls with [] => mret tt | l :: ls => _ ← unlock_nested type ls; spin_unlock type l end.
End spin.
Arguments SpinWorld {K} kern m_prev_irql.

(** * Properties of spin locks

    Spin locks that are released in the reverse order of their acquisition restore the
    level; the destructor of [scoped_lock] releases two locks in the order in which its
    constructor usually takes them. *)

Section spin.
Context `{L : spin_kernel_laws K}.
Implicit Types (w : spin_world (K := K)) (f : nat -> bool).

Definition world_is w (i : Z) f : Prop := kernel_is (kern w) i f.

Lemma world_is_ext w i f g : world_is w i f -> (forall l, f l = g l) -> world_is w i g.
Proof. intros [? Hf] Hg. split; [done|]. intros l. by rewrite Hf, Hg. Qed.

Lemma kernel_call_Ok {A} (m : M K A) w k a : m (kern w) = Ok k a ->
  kernel_call m w = Ok (SpinWorld k (m_prev_irql w)) a.
Proof. unfold kernel_call. by intros ->. Qed.

(** The policy fits the level: the one without raising is used at [DISPATCH_LEVEL]. *)
Definition fits (type : SpinlockType) (i : Z) : Prop :=
  match type with Mixed => i <= DISPATCH_LEVEL | DpcOnly => i = DISPATCH_LEVEL end.

Lemma fits_dispatch type : fits type DISPATCH_LEVEL.
Proof. destruct type; cbn; [lia|done]. Qed.

Lemma spin_lock_type_fits MinIrql MaxIrql i : MinIrql <= i <= MaxIrql -> MaxIrql <= DISPATCH_LEVEL ->
  exists type, spin_lock_type MinIrql MaxIrql = Some type /\ fits type i.
Proof.
  unfold DISPATCH_LEVEL. intros Hi Hm. unfold spin_lock_type, DISPATCH_LEVEL, APC_LEVEL.
  rewrite (proj2 (Z.leb_le MinIrql MaxIrql)), (proj2 (Z.leb_le MaxIrql 2)) by lia. cbn [andb].
  destruct (Z.leb_spec MinIrql 1).
  - exists Mixed. split; [done|]. cbn. unfold DISPATCH_LEVEL. lia.
  - exists DpcOnly. split; [done|]. cbn. unfold DISPATCH_LEVEL. lia.
Qed.

Lemma spin_lock_ok type w i f l : world_is w i f -> fits type i -> f l = false ->
  exists w', spin_lock type l w = Ok w' tt /\ world_is w' DISPATCH_LEVEL (locked_with l f) /\
    (type = Mixed -> m_prev_irql w' !!! l = i) /\
    forall x, x <> l -> m_prev_irql w' !!! x = m_prev_irql w !!! x.
Proof.
  intros Hw Hf Hl. destruct type; cbn in Hf.
  - destruct (acquire_raise_law _ _ _ _ Hw Hf Hl) as (k' & E & Hk).
    eexists. unfold spin_lock. rewrite (bind_Ok _ _ _ _ _ (kernel_call_Ok _ _ _ _ E)).
    split; [reflexivity|]. split; [done|]. cbn. split; [intros _; by rewrite lookup_total_insert_eq|].
    intros x Hx. by rewrite lookup_total_insert_ne.
  - subst. destruct (acquire_dpc_law _ _ _ Hw Hl) as (k' & E & Hk).
    eexists. split; [exact (kernel_call_Ok _ _ _ _ E)|]. done.
Qed.

Lemma spin_unlock_ok type w i f l : world_is w DISPATCH_LEVEL f -> fits type i -> f l = true ->
  (type = Mixed -> m_prev_irql w !!! l = i) ->
  exists w', spin_unlock type l w = Ok w' tt /\ world_is w' i (locked_without l f) /\
    m_prev_irql w' = m_prev_irql w.
Proof.
  intros Hw Hf Hl Hp. destruct type; cbn in Hf.
  - destruct (release_law _ _ _ i Hw Hl Hf) as (k' & E & Hk). rewrite <- (Hp eq_refl) in E.
    eexists. split; [exact (kernel_call_Ok _ _ _ _ E)|]. done.
  - subst. destruct (release_dpc_law _ _ _ Hw Hl) as (k' & E & Hk).
    eexists. split; [exact (kernel_call_Ok _ _ _ _ E)|]. done.
Qed.

(** The locks [ls] are held besides [f]. *)
Definition holding (ls : list nat) f : nat -> bool := fun x => if decide (x ∈ ls) then true else f x.

Lemma lock_nested_ok type ls w i f : world_is w i f -> fits type i -> NoDup ls ->
  (forall l, l ∈ ls -> f l = false) ->
  exists w1 w2, lock_nested type ls w = Ok w1 tt /\
    world_is w1 (if ls is [] then i else DISPATCH_LEVEL) (holding ls f) /\
    unlock_nested type ls w1 = Ok w2 tt /\ world_is w2 i f /\
    m_prev_irql w2 = m_prev_irql w1 /\ forall x, x ∉ ls -> m_prev_irql w1 !!! x = m_prev_irql w !!! x.
Proof.
  intros Hw Hf Hd. revert w i f Hw Hf. induction Hd as [|l ls Hl Hd IH]; intros w i f Hw Hf Hfree.
  { exists w, w. split_and!; try done. }
  destruct (spin_lock_ok type w i f l Hw Hf) as (w1 & E1 & Hw1 & Hp1 & Ho1); [apply Hfree; set_solver|].
  destruct (IH w1 _ _ Hw1 (fits_dispatch type)) as (w2 & w3 & E2 & Hw2 & E3 & Hw3 & Hp3 & Ho2).
  { intros x Hx. unfold locked_with. rewrite decide_False by (intros ->; done). apply Hfree. set_solver. }
  destruct (spin_unlock_ok type w3 i (locked_with l f) l Hw3 Hf) as (w4 & E4 & Hw4 & Hp4).
  { unfold locked_with. by rewrite decide_True. }
  { intros Ht. by rewrite Hp3, Ho2, Hp1. }
  exists w2, w4. split_and!.
  - cbn [lock_nested]. by rewrite (bind_Ok _ _ _ _ _ E1).
  - eapply world_is_ext; [by destruct ls|]. intros x. unfold holding, locked_with.
    repeat case_decide; set_solver.
  - cbn [unlock_nested]. by rewrite (bind_Ok _ _ _ _ _ E3).
  - eapply world_is_ext; [exact Hw4|]. intros x. unfold locked_without, locked_with.
    repeat case_decide; subst; [|done]. symmetry. apply Hfree. set_solver.
  - by rewrite Hp4.
  - intros x Hx. rewrite Ho2, Ho1 by set_solver. done.
Qed.
End spin.

(** ** A kernel *)

(** The level and the locks that are held. *)
Definition pc : Type := Z * (nat -> bool).

#[export] Instance pc_kernel : spin_kernel pc := {|
  KeGetCurrentIrql := fst;
  is_locked := snd;
  KeRaiseIrql new k := if k.1 <=? new then Ok (new, k.2) k.1 else Fault;
  KeLowerIrql new k := if new <=? k.1 then Ok (new, k.2) tt else Fault;
  KeAcquireSpinLockRaiseToDpc l k :=
    if k.1 <=? DISPATCH_LEVEL then
      if k.2 l then Diverge else Ok (DISPATCH_LEVEL, locked_with l k.2) k.1
    else Fault;
  KeAcquireSpinLockAtDpcLevel l k := if k.2 l then Diverge else Ok (k.1, locked_with l k.2) tt;
  KeTryToAcquireSpinLockAtDpcLevel l k := Ok (k.1, locked_with l k.2) (negb (k.2 l));
  KeReleaseSpinLock l old k :=
    if (k.1 =? DISPATCH_LEVEL) && k.2 l then Ok (old, locked_without l k.2) tt else Fault;
  KeReleaseSpinLockFromDpcLevel l k :=
    if (k.1 =? DISPATCH_LEVEL) && k.2 l then Ok (k.1, locked_without l k.2) tt else Fault |}.

#[export] Instance pc_kernel_laws : spin_kernel_laws pc.
Proof.
  assert (Hw : forall l f g x, (forall x, f x = g x) -> locked_with l f x = locked_with l g x).
  { intros l f g x Hx. unfold locked_with. by case_decide. }
  assert (Hwo : forall l f g x, (forall x, f x = g x) -> locked_without l f x = locked_without l g x).
  { intros l f g x Hx. unfold locked_without. by case_decide. }
  split; intros [i0 f0]; unfold kernel_is; cbn; intros; destruct_and!; subst;
    repeat match goal with H : forall l, f0 l = _ |- context [f0 ?l] => rewrite (H l) end;
    repeat match goal with H : ?f ?l = _ |- context [?f ?l] => rewrite H end; cbn;
    try (rewrite (proj2 (Z.leb_le _ _)) by done);
    (eexists; split; [reflexivity|]); cbn; auto.
Qed.

(** ** Properties *)

(** A spin lock that is declared for the levels it is used at restores the level.
    The selector has a policy that fits; distinct free locks that are taken one inside the
    other are all held at [DISPATCH_LEVEL], and their release in reverse order leaves the
    level and every lock as they were. *)
Theorem spin_locks_restore_irql `{L : spin_kernel_laws K} MinIrql MaxIrql ls (w : spin_world (K := K)) i f :
  MinIrql <= i <= MaxIrql -> MaxIrql <= DISPATCH_LEVEL ->
  world_is w i f -> NoDup ls -> ls <> [] -> (forall l, l ∈ ls -> f l = false) ->
  exists type w1 w2, spin_lock_type MinIrql MaxIrql = Some type /\
    lock_nested type ls w = Ok w1 tt /\ world_is w1 DISPATCH_LEVEL (holding ls f) /\
    unlock_nested type ls w1 = Ok w2 tt /\ world_is w2 i f.
Proof.
  intros Hi Hm Hw Hd Hne Hfree. destruct (spin_lock_type_fits _ _ _ Hi Hm) as (type & Ht & Hf).
  destruct (lock_nested_ok type ls w i f Hw Hf Hd Hfree) as (w1 & w2 & E1 & H1 & E2 & H2 & _).
  exists type, w1, w2. split_and!; try done. by destruct ls.
Qed.

Definition at_apc : spin_world (K := pc) := SpinWorld (APC_LEVEL, fun _ => false) ∅.

Lemma spin_locks_restore_irql_witness :
  exists type w1 w2, spin_lock_type PASSIVE_LEVEL DISPATCH_LEVEL = Some type /\
    lock_nested type [7; 3]%nat at_apc = Ok w1 tt /\
    world_is w1 DISPATCH_LEVEL (holding [7; 3]%nat (fun _ => false)) /\
    unlock_nested type [7; 3]%nat w1 = Ok w2 tt /\ world_is w2 APC_LEVEL (fun _ => false).
Proof.
  apply (spin_locks_restore_irql PASSIVE_LEVEL DISPATCH_LEVEL [7; 3]%nat at_apc APC_LEVEL (fun _ => false)).
  - unfold PASSIVE_LEVEL, APC_LEVEL, DISPATCH_LEVEL. lia.
  - lia.
  - split; [reflexivity|]. intros l. reflexivity.
  - apply (bool_decide_unpack _). vm_compute. exact I.
  - discriminate.
  - intros l _. reflexivity.
Defined.

(** [try_lock] reports whether the lock was free.  It leaves the level alone when it
    fails and raises it to [DISPATCH_LEVEL] when it succeeds, and [unlock] restores it. *)
Theorem spin_try_lock_correct `{L : spin_kernel_laws K} type (w : spin_world (K := K)) i f l :
  world_is w i f -> fits type i ->
  exists w', spin_try_lock type l w = Ok w' (negb (f l)) /\
    if f l then world_is w' i f
    else world_is w' DISPATCH_LEVEL (locked_with l f) /\
      exists w'', spin_unlock type l w' = Ok w'' tt /\ world_is w'' i f.
Proof.
  intros Hw Hf.
  assert (Hback : f l = false -> forall x, locked_without l (locked_with l f) x = f x).
  { intros Hl x. unfold locked_without, locked_with. by repeat case_decide; subst. }
  assert (Hsame : f l = true -> forall x, locked_with l f x = f x).
  { intros Hl x. unfold locked_with. by case_decide; subst. }
  assert (Hin : locked_with l f l = true) by (unfold locked_with; by rewrite decide_True).
  destruct type; cbn in Hf.
  - destruct (raise_law _ _ _ DISPATCH_LEVEL Hw Hf) as (k1 & E1 & H1).
    destruct (try_dpc_law _ _ l H1) as (k2 & E2 & H2). unfold spin_try_lock, raise_irql.
    rewrite (bind_Ok _ _ _ _ _ (kernel_call_Ok _ _ _ _ E1)).
    erewrite bind_Ok by (apply kernel_call_Ok; exact E2). cbn. destruct (f l) eqn:Hl; cbn.
    + destruct (lower_law _ _ _ i H2 Hf) as (k3 & E3 & H3).
      unfold lower_irql. erewrite bind_Ok by (apply kernel_call_Ok; exact E3).
      eexists. split; [reflexivity|]. eapply world_is_ext; [exact H3|by apply Hsame].
    + eexists. split; [reflexivity|]. split; [exact H2|].
      destruct (spin_unlock_ok Mixed (SpinWorld k2 (<[l := i]> (m_prev_irql w))) i _ l H2 Hf Hin)
        as (w'' & E & Hw' & _); [intros _; by apply lookup_total_insert_eq|].
      exists w''. split; [exact E|]. eapply world_is_ext; [exact Hw'|by apply Hback].
  - subst. destruct (try_dpc_law _ _ l Hw) as (k2 & E2 & H2).
    eexists. split; [exact (kernel_call_Ok _ _ _ _ E2)|]. destruct (f l) eqn:Hl.
    + eapply world_is_ext; [exact H2|by apply Hsame].
    + split; [exact H2|].
      destruct (spin_unlock_ok DpcOnly (SpinWorld k2 (m_prev_irql w)) DISPATCH_LEVEL _ l H2 eq_refl Hin)
        as (w'' & E & Hw' & _); [done|].
      exists w''. split; [exact E|]. eapply world_is_ext; [exact Hw'|by apply Hback].
Qed.

Lemma spin_try_lock_correct_witness :
  exists w', spin_try_lock Mixed 4 at_apc = Ok w' true /\
    world_is w' DISPATCH_LEVEL (locked_with 4 (fun _ => false)) /\
    exists w'', spin_unlock Mixed 4 w' = Ok w'' tt /\ world_is w'' APC_LEVEL (fun _ => false).
Proof.
  apply (spin_try_lock_correct Mixed at_apc APC_LEVEL (fun _ => false) 4).
  - split; [reflexivity|]. intros l. reflexivity.
  - unfold fits, APC_LEVEL, DISPATCH_LEVEL. lia.
Defined.

(** [scoped_lock] drops the level too early.  Below [DISPATCH_LEVEL] its constructor
    takes two free spin locks in their order, and its destructor releases the first one
    first: that restores the old level while the second one is still held. *)
Theorem scoped_lock_drops_irql `{L : spin_kernel_laws K} yield (w : spin_world (K := K)) i f a b :
  world_is w i f -> i < DISPATCH_LEVEL -> a <> b -> f a = false -> f b = false ->
  exists w1 w2, interp (spin_request yield Mixed) (scoped_lock [a; b]) w = Ok w1 (-1) /\
    interp (spin_request yield Mixed) (unlock_all [a; b]) w1 =
      (_ ← spin_unlock Mixed b; mret tt) w2 /\
    world_is w2 i (locked_with b f).
Proof.
  intros Hw Hi Hne Ha Hb.
  destruct (spin_lock_ok Mixed w i f a Hw) as (w1 & E1 & H1 & P1 & _); [cbn; lia|done|].
  assert (Hb1 : locked_with a f b = false) by (unfold locked_with; by rewrite decide_False).
  pose proof (fits_dispatch Mixed) as Hfit.
  destruct (raise_law _ _ _ DISPATCH_LEVEL H1) as (k2 & E2 & H2); [lia|].
  destruct (try_dpc_law _ _ b H2) as (k3 & E3 & H3). rewrite Hb1 in E3. cbn in E3.
  set (w2 := SpinWorld k3 (<[b := DISPATCH_LEVEL]> (m_prev_irql w1))).
  destruct (spin_unlock_ok Mixed w2 i (locked_with b (locked_with a f)) a H3) as (w3 & E4 & H4 & _).
  { cbn. lia. }
  { unfold locked_with. rewrite decide_False by done. by rewrite decide_True. }
  { intros _. cbn. rewrite lookup_total_insert_ne by congruence. by apply P1. }
  exists w2, w3. split_and!.
  - assert (E5 : spin_try_lock Mixed b w1 = Ok w2 true).
    { unfold spin_try_lock, raise_irql. rewrite (bind_Ok _ _ _ _ _ (kernel_call_Ok _ _ _ _ E2)).
      by erewrite bind_Ok by (apply kernel_call_Ok; exact E3). }
    cbn -[spin_lock spin_try_lock]. unfold mbind, M_bind. rewrite E1.
    cbn -[spin_lock spin_try_lock]. by rewrite E5.
  - cbn -[spin_unlock]. unfold mbind, M_bind. rewrite E4. cbn -[spin_unlock]. by destruct (spin_unlock Mixed b w3) as [? []| | |].
  - eapply world_is_ext; [exact H4|]. intros x. unfold locked_without, locked_with.
    repeat case_decide; congruence.
Qed.

Lemma scoped_lock_drops_irql_witness :
  exists w1 w2, interp (spin_request (K := pc) fault Mixed) (scoped_lock [0; 1]%nat) at_apc = Ok w1 (-1) /\
    interp (spin_request fault Mixed) (unlock_all [0; 1]%nat) w1 = (_ ← spin_unlock Mixed 1; mret tt) w2 /\
    world_is w2 APC_LEVEL (locked_with 1 (fun _ => false)).
Proof.
  apply (scoped_lock_drops_irql fault at_apc APC_LEVEL (fun _ => false) 0 1).
  - split; [reflexivity|]. intros l. reflexivity.
  - unfold APC_LEVEL, DISPATCH_LEVEL. lia.
  - discriminate.
  - reflexivity.
  - reflexivity.
Defined.
