(* ===== verification/Guards.v ===== *)
(** * Lock guards (include/mutex.hpp)

    [unique_lock] and [shared_lock] are a pointer to a mutex and a flag that says whether
    the guard owns it.  A mutex counts how often the thread has locked it, exclusively and
    shared; unlocking a mutex that is not locked is undefined. *)
From Stdlib Require Import ZArith Lia.
From stdpp Require Import base list gmap numbers.
From S2P Require Import Prelude Refinement.

Inductive guard_kind := UniqueLock | SharedLock.

#[export] Instance guard_kind_eq_dec : EqDecision guard_kind.
Proof. solve_decision. Defined.

#[export] Instance guard_kind_countable : Countable guard_kind.
Proof.
  refine (inj_countable' (fun k => if k is UniqueLock then true else false)
                         (fun b : bool => if b then UniqueLock else SharedLock) _).
  by intros [].
Defined.

(** [mutex_guard_base]. *)
Record guard := Guard { guard_type : guard_kind; m_mtx : option nat; m_owned : bool }.

#[export] Instance guard_eq_dec : EqDecision guard.
Proof. solve_decision. Defined.

Record guard_world := GuardWorld {
  guards : gmap nat guard;
  levels : gmap (guard_kind * nat) nat }.

Definition set_guards (m : gmap nat guard) (w : guard_world) : guard_world := GuardWorld m (levels w).
Definition set_levels (m : gmap (guard_kind * nat) nat) (w : guard_world) : guard_world :=
  GuardWorld (guards w) m.

(** ** The mutexes *)

Definition level (w : guard_world) (k : guard_kind) (m : nat) : nat := default 0 (levels w !! (k, m)).

(** [lock] and [lock_shared]. *)
Definition mutex_lock (k : guard_kind) (m : nat) : M guard_world unit :=
  modify (fun w => set_levels (<[(k, m) := S (level w k m)]> (levels w)) w).

(** [unlock] and [unlock_shared]. *)
Definition mutex_unlock (k : guard_kind) (m : nat) : M guard_world unit :=
  w ← get;
  match level w k m with
  | O => fault
  | S n => put (set_levels (<[(k, m) := n]> (levels w)) w)
  end.

(** ** mutex_guard_base *)

Definition read_guard (g : nat) : M guard_world guard := w ← get; access (guards w !! g).
Definition write_guard (g : nat) (x : guard) : M guard_world unit :=
  modify (fun w => set_guards (<[g := x]> (guards w)) w).

Definition owns_lock (g : nat) : M guard_world bool := x ← read_guard g; mret (m_owned x).

Definition move_construct_guard (g other : nat) : M guard_world unit :=
  y ← read_guard other;
  _ ← write_guard other (Guard (guard_type y) None (m_owned y));
  x ← read_guard g;
  _ ← write_guard g (Guard (guard_type x) (m_mtx y) (m_owned x));
  y ← read_guard other;
  _ ← write_guard other (Guard (guard_type y) (m_mtx y) false);
  x ← read_guard g;
  write_guard g (Guard (guard_type x) (m_mtx x) (m_owned y)).

(** [lock] and [lock_shared] of the base class. *)
Definition guard_lock (g : nat) : M guard_world unit :=
  x ← read_guard g;
  m ← access (m_mtx x);
  _ ← mutex_lock (guard_type x) m;
  write_guard g (Guard (guard_type x) (Some m) true).

Definition guard_unlock (g : nat) : M guard_world unit :=
  x ← read_guard g;
  m ← access (m_mtx x);
  _ ← mutex_unlock (guard_type x) m;
  write_guard g (Guard (guard_type x) (Some m) false).

Definition guard_release (g : nat) : M guard_world (option nat) :=
  x ← read_guard g;
  _ ← write_guard g (Guard (guard_type x) None false);
  mret (m_mtx x).

(** ** unique_lock and shared_lock *)

Definition reset_if_needed (g : nat) : M guard_world unit :=
  b ← owns_lock g; if b : bool then guard_unlock g else mret tt.

Definition construct_default (k : guard_kind) (g : nat) : M guard_world unit :=
  write_guard g (Guard k None false).
Definition construct_deferred (k : guard_kind) (g m : nat) : M guard_world unit :=
  write_guard g (Guard k (Some m) false).
Definition construct_adopting (k : guard_kind) (g m : nat) : M guard_world unit :=
  write_guard g (Guard k (Some m) true).
Definition construct_locking (k : guard_kind) (g m : nat) : M guard_world unit :=
  _ ← construct_deferred k g m; guard_lock g.
Definition construct_moving (k : guard_kind) (g other : nat) : M guard_world unit :=
  _ ← construct_default k g; move_construct_guard g other.
Definition assign_moving (g other : nat) : M guard_world unit :=
  _ ← reset_if_needed g; move_construct_guard g other.
Definition destroy_guard (g : nat) : M guard_world unit :=
  _ ← reset_if_needed g; modify (fun w => set_guards (delete g (guards w)) w).

(** ** Sequences of operations, also on the mutexes themselves *)

Inductive guard_op :=
  | GLocking (k : guard_kind) (g m : nat) | GDeferred (k : guard_kind) (g m : nat)
  | GAdopting (k : guard_kind) (g m : nat) | GDefault (k : guard_kind) (g : nat)
  | GMoving (k : guard_kind) (g other : nat) | GAssign (g other : nat) | GDestroy (g : nat)
  | GLock (g : nat) | GUnlock (g : nat) | GRelease (g : nat)
  | MLock (k : guard_kind) (m : nat) | MUnlock (k : guard_kind) (m : nat).

Definition run_guard_op (op : guard_op) : M guard_world unit :=
  match op with
  | GLocking k g m => construct_locking k g m
  | GDeferred k g m => construct_deferred k g m
  | GAdopting k g m => construct_adopting k g m
  | GDefault k g => construct_default k g
  | GMoving k g other => construct_moving k g other
  | GAssign g other => assign_moving g other
  | GDestroy g => destroy_guard g
  | GLock g => guard_lock g
  | GUnlock g => guard_unlock g
  | GRelease g => _ ← guard_release g; mret tt
  | MLock k m => mutex_lock k m
  | MUnlock k m => mutex_unlock k m
  end.

(** * Properties of the lock guards

    What a mutex counts is what the guards own and what the thread has locked by hand. *)

(** ** The account *)

Definition owns (k : guard_kind) (m : nat) (x : nat * guard) : Prop :=
  guard_type x.2 = k /\ m_mtx x.2 = Some m /\ m_owned x.2 = true.

#[export] Instance owns_dec k m x : Decision (owns k m x).
Proof. unfold owns. apply _. Defined.

(** Locks that the thread took, adopted or released itself. *)
Definition by_hand (man : gmap (guard_kind * nat) nat) (k : guard_kind) (m : nat) : nat := default 0 (man !! (k, m)).

Definition adjust (man : gmap (guard_kind * nat) nat) (k : guard_kind) (m : nat) (f : nat -> nat) : gmap (guard_kind * nat) nat :=
  <[(k, m) := f (by_hand man k m)]> man.

Record account (w : guard_world) (man : gmap (guard_kind * nat) nat) : Prop := {
  ac_level k m : level w k m = matching (owns k m) (guards w) + by_hand man k m;
  ac_mutex g x : guards w !! g = Some x -> m_owned x = true -> is_Some (m_mtx x) }.

(** What an operation asks of its caller. *)
Definition guard_op_ok (op : guard_op) (w : guard_world) (man : gmap (guard_kind * nat) nat) : Prop :=
  match op with
  | GLocking _ g _ | GDeferred _ g _ | GDefault _ g => guards w !! g = None
  | GAdopting k g m => guards w !! g = None /\ by_hand man k m <> 0
  | GMoving k g other => guards w !! g = None /\ guard_type <$> guards w !! other = Some k
  | GAssign g other => is_Some (guards w !! g) /\
      guard_type <$> guards w !! other = guard_type <$> guards w !! g
  | GDestroy g | GRelease g => is_Some (guards w !! g)
  | GLock g => match guards w !! g with Some (Guard UniqueLock (Some _) false) => True | _ => False end
  | GUnlock g => match guards w !! g with Some (Guard UniqueLock _ true) => True | _ => False end
  | MLock _ _ => True
  | MUnlock k m => by_hand man k m <> 0
  end.

#[export] Instance guard_op_ok_dec op w man : Decision (guard_op_ok op w man).
Proof. destruct op; unfold guard_op_ok; repeat case_match; apply _. Defined.

Definition guard_op_by_hand (op : guard_op) (w : guard_world) (man : gmap (guard_kind * nat) nat)
    : gmap (guard_kind * nat) nat :=
  match op with
  | GAdopting k _ m => adjust man k m pred
  | MUnlock k m => adjust man k m pred
  | MLock k m => adjust man k m S
  | GRelease g =>
      match guards w !! g with Some (Guard k (Some m) true) => adjust man k m S | _ => man end
  | _ => man
  end.

(** ** Effects *)

Lemma level_set k m n w k' m' :
  level (set_levels (<[(k, m) := n]> (levels w)) w) k' m' = if decide (k = k' /\ m = m') then n else level w k' m'.
Proof.
  unfold level. cbn. rewrite lookup_insert. repeat case_decide; naive_solver.
Qed.

Lemma by_hand_adjust man k m f k' m' :
  by_hand (adjust man k m f) k' m' = if decide (k = k' /\ m = m') then f (by_hand man k m) else by_hand man k' m'.
Proof.
  unfold adjust, by_hand. rewrite lookup_insert. repeat case_decide; naive_solver.
Qed.

Section effects.
Context (w : guard_world) (g : nat).

Lemma read_guard_ok x : guards w !! g = Some x -> read_guard g w = Ok w x.
Proof. intros Hg. unfold read_guard, get, mbind, M_bind. by rewrite Hg. Qed.

Lemma guard_lock_ok k m b : guards w !! g = Some (Guard k (Some m) b) ->
  guard_lock g w = Ok (set_guards (<[g := Guard k (Some m) true]> (guards w))
                        (set_levels (<[(k, m) := S (level w k m)]> (levels w)) w)) tt.
Proof. intros Hg. unfold guard_lock. by rewrite (bind_Ok _ _ _ _ _ (read_guard_ok _ Hg)). Qed.

Lemma guard_unlock_ok k m b n : guards w !! g = Some (Guard k (Some m) b) -> level w k m = S n ->
  guard_unlock g w = Ok (set_guards (<[g := Guard k (Some m) false]> (guards w))
                          (set_levels (<[(k, m) := n]> (levels w)) w)) tt.
Proof.
  intros Hg Hn. unfold guard_unlock. rewrite (bind_Ok _ _ _ _ _ (read_guard_ok _ Hg)).
  cbn. unfold mutex_unlock, get, mbind, M_bind. cbn. by rewrite Hn.
Qed.

Lemma move_construct_ok other x y : g <> other ->
  guards w !! g = Some x -> guards w !! other = Some y ->
  move_construct_guard g other w =
    Ok (set_guards (<[g := Guard (guard_type x) (m_mtx y) (m_owned y)]>
         (<[other := Guard (guard_type y) None false]> (guards w))) w) tt.
Proof.
  intros Hne Hg Ho. unfold move_construct_guard, write_guard, read_guard, modify, get, mbind, M_bind.
  repeat (first [rewrite Hg|rewrite Ho|rewrite lookup_insert_eq
                |rewrite lookup_insert_ne by congruence]; cbn).
  unfold set_guards. cbn. f_equal. f_equal. apply map_eq. intros i.
  destruct (decide (i = g)) as [->|]; [by rewrite !lookup_insert_eq|].
  destruct (decide (i = other)) as [->|].
  - rewrite !(lookup_insert_ne _ g) by congruence. by rewrite !lookup_insert_eq.
  - by rewrite !lookup_insert_ne by congruence.
Qed.
End effects.

(** Replacing a guard, with the levels and the hand-made locks adjusted. *)
Lemma account_insert w man g x w' man' :
  account w man -> guards w !! g = None ->
  guards w' = <[g := x]> (guards w) -> (m_owned x = true -> is_Some (m_mtx x)) ->
  (forall k m, level w' k m + by_hand man k m = level w k m + by_hand man' k m + counted (owns k m) (g, x)) ->
  account w' man'.
Proof.
  intros [Hl Hm] Hg Hw Hx Hk. split.
  - intros k m. specialize (Hk k m). rewrite Hl in Hk. rewrite Hw, matching_insert_new by done. lia.
  - intros g' x'. rewrite Hw, lookup_insert_Some. intros [[<- <-]|[_ Hg']]; [done|by eapply Hm].
Qed.

Lemma account_replace w man g x x' w' man' :
  account w man -> guards w !! g = Some x ->
  guards w' = <[g := x']> (guards w) -> (m_owned x' = true -> is_Some (m_mtx x')) ->
  (forall k m, level w' k m + by_hand man k m + counted (owns k m) (g, x) =
               level w k m + by_hand man' k m + counted (owns k m) (g, x')) ->
  account w' man'.
Proof.
  intros [Hl Hm] Hg Hw Hx Hk. split.
  - intros k m. specialize (Hk k m). rewrite Hl in Hk. rewrite Hw.
    pose proof (matching_insert (owns k m) (guards w) g x x' Hg). lia.
  - intros g' y. rewrite Hw, lookup_insert_Some. intros [[<- <-]|[_ Hg']]; [done|by eapply Hm].
Qed.

Lemma account_delete w man g x w' :
  account w man -> guards w !! g = Some x -> m_owned x = false ->
  w' = set_guards (delete g (guards w)) w -> account w' man.
Proof.
  intros [Hl Hm] Hg Hx ->. split; cbn.
  - intros k m. change (level (set_guards _ w) k m) with (level w k m). rewrite Hl.
    rewrite (matching_delete (owns k m) (guards w) g x Hg). unfold counted.
    by rewrite decide_False by (intros (_ & _ & ?); cbn in *; congruence).
  - intros g' y. rewrite lookup_delete_Some. intros [_ Hg']. by eapply Hm.
Qed.

Ltac count_guards :=
  intros; rewrite ?level_set, ?by_hand_adjust; unfold counted, owns; cbn; repeat case_decide; naive_solver lia.

(** [reset_if_needed] gives up the mutex of an owning guard. *)
Lemma reset_if_needed_ok w man g x : account w man -> guards w !! g = Some x ->
  exists w', reset_if_needed g w = Ok w' tt /\ account w' man /\
    guards w' = <[g := Guard (guard_type x) (m_mtx x) false]> (guards w).
Proof.
  intros Ha Hg. unfold reset_if_needed, owns_lock.
  rewrite (bind_Ok _ _ w w (m_owned x)); [|by rewrite (bind_Ok _ _ _ _ _ (read_guard_ok _ _ _ Hg))].
  destruct x as [k mtx []]; cbn [m_owned].
  - destruct (ac_mutex _ _ Ha g _ Hg eq_refl) as [m Hm]. cbn in Hm. subst.
    assert (Hpos : 0 < matching (owns k m) (guards w)) by (apply matching_pos; by exists g, (Guard k (Some m) true)).
    destruct (level w k m) as [|n] eqn:Hn; [rewrite (ac_level _ _ Ha) in Hn; lia|].
    rewrite (guard_unlock_ok _ _ _ _ _ _ Hg Hn). eexists. split; [reflexivity|]. split; [|done].
    eapply account_replace; [exact Ha|exact Hg|done|done|].
    intros k' m'. cbn [guard_type m_mtx]. change (level (set_guards _ ?v)) with (level v).
    rewrite level_set. unfold counted, owns. cbn. repeat case_decide; naive_solver lia.
  - exists w. split; [done|]. split; [done|]. cbn. by rewrite insert_id.
Qed.

Lemma moved_account w man g other x y : account w man -> g <> other ->
  guards w !! g = Some x -> m_owned x = false -> guards w !! other = Some y -> guard_type y = guard_type x ->
  account (set_guards (<[g := Guard (guard_type x) (m_mtx y) (m_owned y)]>
             (<[other := Guard (guard_type y) None false]> (guards w))) w) man.
Proof.
  intros [Hl Hm] Hne Hg Hx Ho Hk. split.
  - intros k m. change (level (set_guards _ w) k m) with (level w k m). rewrite Hl. cbn. f_equal.
    assert (Hg' : <[other := Guard (guard_type y) None false]> (guards w) !! g = Some x)
      by (by rewrite lookup_insert_ne).
    pose proof (matching_insert (owns k m) _ g x (Guard (guard_type x) (m_mtx y) (m_owned y)) Hg') as E1.
    pose proof (matching_insert (owns k m) _ other y (Guard (guard_type y) None false) Ho) as E2.
    unfold counted, owns in *. cbn in *. repeat case_decide; naive_solver (congruence || lia).
  - intros g' z. cbn. rewrite !lookup_insert_Some.
    intros [[<- <-]|[_ [[<- <-]|[_ Hz]]]]; cbn; [by eapply Hm|done|by eapply Hm].
Qed.

Lemma insert_insert_self {A} (m : gmap nat A) i x y : <[i := x]> (<[i := y]> m) = <[i := x]> m.
Proof. apply insert_insert_eq. Qed.

Lemma self_move_ok w g x : guards w !! g = Some x -> m_owned x = false ->
  move_construct_guard g g w = Ok w tt.
Proof.
  destruct x as [k mtx b]. intros Hg Hb. cbn in Hb. subst.
  unfold move_construct_guard, write_guard, read_guard, modify, get, mbind, M_bind.
  repeat (first [rewrite Hg|rewrite lookup_insert_eq|rewrite insert_insert_self]; cbn).
  rewrite insert_id by done. by destruct w.
Qed.

(** The operation returns and the account is kept. *)
Definition keeps (m : M guard_world unit) (w : guard_world) (man : gmap (guard_kind * nat) nat) : Prop :=
  exists w', m w = Ok w' tt /\ account w' man.

Lemma level_set_guards gs w : level (set_guards gs w) = level w.
Proof. done. Qed.

Lemma locking_ok w man k g m : account w man -> guards w !! g = None -> keeps (construct_locking k g m) w man.
Proof.
  intros Ha Hg. unfold keeps, construct_locking.
  rewrite (bind_Ok _ _ w (set_guards (<[g := Guard k (Some m) false]> (guards w)) w) tt) by done.
  rewrite (guard_lock_ok _ g k m false) by apply lookup_insert_eq.
  eexists. split; [reflexivity|]. apply (account_insert w man g (Guard k (Some m) true)); [exact Ha|exact Hg| |by eexists|].
  - cbn. apply insert_insert_self.
  - intros k' m'. rewrite !level_set_guards, level_set, level_set_guards. count_guards.
Qed.

(** A new guard that locks nothing itself. *)
Lemma new_guard_ok w man man' k g mtx b : account w man -> guards w !! g = None ->
  (b = true -> is_Some mtx) ->
  (forall k' m', by_hand man k' m' = by_hand man' k' m' + counted (owns k' m') (g, Guard k mtx b)) ->
  keeps (write_guard g (Guard k mtx b)) w man'.
Proof.
  intros Ha Hg Hb Hm. eexists. split; [reflexivity|].
  eapply account_insert; [exact Ha|exact Hg|done|done|]. intros k' m'. rewrite level_set_guards, Hm. lia.
Qed.

Lemma moving_ok w man k g other y : account w man -> guards w !! g = None -> guards w !! other = Some y ->
  guard_type y = k -> keeps (construct_moving k g other) w man.
Proof.
  intros Ha Hg Hy Hk. assert (Hne : g <> other) by congruence. unfold keeps, construct_moving.
  destruct (new_guard_ok w man man k g None false Ha Hg) as (w1 & E1 & Ha1); [done|count_guards|].
  rewrite (bind_Ok _ _ _ _ _ E1). injection E1 as <-.
  erewrite move_construct_ok; [|exact Hne|apply lookup_insert_eq|by cbn; rewrite lookup_insert_ne].
  eexists. split; [reflexivity|]. eapply moved_account; [exact Ha1|exact Hne|apply lookup_insert_eq|done| |done].
  cbn. by rewrite lookup_insert_ne.
Qed.

Lemma assign_ok w man g other x y : account w man -> guards w !! g = Some x -> guards w !! other = Some y ->
  guard_type y = guard_type x -> keeps (assign_moving g other) w man.
Proof.
  intros Ha Hg Hy Hk. unfold keeps, assign_moving.
  destruct (reset_if_needed_ok w man g x Ha Hg) as (w1 & E1 & Ha1 & Hg1). rewrite (bind_Ok _ _ _ _ _ E1).
  assert (Hx1 : guards w1 !! g = Some (Guard (guard_type x) (m_mtx x) false))
    by (rewrite Hg1; apply lookup_insert_eq).
  destruct (decide (g = other)) as [<-|Hne].
  - rewrite (self_move_ok _ _ _ Hx1) by done. by exists w1.
  - assert (Hy1 : guards w1 !! other = Some y) by (rewrite Hg1; by rewrite lookup_insert_ne).
    rewrite (move_construct_ok _ _ _ _ _ Hne Hx1 Hy1). eexists. split; [reflexivity|]. by eapply moved_account.
Qed.

Lemma destroy_ok w man g x : account w man -> guards w !! g = Some x -> keeps (destroy_guard g) w man.
Proof.
  intros Ha Hg. unfold keeps, destroy_guard.
  destruct (reset_if_needed_ok w man g x Ha Hg) as (w1 & E1 & Ha1 & Hg1). rewrite (bind_Ok _ _ _ _ _ E1).
  eexists. split; [reflexivity|]. eapply account_delete; [exact Ha1|rewrite Hg1; apply lookup_insert_eq|done|done].
Qed.

Lemma lock_ok w man g k m : account w man -> guards w !! g = Some (Guard k (Some m) false) ->
  keeps (guard_lock g) w man.
Proof.
  intros Ha Hg. unfold keeps. rewrite (guard_lock_ok _ _ _ _ _ Hg). eexists. split; [reflexivity|].
  eapply account_replace; [exact Ha|exact Hg|done|by eexists|].
  intros k' m'. rewrite level_set_guards, level_set. count_guards.
Qed.

Lemma unlock_ok w man g k m : account w man -> guards w !! g = Some (Guard k (Some m) true) ->
  keeps (guard_unlock g) w man.
Proof.
  intros Ha Hg. assert (Hpos : 0 < matching (owns k m) (guards w)).
  { apply matching_pos. by exists g, (Guard k (Some m) true). }
  destruct (level w k m) as [|n] eqn:Hn; [rewrite (ac_level _ _ Ha) in Hn; lia|].
  unfold keeps. rewrite (guard_unlock_ok _ _ _ _ _ _ Hg Hn). eexists. split; [reflexivity|].
  eapply account_replace; [exact Ha|exact Hg|done|done|].
  intros k' m'. rewrite level_set_guards, level_set. count_guards.
Qed.

Lemma release_ok w man g k mtx b : account w man -> guards w !! g = Some (Guard k mtx b) ->
  keeps (_ ← guard_release g; mret tt) w (if b then if mtx is Some m then adjust man k m S else man else man).
Proof.
  intros Ha Hg. unfold keeps, guard_release.
  rewrite (bind_Ok _ _ _ _ _ (bind_Ok _ _ _ _ _ (read_guard_ok _ _ _ Hg))).
  eexists. split; [reflexivity|]. eapply account_replace; [exact Ha|exact Hg|done|done|].
  pose proof (ac_mutex _ _ Ha g _ Hg) as Hmu. cbn in Hmu. intros k' m'. rewrite level_set_guards.
  destruct mtx as [m|], b; try (destruct (Hmu eq_refl); done); count_guards.
Qed.

Lemma mutex_ok w man k m : account w man ->
  keeps (mutex_lock k m) w (adjust man k m S) /\
  (by_hand man k m <> 0 -> keeps (mutex_unlock k m) w (adjust man k m pred)).
Proof.
  intros [Hl Hm]. split.
  - eexists. split; [reflexivity|]. split; [|done].
    intros k' m'. cbn [guards set_levels]. rewrite level_set, by_hand_adjust, !Hl.
    case_decide; [destruct_and!; subst; lia|done].
  - intros Hb. unfold keeps, mutex_unlock, get, put, mbind, M_bind.
    destruct (level w k m) as [|n] eqn:Hn; [rewrite Hl in Hn; lia|].
    eexists. split; [reflexivity|]. split; [|done]. intros k' m'. cbn [guards set_levels].
    rewrite level_set, by_hand_adjust. rewrite Hl in Hn. case_decide; [destruct_and!; subst; lia|apply Hl].
Qed.

Lemma run_guard_op_ok op w man :
  account w man -> guard_op_ok op w man -> keeps (run_guard_op op) w (guard_op_by_hand op w man).
Proof.
  intros Ha Hok. destruct op as [k g m|k g m|k g m|k g|k g other|g other|g|g|g|g|k m|k m];
    cbn [guard_op_ok run_guard_op guard_op_by_hand] in *.
  - by apply locking_ok.
  - apply new_guard_ok with man; [done|done|done|count_guards].
  - destruct Hok. apply new_guard_ok with man; [done|done|by eexists|count_guards].
  - apply new_guard_ok with man; [done|done|done|count_guards].
  - destruct Hok as [Hg Ho]. destruct (guards w !! other) as [y|] eqn:Hy; [|done]. injection Ho as Hk.
    by eapply moving_ok.
  - destruct Hok as [[x Hg] Ho]. rewrite Hg in Ho.
    destruct (guards w !! other) as [y|] eqn:Hy; [|done]. injection Ho as Hk. by eapply assign_ok.
  - destruct Hok. by eapply destroy_ok.
  - destruct (guards w !! g) as [[[] [m|] []]|] eqn:Hg; try done. by eapply lock_ok.
  - destruct (guards w !! g) as [[[] mtx []]|] eqn:Hg; try done.
    destruct (ac_mutex _ _ Ha g _ Hg eq_refl) as [m Hm]. cbn in Hm. subst. by eapply unlock_ok.
  - destruct Hok as [[k mtx b] Hg]. rewrite Hg. pose proof (release_ok w man g k mtx b Ha Hg).
    by destruct mtx, b.
  - by apply mutex_ok.
  - by apply mutex_ok.
Qed.

(** ** Properties *)

Fixpoint run_guard_ops (ops : list guard_op) : M guard_world unit :=
  match ops with [] => mret tt | op :: ops => _ ← run_guard_op op; run_guard_ops ops end.

(** The caller keeps the preconditions along the sequence. *)
Fixpoint guard_ops_ok (ops : list guard_op) (w : guard_world) (man : gmap (guard_kind * nat) nat) : Prop :=
  match ops with
  | [] => True
  | op :: ops => guard_op_ok op w man /\
      match run_guard_op op w with
      | Ok w' _ => guard_ops_ok ops w' (guard_op_by_hand op w man)
      | _ => True
      end
  end.

#[export] Instance guard_ops_ok_dec ops w man : Decision (guard_ops_ok ops w man).
Proof.
  revert w man. induction ops as [|op ops IH]; intros w man; cbn; [apply _|].
  destruct (run_guard_op op w); apply _.
Defined.

(** The locks held by hand after a sequence. *)
Fixpoint guard_ops_by_hand (ops : list guard_op) (w : guard_world) (man : gmap (guard_kind * nat) nat)
    : gmap (guard_kind * nat) nat :=
  match ops with
  | [] => man
  | op :: ops =>
      match run_guard_op op w with
      | Ok w' _ => guard_ops_by_hand ops w' (guard_op_by_hand op w man)
      | _ => man
      end
  end.

(** C32: Guards undo what they did.  After any sequence of constructions, moves, assignments
    (also from itself), locks, unlocks, releases and destructions that keeps to the rules,
    every mutex is locked exactly as often as there are guards that own it and locks taken
    by hand; so when all guards are gone, only those locks are left. *)
Theorem guards_balance ops :
  guard_ops_ok ops (GuardWorld ∅ ∅) ∅ ->
  exists w, run_guard_ops ops (GuardWorld ∅ ∅) = Ok w tt /\
    (forall k m, level w k m = matching (owns k m) (guards w) + by_hand (guard_ops_by_hand ops (GuardWorld ∅ ∅) ∅) k m) /\
    (guards w = ∅ -> forall k m, level w k m = by_hand (guard_ops_by_hand ops (GuardWorld ∅ ∅) ∅) k m).
Proof.
  intros Hok. enough (Hgen : forall w man, account w man -> guard_ops_ok ops w man ->
    exists w', run_guard_ops ops w = Ok w' tt /\ account w' (guard_ops_by_hand ops w man)).
  { destruct (Hgen (GuardWorld ∅ ∅) ∅) as (w & E & Ha); [|done|].
    - split; [intros k m; cbn [guards]; by rewrite (matching_empty (owns k m))|done].
    - exists w. split; [done|]. split; [apply Ha|]. intros He k m.
      by rewrite (ac_level _ _ Ha), He, (matching_empty (owns k m)). }
  clear Hok. induction ops as [|op ops IH]; intros w man Ha Hok; [by exists w|].
  destruct Hok as [Hop Hops]. destruct (run_guard_op_ok op w man Ha Hop) as (w1 & E1 & Ha1).
  cbn [run_guard_ops guard_ops_by_hand]. rewrite (bind_Ok _ _ _ _ _ E1), E1. rewrite E1 in Hops. by apply IH.
Qed.

Definition guard_demo : list guard_op :=
  [GLocking UniqueLock 0 7; GDefault UniqueLock 1; GAssign 1 0; GMoving UniqueLock 2 1; GUnlock 2; GLock 2;
   GAssign 2 2; GLock 2; MLock SharedLock 7; GAdopting SharedLock 3 7; GRelease 2; GDestroy 0; GDestroy 1;
   GDestroy 2; GDestroy 3].

Lemma guards_balance_witness :
  exists w, run_guard_ops guard_demo (GuardWorld ∅ ∅) = Ok w tt /\
    (forall k m, level w k m = matching (owns k m) (guards w) +
       by_hand (guard_ops_by_hand guard_demo (GuardWorld ∅ ∅) ∅) k m) /\
    (guards w = ∅ -> forall k m, level w k m = by_hand (guard_ops_by_hand guard_demo (GuardWorld ∅ ∅) ∅) k m).
Proof.
  apply (guards_balance guard_demo). apply (bool_decide_unpack _). vm_compute. exact I.
Defined.

(** The guards do not check the rules.  Locking through a guard that already owns its
    mutex leaves the mutex locked once the guard is gone; unlocking twice and locking
    through an empty guard are undefined. *)
Theorem guards_unchecked :
  match run_guard_ops [GLocking UniqueLock 0 7; GLock 0; GDestroy 0] (GuardWorld ∅ ∅) with
  | Ok w _ => guards w = ∅ /\ level w UniqueLock 7 = 1 | _ => False end /\
  run_guard_ops [GLocking UniqueLock 0 7; GUnlock 0; GUnlock 0] (GuardWorld ∅ ∅) = Fault /\
  run_guard_ops [GDefault UniqueLock 0; GLock 0] (GuardWorld ∅ ∅) = Fault.
Proof. vm_compute. repeat split; reflexivity. Qed.
