(* ===== verification/CondVar.v ===== *)
(** * Condition variables (include/condition_variable.hpp, src/condition_variable.cpp)

    A condition variable is an event of the kernel that wakes one thread, and a counter of
    the threads that wait.  [cv_step] performs one access of one thread, so that threads
    interleave.

    The event is described as the kernel documents a synchronisation event: setting it
    wakes one of the waiting threads, or leaves it signalled when nobody waits; waiting
    for a signalled event clears it and returns. *)
From Stdlib Require Import ZArith Lia.
From stdpp Require Import base list gmap numbers.
From S2P Require Import Prelude.
#[local] Open Scope Z_scope.

(** Where a thread is in [wait], [notify_one] or [notify_all]; a thread that waits locks
    the mutex before and unlocks it afterwards. *)
Inductive cv_pc :=
  | WEnter | WUnlock | WCount | WWait | WBlocked | WLock | WDone | WLeft
  | OLoad | OCas (current_wait_count : Z) | OSet
  | AExchange | ASet (old_wait_count : nat)
  | NDone.

#[export] Instance cv_pc_eq_dec : EqDecision cv_pc.
Proof. solve_decision. Defined.

Record cv_system := CvSystem {
  m_wait_count : Z;
  m_event : bool;
  cv_mutex : option nat;
  cv_threads : list cv_pc }.

Definition goto (t : nat) (pc : cv_pc) (s : cv_system) : cv_system :=
  CvSystem (m_wait_count s) (m_event s) (cv_mutex s) (<[t := pc]> (cv_threads s)).
Definition set_wait_count (n : Z) (s : cv_system) : cv_system :=
  CvSystem n (m_event s) (cv_mutex s) (cv_threads s).
Definition set_m_event (b : bool) (s : cv_system) : cv_system :=
  CvSystem (m_wait_count s) b (cv_mutex s) (cv_threads s).
Definition set_cv_mutex (o : option nat) (s : cv_system) : cv_system :=
  CvSystem (m_wait_count s) (m_event s) o (cv_threads s).

(** [m_event.set()]: [choice] is the thread that the kernel wakes, if one is waiting. *)
Definition set_event (choice : nat) (s : cv_system) : option cv_system :=
  if decide (WBlocked ∈ cv_threads s) then
    if decide (cv_threads s !! choice = Some WBlocked) then Some (goto choice WLock s) else None
  else Some (set_m_event true s).

(** One access of thread [t]; nothing when the thread cannot go on. *)
Definition cv_step (t choice : nat) (s : cv_system) : option cv_system :=
  pc ← cv_threads s !! t;
  match pc with
  | WEnter =>
      if decide (cv_mutex s = None) then Some (goto t WUnlock (set_cv_mutex (Some t) s)) else None
  | WUnlock =>
      if decide (cv_mutex s = Some t) then Some (goto t WCount (set_cv_mutex None s)) else None
  | WCount => Some (goto t WWait (set_wait_count (u64 (m_wait_count s + 1)) s))
  | WWait => Some (if m_event s then goto t WLock (set_m_event false s) else goto t WBlocked s)
  | WBlocked => None
  | WLock =>
      if decide (cv_mutex s = None) then Some (goto t WDone (set_cv_mutex (Some t) s)) else None
  | WDone =>
      if decide (cv_mutex s = Some t) then Some (goto t WLeft (set_cv_mutex None s)) else None
  | WLeft => None
  | OLoad => Some (goto t (if m_wait_count s =? 0 then NDone else OCas (m_wait_count s)) s)
  | OCas c =>
      Some (if m_wait_count s =? c then goto t OSet (set_wait_count (c - 1) s) else goto t OLoad s)
  | OSet => s' ← set_event choice s; Some (goto t NDone s')
  | AExchange => Some (goto t (ASet (Z.to_nat (m_wait_count s))) (set_wait_count 0 s))
  | ASet 0 => Some (goto t NDone s)
  | ASet (S n) => s' ← set_event choice s; Some (goto t (ASet n) s')
  | NDone => None
  end.

Fixpoint cv_run (xs : list (nat * nat)) (s : cv_system) : option cv_system :=
  match xs with [] => Some s | x :: xs => s' ← cv_step x.1 x.2 s; cv_run xs s' end.

Inductive cv_reachable (s0 : cv_system) : cv_system -> Prop :=
  | cv_start : cv_reachable s0 s0
  | cv_next s t choice s' : cv_reachable s0 s -> cv_step t choice s = Some s' -> cv_reachable s0 s'.

(** Threads at the start of an operation. *)
Definition cv_initial (s : cv_system) : Prop :=
  m_wait_count s = 0 /\ m_event s = false /\ cv_mutex s = None /\
  Forall (fun pc => pc = WEnter \/ pc = OLoad \/ pc = AExchange \/ pc = NDone) (cv_threads s) /\
  Z.of_nat (length (cv_threads s)) < 2 ^ 64.

#[export] Instance cv_initial_dec s : Decision (cv_initial s).
Proof. unfold cv_initial. apply _. Defined.

(** * Properties of condition variables

    The counter never exceeds the number of threads that wait.  Threads that wait inside
    the event are woken; threads on the way there can miss a notification for good. *)

(** ** The account *)

(** A thread that has counted itself and was not woken counts one, a notification that was
    taken from the counter and not sent yet counts minus one. *)
Definition credit (pc : cv_pc) : Z :=
  match pc with
  | WWait | WBlocked => 1
  | OSet => -1
  | ASet n => - Z.of_nat n
  | _ => 0
  end.

Fixpoint credits (l : list cv_pc) : Z :=
  match l with [] => 0 | pc :: l => credit pc + credits l end.

Lemma credits_insert l t pc pc' : l !! t = Some pc ->
  credits (<[t := pc']> l) = credits l - credit pc + credit pc'.
Proof.
  revert t. induction l as [|x l IH]; intros t Ht; [by rewrite lookup_nil in Ht|].
  destruct t as [|t]; [injection Ht as ->; cbn; lia|].
  change (<[S t := pc']> (x :: l)) with (x :: <[t := pc']> l). cbn [credits]. rewrite (IH _ Ht). lia.
Qed.

Lemma credits_le l : credits l <= Z.of_nat (length l).
Proof. induction l as [|pc l IH]; cbn; [lia|]. destruct pc; cbn; lia. Qed.

Record cv_account (s : cv_system) : Prop := {
  cv_nonneg : 0 <= m_wait_count s;
  cv_credit : m_wait_count s + Z.b2z (m_event s) <= credits (cv_threads s);
  cv_cas t c : cv_threads s !! t = Some (OCas c) -> 0 < c;
  cv_size : Z.of_nat (length (cv_threads s)) < 2 ^ 64 }.

Lemma account_goto s t pc pc' n b o :
  cv_account s -> cv_threads s !! t = Some pc -> 0 <= n ->
  n + Z.b2z b - m_wait_count s - Z.b2z (m_event s) <= credit pc' - credit pc ->
  (forall c, pc' = OCas c -> 0 < c) ->
  cv_account (CvSystem n b o (<[t := pc']> (cv_threads s))).
Proof.
  intros [Hn Hc Hcas Hsz] Ht Hn' Hle Hpc. split; cbn.
  - done.
  - rewrite (credits_insert _ _ _ _ Ht). lia.
  - intros u c. rewrite list_lookup_insert_Some. intros [(_ & -> & _)|[_ Hu]]; [by apply Hpc|by eapply Hcas].
  - by rewrite length_insert.
Qed.

(** Setting the event uses one notification of thread [t]. *)
Lemma account_set s t choice s' pc pc' :
  cv_account s -> cv_threads s !! t = Some pc -> credit pc' = credit pc + 1 ->
  pc <> WBlocked -> (forall c, pc' <> OCas c) ->
  set_event choice s = Some s' -> cv_account (goto t pc' s').
Proof.
  intros Ha Ht Hcr Hb Hpc. unfold set_event. destruct (decide (WBlocked ∈ cv_threads s)) as [_|_].
  - case_decide as Hch; [|done]. intros [= <-]. assert (Hne : choice <> t) by congruence.
    unfold goto; cbn. rewrite list_insert_insert_ne by done.
    assert (Hch' : <[t := pc']> (cv_threads s) !! choice = Some WBlocked) by (by rewrite list_lookup_insert_ne).
    destruct Ha as [Hn Hc Hcas Hsz]. split; cbn.
    + done.
    + rewrite (credits_insert _ _ _ _ Hch'), (credits_insert _ _ _ _ Ht). cbn. lia.
    + intros u c. rewrite !list_lookup_insert_Some.
      intros [(_ & ? & _)|[_ [(_ & -> & _)|[_ Hu]]]]; [done|by destruct (Hpc c)|by eapply Hcas].
    + by rewrite !length_insert.
  - intros [= <-]. apply (account_goto s t pc pc' (m_wait_count s) true (cv_mutex s)); [exact Ha|exact Ht|apply Ha| |].
    + destruct (m_event s); cbn; lia.
    + intros c ->. by destruct (Hpc c).
Qed.

Lemma step_account s t choice s' : cv_account s -> cv_step t choice s = Some s' -> cv_account s'.
Proof.
  intros Ha. unfold cv_step. destruct (cv_threads s !! t) as [pc|] eqn:Ht; [|done]. cbn.
  pose proof (cv_nonneg _ Ha) as Hn. pose proof (cv_credit _ Ha) as Hc. pose proof (cv_size _ Ha) as Hsz.
  assert (Hgo : forall n b o pc', 0 <= n ->
    n + Z.b2z b - m_wait_count s - Z.b2z (m_event s) <= credit pc' - credit pc ->
    (forall c, pc' = OCas c -> 0 < c) -> cv_account (CvSystem n b o (<[t := pc']> (cv_threads s)))).
  { intros n b o pc'. by apply account_goto. }
  destruct pc as [| | | | | | | | |c| | |[|n]|]; try done.
  - case_decide; [|done]. intros [= <-]. apply Hgo; cbn; [done|lia|done].
  - case_decide; [|done]. intros [= <-]. apply Hgo; cbn; [done|lia|done].
  - intros [= <-]. assert (m_wait_count s + 1 < 2 ^ 64).
    { pose proof (credits_insert _ _ _ WWait Ht) as E. pose proof (credits_le (<[t := WWait]> (cv_threads s))) as Hl.
      rewrite length_insert in Hl. cbn in E. destruct (m_event s); cbn in Hc; lia. }
    rewrite wrap_small by lia. apply Hgo; cbn; [lia|lia|done].
  - destruct (m_event s) eqn:He; intros [= <-]; apply Hgo; cbn; rewrite ?He; cbn; done || lia.
  - case_decide; [|done]. intros [= <-]. apply Hgo; cbn; [done|lia|done].
  - case_decide; [|done]. intros [= <-]. apply Hgo; cbn; [done|lia|done].
  - intros [= <-]. destruct (Z.eqb_spec (m_wait_count s) 0); apply Hgo; cbn; try done; try lia.
    intros c [= <-]. lia.
  - pose proof (cv_cas _ Ha t c Ht). intros [= <-].
    destruct (Z.eqb_spec (m_wait_count s) c); apply Hgo; cbn; try done; lia.
  - destruct (set_event choice s) as [s1|] eqn:E; [|done]. intros [= <-]. by eapply (account_set s t choice s1 OSet NDone).
  - intros [= <-]. apply Hgo; cbn; [done| |done]. rewrite Z2Nat.id by lia. lia.
  - intros [= <-]. apply Hgo; cbn; [done|lia|done].
  - destruct (set_event choice s) as [s1|] eqn:E; [|done]. intros [= <-].
    eapply (account_set s t choice s1 (ASet (S n)) (ASet n)); [done|done|cbn; lia|done|done|done].
Qed.

Lemma reachable_account s0 s : cv_initial s0 -> cv_reachable s0 s -> cv_account s.
Proof.
  intros (Hn & He & _ & Hpc & Hsz). induction 1 as [|s t choice s' _ IH Hs]; [|by eapply step_account].
  split.
  - lia.
  - rewrite Hn, He. cbn. clear -Hpc. induction Hpc as [|pc l Hpc _ IH]; [done|]. cbn. naive_solver lia.
  - intros t c Ht. rewrite Forall_lookup in Hpc. specialize (Hpc _ _ Ht). naive_solver.
  - done.
Qed.

(** The threads that have counted themselves and were not woken, and the notifications
    that were taken from the counter and not sent yet. *)
Definition waiting_threads (l : list cv_pc) : Z :=
  Z.of_nat (length (filter (fun pc => pc = WWait \/ pc = WBlocked) l)).
Definition unsent (pc : cv_pc) : Z := match pc with OSet => 1 | ASet n => Z.of_nat n | _ => 0 end.
Fixpoint unsent_sum (l : list cv_pc) : Z := match l with [] => 0 | pc :: l => unsent pc + unsent_sum l end.

Lemma credits_split l : credits l = waiting_threads l - unsent_sum l.
Proof.
  unfold waiting_threads. induction l as [|pc l IH]; [done|]. rewrite filter_cons. cbn [credits unsent_sum].
  rewrite IH. case_decide as Hpc; [destruct Hpc as [->| ->]; cbn; lia|].
  destruct pc; cbn; try lia; naive_solver.
Qed.

(** Nobody is woken without a notification, and the counter does not wrap around.  In
    every reachable state the counter, the signal and the notifications under way together
    are at most the threads that have counted themselves and still wait. *)
Theorem cv_counter_bounded s0 s :
  cv_initial s0 -> cv_reachable s0 s ->
  0 <= m_wait_count s /\
  m_wait_count s + Z.b2z (m_event s) + unsent_sum (cv_threads s) <= waiting_threads (cv_threads s).
Proof.
  intros H0 Hs. pose proof (reachable_account _ _ H0 Hs) as [Hn Hc _ _].
  rewrite credits_split in Hc. split; [done|lia].
Qed.

Lemma cv_run_reachable s0 xs s s' : cv_reachable s0 s -> cv_run xs s = Some s' -> cv_reachable s0 s'.
Proof.
  revert s. induction xs as [|[t c] xs IH]; intros s Hs; cbn; [by intros [= <-]|].
  destruct (cv_step t c s) as [s1|] eqn:E; cbn; [|done]. apply IH. by eapply cv_next.
Qed.

(** Two waiters, a [notify_one] and a [notify_all]. *)
Definition cv_demo : cv_system := CvSystem 0 false None [WEnter; WEnter; OLoad; AExchange].
Definition cv_demo_schedule : list (nat * nat) :=
  [(0, 0); (0, 0); (0, 0); (1, 0); (1, 0); (1, 0); (0, 0); (2, 0); (2, 0)]%nat.
Definition cv_demo_state : cv_system := default cv_demo (cv_run cv_demo_schedule cv_demo).

Lemma cv_demo_reachable : cv_reachable cv_demo cv_demo_state.
Proof. apply (cv_run_reachable cv_demo cv_demo_schedule cv_demo); [constructor|]. vm_compute. reflexivity. Qed.

Lemma cv_counter_bounded_witness :
  0 <= m_wait_count cv_demo_state /\
  m_wait_count cv_demo_state + Z.b2z (m_event cv_demo_state) + unsent_sum (cv_threads cv_demo_state)
    <= waiting_threads (cv_threads cv_demo_state).
Proof.
  apply (cv_counter_bounded cv_demo cv_demo_state).
  - apply (bool_decide_unpack _). vm_compute. exact I.
  - exact cv_demo_reachable.
Defined.

(** ** Waking threads that wait in the event *)

Definition blocked (l : list cv_pc) : nat := length (filter (fun pc => pc = WBlocked) l).

Lemma blocked_insert l t pc pc' : l !! t = Some pc ->
  (blocked (<[t := pc']> l) + (if decide (pc = WBlocked) then 1 else 0) =
   blocked l + (if decide (pc' = WBlocked) then 1 else 0))%nat.
Proof.
  unfold blocked. revert t. induction l as [|x l IH]; intros t Ht; [by rewrite lookup_nil in Ht|].
  destruct t as [|t].
  - injection Ht as ->. change (<[0%nat := pc']> (pc :: l)) with (pc' :: l).
    rewrite !filter_cons. repeat case_decide; cbn; lia.
  - change (<[S t := pc']> (x :: l)) with (x :: <[t := pc']> l). rewrite !filter_cons.
    specialize (IH t Ht). repeat case_decide; cbn; lia.
Qed.

Lemma blocked_wake l t : l !! t = Some WBlocked -> (blocked (<[t := WLock]> l) + 1 = blocked l)%nat.
Proof. intros Ht. pose proof (blocked_insert l t _ WLock Ht). repeat case_decide; try done; lia. Qed.

Lemma blocked_pos l n : blocked l = S n -> exists t, l !! t = Some WBlocked.
Proof.
  unfold blocked. intros Hb. assert (Hin : WBlocked ∈ l).
  { destruct (filter (fun pc => pc = WBlocked) l) as [|pc l'] eqn:E; [done|].
    assert (Hpc : pc ∈ filter (fun pc => pc = WBlocked) l) by (rewrite E; by left).
    apply list_elem_of_filter in Hpc as [-> Hpc]. done. }
  by apply list_elem_of_lookup in Hin.
Qed.

(** Blocked threads are on their way to the mutex, the others are where they were. *)
Definition woken (t : nat) (l l' : list cv_pc) : Prop :=
  forall u, u <> t -> l' !! u = (fun pc => if decide (pc = WBlocked) then WLock else pc) <$> l !! u.

Lemma wake_all n t s : cv_threads s !! t = Some (ASet n) -> blocked (cv_threads s) = n ->
  exists xs s', Forall (fun x => x.1 = t) xs /\ cv_run xs s = Some s' /\
    cv_threads s' !! t = Some NDone /\ woken t (cv_threads s) (cv_threads s') /\
    m_wait_count s' = m_wait_count s /\ m_event s' = m_event s.
Proof.
  revert s. induction n as [|n IH]; intros s Ht Hb.
  - pose proof (lookup_lt_Some _ _ _ Ht) as Hlt. exists [(t, 0%nat)], (goto t NDone s). split_and!; try done.
    + by repeat constructor.
    + cbn. unfold cv_step. by rewrite Ht.
    + cbn. by apply list_lookup_insert_eq.
    + intros u Hu. cbn. rewrite list_lookup_insert_ne by congruence.
      destruct (cv_threads s !! u) as [pc|] eqn:Epc; [|done]. cbn. rewrite decide_False; [done|]. intros ->.
      pose proof (blocked_wake _ _ Epc). lia.
  - destruct (blocked_pos _ _ Hb) as [c Hc]. assert (Hne : c <> t) by congruence.
    set (s1 := goto t (ASet n) (goto c WLock s)).
    assert (Ht1 : cv_threads s1 !! t = Some (ASet n)).
    { cbn. apply list_lookup_insert_eq. rewrite length_insert. by eapply lookup_lt_Some. }
    assert (Hb1 : blocked (cv_threads s1) = n).
    { change (cv_threads s1) with (<[t := ASet n]> (<[c := WLock]> (cv_threads s))).
      assert (Ht' : <[c := WLock]> (cv_threads s) !! t = Some (ASet (S n))) by (by rewrite list_lookup_insert_ne).
      pose proof (blocked_insert _ _ _ (ASet n) Ht') as B1. pose proof (blocked_wake _ _ Hc) as B2.
      repeat case_decide; try done; lia. }
    destruct (IH s1 Ht1 Hb1) as (xs & s' & Hxs & Hrun & Hd & Hw & Hn & He).
    exists ((t, c) :: xs), s'. split_and!; try done; [by constructor| |].
    + cbn. unfold cv_step. rewrite Ht. cbn. unfold set_event.
      rewrite decide_True by (apply list_elem_of_lookup; eauto). by rewrite decide_True.
    + intros u Hu. rewrite Hw by done. cbn. rewrite list_lookup_insert_ne by congruence.
      destruct (decide (u = c)) as [->|Huc].
      * rewrite list_lookup_insert_eq by (by eapply lookup_lt_Some). by rewrite Hc.
      * by rewrite list_lookup_insert_ne by congruence.
Qed.

(** Threads that wait in the event are woken.  When every thread that counted itself
    is blocked in the event, [notify_one] wakes any one of them that the kernel picks and
    [notify_all] wakes all of them, and nobody else is affected. *)
Theorem notify_wakes_blocked s t :
  m_event s = false -> m_wait_count s = Z.of_nat (blocked (cv_threads s)) ->
  (cv_threads s !! t = Some OLoad -> forall u, cv_threads s !! u = Some WBlocked ->
     exists s', cv_run [(t, 0%nat); (t, 0%nat); (t, u)] s = Some s' /\
       cv_threads s' = <[t := NDone]> (<[u := WLock]> (cv_threads s)) /\
       m_wait_count s' = m_wait_count s - 1) /\
  (cv_threads s !! t = Some AExchange ->
     exists xs s', Forall (fun x => x.1 = t) xs /\ cv_run xs s = Some s' /\
       cv_threads s' !! t = Some NDone /\ woken t (cv_threads s) (cv_threads s') /\
       m_wait_count s' = 0 /\ m_event s' = false).
Proof.
  intros He Hn. split.
  - intros Ht u Hu. pose proof (lookup_lt_Some _ _ _ Ht) as Hlt. assert (Hne : u <> t) by congruence.
    assert (Hpos : (0 < blocked (cv_threads s))%nat).
    { pose proof (blocked_wake _ _ Hu). lia. }
    exists (goto t NDone (goto u WLock (set_wait_count (m_wait_count s - 1) s))). split_and!; [|done|done].
    assert (E1 : cv_step t 0 s = Some (goto t (OCas (m_wait_count s)) s)).
    { unfold cv_step. rewrite Ht. cbn. by rewrite (proj2 (Z.eqb_neq _ _)) by lia. }
    set (s2 := goto t OSet (set_wait_count (m_wait_count s - 1) s)).
    assert (E2 : cv_step t 0 (goto t (OCas (m_wait_count s)) s) = Some s2).
    { unfold cv_step. cbn. rewrite list_lookup_insert_eq by done. cbn. rewrite Z.eqb_refl.
      unfold s2, goto; cbn. by rewrite list_insert_insert_eq. }
    assert (Hu2 : cv_threads s2 !! u = Some WBlocked) by (cbn; by rewrite list_lookup_insert_ne).
    assert (E3 : cv_step t u s2 = Some (goto t NDone (goto u WLock s2))).
    { unfold cv_step. unfold s2 at 1; cbn. rewrite list_lookup_insert_eq by done. cbn. unfold set_event.
      rewrite decide_True by (apply list_elem_of_lookup; eauto). by rewrite decide_True. }
    cbn [cv_run fst snd mbind option_bind]. rewrite E1. cbn [mbind option_bind]. rewrite E2. cbn [mbind option_bind].
    rewrite E3. cbn. unfold goto; cbn. do 2 f_equal.
    rewrite (list_insert_insert_ne _ u t) by done. by rewrite list_insert_insert_eq.
  - intros Ht. pose proof (lookup_lt_Some _ _ _ Ht) as Hlt.
    set (s1 := goto t (ASet (Z.to_nat (m_wait_count s))) (set_wait_count 0 s)).
    destruct (wake_all (Z.to_nat (m_wait_count s)) t s1) as (xs & s' & Hxs & Hrun & Hd & Hw & Hn' & He').
    { cbn. by apply list_lookup_insert_eq. }
    { change (cv_threads s1) with (<[t := ASet (Z.to_nat (m_wait_count s))]> (cv_threads s)).
      pose proof (blocked_insert _ _ _ (ASet (Z.to_nat (m_wait_count s))) Ht) as Hb. repeat case_decide; try done. lia. }
    exists ((t, 0%nat) :: xs), s'. split_and!; try done; [by constructor| | |].
    + cbn. unfold cv_step. by rewrite Ht.
    + intros u Hu. rewrite Hw by done. cbn. by rewrite list_lookup_insert_ne by congruence.
    + rewrite He'. done.
Qed.

Definition cv_blocked : cv_system := CvSystem 2 false None [WBlocked; WEnter; WBlocked; AExchange].

Lemma notify_wakes_blocked_witness :
  exists xs s', Forall (fun x => x.1 = 3%nat) xs /\ cv_run xs cv_blocked = Some s' /\
    cv_threads s' !! 3%nat = Some NDone /\ woken 3 (cv_threads cv_blocked) (cv_threads s') /\
    m_wait_count s' = 0 /\ m_event s' = false.
Proof.
  apply (notify_wakes_blocked cv_blocked 3).
  - reflexivity.
  - reflexivity.
  - reflexivity.
Defined.

(** ** Lost notifications *)

(** No thread can make a step. *)
Definition cv_stuck (s : cv_system) : Prop :=
  Forall (fun t => cv_step t 0 s = None) (seq 0 (length (cv_threads s))).

(** Notifications get lost.  A [notify_one] between the unlock and the increment of a
    waiting thread finds the counter at zero; two signals of a [notify_all] before its two
    threads reach the event are one, and a later [notify_one] finds the counter at zero.
    In both cases a thread stays blocked although it was notified after it had released
    the mutex, and nobody can wake it. *)
Theorem notification_lost :
  match cv_run [(0, 0); (0, 0); (1, 0); (0, 0); (0, 0)]%nat (CvSystem 0 false None [WEnter; OLoad]) with
  | Some s => cv_threads s = [WBlocked; NDone] /\ cv_stuck s | None => False end /\
  match cv_run [(0, 0); (0, 0); (0, 0); (1, 0); (1, 0); (1, 0); (2, 0); (2, 0); (2, 0); (2, 0);
                (0, 0); (1, 0); (3, 0); (0, 0); (0, 0)]%nat
          (CvSystem 0 false None [WEnter; WEnter; AExchange; OLoad]) with
  | Some s => cv_threads s = [WLeft; WBlocked; NDone; NDone] /\ m_wait_count s = 0 /\ cv_stuck s
  | None => False end.
Proof. vm_compute. repeat (split || constructor). Qed.
