(* ===== verification/Startup.v ===== *)
(** * Starting and stopping a driver (runtime/src/basic_runtime.cpp, object_management.cpp,
    preload_initializer.cpp, minifilter.cpp)

    [KtlDriverEntry] runs the constructors of the global objects, the registered
    initialisers and the driver's own [DriverEntry]; [KtlDriverUnload] runs the driver's
    own routine and the destructors that the constructors have registered with [atexit].

    The driver is a parameter: its table of constructors, what they call of the runtime,
    its initialisers and its [DriverEntry].  What was called is kept in a trace. *)
From Stdlib Require Import ZArith Lia.
From stdpp Require Import base list gmap numbers.
From S2P Require Import Prelude.
#[local] Open Scope Z_scope.

Definition MAX_DESTRUCTOR_COUNT : Z := 128.
Definition MAX_INITIALIZER_COUNT : Z := 32.

Inductive event :=
  | Constructed (fn : nat) | Initialised (obj : nat) | Entered | Unloaded (fn : nat) | Destroyed (fn : nat).

(** A function in [DRIVER_OBJECT::DriverUnload]: the one of the runtime or the driver's. *)
Inductive unload_fn := RuntimeUnload | OwnUnload (fn : nat).

Record rt_world := RtWorld {
  destructor_stack : list (option nat);
  destructor_count : Z;
  m_initializers : list (option nat);
  m_size : Z;
  m_fired : bool;
  custom_unload : option unload_fn;
  DriverUnload : option unload_fn;
  trace : list event }.

Definition set_destructors (l : list (option nat)) (n : Z) (w : rt_world) : rt_world :=
  RtWorld l n (m_initializers w) (m_size w) (m_fired w) (custom_unload w) (DriverUnload w) (trace w).
Definition set_registry (l : list (option nat)) (n : Z) (b : bool) (w : rt_world) : rt_world :=
  RtWorld (destructor_stack w) (destructor_count w) l n b (custom_unload w) (DriverUnload w) (trace w).
Definition set_unload (c d : option unload_fn) (w : rt_world) : rt_world :=
  RtWorld (destructor_stack w) (destructor_count w) (m_initializers w) (m_size w) (m_fired w) c d (trace w).
Definition log (e : event) : M rt_world unit := modify (fun w =>
  RtWorld (destructor_stack w) (destructor_count w) (m_initializers w) (m_size w) (m_fired w)
    (custom_unload w) (DriverUnload w) (trace w ++ [e])).

(** ** object_management.cpp *)

(** 0: registered. The assertion is compiled out in a release build. *)
Definition atexit (destructor : option nat) : M rt_world Z :=
  match destructor with
  | Some _ =>
      w ← get;
      let count := u32 (destructor_count w + 1) in
      let idx := u32 (count - 1) in
      if idx <? MAX_DESTRUCTOR_COUNT then
        _ ← put (set_destructors (<[Z.to_nat idx := destructor]> (destructor_stack w)) count w); mret 0
      else
        _ ← put (set_destructors (destructor_stack w) count w); mret 1
  | None => mret 1
  end.

(** Calls [destructor_stack[idx - 1]] for [idx] from the argument down to 1; a null
    function and an index outside the array are undefined. *)
Fixpoint destructor_loop (idx : nat) : M rt_world unit :=
  match idx with
  | O => mret tt
  | S i =>
      w ← get;
      slot ← access (destructor_stack w !! i);
      fn ← access slot;
      _ ← log (Destroyed fn);
      destructor_loop i
  end.

Definition invoke_global_destructors : M rt_world unit :=
  w ← get;
  _ ← destructor_loop (Z.to_nat (destructor_count w));
  modify (fun w => set_destructors (destructor_stack w) 0 w).

(** ** preload_initializer.cpp *)

Definition add (obj : nat) : M rt_world bool :=
  w ← get;
  if m_fired w || (MAX_INITIALIZER_COUNT <=? m_size w) then mret false
  else
    _ ← put (set_registry (<[Z.to_nat (m_size w) := Some obj]> (m_initializers w)) (m_size w + 1) (m_fired w) w);
    mret true.

Definition NT_SUCCESS (status : Z) : bool := 0 <=? signed 32 status.
Definition STATUS_SUCCESS : Z := 0.

(** ** The driver *)

(** What the constructor of a global object calls of the runtime. *)
Inductive rt_call := CallAtexit (destructor : nat) | CallAdd (obj : nat).

Class driver := {
  cxx_ctors : list (option nat);
  ctor_calls : nat -> list rt_call;
  run_status : nat -> Z;
  (** [DriverEntry]: the unload routine it sets, whether it registers a filter, and its status. *)
  entry_unload : option nat;
  entry_filter : bool;
  entry_status : Z }.

Section driver.
Context `{D : driver}.

Definition run_call (c : rt_call) : M rt_world unit :=
  match c with
  | CallAtexit d => _ ← atexit (Some d); mret tt
  | CallAdd obj => _ ← add obj; mret tt
  end.

Fixpoint run_calls (cs : list rt_call) : M rt_world unit :=
  match cs with [] => mret tt | c :: cs => _ ← run_call c; run_calls cs end.

Fixpoint constructor_loop (ctors : list (option nat)) : M rt_world unit :=
  match ctors with
  | [] => mret tt
  | ctor :: ctors =>
      _ ← match ctor with Some fn => _ ← log (Constructed fn); run_calls (ctor_calls fn) | None => mret tt end;
      constructor_loop ctors
  end.

Definition invoke_global_constructors : M rt_world unit := constructor_loop cxx_ctors.

(** The initialisers from index [idx] on. *)
Fixpoint run_loop (idx todo : nat) : M rt_world Z :=
  match todo with
  | O => mret STATUS_SUCCESS
  | S todo =>
      w ← get;
      slot ← access (m_initializers w !! idx);
      entry ← access slot;
      _ ← log (Initialised entry);
      if negb (NT_SUCCESS (run_status entry)) then mret (run_status entry) else run_loop (S idx) todo
  end.

Definition run_all : M rt_world Z :=
  _ ← modify (fun w => set_registry (m_initializers w) (m_size w) true w);
  w ← get;
  run_loop 0 (Z.to_nat (m_size w)).

(** The registration itself is a kernel call. *)
Definition KtlRegisterFilter : M rt_world unit :=
  modify (fun w => set_unload (DriverUnload w) (Some RuntimeUnload) w).

Definition DriverEntry : M rt_world Z :=
  _ ← log Entered;
  _ ← modify (fun w => set_unload (custom_unload w) (OwnUnload <$> entry_unload) w);
  _ ← (if entry_filter then KtlRegisterFilter else mret tt);
  mret entry_status.

(** [calls] bounds the calls of the routine by itself. *)
Fixpoint KtlDriverUnload (calls : nat) : M rt_world unit :=
  match calls with
  | O => diverge
  | S calls =>
      w ← get;
      _ ← match custom_unload w with
          | None => mret tt
          | Some (OwnUnload fn) => log (Unloaded fn)
          | Some RuntimeUnload => KtlDriverUnload calls
          end;
      invoke_global_destructors
  end.

Definition KtlDriverEntry (calls : nat) : M rt_world Z :=
  _ ← invoke_global_constructors;
  init_status ← run_all;
  if negb (NT_SUCCESS init_status) then _ ← KtlDriverUnload calls; mret init_status
  else
    init_status ← DriverEntry;
    if negb (NT_SUCCESS init_status) then _ ← KtlDriverUnload calls; mret init_status
    else
      w ← get;
      _ ← (match custom_unload w with
           | None => put (set_unload (DriverUnload w) (Some RuntimeUnload) w)
           | Some _ => mret tt
           end);
      mret STATUS_SUCCESS
.

(** The system calls the routine in [DriverUnload]. *)
Definition unload_driver (calls : nat) : M rt_world unit :=
  w ← get;
  match DriverUnload w with
  | Some RuntimeUnload => KtlDriverUnload calls
  | Some (OwnUnload fn) => log (Unloaded fn)
  | None => mret tt
  end.
End driver.

(** The state of a loaded image. *)
Definition image : rt_world :=
  RtWorld (replicate (Z.to_nat MAX_DESTRUCTOR_COUNT) None) 0 (replicate (Z.to_nat MAX_INITIALIZER_COUNT) None) 0
    false None None [].

(** ** Arrays of objects

    The objects that are alive, by address; which constructor calls throw is a
    parameter.  Constructing an object that lives and destroying one that does not are
    undefined. *)
Section arrays.
Context (throws : Z -> bool).

Definition call_constructor (obj : Z) : M (gset Z) unit :=
  live ← get;
  if decide (obj ∈ live) then fault
  else if throws obj then throw runtime_error else put ({[obj]} ∪ live).

Definition call_destructor (obj : Z) : M (gset Z) unit :=
  live ← get; if decide (obj ∈ live) then put (live ∖ {[obj]}) else fault.

(** [current_obj] is the end of the objects that are left. *)
Fixpoint destroy_array_loop (current_obj element_size : Z) (count : nat) : M (gset Z) unit :=
  match count with
  | O => mret tt
  | S count =>
      let current_obj := current_obj - element_size in
      _ ← call_destructor current_obj; destroy_array_loop current_obj element_size count
  end.

Definition destroy_array_in_reversed_order (arr_begin element_size : Z) (count : nat) : M (gset Z) unit :=
  destroy_array_loop (arr_begin + element_size * Z.of_nat count) element_size count.

(** The objects from [idx] on; the handler destroys the ones in front. *)
Fixpoint construct_loop (arr_begin element_size current_obj : Z) (idx todo : nat) : M (gset Z) unit :=
  match todo with
  | O => mret tt
  | S todo => fun live =>
      match call_constructor current_obj live with
      | Ok live _ => construct_loop arr_begin element_size (current_obj + element_size) (S idx) todo live
      | Throw live e => (_ ← destroy_array_in_reversed_order arr_begin element_size idx; throw e) live
      | Fault => Fault
      | Diverge => Diverge
      end
  end.

Definition construct_array (arr_begin element_size : Z) (count : nat) : M (gset Z) unit :=
  construct_loop arr_begin element_size arr_begin 0 count.
End arrays.
