(* ===== verification/StartupTheorems.v ===== *)
(** * Properties of starting and stopping

    Constructors, initialisers and [DriverEntry] run in order; every registered destructor
    runs once, the last one first, whichever way the driver stops. *)
From Stdlib Require Import ZArith Lia.
From stdpp Require Import base list gmap numbers.
From S2P Require Import Prelude Startup.
#[local] Open Scope Z_scope.

(** ** What a driver registers *)

Definition atexit_of (c : rt_call) : option nat := match c with CallAtexit d => Some d | CallAdd _ => None end.
Definition add_of (c : rt_call) : option nat := match c with CallAtexit _ => None | CallAdd o => Some o end.

Section driver.
Context `{D : driver}.

Definition ctor_fns : list nat := omap id cxx_ctors.
Definition all_calls : list rt_call := ctor_fns ≫= ctor_calls.
Definition registered_destructors : list nat := omap atexit_of all_calls.
Definition registered_initialisers : list nat := omap add_of all_calls.

(** The initialisers that run, and the status of the last one. *)
Fixpoint initialisers_run (l : list nat) : list nat :=
  match l with
  | [] => []
  | o :: l => if NT_SUCCESS (run_status o) then o :: initialisers_run l else [o]
  end.
Fixpoint initialisers_status (l : list nat) : Z :=
  match l with
  | [] => STATUS_SUCCESS
  | o :: l => if NT_SUCCESS (run_status o) then initialisers_status l else run_status o
  end.
End driver.

(** ** Registration *)

(** An array whose first elements are in use. *)
Definition filled (n : Z) (l : list nat) : list (option nat) :=
  (Some <$> l) ++ replicate (Z.to_nat n - length l) None.

Lemma filled_insert n l x : Z.of_nat (length l) < n ->
  <[length l := Some x]> (filled n l) = filled n (l ++ [x]).
Proof.
  intros Hl. unfold filled. rewrite insert_app_r_alt by (by rewrite length_fmap).
  rewrite length_fmap, Nat.sub_diag, fmap_app, <- app_assoc, length_app. f_equal. cbn.
  destruct (Z.to_nat n - length l)%nat as [|k] eqn:E; [lia|]. cbn.
  by replace (Z.to_nat n - (length l + 1))%nat with k by lia.
Qed.

Lemma filled_lookup n l i x : l !! i = Some x -> filled n l !! i = Some (Some x).
Proof.
  intros Hi. unfold filled. apply lookup_app_l_Some. by rewrite list_lookup_fmap, Hi.
Qed.

(** The registered destructors and initialisers of a state. *)
Record registered (w : rt_world) (ds os : list nat) : Prop := {
  rg_stack : destructor_stack w = filled MAX_DESTRUCTOR_COUNT ds;
  rg_count : destructor_count w = Z.of_nat (length ds);
  rg_array : m_initializers w = filled MAX_INITIALIZER_COUNT os;
  rg_size : m_size w = Z.of_nat (length os) }.

(** Only the registered functions differ. *)
Definition same_rest (w w' : rt_world) (tr : list event) : Prop :=
  m_fired w' = m_fired w /\ custom_unload w' = custom_unload w /\ DriverUnload w' = DriverUnload w /\
  trace w' = trace w ++ tr.

Lemma same_rest_trans w1 w2 w3 t1 t2 : same_rest w1 w2 t1 -> same_rest w2 w3 t2 -> same_rest w1 w3 (t1 ++ t2).
Proof. unfold same_rest. intros (?&?&?&E1) (?&?&?&E2). rewrite E2, E1, app_assoc. split_and!; congruence. Qed.

Lemma same_rest_refl w : same_rest w w [].
Proof. unfold same_rest. by rewrite app_nil_r. Qed.

Lemma atexit_ok w ds os d : registered w ds os -> Z.of_nat (length ds) < MAX_DESTRUCTOR_COUNT ->
  exists w', atexit (Some d) w = Ok w' 0 /\ registered w' (ds ++ [d]) os /\ same_rest w w' [].
Proof.
  unfold MAX_DESTRUCTOR_COUNT. intros [Hs Hc Ha Hz] Hl. unfold atexit, get, put, mbind, M_bind.
  rewrite Hc. rewrite (wrap_small 32 (Z.of_nat (length ds) + 1)) by lia.
  replace (Z.of_nat (length ds) + 1 - 1) with (Z.of_nat (length ds)) by lia. rewrite wrap_small by lia.
  unfold MAX_DESTRUCTOR_COUNT. rewrite (proj2 (Z.ltb_lt _ _)) by lia. eexists. split; [reflexivity|]. split.
  - split; cbn; try done; [|rewrite length_app; cbn; lia].
    rewrite Hs, Nat2Z.id. by apply filled_insert.
  - unfold same_rest. cbn. by rewrite app_nil_r.
Qed.

Lemma add_ok w ds os o : registered w ds os -> m_fired w = false -> Z.of_nat (length os) < MAX_INITIALIZER_COUNT ->
  exists w', add o w = Ok w' true /\ registered w' ds (os ++ [o]) /\ same_rest w w' [].
Proof.
  unfold MAX_INITIALIZER_COUNT. intros [Hs Hc Ha Hz] Hf Hl. unfold add, get, put, mbind, M_bind.
  unfold MAX_INITIALIZER_COUNT. rewrite Hf, Hz, (proj2 (Z.leb_gt _ _)) by lia. cbn.
  eexists. split; [reflexivity|]. split.
  - split; cbn; try done; [|rewrite length_app; cbn; lia].
    rewrite Ha, Nat2Z.id. by apply filled_insert.
  - unfold same_rest. cbn. by rewrite app_nil_r.
Qed.

Lemma run_calls_ok cs w ds os : registered w ds os -> m_fired w = false ->
  Z.of_nat (length (ds ++ omap atexit_of cs)) <= MAX_DESTRUCTOR_COUNT ->
  Z.of_nat (length (os ++ omap add_of cs)) <= MAX_INITIALIZER_COUNT ->
  exists w', run_calls cs w = Ok w' tt /\
    registered w' (ds ++ omap atexit_of cs) (os ++ omap add_of cs) /\ same_rest w w' [].
Proof.
  revert w ds os. induction cs as [|c cs IH]; intros w ds os Hw Hf Hd Ho.
  { exists w. rewrite !app_nil_r. split_and!; [done|done|apply same_rest_refl]. }
  rewrite !length_app in Hd, Ho. cbn [run_calls]. destruct c as [d|o]; cbn in Hd, Ho |- *.
  - destruct (atexit_ok w ds os d Hw) as (w1 & E1 & H1 & S1); [lia|].
    destruct (IH w1 (ds ++ [d]) os H1) as (w' & E & H' & S').
    { destruct S1 as (-> & _). done. } { rewrite !length_app. cbn. lia. } { rewrite length_app. lia. }
    exists w'. unfold run_call. rewrite (bind_Ok _ _ _ _ _ (bind_Ok _ _ _ _ _ E1)). split; [done|].
    rewrite <- app_assoc in H'. split; [done|]. by eapply (same_rest_trans _ _ _ [] []).
  - destruct (add_ok w ds os o Hw Hf) as (w1 & E1 & H1 & S1); [lia|].
    destruct (IH w1 ds (os ++ [o]) H1) as (w' & E & H' & S').
    { destruct S1 as (-> & _). done. } { rewrite length_app. lia. } { rewrite !length_app. cbn. lia. }
    exists w'. unfold run_call. rewrite (bind_Ok _ _ _ _ _ (bind_Ok _ _ _ _ _ E1)). split; [done|].
    rewrite <- app_assoc in H'. split; [done|]. by eapply (same_rest_trans _ _ _ [] []).
Qed.

Lemma log_ok e w ds os : registered w ds os ->
  exists w', log e w = Ok w' tt /\ registered w' ds os /\ same_rest w w' [e].
Proof. intros [? ? ? ?]. eexists. split; [reflexivity|]. split; [by split|done]. Qed.

(** ** Constructors, initialisers, destructors *)

Section phases.
Context `{D : driver}.

Lemma constructor_loop_ok ctors w ds os :
  let fns := omap id ctors in let cs := fns ≫= ctor_calls in
  registered w ds os -> m_fired w = false ->
  Z.of_nat (length (ds ++ omap atexit_of cs)) <= MAX_DESTRUCTOR_COUNT ->
  Z.of_nat (length (os ++ omap add_of cs)) <= MAX_INITIALIZER_COUNT ->
  exists w', constructor_loop ctors w = Ok w' tt /\
    registered w' (ds ++ omap atexit_of cs) (os ++ omap add_of cs) /\ same_rest w w' (Constructed <$> fns).
Proof.
  cbn zeta. revert w ds os. induction ctors as [|[fn|] ctors IH]; intros w ds os Hw Hf Hd Ho.
  - exists w. rewrite !app_nil_r. split_and!; [done|done|apply same_rest_refl].
  - cbn in Hd, Ho |- *. rewrite omap_app, app_assoc in Hd, Ho. rewrite (omap_app atexit_of), (omap_app add_of), !app_assoc.
    rewrite (length_app (ds ++ _)) in Hd. rewrite (length_app (os ++ _)) in Ho.
    destruct (log_ok (Constructed fn) w ds os Hw) as (w1 & E1 & H1 & S1).
    destruct (run_calls_ok (ctor_calls fn) w1 ds os H1) as (w2 & E2 & H2 & S2).
    { by destruct S1 as (-> & _). } { lia. } { lia. }
    pose proof (same_rest_trans _ _ _ _ _ S1 S2) as S12.
    destruct (IH w2 _ _ H2) as (w' & E & H' & S').
    { by destruct S12 as (-> & _). } { rewrite length_app. lia. } { rewrite length_app. lia. }
    exists w'. rewrite (bind_Ok _ _ w w2 tt) by (by rewrite (bind_Ok _ _ _ _ _ E1)).
    split; [done|]. split; [done|]. exact (same_rest_trans _ _ _ _ _ S12 S').
  - apply (IH w ds os Hw Hf Hd Ho).
Qed.

Lemma destructor_loop_ok w ds os i : registered w ds os -> (i <= length ds)%nat ->
  exists w', destructor_loop i w = Ok w' tt /\ registered w' ds os /\
    same_rest w w' (Destroyed <$> rev (take i ds)).
Proof.
  revert w. induction i as [|i IH]; intros w Hw Hi.
  { exists w. split_and!; [done|done|apply same_rest_refl]. }
  destruct (lookup_lt_is_Some_2 ds i) as [d Hd]; [lia|].
  destruct (log_ok (Destroyed d) w ds os Hw) as (w1 & E1 & H1 & S1).
  destruct (IH w1 H1) as (w' & E & H' & S'); [lia|].
  exists w'. split; [|split; [done|]].
  - cbn [destructor_loop]. rewrite (bind_Ok _ _ w w w) by done.
    rewrite (rg_stack _ _ _ Hw), (filled_lookup _ _ _ _ Hd), access_bind, access_bind.
    by rewrite (bind_Ok _ _ _ _ _ E1).
  - rewrite (take_S_r _ _ _ Hd), rev_app_distr, fmap_app. exact (same_rest_trans _ _ _ _ _ S1 S').
Qed.

Lemma invoke_global_destructors_ok w ds os : registered w ds os ->
  exists w', invoke_global_destructors w = Ok w' tt /\ same_rest w w' (Destroyed <$> rev ds) /\
    destructor_count w' = 0.
Proof.
  intros Hw. destruct (destructor_loop_ok w ds os (length ds) Hw ltac:(lia)) as (w1 & E1 & H1 & S1).
  rewrite take_ge in S1 by lia. exists (set_destructors (destructor_stack w1) 0 w1). split; [|split; [exact S1|done]].
  unfold invoke_global_destructors. rewrite (bind_Ok _ _ w w w) by done.
  rewrite (rg_count _ _ _ Hw), Nat2Z.id. by rewrite (bind_Ok _ _ _ _ _ E1).
Qed.

Lemma run_loop_ok todo idx w ds os : registered w ds os -> drop idx os = todo ->
  exists w', run_loop idx (length todo) w = Ok w' (initialisers_status todo) /\ registered w' ds os /\
    same_rest w w' (Initialised <$> initialisers_run todo).
Proof.
  revert idx w. induction todo as [|o todo IH]; intros idx w Hw Hdrop.
  { exists w. split_and!; [done|done|apply same_rest_refl]. }
  assert (Ho : os !! idx = Some o) by (rewrite <- (Nat.add_0_r idx), <- lookup_drop; by rewrite Hdrop).
  destruct (log_ok (Initialised o) w ds os Hw) as (w1 & E1 & H1 & S1).
  cbn [run_loop length initialisers_run initialisers_status].
  rewrite (bind_Ok _ _ w w w) by done.
  rewrite (rg_array _ _ _ Hw), (filled_lookup _ _ _ _ Ho), access_bind, access_bind, (bind_Ok _ _ _ _ _ E1).
  destruct (NT_SUCCESS (run_status o)) eqn:Es; cbn [negb].
  - destruct (IH (S idx) w1 H1) as (w' & E & H' & S').
    { rewrite <- Nat.add_1_r, <- drop_drop, Hdrop. done. }
    exists w'. split; [done|]. split; [done|]. exact (same_rest_trans _ _ _ _ _ S1 S').
  - by exists w1.
Qed.

Lemma run_all_ok w ds os : registered w ds os ->
  exists w', run_all w = Ok w' (initialisers_status os) /\ registered w' ds os /\
    custom_unload w' = custom_unload w /\ DriverUnload w' = DriverUnload w /\
    trace w' = trace w ++ (Initialised <$> initialisers_run os).
Proof.
  intros Hw. set (w0 := set_registry (m_initializers w) (m_size w) true w).
  assert (H0 : registered w0 ds os) by (by destruct Hw).
  destruct (run_loop_ok os 0 w0 ds os H0 ltac:(done)) as (w' & E & H' & (_ & S1 & S2 & S3)).
  exists w'. split; [|done]. unfold run_all. rewrite (bind_Ok _ _ w w0 tt) by done.
  rewrite (bind_Ok _ _ w0 w0 w0) by done. by rewrite (rg_size _ _ _ H0), Nat2Z.id.
Qed.

(** The routine of the driver's own, if it is to be called. *)
Definition own_unload (u : option unload_fn) : list event :=
  match u with Some (OwnUnload fn) => [Unloaded fn] | _ => [] end.

Lemma unload_ok w ds os calls : registered w ds os -> custom_unload w <> Some RuntimeUnload ->
  exists w', KtlDriverUnload (S calls) w = Ok w' tt /\ destructor_count w' = 0 /\
    DriverUnload w' = DriverUnload w /\
    trace w' = trace w ++ own_unload (custom_unload w) ++ (Destroyed <$> rev ds).
Proof.
  intros Hw Hc. cbn [KtlDriverUnload]. rewrite (bind_Ok _ _ w w w) by done.
  destruct (custom_unload w) as [[|fn]|]; [done| |].
  - destruct (log_ok (Unloaded fn) w ds os Hw) as (w1 & E1 & H1 & S1).
    destruct (invoke_global_destructors_ok w1 ds os H1) as (w' & E & S' & H').
    exists w'. rewrite (bind_Ok _ _ _ _ _ E1). split; [done|]. split; [done|].
    destruct (same_rest_trans _ _ _ _ _ S1 S') as (_ & _ & ? & ?). done.
  - destruct (invoke_global_destructors_ok w ds os Hw) as (w' & E & (_ & _ & ? & ?) & H').
    exists w'. by rewrite (bind_Ok _ _ w w tt).
Qed.
End phases.

(** ** Properties *)

Lemma image_registered : registered image [] [].
Proof. by split. Qed.

Section whole.
Context `{D : driver}.

(** What is called before and at the start of [DriverEntry]. *)
Definition start_trace : list event :=
  (Constructed <$> ctor_fns) ++ (Initialised <$> initialisers_run registered_initialisers).
Definition stop_trace : list event := Destroyed <$> rev registered_destructors.
Definition own_trace : list event := match entry_unload with Some fn => [Unloaded fn] | None => [] end.

(** The state in which [DriverEntry] is called, or not. *)
Lemma before_entry :
  Z.of_nat (length registered_destructors) <= MAX_DESTRUCTOR_COUNT ->
  Z.of_nat (length registered_initialisers) <= MAX_INITIALIZER_COUNT ->
  exists w, (_ ← invoke_global_constructors; run_all) image = Ok w (initialisers_status registered_initialisers) /\
    registered w registered_destructors registered_initialisers /\
    custom_unload w = None /\ trace w = start_trace.
Proof.
  intros Hd Ho.
  destruct (constructor_loop_ok cxx_ctors image [] [] image_registered eq_refl Hd Ho) as (w1 & E1 & H1 & S1).
  destruct (run_all_ok w1 _ _ H1) as (w2 & E2 & H2 & C2 & _ & T2).
  destruct S1 as (_ & C1 & _ & T1). exists w2. unfold invoke_global_constructors.
  rewrite (bind_Ok _ _ _ _ _ E1). split; [done|]. split; [done|]. rewrite C2, C1, T2, T1. done.
Qed.

Lemma entry_split calls : KtlDriverEntry calls image =
  (init_status ← (_ ← invoke_global_constructors; run_all);
   if negb (NT_SUCCESS init_status) then _ ← KtlDriverUnload calls; mret init_status
   else
     init_status ← DriverEntry;
     if negb (NT_SUCCESS init_status) then _ ← KtlDriverUnload calls; mret init_status
     else
       w ← get;
       _ ← (match custom_unload w with
            | None => put (set_unload (DriverUnload w) (Some RuntimeUnload) w)
            | Some _ => mret tt
            end);
       mret STATUS_SUCCESS) image.
Proof. unfold KtlDriverEntry, mbind, M_bind. by destruct (invoke_global_constructors image). Qed.

(** The state after [DriverEntry]. *)
Lemma driver_entry_ok w ds os : registered w ds os -> custom_unload w = None ->
  exists w', DriverEntry w = Ok w' entry_status /\ registered w' ds os /\
    custom_unload w' = (if entry_filter then OwnUnload <$> entry_unload else None) /\
    DriverUnload w' = (if entry_filter then Some RuntimeUnload else OwnUnload <$> entry_unload) /\
    trace w' = trace w ++ [Entered].
Proof.
  intros [? ? ? ?] Hc. unfold DriverEntry, log, KtlRegisterFilter, modify, mret, M_ret, mbind, M_bind.
  destruct entry_filter; eexists; (split; [reflexivity|]); (split; [by split|]); cbn; by rewrite ?Hc.
Qed.

Lemma fmap_own_not_runtime (u : option nat) : OwnUnload <$> u <> Some RuntimeUnload.
Proof. by destruct u. Qed.

Lemma own_unload_fmap : own_unload (OwnUnload <$> entry_unload) = own_trace.
Proof. unfold own_trace. by destruct entry_unload. Qed.
End whole.

(** C33: A failing start is undone.  With at most 128 registered destructors and 32
    initialisers (with more, a start that fails reads behind the array of destructors,
    [too_many_destructors]), the constructors run in the order of their table and the initialisers in the order of their
    registration up to the first one that fails; [DriverEntry] is called when none fails.
    If an initialiser or [DriverEntry] fails, every registered destructor is called once, in
    reverse order, and the status of the failure is returned. *)
Theorem failed_start_undone `{D : driver} :
  Z.of_nat (length registered_destructors) <= MAX_DESTRUCTOR_COUNT ->
  Z.of_nat (length registered_initialisers) <= MAX_INITIALIZER_COUNT ->
  NT_SUCCESS (initialisers_status registered_initialisers) && NT_SUCCESS entry_status = false ->
  exists w status, KtlDriverEntry 1 image = Ok w status /\ NT_SUCCESS status = false /\
    destructor_count w = 0 /\
    if NT_SUCCESS (initialisers_status registered_initialisers) then
      status = entry_status /\
      trace w = start_trace ++ [Entered] ++ (if entry_filter then own_trace else []) ++ stop_trace
    else
      status = initialisers_status registered_initialisers /\ trace w = start_trace ++ stop_trace.
Proof.
  intros Hd Ho Hfail. destruct (before_entry Hd Ho) as (w & E & H & C & T).
  rewrite entry_split, (bind_Ok _ _ _ _ _ E).
  destruct (NT_SUCCESS (initialisers_status registered_initialisers)) eqn:Hi; cbn [negb andb] in *.
  - destruct (driver_entry_ok w _ _ H C) as (w1 & E1 & H1 & C1 & _ & T1).
    rewrite (bind_Ok _ _ _ _ _ E1), Hfail. cbn [negb].
    destruct (unload_ok w1 _ _ 0 H1) as (w2 & E2 & N2 & _ & T2).
    { rewrite C1. destruct entry_filter; [apply fmap_own_not_runtime|done]. }
    rewrite (bind_Ok _ _ _ _ _ E2). exists w2, entry_status. split_and!; try done.
    rewrite T2, T1, T, C1, <- !app_assoc. f_equal. f_equal. f_equal.
    destruct entry_filter; [apply own_unload_fmap|done].
  - destruct (unload_ok w _ _ 0 H) as (w2 & E2 & N2 & _ & T2); [by rewrite C|].
    rewrite (bind_Ok _ _ _ _ _ E2). do 2 eexists. split_and!; [reflexivity|done|done|done|].
    rewrite T2, T, C. done.
Qed.

(** A driver that started is stopped in reverse.  After a successful start [DriverUnload]
    is the runtime's, and unloading calls the driver's own routine, if it has one, and then
    every registered destructor once, the last one first. *)
Theorem unload_reverses_start `{D : driver} :
  Z.of_nat (length registered_destructors) <= MAX_DESTRUCTOR_COUNT ->
  Z.of_nat (length registered_initialisers) <= MAX_INITIALIZER_COUNT ->
  NT_SUCCESS (initialisers_status registered_initialisers) = true -> NT_SUCCESS entry_status = true ->
  (entry_filter = true -> is_Some entry_unload) ->
  exists w w', KtlDriverEntry 1 image = Ok w STATUS_SUCCESS /\ DriverUnload w = Some RuntimeUnload /\
    trace w = start_trace ++ [Entered] /\
    unload_driver 1 w = Ok w' tt /\ destructor_count w' = 0 /\
    trace w' = start_trace ++ [Entered] ++ own_trace ++ stop_trace.
Proof.
  intros Hd Ho Hi He Hf. destruct (before_entry Hd Ho) as (w & E & H & C & T).
  destruct (driver_entry_ok w _ _ H C) as (w1 & E1 & H1 & C1 & D1 & T1).
  set (w2 := match custom_unload w1 with
             | None => set_unload (DriverUnload w1) (Some RuntimeUnload) w1 | Some _ => w1 end).
  assert (H2 : registered w2 registered_destructors registered_initialisers).
  { unfold w2. destruct (custom_unload w1); [done|]. by destruct H1. }
  assert (Hw2 : DriverUnload w2 = Some RuntimeUnload /\ custom_unload w2 = OwnUnload <$> entry_unload /\
                trace w2 = trace w1).
  { unfold w2. rewrite C1, D1. destruct entry_filter; [|done]. destruct (Hf eq_refl) as [fn Hfn].
    rewrite Hfn in *. cbn in *. by rewrite ?C1, ?D1. }
  destruct Hw2 as (D2 & C2 & T2).
  destruct (unload_ok w2 _ _ 0 H2) as (w3 & E3 & N3 & _ & T3); [rewrite C2; apply fmap_own_not_runtime|].
  exists w2, w3. split_and!; try done.
  - rewrite entry_split, (bind_Ok _ _ _ _ _ E), Hi. cbn [negb]. rewrite (bind_Ok _ _ _ _ _ E1), He. cbn [negb].
    rewrite (bind_Ok _ _ w1 w1 w1) by done. unfold w2, mbind, M_bind. by destruct (custom_unload w1).
  - by rewrite T2, T1, T.
  - unfold unload_driver. rewrite (bind_Ok _ _ w2 w2 w2) by done. by rewrite D2.
  - rewrite T3, T2, T1, T, C2, own_unload_fmap. by rewrite <- app_assoc.
Qed.

(** Three global objects; the second initialiser fails in [failing_driver]. *)
#[local] Instance demo_driver : driver := {|
  cxx_ctors := [Some 10; None; Some 11; Some 12]%nat;
  ctor_calls fn := match fn with
    | 10%nat => [CallAtexit 20] | 11%nat => [CallAdd 30; CallAtexit 21; CallAdd 31] | _ => [CallAtexit 22] end;
  run_status _ := 0;
  entry_unload := Some 40%nat; entry_filter := true; entry_status := 0 |}.

Definition failing_driver : driver := {|
  cxx_ctors := [Some 10; Some 11]%nat;
  ctor_calls fn := match fn with
    | 10%nat => [CallAtexit 20; CallAdd 30] | _ => [CallAdd 31; CallAtexit 21; CallAdd 32] end;
  run_status o := if decide (o = 31%nat) then 0xC0000001 else 0;
  entry_unload := None; entry_filter := false; entry_status := 0 |}.

Lemma failed_start_undone_witness :
  exists w status, KtlDriverEntry (D := failing_driver) 1 image = Ok w status /\ NT_SUCCESS status = false /\
    destructor_count w = 0 /\ status = 0xC0000001 /\
    trace w = [Constructed 10; Constructed 11; Initialised 30; Initialised 31; Destroyed 21; Destroyed 20]%nat.
Proof.
  apply (failed_start_undone (D := failing_driver)).
  - vm_compute. discriminate.
  - vm_compute. discriminate.
  - vm_compute. reflexivity.
Defined.

Lemma unload_reverses_start_witness :
  exists w w', KtlDriverEntry (D := demo_driver) 1 image = Ok w STATUS_SUCCESS /\
    DriverUnload w = Some RuntimeUnload /\
    trace w = [Constructed 10; Constructed 11; Constructed 12; Initialised 30; Initialised 31; Entered]%nat /\
    unload_driver 1 w = Ok w' tt /\ destructor_count w' = 0 /\
    trace w' = [Constructed 10; Constructed 11; Constructed 12; Initialised 30; Initialised 31; Entered;
                Unloaded 40; Destroyed 22; Destroyed 21; Destroyed 20]%nat.
Proof.
  apply (unload_reverses_start (D := demo_driver)).
  - vm_compute. discriminate.
  - vm_compute. discriminate.
  - vm_compute. reflexivity.
  - vm_compute. reflexivity.
  - intros _. exists 40%nat. reflexivity.
Defined.

(** ** Too many destructors *)

(** The counter is the number of calls of [atexit], also of those that were refused. *)
Record counts_calls (w : rt_world) (n : nat) : Prop := {
  cc_stack : length (destructor_stack w) = Z.to_nat MAX_DESTRUCTOR_COUNT;
  cc_count : destructor_count w = Z.of_nat n }.

Lemma run_calls_counts cs w n : counts_calls w n -> Z.of_nat (n + length (omap atexit_of cs)) < 2 ^ 32 ->
  exists w', run_calls cs w = Ok w' tt /\ counts_calls w' (n + length (omap atexit_of cs)).
Proof.
  revert w n. induction cs as [|[d|o] cs IH]; intros w n Hw Hn.
  - exists w. cbn. by rewrite Nat.add_0_r.
  - cbn [omap list_omap atexit_of length] in *. destruct Hw as [Hs Hc].
    set (w1 := if Z.of_nat n <? MAX_DESTRUCTOR_COUNT
               then set_destructors (<[n := Some d]> (destructor_stack w)) (Z.of_nat (S n)) w
               else set_destructors (destructor_stack w) (Z.of_nat (S n)) w).
    assert (E1 : run_call (CallAtexit d) w = Ok w1 tt).
    { cbn. unfold atexit, get, put, mbind, M_bind. rewrite Hc.
      rewrite (wrap_small 32 (Z.of_nat n + 1)) by lia.
      replace (Z.of_nat n + 1 - 1) with (Z.of_nat n) by lia. rewrite wrap_small by lia.
      replace (Z.of_nat n + 1) with (Z.of_nat (S n)) by lia. rewrite Nat2Z.id. unfold w1. by destruct (Z.of_nat n <? MAX_DESTRUCTOR_COUNT). }
    destruct (IH w1 (S n)) as (w' & E & H'); [|lia|].
    { unfold w1. case_match; split; cbn; rewrite ?length_insert; done. }
    exists w'. cbn [run_calls]. rewrite (bind_Ok _ _ _ _ _ E1). split; [done|].
    by replace (n + S _)%nat with (S n + length (omap atexit_of cs))%nat by lia.
  - assert (E1 : exists w1, run_call (CallAdd o) w = Ok w1 tt /\ counts_calls w1 n).
    { destruct Hw as [Hs Hc]. cbn. unfold add, get, put, mbind, M_bind. destruct (m_fired w || _); (eexists; split; [reflexivity|]); by split. }
    destruct E1 as (w1 & E1 & H1). destruct (IH w1 n H1 Hn) as (w' & E & H').
    exists w'. cbn [run_calls]. by rewrite (bind_Ok _ _ _ _ _ E1).
Qed.

Lemma constructor_loop_counts `{D : driver} ctors w n : counts_calls w n ->
  Z.of_nat (n + length (omap atexit_of (omap id ctors ≫= ctor_calls))) < 2 ^ 32 ->
  exists w', constructor_loop ctors w = Ok w' tt /\
    counts_calls w' (n + length (omap atexit_of (omap id ctors ≫= ctor_calls))).
Proof.
  revert w n. induction ctors as [|[fn|] ctors IH]; intros w n Hw Hn.
  - exists w. cbn. by rewrite Nat.add_0_r.
  - cbn in Hn |- *. rewrite omap_app, length_app in Hn |- *.
    destruct (run_calls_counts (ctor_calls fn) (RtWorld (destructor_stack w) (destructor_count w) (m_initializers w)
      (m_size w) (m_fired w) (custom_unload w) (DriverUnload w) (trace w ++ [Constructed fn])) n) as (w1 & E1 & H1).
    { by destruct Hw. } { lia. }
    destruct (IH w1 _ H1) as (w' & E & H'); [lia|]. exists w'. rewrite Nat.add_assoc. split; [|done].
    unfold mbind, M_bind in *. cbn. by rewrite E1.
  - apply (IH w n Hw Hn).
Qed.

(** The refusal of [atexit] is fatal later.  When the constructors register more than
    128 destructors, the calls beyond are refused but counted, and the loop that calls the
    destructors reads behind the end of the array. *)
Theorem too_many_destructors `{D : driver} :
  MAX_DESTRUCTOR_COUNT < Z.of_nat (length registered_destructors) < 2 ^ 32 ->
  exists w, invoke_global_constructors image = Ok w tt /\ invoke_global_destructors w = Fault.
Proof.
  intros Hn. destruct (constructor_loop_counts cxx_ctors image 0) as (w & E & [Hs Hc]); [done|apply Hn|].
  exists w. split; [exact E|]. unfold invoke_global_destructors. rewrite (bind_Ok _ _ w w w) by done.
  rewrite Hc, Nat2Z.id, Nat.add_0_l. fold ctor_fns all_calls registered_destructors.
  destruct (length registered_destructors) as [|n] eqn:El; [unfold MAX_DESTRUCTOR_COUNT in Hn; lia|].
  unfold mbind, M_bind. cbn [destructor_loop]. unfold get, mbind, M_bind.
  by rewrite (lookup_ge_None_2 _ n) by (rewrite Hs; lia).
Qed.

Definition many_globals : driver := {|
  cxx_ctors := [Some 0%nat]; ctor_calls _ := CallAtexit <$> seq 1 129; run_status _ := 0;
  entry_unload := None; entry_filter := false; entry_status := 0 |}.

Lemma too_many_destructors_witness :
  exists w, invoke_global_constructors (D := many_globals) image = Ok w tt /\ invoke_global_destructors w = Fault.
Proof.
  apply (too_many_destructors (D := many_globals)).
  assert (length (registered_destructors (D := many_globals)) = 129%nat) as -> by (vm_compute; reflexivity).
  unfold MAX_DESTRUCTOR_COUNT. lia.
Defined.

(** A filter driver without an unload routine cannot be unloaded: the runtime's own
    routine is taken for the driver's and calls itself without end. *)
Theorem filter_unload_recursion `{D : driver} :
  Z.of_nat (length registered_destructors) <= MAX_DESTRUCTOR_COUNT ->
  Z.of_nat (length registered_initialisers) <= MAX_INITIALIZER_COUNT ->
  NT_SUCCESS (initialisers_status registered_initialisers) = true -> NT_SUCCESS entry_status = true ->
  entry_filter = true -> entry_unload = None ->
  exists w, KtlDriverEntry 1 image = Ok w STATUS_SUCCESS /\ forall calls, unload_driver calls w = Diverge.
Proof.
  intros Hd Ho Hi He Hf Hu. destruct (before_entry Hd Ho) as (w & E & H & C & T).
  destruct (driver_entry_ok w _ _ H C) as (w1 & E1 & H1 & C1 & D1 & T1).
  rewrite Hf in C1, D1. rewrite Hu in C1. cbn in C1. exists (set_unload (DriverUnload w1) (Some RuntimeUnload) w1). split.
  - rewrite entry_split, (bind_Ok _ _ _ _ _ E), Hi. cbn [negb]. rewrite (bind_Ok _ _ _ _ _ E1), He. cbn [negb].
    rewrite (bind_Ok _ _ w1 w1 w1) by done. unfold mbind, M_bind. by rewrite C1.
  - intros calls. unfold unload_driver, get, mbind, M_bind. cbn [set_unload DriverUnload].
    rewrite D1. induction calls as [|calls IH]; [done|].
    cbn [KtlDriverUnload]. unfold get, mbind, M_bind in *. cbn [set_unload custom_unload]. by rewrite IH.
Qed.

Definition filter_driver : driver := {|
  cxx_ctors := []; ctor_calls _ := []; run_status _ := 0;
  entry_unload := None; entry_filter := true; entry_status := 0 |}.

Lemma filter_unload_recursion_witness :
  exists w, KtlDriverEntry (D := filter_driver) 1 image = Ok w STATUS_SUCCESS /\
    forall calls, unload_driver calls w = Diverge.
Proof.
  apply (filter_unload_recursion (D := filter_driver)); try reflexivity; vm_compute; discriminate.
Defined.

(** ** Arrays *)

Section arrays.
Context (throws : Z -> bool) (arr_begin element_size : Z).

Definition object_at (i : nat) : Z := arr_begin + element_size * Z.of_nat i.
Definition objects_at (n : nat) : gset Z := list_to_set (object_at <$> seq 0 n).

Lemma objects_at_S n : objects_at (S n) = objects_at n ∪ {[object_at n]}.
Proof. unfold objects_at. rewrite seq_S, fmap_app, list_to_set_app_L. cbn. by rewrite union_empty_r_L. Qed.

Lemma object_at_inj i j : 0 < element_size -> object_at i = object_at j -> i = j.
Proof. unfold object_at. intros. nia. Qed.

Lemma object_not_before n : 0 < element_size -> object_at n ∉ objects_at n.
Proof.
  intros Hs. unfold objects_at. rewrite elem_of_list_to_set, list_elem_of_fmap.
  intros (i & Hi & Hin%elem_of_seq). apply object_at_inj in Hi; [lia|done].
Qed.

Lemma destroy_array_ok n live : 0 < element_size -> objects_at n ## live ->
  destroy_array_in_reversed_order arr_begin element_size n (live ∪ objects_at n) = Ok live tt.
Proof.
  intros Hs. unfold destroy_array_in_reversed_order. fold (object_at n).
  induction n as [|n IH]; intros Hd; [cbn; by rewrite union_empty_r_L|].
  cbn [destroy_array_loop]. replace (object_at (S n) - element_size) with (object_at n) by (unfold object_at; lia).
  rewrite objects_at_S in *. pose proof (object_not_before n Hs) as Hn.
  unfold call_destructor, get, put, mbind, M_bind in *. rewrite decide_True by set_solver.
  assert (E : (live ∪ (objects_at n ∪ {[object_at n]})) ∖ {[object_at n]} = live ∪ objects_at n).
  { apply leibniz_equiv, set_equiv. intros x. revert Hn Hd. clear. set_solver. }
  rewrite E. apply IH. intros x Hx. apply Hd. by apply elem_of_union_l.
Qed.

Lemma construct_loop_ok todo idx live : 0 < element_size -> objects_at (idx + todo) ## live ->
  construct_loop throws arr_begin element_size (object_at idx) idx todo (live ∪ objects_at idx) =
  if forallb (fun i => negb (throws (object_at i))) (seq idx todo)
  then Ok (live ∪ objects_at (idx + todo)) tt else Throw live runtime_error.
Proof.
  intros Hs. revert idx. induction todo as [|todo IH]; intros idx Hd; [by rewrite Nat.add_0_r|].
  cbn [construct_loop seq forallb]. unfold call_constructor, get, put, throw, mbind, M_bind.
  pose proof (object_not_before idx Hs) as Hn.
  assert (Hsub : objects_at (S idx) ⊆ objects_at (idx + S todo)).
  { unfold objects_at. intros x. rewrite !elem_of_list_to_set, !list_elem_of_fmap.
    intros (i & -> & Hi%elem_of_seq). exists i. split; [done|]. apply elem_of_seq. lia. }
  rewrite objects_at_S in Hsub.
  assert (Hbefore : objects_at idx ## live) by (intros x Hx; apply Hd, Hsub; by apply elem_of_union_l).
  assert (Hnew : object_at idx ∉ live) by (intros Hin; apply (Hd (object_at idx)); [apply Hsub, elem_of_union_r; by apply elem_of_singleton|done]).
  rewrite decide_False by (rewrite elem_of_union; tauto). destruct (throws (object_at idx)); cbn [negb andb].
  - by rewrite destroy_array_ok.
  - replace (object_at idx + element_size) with (object_at (S idx)) by (unfold object_at; lia).
    replace ({[object_at idx]} ∪ (live ∪ objects_at idx)) with (live ∪ objects_at (S idx))
      by (rewrite objects_at_S, (union_comm_L {[object_at idx]}); by rewrite union_assoc_L).
    rewrite IH by (by replace (S idx + todo)%nat with (idx + S todo)%nat by lia).
    by replace (S idx + todo)%nat with (idx + S todo)%nat by lia.
Qed.
End arrays.

(** Arrays are constructed completely or not at all.  [construct_array] either
    constructs every object of the array, and [destroy_array_in_reversed_order] undoes it,
    or a constructor throws, every object constructed before is destroyed, and the
    exception goes on. *)
Theorem array_all_or_nothing throws arr_begin element_size n live :
  0 < element_size -> objects_at arr_begin element_size n ## live ->
  if forallb (fun i => negb (throws (object_at arr_begin element_size i))) (seq 0 n)
  then construct_array throws arr_begin element_size n live =
         Ok (live ∪ objects_at arr_begin element_size n) tt /\
       destroy_array_in_reversed_order arr_begin element_size n (live ∪ objects_at arr_begin element_size n) =
         Ok live tt
  else construct_array throws arr_begin element_size n live = Throw live runtime_error.
Proof.
  intros Hs Hd. pose proof (construct_loop_ok throws arr_begin element_size n 0 live Hs Hd) as E.
  replace (live ∪ objects_at arr_begin element_size 0) with live in E by (cbn; by rewrite union_empty_r_L).
  unfold object_at at 1 in E. rewrite Z.mul_0_r, Z.add_0_r in E.
  unfold construct_array. case_match; [split; [done|by apply destroy_array_ok]|done].
Qed.

Lemma array_all_or_nothing_witness :
  construct_array (fun a => a =? 116) 100 8 4 {[7]} = Throw {[7]} runtime_error.
Proof.
  apply (array_all_or_nothing (fun a => a =? 116) 100 8 4 {[7]}).
  - lia.
  - apply (bool_decide_unpack _). vm_compute. exact I.
Defined.
