(* ===== verification/Optional.v ===== *)
(** * include/optional.hpp

    The optionals of a program are the entries of a store, named by numbers.  An
    optional is the flag [m_initialized] and the union behind it, which holds an
    object of the element type or none: [m_value] is the state of the object while
    its lifetime lasts.  Using an object outside of its lifetime is a fault, and so is
    destroying it twice.

    The element type is a parameter: what a move leaves in the source, and which of
    its constructors and assignments throw.  [trivial] selects the base class, as
    [optional_base_selector] does: [trivial_optional_base] copies the bytes and never
    runs a destructor, [non_trivial_optional_base] constructs and destroys.

    An exception that leaves a function declared noexcept ends the program:
    [terminated NoexceptViolation]. *)
From Stdlib Require Import ZArith Lia.
From stdpp Require Import base list gmap numbers option.
From S2P Require Import Prelude.

(** The element type.  An argument of a constructor that is not an object of the
    store is a value, or what the constructor throws when it is given it. *)
Class element (V : Type) := {
  trivial : bool;
  moved : V -> V;
  copy_fails : V -> option exn;
  move_fails : V -> option exn;
  assign_fails : V -> option exn;
}.

Record optional_object (V : Type) := mkOptional {
  m_initialized : bool;
  m_value : option V;
}.
Arguments mkOptional {V}.
Arguments m_initialized {V}.
Arguments m_value {V}.

(** A constructor call: the state of the new object, or an exception. *)
Definition ctor (V : Type) : Type := exn + V.

Section optional.
Context {V : Type} `{element V}.

Abbreviation store := (gmap nat (optional_object V)).
Implicit Types (o : nat) (v : V).

Definition read_opt o : M store (optional_object V) := s ← get; access (s !! o).
Definition write_opt o (x : optional_object V) : M store unit :=
  s ← get; match s !! o with Some _ => put (<[o := x]> s) | None => fault end.
Definition set_initialized o (b : bool) : M store unit :=
  x ← read_opt o; write_opt o (mkOptional b (m_value x)).
Definition set_value o (w : option V) : M store unit :=
  x ← read_opt o; write_opt o (mkOptional (m_initialized x) w).

(** A new optional comes into existence once its constructor returns. *)
Definition declare o (x : optional_object V) : M store unit :=
  s ← get; match s !! o with None => put (<[o := x]> s) | Some _ => fault end.

(** ** The element *)

(** The object in the storage of an optional. *)
Definition get_ref o : M store V := x ← read_opt o; access (m_value x).

(** [construct_at(get_ptr(), args...)]: a constructor that throws leaves no object. *)
Definition construct_at o (c : ctor V) : M store unit :=
  match c with
  | inr v => set_value o (Some v)
  | inl e => set_value o None;; throw e
  end.

Definition destroy_at o : M store unit := get_ref o;; set_value o None.

(** [*lhs = value]: the target of an assignment has to be alive. *)
Definition assign o (c : ctor V) : M store unit :=
  get_ref o;; match c with inr v => set_value o (Some v) | inl e => throw e end.

(** The argument of a constructor or an assignment: an object outside of the store
    (an lvalue is copied, an rvalue is moved). *)
Definition from_value (rvalue : bool) v : ctor V :=
  match (if rvalue then move_fails v else copy_fails v) with
  | Some e => inl e
  | None => inr v
  end.

Definition assigned v : ctor V :=
  match assign_fails v with Some e => inl e | None => inr v end.

(** The element of another optional, copied or moved from; the source of a move that
    throws keeps its value. *)
Definition copy_of o : M store (ctor V) := v ← get_ref o; mret (from_value false v).
Definition move_of o : M store (ctor V) :=
  v ← get_ref o;
  match move_fails v with
  | Some e => mret (inl e)
  | None => set_value o (Some (moved v));; mret (inr v)
  end.

(** ** common_optional_base *)

Definition has_value o : M store bool := x ← read_opt o; mret (m_initialized x).

Definition construct_from_args o (c : ctor V) : M store unit :=
  construct_at o c;; set_initialized o true.

(** ** Constructors *)

Definition optional_default o : M store unit := declare o (mkOptional false None).

(** [optional_storage(const Ty&)] and [optional_storage(Ty&&)] are noexcept,
    [optional_storage(U&&)] and [optional_storage(in_place_t, ...)] are so only when the
    constructor of the element is. *)
Definition optional_value (rvalue : bool) o v : M store unit :=
  noexcept match from_value rvalue v with
           | inr w => declare o (mkOptional true (Some w))
           | inl e => throw e
           end.

Definition optional_in_place o (c : ctor V) : M store unit :=
  match c with
  | inr v => declare o (mkOptional true (Some v))
  | inl e => throw e
  end.

(** The constructors of the base declare an empty optional and fill it in their body;
    when the body throws the optional does not come into existence. *)
Definition constructor o (body : M store unit) : M store unit := fun s =>
  match (optional_default o;; body) s with
  | Throw s' e => Throw (delete o s') e
  | r => r
  end.

Definition optional_copy o other : M store unit :=
  if trivial then x ← read_opt other; declare o x
  else constructor o (
    b ← has_value other;
    if b : bool then c ← copy_of other; construct_from_args o c else mret tt).

Definition optional_move o other : M store unit :=
  if trivial then x ← read_opt other; declare o x
  else constructor o (
    b ← has_value other;
    if b : bool then c ← move_of other; construct_from_args o c else mret tt).

(** [construct_from_value] assigns to the storage of the new optional.  For a trivially
    copyable type the assignment starts the lifetime of the element. *)
Definition construct_from_value o v : M store unit :=
  (if trivial then set_value o (Some v) else assign o (assigned v));;
  set_initialized o true.

(** The converting constructors of the non-trivial base; [convert] is the conversion of
    the element of the other optional. *)
Definition optional_convert (convert : V -> V) o other : M store unit :=
  constructor o (
    b ← has_value other;
    if b : bool then v ← get_ref other; construct_from_value o (convert v) else mret tt).

(** ** Modifiers *)

Definition reset_if_needed o : M store unit :=
  b ← has_value o; if b : bool then destroy_at o else mret tt.

Definition reset o : M store unit :=
  if trivial then set_initialized o false
  else reset_if_needed o;; set_initialized o false.

Definition emplace o (c : ctor V) : M store V :=
  (if trivial then mret tt else reset_if_needed o);;
  construct_from_args o c;; get_ref o.

(** [assign_or_emplace] is noexcept.  It is given how the element is assigned and how it
    is constructed. *)
Definition assign_or_emplace o (as_assigned as_made : M store (ctor V)) : M store unit :=
  noexcept (
    b ← has_value o;
    if b : bool then c ← as_assigned; assign o c
    else c ← as_made; construct_from_args o c).

Definition destroy_optional o : M store unit :=
  (if trivial then mret tt else reset_if_needed o);;
  read_opt o;; modify (delete o).

(** ** Assignment *)

Definition assign_nullopt o : M store unit := reset o.

Definition assigned_of o : M store (ctor V) := v ← get_ref o; mret (assigned v).
Definition assigned_move_of o : M store (ctor V) :=
  v ← get_ref o;
  match assign_fails v with
  | Some e => mret (inl e)
  | None => set_value o (Some (moved v));; mret (inr v)
  end.

Definition copy_assign o other : M store unit :=
  if trivial then x ← read_opt other; write_opt o x
  else if decide (other = o) then mret tt
  else b ← has_value other;
       if b : bool then assign_or_emplace o (assigned_of other) (copy_of other) else reset o.

Definition move_assign o other : M store unit :=
  if trivial then x ← read_opt other; write_opt o x
  else if decide (other = o) then mret tt
  else b ← has_value other;
       if b : bool then assign_or_emplace o (assigned_move_of other) (move_of other) else reset o.

(** Assignment from an optional of another type, of the trivial base. *)
Definition trivial_assign_convert (convert : V -> V) o other : M store unit :=
  b ← has_value other;
  if negb b then reset o else v ← get_ref other; construct_from_value o (convert v).

Definition assign_value (rvalue : bool) o v : M store unit :=
  if trivial then construct_from_value o v
  else assign_or_emplace o (mret (assigned v)) (mret (from_value rvalue v)).

(** ** Access *)

Definition value o : M store V :=
  b ← has_value o; if b : bool then get_ref o else throw bad_optional_access.

(** [value_or] on an lvalue and on an rvalue; the result is a new object. *)
Definition value_or (rvalue : bool) o (default_value : ctor V) : M store V :=
  b ← has_value o;
  c ← (if b : bool then if rvalue && negb trivial then move_of o else copy_of o
       else mret default_value);
  match c with inr v => mret v | inl e => throw e end.

(** ** Functions *)

(** [swap] of two objects of the element type (runtime/include/utility_impl.hpp), which
    makes a temporary. *)
Definition swap_elements lhs rhs : M store unit :=
  c ← move_of rhs;
  match c with
  | inl e => throw e
  | inr tmp =>
      d ← assigned_move_of lhs; assign rhs d;;
      assign lhs (assigned tmp)
  end.

(** [swap] of two optionals; [move( *not_empty)] is an argument of [emplace] and the
    element is moved from when its constructor runs. *)
Definition swap lhs rhs : M store unit :=
  lhs_not_empty ← has_value lhs;
  rhs_not_empty ← has_value rhs;
  if negb (xorb lhs_not_empty rhs_not_empty) then
    if lhs_not_empty then swap_elements lhs rhs else mret tt
  else
    let not_empty := if lhs_not_empty then lhs else rhs in
    let empty := if lhs_not_empty then rhs else lhs in
    c ← move_of not_empty;
    emplace empty c;;
    reset not_empty.

(** [make_optional(value)] names its parameter, so that the value is copied. *)
Definition make_optional o v : M store unit := optional_in_place o (from_value false v).

(** The hash of an optional reads its element without a test. *)
Definition hash_optional (hash : V -> Z) o : M store Z := v ← get_ref o; mret (hash v).

(** ** Comparison

    [cmp] are the six comparisons of the element type. *)
Inductive relop := EQ | NE | LT | LE | GT | GE.

Section compare.
Context (cmp : relop -> V -> V -> bool).

Definition opt_eq lhs rhs : M store bool :=
  lhs_not_empty ← has_value lhs;
  rhs_not_empty ← has_value rhs;
  if xorb lhs_not_empty rhs_not_empty then mret false
  else if negb lhs_not_empty then mret true
  else a ← get_ref lhs; b ← get_ref rhs; mret (cmp EQ a b).

Definition opt_ne lhs rhs : M store bool := b ← opt_eq lhs rhs; mret (negb b).

Definition opt_lt lhs rhs : M store bool :=
  rhs_not_empty ← has_value rhs;
  if negb rhs_not_empty then mret false
  else lhs_not_empty ← has_value lhs;
       if negb lhs_not_empty then mret true
       else a ← get_ref lhs; b ← get_ref rhs; mret (cmp LT a b).

Definition opt_gt lhs rhs : M store bool := opt_lt rhs lhs.
Definition opt_le lhs rhs : M store bool := b ← opt_gt lhs rhs; mret (negb b).
Definition opt_ge lhs rhs : M store bool := b ← opt_lt lhs rhs; mret (negb b).

Definition opt_cmp (r : relop) : nat -> nat -> M store bool :=
  match r with
  | EQ => opt_eq | NE => opt_ne | LT => opt_lt | LE => opt_le | GT => opt_gt | GE => opt_ge
  end.

(** Comparison with a value: the operators have one body, with the comparison of the
    elements in the order of the operands. *)
Definition opt_value_cmp (r : relop) o v : M store bool :=
  b ← has_value o; if negb b then mret false else a ← get_ref o; mret (cmp r a v).

Definition value_opt_cmp (r : relop) v o : M store bool :=
  b ← has_value o; if negb b then mret false else a ← get_ref o; mret (cmp r v a).
End compare.
End optional.
