(* ===== verification/OptionalTheorems.v ===== *)
(** * Optionals implement optional values

    The contract is a program on a finite map from the names of the optionals to
    [option V], which also says what is thrown.  [outcome_rel] relates the outcomes of
    the code and of the contract, exceptions included, so that a program may catch an
    exception and go on. *)
From Stdlib Require Import ZArith Lia.
From stdpp Require Import base list gmap numbers option.
From S2P Require Import Prelude Optional.

(** ** Operations of a program *)

Inductive optional_op (V : Type) :=
  | New (o : nat) | NewValue (rvalue : bool) (o : nat) (v : V)
  | NewInPlace (o : nat) (c : ctor V) | MakeOptional (o : nat) (v : V)
  | NewCopy (o other : nat) | NewMove (o other : nat) | Delete (o : nat)
  | Reset (o : nat) | AssignNull (o : nat) | Emplace (o : nat) (c : ctor V)
  | AssignCopy (o other : nat) | AssignMove (o other : nat)
  | AssignValue (rvalue : bool) (o : nat) (v : V)
  | Swap (lhs rhs : nat)
  | HasValue (o : nat) | Value (o : nat) | Deref (o : nat)
  | ValueOr (rvalue : bool) (o : nat) (c : ctor V)
  | Compare (r : relop) (lhs rhs : nat).
Arguments New {V}. Arguments NewValue {V}. Arguments NewInPlace {V}.
Arguments MakeOptional {V}. Arguments NewCopy {V}. Arguments NewMove {V}.
Arguments Delete {V}. Arguments Reset {V}. Arguments AssignNull {V}.
Arguments Emplace {V}. Arguments AssignCopy {V}. Arguments AssignMove {V}.
Arguments AssignValue {V}. Arguments Swap {V}. Arguments HasValue {V}.
Arguments Value {V}. Arguments Deref {V}. Arguments ValueOr {V}. Arguments Compare {V}.

Inductive optional_result (V : Type) := RUnit | RBool (b : bool) | RValue (v : V).
Arguments RUnit {V}.
Arguments RBool {V}.
Arguments RValue {V}.

(** A program that catches every exception: it records it and goes on.  Only the end of
    the program stops it. *)
Fixpoint run_caught {S Op R : Type} (step : Op -> M S R) (os : list Op)
    : M S (list (exn + R)) :=
  match os with
  | [] => mret []
  | op :: os => fun s =>
      match step op s with
      | Ok s' r => (rs ← run_caught step os; mret (inr r :: rs)) s'
      | Throw s' (terminated x) => Throw s' (terminated x)
      | Throw s' e => (rs ← run_caught step os; mret (inl e :: rs)) s'
      | Fault => Fault
      | Diverge => Diverge
      end
  end.

Section contract.
Context {V : Type} `{element V} (cmp : relop -> V -> V -> bool).
Abbreviation store := (gmap nat (optional_object V)).
Abbreviation amap := (gmap nat (option V)).

Definition optional_step (op : optional_op V) : M store (optional_result V) :=
  let unit_op (m : M store unit) := m;; mret RUnit in
  match op with
  | New o => unit_op (optional_default o)
  | NewValue rvalue o v => unit_op (optional_value rvalue o v)
  | NewInPlace o c => unit_op (optional_in_place o c)
  | MakeOptional o v => unit_op (make_optional o v)
  | NewCopy o other => unit_op (optional_copy o other)
  | NewMove o other => unit_op (optional_move o other)
  | Delete o => unit_op (destroy_optional o)
  | Reset o => unit_op (reset o)
  | AssignNull o => unit_op (assign_nullopt o)
  | Emplace o c => v ← emplace o c; mret (RValue v)
  | AssignCopy o other => unit_op (copy_assign o other)
  | AssignMove o other => unit_op (move_assign o other)
  | AssignValue rvalue o v => unit_op (assign_value rvalue o v)
  | Swap lhs rhs => unit_op (swap lhs rhs)
  | HasValue o => b ← has_value o; mret (RBool b)
  | Value o => v ← value o; mret (RValue v)
  | Deref o => v ← get_ref o; mret (RValue v)
  | ValueOr rvalue o c => v ← value_or rvalue o c; mret (RValue v)
  | Compare r lhs rhs => b ← opt_cmp cmp r lhs rhs; mret (RBool b)
  end.

(** ** The contract *)

Definition aget (o : nat) : M amap (option V) := a ← get; access (a !! o).
Definition aset (o : nat) (w : option V) : M amap unit := modify <[o := w]>.
Definition filled (w : option V) : bool := match w with Some _ => true | None => false end.
Definition made {A} (c : ctor V) (k : V -> M amap A) : M amap A :=
  match c with inr v => k v | inl e => throw e end.
Definition made_or_ends {A} (c : ctor V) (k : V -> M amap A) : M amap A :=
  match c with inr v => k v | inl _ => throw (terminated NoexceptViolation) end.

(** The standard order of optionals: an empty one is less than any other. *)
Definition option_cmp (r : relop) (x y : option V) : bool :=
  match x, y with
  | None, None => match r with EQ | LE | GE => true | _ => false end
  | None, Some _ => match r with NE | LT | LE => true | _ => false end
  | Some _, None => match r with NE | GT | GE => true | _ => false end
  | Some a, Some b => cmp r a b
  end.

Definition optional_spec (op : optional_op V) : M amap (optional_result V) :=
  match op with
  | New o => aset o None;; mret RUnit
  | NewValue rvalue o v =>
      made_or_ends (from_value rvalue v) (fun v => aset o (Some v);; mret RUnit)
  | NewInPlace o c => made c (fun v => aset o (Some v);; mret RUnit)
  | MakeOptional o v => made (from_value false v) (fun v => aset o (Some v);; mret RUnit)
  | NewCopy o other =>
      x ← aget other;
      match x with
      | None => aset o None;; mret RUnit
      | Some v => made (from_value false v) (fun v => aset o (Some v);; mret RUnit)
      end
  | NewMove o other =>
      x ← aget other;
      match x with
      | None => aset o None;; mret RUnit
      | Some v => made (from_value true v) (fun v =>
          aset other (Some (moved v));; aset o (Some v);; mret RUnit)
      end
  | Delete o => modify (delete o);; mret RUnit
  | Reset o | AssignNull o => aset o None;; mret RUnit
  | Emplace o c => made c (fun v => aset o (Some v);; mret (RValue v))
  | AssignCopy o other =>
      x ← aget other; y ← aget o;
      if decide (other = o) then mret RUnit
      else match x with
      | None => aset o None;; mret RUnit
      | Some v => made_or_ends (if filled y then assigned v else from_value false v) (fun v =>
          aset o (Some v);; mret RUnit)
      end
  | AssignMove o other =>
      x ← aget other; y ← aget o;
      if decide (other = o) then mret RUnit
      else match x with
      | None => aset o None;; mret RUnit
      | Some v => made_or_ends (if filled y then assigned v else from_value true v) (fun v =>
          aset other (Some (moved v));; aset o (Some v);; mret RUnit)
      end
  | AssignValue rvalue o v =>
      y ← aget o;
      made_or_ends (if filled y then assigned v else from_value rvalue v) (fun v =>
        aset o (Some v);; mret RUnit)
  | Swap lhs rhs =>
      x ← aget lhs; y ← aget rhs;
      match x, y with
      | Some v, Some w =>
          made (from_value true w) (fun w =>
          aset rhs (Some (moved w));; made (assigned v) (fun v =>
          aset lhs (Some (moved v));; aset rhs (Some v);; made (assigned w) (fun w =>
          aset lhs (Some w);; mret RUnit)))
      | Some v, None => made (from_value true v) (fun _ => aset lhs y;; aset rhs x;; mret RUnit)
      | None, Some v => made (from_value true v) (fun _ => aset lhs y;; aset rhs x;; mret RUnit)
      | None, None => mret RUnit
      end
  | HasValue o => x ← aget o; mret (RBool (filled x))
  | Value o =>
      x ← aget o;
      match x with Some v => mret (RValue v) | None => throw bad_optional_access end
  | Deref o => x ← aget o; v ← access x; mret (RValue v)
  | ValueOr rvalue o c =>
      x ← aget o;
      match x with
      | None => made c (fun v => mret (RValue v))
      | Some v => made (from_value (rvalue && negb trivial) v) (fun v =>
          aset o (Some (if rvalue then moved v else v));; mret (RValue v))
      end
  | Compare r lhs rhs =>
      x ← aget lhs; y ← aget rhs; mret (RBool (option_cmp r x y))
  end.

(** ** What the contract asks of the program *)

(** The name of a new optional is unused. *)
Definition unused (o : nat) (a : amap) : Prop := a !! o = None.
Definition exists_ (o : nat) (a : amap) : Prop := is_Some (a !! o).

(** Nothing but this: optionals are used while they exist, [*o] only when it is not
    empty, the constructor that [emplace] calls throws only when the optional is empty,
    and [swap] is given two optionals. *)
Definition optional_ok (op : optional_op V) (a : amap) : Prop :=
  match op with
  | New o | NewValue _ o _ | NewInPlace o _ | MakeOptional o _ => unused o a
  | NewCopy o other | NewMove o other => unused o a /\ exists_ other a
  | Delete o | Reset o | AssignNull o | AssignValue _ o _ | HasValue o | Value o
  | ValueOr _ o _ => exists_ o a
  | Emplace o c => match c with inr _ => exists_ o a | inl _ => a !! o = Some None end
  | AssignCopy o other | AssignMove o other | Compare _ o other => exists_ o a /\ exists_ other a
  | Deref o => exists v, a !! o = Some (Some v)
  | Swap lhs rhs => lhs <> rhs /\ exists_ lhs a /\ exists_ rhs a
  end.

(** ** The relation between the states *)

Definition opt_is (x : optional_object V) (w : option V) : Prop :=
  match w with
  | Some v => x = mkOptional true (Some v)
  | None => m_initialized x = false /\ (trivial = false -> m_value x = None)
  end.

Definition opts_are (s : store) (a : amap) : Prop :=
  forall o, option_Forall2 opt_is (s !! o) (a !! o).

Definition outcome_rel {A} (r : outcome store A) (q : outcome amap A) : Prop :=
  match r, q with
  | Ok s x, Ok a y => opts_are s a /\ x = y
  | Throw s e, Throw a e' => opts_are s a /\ e = e'
  | _, _ => False
  end.

(** What a trivially copyable type promises, and what the comparisons of an element do. *)
Class element_laws := {
  trivial_moved v : trivial = true -> moved v = v;
  trivial_copies v : trivial = true ->
    copy_fails v = None /\ move_fails v = None /\ assign_fails v = None;
  cmp_ne a b : cmp NE a b = negb (cmp EQ a b);
  cmp_gt a b : cmp GT a b = cmp LT b a;
  cmp_le a b : cmp LE a b = negb (cmp LT b a);
  cmp_ge a b : cmp GE a b = negb (cmp LT a b);
}.

(** ** Lemmas *)

Context `{!element_laws}.
Implicit Types (s : store) (a : amap) (o : nat) (w : option V).

Lemma opts_lookup s a o w :
  opts_are s a -> a !! o = Some w -> exists x, s !! o = Some x /\ opt_is x w.
Proof. intros Hs Ho. specialize (Hs o). rewrite Ho in Hs. inversion Hs; eauto. Qed.

Lemma opts_unused s a o : opts_are s a -> a !! o = None -> s !! o = None.
Proof. intros Hs Ho. specialize (Hs o). rewrite Ho in Hs. by inversion Hs. Qed.

(** Run the code and the contract on optionals whose state is known. *)
Ltac oexec :=
  cbv [optional_step optional_spec optional_default optional_value optional_in_place
       make_optional optional_copy optional_move constructor destroy_optional
       reset reset_if_needed assign_nullopt emplace construct_from_args construct_at
       copy_assign move_assign assign_value construct_from_value assign_or_emplace noexcept
       assign copy_of move_of assigned_of assigned_move_of swap swap_elements
       has_value value value_or get_ref destroy_at declare read_opt write_opt set_value
       set_initialized opt_cmp opt_eq opt_ne opt_lt opt_gt opt_le opt_ge
       aget aset made made_or_ends from_value assigned
       mbind M_bind mret M_ret get put modify access throw fault];
  repeat match goal with Ht : @trivial _ _ = _ |- _ => progress rewrite Ht end;
  repeat progress (simplify_map_eq; cbv beta iota zeta delta [m_initialized m_value negb xorb andb filled]).

(** The object of an empty optional of a non-trivial type. *)
Ltac triv :=
  destruct (trivial (V:=V)) eqn:Htriv; simplify_eq/=;
  repeat match goal with
  | H : false = false -> _ |- _ => specialize (H eq_refl); subst
  end.

Ltac pointwise :=
  let p := fresh "p" in intros p;
  repeat first [rewrite lookup_insert | rewrite lookup_delete];
  repeat case_decide; simplify_map_eq;
  try done;
  match goal with
  | Hs : opts_are _ _ |- option_Forall2 _ (_ !! ?q) (_ !! ?q) => apply (Hs q)
  | H : _ !! ?q = None |- option_Forall2 _ None (_ !! ?q) => rewrite H; constructor
  | _ => constructor; first [done | by split; [|congruence]]
  end.

Ltac related := split; [try done; try pointwise|try done].

Lemma exists_is s a o : opts_are s a -> exists_ o a ->
  exists w x, a !! o = Some w /\ s !! o = Some x /\ opt_is x w.
Proof. intros Hs [w Ho]. destruct (opts_lookup _ _ _ _ Hs Ho) as (x & ? & ?). eauto. Qed.

Lemma construct_ok s a op :
  opts_are s a -> optional_ok op a ->
  match op with
  | New _ | NewValue _ _ _ | NewInPlace _ _ | MakeOptional _ _ => True
  | _ => False
  end -> outcome_rel (optional_step op s) (optional_spec op a).
Proof.
  intros Hs Hok Hop. destruct op; try done; simpl in Hok; pose proof (opts_unused _ _ _ Hs Hok).
  - oexec. related.
  - oexec. destruct (if rvalue then _ else _); oexec; related.
  - oexec. destruct c; oexec; related.
  - oexec. destruct (copy_fails v); oexec; related.
Qed.

(** The optionals that an operation names. *)
Ltac known :=
  repeat match goal with
  | H : _ /\ _ |- _ => destruct H
  | Hs : opts_are ?s ?a, H : exists_ ?o ?a |- _ =>
      let w := fresh "w" in let x := fresh "x" in let Hx := fresh "Hx" in
      destruct (exists_is s a o Hs H) as (w & x & ? & ? & Hx); clear H
  | Hs : opts_are ?s ?a, H : unused ?o ?a |- _ =>
      pose proof (opts_unused s a o Hs H); unfold unused in H
  end;
  repeat match goal with
  | H : opt_is ?x ?w |- _ =>
      try (is_var w; destruct w); cbn [opt_is] in H;
      first [subst x | destruct x as [? ?]; cbn [m_initialized m_value] in H; destruct H as [-> ?]]
  end.

Lemma compare_ok s a r lhs rhs :
  opts_are s a -> exists_ lhs a -> exists_ rhs a ->
  outcome_rel (optional_step (Compare r lhs rhs) s) (optional_spec (Compare r lhs rhs) a).
Proof.
  intros Hs Hl Hr. known; destruct r; oexec; related;
    f_equal; symmetry; auto using cmp_ne, cmp_gt, cmp_le, cmp_ge.
Qed.

Lemma access_ok s a op :
  opts_are s a -> optional_ok op a ->
  match op with
  | HasValue _ | Value _ | Deref _ | Delete _ | Reset _ | AssignNull _ => True
  | _ => False
  end -> outcome_rel (optional_step op s) (optional_spec op a).
Proof.
  intros Hs Hok Hop. destruct op; try done; simpl in Hok.
  all: try (destruct Hok as [v Hok]; pose proof (mk_is_Some _ _ Hok); change (exists_ o a) in H1).
  all: known; triv; oexec; related.
Qed.

(** Copies of a trivially copyable type do not throw and leave the source as it was. *)
Ltac laws :=
  repeat match goal with
  | E : move_fails ?v = None |- context [move_fails ?v] => rewrite E
  | E : assign_fails ?v = None |- context [assign_fails ?v] => rewrite E
  | Ht : @trivial _ _ = true |- context [copy_fails ?v] =>
      destruct (trivial_copies v Ht) as (-> & ? & ?)
  | Ht : @trivial _ _ = true |- context [move_fails ?v] =>
      destruct (trivial_copies v Ht) as (? & -> & ?)
  | Ht : @trivial _ _ = true |- context [assign_fails ?v] =>
      destruct (trivial_copies v Ht) as (? & ? & ->)
  | Ht : @trivial _ _ = true |- context [moved ?v] => rewrite (trivial_moved v Ht)
  end.

(** Whether the constructors and assignments that are left throw. *)
Ltac fails :=
  repeat match goal with
  | |- context [match copy_fails ?v with _ => _ end] => destruct (copy_fails v) eqn:?
  | |- context [match move_fails ?v with _ => _ end] => destruct (move_fails v) eqn:?
  | |- context [match assign_fails ?v with _ => _ end] => destruct (assign_fails v) eqn:?
  end.

Lemma new_from_ok s a op :
  opts_are s a -> optional_ok op a ->
  match op with NewCopy _ _ | NewMove _ _ => True | _ => False end ->
  outcome_rel (optional_step op s) (optional_spec op a).
Proof.
  intros Hs Hok Hop. destruct op; try done; simpl in Hok; known.
  all: assert (other <> o) by congruence.
  all: triv; oexec; laws; fails; oexec; related.
Qed.

Lemma emplace_ok s a o c :
  opts_are s a -> optional_ok (Emplace o c) a ->
  outcome_rel (optional_step (Emplace o c) s) (optional_spec (Emplace o c) a).
Proof.
  intros Hs Hok. simpl in Hok.
  assert (exists_ o a) by (destruct c; [by eexists|done]).
  destruct c; known; triv; oexec; related.
Qed.

Lemma opt_assign_ok s a op :
  opts_are s a -> optional_ok op a ->
  match op with
  | AssignCopy _ _ | AssignMove _ _ | AssignValue _ _ _ | ValueOr _ _ _ => True
  | _ => False
  end -> outcome_rel (optional_step op s) (optional_spec op a).
Proof.
  intros Hs Hok Hop. destruct op; try done; simpl in Hok.
  1, 2: destruct (decide (other = o)) as [->|].
  all: try destruct c; known; triv; oexec; rewrite ?decide_True, ?decide_False by done;
    try destruct rvalue; oexec; laws; fails; oexec; laws; related.
Qed.

Lemma opt_swap_ok s a lhs rhs :
  opts_are s a -> optional_ok (Swap lhs rhs) a ->
  outcome_rel (optional_step (Swap lhs rhs) s) (optional_spec (Swap lhs rhs) a).
Proof.
  intros Hs (Hne & Hl & Hr). known; triv; oexec; laws; fails; oexec; laws; fails; oexec; related.
Qed.

Lemma step_ok s a op :
  opts_are s a -> optional_ok op a ->
  outcome_rel (optional_step op s) (optional_spec op a).
Proof.
  intros Hs Hok. destruct op; eauto using construct_ok, new_from_ok, opt_assign_ok, access_ok,
    emplace_ok, opt_swap_ok.
  destruct Hok; by apply compare_ok.
Qed.

(** Every operation is supported where it is called, by the contract. *)
Fixpoint caught_ok (os : list (optional_op V)) (a : amap) : Prop :=
  match os with
  | [] => True
  | op :: os => optional_ok op a /\
      match optional_spec op a with
      | Throw _ (terminated _) => True
      | Ok a' _ | Throw a' _ => caught_ok os a'
      | _ => True
      end
  end.

Lemma run_caught_ok os s a :
  opts_are s a -> caught_ok os a ->
  outcome_rel (run_caught optional_step os s) (run_caught optional_spec os a).
Proof.
  revert s a. induction os as [|op os IH]; intros s a Hs Hok; [done|].
  destruct Hok as [Ho Hos]. pose proof (step_ok s a op Hs Ho) as Hstep.
  assert (Hrest : forall s a r, opts_are s a -> caught_ok os a ->
    outcome_rel ((rs ← run_caught optional_step os; mret (r :: rs)) s)
      ((rs ← run_caught optional_spec os; mret (r :: rs)) a)).
  { intros s1 a1 r H1 H2. specialize (IH s1 a1 H1 H2). unfold mbind, M_bind.
    destruct (run_caught optional_step os s1), (run_caught optional_spec os a1); try done;
      destruct IH as [? ->]; split; done. }
  cbn [run_caught]. destruct (optional_step op s) as [s1 r|s1 e| |],
    (optional_spec op a) as [a1 r'|a1 e'| |]; try done; destruct Hstep as [Hrel ->].
  - by apply Hrest.
  - destruct e'; try by apply Hrest. done.
Qed.

(** The values that the optionals of a store represent, and the stores that represent
    some: an optional that says it holds an element does, and one of a non-trivial type
    that says it is empty holds none. *)
Definition represented (x : optional_object V) : option V :=
  if m_initialized x then m_value x else None.

Definition well_typed (s : store) : Prop :=
  forall o x, s !! o = Some x ->
    (m_initialized x = true -> is_Some (m_value x)) /\
    (m_initialized x = false -> trivial = false -> m_value x = None).

Lemma typed_represents s : well_typed s <-> opts_are s (represented <$> s).
Proof.
  split.
  - intros Hs o. rewrite lookup_fmap. destruct (s !! o) as [x|] eqn:Ho; simpl; constructor.
    destruct (Hs _ _ Ho) as [H1 H2], x as [[] ?]; cbn in *; [|by split; auto].
    by destruct H1 as [v ->].
  - intros Hs o x Ho. specialize (Hs o). rewrite lookup_fmap, Ho in Hs.
    inversion_clear Hs as [? ? Hy|]. destruct x as [[] [v|]]; cbn in *; naive_solver.
Qed.

Lemma opts_are_typed s a : opts_are s a -> well_typed s.
Proof.
  intros Hs o x Ho. specialize (Hs o). rewrite Ho in Hs. inversion Hs as [? w Hx|]; subst.
  destruct w; cbn in Hx; [by subst|]. destruct Hx. split; [congruence|auto].
Qed.

(** ** Properties *)

(** C16: A program that uses any number of optionals, of a trivially copyable type or of
    another, and goes on after every exception it catches, has the results, the
    exceptions and the final contents that the same program has on a map of optional
    values, or both end with the same violation of noexcept.  In particular no element
    is used outside of its lifetime or destroyed twice.  The limits ([optional_ok]):
    optionals are used while they exist, [*o] when it is full, [swap] on two different
    optionals, and [emplace] is given a constructor that throws only when the optional is
    empty ([emplace_throw_destroys_twice] is the other case); the converting constructors and
    assignments are not among the operations ([convert_assigns_to_no_object]). *)
Theorem optionals_refine_options (os : list (optional_op V)) s a :
  opts_are s a -> caught_ok os a ->
  match run_caught (optional_step) os s, run_caught (optional_spec) os a with
  | Ok s' rs, Ok a' rs' => opts_are s' a' /\ rs = rs'
  | Throw s' e, Throw a' e' => opts_are s' a' /\ e = e'
  | _, _ => False
  end.
Proof. intros Hs Hok. exact (run_caught_ok os s a Hs Hok). Qed.

(** C28: The flag of an optional tells whether its element is alive: operations on
    optionals of which this is true do not fault, and it is true again afterwards,
    whether they return or throw.  This is about the operations of
    [optionals_refine_options] under its limits [optional_ok]: a constructor that throws in
    [emplace] on a full optional breaks it, and conversions are left out. *)
Theorem optional_types_preserved (op : optional_op V) s :
  well_typed s -> optional_ok op (represented <$> s) ->
  match optional_step op s with
  | Ok s' _ | Throw s' _ => well_typed s'
  | Fault | Diverge => False
  end.
Proof.
  intros Hs Hok. apply typed_represents in Hs as Hr.
  pose proof (step_ok s _ op Hr Hok) as Hstep.
  destruct (optional_step op s), (optional_spec op _); try done;
    destruct Hstep; by eapply opts_are_typed.
Qed.

(** A constructor that throws in [emplace], called on an optional of a non-trivial
    type that holds an element, leaves the optional marked as holding one although the
    old element was destroyed: destroying or resetting the optional, as the end of its
    scope does, destroys the element a second time. *)
Theorem emplace_throw_destroys_twice s o v e :
  trivial = false -> s !! o = Some (mkOptional true (Some v)) ->
  exists s', emplace o (inl e) s = Throw s' e /\
    has_value o s' = Ok s' true /\ get_ref o s' = Fault /\
    reset o s' = Fault /\ destroy_optional o s' = Fault.
Proof.
  intros Htriv Ho. exists (<[o := mkOptional true None]> s).
  repeat split; oexec; by rewrite ?insert_insert_eq.
Qed.

(** The converting constructor assigns to an element that does not exist. *)
Theorem convert_assigns_to_no_object s convert o other v :
  trivial = false -> s !! o = None -> s !! other = Some (mkOptional true (Some v)) ->
  optional_convert convert o other s = Fault.
Proof.
  intros Htriv Ho Hp. assert (other <> o) by congruence.
  unfold optional_convert. by oexec.
Qed.

(** The comparison of an optional with a value is that of the value with the content
    where there is one; an empty optional makes every operator false, also [!=], [<] and
    [<=], which hold for an empty optional and the optional of the value. *)
Theorem compare_with_value r s o w v :
  opts_are s {[ o := w ]} ->
  opt_value_cmp cmp r o v s = Ok s (filled w && option_cmp r w (Some v)) /\
  value_opt_cmp cmp r v o s = Ok s (filled w && option_cmp r (Some v) w).
Proof.
  intros Hs. destruct (opts_lookup s _ o w Hs) as (x & Hx & Hw); [by simplify_map_eq|].
  destruct w; cbn in Hw; [subst x|destruct x; cbn in Hw; destruct Hw as [-> ?]];
    split; unfold opt_value_cmp, value_opt_cmp; oexec; done.
Qed.

End contract.

(** ** Instances *)

(** An element like a string: a number, of which a move leaves zero, and which cannot be
    copied when it is larger than 9. *)
#[local] Instance demo_element : element Z := {
  trivial := false;
  moved _ := 0%Z;
  copy_fails v := if (9 <? v)%Z then Some bad_alloc else None;
  move_fails _ := None;
  assign_fails v := if (99 <? v)%Z then Some bad_alloc else None;
}.

Definition demo_cmp (r : relop) (a b : Z) : bool :=
  match r with
  | EQ => (a =? b)%Z | NE => negb (a =? b)%Z | LT => (a <? b)%Z
  | GT => (b <? a)%Z | LE => negb (b <? a)%Z | GE => negb (a <? b)%Z
  end.

#[local] Instance demo_laws : element_laws demo_cmp.
Proof. by split. Qed.

Definition demo_program : list (optional_op Z) :=
  [New 0; NewInPlace 1 (inr 12%Z); NewInPlace 2 (inl overflow_error); NewCopy 2 1;
   NewMove 2 1; HasValue 1; Deref 1; Emplace 0 (inl runtime_error); Swap 0 2; Value 2;
   AssignCopy 1 0; Compare EQ 0 1; ValueOr true 0 (inr 5%Z); Delete 1].

Definition demo_results : list (exn + optional_result Z) :=
  [inr RUnit; inr RUnit; inl overflow_error; inl bad_alloc;
   inr RUnit; inr (RBool true); inr (RValue 0%Z); inl runtime_error; inr RUnit;
   inl bad_optional_access;
   inr RUnit; inr (RBool true); inr (RValue 12%Z); inr RUnit].

Lemma optionals_refine_options_witness :
  exists s' a', run_caught (optional_step demo_cmp) demo_program ∅ = Ok s' demo_results /\
    run_caught (optional_spec demo_cmp) demo_program ∅ = Ok a' demo_results /\
    opts_are s' a'.
Proof.
  pose proof (optionals_refine_options demo_cmp demo_program ∅ ∅) as Hrun.
  destruct (run_caught (optional_step demo_cmp) demo_program ∅) as [s' rs| | |] eqn:Es;
    vm_compute in Es; simplify_eq.
  destruct (run_caught (optional_spec demo_cmp) demo_program ∅) as [a' rs'| | |] eqn:Ea;
    vm_compute in Ea; simplify_eq.
  eexists _, _. split; [reflexivity|]. split; [reflexivity|].
  apply Hrun; [intros o; rewrite !lookup_empty; constructor|].
  vm_compute; repeat split; try done; eauto.
Defined.

Definition demo_store : gmap nat (optional_object Z) :=
  {[ 0 := mkOptional true (Some 12%Z); 1 := mkOptional false None ]}.

Lemma demo_typed : well_typed demo_store.
Proof.
  intros o x Hx. unfold demo_store in Hx.
  apply lookup_insert_Some in Hx as [[<- <-]|[? Hx]]; [by split; eauto|].
  apply lookup_singleton_Some in Hx as [<- <-]. by split.
Qed.

Lemma optional_types_preserved_witness :
  exists s' e, optional_step demo_cmp (NewCopy 2 0) demo_store = Throw s' e /\ well_typed s'.
Proof.
  pose proof (optional_types_preserved demo_cmp (NewCopy 2 0) demo_store demo_typed) as Hop.
  eexists _, _. split; [vm_compute; reflexivity|].
  apply Hop. vm_compute; split; eauto.
Defined.

Lemma emplace_throw_destroys_twice_witness :
  exists s', emplace 0 (inl bad_alloc) demo_store = Throw s' bad_alloc /\
    has_value 0 s' = Ok s' true /\ get_ref 0 s' = Fault /\
    reset 0 s' = Fault /\ destroy_optional 0 s' = Fault.
Proof. apply (emplace_throw_destroys_twice demo_store 0 12%Z bad_alloc); reflexivity. Defined.

Lemma convert_assigns_to_no_object_witness :
  optional_convert Z.succ 2 0 demo_store = Fault.
Proof. apply (convert_assigns_to_no_object demo_store Z.succ 2 0 12%Z); reflexivity. Defined.

Lemma compare_with_value_witness :
  opt_value_cmp demo_cmp NE 1 12%Z {[ 1 := mkOptional false None ]}
    = Ok {[ 1 := mkOptional false None ]} false.
Proof.
  apply (compare_with_value demo_cmp NE {[ 1 := mkOptional false None ]} 1 None 12%Z).
  intros o. destruct (decide (o = 1)) as [->|];
    rewrite ?lookup_singleton_eq, ?lookup_singleton_ne by done; by constructor.
Defined.
