(* ===== verification/Heap.v ===== *)
(** * The heap: runtime/src/heap.cpp, src/new_delete.cpp and include/allocator.hpp

    Every allocation of the library is a request to the pool allocator of the kernel,
    which is a parameter ([kernel_heap]): it returns a block that overlaps no other, at
    an address that is a multiple of 16, of the size of a cache line for the
    cache-aligned pools, and of a page for a block of at least a page.  Freeing a block
    that is not in use, or with the tag of another owner, is a fault.

    [operator new] calls the new-handler of the program as long as there is no memory;
    what the handler does is a parameter, and the number of rounds is an argument. *)
From Stdlib Require Import ZArith Lia.
From stdpp Require Import base list gmap numbers.
From S2P Require Import Prelude.
#[local] Open Scope Z_scope.

(** The POOL_TYPE values that the code names; the others behave alike. *)
Inductive pool_type_t :=
  | NonPagedPool | PagedPool
  | NonPagedPoolCacheAligned | PagedPoolCacheAligned
  | NonPagedPoolCacheAlignedMustS | NonPagedPoolCacheAlignedSession
  | PagedPoolCacheAlignedSession | NonPagedPoolCacheAlignedMustSSession
  | NonPagedPoolNxCacheAligned
  | OtherPool (value : Z).

#[export] Instance pool_type_eq_dec : EqDecision pool_type_t.
Proof. solve_decision. Defined.

Definition MEMORY_PAGE_SIZE : Z := 4096.
Definition CACHE_LINE_ALLOCATION_ALIGNMENT : Z := 64.
Definition DEFAULT_ALLOCATION_ALIGNMENT : Z := 16.
Definition MAX_ALLOCATION_ALIGNMENT : Z := MEMORY_PAGE_SIZE.
Definition MAX_ALLOCATION_IRQL : Z := 2.

Definition get_max_alignment_for_pool (pool_type : pool_type_t) : Z :=
  match pool_type with
  | NonPagedPoolCacheAligned | PagedPoolCacheAligned | NonPagedPoolCacheAlignedMustS
  | NonPagedPoolCacheAlignedSession | PagedPoolCacheAlignedSession
  | NonPagedPoolCacheAlignedMustSSession | NonPagedPoolNxCacheAligned =>
      CACHE_LINE_ALLOCATION_ALIGNMENT
  | _ => DEFAULT_ALLOCATION_ALIGNMENT
  end.

(** [alloc_request] and [free_request]. *)
Record alloc_request := AllocRequest {
  bytes_count : Z; pool_type : pool_type_t; alignment : Z; pool_tag : Z }.
Record free_request := FreeRequest {
  memory_block : Z; free_bytes_count : Z; free_alignment : Z; free_pool_tag : Z }.

(** Blocks in use, by address: size and tag. *)
Abbreviation live_blocks := (gmap Z (Z * Z)).

(** Two ranges of addresses have no byte in common. *)
Definition apart (a n b m : Z) : Prop := a + n <= b \/ b + m <= a \/ n <= 0 \/ m <= 0.

Class kernel_heap := {
  ExAllocatePoolUninitialized : live_blocks -> pool_type_t -> Z -> Z -> option Z;
  pool_address live pool n tag a :
    ExAllocatePoolUninitialized live pool n tag = Some a ->
    0 < a /\ live !! a = None /\ a mod get_max_alignment_for_pool pool = 0 /\
    (MEMORY_PAGE_SIZE <= n -> a mod MEMORY_PAGE_SIZE = 0);
  pool_apart live pool n tag a b m t :
    ExAllocatePoolUninitialized live pool n tag = Some a ->
    live !! b = Some (m, t) -> apart a n b m;
}.

(** [new_handler] names a function of the program, if there is one. *)
Record heap_state := HeapState {
  live : live_blocks;
  irql : Z;
  new_handler : option nat }.

Definition set_live (l : live_blocks) (s : heap_state) : heap_state :=
  HeapState l (irql s) (new_handler s).
Definition put_handler (h : option nat) (s : heap_state) : heap_state :=
  HeapState (live s) (irql s) h.

(** [debug]: the library is built with KTL_RUNTIME_DBG.  [call_handler]: the functions
    of the program that it installs as new-handlers. *)
Class heap_program := {
  debug : bool;
  call_handler : nat -> M heap_state unit;
}.

Section heap.
Context `{K : kernel_heap} `{P : heap_program}.

Definition crt_assert (cond : bool) : M heap_state unit :=
  if debug && negb cond then throw (terminated AssertionFailure) else mret tt.

(** ** heap.cpp *)

Definition ex_allocate (pool : pool_type_t) (n tag : Z) : M heap_state Z :=
  s ← get;
  match ExAllocatePoolUninitialized (live s) pool n tag with
  | Some a => _ ← put (set_live (<[a := (n, tag)]> (live s)) s); mret a
  | None => mret 0
  end.

Definition ex_free (a tag : Z) : M heap_state unit :=
  s ← get;
  '(_, t) ← access (live s !! a);
  if t =? tag then put (set_live (delete a (live s)) s) else fault.

Definition allocate_impl (request : alloc_request) : M heap_state Z :=
  _ ← crt_assert (negb (pool_tag request =? 0));
  s ← get;
  _ ← crt_assert (irql s <=? MAX_ALLOCATION_IRQL);
  if alignment request <=? get_max_alignment_for_pool (pool_type request)
  then ex_allocate (pool_type request) (bytes_count request) (pool_tag request)
  else
    _ ← crt_assert (alignment request <=? MAX_ALLOCATION_ALIGNMENT);
    let page_aligned_size := Z.max (bytes_count request) MAX_ALLOCATION_ALIGNMENT in
    ex_allocate (pool_type request) page_aligned_size (pool_tag request).

Definition deallocate_impl (a tag : Z) : M heap_state unit :=
  _ ← crt_assert (negb (a =? 0));
  _ ← crt_assert (negb (tag =? 0));
  ex_free a tag.

(** [allocate_memory]; a null pointer is 0. *)
Definition allocate_memory (throwing : bool) (request : alloc_request) : M heap_state Z :=
  memory ← allocate_impl request;
  if throwing && (memory =? 0) then throw bad_alloc else mret memory.

Definition deallocate_memory (request : free_request) : M heap_state unit :=
  if negb (memory_block request =? 0)
  then deallocate_impl (memory_block request) (free_pool_tag request) else mret tt.

(** ** new_delete.cpp *)

(** 'dLTK'. *)
Definition DEFAULT_HEAP_TAG : Z := 1682723915.
Definition DEFAULT_NEW_ALIGNMENT : Z := DEFAULT_ALLOCATION_ALIGNMENT.

Definition get_new_handler : M heap_state (option nat) := s ← get; mret (new_handler s).
Definition set_new_handler (h : option nat) : M heap_state (option nat) :=
  s ← get; _ ← put (put_handler h s); mret (new_handler s).

Fixpoint operator_new_loop (throwing : bool) (bytes_count alignment : Z)
    (pool_type : pool_type_t) (rounds : nat) : M heap_state Z :=
  match rounds with
  | O => diverge
  | S rounds =>
      memory ← allocate_memory false
        (AllocRequest bytes_count pool_type alignment DEFAULT_HEAP_TAG);
      if negb (memory =? 0) then mret memory
      else
        h ← get_new_handler;
        match h with
        | Some handler =>
            _ ← call_handler handler;
            operator_new_loop throwing bytes_count alignment pool_type rounds
        | None =>
            if throwing then throw bad_alloc
            else operator_new_loop throwing bytes_count alignment pool_type rounds
        end
  end.

(** [operator_new_impl], noexcept unless it may throw bad_alloc. *)
Definition operator_new_impl (throwing : bool) (bytes_count alignment : Z)
    (pool_type : pool_type_t) (rounds : nat) : M heap_state Z := fun s =>
  match operator_new_loop throwing bytes_count alignment pool_type rounds s with
  | Throw s' (terminated r) => Throw s' (terminated r)
  | Throw s' e => if throwing then Throw s' e else Throw s' (terminated NoexceptViolation)
  | r => r
  end.

(** The arguments of the overloads of [operator new]: an alignment, a tag for the kind of
    memory, [nothrow].  Without a tag the kind is the one the library is built for. *)
Inductive new_tag := paged_new | non_paged_new.
Record new_form := NewForm {
  form_alignment : option Z; form_tag : option new_tag; form_nothrow : bool }.

Definition pool_of_tag (default_non_paged : bool) (t : option new_tag) : pool_type_t :=
  match t with
  | Some paged_new => PagedPool
  | Some non_paged_new => NonPagedPool
  | None => if default_non_paged then NonPagedPool else PagedPool
  end.

Definition operator_new (default_non_paged : bool) (form : new_form) (bytes_count : Z)
    (rounds : nat) : M heap_state Z :=
  operator_new_impl (negb (form_nothrow form)) bytes_count
    (default DEFAULT_NEW_ALIGNMENT (form_alignment form))
    (pool_of_tag default_non_paged (form_tag form)) rounds.

Definition operator_delete_impl (memory bytes_count alignment : Z) : M heap_state unit :=
  deallocate_memory (FreeRequest memory bytes_count alignment DEFAULT_HEAP_TAG).

(** The overloads of [operator delete] take a size and an alignment, if any, and ignore
    tags and [nothrow]. *)
Definition operator_delete (memory : Z) (size align : option Z) : M heap_state unit :=
  operator_delete_impl memory (default 0 size) (default DEFAULT_NEW_ALIGNMENT align).

(** ** allocator.hpp *)

(** [aligned_allocator] and [tagged_allocator]. *)
Inductive allocator :=
  | aligned_allocator (tag : new_tag) (Alignment : Z)
  | tagged_allocator (PoolType : pool_type_t) (Alignment : Z) (m_pool_tag : Z).

Definition allocate_bytes (alc : allocator) (bytes_count : Z) (rounds : nat) : M heap_state Z :=
  match alc with
  | aligned_allocator tag Alignment =>
      operator_new false (NewForm (Some Alignment) (Some tag) false) bytes_count rounds
  | tagged_allocator PoolType Alignment m_pool_tag =>
      allocate_memory true (AllocRequest bytes_count PoolType Alignment m_pool_tag)
  end.

Definition deallocate_bytes (alc : allocator) (ptr bytes_count : Z) : M heap_state unit :=
  match alc with
  | aligned_allocator _ Alignment => operator_delete ptr (Some bytes_count) (Some Alignment)
  | tagged_allocator _ Alignment m_pool_tag =>
      deallocate_memory (FreeRequest ptr bytes_count Alignment m_pool_tag)
  end.

Definition allocate (sizeof_value : Z) (alc : allocator) (object_count : Z) (rounds : nat)
    : M heap_state Z :=
  allocate_bytes alc (u64 (object_count * sizeof_value)) rounds.

Definition deallocate (sizeof_value : Z) (alc : allocator) (ptr object_count : Z)
    : M heap_state unit :=
  deallocate_bytes alc ptr (u64 (object_count * sizeof_value)).

(** [allocator_traits::max_size] of an allocator that does not define its own, and
    [alc::details::allocators_are_equal]. *)
Definition alloc_max_size (sizeof_value : Z) : Z := (2 ^ 64 - 1) / sizeof_value.

Definition allocators_are_equal (lhs rhs : allocator) : bool :=
  match lhs, rhs with
  | tagged_allocator _ _ t1, tagged_allocator _ _ t2 => t1 =? t2
  | _, _ => true
  end.
End heap.
