(* ===== verification/HeapTheorems.v ===== *)
(** * operator new, operator delete and the allocators

    Memory comes with the alignment that was asked for, overlaps nothing and is
    returned by any form of [operator delete]; the new-handler is called until there is
    memory; the nothrow forms never report that there is none. *)
From Stdlib Require Import ZArith Lia.
From stdpp Require Import base list gmap numbers.
From S2P Require Import Prelude Heap.
#[local] Open Scope Z_scope.

(** The alignments C++ allows, up to a page. *)
Definition valid_alignment (a : Z) : Prop := exists k, 0 <= k <= 12 /\ a = 2 ^ k.

Lemma pow2_multiple p j k : 0 <= j <= k -> p mod 2 ^ k = 0 -> p mod 2 ^ j = 0.
Proof.
  intros Hj Hp. replace k with (j + (k - j)) in Hp by lia. rewrite Z.pow_add_r in Hp by lia.
  pose proof (Z.pow_pos_nonneg 2 j). pose proof (Z.pow_pos_nonneg 2 (k - j)).
  apply Z.mod_divide; [lia|]. apply Z.mod_divide in Hp as [q ->]; [|lia].
  exists (q * 2 ^ (k - j)). lia.
Qed.

Section heap.
Context `{K : kernel_heap} `{P : heap_program}.
Implicit Types s : heap_state.

(** The bytes that a request takes from the pool. *)
Definition block_size (bytes_count alignment : Z) (pool : pool_type_t) : Z :=
  if alignment <=? get_max_alignment_for_pool pool then bytes_count
  else Z.max bytes_count MAX_ALLOCATION_ALIGNMENT.

Definition calm s : Prop := irql s <= MAX_ALLOCATION_IRQL.

Lemma crt_assert_ok b s : b = true -> crt_assert b s = Ok s tt.
Proof. intros ->. unfold crt_assert. by rewrite andb_false_r. Qed.

Lemma allocate_impl_ok bytes pool a tag s :
  calm s -> valid_alignment a -> tag <> 0 ->
  allocate_impl (AllocRequest bytes pool a tag) s =
    match ExAllocatePoolUninitialized (live s) pool (block_size bytes a pool) tag with
    | Some p => Ok (set_live (<[p := (block_size bytes a pool, tag)]> (live s)) s) p
    | None => Ok s 0
    end.
Proof.
  intros Hs (k & Hk & ->) Htag. unfold allocate_impl. cbn [pool_tag alignment pool_type bytes_count].
  step (crt_assert_ok (negb (tag =? 0)) s ltac:(lia)).
  erewrite bind_Ok by reflexivity.
  step (crt_assert_ok (irql s <=? MAX_ALLOCATION_IRQL) s ltac:(unfold calm in Hs; lia)).
  unfold block_size, ex_allocate. destruct (2 ^ k <=? get_max_alignment_for_pool pool).
  - erewrite bind_Ok by reflexivity. by destruct (ExAllocatePoolUninitialized _ _ _ _).
  - step (crt_assert_ok (2 ^ k <=? MAX_ALLOCATION_ALIGNMENT) s
      ltac:(pose proof (Z.pow_le_mono_r 2 k 12); unfold MAX_ALLOCATION_ALIGNMENT, MEMORY_PAGE_SIZE; lia)).
    erewrite bind_Ok by reflexivity. by destruct (ExAllocatePoolUninitialized _ _ _ _).
Qed.

(** A block the kernel grants has the alignment and the size of the request. *)
Lemma block_fits bytes a pool tag s p :
  valid_alignment a ->
  ExAllocatePoolUninitialized (live s) pool (block_size bytes a pool) tag = Some p ->
  0 < p /\ live s !! p = None /\ p mod a = 0 /\ bytes <= block_size bytes a pool.
Proof.
  intros (k & Hk & ->) Hp. pose proof (pool_address _ _ _ _ _ Hp) as (Hpos & Hnew & Hal & Hpage).
  repeat split; try done.
  - unfold block_size in Hp, Hpage. destruct (Z.leb_spec (2 ^ k) (get_max_alignment_for_pool pool)) as [Hle|Hgt].
    + assert (exists j, 0 <= j /\ get_max_alignment_for_pool pool = 2 ^ j) as (j & Hj & Ej).
      { destruct pool; first [by exists 6|by exists 4]. }
      rewrite Ej in *. apply (pow2_multiple p k j); [|done]. split; [lia|].
      by apply (Z.pow_le_mono_r_iff 2).
    + apply (pow2_multiple p k 12); [lia|]. apply Hpage. unfold MAX_ALLOCATION_ALIGNMENT; lia.
  - unfold block_size. destruct (_ <=? _); lia.
Qed.

Lemma deallocate_memory_ok p n m a tag s :
  p <> 0 -> tag <> 0 -> live s !! p = Some (n, tag) ->
  deallocate_memory (FreeRequest p m a tag) s = Ok (set_live (delete p (live s)) s) tt.
Proof.
  intros Hp Htag Hl. unfold deallocate_memory, deallocate_impl, ex_free. cbn [memory_block free_pool_tag].
  replace (negb (p =? 0)) with true by lia.
  step (crt_assert_ok true s eq_refl). step (crt_assert_ok (negb (tag =? 0)) s ltac:(lia)).
  erewrite bind_Ok by reflexivity. rewrite Hl, access_bind. cbn. by rewrite Z.eqb_refl.
Qed.

Definition form_ok (form : new_form) : Prop :=
  match form_alignment form with Some a => valid_alignment a | None => True end.
Definition alignment_of_form (form : new_form) : Z := default DEFAULT_NEW_ALIGNMENT (form_alignment form).

Lemma form_alignment_ok form : form_ok form -> valid_alignment (alignment_of_form form).
Proof.
  unfold form_ok, alignment_of_form. destruct (form_alignment form); [done|].
  intros _. by exists 4.
Qed.

(** The block a form asks for. *)
Definition requested (np : bool) (form : new_form) (bytes : Z) : Z :=
  block_size bytes (alignment_of_form form) (pool_of_tag np (form_tag form)).
Definition granted (np : bool) (form : new_form) (bytes : Z) s : option Z :=
  ExAllocatePoolUninitialized (live s) (pool_of_tag np (form_tag form))
    (requested np form bytes) DEFAULT_HEAP_TAG.

Lemma new_request np form bytes s :
  calm s -> form_ok form ->
  allocate_memory false (AllocRequest bytes (pool_of_tag np (form_tag form))
    (alignment_of_form form) DEFAULT_HEAP_TAG) s =
  match granted np form bytes s with
  | Some p => Ok (set_live (<[p := (requested np form bytes, DEFAULT_HEAP_TAG)]> (live s)) s) p
  | None => Ok s 0
  end.
Proof.
  intros Hs Hf. unfold allocate_memory, mbind, M_bind.
  rewrite allocate_impl_ok by (done || by apply form_alignment_ok).
  fold (requested np form bytes). fold (granted np form bytes s). by destruct (granted _ _ _ _).
Qed.

(** One round of the loop that finds memory. *)
Lemma new_loop_granted throwing np form bytes s p n :
  calm s -> form_ok form -> granted np form bytes s = Some p ->
  operator_new_loop throwing bytes (alignment_of_form form) (pool_of_tag np (form_tag form)) (S n) s =
    Ok (set_live (<[p := (requested np form bytes, DEFAULT_HEAP_TAG)]> (live s)) s) p.
Proof.
  intros Hs Hf Hg. cbn [operator_new_loop]. unfold mbind, M_bind. rewrite new_request, Hg by done.
  pose proof (block_fits _ _ _ _ _ _ (form_alignment_ok _ Hf) Hg) as (? & _).
  by replace (p =? 0) with false by lia.
Qed.

(** A round that finds none. *)
Lemma new_loop_refused throwing np form bytes s n :
  calm s -> form_ok form -> granted np form bytes s = None ->
  operator_new_loop throwing bytes (alignment_of_form form) (pool_of_tag np (form_tag form)) (S n) s =
    match new_handler s with
    | Some h =>
        (_ ← call_handler h;
         operator_new_loop throwing bytes (alignment_of_form form) (pool_of_tag np (form_tag form)) n) s
    | None =>
        if throwing then Throw s bad_alloc
        else operator_new_loop throwing bytes (alignment_of_form form) (pool_of_tag np (form_tag form)) n s
    end.
Proof.
  intros Hs Hf Hg. cbn [operator_new_loop]. unfold mbind at 1, M_bind at 1.
  rewrite new_request, Hg by done.
  change (negb (0 =? 0)) with false. cbv iota. erewrite bind_Ok by reflexivity.
  by destruct (new_handler s), throwing.
Qed.

Lemma operator_new_eq np form bytes n s :
  operator_new np form bytes n s =
  match operator_new_loop (negb (form_nothrow form)) bytes (alignment_of_form form)
      (pool_of_tag np (form_tag form)) n s with
  | Throw s' (terminated r) => Throw s' (terminated r)
  | Throw s' e => if form_nothrow form then Throw s' (terminated NoexceptViolation) else Throw s' e
  | r => r
  end.
Proof.
  unfold operator_new, operator_new_impl. fold (alignment_of_form form).
  destruct (operator_new_loop _ _ _ _ _ _) as [| ? []| |]; by destruct (form_nothrow form).
Qed.

(** C36: When the pool has memory, every form of [operator new] returns a block that is
    large enough, is aligned as was asked for, up to a page, and overlaps no block in
    use; every form of [operator delete] takes it back and leaves the heap as it was. *)
Theorem new_delete_roundtrip np form bytes n s p size align :
  calm s -> form_ok form -> granted np form bytes s = Some p ->
  exists s', operator_new np form bytes (S n) s = Ok s' p /\
    0 < p /\ p mod alignment_of_form form = 0 /\
    (forall b m t, live s !! b = Some (m, t) -> apart p bytes b m) /\
    operator_delete p size align s' = Ok s tt.
Proof.
  intros Hs Hf Hg. eexists. split.
  { by rewrite operator_new_eq, new_loop_granted with (p := p). }
  pose proof (block_fits _ _ _ _ _ _ (form_alignment_ok _ Hf) Hg) as (Hpos & Hnew & Hal & Hn).
  repeat split; try done.
  - intros b m t Hb. pose proof (pool_apart _ _ _ _ _ _ _ _ Hg Hb) as Ha.
    unfold apart, requested in *. lia.
  - unfold operator_delete, operator_delete_impl.
    erewrite deallocate_memory_ok; [|lia|done|apply lookup_insert_eq].
    cbn. rewrite delete_insert_eq, delete_id by done. by destruct s.
Qed.

(** The states in which the pool refuses and the handler is called, up to the state in
    which it is decided what [operator new] does. *)
Inductive handled np form bytes : nat -> heap_state -> heap_state -> Prop :=
  | handled_now s : calm s -> handled np form bytes 0 s s
  | handled_call n h s s1 s2 :
      calm s -> granted np form bytes s = None -> new_handler s = Some h ->
      call_handler h s = Ok s1 tt -> handled np form bytes n s1 s2 ->
      handled np form bytes (S n) s s2.

Lemma handled_loop throwing np form bytes n m s s' :
  form_ok form -> handled np form bytes n s s' ->
  operator_new_loop throwing bytes (alignment_of_form form) (pool_of_tag np (form_tag form)) (n + m) s =
  operator_new_loop throwing bytes (alignment_of_form form) (pool_of_tag np (form_tag form)) m s'.
Proof.
  intros Hf. induction 1 as [|n h s s1 s2 Hs Hg Hh Hc _ IH]; [done|].
  rewrite Nat.add_succ_l, new_loop_refused, Hh by done. by step Hc.
Qed.

(** The new-handler is called again and again as long as the pool refuses; then
    [operator new] returns the block that the pool grants, or, if no handler is left,
    the throwing forms throw bad_alloc. *)
Theorem new_calls_handler np form bytes n m s s' :
  form_ok form -> handled np form bytes n s s' ->
  match granted np form bytes s', new_handler s' with
  | Some p, _ => exists s2, operator_new np form bytes (n + S m) s = Ok s2 p
  | None, None => form_nothrow form = false ->
      operator_new np form bytes (n + S m) s = Throw s' bad_alloc
  | None, Some _ => True
  end.
Proof.
  intros Hf Hh. assert (calm s') as Hs by (by induction Hh).
  rewrite operator_new_eq, (handled_loop _ _ _ _ _ _ _ _ Hf Hh).
  destruct (granted np form bytes s') as [p|] eqn:Hg.
  - eexists. by rewrite new_loop_granted with (p := p).
  - rewrite new_loop_refused by done. destruct (new_handler s'); [done|]. by intros ->.
Qed.

(** A nothrow form of [operator new] does not report that there is no memory: when
    the pool refuses and no new-handler is installed it asks again for ever. *)
Theorem nothrow_new_never_returns np form bytes s :
  calm s -> form_ok form -> form_nothrow form = true ->
  granted np form bytes s = None -> new_handler s = None ->
  forall rounds, operator_new np form bytes rounds s = Diverge.
Proof.
  intros Hs Hf Hn Hg Hh rounds. rewrite operator_new_eq, Hn. cbn [negb].
  induction rounds as [|n IH]; [done|]. by rewrite new_loop_refused, Hh by done.
Qed.

(** [allocate] asks for as many bytes as the objects need exactly up to
    [allocator_traits::max_size]; for more objects the product wraps around and a
    request that is too small is made. *)
Theorem allocate_size sizeof_value alc object_count rounds :
  0 < sizeof_value -> 0 <= object_count < 2 ^ 64 ->
  exists bytes, allocate sizeof_value alc object_count rounds = allocate_bytes alc bytes rounds /\
    (object_count <= alloc_max_size sizeof_value <-> bytes = object_count * sizeof_value) /\
    (alloc_max_size sizeof_value < object_count -> bytes < object_count * sizeof_value).
Proof.
  intros Hsz Hn. exists (u64 (object_count * sizeof_value)). unfold allocate, alloc_max_size.
  assert (H64 : object_count <= (2 ^ 64 - 1) / sizeof_value <-> object_count * sizeof_value < 2 ^ 64).
  { split; intros H; [|apply Z.div_le_lower_bound; lia].
    pose proof (Z.mul_div_le (2 ^ 64 - 1) sizeof_value Hsz). nia. }
  pose proof (wrap_range 64 (object_count * sizeof_value) ltac:(lia)) as Hr.
  pose proof (Z.mul_nonneg_nonneg object_count sizeof_value ltac:(lia) ltac:(lia)).
  repeat split.
  - intros Hle%H64. by apply wrap_small.
  - intros E. apply H64. rewrite <- E. apply Hr.
  - intros Hlt. enough (2 ^ 64 <= object_count * sizeof_value) by lia.
    apply Z.le_ngt. intros Hs%H64. lia.
Qed.
End heap.

(** ** Instances *)

(** A pool that places every block behind all others, at the start of a page. *)
Definition blocks_end (l : live_blocks) : Z :=
  map_fold (fun a nt e => Z.max e (a + Z.max 1 nt.1)) 4096 l.
Definition page_up (x : Z) : Z := (x + 4095) / 4096 * 4096.

Lemma blocks_end_above l b m t : l !! b = Some (m, t) -> b + Z.max 1 m <= blocks_end l.
Proof.
  unfold blocks_end. revert b m t.
  apply (map_fold_weak_ind (fun e (l : live_blocks) =>
    forall b m t, l !! b = Some (m, t) -> b + Z.max 1 m <= e)).
  - intros b m t. by rewrite lookup_empty.
  - intros a nt l' e Hnew IH b m t Hb. destruct (decide (a = b)) as [->|].
    + rewrite lookup_insert_eq in Hb. simplify_eq. cbn. lia.
    + rewrite lookup_insert_ne in Hb by done. specialize (IH _ _ _ Hb). lia.
Qed.

Lemma blocks_end_pos l : 4096 <= blocks_end l.
Proof.
  unfold blocks_end. apply (map_fold_weak_ind (fun e (_ : live_blocks) => 4096 <= e)); lia.
Qed.

#[local] Program Instance demo_pool : kernel_heap := {
  ExAllocatePoolUninitialized l pool n tag :=
    if n <=? 2 ^ 30 then Some (page_up (blocks_end l)) else None;
}.
Next Obligation.
  intros l pool n tag a E. cbn in E. destruct (n <=? 2 ^ 30); simplify_eq.
  pose proof (blocks_end_pos l). unfold page_up. set (q := (blocks_end l + 4095) / 4096).
  assert (blocks_end l <= q * 4096) by (unfold q; zdiv).
  repeat split; try lia.
  - destruct (l !! (q * 4096)) as [[m t]|] eqn:E; [|done].
    pose proof (blocks_end_above _ _ _ _ E). lia.
  - assert (exists j, 0 < j /\ 4096 = j * get_max_alignment_for_pool pool) as (j & Hj & ->).
    { destruct pool; first [by exists 64|by exists 256]. }
    rewrite Z.mul_assoc. apply Z.mod_mul. by destruct pool.
  - intros _. by apply Z.mod_mul.
Qed.
Next Obligation.
  intros l pool n tag a b m t E Hb. cbn in E. destruct (n <=? 2 ^ 30); simplify_eq.
  pose proof (blocks_end_above _ _ _ _ Hb). unfold apart, page_up. right; left. zdiv.
Qed.

#[local] Instance demo_program : heap_program := {
  debug := true;
  call_handler h := if (h =? 0)%nat then modify (put_handler (Some 1%nat)) else modify (put_handler None);
}.

Definition demo_heap : heap_state := HeapState ∅ 0 None.
Definition cache_line_form : new_form := NewForm (Some 64) (Some non_paged_new) true.

Lemma cache_line_ok : form_ok cache_line_form.
Proof. by exists 6. Qed.

Lemma new_delete_roundtrip_witness :
  exists s', operator_new false cache_line_form 100 1 demo_heap = Ok s' 4096 /\
    operator_delete 4096 (Some 100) None s' = Ok demo_heap tt.
Proof.
  destruct (new_delete_roundtrip false cache_line_form 100 0 demo_heap 4096 (Some 100) None)
    as (s' & Hnew & _ & _ & _ & Hdel); [done|exact cache_line_ok|reflexivity|by exists s'].
Defined.

(** A request that is too large, with two handlers, the last of which removes itself. *)
Lemma new_calls_handler_witness :
  operator_new false (NewForm None None false) (2 ^ 40) 4 (HeapState ∅ 0 (Some 0%nat)) =
    Throw demo_heap bad_alloc.
Proof.
  assert (Hh : handled false (NewForm None None false) (2 ^ 40) 2 (HeapState ∅ 0 (Some 0%nat)) demo_heap).
  { eapply handled_call; [done|reflexivity..|].
    eapply handled_call; [done|reflexivity..|].
    by apply handled_now. }
  pose proof (new_calls_handler false (NewForm None None false) (2 ^ 40) 2 1
    (HeapState ∅ 0 (Some 0%nat)) demo_heap I Hh) as Hnew.
  change (granted false (NewForm None None false) (2 ^ 40) demo_heap) with (@None Z) in Hnew.
  by apply Hnew.
Defined.

Lemma nothrow_new_never_returns_witness :
  operator_new false cache_line_form (2 ^ 40) 1000 demo_heap = Diverge.
Proof.
  apply (nothrow_new_never_returns false cache_line_form (2 ^ 40) demo_heap);
    [done|exact cache_line_ok|reflexivity..].
Defined.

(** 2 ^ 61 + 1 objects of 8 bytes: eight bytes are requested. *)
Lemma allocate_size_witness :
  exists bytes, allocate 8 (tagged_allocator PagedPool 16 1) (2 ^ 61 + 1) 1 =
    allocate_bytes (tagged_allocator PagedPool 16 1) bytes 1 /\ bytes < (2 ^ 61 + 1) * 8.
Proof.
  destruct (allocate_size 8 (tagged_allocator PagedPool 16 1) (2 ^ 61 + 1) 1) as (b & E & _ & Hlt);
    [lia|lia|]. exists b. split; [exact E|]. apply Hlt. reflexivity.
Defined.
