(* ===== verification/BulkPool.v ===== *)
(** * The pool allocator of the node layout (include/hash_table_impl.hpp)

    [BulkPoolAllocator] takes chunks of memory for several objects from an allocator of
    bytes and hands out one cell at a time.  It keeps no memory of its own: the first
    word of a chunk links the chunks, the first word of a free cell links the free
    cells.  The allocator of bytes is the interface [bytes_heap]; the heap of the
    library implements it (BulkPoolTheorems).

    Memory consists of words at addresses that are multiples of 8; using a word outside
    of the blocks in use is a fault.  A program has several pools, named by numbers. *)
From Stdlib Require Import ZArith Lia.
From stdpp Require Import base list gmap numbers.
From S2P Require Import Prelude.
#[local] Open Scope Z_scope.

(** What the pool relies on: [owned h a n] says that there is a block of [n] bytes at
    [a], [ready] that the heap is in a state in which it can be used.  The size that is
    given back with a block is not looked at. *)
Class bytes_heap (H : Type) := {
  bytes_alloc : Z -> M H Z;
  bytes_free : Z -> Z -> M H unit;
  accessible : H -> Z -> Z -> bool;
}.

Class bytes_heap_laws (H : Type) `{bytes_heap H} (alignment : Z) := {
  owned : H -> Z -> Z -> Prop;
  ready : H -> Prop;
  accessible_owned h a n :
    accessible h a n = true <-> exists b m, owned h b m /\ b <= a /\ a + n <= b + m;
  owned_apart h a n b m : ready h -> owned h a n -> owned h b m ->
    (a = b /\ n = m) \/ a + n <= b \/ b + m <= a;
  bytes_alloc_ok h n : ready h -> 0 < n < 2 ^ 64 ->
    match bytes_alloc n h with
    | Ok h' a => ready h' /\ 0 < a /\ a mod alignment = 0 /\ (forall m, ~ owned h a m) /\
        forall b m, owned h' b m <-> (b = a /\ m = n) \/ owned h b m
    | Throw h' e => h' = h /\ e = bad_alloc
    | Fault | Diverge => False
    end;
  bytes_free_ok h a n k : ready h -> owned h a n ->
    exists h', bytes_free a k h = Ok h' tt /\ ready h' /\
      forall b m, owned h' b m <-> b <> a /\ owned h b m;
}.

(** The members of a pool; the allocator of bytes has no state. *)
Record bulk_pool := BulkPool { mHead : Z; mListForFree : Z }.

Record pool_world (H : Type) := PoolWorld {
  words : gmap Z Z;
  heap_of : H;
  pools : gmap nat bulk_pool }.
Arguments PoolWorld {H}.
Arguments words {H}.
Arguments heap_of {H}.
Arguments pools {H}.

Section pool.
Context {H : Type} `{bytes_heap H}.
(** The size and the alignment of the objects, and the limits on the number of objects of
    a chunk. *)
Context (sizeof_Ty alignof_Ty MinNumAllocs MaxNumAllocs : Z).
Implicit Types (w : pool_world H) (p : nat).

Definition ALIGNMENT : Z := Z.max alignof_Ty 8.
Definition ALIGNED_SIZE : Z := ((sizeof_Ty - 1) / ALIGNMENT + 1) * ALIGNMENT.

(** ** Memory and members *)

Definition word_ok (h : H) (a : Z) : bool := (a mod 8 =? 0) && accessible h a 8.

(** The contents of a word that was not written yet are not specified; here they are 0. *)
Definition word_at (ws : gmap Z Z) (a : Z) : Z := default 0 (ws !! a).

Definition read_word (a : Z) : M (pool_world H) Z :=
  w ← get; if word_ok (heap_of w) a then mret (word_at (words w) a) else fault.
Definition write_word (a v : Z) : M (pool_world H) unit :=
  w ← get;
  if word_ok (heap_of w) a
  then put (PoolWorld (<[a := v]> (words w)) (heap_of w) (pools w)) else fault.

Definition on_heap {A} (m : M H A) : M (pool_world H) A := fun w =>
  match m (heap_of w) with
  | Ok h a => Ok (PoolWorld (words w) h (pools w)) a
  | Throw h e => Throw (PoolWorld (words w) h (pools w)) e
  | Fault => Fault
  | Diverge => Diverge
  end.

Definition get_pool p : M (pool_world H) bulk_pool := w ← get; access (pools w !! p).
Definition put_pool p (b : bulk_pool) : M (pool_world H) unit :=
  modify (fun w => PoolWorld (words w) (heap_of w) (<[p := b]> (pools w))).
Definition set_mHead p (a : Z) : M (pool_world H) unit :=
  b ← get_pool p; put_pool p (BulkPool a (mListForFree b)).
Definition set_mListForFree p (a : Z) : M (pool_world H) unit :=
  b ← get_pool p; put_pool p (BulkPool (mHead b) a).

(** ** Chunks *)

Definition allocate_bytes (bytes_count : Z) : M (pool_world H) Z := on_heap (bytes_alloc bytes_count).
Definition deallocate_bytes (ptr bytes_count : Z) : M (pool_world H) unit :=
  on_heap (bytes_free ptr bytes_count).

(** The loop of [calcNumElementsToAlloc]; the number doubles in every round. *)
Fixpoint calc_loop (fuel : nat) (numAllocs tmp : Z) : M (pool_world H) Z :=
  match fuel with
  | O => diverge
  | S fuel =>
      if (u64 (numAllocs * 2) <=? MaxNumAllocs) && negb (tmp =? 0) then
        next ← read_word tmp; calc_loop fuel (u64 (numAllocs * 2)) next
      else mret numAllocs
  end.

Definition calcNumElementsToAlloc p : M (pool_world H) Z :=
  b ← get_pool p; calc_loop (S (Z.to_nat MaxNumAllocs)) MinNumAllocs (mListForFree b).

Fixpoint link_cells (head : Z) (i : Z) (count : nat) : M (pool_world H) unit :=
  match count with
  | O => mret tt
  | S count =>
      _ ← write_word (head + i * ALIGNED_SIZE) (head + (i + 1) * ALIGNED_SIZE);
      link_cells head (i + 1) count
  end.

Definition add p (ptr numBytes : Z) : M (pool_world H) unit :=
  let numElements := (numBytes - ALIGNMENT) / ALIGNED_SIZE in
  b ← get_pool p;
  _ ← write_word ptr (mListForFree b);
  _ ← set_mListForFree p ptr;
  let head := ptr + ALIGNMENT in
  _ ← link_cells head 0 (Z.to_nat numElements);
  _ ← write_word (head + (numElements - 1) * ALIGNED_SIZE) (mHead b);
  set_mHead p head.

Definition performAllocation p : M (pool_world H) Z :=
  numElementsToAlloc ← calcNumElementsToAlloc p;
  let bytes := u64 (ALIGNMENT + ALIGNED_SIZE * numElementsToAlloc) in
  ptr ← allocate_bytes bytes;
  _ ← add p ptr bytes;
  b ← get_pool p; mret (mHead b).

Definition addOrFree p (ptr numBytes : Z) : M (pool_world H) unit :=
  if numBytes <? ALIGNMENT + ALIGNED_SIZE then deallocate_bytes ptr numBytes
  else add p ptr numBytes.

(** ** Cells *)

Definition bulk_allocate p : M (pool_world H) Z :=
  b ← get_pool p;
  tmp ← (if mHead b =? 0 then performAllocation p else mret (mHead b));
  next ← read_word tmp;
  _ ← set_mHead p next;
  mret tmp.

Definition bulk_deallocate p (obj : Z) : M (pool_world H) unit :=
  b ← get_pool p; _ ← write_word obj (mHead b); set_mHead p obj.

(** ** The pool as a whole *)

Fixpoint reset_loop (fuel : nat) p : M (pool_world H) unit :=
  match fuel with
  | O => diverge
  | S fuel =>
      b ← get_pool p;
      if negb (mListForFree b =? 0) then
        tmp ← read_word (mListForFree b);
        _ ← deallocate_bytes (mListForFree b) ALIGNED_SIZE;
        _ ← set_mListForFree p tmp;
        reset_loop fuel p
      else mret tt
  end.

(** [chunks]: how many rounds the loop may take. *)
Definition pool_reset (chunks : nat) p : M (pool_world H) unit :=
  _ ← reset_loop (S chunks) p; set_mHead p 0.

Definition new_pool p : M (pool_world H) unit :=
  w ← get; match pools w !! p with None => put_pool p (BulkPool 0 0) | Some _ => fault end.

(** The copy constructor makes a new pool, the copy assignment does nothing. *)
Definition pool_copy p (other : nat) : M (pool_world H) unit := _ ← get_pool other; new_pool p.
Definition pool_copy_assign p (other : nat) : M (pool_world H) unit :=
  _ ← get_pool p; _ ← get_pool other; mret tt.

(** The exchange of both members with null pointers. *)
Definition take_members p (other : nat) : M (pool_world H) unit :=
  b ← get_pool other;
  _ ← set_mHead other 0; _ ← set_mHead p (mHead b);
  _ ← set_mListForFree other 0; set_mListForFree p (mListForFree b).

Definition pool_move p (other : nat) : M (pool_world H) unit :=
  _ ← get_pool other; _ ← new_pool p; take_members p other.

Definition pool_move_assign (chunks : nat) p (other : nat) : M (pool_world H) unit :=
  _ ← get_pool other; _ ← pool_reset chunks p; take_members p other.

Definition pool_swap p (other : nat) : M (pool_world H) unit :=
  a ← get_pool p; b ← get_pool other; _ ← put_pool p b; put_pool other a.

Definition bulk_destroy (chunks : nat) p : M (pool_world H) unit :=
  _ ← pool_reset chunks p;
  modify (fun w => PoolWorld (words w) (heap_of w) (delete p (pools w))).
End pool.
