(* ===== verification/BulkPoolSpec.v ===== *)
(** * What a pool consists of

    The chunks of a pool, its free cells in the order of the list, and the cells that
    are in use; what the words of the memory have to do with them; and what the loops
    over chunks and cells do. *)
From Stdlib Require Import ZArith Lia.
From stdpp Require Import base list gmap numbers sets.
From S2P Require Import Prelude BulkPool.
#[local] Open Scope Z_scope.

(** A chunk: its address and its size in bytes. *)
Abbreviation chunk := (Z * Z)%type.

Record pool_state := PoolState {
  chunks : list chunk;
  frees : list Z;
  used : list Z }.

Definition empty_pool : pool_state := PoolState [] [] [].

(** What the parameters of the template have to satisfy. *)
Class pool_sizes (sizeof_Ty alignof_Ty MinNumAllocs MaxNumAllocs : Z) := {
  alignof_power : exists k, 0 <= k /\ alignof_Ty = 2 ^ k;
  sizeof_positive : 1 <= sizeof_Ty;
  allocs_range : 1 <= MinNumAllocs <= MaxNumAllocs;
  chunk_fits : ALIGNMENT alignof_Ty + ALIGNED_SIZE sizeof_Ty alignof_Ty * MaxNumAllocs < 2 ^ 64;
}.

Section spec.
Context {H : Type} `{bytes_heap H} {sizeof_Ty alignof_Ty MinNumAllocs MaxNumAllocs : Z}.
Context `{!pool_sizes sizeof_Ty alignof_Ty MinNumAllocs MaxNumAllocs}.
Context `{!bytes_heap_laws H (ALIGNMENT alignof_Ty)}.
Implicit Types (w : pool_world H) (h : H) (p : nat) (c : Z) (ch : chunk) (g : pool_state).

Abbreviation AL := (ALIGNMENT alignof_Ty).
Abbreviation AS := (ALIGNED_SIZE sizeof_Ty alignof_Ty).

Lemma AL_multiple : 8 <= AL /\ AL mod 8 = 0.
Proof.
  destruct alignof_power as (k & Hk & E). unfold ALIGNMENT. split; [lia|]. rewrite E.
  destruct (Z.le_gt_cases k 3) as [Hle|Hgt].
  - pose proof (Z.pow_le_mono_r 2 k 3 ltac:(lia) Hle). by rewrite Z.max_r by lia.
  - pose proof (Z.pow_le_mono_r 2 3 k ltac:(lia) ltac:(lia)). rewrite Z.max_l by lia.
    replace k with (3 + (k - 3)) by lia. rewrite Z.pow_add_r by lia.
    rewrite Z.mul_comm. by apply Z.mod_mul.
Qed.

Lemma AS_multiple : exists q, 1 <= q /\ AS = q * AL.
Proof.
  pose proof AL_multiple. pose proof sizeof_positive. eexists. split; [|reflexivity].
  assert (0 <= (sizeof_Ty - 1) / AL) by (apply Z.div_pos; lia). lia.
Qed.

(** A cell has room for an object. *)
Lemma AS_ge : 8 <= AS /\ AS mod 8 = 0 /\ sizeof_Ty <= AS.
Proof.
  destruct AL_multiple as [HA Hm]. pose proof sizeof_positive.
  destruct AS_multiple as (q & Hq & E). repeat split.
  - rewrite E; nia.
  - rewrite E, Z.mul_mod, Hm, Z.mul_0_r by lia. done.
  - unfold ALIGNED_SIZE in *.
    pose proof (Z.mul_succ_div_gt (sizeof_Ty - 1) AL ltac:(lia)). lia.
Qed.

(** ** Cells and chunks *)

Definition cell_count ch : Z := (ch.2 - AL) / AS.
Definition cell_at ch (i : Z) : Z := ch.1 + AL + i * AS.
Definition cell_of ch c : Prop := exists i, 0 <= i < cell_count ch /\ c = cell_at ch i.

Definition chunk_ok h ch : Prop :=
  owned h ch.1 ch.2 /\ AL + AS <= ch.2 < 2 ^ 64 /\ ch.1 mod AL = 0 /\ 0 < ch.1.

(** The word at [x] belongs to the chunk. *)
Definition inside ch (x : Z) : Prop := ch.1 <= x /\ x + 8 <= ch.1 + ch.2 /\ x mod 8 = 0.

Lemma chunk_count h ch : chunk_ok h ch -> 1 <= cell_count ch /\ AL + cell_count ch * AS <= ch.2.
Proof.
  intros (_ & Hs & _). pose proof AS_ge as (HA & _). unfold cell_count.
  split; [apply Z.div_le_lower_bound; lia|].
  pose proof (Z.mul_div_le (ch.2 - AL) AS ltac:(lia)). lia.
Qed.

Lemma mod8_AL a : a mod AL = 0 -> a mod 8 = 0.
Proof.
  intros Ha. destruct AL_multiple as [HA Hm].
  apply Z.mod_divide in Ha as [q ->]; [|lia]. rewrite Z.mul_mod, Hm, Z.mul_0_r by lia. done.
Qed.

Lemma header_inside h ch : chunk_ok h ch -> inside ch ch.1.
Proof.
  intros (Ho & Hs & Ha & Hp). pose proof AL_multiple. pose proof AS_ge.
  repeat split; [lia|lia|by apply mod8_AL].
Qed.

(** The whole cell lies in the chunk, behind the header. *)
Lemma cell_bounds h ch c :
  chunk_ok h ch -> cell_of ch c -> ch.1 + AL <= c /\ c + AS <= ch.1 + ch.2 /\ c mod AL = 0.
Proof.
  intros Hok (i & Hi & ->). pose proof (chunk_count _ _ Hok) as [_ Hc]. destruct Hok as (_ & _ & Ha & _).
  pose proof AS_ge. pose proof AL_multiple. unfold cell_at. destruct AS_multiple as (q & Hq & E).
  repeat split; [nia|nia|]. rewrite E.
  replace (ch.1 + AL + i * (q * AL)) with (ch.1 + (1 + i * q) * AL) by ring.
  by rewrite Z_mod_plus_full.
Qed.

Lemma cell_inside h ch c o :
  chunk_ok h ch -> cell_of ch c -> 0 <= o -> o + 8 <= AS -> o mod 8 = 0 -> inside ch (c + o).
Proof.
  intros Hok Hc Ho Hs Hm. pose proof (cell_bounds _ _ _ Hok Hc) as (? & ? & Ha).
  pose proof AL_multiple. repeat split; [lia|lia|].
  apply mod8_AL in Ha. by rewrite Z.add_mod, Ha, Hm by lia.
Qed.

Lemma inside_word_ok h ch x : chunk_ok h ch -> inside ch x -> word_ok h x = true.
Proof.
  intros (Ho & _) (H1 & H2 & H3). unfold word_ok. rewrite H3. cbn.
  apply accessible_owned. exists ch.1, ch.2. split; [done|lia].
Qed.

(** Blocks at different addresses have no word in common. *)
Lemma owned_unique h ch ch' x :
  ready h -> owned h ch.1 ch.2 -> owned h ch'.1 ch'.2 -> inside ch x -> inside ch' x -> ch = ch'.
Proof.
  intros Hr Ho Ho' (H1 & H2 & _) (H3 & H4 & _).
  destruct (owned_apart _ _ _ _ _ Hr Ho Ho') as [[E1 E2]|]; [|lia].
  destruct ch, ch'; cbn in *; congruence.
Qed.

Lemma inside_unique h ch ch' x :
  ready h -> chunk_ok h ch -> chunk_ok h ch' -> inside ch x -> inside ch' x -> ch = ch'.
Proof.
  intros Hr (Ho & _) (Ho' & _). by apply owned_unique with h.
Qed.

Lemma cell_start_inside h ch c : chunk_ok h ch -> cell_of ch c -> inside ch c.
Proof.
  intros Hok Hc. pose proof AS_ge. rewrite <- (Z.add_0_r c).
  eapply cell_inside; [done..|lia|lia|done].
Qed.

Lemma cell_not_header h ch c : chunk_ok h ch -> cell_of ch c -> c <> ch.1.
Proof. intros Hok Hc. pose proof (cell_bounds _ _ _ Hok Hc). pose proof AL_multiple. lia. Qed.

(** Two cells are the same or do not overlap. *)
Lemma cells_apart h ch ch' c c' :
  ready h -> chunk_ok h ch -> chunk_ok h ch' -> cell_of ch c -> cell_of ch' c' ->
  c = c' \/ c + AS <= c' \/ c' + AS <= c.
Proof.
  intros Hr Hok Hok' Hc Hc'.
  destruct (owned_apart _ _ _ _ _ Hr (proj1 Hok) (proj1 Hok')) as [[E1 E2]|Hap].
  - destruct Hc as (i & Hi & ->), Hc' as (j & Hj & ->). unfold cell_at. rewrite <- E1.
    pose proof AS_ge. destruct (Ztrichotomy i j) as [|[->|]]; [right; left; nia|by left|right; right; nia].
  - pose proof (cell_bounds _ _ _ Hok Hc). pose proof (cell_bounds _ _ _ Hok' Hc').
    pose proof AL_multiple. lia.
Qed.

(** ** Lists in memory *)

Fixpoint linked (ws : gmap Z Z) (a : Z) (l : list Z) : Prop :=
  match l with
  | [] => a = 0
  | x :: l => a = x /\ 0 < x /\ linked ws (word_at ws x) l
  end.

Lemma links_frame ws ws' a l :
  (forall x, x ∈ l -> word_at ws' x = word_at ws x) -> linked ws a l -> linked ws' a l.
Proof.
  revert a. induction l as [|x l IH]; intros a Hf; [done|]. intros (-> & Hx & Hl).
  repeat split; [done|]. rewrite Hf by left. apply IH; [|done]. intros y Hy. apply Hf. by right.
Qed.

Lemma linked_null ws a l : linked ws a l -> (a =? 0) = true <-> l = [].
Proof.
  destruct l; cbn; [intros ->; done|]. intros (-> & Hx & _). split; [lia|done].
Qed.

Lemma word_at_write ws a v x : word_at (<[a := v]> ws) x = if decide (a = x) then v else word_at ws x.
Proof. unfold word_at. rewrite lookup_insert. by destruct (decide (a = x)). Qed.

(** ** Pools *)

Definition represents (ws : gmap Z Z) (b : bulk_pool) g : Prop :=
  linked ws (mListForFree b) (chunks g).*1 /\ linked ws (mHead b) (frees g).

Record pool_ok h g : Prop := {
  ok_chunks : Forall (chunk_ok h) (chunks g);
  ok_distinct : NoDup (chunks g).*1;
  ok_cells : NoDup (frees g ++ used g);
  ok_cells_of : forall c, c ∈ frees g ++ used g -> exists ch, ch ∈ chunks g /\ cell_of ch c;
}.

Definition pool_word g (x : Z) : Prop := exists ch, ch ∈ chunks g /\ inside ch x.

Lemma free_word h g c : pool_ok h g -> c ∈ frees g ++ used g -> pool_word g c.
Proof.
  intros Hg Hc. destruct (ok_cells_of _ _ Hg _ Hc) as (ch & Hin & Hcell). exists ch. split; [done|].
  apply (cell_start_inside h); [|done]. by apply (proj1 (Forall_forall _ _) (ok_chunks _ _ Hg)).
Qed.

Lemma header_word h g a : pool_ok h g -> a ∈ (chunks g).*1 -> pool_word g a.
Proof.
  intros Hg (ch & -> & Hin)%list_elem_of_fmap. exists ch. split; [done|]. apply (header_inside h).
  by apply (proj1 (Forall_forall _ _) (ok_chunks _ _ Hg)).
Qed.

Lemma pool_word_ok h g x : pool_ok h g -> pool_word g x -> word_ok h x = true.
Proof.
  intros Hg (ch & Hin & Hx). apply (inside_word_ok h ch); [|done].
  by apply (proj1 (Forall_forall _ _) (ok_chunks _ _ Hg)).
Qed.

(** The first words of cells and chunks are different words. *)
Lemma cell_header_ne h g c a :
  ready h -> pool_ok h g -> c ∈ frees g ++ used g -> a ∈ (chunks g).*1 -> c <> a.
Proof.
  intros Hr Hg Hc (ch' & -> & Hin')%list_elem_of_fmap ->.
  destruct (ok_cells_of _ _ Hg _ Hc) as (ch & Hin & Hcell).
  pose proof (proj1 (Forall_forall _ _) (ok_chunks _ _ Hg)) as Hall.
  assert (ch = ch') as ->; [|by eapply (cell_not_header h ch'); eauto].
  eapply (inside_unique h _ _ ch'.1); eauto using header_inside.
  apply (cell_start_inside h); auto.
Qed.

(** A pool is not affected by writes outside of its chunks. *)
Lemma represents_frame h ws ws' b g :
  pool_ok h g -> (forall x, pool_word g x -> word_at ws' x = word_at ws x) ->
  represents ws b g -> represents ws' b g.
Proof.
  intros Hg Hf [Hc Hl]. split; (eapply links_frame; [|done]).
  - intros a Ha. apply Hf. eauto using header_word.
  - intros c Hc'. apply Hf. eapply free_word; [done|]. apply elem_of_app. by left.
Qed.
End spec.
