(* ===== verification/BulkPoolOps.v ===== *)
(** * The operations of a pool and its state

    [bulk_inv w G B]: the pools of the world [w] are in the states [G], the blocks [B]
    belong to the program, and there are no others. *)
From Stdlib Require Import ZArith Lia.
From stdpp Require Import base list gmap numbers sets.
From S2P Require Import Prelude BulkPool BulkPoolSpec.
#[local] Open Scope Z_scope.

Section ops.
Context {H : Type} `{bytes_heap H} {sizeof_Ty alignof_Ty MinNumAllocs MaxNumAllocs : Z}.
Context `{!pool_sizes sizeof_Ty alignof_Ty MinNumAllocs MaxNumAllocs}.
Context `{!bytes_heap_laws H (ALIGNMENT alignof_Ty)}.
Implicit Types (w : pool_world H) (h : H) (p q : nat) (c a n : Z) (ch : chunk) (g : pool_state).
Implicit Types (G : gmap nat pool_state) (B : gmap Z Z) (b : bulk_pool).

Abbreviation AL := (ALIGNMENT alignof_Ty).
Abbreviation AS := (ALIGNED_SIZE sizeof_Ty alignof_Ty).
Abbreviation pool_ok := (pool_ok (sizeof_Ty := sizeof_Ty) (alignof_Ty := alignof_Ty)).
Abbreviation chunk_ok := (chunk_ok (sizeof_Ty := sizeof_Ty) (alignof_Ty := alignof_Ty)).
Abbreviation cell_of := (cell_of (sizeof_Ty := sizeof_Ty) (alignof_Ty := alignof_Ty)).

Record bulk_inv w G B : Prop := {
  inv_ready : ready (heap_of w);
  inv_pool p : option_Forall2 (fun b g => represents (words w) b g /\ pool_ok (heap_of w) g)
    (pools w !! p) (G !! p);
  inv_apart p q g g' a : G !! p = Some g -> G !! q = Some g' ->
    a ∈ (chunks g).*1 -> a ∈ (chunks g').*1 -> p = q;
  inv_blocks a n : owned (heap_of w) a n <->
    (exists p g, G !! p = Some g /\ (a, n) ∈ chunks g) \/ B !! a = Some n;
  inv_mine p g a : G !! p = Some g -> a ∈ (chunks g).*1 -> B !! a = None;
  inv_client a n : B !! a = Some n -> 0 < a /\ a mod AL = 0 /\ 0 < n < 2 ^ 64;
}.

Lemma inv_lookup w G B p g :
  bulk_inv w G B -> G !! p = Some g ->
  exists b, pools w !! p = Some b /\ represents (words w) b g /\ pool_ok (heap_of w) g.
Proof.
  intros Hw Hp. pose proof (inv_pool _ _ _ Hw p) as Hr. rewrite Hp in Hr. inversion Hr as [? ? []|]; eauto.
Qed.

Lemma chunk_in h g ch : pool_ok h g -> ch ∈ chunks g -> chunk_ok h ch.
Proof. intros Hg. apply (proj1 (Forall_forall _ _) (ok_chunks _ _ Hg)). Qed.

(** A change of one pool: it may write to its own chunks and to blocks of the program,
    and it may take such blocks or give chunks back. *)
Lemma inv_update w G B p g ws' h' b' g' B' :
  bulk_inv w G B -> G !! p = Some g -> ready h' ->
  (forall a n, owned h' a n <-> (a, n) ∈ chunks g' \/
    (exists q g2, q <> p /\ G !! q = Some g2 /\ (a, n) ∈ chunks g2) \/ B' !! a = Some n) ->
  (forall a, a ∈ (chunks g').*1 -> a ∈ (chunks g).*1 \/ is_Some (B !! a)) ->
  (forall a n, B' !! a = Some n -> B !! a = Some n /\ a ∉ (chunks g').*1) ->
  (forall x, word_at ws' x <> word_at (words w) x -> exists ch, chunk_ok (heap_of w) ch /\
    (ch.1 ∈ (chunks g).*1 \/ is_Some (B !! ch.1)) /\ inside ch x) ->
  represents ws' b' g' -> pool_ok h' g' ->
  bulk_inv (PoolWorld ws' h' (<[p := b']> (pools w))) (<[p := g']> G) B'.
Proof.
  intros Hw Hp Hr Hown Hnew HB Hws Hrep Hok.
  assert (Hothers : forall q g2 a, q <> p -> G !! q = Some g2 -> a ∈ (chunks g2).*1 ->
    a ∉ (chunks g).*1 /\ B !! a = None).
  { intros q g2 a Hne Hq Ha. split; [|by eapply inv_mine]. intros Ha'. by destruct Hne; eapply inv_apart. }
  assert (Hsep : forall q g2 a, q <> p -> G !! q = Some g2 -> a ∈ (chunks g2).*1 -> a ∉ (chunks g').*1).
  { intros q g2 a Hne Hq Ha Ha'. destruct (Hothers _ _ _ Hne Hq Ha) as [H1 H2].
    destruct (Hnew _ Ha') as [|[m Hm]]; congruence. }
  constructor; cbn [heap_of words pools].
  - done.
  - intros q. destruct (decide (p = q)) as [->|Hne]; [by rewrite !lookup_insert_eq; constructor|].
    rewrite !lookup_insert_ne by done. pose proof (inv_pool _ _ _ Hw q) as Hq.
    destruct (pools w !! q) as [b2|], (G !! q) as [g2|] eqn:Eq; inversion Hq as [? ? [Hrep2 Hok2]|];
      subst; constructor.
    split.
    + eapply represents_frame; [done| |done].
      intros x (ch & Hin & Hx). destruct (decide (word_at ws' x = word_at (words w) x)) as [|Hdiff]; [done|].
      destruct (Hws x Hdiff) as (ch' & Hok' & Hwhere & Hx').
      assert (ch = ch') as ->.
      { eapply inside_unique; [by eapply inv_ready| |exact Hok'|done..]. by eapply chunk_in. }
      destruct (Hothers q g2 ch'.1) as [H1 H2]; [done..|by apply list_elem_of_fmap_2|].
      destruct Hwhere as [|[m Hm]]; congruence.
    + destruct Hok2 as [H1 H2 H3 H4]. constructor; try done.
      apply Forall_forall. intros ch Hin. pose proof (proj1 (Forall_forall _ _) H1 _ Hin) as (_ & Hrest).
      split; [|done]. apply Hown. right; left. exists q, g2. by destruct ch.
  - intros q q' g1 g2 a. rewrite !lookup_insert. repeat case_decide; subst; intros; simplify_eq; try done.
    + by destruct (Hsep q' g2 a).
    + by destruct (Hsep q g1 a).
    + by eapply (inv_apart _ _ _ Hw q q' g1 g2 a).
  - intros a n. rewrite Hown. split.
    + intros [|[(q & g2 & Hne & Hq & Hin)|]]; [left|left|by right].
      * exists p, g'. by rewrite lookup_insert_eq.
      * exists q, g2. by rewrite lookup_insert_ne.
    + intros [(q & g2 & Hq & Hin)|]; [|by right; right].
      apply lookup_insert_Some in Hq as [[<- ->]|[Hne Hq]]; [by left|right; left; eauto].
  - intros q g2 a Hq Ha. destruct (B' !! a) as [n|] eqn:Ea; [|done].
    destruct (HB _ _ Ea) as [HBa Hna].
    apply lookup_insert_Some in Hq as [[<- ->]|[Hne Hq]]; [done|].
    pose proof (inv_mine _ _ _ Hw _ _ _ Hq Ha). congruence.
  - intros a n [Ha _]%HB. by eapply inv_client.
Qed.

(** ** Members and words *)

Lemma get_pool_ok w p b : pools w !! p = Some b -> get_pool p w = Ok w b.
Proof. intros E. unfold get_pool. erewrite bind_Ok by reflexivity. by rewrite E. Qed.

Lemma read_word_ok w a : word_ok (heap_of w) a = true -> read_word a w = Ok w (word_at (words w) a).
Proof. intros E. unfold read_word. erewrite bind_Ok by reflexivity. by rewrite E. Qed.

Lemma write_word_ok w a v :
  word_ok (heap_of w) a = true ->
  write_word a v w = Ok (PoolWorld (<[a := v]> (words w)) (heap_of w) (pools w)) tt.
Proof. intros E. unfold write_word. erewrite bind_Ok by reflexivity. by rewrite E. Qed.

Lemma set_mHead_ok w p b a :
  pools w !! p = Some b ->
  set_mHead p a w = Ok (PoolWorld (words w) (heap_of w) (<[p := BulkPool a (mListForFree b)]> (pools w))) tt.
Proof. intros E. unfold set_mHead. by step (get_pool_ok _ _ _ E). Qed.

Lemma set_list_ok w p b a :
  pools w !! p = Some b ->
  set_mListForFree p a w = Ok (PoolWorld (words w) (heap_of w) (<[p := BulkPool (mHead b) a]> (pools w))) tt.
Proof. intros E. unfold set_mListForFree. by step (get_pool_ok _ _ _ E). Qed.

(** A pool keeps its chunks: what [inv_update] asks about the blocks. *)
Lemma inv_keep w G B p g ws' b' g' :
  bulk_inv w G B -> G !! p = Some g -> chunks g' = chunks g ->
  (forall x, word_at ws' x <> word_at (words w) x -> pool_word g x) ->
  represents ws' b' g' -> pool_ok (heap_of w) g' ->
  bulk_inv (PoolWorld ws' (heap_of w) (<[p := b']> (pools w))) (<[p := g']> G) B.
Proof.
  intros Hw Hp Hc Hws Hrep Hok. destruct (inv_lookup _ _ _ _ _ Hw Hp) as (b & _ & _ & Hg).
  eapply inv_update; try done.
  - by eapply inv_ready.
  - intros a n. rewrite (inv_blocks _ _ _ Hw), Hc. split.
    + intros [(q & g2 & Hq & Hin)|]; [|by right; right].
      destruct (decide (q = p)) as [->|]; [simplify_eq; by left|right; left; eauto].
    + intros [|[(q & g2 & _ & Hq & Hin)|]]; eauto.
  - rewrite Hc. by left.
  - intros a n Ha. split; [done|]. rewrite Hc. intros Hin.
    pose proof (inv_mine _ _ _ Hw _ _ _ Hp Hin). congruence.
  - intros x Hx. destruct (Hws x Hx) as (ch & Hin & Hi). exists ch.
    split; [by eapply chunk_in|]. split; [left; by apply list_elem_of_fmap_2|done].
Qed.

(** ** Taking and returning cells *)

(** The end of [allocate]: the first free cell is unlinked. *)
Lemma unlink_ok w G B p g c fr :
  bulk_inv w G B -> G !! p = Some g -> frees g = c :: fr ->
  exists w', (next ← read_word c; _ ← set_mHead p next; mret c) w = Ok w' c /\ words w' = words w /\
    bulk_inv w' (<[p := PoolState (chunks g) fr (c :: used g)]> G) B.
Proof.
  intros Hw Hp Hfr. destruct (inv_lookup _ _ _ _ _ Hw Hp) as (b & Hb & [Hc Hl] & Hg).
  rewrite Hfr in Hl. cbn in Hl. destruct Hl as (Ehead & Hpos & Hl).
  eexists. split.
  - step (read_word_ok w c ltac:(eapply pool_word_ok; [done|]; eapply free_word;
      [done|rewrite Hfr; by left])).
    by step (set_mHead_ok _ _ _ (word_at (words w) c) Hb).
  - split; [done|]. eapply (inv_keep w); try done; cbn [frees used chunks words heap_of pools].
    destruct Hg as [H1 H2 H3 H4]. rewrite Hfr in H3, H4. constructor; try done; cbn [frees used].
    + by rewrite <- Permutation_middle.
    + intros c'. rewrite <- Permutation_middle. apply H4.
Qed.

Lemma allocate_free w G B p g c fr :
  bulk_inv w G B -> G !! p = Some g -> frees g = c :: fr ->
  exists w', bulk_allocate sizeof_Ty alignof_Ty MinNumAllocs MaxNumAllocs p w = Ok w' c /\
    words w' = words w /\ bulk_inv w' (<[p := PoolState (chunks g) fr (c :: used g)]> G) B.
Proof.
  intros Hw Hp Hfr. destruct (inv_lookup _ _ _ _ _ Hw Hp) as (b & Hb & [Hc Hl] & Hg).
  destruct (unlink_ok _ _ _ _ _ _ _ Hw Hp Hfr) as (w' & Hrun & Hws & Hw'). exists w'. split; [|done].
  unfold bulk_allocate. step (get_pool_ok _ _ _ Hb).
  destruct (linked_null _ _ _ Hl) as [Hnull _].
  destruct (mHead b =? 0); [by rewrite Hnull in Hfr|].
  rewrite Hfr in Hl. destruct Hl as (-> & _). done.
Qed.

Lemma deallocate_ok w G B p g c us :
  bulk_inv w G B -> G !! p = Some g -> used g ≡ₚ c :: us ->
  exists w', bulk_deallocate p c w = Ok w' tt /\
    (forall x, x <> c -> word_at (words w') x = word_at (words w) x) /\
    bulk_inv w' (<[p := PoolState (chunks g) (c :: frees g) us]> G) B.
Proof.
  intros Hw Hp Hus. destruct (inv_lookup _ _ _ _ _ Hw Hp) as (b & Hb & [Hc Hl] & Hg).
  assert (Hin : c ∈ frees g ++ used g) by (rewrite Hus; set_solver).
  assert (Hcw : pool_word g c) by (eapply free_word; eauto).
  eexists. split.
  - unfold bulk_deallocate. step (get_pool_ok _ _ _ Hb).
    step (write_word_ok w c (mHead b) ltac:(by eapply pool_word_ok)).
    by apply (set_mHead_ok (PoolWorld _ _ _)).
  - split; [intros x Hx; cbn [words]; by rewrite word_at_write, decide_False|].
    eapply (inv_keep w); try done; cbn [frees used chunks words heap_of pools].
    + intros x. rewrite word_at_write. case_decide; [by subst|done].
    + pose proof (ok_cells _ _ Hg) as Hnd. rewrite Hus, NoDup_app in Hnd. destruct Hnd as (_ & Hdis & _).
      split; cbn [mListForFree mHead chunks frees linked].
      * eapply links_frame; [|done]. intros a Ha. rewrite word_at_write, decide_False; [done|].
        eapply cell_header_ne; eauto using inv_ready.
      * rewrite word_at_write, decide_True by done. repeat split.
        -- destruct (ok_cells_of _ _ Hg _ Hin) as (ch & Hch & Hcell).
           pose proof (chunk_in _ _ _ Hg Hch) as Hok. pose proof (cell_bounds _ _ _ Hok Hcell).
           pose proof AL_multiple. destruct Hok as (_ & _ & _ & ?). lia.
        -- eapply links_frame; [|done]. intros c' Hc'. rewrite word_at_write, decide_False; [done|].
           intros ->. destruct (Hdis _ Hc'). by left.
    + destruct Hg as [H1 H2 H3 H4]. rewrite Hus in H3. constructor; try done; cbn [frees used].
      * rewrite <- Permutation_middle in H3. done.
      * intros c' Hc'. apply H4. rewrite Hus. set_solver.
Qed.

(** ** Chunks *)

(** The cells of a chunk in the order of the list that [add] makes. *)
Definition cells_from (head i : Z) (count : nat) : list Z := (fun j => head + j * AS) <$> seqZ i (Z.of_nat count).
Definition chunk_cells ch : list Z := cells_from (ch.1 + AL) 0 (Z.to_nat ((ch.2 - AL) / AS)).

Lemma elem_of_cells head i count c :
  c ∈ cells_from head i count <-> exists j, i <= j < i + Z.of_nat count /\ c = head + j * AS.
Proof.
  unfold cells_from. rewrite list_elem_of_fmap. setoid_rewrite elem_of_seqZ. naive_solver lia.
Qed.

Lemma elem_of_chunk_cells h ch c : chunk_ok h ch -> c ∈ chunk_cells ch <-> cell_of ch c.
Proof.
  intros Hok. pose proof (chunk_count _ _ Hok) as [Hn _].
  unfold chunk_cells. rewrite elem_of_cells. unfold BulkPoolSpec.cell_of, cell_at, cell_count in *.
  rewrite Z2Nat.id by lia. done.
Qed.

Lemma NoDup_cells head i count : NoDup (cells_from head i count).
Proof.
  pose proof AS_ge. unfold cells_from. apply NoDup_fmap_2; [|apply NoDup_seqZ].
  intros j k E. nia.
Qed.

Lemma link_cells_ok w head i count :
  (forall j, i <= j < i + Z.of_nat count -> word_ok (heap_of w) (head + j * AS) = true) ->
  exists ws', link_cells sizeof_Ty alignof_Ty head i count w = Ok (PoolWorld ws' (heap_of w) (pools w)) tt /\
    (forall j, i <= j < i + Z.of_nat count -> word_at ws' (head + j * AS) = head + (j + 1) * AS) /\
    (forall x, x ∉ cells_from head i count -> word_at ws' x = word_at (words w) x).
Proof.
  revert i w. induction count as [|count IH]; intros i w Hok.
  { exists (words w). repeat split; [by destruct w|lia]. }
  cbn [link_cells].
  destruct (IH (i + 1) (PoolWorld (<[head + i * AS := head + (i + 1) * AS]> (words w)) (heap_of w) (pools w)))
    as (ws' & Hrun & Hin & Hout).
  { intros j Hj. apply Hok. lia. }
  exists ws'. step (write_word_ok w (head + i * AS) (head + (i + 1) * AS) ltac:(apply Hok; lia)).
  split; [done|]. pose proof AS_ge. cbn [words] in Hout. split.
  - intros j Hj. destruct (decide (j = i)) as [->|]; [|apply Hin; lia].
    rewrite Hout, word_at_write, decide_True; [done..|].
    intros (k & Hk & E)%elem_of_cells. nia.
  - intros x Hx. rewrite elem_of_cells in Hx.
    rewrite Hout, word_at_write, decide_False; [done| |].
    + intros <-. apply Hx. exists i. split; [lia|done].
    + intros (k & Hk & ->)%elem_of_cells. apply Hx. exists k. split; [lia|done].
Qed.

(** The cells of a chunk, linked one to the next, in front of a list. *)
Lemma cells_linked ws head i count a l :
  0 < head -> 0 <= i ->
  (forall j, i <= j < i + Z.of_nat count - 1 -> word_at ws (head + j * AS) = head + (j + 1) * AS) ->
  (0 < Z.of_nat count -> word_at ws (head + (i + Z.of_nat count - 1) * AS) = a) ->
  linked ws a l ->
  linked ws (if count is O then a else head + i * AS) (cells_from head i count ++ l).
Proof.
  intros Hhead. pose proof AS_ge as (HA & _). revert i.
  induction count as [|count IH]; intros i Hi Hnext Hlast Hl; [done|].
  unfold cells_from. rewrite seqZ_cons by lia.
  replace (Z.pred (Z.of_nat (S count))) with (Z.of_nat count) by lia. cbn [fmap list_fmap app linked].
  split; [done|]. split; [nia|]. rewrite <- Z.add_1_r. fold (cells_from head (i + 1) count).
  destruct count as [|count].
  - rewrite Z.add_simpl_r in Hlast. rewrite Hlast by lia. done.
  - rewrite Hnext by lia. apply (IH (i + 1)); [lia| | |done].
    + intros j Hj. apply Hnext. lia.
    + intros _. rewrite <- Hlast by lia. f_equal. f_equal. lia.
Qed.

(** What [add] writes: the link of the chunks, and the cells in front of the free ones. *)
Lemma add_runs w p b a n :
  pools w !! p = Some b -> chunk_ok (heap_of w) (a, n) ->
  exists ws', add sizeof_Ty alignof_Ty p a n w =
      Ok (PoolWorld ws' (heap_of w) (<[p := BulkPool (a + AL) a]> (pools w))) tt /\
    word_at ws' a = mListForFree b /\
    (forall l, linked ws' (mHead b) l -> linked ws' (a + AL) (chunk_cells (a, n) ++ l)) /\
    (forall x, ~ inside (a, n) x -> word_at ws' x = word_at (words w) x).
Proof.
  intros Hb Hok. pose proof (chunk_count _ _ Hok) as [HN _]. pose proof AS_ge as (HA & _).
  unfold cell_count in HN. cbn [fst snd] in HN. set (N := (n - AL) / AS) in *.
  assert (Hcell : forall j, 0 <= j < N -> cell_of (a, n) (a + AL + j * AS)).
  { intros j Hj. exists j. by unfold cell_count, cell_at. }
  assert (Hword : forall j, 0 <= j < N -> word_ok (heap_of w) (a + AL + j * AS) = true).
  { intros j Hj. eapply inside_word_ok; [exact Hok|]. eapply cell_start_inside; eauto. }
  assert (Hne : forall j, 0 <= j < N -> a + AL + j * AS <> a).
  { intros j Hj. by apply (cell_not_header _ _ _ Hok (Hcell j Hj)). }
  unfold add. step (get_pool_ok _ _ _ Hb).
  step (write_word_ok w a (mListForFree b) ltac:(eapply inside_word_ok; [exact Hok|];
    by apply (header_inside _ _ Hok))).
  set (w1 := PoolWorld (<[a := mListForFree b]> (words w)) (heap_of w) (pools w)).
  step (set_list_ok w1 p b a Hb).
  set (w2 := PoolWorld (words w1) (heap_of w) (<[p := BulkPool (mHead b) a]> (pools w))).
  destruct (link_cells_ok w2 (a + AL) 0 (Z.to_nat N)) as (ws & Hrun & Hin & Hout).
  { intros j Hj. apply Hword. lia. }
  fold N. step Hrun. rewrite Z2Nat.id in Hin by lia.
  step (write_word_ok (PoolWorld ws (heap_of w2) (pools w2)) (a + AL + (N - 1) * AS) (mHead b)
    ltac:(apply Hword; lia)).
  eexists. split.
  { rewrite (set_mHead_ok (PoolWorld _ _ _) p (BulkPool (mHead b) a)) by apply lookup_insert_eq.
    cbn. by rewrite insert_insert_eq. }
  assert (Hnot : forall x, ~ inside (a, n) x -> x ∉ cells_from (a + AL) 0 (Z.to_nat N)).
  { intros x Hx (j & Hj & ->)%elem_of_cells. apply Hx. eapply (cell_start_inside _ _ _ Hok), Hcell. lia. }
  repeat split.
  - rewrite word_at_write, decide_False by (apply Hne; lia).
    rewrite Hout; [by cbn [words w2 w1]; rewrite word_at_write, decide_True|].
    intros (j & Hj & E)%elem_of_cells. destruct (Hne j); [lia|done].
  - intros l Hl. unfold chunk_cells. cbn [fst snd]. fold N.
    pose proof (cells_linked (<[a + AL + (N - 1) * AS := mHead b]> ws) (a + AL) 0 (Z.to_nat N) (mHead b) l)
      as Hlinked.
    rewrite Z.mul_0_l, Z.add_0_r, Z2Nat.id, Z.add_0_l in Hlinked by lia.
    destruct (Z.to_nat N) eqn:EN; [lia|]. apply Hlinked; try done.
    + destruct Hok as (_ & _ & _ & Hpos). cbn in Hpos. pose proof AL_multiple. lia.
    + intros j Hj. rewrite word_at_write, decide_False by nia. apply Hin. lia.
    + intros _. by rewrite word_at_write, decide_True.
  - intros x Hx. rewrite word_at_write, decide_False.
    + rewrite Hout by (by apply Hnot). cbn [words w2 w1]. rewrite word_at_write, decide_False; [done|].
      intros <-. apply Hx. by apply (header_inside _ _ Hok).
    + intros <-. apply Hx. eapply (cell_start_inside _ _ _ Hok), Hcell. lia.
Qed.

Definition with_chunk ch g : pool_state :=
  PoolState (ch :: chunks g) (chunk_cells ch ++ frees g) (used g).

(** A block of the program is a chunk if it is large enough. *)
Lemma client_chunk w G B a n :
  bulk_inv w G B -> B !! a = Some n -> AL + AS <= n -> chunk_ok (heap_of w) (a, n).
Proof.
  intros Hw Ha Hn. destruct (inv_client _ _ _ Hw _ _ Ha) as (Hp & Hal & Hr).
  repeat split; cbn [fst snd]; try done; [|lia]. apply (inv_blocks _ _ _ Hw). by right.
Qed.

Lemma client_apart w G B p g a n x :
  bulk_inv w G B -> G !! p = Some g -> B !! a = Some n ->
  pool_ok (heap_of w) g -> pool_word g x -> ~ inside (a, n) x.
Proof.
  intros Hw Hp Ha Hg (ch & Hin & Hx) Hx'.
  assert (ch = (a, n)) as ->.
  { eapply owned_unique; [by eapply inv_ready|by eapply chunk_in| |done..].
    apply (inv_blocks _ _ _ Hw). by right. }
  pose proof (inv_mine _ _ _ Hw _ _ a Hp) as Hmine.
  rewrite Hmine in Ha; [done|]. apply list_elem_of_fmap. by exists (a, n).
Qed.

Lemma with_chunk_ok w G B p g a n :
  bulk_inv w G B -> G !! p = Some g -> chunk_ok (heap_of w) (a, n) -> B !! a = Some n ->
  pool_ok (heap_of w) g -> pool_ok (heap_of w) (with_chunk (a, n) g).
Proof.
  intros Hw Hp Hok Ha Hg. pose proof (client_apart w G B p g a n) as Hap.
  destruct Hg as [H1 H2 H3 H4] eqn:E. clear E.
  constructor; cbn [with_chunk chunks frees used fmap list_fmap fst].
  - by constructor.
  - constructor; [|done]. intros Hin. pose proof (inv_mine _ _ _ Hw _ _ _ Hp Hin). congruence.
  - rewrite <- app_assoc. apply NoDup_app. repeat split; [apply NoDup_cells| |done].
    intros c Hc Hc'. apply (elem_of_chunk_cells _ _ _ Hok) in Hc.
    apply (Hap c); eauto using cell_start_inside, free_word.
  - intros c. rewrite <- app_assoc, elem_of_app. intros [Hc|Hc].
    + exists (a, n). split; [by left|]. by apply (elem_of_chunk_cells _ _ _ Hok).
    + destruct (H4 _ Hc) as (ch & Hin & Hcell). exists ch. split; [by right|done].
Qed.

Lemma add_chunk_ok w G B p g a n :
  bulk_inv w G B -> G !! p = Some g -> B !! a = Some n -> AL + AS <= n ->
  exists w', add sizeof_Ty alignof_Ty p a n w = Ok w' tt /\
    (forall x, ~ inside (a, n) x -> word_at (words w') x = word_at (words w) x) /\
    bulk_inv w' (<[p := with_chunk (a, n) g]> G) (delete a B).
Proof.
  intros Hw Hp Ha Hn. destruct (inv_lookup _ _ _ _ _ Hw Hp) as (b & Hb & [Hc Hl] & Hg).
  pose proof (client_chunk _ _ _ _ _ Hw Ha Hn) as Hok.
  destruct (add_runs w p b a n Hb Hok) as (ws' & Hrun & Hhead & Hcells & Hout).
  eexists. split; [exact Hrun|]. split; [exact Hout|].
  assert (Hframe : forall x, pool_word g x -> word_at ws' x = word_at (words w) x).
  { intros x Hx. apply Hout. by eapply client_apart. }
  eapply (inv_update w); try done; cbn [with_chunk chunks].
  - by eapply inv_ready.
  - intros a' n'. rewrite (inv_blocks _ _ _ Hw), elem_of_cons, lookup_delete_Some. split.
    + intros [(q & g2 & Hq & Hin)|Ha'].
      * destruct (decide (q = p)) as [->|]; [simplify_eq; by left; right|right; left; eauto].
      * destruct (decide (a = a')) as [->|]; [simplify_eq; by left; left|by right; right].
    + intros [[E|]|[(q & g2 & _ & Hq & Hin)|[_ ?]]]; [simplify_eq; by right|left; eauto|left; eauto|by right].
  - cbn [fmap list_fmap fst]. intros a' [->|]%elem_of_cons; [right; by eexists|by left].
  - cbn [fmap list_fmap fst]. intros a' n' [Hne Ha']%lookup_delete_Some. split; [done|].
    intros [->|Hin]%elem_of_cons; [done|]. pose proof (inv_mine _ _ _ Hw _ _ _ Hp Hin). congruence.
  - intros x Hx. exists (a, n). split; [done|]. split; [right; by eexists|].
    destruct (decide (inside (a, n) x)) as [|Hno]; [done|]. by destruct Hx; apply Hout.
  - split; cbn [mListForFree mHead with_chunk chunks frees fmap list_fmap fst linked].
    + repeat split; [by destruct Hok as (_ & _ & _ & ?)|]. rewrite Hhead.
      eapply links_frame; [|done]. intros x Hx. eauto using header_word.
    + apply Hcells. eapply links_frame; [|done]. intros x Hx. apply Hframe.
      eapply free_word; [done|]. apply elem_of_app. by left.
  - by eapply with_chunk_ok.
Qed.

(** ** The size of the next chunk *)

Lemma Max_small : 1 <= MinNumAllocs <= MaxNumAllocs /\ MaxNumAllocs * 2 < 2 ^ 64.
Proof. pose proof allocs_range. pose proof chunk_fits. pose proof AS_ge. pose proof AL_multiple. nia. Qed.

(** The number of objects doubles with every chunk there is, up to the limit. *)
Lemma calc_loop_ok w fuel k tmp l :
  1 <= k <= MaxNumAllocs -> MaxNumAllocs - k < Z.of_nat fuel ->
  linked (words w) tmp l -> (forall x, x ∈ l -> word_ok (heap_of w) x = true) ->
  exists j, 0 <= j <= Z.of_nat (length l) /\ calc_loop MaxNumAllocs fuel k tmp w = Ok w (k * 2 ^ j) /\
    k * 2 ^ j <= MaxNumAllocs /\ (j = Z.of_nat (length l) \/ MaxNumAllocs < k * 2 ^ (j + 1)).
Proof.
  revert k tmp l. induction fuel as [|fuel IH]; intros k tmp l Hk Hfuel Hl Hok; [lia|].
  pose proof Max_small. cbn [calc_loop]. rewrite wrap_small by lia.
  destruct (Z.leb_spec (k * 2) MaxNumAllocs) as [Hle|Hgt].
  - destruct l as [|x l].
    + cbn in Hl. subst tmp. exists 0. rewrite Z.mul_1_r. cbn. repeat split; lia.
    + destruct Hl as (-> & Hx & Hl). replace (negb (x =? 0)) with true by lia. cbn [andb].
      step (read_word_ok w x ltac:(apply Hok; by left)).
      destruct (IH (k * 2) (word_at (words w) x) l) as (j & Hj & Hrun & Hmax & Hlim);
        [lia|lia|done|intros y Hy; apply Hok; by right|].
      exists (j + 1). rewrite Hrun. cbn [length]. rewrite !Z.pow_add_r in * by lia.
      replace (k * 2 * 2 ^ j) with (k * (2 ^ j * 2 ^ 1)) in * by ring.
      repeat split; [lia|lia|done|]. destruct Hlim; [left; lia|right]. lia.
  - exists 0. cbn [andb]. rewrite Z.mul_1_r. repeat split; [lia|lia|lia|]. right. lia.
Qed.

(** The sizes of new chunks: [chunk_number g] objects. *)
Definition chunk_number g (k : Z) : Prop :=
  exists j, 0 <= j <= Z.of_nat (length (chunks g)) /\ k = MinNumAllocs * 2 ^ j /\ k <= MaxNumAllocs /\
    (j = Z.of_nat (length (chunks g)) \/ MaxNumAllocs < MinNumAllocs * 2 ^ (j + 1)).

Lemma calc_ok w G B p g :
  bulk_inv w G B -> G !! p = Some g ->
  exists k, calcNumElementsToAlloc MinNumAllocs MaxNumAllocs p w = Ok w k /\ chunk_number g k.
Proof.
  intros Hw Hp. destruct (inv_lookup _ _ _ _ _ Hw Hp) as (b & Hb & [Hc _] & Hg).
  pose proof Max_small. unfold calcNumElementsToAlloc. step (get_pool_ok _ _ _ Hb).
  destruct (calc_loop_ok w (S (Z.to_nat MaxNumAllocs)) MinNumAllocs (mListForFree b) (chunks g).*1)
    as (j & Hj & Hrun & Hmax & Hlim); [lia|lia|done|intros x Hx; eauto using pool_word_ok, header_word|].
  rewrite length_fmap in Hj, Hlim. exists (MinNumAllocs * 2 ^ j). split; [done|].
  exists j. repeat split; lia.
Qed.

Lemma chunk_number_range g k : chunk_number g k -> MinNumAllocs <= k <= MaxNumAllocs.
Proof.
  intros (j & Hj & -> & Hmax & _). pose proof Max_small. pose proof (Z.pow_pos_nonneg 2 j). nia.
Qed.

(** ** The heap *)

Lemma allocate_bytes_ok w G B n :
  bulk_inv w G B -> 0 < n < 2 ^ 64 ->
  match allocate_bytes n w with
  | Ok w' a => words w' = words w /\ pools w' = pools w /\ B !! a = None /\
      (forall p g, G !! p = Some g -> a ∉ (chunks g).*1) /\ bulk_inv w' G (<[a := n]> B)
  | Throw w' e => w' = w /\ e = bad_alloc
  | Fault | Diverge => False
  end.
Proof.
  intros Hw Hn. unfold allocate_bytes, on_heap.
  pose proof (bytes_alloc_ok (heap_of w) n (inv_ready _ _ _ Hw) Hn) as Hal.
  destruct (bytes_alloc n (heap_of w)) as [h' a|h' e| |]; try done.
  - destruct Hal as (Hr & Hpos & Hmod & Hnew & Hown). cbn [words pools].
    assert (Hchunk : forall p g, G !! p = Some g -> a ∉ (chunks g).*1).
    { intros p g Hp ([a' m] & -> & Hin)%list_elem_of_fmap. apply (Hnew m).
      apply (inv_blocks _ _ _ Hw). left; eauto. }
    assert (HB : B !! a = None).
    { destruct (B !! a) as [m|] eqn:E; [|done]. destruct (Hnew m). apply (inv_blocks _ _ _ Hw). by right. }
    split; [done|]. split; [done|]. split; [done|]. split; [done|]. constructor; cbn [heap_of words pools].
    + done.
    + intros p. pose proof (inv_pool _ _ _ Hw p) as Hp.
      destruct (pools w !! p), (G !! p); inversion Hp as [? ? [Hrep [H1 H2 H3 H4]]|]; subst; constructor.
      split; [done|]. constructor; try done. eapply Forall_impl; [exact H1|].
      intros ch (Ho & Hrest). split; [|done]. apply Hown. by right.
    + by eapply inv_apart.
    + intros a' m. rewrite Hown, (inv_blocks _ _ _ Hw), lookup_insert. case_decide; subst; [|naive_solver].
      rewrite HB. naive_solver.
    + intros p g a' Hp Ha'. rewrite lookup_insert_ne; [by eapply inv_mine|].
      intros ->. by destruct (Hchunk p g Hp).
    + intros a' m [[<- <-]|[_ Ha']]%lookup_insert_Some; [done|]. by eapply inv_client.
  - destruct Hal as [-> ->]. by destruct w.
Qed.

Lemma deallocate_bytes_ok w G B a n k :
  bulk_inv w G B -> B !! a = Some n ->
  exists h', deallocate_bytes a k w = Ok (PoolWorld (words w) h' (pools w)) tt /\
    bulk_inv (PoolWorld (words w) h' (pools w)) G (delete a B).
Proof.
  intros Hw Ha. assert (Ho : owned (heap_of w) a n) by (apply (inv_blocks _ _ _ Hw); by right).
  destruct (bytes_free_ok (heap_of w) a n k (inv_ready _ _ _ Hw) Ho) as (h' & Hrun & Hr & Hown).
  exists h'. unfold deallocate_bytes, on_heap. rewrite Hrun. split; [done|].
  assert (Hchunk : forall p g a' m, G !! p = Some g -> (a', m) ∈ chunks g -> a' <> a).
  { intros p g a' m Hp Hin ->. rewrite (inv_mine _ _ _ Hw p g a Hp) in Ha; [done|].
    apply list_elem_of_fmap. by exists (a, m). }
  constructor; cbn [heap_of words pools].
  - done.
  - intros p. pose proof (inv_pool _ _ _ Hw p) as Hp.
    destruct (pools w !! p), (G !! p) as [g|] eqn:Eg; inversion Hp as [? ? [Hrep [H1 H2 H3 H4]]|]; subst; constructor.
    split; [done|]. constructor; try done. apply Forall_forall. intros [a' m] Hin.
    pose proof (proj1 (Forall_forall _ _) H1 _ Hin) as (Ho' & Hrest). split; [|done].
    apply Hown. split; [by eapply Hchunk|done].
  - by eapply inv_apart.
  - intros a' m. rewrite Hown, (inv_blocks _ _ _ Hw), lookup_delete_Some. naive_solver.
  - intros p g a' Hp Ha'. rewrite lookup_delete_None. right. by eapply inv_mine.
  - intros a' m [_ Ha']%lookup_delete_Some. by eapply inv_client.
Qed.

(** ** New chunks *)

(** A new chunk for [k] objects: its block was not in use. *)
Definition fresh_chunk G B ch (k : Z) : Prop :=
  ch.2 = AL + AS * k /\ B !! ch.1 = None /\ forall p g, G !! p = Some g -> ch.1 ∉ (chunks g).*1.

Lemma perform_ok w G B p g :
  bulk_inv w G B -> G !! p = Some g ->
  match performAllocation sizeof_Ty alignof_Ty MinNumAllocs MaxNumAllocs p w with
  | Ok w' r => exists ch k, chunk_number g k /\ fresh_chunk G B ch k /\ r = ch.1 + AL /\
      (forall x, ~ inside ch x -> word_at (words w') x = word_at (words w) x) /\
      bulk_inv w' (<[p := with_chunk ch g]> G) B
  | Throw w' e => w' = w /\ e = bad_alloc
  | Fault | Diverge => False
  end.
Proof.
  intros Hw Hp. destruct (calc_ok _ _ _ _ _ Hw Hp) as (k & Hcalc & Hk).
  pose proof (chunk_number_range _ _ Hk) as Hkr. pose proof chunk_fits. pose proof AS_ge. pose proof AL_multiple.
  pose proof Max_small.
  assert (0 < AL + AS * k < 2 ^ 64 /\ AL + AS <= AL + AS * k) as [Hn Hge] by nia.
  unfold performAllocation. step Hcalc. rewrite wrap_small by lia.
  pose proof (allocate_bytes_ok w G B (AL + AS * k) Hw Hn) as Hal. unfold mbind at 1, M_bind at 1.
  destruct (allocate_bytes (AL + AS * k) w) as [w1 a|w1 e| |]; try done.
  destruct Hal as (Hws & _ & HBa & Hchunk & Hw1).
  destruct (add_chunk_ok w1 G (<[a := AL + AS * k]> B) p g a (AL + AS * k) Hw1 Hp) as (w2 & Hadd & Hout & Hw2);
    [apply lookup_insert_eq|done|].
  rewrite delete_insert_eq, delete_id in Hw2 by done.
  step Hadd. destruct (inv_lookup _ _ _ p (with_chunk (a, AL + AS * k) g) Hw2) as (b & Hb & [_ Hl] & _);
    [apply lookup_insert_eq|].
  step (get_pool_ok _ _ _ Hb). exists (a, AL + AS * k), k. split; [done|]. split; [done|].
  rewrite Hws in Hout. split; [|done].
  cbn [with_chunk frees] in Hl. unfold chunk_cells in Hl. cbn [fst snd] in *.
  replace ((AL + AS * k - AL) / AS) with k in Hl by (rewrite Z.add_simpl_l, Z.mul_comm, Z.div_mul; lia).
  destruct (Z.to_nat k) as [|n] eqn:En; [lia|]. unfold cells_from in Hl.
  rewrite seqZ_cons in Hl by lia. cbn in Hl. lia.
Qed.

Lemma allocate_chunk w G B p g :
  bulk_inv w G B -> G !! p = Some g -> frees g = [] ->
  match bulk_allocate sizeof_Ty alignof_Ty MinNumAllocs MaxNumAllocs p w with
  | Ok w' c => exists ch k fr, chunk_number g k /\ fresh_chunk G B ch k /\ chunk_cells ch = c :: fr /\
      (forall x, ~ inside ch x -> word_at (words w') x = word_at (words w) x) /\
      bulk_inv w' (<[p := PoolState (ch :: chunks g) fr (c :: used g)]> G) B
  | Throw w' e => w' = w /\ e = bad_alloc
  | Fault | Diverge => False
  end.
Proof.
  intros Hw Hp Hfr. destruct (inv_lookup _ _ _ _ _ Hw Hp) as (b & Hb & [_ Hl] & _).
  destruct (linked_null _ _ _ Hl) as [_ Hnull].
  unfold bulk_allocate. step (get_pool_ok _ _ _ Hb). rewrite Hnull by done.
  pose proof (perform_ok w G B p g Hw Hp) as Hperf. unfold mbind at 1, M_bind at 1.
  destruct (performAllocation _ _ _ _ p w) as [w1 r|w1 e| |]; try done.
  destruct Hperf as (ch & k & Hk & Hfresh & -> & Hout & Hw1).
  assert (exists fr, chunk_cells ch = ch.1 + AL :: fr) as [fr Hcells].
  { unfold chunk_cells, cells_from. destruct Hfresh as (-> & _).
    pose proof (chunk_number_range _ _ Hk). pose proof Max_small. pose proof AS_ge.
    replace ((AL + AS * k - AL) / AS) with k by (rewrite Z.add_simpl_l, Z.mul_comm, Z.div_mul; lia).
    rewrite seqZ_cons by lia. eexists. cbn. by rewrite Z.add_0_r. }
  destruct (unlink_ok w1 _ B p (with_chunk ch g) (ch.1 + AL) (fr ++ frees g) Hw1) as (w2 & Hrun & Hws & Hw2).
  { apply lookup_insert_eq. }
  { cbn. by rewrite Hcells. }
  rewrite Hrun. exists ch, k, fr. rewrite insert_insert_eq, Hfr, app_nil_r in Hw2. by rewrite Hws.
Qed.

(** ** Whole pools *)

Lemma reset_loop_ok p l w b (n : nat) :
  pools w !! p = Some b -> linked (words w) (mListForFree b) l.*1 -> ready (heap_of w) ->
  Forall (chunk_ok (heap_of w)) l -> NoDup l.*1 -> (length l <= n)%nat ->
  exists h', reset_loop sizeof_Ty alignof_Ty (S n) p w =
      Ok (PoolWorld (words w) h' (<[p := BulkPool (mHead b) 0]> (pools w))) tt /\
    ready h' /\ forall a m, owned h' a m <-> owned (heap_of w) a m /\ a ∉ l.*1.
Proof.
  revert w b n. induction l as [|[a n] l IH]; intros w b k Hb Hl Hr Hok Hnd Hk.
  - exists (heap_of w). cbn [reset_loop]. step (get_pool_ok _ _ _ Hb). cbn in Hl. rewrite Hl. cbn.
    split; [|split; [done|]; intros; set_solver].
    rewrite insert_id by (destruct b; cbn in *; by subst). by destruct w.
  - apply Forall_cons in Hok as [Ha Hok]. cbn [fmap list_fmap fst] in Hl, Hnd.
    apply NoDup_cons in Hnd as [Hnot Hnd]. destruct Hl as (Ehead & Hpos & Hl).
    cbn [reset_loop]. step (get_pool_ok _ _ _ Hb). replace (negb (mListForFree b =? 0)) with true by lia.
    rewrite Ehead. pose proof (inside_word_ok _ _ _ Ha (header_inside _ _ Ha)) as Hword. cbn [fst] in Hword.
    step (read_word_ok w a Hword).
    destruct (bytes_free_ok (heap_of w) a n AS Hr (proj1 Ha)) as (h1 & Hfree & Hr1 & Hown1).
    assert (Hdel : deallocate_bytes a AS w = Ok (PoolWorld (words w) h1 (pools w)) tt).
    { unfold deallocate_bytes, on_heap. by rewrite Hfree. }
    step Hdel. step (set_list_ok (PoolWorld (words w) h1 (pools w)) p b (word_at (words w) a) Hb).
    destruct k as [|k]; [cbn in Hk; lia|].
    destruct (IH (PoolWorld (words w) h1 (<[p := BulkPool (mHead b) (word_at (words w) a)]> (pools w)))
      (BulkPool (mHead b) (word_at (words w) a)) k) as (h' & Hrun & Hr' & Hown');
      [apply lookup_insert_eq|done|done| |done|cbn in Hk; lia|].
    { apply Forall_forall. intros ch Hin. pose proof (proj1 (Forall_forall _ _) Hok _ Hin) as (Ho & Hrest).
      split; [|done]. apply Hown1. split; [|done]. intros E. apply Hnot. rewrite <- E. by apply list_elem_of_fmap_2. }
    exists h'. rewrite Hrun. cbn [words pools mHead heap_of] in *. rewrite insert_insert_eq.
    split; [done|]. split; [done|]. intros a' m. rewrite Hown', Hown1. set_solver.
Qed.

Lemma pool_reset_ok w G B p g (n : nat) :
  bulk_inv w G B -> G !! p = Some g -> (length (chunks g) <= n)%nat ->
  exists w', pool_reset sizeof_Ty alignof_Ty n p w = Ok w' tt /\ words w' = words w /\
    pools w' = <[p := BulkPool 0 0]> (pools w) /\ bulk_inv w' (<[p := empty_pool]> G) B.
Proof.
  intros Hw Hp Hn. destruct (inv_lookup _ _ _ _ _ Hw Hp) as (b & Hb & [Hc _] & Hg).
  destruct (reset_loop_ok p (chunks g) w b n Hb Hc (inv_ready _ _ _ Hw) (ok_chunks _ _ Hg)
    (ok_distinct _ _ Hg) Hn) as (h' & Hrun & Hr & Hown).
  eexists. split; [|split; [|split]].
  - unfold pool_reset. step Hrun. apply (set_mHead_ok (PoolWorld _ _ _)), lookup_insert_eq.
  - done.
  - cbn [pools mListForFree]. by rewrite insert_insert_eq.
  - cbn [words heap_of pools mListForFree]. rewrite insert_insert_eq.
    eapply (inv_update w); try done; cbn [empty_pool chunks].
    + intros a m. rewrite Hown, (inv_blocks _ _ _ Hw). split.
      * intros [[(q & g2 & Hq & Hin)|] Ha]; [right; left|by right; right].
        exists q, g2. split; [|done]. intros ->. simplify_eq. apply Ha. apply list_elem_of_fmap. by exists (a, m).
      * intros [[]%not_elem_of_nil|[(q & g2 & Hne & Hq & Hin)|Ha]].
        -- split; [left; eauto|]. intros Ha. apply Hne. eapply (inv_apart _ _ _ Hw q p); [done..| |done].
           apply list_elem_of_fmap. by exists (a, m).
        -- split; [by right|]. intros Ha'. pose proof (inv_mine _ _ _ Hw _ _ _ Hp Ha'). congruence.
    + intros a []%not_elem_of_nil.
    + intros a m Ha. split; [done|]. apply not_elem_of_nil.
    + constructor; cbn; [constructor|constructor|constructor|]. intros c []%not_elem_of_nil.
Qed.

(** Pools exchange their members and their contents. *)
Lemma pool_swap_ok w G B p q gp gq :
  bulk_inv w G B -> G !! p = Some gp -> G !! q = Some gq ->
  exists w', pool_swap p q w = Ok w' tt /\ words w' = words w /\ bulk_inv w' (<[q := gp]> (<[p := gq]> G)) B.
Proof.
  intros Hw Hp Hq. destruct (inv_lookup _ _ _ _ _ Hw Hp) as (bp & Hbp & Hrp).
  destruct (inv_lookup _ _ _ _ _ Hw Hq) as (bq & Hbq & Hrq).
  eexists. split.
  { unfold pool_swap. step (get_pool_ok _ _ _ Hbp). step (get_pool_ok _ _ _ Hbq). reflexivity. }
  split; [done|].
  set (sw := fun x : nat => if decide (x = q) then p else if decide (x = p) then q else x).
  assert (Hsw : forall x, sw (sw x) = x) by (intros x; unfold sw; repeat case_decide; congruence).
  assert (HG : forall x, <[q := gp]> (<[p := gq]> G) !! x = G !! sw x).
  { intros x. unfold sw. rewrite !lookup_insert. repeat case_decide; congruence. }
  assert (HP : forall x, <[q := bp]> (<[p := bq]> (pools w)) !! x = pools w !! sw x).
  { intros x. unfold sw. rewrite !lookup_insert. repeat case_decide; congruence. }
  destruct Hw as [H1 H2 H3 H4 H5 H6]. constructor; cbn [heap_of words pools]; try done.
  - intros x. rewrite HG, HP. apply H2.
  - intros x y g g' a. rewrite !HG. intros Hx Hy Ha Ha'.
    rewrite <- (Hsw x), <- (Hsw y). f_equal. by eapply H3.
  - intros a n. rewrite H4. setoid_rewrite HG. split; (intros [(x & g & Hx & Hin)|]; [left|by right]);
      exists (sw x), g; by rewrite ?Hsw.
  - intros x g a. rewrite HG. apply H5.
Qed.

(** An empty pool that takes the members of another one exchanges them. *)
Lemma take_members_swap w p q :
  pools w !! p = Some (BulkPool 0 0) -> is_Some (pools w !! q) ->
  take_members p q w = pool_swap p q w.
Proof.
  intros Hp [b Hq].
  cbv [take_members pool_swap set_mHead set_mListForFree put_pool get_pool mbind M_bind mret M_ret
       get put modify access].
  destruct (decide (p = q)) as [->|Hne]; repeat progress (simplify_map_eq; cbn [pools words heap_of mHead mListForFree]);
    do 2 f_equal; apply map_eq; intros x; rewrite !lookup_insert; repeat case_decide; congruence || by destruct b.
Qed.

Lemma new_pool_ok w G B p :
  bulk_inv w G B -> G !! p = None ->
  exists w', new_pool p w = Ok w' tt /\ words w' = words w /\ pools w' !! p = Some (BulkPool 0 0) /\
    bulk_inv w' (<[p := empty_pool]> G) B.
Proof.
  intros Hw Hp. destruct Hw as [H1 H2 H3 H4 H5 H6].
  assert (Hb : pools w !! p = None) by (specialize (H2 p); rewrite Hp in H2; by inversion H2).
  assert (HG : forall q g a, <[p := empty_pool]> G !! q = Some g -> a ∈ (chunks g).*1 -> G !! q = Some g).
  { intros q g a [[<- <-]|[_ Hq]]%lookup_insert_Some Ha; [by apply not_elem_of_nil in Ha|done]. }
  eexists. split; [|split; [|split]].
  - unfold new_pool. erewrite bind_Ok by reflexivity. by rewrite Hb.
  - done.
  - apply lookup_insert_eq.
  - constructor; cbn [heap_of words pools]; try done.
    + intros q. rewrite !lookup_insert. case_decide; [|apply H2]. constructor. split; [done|].
      constructor; cbn; [constructor..|]. intros c []%not_elem_of_nil.
    + intros q q' g g' a Hq Hq' Ha Ha'. eapply H3; eauto.
    + intros a n. rewrite H4. split; (intros [(q & g & Hq & Hin)|]; [left|by right]).
      * exists q, g. rewrite lookup_insert_ne by congruence. done.
      * exists q, g. split; [|done]. eapply HG; [done|]. apply list_elem_of_fmap. by exists (a, n).
    + intros q g a Hq Ha. eapply H5; eauto.
Qed.

Lemma delete_pool_ok w G B p :
  bulk_inv w G B -> G !! p = Some empty_pool ->
  bulk_inv (PoolWorld (words w) (heap_of w) (delete p (pools w))) (delete p G) B.
Proof.
  intros [H1 H2 H3 H4 H5 H6] Hp.
  constructor; cbn [heap_of words pools]; try done.
  - intros q. rewrite !lookup_delete. case_decide; [constructor|apply H2].
  - intros q q' g g' a [_ Hq]%lookup_delete_Some [_ Hq']%lookup_delete_Some. by apply (H3 q q').
  - intros a n. rewrite H4. split; (intros [(q & g & Hq & Hin)|]; [left|by right]).
    + exists q, g. rewrite lookup_delete_ne; [done|]. intros ->. simplify_eq. by apply not_elem_of_nil in Hin.
    + apply lookup_delete_Some in Hq as [_ Hq]. eauto.
  - intros q g a [_ Hq]%lookup_delete_Some. by eapply H5.
Qed.

(** ** The memory of the program *)

(** A word of a cell in use or of a block of the program. *)
Definition cell_word g (x : Z) : Prop :=
  exists c o, c ∈ used g /\ x = c + o /\ 0 <= o /\ o + 8 <= AS /\ o mod 8 = 0.
Definition user_word G B (x : Z) : Prop :=
  (exists p g, G !! p = Some g /\ cell_word g x) \/ (exists a n, B !! a = Some n /\ inside (a, n) x).

Lemma cell_word_inside h g x :
  pool_ok h g -> cell_word g x ->
  exists ch c, ch ∈ chunks g /\ chunk_ok h ch /\ cell_of ch c /\ c ∈ used g /\ c <= x < c + AS /\ inside ch x.
Proof.
  intros Hg (c & o & Hc & -> & Ho & Hs & Hm).
  destruct (ok_cells_of _ _ Hg c) as (ch & Hin & Hcell); [apply elem_of_app; by right|].
  pose proof (chunk_in _ _ _ Hg Hin) as Hok.
  exists ch, c. do 5 (split; [done || lia|]). by apply (cell_inside _ _ _ _ Hok Hcell).
Qed.

Lemma user_word_ok w G B x : bulk_inv w G B -> user_word G B x -> word_ok (heap_of w) x = true.
Proof.
  intros Hw [(p & g & Hp & Hx)|(a & n & Ha & H1 & H2 & H3)].
  - destruct (inv_lookup _ _ _ _ _ Hw Hp) as (_ & _ & _ & Hg).
    destruct (cell_word_inside _ _ _ Hg Hx) as (ch & c & _ & Hok & _ & _ & _ & Hi).
    by eapply inside_word_ok.
  - unfold word_ok. rewrite H3. cbn. apply accessible_owned. exists a, n. split; [|cbn in *; lia].
    apply (inv_blocks _ _ _ Hw). by right.
Qed.

(** The pools keep their links elsewhere. *)
Lemma user_word_apart w G B x p g :
  bulk_inv w G B -> user_word G B x -> G !! p = Some g -> x ∉ (chunks g).*1 /\ x ∉ frees g.
Proof.
  intros Hw Hx Hp. destruct (inv_lookup _ _ _ _ _ Hw Hp) as (_ & _ & _ & Hg).
  pose proof (inv_ready _ _ _ Hw) as Hr.
  destruct Hx as [(q & g2 & Hq & Hx)|(a & n & Ha & Hx)].
  - destruct (inv_lookup _ _ _ _ _ Hw Hq) as (_ & _ & _ & Hg2).
    destruct (cell_word_inside _ _ _ Hg2 Hx) as (ch & c & Hin & Hok & Hcell & Hus & Hrange & Hi).
    assert (Hsame : forall ch', ch' ∈ chunks g -> inside ch' x -> p = q /\ ch' = ch).
    { intros ch' Hin' Hi'. assert (ch' = ch) as ->.
      { eapply inside_unique; [done|by apply (chunk_in _ g)|exact Hok|done..]. }
      split; [|done]. eapply (inv_apart _ _ _ Hw p q g g2 ch.1); [done|done|by apply list_elem_of_fmap_2..]. }
    split; intros Hbad.
    + apply list_elem_of_fmap in Hbad as (ch' & -> & Hin').
      pose proof (chunk_in _ _ _ Hg Hin') as Hok'.
      destruct (Hsame ch' Hin') as [_ ->]; [by eapply header_inside|].
      pose proof (cell_bounds _ _ _ Hok Hcell). pose proof AL_multiple. lia.
    + destruct (ok_cells_of _ _ Hg x) as (ch' & Hin' & Hcell'); [apply elem_of_app; by left|].
      pose proof (chunk_in _ _ _ Hg Hin') as Hok'.
      destruct (Hsame ch' Hin') as [-> ->]; [by eapply cell_start_inside|]. simplify_eq.
      destruct (cells_apart _ _ _ _ _ Hr Hok Hok Hcell Hcell') as [<-|[|]]; [|lia|lia].
      pose proof (ok_cells _ _ Hg) as (_ & Hdis & _)%NoDup_app. by destruct (Hdis c).
  - split; intros Hbad; (eapply (client_apart w G B p g a n x); [done..| |done]).
    + by eapply header_word.
    + eapply free_word; [done|]. apply elem_of_app. by left.
Qed.

Lemma user_write_ok w G B x v :
  bulk_inv w G B -> user_word G B x ->
  exists w', write_word x v w = Ok w' tt /\
    (forall y, word_at (words w') y = if decide (x = y) then v else word_at (words w) y) /\
    bulk_inv w' G B.
Proof.
  intros Hw Hx. eexists. split; [|split].
  - apply write_word_ok. by eapply user_word_ok.
  - intros y. apply word_at_write.
  - pose proof (user_word_apart w G B x) as Hap. destruct Hw as [H1 H2 H3 H4 H5 H6] eqn:E. clear E.
    constructor; cbn [heap_of words pools]; try done.
    intros p. specialize (H2 p). destruct (pools w !! p) as [b|], (G !! p) as [g|] eqn:Hp;
      inversion H2 as [? ? [[Hc Hl] Hg]|]; subst; constructor.
    split; [|done]. destruct (Hap p g) as [Hxc Hxf]; [done..|].
    split; (eapply links_frame; [|done]); intros y Hy; rewrite word_at_write, decide_False; congruence.
Qed.
End ops.
