(* ===== verification/HeapBlocks.v ===== *)
(** * The heap as an allocator of bytes

    [aligned_allocator] for bytes, on the heap of the library, is what the pools and the
    tables take their memory from.  It implements [bytes_heap], for alignments up to the
    one that every block of the kernel has: the allocator asks for the alignment of a
    byte, whatever the objects are. *)
From Stdlib Require Import ZArith Lia.
From stdpp Require Import base list gmap numbers sets.
From S2P Require Import Prelude Heap HeapTheorems BulkPool BulkPoolSpec.
#[local] Open Scope Z_scope.

Section blocks.
Context `{K : kernel_heap} `{P : heap_program} (tag : new_tag).
Implicit Types (s : heap_state) (a n : Z).

(** [basic_paged_allocator<byte>] and [basic_non_paged_allocator<byte>]. *)
Definition byte_allocator : allocator := aligned_allocator tag 1.

Definition block_owned s a n : Prop := live s !! a = Some (n, DEFAULT_HEAP_TAG) /\ 0 < n.

(** No new-handler is installed, no block is at the null address and the blocks in use
    do not overlap. *)
Definition heap_ready s : Prop :=
  calm s /\ new_handler s = None /\ (forall a nt, live s !! a = Some nt -> 0 < a) /\
  forall a b n m t u, live s !! a = Some (n, t) -> live s !! b = Some (m, u) -> a = b \/ apart a n b m.

Definition heap_accessible s a n : bool :=
  existsb (fun bm : Z * (Z * Z) => (bm.1 <=? a) && (a + n <=? bm.1 + bm.2.1) && (bm.2.2 =? DEFAULT_HEAP_TAG) && (0 <? bm.2.1))
    (map_to_list (live s)).

#[export] Instance heap_bytes : bytes_heap heap_state := {
  bytes_alloc n := Heap.allocate_bytes byte_allocator n 1;
  bytes_free a n := Heap.deallocate_bytes byte_allocator a n;
  accessible := heap_accessible;
}.

Lemma heap_accessible_owned s a n :
  heap_accessible s a n = true <-> exists b m, block_owned s b m /\ b <= a /\ a + n <= b + m.
Proof.
  unfold heap_accessible. rewrite existsb_exists. split.
  - intros ([b [m t]] & Hin & E). apply list_elem_of_In, elem_of_map_to_list in Hin. cbn in *.
    exists b, m. unfold block_owned. replace t with DEFAULT_HEAP_TAG in Hin by lia. split; [split; [done|lia]|lia].
  - intros (b & m & [Hl Hm] & H1 & H2). exists (b, (m, DEFAULT_HEAP_TAG)). split.
    + by apply list_elem_of_In, elem_of_map_to_list.
    + cbn. lia.
Qed.

Lemma block_owned_apart s a n b m :
  heap_ready s -> block_owned s a n -> block_owned s b m ->
  (a = b /\ n = m) \/ a + n <= b \/ b + m <= a.
Proof.
  intros (_ & _ & _ & Hap) [Ha Hn] [Hb Hm]. destruct (Hap _ _ _ _ _ _ Ha Hb) as [->|]; [|unfold apart in *; lia].
  left. split; congruence.
Qed.

Definition byte_form : new_form := NewForm (Some 1) (Some tag) false.

Lemma byte_form_ok : form_ok byte_form.
Proof. by exists 0. Qed.

Lemma tag_alignment t : get_max_alignment_for_pool (pool_of_tag false (Some t)) = 16.
Proof. by destruct t. Qed.

Lemma byte_block n : requested false byte_form n = n.
Proof. unfold requested, block_size, alignment_of_form. cbn. by destruct tag. Qed.

Lemma heap_alloc_ok s n :
  heap_ready s -> 0 < n < 2 ^ 64 ->
  match Heap.allocate_bytes byte_allocator n 1 s with
  | Ok s' a => heap_ready s' /\ 0 < a /\ a mod 16 = 0 /\ (forall m, ~ block_owned s a m) /\
      forall b m, block_owned s' b m <-> (b = a /\ m = n) \/ block_owned s b m
  | Throw s' e => s' = s /\ e = bad_alloc
  | Fault | Diverge => False
  end.
Proof.
  intros (Hcalm & Hh & Hnull & Hap) Hn. unfold Heap.allocate_bytes, byte_allocator. fold byte_form.
  rewrite operator_new_eq. destruct (granted false byte_form n s) as [a|] eqn:Hg.
  - rewrite new_loop_granted with (p := a) by (done || apply byte_form_ok). rewrite byte_block.
    unfold granted in Hg. rewrite byte_block in Hg.
    pose proof (pool_address _ _ _ _ _ Hg) as (Hpos & Hnew & Hal & _).
    pose proof (fun b m t => pool_apart _ _ _ _ _ b m t Hg) as Hapart.
    split; [|split; [done|split; [|split]]].
    + split; [done|]. split; [done|]. cbn [live set_live]. split.
      * intros b nt [[<- _]|[_ Hb]]%lookup_insert_Some; [done|by eapply Hnull].
      * intros b c k m t u [[<- E]|[_ Hb]]%lookup_insert_Some [[<- E']|[_ Hc]]%lookup_insert_Some;
          simplify_eq; [by left|right; by eapply Hapart| |by eapply Hap].
        right. pose proof (Hapart _ _ _ Hb). unfold apart in *. lia.
    + by rewrite <- (tag_alignment tag).
    + intros m [Hm _]. congruence.
    + intros b m. unfold block_owned. cbn [live set_live]. rewrite lookup_insert_Some. split.
      * intros [[[<- E]|[_ Hb]] Hm]; simplify_eq; [by left|by right].
      * intros [[-> ->]|[Hb Hm]]; (split; [|lia]); [by left|]. right. split; [congruence|done].
  - rewrite new_loop_refused, Hh by (done || apply byte_form_ok). done.
Qed.

Lemma heap_free_ok s a n k :
  heap_ready s -> block_owned s a n ->
  exists s', Heap.deallocate_bytes byte_allocator a k s = Ok s' tt /\ heap_ready s' /\
    forall b m, block_owned s' b m <-> b <> a /\ block_owned s b m.
Proof.
  intros (Hcalm & Hh & Hnull & Hap) [Hl Hn]. pose proof (Hnull _ _ Hl). eexists. split.
  { unfold Heap.deallocate_bytes, byte_allocator, operator_delete, operator_delete_impl.
    by apply (deallocate_memory_ok a n); [lia|..]. }
  split.
  - do 2 (split; [done|]). cbn [live set_live]. split; [intros b nt [_ Hb]%lookup_delete_Some; by eapply Hnull|].
    intros b c p m t u [_ Hb]%lookup_delete_Some [_ Hc]%lookup_delete_Some.
    by eapply Hap.
  - intros b m. unfold block_owned. cbn [live set_live]. rewrite lookup_delete_Some. naive_solver.
Qed.

(** The laws, for objects that do not ask for more than 16 bytes. *)
Lemma small_alignment alignof_Ty a :
  (exists k, 0 <= k <= 4 /\ alignof_Ty = 2 ^ k) -> a mod 16 = 0 -> a mod ALIGNMENT alignof_Ty = 0.
Proof.
  intros (k & Hk & ->) Ha.
  assert (exists j, 0 <= j <= 4 /\ ALIGNMENT (2 ^ k) = 2 ^ j) as (j & Hj & ->).
  { assert (k = 0 \/ k = 1 \/ k = 2 \/ k = 3 \/ k = 4) as [->|[->|[->|[->| ->]]]] by lia;
      first [by exists 3|by exists 4]. }
  by apply (pow2_multiple a j 4).
Qed.

Definition heap_bytes_laws alignof_Ty (Hal : exists k, 0 <= k <= 4 /\ alignof_Ty = 2 ^ k) :
  bytes_heap_laws heap_state (ALIGNMENT alignof_Ty).
Proof.
  exists block_owned heap_ready.
  - exact heap_accessible_owned.
  - exact block_owned_apart.
  - intros s n Hs Hn. pose proof (heap_alloc_ok s n Hs Hn) as Hok. cbn [bytes_alloc heap_bytes].
    destruct (Heap.allocate_bytes byte_allocator n 1 s) as [s' a| | |]; try done.
    destruct Hok as (? & ? & Ha & ?). split; [done|]. split; [done|]. split; [by apply small_alignment|done].
  - exact heap_free_ok.
Defined.
End blocks.
