(* ===== verification/BulkPoolTheorems.v ===== *)
(** * Programs that use pools

    A program creates, copies, moves, swaps, resets and destroys pools, takes and returns
    cells, takes blocks of its own from the allocator of bytes and gives them to pools,
    and writes to the memory it holds.  The contract says what each operation does to the
    chunks, the free cells and the cells in use; the memory a program holds belongs to it
    alone. *)
From Stdlib Require Import ZArith Lia.
From stdpp Require Import base list gmap numbers sets.
From S2P Require Import Prelude Heap HeapTheorems BulkPool BulkPoolSpec BulkPoolOps HeapBlocks.
#[local] Open Scope Z_scope.

Inductive bulk_op :=
  | NewPool (p : nat) | CopyPool (p other : nat) | MovePool (p other : nat)
  | CopyAssignPool (p other : nat) | MoveAssignPool (p other : nat) | SwapPools (p other : nat)
  | ResetPool (p : nat) | DestroyPool (p : nat)
  | Allocate (p : nat) | Deallocate (p : nat) (c : Z)
  | AllocateBytes (n : Z) | DeallocateBytes (a n : Z) | AddOrFree (p : nat) (a n : Z)
  | Store (x v : Z).

Section program.
Context {H : Type} `{bytes_heap H} {sizeof_Ty alignof_Ty MinNumAllocs MaxNumAllocs : Z}.
Context `{!pool_sizes sizeof_Ty alignof_Ty MinNumAllocs MaxNumAllocs}.
Context `{!bytes_heap_laws H (ALIGNMENT alignof_Ty)}.
Implicit Types (w : pool_world H) (p q : nat) (c a n x : Z) (g : pool_state).
Implicit Types (G : gmap nat pool_state) (B : gmap Z Z).

Abbreviation AL := (ALIGNMENT alignof_Ty).
Abbreviation AS := (ALIGNED_SIZE sizeof_Ty alignof_Ty).
Abbreviation bulk_inv := (bulk_inv (sizeof_Ty := sizeof_Ty) (alignof_Ty := alignof_Ty)).
Abbreviation cell_of := (cell_of (sizeof_Ty := sizeof_Ty) (alignof_Ty := alignof_Ty)).
Abbreviation chunk_ok := (chunk_ok (sizeof_Ty := sizeof_Ty) (alignof_Ty := alignof_Ty)).
Abbreviation user_word := (user_word (sizeof_Ty := sizeof_Ty) (alignof_Ty := alignof_Ty)).

(** [k] bounds the number of chunks that a reset may meet. *)
Definition bulk_step (k : nat) (op : bulk_op) : M (pool_world H) (option Z) :=
  let quiet (m : M (pool_world H) unit) := _ ← m; mret None in
  let result (m : M (pool_world H) Z) := r ← m; mret (Some r) in
  match op with
  | NewPool p => quiet (new_pool p)
  | CopyPool p other => quiet (pool_copy p other)
  | MovePool p other => quiet (pool_move p other)
  | CopyAssignPool p other => quiet (pool_copy_assign p other)
  | MoveAssignPool p other => quiet (pool_move_assign sizeof_Ty alignof_Ty k p other)
  | SwapPools p other => quiet (pool_swap p other)
  | ResetPool p => quiet (pool_reset sizeof_Ty alignof_Ty k p)
  | DestroyPool p => quiet (bulk_destroy sizeof_Ty alignof_Ty k p)
  | Allocate p => result (bulk_allocate sizeof_Ty alignof_Ty MinNumAllocs MaxNumAllocs p)
  | Deallocate p c => quiet (bulk_deallocate p c)
  | AllocateBytes n => result (allocate_bytes n)
  | DeallocateBytes a n => quiet (deallocate_bytes a n)
  | AddOrFree p a n => quiet (addOrFree sizeof_Ty alignof_Ty p a n)
  | Store x v => quiet (write_word x v)
  end.

(** ** The contract *)

Definition exists_pool G p : Prop := is_Some (G !! p).

(** What a program has to keep to: new pools have new names, a cell goes back to the pool
    it comes from, and memory is written only while it is held. *)
Definition legal (op : bulk_op) G B : Prop :=
  match op with
  | NewPool p => G !! p = None
  | CopyPool p other | MovePool p other => G !! p = None /\ exists_pool G other
  | CopyAssignPool p other | MoveAssignPool p other | SwapPools p other =>
      exists_pool G p /\ exists_pool G other
  | ResetPool p | DestroyPool p | Allocate p => exists_pool G p
  | Deallocate p c => exists g, G !! p = Some g /\ c ∈ used g
  | AllocateBytes n => 0 < n < 2 ^ 64
  | DeallocateBytes a n => B !! a = Some n
  | AddOrFree p a n => exists_pool G p /\ B !! a = Some n
  | Store x v => user_word G B x
  end.

(** A cell is taken from the list of free cells, or from a new chunk when there is none. *)
Definition allocates G B p c G' : Prop :=
  exists g, G !! p = Some g /\
  ((exists fr, frees g = c :: fr /\ G' = <[p := PoolState (chunks g) fr (c :: used g)]> G) \/
   (exists ch k fr, frees g = [] /\ chunk_number (MinNumAllocs := MinNumAllocs) (MaxNumAllocs := MaxNumAllocs) g k /\
      fresh_chunk (sizeof_Ty := sizeof_Ty) (alignof_Ty := alignof_Ty) G B ch k /\
      chunk_cells (sizeof_Ty := sizeof_Ty) (alignof_Ty := alignof_Ty) ch = c :: fr /\
      G' = <[p := PoolState (ch :: chunks g) fr (c :: used g)]> G)).

Definition effect (op : bulk_op) G B (r : option Z) G' B' : Prop :=
  match op with
  | NewPool p | CopyPool p _ | ResetPool p => G' = <[p := empty_pool]> G /\ B' = B
  | MovePool p other =>
      exists g, G !! other = Some g /\ G' = <[other := empty_pool]> (<[p := g]> G) /\ B' = B
  | CopyAssignPool _ _ | Store _ _ => G' = G /\ B' = B
  | MoveAssignPool p other =>
      exists g, G !! other = Some g /\ B' = B /\
      G' = if decide (p = other) then <[p := empty_pool]> G
           else <[other := empty_pool]> (<[p := g]> G)
  | SwapPools p other =>
      exists g g', G !! p = Some g /\ G !! other = Some g' /\
      G' = <[other := g]> (<[p := g']> G) /\ B' = B
  | DestroyPool p => G' = delete p G /\ B' = B
  | Allocate p => exists c, r = Some c /\ allocates G B p c G' /\ B' = B
  | Deallocate p c => exists g us, G !! p = Some g /\ used g ≡ₚ c :: us /\
      G' = <[p := PoolState (chunks g) (c :: frees g) us]> G /\ B' = B
  | AllocateBytes n => exists a, r = Some a /\ B !! a = None /\ G' = G /\ B' = <[a := n]> B
  | DeallocateBytes a n => G' = G /\ B' = delete a B
  | AddOrFree p a n => exists g, G !! p = Some g /\ B' = delete a B /\
      G' = if n <? AL + AS then G
           else <[p := with_chunk (sizeof_Ty := sizeof_Ty) (alignof_Ty := alignof_Ty) (a, n) g]> G
  end.

(** The words that the program itself writes. *)
Definition stored (op : bulk_op) x : option Z :=
  match op with Store y v => if decide (y = x) then Some v else None | _ => None end.

(** Every pool has at most [k] chunks. *)
Definition few_chunks (k : nat) G : Prop := forall p g, G !! p = Some g -> (length (chunks g) <= k)%nat.

(** What holds after an operation: the contract, and the memory that the program held
    before and still holds has kept its contents. *)
Definition step_result (op : bulk_op) w G B (o : outcome (pool_world H) (option Z)) : Prop :=
  match o with
  | Ok w' r => exists G' B', effect op G B r G' B' /\ bulk_inv w' G' B' /\
      forall x, user_word G B x -> user_word G' B' x ->
        word_at (words w') x = default (word_at (words w) x) (stored op x)
  | Throw w' e => w' = w /\ e = bad_alloc
  | Fault | Diverge => False
  end.

(** ** Where the memory of the program lies *)

Lemma user_block w G B x :
  bulk_inv w G B -> user_word G B x ->
  exists ch, inside ch x /\ owned (heap_of w) ch.1 ch.2 /\
    ((exists p g, G !! p = Some g /\ ch ∈ chunks g /\ cell_word (sizeof_Ty := sizeof_Ty) (alignof_Ty := alignof_Ty) g x) \/
     B !! ch.1 = Some ch.2).
Proof.
  intros Hw [(p & g & Hp & Hx)|(a & n & Ha & Hi)].
  - destruct (inv_lookup _ _ _ _ _ Hw Hp) as (_ & _ & _ & Hg).
    destruct (cell_word_inside _ _ _ Hg Hx) as (ch & c & Hin & Hok & _ & _ & _ & Hi).
    exists ch. split; [done|]. split; [apply Hok|]. left; eauto.
  - exists (a, n). split; [done|]. split; [|by right]. apply (inv_blocks _ _ _ Hw). by right.
Qed.

(** A new chunk takes nothing from the program. *)
Lemma fresh_apart w' G B p g g' ch k x :
  G !! p = Some g -> fresh_chunk (sizeof_Ty := sizeof_Ty) (alignof_Ty := alignof_Ty) G B ch k ->
  chunks g' = ch :: chunks g ->
  bulk_inv w' (<[p := g']> G) B ->
  forall w, bulk_inv w G B -> user_word G B x -> ~ inside ch x.
Proof.
  intros Hp (_ & HB & Hfresh) Hc Hw' w Hw Hx Hi.
  destruct (user_block _ _ _ _ Hw Hx) as ([a n] & Hi' & _ & Hwhere).
  assert (Ho : owned (heap_of w') a n).
  { apply (inv_blocks _ _ _ Hw'). destruct Hwhere as [(q & g2 & Hq & Hin & _)|]; [left|by right].
    destruct (decide (q = p)) as [->|Hne].
    - simplify_eq. exists p, g'. rewrite lookup_insert_eq, Hc. split; [done|by right].
    - exists q, g2. by rewrite lookup_insert_ne. }
  assert (Hoc : owned (heap_of w') ch.1 ch.2).
  { apply (inv_blocks _ _ _ Hw'). left. exists p, g'. rewrite lookup_insert_eq, Hc. split; [done|].
    destruct ch. by left. }
  pose proof (owned_unique _ ch (a, n) x (inv_ready _ _ _ Hw') Hoc Ho Hi Hi') as ->. cbn in *.
  destruct Hwhere as [(q & g2 & Hq & Hin & _)|]; [|congruence].
  apply (Hfresh q g2 Hq). apply list_elem_of_fmap. by exists (a, n).
Qed.

(** Neither does a block that the program gives away. *)
Lemma given_apart w G B p g a n x :
  bulk_inv w G B -> G !! p = Some g -> B !! a = Some n ->
  user_word (<[p := with_chunk (sizeof_Ty := sizeof_Ty) (alignof_Ty := alignof_Ty) (a, n) g]> G) (delete a B) x ->
  ~ inside (a, n) x.
Proof.
  intros Hw Hp Ha Hx Hi.
  assert (Hcell : forall q g2, G !! q = Some g2 -> cell_word (sizeof_Ty := sizeof_Ty) (alignof_Ty := alignof_Ty) g2 x -> False).
  { intros q g2 Hq Hc. destruct (inv_lookup _ _ _ _ _ Hw Hq) as (_ & _ & _ & Hg2).
    destruct (cell_word_inside _ _ _ Hg2 Hc) as (ch & c & Hin & _ & _ & _ & _ & Hi2).
    eapply (client_apart w G B q g2 a n x); try done. by exists ch. }
  destruct Hx as [(q & g2 & Hq & Hc)|(b & m & Hb & Hib)].
  - apply lookup_insert_Some in Hq as [[<- <-]|[_ Hq]]; [by apply (Hcell p g)|by apply (Hcell q g2)].
  - apply lookup_delete_Some in Hb as [Hne Hb].
    assert ((a, n) = (b, m)); [|congruence].
    eapply (owned_unique (heap_of w)); eauto using inv_ready; apply (inv_blocks _ _ _ Hw); by right.
Qed.

(** ** Every operation keeps the contract *)

(** An operation that writes no word. *)
Lemma result_same op w G B w' r G' B' :
  effect op G B r G' B' ->
  bulk_inv w' G' B' -> words w' = words w -> (forall x, stored op x = None) ->
  step_result op w G B (Ok w' r).
Proof. intros He Hw Hws Hst. exists G', B'. do 2 (split; [done|]). intros x _ _. by rewrite Hws, Hst. Qed.

Lemma take_ok w G B p q gq :
  bulk_inv w G B -> pools w !! p = Some (BulkPool 0 0) -> G !! p = Some empty_pool -> G !! q = Some gq ->
  exists w', take_members p q w = Ok w' tt /\ words w' = words w /\
    bulk_inv w' (<[q := empty_pool]> (<[p := gq]> G)) B.
Proof.
  intros Hw Hb Hp Hq. destruct (inv_lookup _ _ _ _ _ Hw Hq) as (b & Hbq & _).
  rewrite take_members_swap by (done || by eexists). by eapply pool_swap_ok.
Qed.

(** The operation is known to return. *)
Ltac run H := erewrite bind_Ok by exact H; cbv [mret M_ret].

Lemma copies_ok k op w G B :
  bulk_inv w G B -> legal op G B -> few_chunks k G ->
  match op with
  | NewPool _ | CopyPool _ _ | MovePool _ _ | CopyAssignPool _ _ | MoveAssignPool _ _
  | SwapPools _ _ | ResetPool _ | DestroyPool _ => True
  | _ => False
  end -> step_result op w G B (bulk_step k op w).
Proof.
  intros Hw Hok Hk Hop. destruct op; try done; cbn [legal bulk_step] in *.
  - destruct (new_pool_ok w G B p Hw Hok) as (w' & Hrun & Hws & _ & Hw'). run Hrun.
    by eapply result_same.
  - destruct Hok as [Hp [g Hg]]. destruct (new_pool_ok w G B p Hw Hp) as (w' & Hrun & Hws & _ & Hw').
    destruct (inv_lookup _ _ _ _ _ Hw Hg) as (b & Hb & _).
    assert (Hcopy : pool_copy p other w = Ok w' tt) by (unfold pool_copy; by step (get_pool_ok _ _ _ Hb)).
    run Hcopy. by eapply result_same.
  - destruct Hok as [Hp [g Hg]]. destruct (new_pool_ok w G B p Hw Hp) as (w1 & Hrun & Hws & Hb1 & Hw1).
    destruct (inv_lookup _ _ _ _ _ Hw Hg) as (b & Hb & _).
    destruct (take_ok w1 _ B p other g Hw1 Hb1) as (w' & Htake & Hws' & Hw');
      [apply lookup_insert_eq|by rewrite lookup_insert_ne by congruence|].
    assert (Hmove : pool_move p other w = Ok w' tt).
    { unfold pool_move. step (get_pool_ok _ _ _ Hb). by step Hrun. }
    run Hmove. rewrite insert_insert_eq in Hw'. eapply result_same; [|exact Hw'|congruence|done].
    cbn. eauto.
  - destruct Hok as [[g Hg] [g2 Hg2]].
    destruct (inv_lookup _ _ _ _ _ Hw Hg) as (b & Hb & _).
    destruct (inv_lookup _ _ _ _ _ Hw Hg2) as (b2 & Hb2 & _).
    assert (Hcopy : pool_copy_assign p other w = Ok w tt).
    { unfold pool_copy_assign. step (get_pool_ok _ _ _ Hb). by step (get_pool_ok _ _ _ Hb2). }
    run Hcopy. by eapply result_same.
  - destruct Hok as [[g Hg] [g2 Hg2]]. destruct (inv_lookup _ _ _ _ _ Hw Hg2) as (b2 & Hb2 & _).
    destruct (pool_reset_ok w G B p g k Hw Hg (Hk _ _ Hg)) as (w1 & Hrun & Hws & Hb1 & Hw1).
    set (g3 := if decide (p = other) then empty_pool else g2).
    destruct (take_ok w1 _ B p other g3 Hw1) as (w' & Htake & Hws' & Hw').
    { rewrite Hb1. apply lookup_insert_eq. }
    { apply lookup_insert_eq. }
    { unfold g3. rewrite lookup_insert. by case_decide. }
    assert (Hmove : pool_move_assign sizeof_Ty alignof_Ty k p other w = Ok w' tt).
    { unfold pool_move_assign. step (get_pool_ok _ _ _ Hb2). by step Hrun. }
    run Hmove. eapply result_same; [|exact Hw'|congruence|done].
    cbn. exists g2. split; [done|]. split; [done|]. unfold g3. case_decide; subst; by rewrite !insert_insert_eq.
  - destruct Hok as [[g Hg] [g2 Hg2]].
    destruct (pool_swap_ok w G B p other g g2 Hw Hg Hg2) as (w' & Hrun & Hws & Hw'). run Hrun.
    eapply result_same; try done. cbn. eauto 8.
  - destruct Hok as [g Hg]. destruct (pool_reset_ok w G B p g k Hw Hg (Hk _ _ Hg)) as (w' & Hrun & Hws & _ & Hw').
    run Hrun. by eapply result_same.
  - destruct Hok as [g Hg]. destruct (pool_reset_ok w G B p g k Hw Hg (Hk _ _ Hg)) as (w1 & Hrun & Hws & _ & Hw1).
    assert (Hdel : bulk_destroy sizeof_Ty alignof_Ty k p w =
      Ok (PoolWorld (words w1) (heap_of w1) (delete p (pools w1))) tt) by (unfold bulk_destroy; by step Hrun).
    run Hdel. eapply result_same; [done| |done|done].
    pose proof (delete_pool_ok w1 _ B p Hw1 (lookup_insert_eq _ _ _)) as Hd. by rewrite delete_insert_eq in Hd.
Qed.

Lemma memory_ok k op w G B :
  bulk_inv w G B -> legal op G B ->
  match op with
  | Allocate _ | Deallocate _ _ | AllocateBytes _ | DeallocateBytes _ _ | AddOrFree _ _ _ | Store _ _ => True
  | _ => False
  end -> step_result op w G B (bulk_step k op w).
Proof.
  intros Hw Hok Hop. destruct op; try done; cbn [legal bulk_step] in *.
  - destruct Hok as [g Hg]. destruct (frees g) as [|c fr] eqn:Hfr.
    + pose proof (allocate_chunk w G B p g Hw Hg Hfr) as Hal. unfold mbind, M_bind.
      destruct (bulk_allocate _ _ _ _ p w) as [w' c|w' e| |]; try done.
      destruct Hal as (ch & j & fr & Hj & Hfresh & Hcells & Hout & Hw').
      eexists _, B. split; [|split; [exact Hw'|]].
      { exists c. split; [done|]. split; [|done]. exists g. split; [done|]. right. exists ch, j, fr. done. }
      intros x Hx _. cbn. apply Hout. by apply (fresh_apart w' G B p g (PoolState (ch :: chunks g) fr (c :: used g)) ch j x Hg Hfresh eq_refl Hw' w).
    + destruct (allocate_free w G B p g c fr Hw Hg Hfr) as (w' & Hrun & Hws & Hw'). run Hrun.
      eapply result_same; try done. exists c. split; [done|]. split; [|done].
      exists g. split; [done|]. left. by exists fr.
  - destruct Hok as (g & Hg & [us Hus]%elem_of_Permutation).
    destruct (deallocate_ok w G B p g c us Hw Hg Hus) as (w' & Hrun & Hout & Hw'). run Hrun.
    eexists _, B. split; [|split; [exact Hw'|]].
    { exists g, us. done. }
    intros x _ Hx. cbn. apply Hout. intros ->.
    destruct (user_word_apart w' _ B c p _ Hw' Hx (lookup_insert_eq _ _ _)) as [_ Hno]. apply Hno. by left.
  - pose proof (allocate_bytes_ok w G B n Hw Hok) as Hal. unfold mbind, M_bind.
    destruct (allocate_bytes n w) as [w' a|w' e| |]; try done.
    destruct Hal as (Hws & _ & HB & _ & Hw'). eapply result_same; try done. by exists a.
  - destruct (deallocate_bytes_ok w G B a n n Hw Hok) as (h' & Hrun & Hw'). run Hrun.
    by eapply result_same.
  - destruct Hok as [[g Hg] Ha]. unfold addOrFree. destruct (Z.ltb_spec n (AL + AS)) as [Hlt|Hge].
    + destruct (deallocate_bytes_ok w G B a n n Hw Ha) as (h' & Hrun & Hw'). run Hrun.
      eapply result_same; try done. exists g. split; [done|]. split; [done|].
      destruct (Z.ltb_spec n (AL + AS)); [done|lia].
    + destruct (add_chunk_ok w G B p g a n Hw Hg Ha Hge) as (w' & Hrun & Hout & Hw'). run Hrun.
      eexists _, _. split; [|split; [exact Hw'|]].
      { exists g. split; [done|]. split; [done|]. destruct (Z.ltb_spec n (AL + AS)); [lia|done]. }
      intros y _ Hy. cbn. apply Hout. by apply (given_apart w G B p g a n).
  - destruct (user_write_ok w G B x v Hw Hok) as (w' & Hrun & Hws & Hw'). run Hrun.
    exists G, B. split; [done|]. split; [done|]. intros y _ _. cbn [stored]. rewrite Hws. by case_decide.
Qed.

(** A chunk is added by an operation, or none. *)
Lemma effect_chunks j op G B r G' B' :
  effect op G B r G' B' -> few_chunks j G -> few_chunks (S j) G'.
Proof.
  intros He Hj. assert (Hempty : (length (chunks empty_pool) <= S j)%nat) by (cbn; lia).
  assert (Hold : forall p g, G !! p = Some g -> (length (chunks g) <= S j)%nat).
  { intros p g Hp. specialize (Hj p g Hp). lia. }
  assert (Hadd : forall p g ch, G !! p = Some g -> (length (ch :: chunks g) <= S j)%nat).
  { intros p g ch Hp. specialize (Hj p g Hp). cbn. lia. }
  intros p g Hp. destruct op; cbn [effect] in He;
    repeat match goal with
    | H : allocates _ _ _ _ _ |- _ => destruct H as (? & ? & [(? & ? & ?)|(? & ? & ? & ? & ? & ? & ? & ?)])
    | H : _ /\ _ |- _ => destruct H
    | H : exists _, _ |- _ => destruct H
    | H : context [decide (?a = ?b)] |- _ => destruct (decide (a = b))
    | H : context [?a <? ?b] |- _ => destruct (a <? b)
    end; subst;
    repeat match goal with
    | H : <[_ := _]> _ !! _ = Some _ |- _ => apply lookup_insert_Some in H as [[??]|[??]]
    | H : delete _ _ !! _ = Some _ |- _ => apply lookup_delete_Some in H as [??]
    end; subst; eauto; cbn [chunks with_chunk]; eauto.
Qed.

(** ** Properties *)

Abbreviation cell_word := (cell_word (sizeof_Ty := sizeof_Ty) (alignof_Ty := alignof_Ty)).

(** The memory of the program is its own: the cells in use are aligned, large enough for an
    object and apart from each other, from the blocks of the program and from the words in
    which the pools keep their links; and there are no blocks in use but the chunks of the
    pools and the blocks of the program. *)
Record held_apart w G B : Prop := {
  cells_usable p g c : G !! p = Some g -> c ∈ used g ->
    c mod AL = 0 /\ sizeof_Ty <= AS /\ forall x, cell_word g x -> word_ok (heap_of w) x = true;
  cells_separate p q g g' c c' : G !! p = Some g -> G !! q = Some g' ->
    c ∈ used g -> c' ∈ used g' -> (p = q /\ c = c') \/ c + AS <= c' \/ c' + AS <= c;
  cells_client p g c a n : G !! p = Some g -> c ∈ used g -> B !! a = Some n ->
    c + AS <= a \/ a + n <= c;
  links_elsewhere p g x : G !! p = Some g -> user_word G B x -> x ∉ (chunks g).*1 /\ x ∉ frees g;
  blocks_accounted a n : owned (heap_of w) a n <->
    (exists p g, G !! p = Some g /\ (a, n) ∈ chunks g) \/ B !! a = Some n;
}.

Lemma inv_held w G B : bulk_inv w G B -> held_apart w G B.
Proof.
  intros Hw. pose proof (inv_ready _ _ _ Hw) as Hr.
  assert (Hcell : forall p g c, G !! p = Some g -> c ∈ used g ->
    exists ch, ch ∈ chunks g /\ chunk_ok (heap_of w) ch /\ cell_of ch c).
  { intros p g c Hp Hc. destruct (inv_lookup _ _ _ _ _ Hw Hp) as (_ & _ & _ & Hg).
    destruct (ok_cells_of _ _ Hg c) as (ch & Hin & Hcell); [apply elem_of_app; by right|].
    exists ch. split; [done|]. split; [by eapply chunk_in|done]. }
  constructor.
  - intros p g c Hp Hc. destruct (Hcell _ _ _ Hp Hc) as (ch & _ & Hok & Hof).
    split; [by apply (cell_bounds _ _ _ Hok Hof)|]. split; [apply AS_ge|].
    intros x Hx. eapply user_word_ok; [done|]. left. eauto.
  - intros p q g g' c c' Hp Hq Hc Hc'.
    destruct (Hcell _ _ _ Hp Hc) as (ch & Hin & Hok & Hof), (Hcell _ _ _ Hq Hc') as (ch' & Hin' & Hok' & Hof').
    destruct (cells_apart _ _ _ _ _ Hr Hok Hok' Hof Hof') as [<-|]; [|by right]. left. split; [|done].
    assert (ch = ch') as <-.
    { eapply (inside_unique (heap_of w) ch ch' c); eauto using cell_start_inside. }
    eapply (inv_apart _ _ _ Hw p q g g' ch.1); [done|done|by apply list_elem_of_fmap_2..].
  - intros p g c a n Hp Hc Ha. destruct (Hcell _ _ _ Hp Hc) as ([b m] & Hin & Hok & Hof).
    assert (Ho : owned (heap_of w) a n) by (apply (inv_blocks _ _ _ Hw); by right).
    pose proof (cell_bounds _ _ _ Hok Hof) as (? & ? & _). pose proof AL_multiple. cbn [fst snd] in *.
    destruct (owned_apart _ _ _ _ _ Hr (proj1 Hok) Ho) as [[E1 E2]|]; cbn [fst snd] in *; [|lia].
    rewrite (inv_mine _ _ _ Hw p g a Hp) in Ha; [done|]. apply list_elem_of_fmap. by exists (b, m).
  - intros p g x Hp Hx. by eapply user_word_apart.
  - apply (inv_blocks _ _ _ Hw).
Qed.

(** A program keeps to the contract from here on: as long as what it does is legal, every
    operation has its effect, the memory that the program holds keeps its contents and
    stays its own, or the operation throws bad_alloc and changes nothing. *)
Fixpoint safe_run (k : nat) (os : list bulk_op) w G B : Prop :=
  match os with
  | [] => True
  | op :: os => legal op G B ->
      match bulk_step k op w with
      | Ok w' r => exists G' B', effect op G B r G' B' /\ held_apart w' G' B' /\
          (forall x, user_word G B x -> user_word G' B' x ->
            word_at (words w') x = default (word_at (words w) x) (stored op x)) /\
          safe_run k os w' G' B'
      | Throw w' e => w' = w /\ e = bad_alloc /\ safe_run k os w G B
      | Fault | Diverge => False
      end
  end.

(** C13: Programs that use any number of pools, starting with none, get cells that are
    theirs alone: every operation that a program may do has the effect of the contract,
    keeps the contents of all cells in use and of the program's own blocks, and ends; it
    fails only for want of memory. *)
Theorem pool_programs_correct (os : list bulk_op) k w G B :
  bulk_inv w G B -> few_chunks k G -> safe_run (k + length os) os w G B.
Proof.
  enough (Hgen : forall j, bulk_inv w G B -> few_chunks j G -> (j + length os <= k + length os)%nat ->
    safe_run (k + length os) os w G B) by (intros; by eapply Hgen).
  generalize (k + length os)%nat as m. intros m j. revert w G B j.
  induction os as [|op os IH]; intros w G B j Hw Hj Hm; [done|]. cbn [safe_run length] in *.
  intros Hok. assert (Hstep : step_result op w G B (bulk_step m op w)).
  { assert (few_chunks m G) by (intros p g Hp; specialize (Hj p g Hp); lia).
    destruct op; first [by apply copies_ok|by apply memory_ok]. }
  unfold step_result in Hstep. destruct (bulk_step m op w) as [w' r|w' e| |]; try done.
  - destruct Hstep as (G' & B' & He & Hw' & Hkeep). exists G', B'. split; [done|].
    split; [by apply inv_held|]. split; [done|]. apply (IH _ _ _ (S j)); [done|by eapply effect_chunks|lia].
  - destruct Hstep as [-> ->]. split; [done|]. split; [done|]. apply (IH _ _ _ j); [done|done|lia].
Qed.

(** A new chunk has room for between MinNumAllocs and MaxNumAllocs objects, twice as
    many for every chunk the pool has, as long as that is within the limit; its size in
    bytes does not wrap around. *)
Theorem chunk_sizes w G B p g :
  bulk_inv w G B -> G !! p = Some g ->
  exists n j, calcNumElementsToAlloc MinNumAllocs MaxNumAllocs p w = Ok w n /\
    n = MinNumAllocs * 2 ^ j /\ 0 <= j <= Z.of_nat (length (chunks g)) /\
    MinNumAllocs <= n <= MaxNumAllocs /\
    (j = Z.of_nat (length (chunks g)) \/ MaxNumAllocs < MinNumAllocs * 2 ^ (j + 1)) /\
    u64 (AL + AS * n) = AL + AS * n.
Proof.
  intros Hw Hp. destruct (calc_ok _ _ _ _ _ Hw Hp) as (n & Hrun & Hn).
  pose proof (chunk_number_range _ _ Hn). destruct Hn as (j & Hj & E & Hmax & Hlim).
  exists n, j. do 5 (split; [done|]). apply wrap_small.
  pose proof chunk_fits. pose proof AS_ge. pose proof AL_multiple. pose proof allocs_range. nia.
Qed.

(** A heap without blocks and a program without pools. *)
Lemma empty_inv h : ready h -> (forall a n, ~ owned h a n) -> bulk_inv (PoolWorld ∅ h ∅) ∅ ∅.
Proof.
  intros Hr Hown. constructor; cbn [heap_of words pools].
  - done.
  - intros p. rewrite !lookup_empty. constructor.
  - intros p q g g' a Hp. by rewrite lookup_empty in Hp.
  - intros a n. split; [by intros ?%Hown|]. intros [(p & g & Hp & _)|Ha]; by rewrite lookup_empty in *.
  - intros p g a Hp. by rewrite lookup_empty in Hp.
  - intros a n Ha. by rewrite lookup_empty in Ha.
Qed.
End program.

(** ** Instances: objects of 24 bytes on the heap of the library *)

#[local] Existing Instances demo_pool demo_program.
#[local] Instance demo_bytes : bytes_heap heap_state := heap_bytes paged_new.
#[local] Instance demo_bytes_laws : bytes_heap_laws heap_state (ALIGNMENT 8).
Proof. apply heap_bytes_laws. by exists 3. Defined.

#[local] Instance demo_sizes : pool_sizes 24 8 4 16384.
Proof. split; [by exists 3|lia|lia|done]. Qed.

Definition demo_pools : pool_world heap_state := PoolWorld ∅ demo_heap ∅.

Lemma demo_no_block a x : live demo_heap !! a = Some x -> False.
Proof. unfold demo_heap. cbn [live]. by rewrite lookup_empty. Qed.

Lemma demo_inv : bulk_inv (sizeof_Ty := 24) (alignof_Ty := 8) demo_pools ∅ ∅.
Proof.
  apply empty_inv.
  - split; [done|]. split; [done|]. split; [by intros a nt ?%demo_no_block|].
    by intros a b n m t u ?%demo_no_block.
  - by intros a n [?%demo_no_block _].
Qed.

Definition demo_pool_ops : list bulk_op :=
  [NewPool 0; Allocate 0; Allocate 0; Store 4112 7; Deallocate 0 4104; Allocate 0; NewPool 1;
   MoveAssignPool 1 0; DestroyPool 1].

Lemma pool_programs_correct_witness :
  safe_run (sizeof_Ty := 24) (alignof_Ty := 8) (MinNumAllocs := 4) (MaxNumAllocs := 16384)
    9 demo_pool_ops demo_pools ∅ ∅ /\
  exists w, (bulk_step (sizeof_Ty := 24) (alignof_Ty := 8) (MinNumAllocs := 4) (MaxNumAllocs := 16384) 9 (NewPool 0) ≫=
    fun _ => bulk_step (sizeof_Ty := 24) (alignof_Ty := 8) (MinNumAllocs := 4) (MaxNumAllocs := 16384) 9 (Allocate 0))
    demo_pools = Ok w (Some 4104).
Proof.
  split; [|eexists; vm_compute; reflexivity].
  apply (pool_programs_correct demo_pool_ops 0 demo_pools ∅ ∅ demo_inv).
  intros p g Hp. by rewrite lookup_empty in Hp.
Defined.

Lemma chunk_sizes_witness :
  exists w n, calcNumElementsToAlloc 4 16384 0 w = Ok w n /\ 4 <= n <= 16384.
Proof.
  destruct (new_pool_ok demo_pools ∅ ∅ 0 demo_inv) as (w & _ & _ & _ & Hw); [done|].
  destruct (chunk_sizes (sizeof_Ty := 24) (alignof_Ty := 8) (MinNumAllocs := 4) (MaxNumAllocs := 16384)
    w _ ∅ 0 empty_pool Hw (lookup_insert_eq _ _ _)) as (n & j & Hrun & _ & _ & Hn & _).
  by exists w, n.
Defined.
