(* ===== verification/Ratio.v ===== *)
(** * Compile-time rational numbers (include/ratio.hpp)

    A [ratio] is a fraction of two 64-bit integers in lowest terms.  The arithmetic is
    done by the compiler: a failed [static_assert], a division by zero or an overflow in
    a constant expression makes the program ill-formed.  The comparison of two ratios
    multiplies 64-bit integers to 128-bit integers in halves. *)
From Stdlib Require Import ZArith Lia.
From stdpp Require Import base list numbers.
From S2P Require Import Prelude.
#[local] Open Scope Z_scope.

(** ** Values of constant expressions and of arithmetic *)

(** [IllFormed]: the program does not compile.  [Undefined]: undefined behaviour at run
    time, the overflow of a signed integer or a division by zero. *)
Inductive ceval (A : Type) := Val (a : A) | Undefined | IllFormed.
Arguments Val {A} a.
Arguments Undefined {A}.
Arguments IllFormed {A}.

#[global] Instance ceval_ret : MRet ceval := fun A a => Val a.
#[global] Instance ceval_bind : MBind ceval := fun A B k m =>
  match m with Val a => k a | Undefined => Undefined | IllFormed => IllFormed end.

Definition static_assert (b : bool) : ceval unit := if b then Val tt else IllFormed.

(** The values of a signed integer of [w] bits. *)
Definition fits (w x : Z) : Prop := - 2 ^ (w - 1) <= x < 2 ^ (w - 1).

#[export] Instance fits_dec w x : Decision (fits w x).
Proof. unfold fits; apply _. Defined.

(** The result of signed arithmetic on [w] bits at run time and in a constant
    expression of type [intmax_t]. *)
Definition checked (w x : Z) : ceval Z := if decide (fits w x) then Val x else Undefined.
Definition constant (x : Z) : ceval Z := if decide (fits 64 x) then Val x else IllFormed.

(** [numeric_limits<intmax_t>]. *)
Definition intmax_max : Z := 2 ^ 63 - 1.
Definition intmax_min : Z := - 2 ^ 63.

(** ** Helpers *)

Definition rat_abs (Value : Z) : ceval Z :=
  _ ← static_assert (negb (Value =? intmax_min));
  Val (if Value <? 0 then - Value else Value).

Definition safe_multiply (Lhs Rhs : Z) : ceval Z :=
  l ← rat_abs Lhs;
  r ← (if Rhs =? 0 then Val 1 else rat_abs Rhs);
  if l <=? intmax_max ÷ r then Val (Lhs * Rhs) else IllFormed.

Definition sign_of (Value : Z) : Z := if Value <? 0 then -1 else 1.

Definition safe_add (Lhs Rhs : Z) : ceval Z :=
  l ← rat_abs Lhs;
  r ← rat_abs Rhs;
  if negb (sign_of Lhs =? sign_of Rhs) || (l <=? intmax_max - r) then Val (Lhs + Rhs)
  else IllFormed.

(** Each level is an instantiation of the template; [gcd_depth] levels are enough for
    64-bit integers. *)
Fixpoint gcd_impl (depth : nat) (Lhs Rhs : Z) : ceval Z :=
  match depth with
  | O => IllFormed
  | S depth => if Rhs =? 0 then Val Lhs else gcd_impl depth Rhs (Z.rem Lhs Rhs)
  end.

Definition gcd_depth : nat := 130.

Definition gcd (Lhs Rhs : Z) : ceval Z :=
  if (Lhs =? 0) && (Rhs =? 0) then Val 1 else
  l ← rat_abs Lhs;
  r ← rat_abs Rhs;
  gcd_impl gcd_depth l r.

(** [lcm] of chrono.hpp. *)
Definition lcm (Lhs Rhs : Z) : ceval Z := g ← gcd Lhs Rhs; constant ((Lhs ÷ g) * Rhs).

(** ** ratio *)

(** The members [num] and [den] of an instantiation. *)
Record ratio := Ratio { num : Z; den : Z }.

#[export] Instance ratio_eq_dec : EqDecision ratio.
Proof. solve_decision. Defined.

(** The instantiation [ratio<Nx, Dx>]. *)
Definition ratio_of (Nx Dx : Z) : ceval ratio :=
  _ ← static_assert (negb (Dx =? 0));
  _ ← static_assert (- intmax_max <=? Nx);
  _ ← static_assert (- intmax_max <=? Dx);
  n ← rat_abs Nx;
  d ← rat_abs Dx;
  g ← gcd Nx Dx;
  Val (Ratio ((sign_of Nx * sign_of Dx * n) ÷ g) (d ÷ g)).

Definition ratio_multiply (RxLhs RxRhs : ratio) : ceval ratio :=
  Gx ← gcd (num RxLhs) (den RxRhs);
  Gy ← gcd (num RxRhs) (den RxLhs);
  n ← safe_multiply (num RxLhs ÷ Gx) (num RxRhs ÷ Gy);
  d ← safe_multiply (den RxLhs ÷ Gy) (den RxRhs ÷ Gx);
  ratio_of n d.

Definition ratio_divide (RxLhs RxRhs : ratio) : ceval ratio :=
  inverse ← ratio_of (den RxRhs) (num RxRhs);
  ratio_multiply RxLhs inverse.

Definition ratio_equal (RxLhs RxRhs : ratio) : bool :=
  (num RxLhs =? num RxRhs) && (den RxLhs =? den RxRhs).
Definition ratio_not_equal (RxLhs RxRhs : ratio) : bool := negb (ratio_equal RxLhs RxRhs).

(** ** Comparison *)

Record uint128 := UInt128 { upper : Z; lower : Z }.

Definition uint128_less (lhs rhs : uint128) : bool :=
  if negb (upper lhs =? upper rhs) then upper lhs <? upper rhs else lower lhs <? lower rhs.

Definition multiply_uint128 (lhs_factor rhs_factor : Z) : uint128 :=
  let lhs_low := Z.land lhs_factor 0xFFFFFFFF in
  let lhs_high := Z.shiftr lhs_factor 32 in
  let rhs_low := Z.land rhs_factor 0xFFFFFFFF in
  let rhs_high := Z.shiftr rhs_factor 32 in
  let tmp := u64 (lhs_low * rhs_low) in
  let lower32 := Z.land tmp 0xFFFFFFFF in
  let carry := Z.shiftr tmp 32 in
  let tmp := u64 (u64 (lhs_low * rhs_high) + carry) in
  let mid_lower := Z.land tmp 0xFFFFFFFF in
  let mid_uint128 := Z.shiftr tmp 32 in
  let tmp := u64 (u64 (lhs_high * rhs_low) + mid_lower) in
  let carry := Z.shiftr tmp 32 in
  UInt128 (u64 (u64 (u64 (lhs_high * rhs_high) + mid_uint128) + carry))
          (u64 (u64 (Z.shiftl tmp 32) + lower32)).

(** [-Nx] overflows for the least integer, which no [ratio] has. *)
Definition is_ratio_less (NxLhs DxLhs NxRhs DxRhs : Z) : ceval bool :=
  if (0 <=? NxLhs) && (0 <=? NxRhs) then
    Val (uint128_less (multiply_uint128 (u64 NxLhs) (u64 DxRhs))
                      (multiply_uint128 (u64 NxRhs) (u64 DxLhs)))
  else if (NxLhs <? 0) && (NxRhs <? 0) then
    r ← constant (- NxRhs);
    l ← constant (- NxLhs);
    Val (uint128_less (multiply_uint128 (u64 r) (u64 DxLhs))
                      (multiply_uint128 (u64 l) (u64 DxRhs)))
  else Val (NxLhs <? NxRhs).

Definition ratio_less (RxLhs RxRhs : ratio) : ceval bool :=
  is_ratio_less (num RxLhs) (den RxLhs) (num RxRhs) (den RxRhs).
Definition ratio_less_equal (RxLhs RxRhs : ratio) : ceval bool :=
  b ← ratio_less RxRhs RxLhs; Val (negb b).
Definition ratio_greater (RxLhs RxRhs : ratio) : ceval bool := ratio_less RxRhs RxLhs.
Definition ratio_greater_equal (RxLhs RxRhs : ratio) : ceval bool :=
  b ← ratio_less RxLhs RxRhs; Val (negb b).

(** ** The prefixes *)

Definition pow10 (power : Z) : ceval Z :=
  Nat.iter (Z.to_nat power) (fun acc => result ← acc; constant (result * 10)) (Val 1).

Definition nano : ceval ratio := d ← pow10 9; ratio_of 1 d.
Definition micro : ceval ratio := d ← pow10 6; ratio_of 1 d.
Definition milli : ceval ratio := d ← pow10 3; ratio_of 1 d.
Definition kilo : ceval ratio := n ← pow10 3; ratio_of n 1.

Example third : ratio_of (-6) (-18) = Val (Ratio 1 3). Proof. reflexivity. Qed.
Example divide_example :
  ratio_divide (Ratio 60 1) (Ratio 1 10000000) = Val (Ratio 600000000 1).
Proof. reflexivity. Qed.
Example less_example : ratio_less (Ratio (-1) 3) (Ratio (-1) 4) = Val true.
Proof. reflexivity. Qed.

(** * Properties of compile-time rational numbers (Ratio)

    Fractions are kept in lowest terms, multiplication is exact whenever its result is
    representable, and the comparison in halves of 128-bit integers is the comparison of
    rational numbers. *)

(** ** Constant expressions *)

Lemma ceval_bind_Val {A B} (m : ceval A) (k : A -> ceval B) b :
  (m ≫= k) = Val b -> exists a, m = Val a /\ k a = Val b.
Proof. destruct m; cbn; intros; try done; eauto. Qed.

Lemma constant_ok x : fits 64 x -> constant x = Val x.
Proof. intros. unfold constant. by rewrite decide_True. Qed.

Lemma checked_ok w x : fits w x -> checked w x = Val x.
Proof. intros. unfold checked. by rewrite decide_True. Qed.

Lemma checked_Val w x y : checked w x = Val y -> y = x /\ fits w x.
Proof. unfold checked. case_decide; intros; simplify_eq; auto. Qed.

(** The values whose absolute value the compiler can compute. *)
Definition narrow (x : Z) : Prop := Z.abs x <= intmax_max.

Lemma rat_abs_ok x : narrow x -> rat_abs x = Val (Z.abs x).
Proof.
  unfold narrow, rat_abs, intmax_min, intmax_max. intros H.
  destruct (Z.eqb_spec x (- 2 ^ 63)); [lia|]. cbn.
  destruct (Z.ltb_spec x 0); f_equal; lia.
Qed.

Lemma sign_of_sgn x : x <> 0 -> sign_of x = Z.sgn x.
Proof. unfold sign_of. intros. destruct (Z.ltb_spec x 0); lia. Qed.

(** ** The greatest common divisor *)

Lemma log2_rem a b : 0 < b <= a -> 0 < Z.rem a b -> Z.log2 (Z.rem a b) < Z.log2 a.
Proof.
  intros Hb Hr. apply Z.log2_lt_pow2; [done|].
  assert (2 * Z.rem a b <= a).
  { pose proof (Z.quot_rem' a b). pose proof (Z.rem_bound_pos a b).
    assert (1 <= a ÷ b) by (apply Z.quot_le_lower_bound; lia). nia. }
  pose proof (Z.log2_spec a). rewrite Z.pow_succ_r in * by apply Z.log2_nonneg. lia.
Qed.

Lemma gcd_impl_ok depth a b :
  0 <= b -> 0 < a -> b <= a ->
  Z.log2 a + Z.log2 b + 1 < Z.of_nat depth ->
  gcd_impl depth a b = Val (Z.gcd a b).
Proof.
  revert a b; induction depth as [|depth IH]; intros a b Hb Ha Hle Hd.
  { pose proof (Z.log2_nonneg a). pose proof (Z.log2_nonneg b). lia. }
  cbn. destruct (Z.eqb_spec b 0) as [->|]; [rewrite Z.gcd_0_r; f_equal; lia|].
  pose proof (Z.rem_bound_pos a b).
  destruct (decide (Z.rem a b = 0)) as [E|].
  - destruct depth; [pose proof (Z.log2_nonneg a); pose proof (Z.log2_nonneg b); lia|].
    rewrite E. cbn. f_equal. symmetry. rewrite Z.gcd_comm. apply Z.divide_gcd_iff; [lia|].
    by apply Z.rem_divide.
  - rewrite IH by (pose proof (log2_rem a b); lia).
    f_equal. rewrite Z.rem_mod_nonneg, Z.gcd_comm, Z.gcd_mod by lia. apply Z.gcd_comm.
Qed.

Lemma gcd_impl_S depth a b :
  gcd_impl (S depth) a b = if b =? 0 then Val a else gcd_impl depth b (Z.rem a b).
Proof. done. Qed.

Lemma log2_narrow a : 0 <= a <= intmax_max -> Z.log2 a <= 62.
Proof.
  unfold intmax_max. intros. destruct (decide (a = 0)) as [->|]; [done|].
  enough (Z.log2 a < 63) by lia. apply Z.log2_lt_pow2; lia.
Qed.

Lemma gcd_ok a b : narrow a -> narrow b -> ~ (a = 0 /\ b = 0) -> gcd a b = Val (Z.gcd a b).
Proof.
  intros Ha Hb Hn. unfold gcd. rewrite !rat_abs_ok by done.
  destruct (Z.eqb_spec a 0), (Z.eqb_spec b 0); try tauto; cbn -[gcd_impl gcd_depth];
    rewrite <- (Z.gcd_abs_l a), <- (Z.gcd_abs_r _ b); unfold narrow in *;
    pose proof (log2_narrow (Z.abs a)); pose proof (log2_narrow (Z.abs b)).
  all: destruct (Z.leb_spec (Z.abs b) (Z.abs a));
    [apply gcd_impl_ok; unfold gcd_depth; lia|].
  all: change gcd_depth with (S 129); rewrite gcd_impl_S;
    destruct (Z.eqb_spec (Z.abs b) 0); [lia|].
  all: rewrite Z.rem_small, gcd_impl_ok by lia; f_equal; apply Z.gcd_comm.
Qed.

(** ** Instantiations *)

(** A fraction in lowest terms. *)
Record canonical (r : ratio) : Prop := {
  den_pos : 0 < den r <= intmax_max;
  num_narrow : narrow (num r);
  lowest : Z.gcd (num r) (den r) = 1 }.

Lemma gcd_pos a b : b <> 0 -> 0 < Z.gcd a b.
Proof. intros. pose proof (Z.gcd_nonneg a b). pose proof (Z.gcd_eq_0_r a b). lia. Qed.

(** The same fraction in lowest terms with a positive denominator. *)
Definition reduced (n d : Z) : ratio :=
  Ratio (Z.sgn d * n / Z.gcd n d) (Z.abs d / Z.gcd n d).

Lemma gcd_sgn_abs n d : d <> 0 -> Z.gcd (Z.sgn d * n) (Z.abs d) = Z.gcd n d.
Proof.
  intros. rewrite Z.gcd_abs_r.
  destruct (Z.sgn_spec d) as [[_ ->]|[[? _]|[_ ->]]]; [by rewrite Z.mul_1_l|lia|].
  replace (-1 * n) with (- n) by lia. apply Z.gcd_opp_l.
Qed.

Lemma reduced_spec n d : d <> 0 ->
  Z.sgn d * n = num (reduced n d) * Z.gcd n d /\ Z.abs d = den (reduced n d) * Z.gcd n d /\
  0 < den (reduced n d) /\ Z.gcd (num (reduced n d)) (den (reduced n d)) = 1.
Proof.
  intros Hd. pose proof (gcd_pos n d Hd) as Hg. unfold reduced; cbn.
  rewrite <- (gcd_sgn_abs n d) in * by done.
  destruct (Z.gcd_divide_l (Z.sgn d * n) (Z.abs d)) as [p Hp],
    (Z.gcd_divide_r (Z.sgn d * n) (Z.abs d)) as [q Hq].
  set (g := Z.gcd _ _) in *.
  assert (Z.gcd (Z.sgn d * n / g) (Z.abs d / g) = 1) by (apply Z.gcd_div_gcd; [lia|done]).
  rewrite Hp, Hq, !Z.div_mul in * by lia. split_and!; try done. nia.
Qed.

(** A value in lowest terms has one representation. *)
Lemma canonical_unique n d n' d' :
  0 < d -> 0 < d' -> Z.gcd n d = 1 -> Z.gcd n' d' = 1 -> n * d' = n' * d -> n = n' /\ d = d'.
Proof.
  intros Hd Hd' H H' E.
  assert (d' = d) as ->; [|split; [nia|done]].
  apply Z.divide_antisym_nonneg; [lia..| |].
  - apply (Z.gauss _ n'); [exists n; lia|]. by rewrite Z.gcd_comm.
  - apply (Z.gauss _ n); [exists n'; lia|]. by rewrite Z.gcd_comm.
Qed.

Lemma reduced_id n d : 0 < d -> Z.gcd n d = 1 -> reduced n d = Ratio n d.
Proof.
  intros Hd Hg. unfold reduced. rewrite Hg, !Z.div_1_r, Z.abs_eq, Z.sgn_pos by lia.
  by rewrite Z.mul_1_l.
Qed.

Lemma narrow_part x p g : narrow x -> x = p * g -> 0 < g -> narrow p.
Proof. unfold narrow. intros. subst. nia. Qed.

Lemma ratio_of_ok n d :
  narrow n -> narrow d -> d <> 0 -> ratio_of n d = Val (reduced n d).
Proof.
  intros Hn Hd Hd0. unfold ratio_of. rewrite !rat_abs_ok, gcd_ok by tauto.
  destruct (Z.eqb_spec d 0); [done|]. unfold narrow in *.
  destruct (Z.leb_spec (- intmax_max) n); [|lia]. destruct (Z.leb_spec (- intmax_max) d); [|lia].
  cbn. pose proof (gcd_pos n d Hd0). destruct (reduced_spec n d Hd0) as (En & Ed & _).
  assert (sign_of n * sign_of d * Z.abs n = Z.sgn d * n) as ->.
  { rewrite (sign_of_sgn d) by done. unfold sign_of. destruct (Z.ltb_spec n 0); lia. }
  rewrite En at 1. rewrite Ed at 1. by rewrite !Z.quot_mul by lia.
Qed.

Lemma reduced_canonical n d : narrow n -> narrow d -> d <> 0 -> canonical (reduced n d).
Proof.
  intros Hn Hd Hd0. pose proof (gcd_pos n d Hd0).
  destruct (reduced_spec n d Hd0) as (En & Ed & Hp & Hg). unfold narrow in *.
  split; [nia| |done]. unfold narrow. nia.
Qed.

Lemma ratio_of_Val n d r :
  fits 64 n -> fits 64 d -> ratio_of n d = Val r ->
  narrow n /\ narrow d /\ d <> 0 /\ r = reduced n d.
Proof.
  intros Fn Fd H. assert (narrow n /\ narrow d /\ d <> 0) as (Hn & Hd & Hd0).
  { revert H. unfold ratio_of. unfold fits, narrow, intmax_max in *. cbn in *.
    destruct (Z.eqb_spec d 0); [done|]. cbn.
    destruct (Z.leb_spec (- (2 ^ 63 - 1)) n); [|done].
    destruct (Z.leb_spec (- (2 ^ 63 - 1)) d); [|done]. lia. }
  rewrite ratio_of_ok in H by done. by simplify_eq.
Qed.

(** ** Products *)

Lemma safe_multiply_spec a b x :
  narrow a -> narrow b -> safe_multiply a b = Val x <-> x = a * b /\ narrow (a * b).
Proof.
  intros Ha Hb. unfold safe_multiply. rewrite (rat_abs_ok a) by done.
  cbn [mbind ceval_bind]. assert ((if b =? 0 then Val 1 else rat_abs b) = Val (Z.max 1 (Z.abs b))) as ->.
  { destruct (Z.eqb_spec b 0) as [->|]; [done|]. rewrite rat_abs_ok by done. f_equal; lia. }
  cbn. unfold narrow. rewrite Z.abs_mul.
  assert (Z.abs a <= intmax_max ÷ Z.max 1 (Z.abs b) <-> Z.abs a * Z.abs b <= intmax_max) as E.
  { rewrite Z.quot_div_nonneg by (unfold intmax_max; lia). unfold narrow in *.
    destruct (decide (b = 0)) as [->|].
    - rewrite Z.div_1_r. lia.
    - replace (Z.max 1 (Z.abs b)) with (Z.abs b) by lia. split; intros.
      + pose proof (Z.mul_div_le intmax_max (Z.abs b)). nia.
      + apply Z.div_le_lower_bound; lia. }
  destruct (Z.leb_spec (Z.abs a) (intmax_max ÷ Z.max 1 (Z.abs b))); split; intros; simplify_eq;
    intuition (try done; subst; try done; lia).
Qed.

(** The factors of two fractions in lowest terms after cancelling crosswise. *)
Record cancelled (r1 r2 : ratio) (a b c d : Z) : Prop := {
  gcd_x : gcd (num r1) (den r2) = Val (Z.gcd (num r1) (den r2));
  gcd_y : gcd (num r2) (den r1) = Val (Z.gcd (num r2) (den r1));
  num_lhs : num r1 = a * Z.gcd (num r1) (den r2);
  den_rhs : den r2 = d * Z.gcd (num r1) (den r2);
  num_rhs : num r2 = b * Z.gcd (num r2) (den r1);
  den_lhs : den r1 = c * Z.gcd (num r2) (den r1);
  gx_pos : 0 < Z.gcd (num r1) (den r2);
  gy_pos : 0 < Z.gcd (num r2) (den r1);
  cancelled_lowest : Z.gcd (a * b) (c * d) = 1 }.

Lemma gcd_1_part a c g h : Z.gcd (a * g) (c * h) = 1 -> Z.gcd a c = 1.
Proof.
  intros H. apply Z.bezout_1_gcd. destruct (Z.gcd_bezout _ _ _ H) as (u & v & E).
  exists (u * g), (v * h). lia.
Qed.

Lemma gcd_1_mul a b c : Z.gcd a c = 1 -> Z.gcd b c = 1 -> Z.gcd (a * b) c = 1.
Proof.
  intros H1 H2. apply Z.bezout_1_gcd.
  destruct (Z.gcd_bezout _ _ _ H1) as (u & v & E1), (Z.gcd_bezout _ _ _ H2) as (u' & v' & E2).
  exists (u * u'), (u * a * v' + v * u' * b + v * v' * c). nia.
Qed.

Lemma cancel r1 r2 : canonical r1 -> canonical r2 -> exists a b c d, cancelled r1 r2 a b c d.
Proof.
  intros [D1 N1 L1] [D2 N2 L2].
  pose proof (gcd_pos (num r1) (den r2)). pose proof (gcd_pos (num r2) (den r1)).
  destruct (reduced_spec (num r1) (den r2)) as (Ea & Ed & Pd & L3); [lia|].
  destruct (reduced_spec (num r2) (den r1)) as (Eb & Ec & Pc & L4); [lia|].
  rewrite Z.sgn_pos, Z.mul_1_l in Ea, Eb by lia. rewrite Z.abs_eq in Ed, Ec by lia.
  eexists _, _, _, _. split; try apply gcd_ok; try eassumption; unfold narrow in *; try lia.
  rewrite Z.gcd_comm. apply gcd_1_mul; rewrite Z.gcd_comm; apply gcd_1_mul; try done.
  - rewrite Ea, Ec in L1. by apply gcd_1_part in L1.
  - rewrite Eb, Ed in L2. by apply gcd_1_part in L2.
Qed.

(** Multiplication of ratios is exact: it yields the ratio in lowest terms that equals
    the product, and it is well formed exactly when that ratio is representable. *)
Theorem ratio_multiply_exact r1 r2 r :
  canonical r1 -> canonical r2 ->
  ratio_multiply r1 r2 = Val r <->
    canonical r /\ num r * (den r1 * den r2) = num r1 * num r2 * den r.
Proof.
  intros C1 C2. destruct (cancel r1 r2) as (a & b & c & d & X); [done..|].
  unfold ratio_multiply. rewrite (gcd_x _ _ _ _ _ _ X), (gcd_y _ _ _ _ _ _ X). cbn.
  destruct X as [_ _ Ea Ed Eb Ec Px Py L].
  set (gx := Z.gcd (num r1) (den r2)) in *. set (gy := Z.gcd (num r2) (den r1)) in *.
  assert (num r1 ÷ gx = a /\ num r2 ÷ gy = b /\ den r1 ÷ gy = c /\ den r2 ÷ gx = d)
    as (-> & -> & -> & ->) by (rewrite Ea, Eb, Ec, Ed, !Z.quot_mul by lia; done).
  pose proof (den_pos _ C1) as D1. pose proof (den_pos _ C2) as D2.
  assert (0 < c) as Pc by (rewrite Ec in D1; clear -D1 Py; nia).
  assert (0 < d) as Pd by (rewrite Ed in D2; clear -D2 Px; nia).
  assert (0 < c * d) by nia.
  assert (narrow a /\ narrow b /\ narrow c /\ narrow d) as (Na & Nb & Nc & Nd).
  { pose proof (num_narrow _ C1). pose proof (num_narrow _ C2).
    split_and!; (eapply narrow_part; [|first [exact Ea|exact Eb|exact Ec|exact Ed]|done]);
      unfold narrow in *; lia. }
  assert (forall n m, n * (den r1 * den r2) = num r1 * num r2 * m <-> n * (c * d) = a * b * m) as Q.
  { intros. rewrite Ea, Eb, Ec, Ed. nia. }
  rewrite Q. split.
  - intros HV.
    destruct (ceval_bind_Val _ _ _ HV) as (n' & [-> Hn]%safe_multiply_spec & H'); [|done..].
    destruct (ceval_bind_Val _ _ _ H') as (d' & [-> Hd]%safe_multiply_spec & H''); [|done..].
    rewrite ratio_of_ok, reduced_id in H'' by (done || lia). simplify_eq; cbn.
    split; [|lia]. split; cbn; [|done..]. unfold narrow in *. lia.
  - intros [C E]. pose proof (den_pos _ C) as D.
    destruct (canonical_unique (num r) (den r) (a * b) (c * d)) as [En Edn];
      [lia|lia|apply (lowest _ C)|done|done|].
    pose proof (num_narrow _ C) as N. unfold narrow in N.
    assert (safe_multiply a b = Val (a * b)) as -> by (apply safe_multiply_spec; unfold narrow; auto; lia).
    assert (safe_multiply c d = Val (c * d)) as -> by (apply safe_multiply_spec; unfold narrow; auto; lia).
    cbn. rewrite ratio_of_ok, reduced_id by (done || (unfold narrow; lia)).
    destruct r; cbn in *; congruence.
Qed.

(** ** Comparison *)

Lemma land_32 x : Z.land x 0xFFFFFFFF = x mod 2 ^ 32.
Proof. change 0xFFFFFFFF with (Z.ones 32). by rewrite Z.land_ones. Qed.

Definition uint128_value (u : uint128) : Z := upper u * 2 ^ 64 + lower u.

Definition uint128_ok (u : uint128) : Prop := 0 <= upper u < 2 ^ 64 /\ 0 <= lower u < 2 ^ 64.

(** Products of two 32-bit halves. *)
Definition half_product (p : Z) : Prop := 0 <= p <= (2 ^ 32 - 1) * (2 ^ 32 - 1).

Lemma half_product_mul a b : 0 <= a < 2 ^ 32 -> 0 <= b < 2 ^ 32 -> half_product (a * b).
Proof. unfold half_product. nia. Qed.

Lemma halves x : 0 <= x < 2 ^ 64 -> 0 <= x mod 2 ^ 32 < 2 ^ 32 /\ 0 <= x / 2 ^ 32 < 2 ^ 32.
Proof. intros. zdiv. Qed.

(** The carries of the columns of the product never overflow. *)
Lemma columns p0 p1 p2 p3 t1 t2 hi lo :
  half_product p0 -> half_product p1 -> half_product p2 -> half_product p3 ->
  t1 = p1 + p0 / 2 ^ 32 -> t2 = p2 + t1 mod 2 ^ 32 ->
  hi = p3 + t1 / 2 ^ 32 + t2 / 2 ^ 32 -> lo = (t2 * 2 ^ 32) mod 2 ^ 64 + p0 mod 2 ^ 32 ->
  0 <= t1 < 2 ^ 64 /\ 0 <= t2 < 2 ^ 64 /\ 0 <= lo < 2 ^ 64 /\ 0 <= p3 + t1 / 2 ^ 32 <= hi /\
  hi * 2 ^ 64 + lo = p3 * 2 ^ 64 + (p1 + p2) * 2 ^ 32 + p0.
Proof. unfold half_product. intros. subst. zdiv. Qed.

Lemma multiply_uint128_correct a b :
  0 <= a < 2 ^ 64 -> 0 <= b < 2 ^ 64 ->
  uint128_value (multiply_uint128 a b) = a * b /\ uint128_ok (multiply_uint128 a b).
Proof.
  intros Ha Hb. unfold multiply_uint128. rewrite !land_32, !Z.shiftr_div_pow2, Z.shiftl_mul_pow2 by lia.
  destruct (halves a Ha) as [La Ua], (halves b Hb) as [Lb Ub].
  assert (a * b = (a / 2 ^ 32 * (b / 2 ^ 32)) * 2 ^ 64 +
    (a mod 2 ^ 32 * (b / 2 ^ 32) + a / 2 ^ 32 * (b mod 2 ^ 32)) * 2 ^ 32 +
    a mod 2 ^ 32 * (b mod 2 ^ 32)) as E.
  { pose proof (Z.div_mod a (2 ^ 32)). pose proof (Z.div_mod b (2 ^ 32)). nia. }
  set (al := a mod 2 ^ 32) in *. set (ah := a / 2 ^ 32) in *.
  set (bl := b mod 2 ^ 32) in *. set (bh := b / 2 ^ 32) in *.
  pose proof (half_product_mul al bl La Lb) as P0. pose proof (half_product_mul al bh La Ub) as P1.
  pose proof (half_product_mul ah bl Ua Lb) as P2. pose proof (half_product_mul ah bh Ua Ub) as P3.
  destruct (columns _ _ _ _ _ _ _ _ P0 P1 P2 P3 eq_refl eq_refl eq_refl eq_refl)
    as (T1 & T2 & Lo & Hi & V).
  assert (a * b < 2 ^ 64 * 2 ^ 64) by nia. unfold half_product in *.
  rewrite (wrap_small 64 (al * bl)), (wrap_small 64 (al * bh)), (wrap_small 64 (ah * bl)),
    (wrap_small 64 (ah * bh)) by lia.
  rewrite (wrap_small 64 (al * bh + _)), (wrap_small 64 (ah * bl + _)) by done.
  rewrite (wrap_small 64 (ah * bh + _)), (wrap_small 64 (ah * bh + _ + _)) by lia.
  rewrite (wrap_small 64 (u64 _ + _)) by done.
  unfold uint128_value, uint128_ok, wrap; cbn [upper lower]. split; [lia|]. split; lia.
Qed.

Lemma uint128_less_value u v :
  uint128_ok u -> uint128_ok v -> uint128_less u v = (uint128_value u <? uint128_value v).
Proof.
  unfold uint128_ok, uint128_less, uint128_value. intros [? ?] [? ?].
  destruct (Z.eqb_spec (upper u) (upper v)); cbn; apply eq_true_iff_eq; rewrite !Z.ltb_lt; lia.
Qed.

Lemma multiply_less a b c d :
  0 <= a < 2 ^ 64 -> 0 <= b < 2 ^ 64 -> 0 <= c < 2 ^ 64 -> 0 <= d < 2 ^ 64 ->
  uint128_less (multiply_uint128 (u64 a) (u64 b)) (multiply_uint128 (u64 c) (u64 d)) =
    (a * b <? c * d).
Proof.
  intros. rewrite !(wrap_small 64) by done.
  destruct (multiply_uint128_correct a b) as [<- ?]; [done..|].
  destruct (multiply_uint128_correct c d) as [<- ?]; [done..|]. by apply uint128_less_value.
Qed.

(** C31: the comparison of two ratios by 128-bit products of halves is the comparison of
    the rational numbers, for all signs. *)
Theorem ratio_less_correct r1 r2 :
  canonical r1 -> canonical r2 ->
  ratio_less r1 r2 = Val (num r1 * den r2 <? num r2 * den r1).
Proof.
  intros [D1 N1 _] [D2 N2 _]. unfold ratio_less, is_ratio_less, narrow, intmax_max in *.
  destruct (Z.leb_spec 0 (num r1)), (Z.leb_spec 0 (num r2)); cbn [andb];
    destruct (Z.ltb_spec (num r1) 0), (Z.ltb_spec (num r2) 0); try lia; cbn [andb].
  1: rewrite multiply_less by lia; done.
  3: rewrite !constant_ok by (unfold fits; lia); cbn; rewrite multiply_less by lia;
    f_equal; apply eq_true_iff_eq; rewrite !Z.ltb_lt; lia.
  all: f_equal; apply eq_true_iff_eq; rewrite !Z.ltb_lt; nia.
Qed.

Lemma ratio_less_correct_witness :
  ratio_less (Ratio (-1) 3) (Ratio (-1) 4) = Val true.
Proof.
  rewrite (ratio_less_correct (Ratio (-1) 3) (Ratio (-1) 4)); [done|..];
    by split; vm_compute.
Defined.

Lemma ratio_multiply_exact_witness :
  ratio_multiply (Ratio 2 3) (Ratio 3 4) = Val (Ratio 1 2).
Proof.
  apply (ratio_multiply_exact (Ratio 2 3) (Ratio 3 4) (Ratio 1 2)).
  - by split; vm_compute.
  - by split; vm_compute.
  - split; [by split; vm_compute|done].
Defined.

(** The product of two ratios can fail to be representable. *)
Example multiply_overflows :
  ratio_multiply (Ratio (2 ^ 40) 1) (Ratio (2 ^ 40) 1) = IllFormed.
Proof. reflexivity. Qed.
