(* ===== verification/Chrono.v ===== *)
(** * Durations, time points and clocks (include/chrono.hpp)

    A [duration] is a count of type [int] or [long long] in units of a period, a ratio
    that belongs to the type.  The functions take the types as arguments, like the
    templates: what the compiler computes from the types is [IllFormed] when the code
    would not compile, overflow of the signed counts is [Undefined].  A cast to a
    narrower integer keeps the low bits.  A time point is the duration since the epoch of
    its clock. *)
From Stdlib Require Import ZArith Lia.
From stdpp Require Import base list numbers.
From S2P Require Import Prelude Ratio.
#[local] Open Scope Z_scope.

Inductive arith := Int | LongLong.

#[export] Instance arith_eq_dec : EqDecision arith.
Proof. solve_decision. Defined.

Definition width (r : arith) : Z := match r with Int => 32 | LongLong => 64 end.
Definition common_arith (a b : arith) : arith :=
  match a, b with Int, Int => Int | _, _ => LongLong end.

(** The type [duration<Rep, Period>]. *)
Record duration_type := DurationType { rep : arith; period : ratio }.

#[export] Instance duration_type_eq_dec : EqDecision duration_type.
Proof. solve_decision. Defined.

(** Arithmetic in the type of a count; a conversion to it. *)
Definition arithmetic (r : arith) (x : Z) : ceval Z := checked (width r) x.
Definition static_cast (r : arith) (x : Z) : Z := signed (width r) x.

(** [numeric_limits<Rep>::lowest] and [max]. *)
Definition duration_min (r : arith) : Z := - 2 ^ (width r - 1).
Definition duration_max (r : arith) : Z := 2 ^ (width r - 1) - 1.

(** ** Conversions *)

Definition duration_cast (To From : duration_type) (count : Z) : ceval Z :=
  carry ← ratio_divide (period From) (period To);
  if den carry =? 1 then
    if num carry =? 1 then Val (static_cast (rep To) count)
    else x ← checked 64 (count * num carry); Val (static_cast (rep To) x)
  else
    if num carry =? 1 then Val (static_cast (rep To) (count ÷ den carry))
    else x ← checked 64 (count * num carry); Val (static_cast (rep To) (x ÷ den carry)).

(** The converting constructor, which exists when no precision is lost. *)
Definition convert (To From : duration_type) (count : Z) : ceval Z :=
  carry ← ratio_divide (period From) (period To);
  _ ← static_assert (den carry =? 1);
  duration_cast To From count.

Definition common_type (Lhs Rhs : duration_type) : ceval duration_type :=
  n ← gcd (num (period Lhs)) (num (period Rhs));
  d ← lcm (den (period Lhs)) (den (period Rhs));
  p ← ratio_of n d;
  Val (DurationType (common_arith (rep Lhs) (rep Rhs)) p).

(** ** Member operators *)

Definition increment (T : duration_type) (x : Z) : ceval Z := arithmetic (rep T) (x + 1).
Definition decrement (T : duration_type) (x : Z) : ceval Z := arithmetic (rep T) (x - 1).
Definition negate (T : duration_type) (x : Z) : ceval Z := arithmetic (rep T) (- x).
Definition add_assign (T : duration_type) (x y : Z) : ceval Z := arithmetic (rep T) (x + y).
Definition sub_assign (T : duration_type) (x y : Z) : ceval Z := arithmetic (rep T) (x - y).
Definition mul_assign (T : duration_type) (x y : Z) : ceval Z := arithmetic (rep T) (x * y).

Definition quotient (r : arith) (x y : Z) : ceval Z :=
  if y =? 0 then Undefined else arithmetic r (x ÷ y).
Definition remainder (r : arith) (x y : Z) : ceval Z :=
  _ ← quotient r x y; Val (Z.rem x y).

Definition div_assign (T : duration_type) (x y : Z) : ceval Z := quotient (rep T) x y.
Definition mod_assign (T : duration_type) (x y : Z) : ceval Z := remainder (rep T) x y.

(** ** Operators on two durations *)

(** Both operands in the common type. *)
Definition in_common {A} (Lhs Rhs : duration_type) (lhs rhs : Z)
    (k : duration_type -> Z -> Z -> ceval A) : ceval A :=
  T ← common_type Lhs Rhs;
  x ← convert T Lhs lhs;
  y ← convert T Rhs rhs;
  k T x y.

Definition plus (Lhs Rhs : duration_type) (lhs rhs : Z) : ceval Z :=
  in_common Lhs Rhs lhs rhs (fun T x y => arithmetic (rep T) (x + y)).
Definition minus (Lhs Rhs : duration_type) (lhs rhs : Z) : ceval Z :=
  in_common Lhs Rhs lhs rhs (fun T x y => arithmetic (rep T) (x - y)).
Definition divide (Lhs Rhs : duration_type) (lhs rhs : Z) : ceval Z :=
  in_common Lhs Rhs lhs rhs (fun T x y => quotient (rep T) x y).
Definition modulo (Lhs Rhs : duration_type) (lhs rhs : Z) : ceval Z :=
  in_common Lhs Rhs lhs rhs (fun T x y => remainder (rep T) x y).

Definition equal (Lhs Rhs : duration_type) (lhs rhs : Z) : ceval bool :=
  in_common Lhs Rhs lhs rhs (fun T x y => Val (x =? y)).
Definition not_equal (Lhs Rhs : duration_type) (lhs rhs : Z) : ceval bool :=
  b ← equal Lhs Rhs lhs rhs; Val (negb b).
Definition less (Lhs Rhs : duration_type) (lhs rhs : Z) : ceval bool :=
  in_common Lhs Rhs lhs rhs (fun T x y => Val (x <? y)).
Definition less_equal (Lhs Rhs : duration_type) (lhs rhs : Z) : ceval bool :=
  b ← less Rhs Lhs rhs lhs; Val (negb b).
Definition greater (Lhs Rhs : duration_type) (lhs rhs : Z) : ceval bool :=
  less Rhs Lhs rhs lhs.
Definition greater_equal (Lhs Rhs : duration_type) (lhs rhs : Z) : ceval bool :=
  b ← less Lhs Rhs lhs rhs; Val (negb b).

(** A duration and a number of type [r]: the period stays. *)
Definition with_rep (r : arith) (T : duration_type) : duration_type :=
  DurationType (common_arith (rep T) r) (period T).
Definition multiply_rep (Lhs : duration_type) (r : arith) (lhs rhs : Z) : ceval Z :=
  x ← convert (with_rep r Lhs) Lhs lhs; arithmetic (common_arith (rep Lhs) r) (x * rhs).
Definition divide_rep (Lhs : duration_type) (r : arith) (lhs rhs : Z) : ceval Z :=
  x ← convert (with_rep r Lhs) Lhs lhs; quotient (common_arith (rep Lhs) r) x rhs.
Definition modulo_rep (Lhs : duration_type) (r : arith) (lhs rhs : Z) : ceval Z :=
  x ← convert (with_rep r Lhs) Lhs lhs; remainder (common_arith (rep Lhs) r) x rhs.

(** ** Rounding *)

Definition floor (To From : duration_type) (dur : Z) : ceval Z :=
  casted ← duration_cast To From dur;
  b ← greater To From casted dur;
  if b : bool then arithmetic (rep To) (casted - 1) else Val casted.

Definition ceil (To From : duration_type) (dur : Z) : ceval Z :=
  casted ← duration_cast To From dur;
  b ← less To From casted dur;
  if b : bool then arithmetic (rep To) (casted + 1) else Val casted.

Definition is_even (value : Z) : bool := Z.rem value 2 =? 0.

Definition round (To From : duration_type) (dur : Z) : ceval Z :=
  floored ← floor To From dur;
  ceiled ← plus To To floored 1;
  floor_adjustment ← minus From To dur floored;
  ceil_adjustment ← minus To From ceiled dur;
  T ← common_type From To;
  T' ← common_type To From;
  lt ← less T T' floor_adjustment ceil_adjustment;
  eq ← equal T T' floor_adjustment ceil_adjustment;
  if lt || (eq && is_even floored) then Val floored else Val ceiled.

Definition abs (T : duration_type) (dur : Z) : ceval Z :=
  b ← less T T dur 0;
  if b : bool then minus T T 0 dur else Val dur.

(** ** The types of the library *)

Definition nanoseconds : ceval duration_type := p ← nano; Val (DurationType LongLong p).
Definition microseconds : ceval duration_type := p ← micro; Val (DurationType LongLong p).
Definition milliseconds : ceval duration_type := p ← milli; Val (DurationType LongLong p).
Definition seconds : duration_type := DurationType LongLong (Ratio 1 1).
Definition minutes : duration_type := DurationType Int (Ratio 60 1).
Definition hours : duration_type := DurationType Int (Ratio 3600 1).
Definition days : duration_type := DurationType Int (Ratio 86400 1).
Definition weeks : duration_type := DurationType Int (Ratio 604800 1).
Definition months : duration_type := DurationType Int (Ratio 2629746 1).
Definition years : duration_type := DurationType Int (Ratio 31556952 1).
Definition tics : duration_type := DurationType LongLong (Ratio 1 10000000).

(** ** Time points *)

Definition time_point_plus (T D : duration_type) (time dur : Z) : ceval Z := plus T D time dur.
Definition time_point_minus (T D : duration_type) (time dur : Z) : ceval Z := minus T D time dur.
Definition time_point_difference (Lhs Rhs : duration_type) (lhs rhs : Z) : ceval Z :=
  minus Lhs Rhs lhs rhs.
Definition time_point_less (Lhs Rhs : duration_type) (lhs rhs : Z) : ceval bool :=
  less Lhs Rhs lhs rhs.
Definition time_point_cast (To T : duration_type) (time : Z) : ceval Z := duration_cast To T time.
Definition time_point_floor (To T : duration_type) (time : Z) : ceval Z := floor To T time.
Definition time_point_ceil (To T : duration_type) (time : Z) : ceval Z := ceil To T time.
Definition time_point_round (To T : duration_type) (time : Z) : ceval Z := round To T time.

(** ** Clocks *)

(** [system_clock::duration]. *)
Definition system_duration : ceval duration_type :=
  d ← pow10 8; p ← ratio_of 1 d; Val (DurationType LongLong p).

(** [system_time] is what the kernel reports. *)
Definition system_now (system_time : Z) : Z := system_time.
Definition to_time_t (time : Z) : ceval Z :=
  T ← system_duration; duration_cast seconds T time.
Definition from_time_t (tm : Z) : ceval Z :=
  T ← system_duration; convert T seconds tm.

(** [steady_clock::now] for a frequency and a counter that the kernel reports. *)
Definition steady_now (freq counter : Z) : ceval Z :=
  p ← nano;
  q ← quotient LongLong counter freq;
  whole ← checked 64 (q * den p);
  r ← remainder LongLong counter freq;
  m ← checked 64 (r * den p);
  part ← quotient LongLong m freq;
  checked 64 (whole + part).

Example cast_up : duration_cast tics minutes 2 = Val 1200000000. Proof. reflexivity. Qed.
Example cast_down : duration_cast seconds tics (-15000000) = Val (-1). Proof. reflexivity. Qed.
Example floor_down : floor seconds tics (-15000000) = Val (-2). Proof. reflexivity. Qed.
Example round_even : round seconds tics 25000000 = Val 2. Proof. reflexivity. Qed.
Example mixed_sum : plus minutes hours 1 1 = Val 61. Proof. reflexivity. Qed.
Example steady_example : steady_now 10000000 12345678901 = Val 1234567890100. Proof. reflexivity. Qed.
