(* ===== verification/ChronoTheorems.v ===== *)
(** * Properties of durations and clocks (Chrono)

    Casts truncate the exact value, floor, ceil and round are the roundings their names
    promise, comparisons compare exact values, and conversions to a finer unit can be
    undone. *)
From Stdlib Require Import ZArith Lia.
From stdpp Require Import base list numbers.
From S2P Require Import Prelude Ratio Chrono.
#[local] Open Scope Z_scope.

(** ** Types *)

Record wf_type (T : duration_type) : Prop := {
  period_canonical : canonical (period T);
  period_pos : 0 < num (period T) }.

(** The counts of a duration type. *)
Definition in_type (T : duration_type) (x : Z) : Prop := fits (width (rep T)) x.

Lemma width_cases r : width r = 32 \/ width r = 64.
Proof. destruct r; auto. Qed.

Lemma fits_64 r x : fits (width r) x -> fits 64 x.
Proof. unfold fits. destruct r; cbn; lia. Qed.

Lemma static_cast_fits r x : fits (width r) x -> static_cast r x = x.
Proof.
  unfold fits, static_cast, signed, wrap. cbv zeta. intros H.
  destruct (decide (0 <= x)).
  - rewrite Z.mod_small by (destruct r; cbn in *; lia).
    destruct (Z.ltb_spec x (2 ^ (width r - 1))); lia.
  - rewrite <- (Z_mod_plus_full x 1), Z.mod_small by (destruct r; cbn in *; lia).
    destruct (Z.ltb_spec (x + 1 * 2 ^ width r) (2 ^ (width r - 1))); destruct r; cbn in *; lia.
Qed.

Lemma fits_between w x y : fits w y -> Z.abs x <= Z.abs y -> 0 <= x * y -> fits w x.
Proof. unfold fits. intros. nia. Qed.

(** ** The scale between two periods *)

Lemma inverse_canonical r : canonical r -> 0 < num r -> canonical (Ratio (den r) (num r)).
Proof.
  intros [D N L] P. unfold narrow in *. split; cbn; [lia|unfold narrow; lia|].
  by rewrite Z.gcd_comm.
Qed.

Lemma ratio_divide_unfold r1 r2 :
  canonical r2 -> 0 < num r2 ->
  ratio_divide r1 r2 = ratio_multiply r1 (Ratio (den r2) (num r2)).
Proof.
  intros C P. unfold ratio_divide. destruct (inverse_canonical _ C P) as [D N L]; cbn in *.
  rewrite ratio_of_ok, reduced_id by (done || (unfold narrow; lia)). done.
Qed.

Lemma ratio_divide_exact r1 r2 r :
  canonical r1 -> canonical r2 -> 0 < num r2 ->
  ratio_divide r1 r2 = Val r <->
  canonical r /\ num r * (den r1 * num r2) = num r1 * den r2 * den r.
Proof.
  intros C1 C2 P. rewrite ratio_divide_unfold by done.
  rewrite ratio_multiply_exact by auto using inverse_canonical. done.
Qed.

(** The factor that a conversion multiplies and divides with. *)
Definition scale (To From : duration_type) : ceval ratio := ratio_divide (period From) (period To).

Lemma scale_pos To From c :
  wf_type To -> wf_type From -> scale To From = Val c -> 0 < num c /\ 0 < den c.
Proof.
  intros [C1 P1] [C2 P2] H. apply ratio_divide_exact in H as [C E]; [|done..].
  pose proof (den_pos _ C). pose proof (den_pos _ C1). pose proof (den_pos _ C2).
  split; [|lia]. assert (0 < num (period From) * den (period To) * den c) by nia.
  assert (0 < den (period From) * num (period To)) by nia. nia.
Qed.

(** What a cast computes, before it is narrowed. *)
Lemma duration_cast_scaled To From c x :
  scale To From = Val c -> fits 64 x -> fits 64 (x * num c) ->
  in_type To ((x * num c) ÷ den c) ->
  duration_cast To From x = Val ((x * num c) ÷ den c).
Proof.
  unfold scale, duration_cast, in_type. intros -> Fx Fn Fq. cbn.
  destruct (Z.eqb_spec (den c) 1) as [E|]; [rewrite E, Z.quot_1_r in *|];
    (destruct (Z.eqb_spec (num c) 1) as [E'|]; [rewrite E', Z.mul_1_r in *|]);
    try (rewrite checked_ok by done; cbn); by rewrite static_cast_fits.
Qed.

Lemma convert_scaled To From p x :
  scale To From = Val (Ratio p 1) -> fits 64 x -> in_type To (x * p) ->
  convert To From x = Val (x * p).
Proof.
  intros S Fx Fp. unfold convert. unfold scale in S. rewrite S. cbn.
  rewrite (duration_cast_scaled To From (Ratio p 1)); cbn; rewrite ?Z.quot_1_r; try done.
  by eapply fits_64.
Qed.

(** A cast between durations yields the exact value in the new unit, truncated
    towards zero, whenever the scaled count fits 64 bits and the result fits its type. *)
Theorem duration_cast_correct To From c x :
  wf_type To -> wf_type From -> scale To From = Val c ->
  in_type From x -> fits 64 (x * num c) ->
  let exact := (x * (num (period From) * den (period To))) ÷
               (den (period From) * num (period To)) in
  in_type To exact -> duration_cast To From x = Val exact.
Proof.
  intros WT WF S Fx Fn exact Fq. destruct (scale_pos _ _ _ WT WF S) as [Pn Pd].
  assert (exact = (x * num c) ÷ den c) as E.
  { destruct WT as [C1 P1], WF as [C2 P2].
    pose proof (den_pos _ C1). pose proof (den_pos _ C2).
    apply ratio_divide_exact in S as [C E]; [|done..]. unfold exact.
    set (A := num (period From) * den (period To)) in *.
    set (B := den (period From) * num (period To)) in *. assert (0 < B) by nia.
    rewrite <- (Z.quot_mul_cancel_r (x * num c) (den c) B) by lia.
    rewrite <- (Z.quot_mul_cancel_r (x * A) B (den c)) by lia.
    f_equal; [|lia]. transitivity (x * (A * den c)); [|rewrite <- E]; lia. }
  rewrite E in *. apply duration_cast_scaled; try done. by eapply fits_64.
Qed.

(** ** The common type of two durations *)

(** [ct] is a common type of [L] and [R], whose counts scale by [p] and [q]. *)
Record common_of (L R ct : duration_type) (p q : Z) : Prop := {
  common_wf : wf_type ct;
  common_rep : rep ct = common_arith (rep L) (rep R);
  scale_lhs : scale ct L = Val (Ratio p 1);
  scale_rhs : scale ct R = Val (Ratio q 1) }.

Lemma lcm_Val a b m : 0 < a <= intmax_max -> 0 < b <= intmax_max ->
  lcm a b = Val m -> m = (a ÷ Z.gcd a b) * b /\ narrow m.
Proof.
  intros Ha Hb. unfold lcm. rewrite gcd_ok by (unfold narrow; lia). cbn.
  unfold constant. case_decide as F; [|done]. intros; simplify_eq. split; [done|].
  assert (0 <= a ÷ Z.gcd a b) by (apply Z.quot_pos; pose proof (Z.gcd_nonneg a b);
    pose proof (gcd_pos a b); lia).
  unfold fits, narrow, intmax_max in *. cbn in *. nia.
Qed.

Lemma common_type_scaled L R ct c :
  wf_type L -> wf_type R -> common_type L R = Val ct -> scale R L = Val c ->
  common_of L R ct (num c) (den c).
Proof.
  intros [CL PL] [CR PR] H S. apply ratio_divide_exact in S as [Cc E]; [|done..].
  destruct (cancel _ _ CL (inverse_canonical _ CR PR)) as (a & b & c' & d & X).
  pose proof (gcd_y _ _ _ _ _ _ X) as G. destruct X as [_ _ Ea Ed Eb Ec Px Py Lo]. cbn in *.
  set (gx := Z.gcd (num (period L)) (num (period R))) in *.
  rewrite Z.gcd_comm in Eb, Ec, Py. set (gy := Z.gcd (den (period L)) (den (period R))) in *.
  pose proof (den_pos _ CL) as DL. pose proof (den_pos _ CR) as DR. pose proof (den_pos _ Cc).
  pose proof (num_narrow _ CL) as NL. pose proof (num_narrow _ CR) as NR. unfold narrow in NL, NR.
  assert (0 < a /\ 0 < d) as [? ?] by (split; clear -PL PR Ea Ed Px; nia).
  assert (0 < b /\ 0 < c') as [? ?] by (split; clear -DL DR Eb Ec Py; nia).
  assert (num c = a * b /\ den c = c' * d) as [En Edn].
  { apply canonical_unique; [lia|nia|apply (lowest _ Cc)|done|].
    apply (Z.mul_reg_r _ _ (gx * gy)); [clear -Px Py; nia|].
    rewrite Ea, Ed, Eb, Ec in E. lia. }
  unfold common_type in H. rewrite gcd_ok in H by (unfold narrow; lia). fold gx in H.
  destruct (ceval_bind_Val _ _ _ H) as (n & [= <-] & HA).
  destruct (ceval_bind_Val _ _ _ HA) as (m & [-> Hm]%lcm_Val & HB); [|done..]. fold gy in HB, Hm.
  assert (den (period L) ÷ gy = c') as Eq by (rewrite Ec; apply Z.quot_mul; lia).
  rewrite Eq in *.
  assert (Z.gcd gx (c' * den (period R)) = 1) as Lp.
  { rewrite Z.gcd_comm. apply gcd_1_mul; rewrite Z.gcd_comm.
    - apply (gcd_1_part _ _ a gy). rewrite (Z.mul_comm gx), <- Ea, <- Ec. apply (lowest _ CL).
    - apply (gcd_1_part _ _ d 1). rewrite (Z.mul_comm gx), <- Ed, Z.mul_1_r. apply (lowest _ CR). }
  assert (0 < c' * den (period R)) by nia.
  rewrite ratio_of_ok, reduced_id in HB by (done || (unfold narrow in *; nia)).
  injection HB as <-. unfold narrow in Hm.
  assert (forall p, 0 < p -> narrow p -> canonical (Ratio p 1)) as C1.
  { intros p ? ?. split; cbn; [unfold intmax_max; lia|done|apply Z.gcd_1_r]. }
  assert (canonical (Ratio gx (c' * den (period R)))) as Cg.
  { split; cbn; [lia|unfold narrow; nia|done]. }
  pose proof (num_narrow _ Cc). pose proof (den_pos _ Cc).
  split; cbn; [by split|done| |]; unfold scale; apply ratio_divide_exact; cbn; try done; (split;
    [apply C1; unfold narrow in *; lia|]).
  - rewrite En, Ea, Ec. lia.
  - rewrite Edn, Ed. lia.
Qed.

Lemma scale_sym L R c :
  wf_type L -> wf_type R -> scale R L = Val c -> scale L R = Val (Ratio (den c) (num c)).
Proof.
  intros WL WR S. destruct (scale_pos _ _ _ WR WL S) as [Pn _]. destruct WL, WR.
  apply ratio_divide_exact in S as [C E]; [|done..].
  apply ratio_divide_exact; [done..|]. split; [by apply inverse_canonical|]. cbn. lia.
Qed.

Lemma scale_same T : wf_type T -> scale T T = Val (Ratio 1 1).
Proof. intros [C P]. apply ratio_divide_exact; [done..|]. split; [by split|cbn; lia]. Qed.

Lemma common_type_comm L R ct :
  wf_type L -> wf_type R -> common_type L R = Val ct -> common_type R L = Val ct.
Proof.
  intros [[DL NL _] PL] [[DR NR _] PR]. unfold common_type, lcm.
  rewrite !gcd_ok by (unfold narrow in *; lia).
  rewrite (Z.gcd_comm (num (period R))), (Z.gcd_comm (den (period R))). cbn.
  pose proof (gcd_pos (den (period L)) (den (period R)) ltac:(lia)).
  destruct (Z.gcd_divide_l (den (period L)) (den (period R))) as [a Ea],
    (Z.gcd_divide_r (den (period L)) (den (period R))) as [b Eb].
  set (g := Z.gcd (den (period L)) (den (period R))) in *.
  assert (den (period L) ÷ g * den (period R) = den (period R) ÷ g * den (period L)) as ->.
  { rewrite Ea, Eb, !Z.quot_mul by lia. lia. }
  by replace (common_arith (rep R) (rep L)) with (common_arith (rep L) (rep R))
    by (destruct (rep L), (rep R); done).
Qed.

Lemma common_type_same T : wf_type T -> common_type T T = Val T.
Proof.
  intros [[D N L] P]. unfold common_type, lcm. unfold narrow in *.
  rewrite !gcd_ok, !Z.gcd_diag, !Z.abs_eq by (unfold narrow; lia). cbn.
  rewrite Z.quot_same, Z.mul_1_l, constant_ok by (unfold fits, intmax_max in *; lia). cbn.
  rewrite ratio_of_ok, reduced_id by (done || (unfold narrow; lia)). cbn.
  destruct T as [r [n d]]; cbn. by destruct r.
Qed.

Lemma in_common_scaled {A} L R ct p q x y (k : duration_type -> Z -> Z -> ceval A) :
  common_type L R = Val ct -> common_of L R ct p q ->
  in_type L x -> in_type R y -> in_type ct (x * p) -> in_type ct (y * q) ->
  in_common L R x y k = k ct (x * p) (y * q).
Proof.
  intros E C Fx Fy Fp Fq. unfold in_common. rewrite E. cbn.
  rewrite (convert_scaled ct L p), (convert_scaled ct R q); try done.
  all: first [apply (scale_lhs _ _ _ _ _ C)|apply (scale_rhs _ _ _ _ _ C)|by eapply fits_64].
Qed.

(** Two durations of the same type are not converted. *)
Lemma in_common_same {A} T x y (k : duration_type -> Z -> Z -> ceval A) :
  wf_type T -> in_type T x -> in_type T y -> in_common T T x y k = k T x y.
Proof.
  intros W Fx Fy.
  rewrite (in_common_scaled T T T 1 1); rewrite ?Z.mul_1_r; auto using common_type_same.
  apply (common_type_scaled _ _ _ (Ratio 1 1)); auto using common_type_same, scale_same.
Qed.

(** The comparison of two durations of different types compares their exact values,
    whenever both fit their common type. *)
Theorem duration_less_exact L R ct c x y :
  wf_type L -> wf_type R -> common_type L R = Val ct -> scale R L = Val c ->
  in_type L x -> in_type R y -> in_type ct (x * num c) -> in_type ct (y * den c) ->
  less L R x y = Val (x * (num (period L) * den (period R)) <?
                      y * (num (period R) * den (period L))).
Proof.
  intros WL WR Hct S Fx Fy Fp Fq.
  unfold less. erewrite in_common_scaled by eauto using common_type_scaled.
  f_equal. apply eq_true_iff_eq. rewrite !Z.ltb_lt.
  destruct (scale_pos _ _ _ WR WL S) as [Pn Pd]. destruct WL as [CL PL], WR as [CR PR].
  pose proof (den_pos _ CL). pose proof (den_pos _ CR).
  apply ratio_divide_exact in S as [C E]; [|done..].
  set (A := num (period L) * den (period R)) in *.
  replace (num (period R) * den (period L)) with (den (period L) * num (period R)) by lia.
  set (B := den (period L) * num (period R)) in *. assert (0 < B) by nia.
  rewrite (Z.mul_lt_mono_pos_r B) by done. rewrite (Z.mul_lt_mono_pos_r (den c) (x * A)) by done.
  replace (x * num c * B) with (x * A * den c)
    by (transitivity (x * (A * den c)); [|rewrite <- E]; lia).
  by replace (y * den c * B) with (y * B * den c) by lia.
Qed.

(** ** Rounding *)

(** The nearest integer to [a / b], the even one of two. *)
Definition nearest_even (a b : Z) : Z :=
  if (2 * (a mod b) <? b) || ((2 * (a mod b) =? b) && Z.even (a / b)) then a / b else a / b + 1.

Lemma quot_between z q :
  0 < q -> z / q <= z ÷ q <= z / q + 1 /\ (z / q < z ÷ q -> z ÷ q <= 0).
Proof.
  intros Hq. pose proof (Z.quot_rem' z q). pose proof (Z.div_mod z q).
  pose proof (Z.mod_pos_bound z q Hq). pose proof (Z.rem_bound_abs z q).
  assert (0 < z ÷ q -> 0 <= Z.rem z q).
  { intros. destruct (decide (0 <= z)); [pose proof (Z.rem_bound_pos z q); lia|].
    pose proof (Z.quot_opp_l z q). pose proof (Z.quot_pos (- z) q). lia. }
  split; [nia|]. intros. destruct (decide (0 < z ÷ q)); [nia|lia].
Qed.

Lemma nearest_even_scale a b k :
  0 < b -> 0 < k -> nearest_even (a * k) (b * k) = nearest_even a b.
Proof.
  intros. unfold nearest_even. rewrite Z.div_mul_cancel_r, Z.mul_mod_distr_r by lia.
  assert ((2 * (a mod b * k) <? b * k) = (2 * (a mod b) <? b)) as ->.
  { apply eq_true_iff_eq. rewrite !Z.ltb_lt. nia. }
  assert ((2 * (a mod b * k) =? b * k) = (2 * (a mod b) =? b)) as ->.
  { apply eq_true_iff_eq. rewrite !Z.eqb_eq. nia. }
  done.
Qed.

Lemma is_even_even z : is_even z = Z.even z.
Proof. unfold is_even. apply eq_true_iff_eq. rewrite Z.eqb_eq, Z.even_spec. split.
  - intros H. exists (z ÷ 2). pose proof (Z.quot_rem' z 2). lia.
  - intros [k ->]. zdiv.
Qed.

Section rounding.
Context (To From ct : duration_type) (c : ratio) (x : Z).
Context (WT : wf_type To) (WF : wf_type From).
Context (Hct : common_type From To = Val ct) (Hc : scale To From = Val c).
Context (Fx : in_type From x).
(** The scaled count fits the common type, with room for one unit of the result. *)
Context (room : Z.abs (x * num c) + den c <= duration_max (rep ct)).

(** The exact value in units of the result. *)
Let a := x * (num (period From) * den (period To)).
Let b := den (period From) * num (period To).

Lemma scaled_value : a * den c = x * num c * b /\ 0 < b /\ 0 < den c.
Proof.
  destruct (scale_pos _ _ _ WT WF Hc). destruct WT as [CT PT], WF as [CF PF].
  pose proof (den_pos _ CT). pose proof (den_pos _ CF).
  apply ratio_divide_exact in Hc as [C E]; [|done..]. subst a b. split_and!; [|nia|done].
  set (A := num (period From) * den (period To)) in *.
  set (B := den (period From) * num (period To)) in *.
  transitivity (x * (A * den c)); [|rewrite <- E]; lia.
Qed.

Lemma scaled_div : a / b = (x * num c) / den c.
Proof.
  destruct scaled_value as (E & Hb & Hd).
  rewrite <- (Z.div_mul_cancel_r a b (den c)) by lia.
  rewrite <- (Z.div_mul_cancel_r (x * num c) (den c) b) by lia. f_equal; lia.
Qed.

Lemma scaled_nearest : nearest_even a b = nearest_even (x * num c) (den c).
Proof.
  destruct scaled_value as (E & Hb & Hd).
  rewrite <- (nearest_even_scale a b (den c)) by lia.
  rewrite <- (nearest_even_scale (x * num c) (den c) b) by lia. f_equal; lia.
Qed.

Lemma room_fits y : Z.abs y <= Z.abs (x * num c) + den c -> in_type ct y.
Proof. unfold in_type, fits. unfold duration_max in room. lia. Qed.

Lemma common_From_To : common_of From To ct (num c) (den c).
Proof. by apply common_type_scaled. Qed.

Lemma common_To_From : common_of To From ct (den c) (num c).
Proof.
  replace (den c) with (num (Ratio (den c) (num c))) by done.
  replace (num c) with (den (Ratio (den c) (num c))) at 2 by done.
  apply common_type_scaled; auto using common_type_comm, scale_sym.
Qed.

Lemma casted_value : in_type To ((x * num c) / den c) ->
  duration_cast To From x = Val ((x * num c) ÷ den c).
Proof.
  intros F. destruct scaled_value as (_ & _ & Hd).
  apply duration_cast_scaled; [done|by eapply fits_64|eapply fits_64, room_fits; lia|].
  destruct (quot_between (x * num c) (den c) Hd) as [? ?]. unfold in_type, fits in *. lia.
Qed.
Lemma less_From_To y : in_type To y -> Z.abs (y * den c) <= Z.abs (x * num c) + den c ->
  less From To x y = Val (x * num c <? y * den c).
Proof.
  intros Fy Hy. destruct scaled_value as (_ & _ & Hd). unfold less.
  by erewrite in_common_scaled by (try apply common_From_To; eauto; apply room_fits; lia).
Qed.

Lemma less_To_From y : in_type To y -> Z.abs (y * den c) <= Z.abs (x * num c) + den c ->
  less To From y x = Val (y * den c <? x * num c).
Proof.
  intros Fy Hy. destruct scaled_value as (_ & _ & Hd). unfold less.
  by erewrite in_common_scaled
    by (try apply common_To_From; eauto using common_type_comm; apply room_fits; lia).
Qed.

Lemma minus_From_To y : in_type To y -> Z.abs (y * den c) <= Z.abs (x * num c) + den c ->
  Z.abs (x * num c - y * den c) <= den c ->
  minus From To x y = Val (x * num c - y * den c).
Proof.
  intros Fy Hy Hd. destruct scaled_value as (_ & _ & Hd'). unfold minus.
  erewrite in_common_scaled by (try apply common_From_To; eauto; apply room_fits; lia).
  apply checked_ok, room_fits. lia.
Qed.

Lemma minus_To_From y : in_type To y -> Z.abs (y * den c) <= Z.abs (x * num c) + den c ->
  Z.abs (y * den c - x * num c) <= den c ->
  minus To From y x = Val (y * den c - x * num c).
Proof.
  intros Fy Hy Hd. destruct scaled_value as (_ & _ & Hd'). unfold minus.
  erewrite in_common_scaled
    by (try apply common_To_From; eauto using common_type_comm; apply room_fits; lia).
  apply checked_ok, room_fits. lia.
Qed.

Lemma casted_small : Z.abs ((x * num c) ÷ den c * den c) <= Z.abs (x * num c) + den c.
Proof.
  destruct scaled_value as (_ & _ & Hd). pose proof (Z.quot_rem' (x * num c) (den c)).
  pose proof (Z.rem_bound_abs (x * num c) (den c)). lia.
Qed.

Lemma casted_in_type : in_type To ((x * num c) / den c) -> in_type To ((x * num c) ÷ den c).
Proof.
  destruct scaled_value as (_ & _ & Hd).
  destruct (quot_between (x * num c) (den c) Hd) as [? ?]. unfold in_type, fits in *. lia.
Qed.

Lemma floor_correct : in_type To (a / b) -> floor To From x = Val (a / b).
Proof.
  rewrite scaled_div. intros F. destruct scaled_value as (_ & _ & Hd).
  unfold floor, greater. rewrite casted_value by done. cbn.
  rewrite less_From_To by auto using casted_small, casted_in_type. cbn.
  pose proof (casted_in_type F). destruct (quot_between (x * num c) (den c) Hd) as [? _].
  pose proof (Z.div_mod (x * num c) (den c)). pose proof (Z.mod_pos_bound (x * num c) (den c) Hd).
  set (f := (x * num c) / den c) in *. set (t := (x * num c) ÷ den c) in *.
  destruct (Z.ltb_spec (x * num c) (t * den c)).
  - assert (t = f + 1) as -> by nia. replace (f + 1 - 1) with f by lia. by apply checked_ok.
  - f_equal. nia.
Qed.
Lemma ceil_correct :
  in_type To (a / b) -> in_type To (- (- a / b)) -> ceil To From x = Val (- (- a / b)).
Proof.
  assert (- a / b = - (x * num c) / den c) as ->.
  { destruct scaled_value as (E & Hb & Hd).
    rewrite <- (Z.div_mul_cancel_r (- a) b (den c)) by lia.
    rewrite <- (Z.div_mul_cancel_r (- (x * num c)) (den c) b) by lia. f_equal; lia. }
  rewrite scaled_div. intros F F'. destruct scaled_value as (_ & _ & Hd).
  unfold ceil. rewrite casted_value by done. cbn.
  rewrite less_To_From by auto using casted_small, casted_in_type. cbn.
  pose proof (casted_in_type F). destruct (quot_between (x * num c) (den c) Hd) as [? _].
  destruct (quot_between (- (x * num c)) (den c) Hd) as [Hq _]. rewrite Z.quot_opp_l in Hq by lia.
  pose proof (Z.div_mod (- (x * num c)) (den c)).
  pose proof (Z.mod_pos_bound (- (x * num c)) (den c) Hd).
  set (g := - (x * num c) / den c) in *. set (t := (x * num c) ÷ den c) in *.
  destruct (Z.ltb_spec (t * den c) (x * num c)).
  - assert (t = - g - 1) as -> by nia. replace (- g - 1 + 1) with (- g) by lia. by apply checked_ok.
  - f_equal. nia.
Qed.

Lemma common_wf_type : wf_type ct.
Proof. apply (common_wf _ _ _ _ _ common_From_To). Qed.

(** Rounding a duration to another unit yields the nearest count, and the even one of
    two counts that are equally near. *)
Theorem round_correct :
  in_type To (a / b) -> in_type To (a / b + 1) -> round To From x = Val (nearest_even a b).
Proof.
  intros F F'. unfold round. rewrite floor_correct by done. cbn.
  assert (in_type To 1) by (unfold in_type, fits; destruct (rep To); cbn; lia).
  assert (plus To To (a / b) 1 = Val (a / b + 1)) as ->
    by (unfold plus; rewrite in_common_same by done; by apply checked_ok). cbn.
  rewrite scaled_nearest, !scaled_div in *. destruct scaled_value as (_ & _ & Hd).
  pose proof (Z.div_mod (x * num c) (den c)). pose proof (Z.mod_pos_bound (x * num c) (den c) Hd).
  unfold nearest_even. set (f := (x * num c) / den c) in *. set (m := (x * num c) mod den c) in *.
  rewrite minus_From_To, minus_To_From by (done || nia). cbn.
  rewrite Hct, (common_type_comm _ _ _ WF WT Hct). cbn.
  unfold less, equal. rewrite !in_common_same by (apply common_wf_type || (apply room_fits; nia)). cbn. rewrite is_even_even.
  replace (x * num c - f * den c) with m by lia.
  replace ((f + 1) * den c - x * num c) with (den c - m) by lia.
  assert ((m <? den c - m) = (2 * m <? den c)) as ->
    by (apply eq_true_iff_eq; rewrite !Z.ltb_lt; lia).
  assert ((m =? den c - m) = (2 * m =? den c)) as ->
    by (apply eq_true_iff_eq; rewrite !Z.eqb_eq; lia).
  by destruct (_ || _).
Qed.
End rounding.

(** Converting to a finer unit and casting back yields the duration one started with. *)
Theorem convert_roundtrip To From p x y :
  wf_type To -> wf_type From -> scale To From = Val (Ratio p 1) ->
  in_type From x -> in_type To (x * p) ->
  convert To From x = Val y -> duration_cast From To y = Val x.
Proof.
  intros WT WF S Fx Fp. rewrite (convert_scaled _ _ p) by (done || by eapply fits_64).
  intros [= <-]. destruct (scale_pos _ _ _ WT WF S) as [Pp _]; cbn in Pp.
  apply scale_sym in S as S'; [|done..]. cbn in S'.
  rewrite (duration_cast_scaled _ _ _ _ S'); cbn;
    rewrite ?Z.mul_1_r, ?Z.quot_mul by lia; try done; by eapply fits_64.
Qed.

(** ** Clocks *)

Lemma quotient_ok r x y :
  0 <= x -> 0 < y -> fits (width r) x -> quotient r x y = Val (x / y).
Proof.
  intros Hx Hy F. unfold quotient. destruct (Z.eqb_spec y 0); [lia|].
  rewrite Z.quot_div_nonneg by lia. apply checked_ok.
  pose proof (Z.div_pos x y Hx Hy). pose proof (Z.div_le_upper_bound x y x Hy). unfold fits in *. nia.
Qed.

Lemma remainder_ok r x y :
  0 <= x -> 0 < y -> fits (width r) x -> remainder r x y = Val (x mod y).
Proof.
  intros. unfold remainder. rewrite quotient_ok by done. cbn. by rewrite Z.rem_mod_nonneg by lia.
Qed.

(** The steady clock converts a performance counter to nanoseconds without the
    overflow of the direct product: only the result and the part below one second have to
    fit 64 bits. *)
Theorem steady_now_correct freq counter :
  0 < freq -> 0 <= counter -> fits 64 counter ->
  freq * 10 ^ 9 <= 2 ^ 63 -> fits 64 (counter * 10 ^ 9 / freq) ->
  steady_now freq counter = Val (counter * 10 ^ 9 / freq).
Proof.
  intros Hf Hc Fc Hm Fr. unfold steady_now.
  change nano with (Val (Ratio 1 (10 ^ 9))). cbn [mbind ceval_bind den].
  rewrite quotient_ok, remainder_ok by done. cbn [mbind ceval_bind].
  pose proof (Z.div_mod counter freq). pose proof (Z.mod_pos_bound counter freq Hf).
  set (q := counter / freq) in *. set (m := counter mod freq) in *.
  assert (counter * 10 ^ 9 / freq = q * 10 ^ 9 + m * 10 ^ 9 / freq) as E.
  { replace (counter * 10 ^ 9) with (q * 10 ^ 9 * freq + m * 10 ^ 9) by lia.
    by rewrite Z.div_add_l by lia. }
  assert (0 <= q) by (apply Z.div_pos; lia).
  assert (0 <= m * 10 ^ 9 / freq < 10 ^ 9).
  { split; [apply Z.div_pos; lia|apply Z.div_lt_upper_bound; lia]. }
  rewrite E in *. unfold fits in Fr.
  rewrite checked_ok by (unfold fits; lia). cbn [mbind ceval_bind].
  rewrite checked_ok by (unfold fits; lia). cbn [mbind ceval_bind].
  rewrite quotient_ok by (unfold fits; cbn [width]; lia). cbn [mbind ceval_bind].
  by rewrite checked_ok by (unfold fits; lia).
Qed.

(** The kernel counts system time in units of 100 nanoseconds, like [tics].  The period of
    the system clock is ten times shorter, so a time in seconds comes out ten times too
    small. *)
Theorem system_clock_period t :
  fits 64 t ->
  to_time_t (system_now t) = Val (t ÷ 10 ^ 8) /\ duration_cast seconds tics t = Val (t ÷ 10 ^ 7).
Proof.
  intros F. unfold to_time_t, system_now.
  change system_duration with (Val (DurationType LongLong (Ratio 1 (10 ^ 8)))). cbn [mbind ceval_bind].
  assert (forall d, 0 < d -> fits 64 (t ÷ d)) as Fq.
  { intros. pose proof (Z.quot_rem' t d). pose proof (Z.rem_bound_abs t d). unfold fits in *. 
    destruct (decide (0 <= t)); [pose proof (Z.quot_pos t d)|
      pose proof (Z.quot_opp_l t d); pose proof (Z.quot_pos (- t) d)]; nia. }
  split.
  - rewrite (duration_cast_scaled _ _ (Ratio 1 (10 ^ 8))); cbn [num den];
      rewrite ?Z.mul_1_r; try done. by apply Fq.
  - rewrite (duration_cast_scaled _ _ (Ratio 1 (10 ^ 7))); cbn [num den];
      rewrite ?Z.mul_1_r; try done. by apply Fq.
Qed.

(** ** Witnesses *)

Ltac wf_type_tac := split; [by split; vm_compute|done].

Lemma duration_cast_correct_witness : duration_cast seconds tics (-15000000) = Val (-1).
Proof.
  apply (duration_cast_correct seconds tics (Ratio 1 10000000)); try wf_type_tac; done.
Defined.

Lemma duration_less_exact_witness : less minutes tics 1 600000001 = Val true.
Proof.
  apply (duration_less_exact minutes tics tics (Ratio 600000000 1));
    try wf_type_tac; done.
Defined.

Lemma round_correct_witness : round seconds tics 25000000 = Val 2.
Proof.
  apply (round_correct seconds tics tics (Ratio 1 10000000)); try wf_type_tac; done.
Defined.

Lemma convert_roundtrip_witness : duration_cast minutes seconds 120 = Val 2.
Proof.
  apply (convert_roundtrip seconds minutes 60); try wf_type_tac; done.
Defined.

Lemma steady_now_correct_witness : steady_now 10000000 12345678901 = Val 1234567890100.
Proof. apply (steady_now_correct 10000000 12345678901); done. Defined.
