(* ===== verification/Threads.v ===== *)
(** * Kernel threads (include/thread.hpp, src/thread.cpp)

    A [system_thread] holds a referenced kernel thread object.  Creating one packs the
    function with its arguments into a tuple on the heap, which the new thread takes over.
    The kernel is the environment: the model records the calls that succeeded, in their
    order, and takes the answers as arguments.  Threads run between the operations of
    their owners; what a thread does is one step of [invoke_in_thread]. *)
From Stdlib Require Import ZArith Lia.
From stdpp Require Import base list gmap numbers.
From S2P Require Import Prelude Ratio Chrono.
#[local] Open Scope Z_scope.

(** ** Waiting and sleeping *)

Inductive ZeroWaitPolicy := Cancel | Yield.

(** What [wait_for_impl] does: it returns [STATUS_CANCELLED] or hands an interval to the
    kernel; negative intervals are relative to now. *)
Inductive wait_request := STATUS_CANCELLED | Wait (interval : Z).

Definition wait_for_impl (Policy : ZeroWaitPolicy) (T : duration_type) (wait_duration : Z)
    : ceval wait_request :=
  lt ← less T T wait_duration 0;
  eq ← equal T T wait_duration 0;
  if lt || ((if Policy is Cancel then true else false) && eq) then Val STATUS_CANCELLED
  else
    tics_to_wait ← duration_cast tics T wait_duration;
    QuadPart ← checked 64 (-1 * tics_to_wait);
    Val (Wait QuadPart).

Definition sleep_for (T : duration_type) (sleep_duration : Z) : ceval wait_request :=
  wait_for_impl Yield T sleep_duration.

(** [yield] sleeps for [0_s]. *)
Definition yield : ceval wait_request := sleep_for seconds 0.

Definition wait_until_impl (Policy : ZeroWaitPolicy) (T C : duration_type) (awake_time now : Z)
    : ceval wait_request :=
  D ← common_type T C;
  d ← time_point_difference T C awake_time now;
  wait_for_impl Policy D d.

Definition sleep_until (T C : duration_type) (sleep_time now : Z) : ceval wait_request :=
  D ← common_type T C;
  d ← time_point_difference T C sleep_time now;
  sleep_for D d.

(** The microseconds that the processor stalls, if it does, without the assertion that
    only debug builds make. *)
Definition stall_for (T : duration_type) (stall_duration : Z) : ceval (option Z) :=
  us ← microseconds;
  us_to_wait ← duration_cast us T stall_duration;
  if 0 <=? us_to_wait then Val None else Val (Some (u32 us_to_wait)).

(** ** Threads *)

Inductive pool_type := Paged | NonPaged.

#[export] Instance pool_type_eq_dec : EqDecision pool_type.
Proof. solve_decision. Defined.

(** Calls to the kernel that succeeded. *)
Inductive kernel_call :=
  | CreateSystemThread (thread tuple : nat)
  | ReferenceObjectByHandle (thread : nat)
  | CloseHandle (thread : nat)
  | DereferenceObject (thread : nat)
  | WaitForSingleObject (thread : nat)
  | TerminateSystemThread (thread : nat) (status : Z).

#[export] Instance kernel_call_eq_dec : EqDecision kernel_call.
Proof. solve_decision. Defined.

(** [m_thread] of every thread object by name; the tuples on the heap; the threads that
    have started and not yet taken over their tuple; the calls, the latest first. *)
Record thread_world := ThreadWorld {
  m_threads : gmap nat (option nat);
  tuples : gmap nat pool_type;
  started : gmap nat nat;
  calls : list kernel_call }.

Definition set_m_threads (m : gmap nat (option nat)) (w : thread_world) : thread_world :=
  ThreadWorld m (tuples w) (started w) (calls w).
Definition set_tuples (m : gmap nat pool_type) (w : thread_world) : thread_world :=
  ThreadWorld (m_threads w) m (started w) (calls w).
Definition set_started (m : gmap nat nat) (w : thread_world) : thread_world :=
  ThreadWorld (m_threads w) (tuples w) m (calls w).

Definition call (c : kernel_call) : M thread_world unit :=
  modify (fun w => ThreadWorld (m_threads w) (tuples w) (started w) (c :: calls w)).

(** Does a list of calls start thread [t]? *)
Definition creates (t : nat) (c : kernel_call) : bool :=
  if c is CreateSystemThread t' _ then bool_decide (t = t') else false.
Definition references (t : nat) (c : kernel_call) : bool :=
  if c is ReferenceObjectByHandle t' then bool_decide (t = t') else false.
Definition closes (t : nat) (c : kernel_call) : bool :=
  if c is CloseHandle t' then bool_decide (t = t') else false.
Definition dereferences (t : nat) (c : kernel_call) : bool :=
  if c is DereferenceObject t' then bool_decide (t = t') else false.

Definition call_count (P : kernel_call -> bool) (cs : list kernel_call) : nat :=
  length (List.filter P cs).

(** A guard that runs when an exception leaves the block. *)
Definition on_throw {A} (cleanup : M thread_world unit) (m : M thread_world A) : M thread_world A :=
  fun w => match m w with Throw w' e => (_ ← cleanup; throw e) w' | o => o end.

(** ** thread_base *)

Definition read_thread (h : nat) : M thread_world (option nat) := w ← get; access (m_threads w !! h).
Definition write_thread (h : nat) (m_thread : option nat) : M thread_world unit :=
  modify (fun w => set_m_threads (<[h := m_thread]> (m_threads w)) w).

Definition destroy (h : nat) : M thread_world unit :=
  o ← read_thread h;
  match o with
  | Some t => _ ← call (DereferenceObject t); write_thread h None
  | None => mret tt
  end.

Definition exchange_null (h : nat) : M thread_world (option nat) :=
  o ← read_thread h; _ ← write_thread h None; mret o.

Definition move_construct (h other : nat) : M thread_world unit :=
  o ← exchange_null other; write_thread h o.

Definition move_assign (h other : nat) : M thread_world unit :=
  if decide (h = other) then mret tt
  else _ ← destroy h; o ← exchange_null other; write_thread h o.

Definition swap (h other : nat) : M thread_world unit :=
  x ← read_thread h; y ← read_thread other; _ ← write_thread h y; write_thread other x.

(** [referenced]: whether the kernel gives the reference. *)
Definition try_obtain_thread_object (t : nat) (referenced : bool) : M thread_world (option nat) :=
  if referenced then _ ← call (ReferenceObjectByHandle t); mret (Some t) else mret None.

(** ** Creation *)

(** The answers of the heap (the tuple) and of the kernel (the thread). *)
Record creation := Creation { allocated : option nat; created : option nat; referenced : bool }.

Definition DISPATCH_LEVEL : Z := 2.

Definition pack_fn_with_args (max_irql : Z) (c : creation) : M thread_world nat :=
  match allocated c with
  | None => throw bad_alloc
  | Some a =>
      _ ← modify (fun w => set_tuples
            (<[a := if max_irql <? DISPATCH_LEVEL then Paged else NonPaged]> (tuples w)) w);
      mret a
  end.

Definition delete_tuple (a : nat) : M thread_world unit :=
  modify (fun w => set_tuples (delete a (tuples w)) w).

(** The same for [io_thread], which calls [IoCreateSystemThread]. *)
Definition create_thread_impl (raw_args : nat) (c : creation) : M thread_world (option nat) :=
  match created c with
  | None => throw kernel_error
  | Some t =>
      _ ← call (CreateSystemThread t raw_args);
      _ ← modify (fun w => set_started (<[t := raw_args]> (started w)) w);
      thread_obj ← try_obtain_thread_object t (referenced c);
      _ ← call (CloseHandle t);
      mret thread_obj
  end.

Definition create_thread (max_irql : Z) (c : creation) : M thread_world (option nat) :=
  packed_args ← pack_fn_with_args max_irql c;
  on_throw (delete_tuple packed_args) (create_thread_impl packed_args c).

(** [debug]: the assertion of the constructors is compiled in. *)
Definition construct (debug : bool) (h : nat) (max_irql : Z) (c : creation) : M thread_world unit :=
  thread_obj ← create_thread max_irql c;
  _ ← write_thread h thread_obj;
  if debug && (if thread_obj is None then true else false) then throw (terminated AssertionFailure)
  else mret tt.

Definition construct_default (h : nat) : M thread_world unit := write_thread h None.

(** ** system_thread *)

Definition joinable (h : nat) : M thread_world bool :=
  o ← read_thread h; mret (if o is Some _ then true else false).

Definition verify_joinable (h : nat) : M thread_world unit :=
  b ← joinable h; if b : bool then mret tt else throw kernel_error.

Definition join (h : nat) : M thread_world unit :=
  _ ← verify_joinable h;
  o ← read_thread h;
  t ← access o;
  _ ← call (WaitForSingleObject t);
  destroy h.

Definition detach (h : nat) : M thread_world unit := _ ← verify_joinable h; destroy h.

Definition end_thread_object (h : nat) : M thread_world unit :=
  modify (fun w => set_m_threads (delete h (m_threads w)) w).

Definition destruct_system_thread (h : nat) : M thread_world unit :=
  b ← joinable h;
  if b : bool then throw (terminated DestroyingJoinableThread)
  else _ ← destroy h; end_thread_object h.

(** An [io_thread] has the destructor of [thread_base]. *)
Definition destruct_io_thread (h : nat) : M thread_world unit := _ ← destroy h; end_thread_object h.

(** ** The body of a thread *)

Inductive thread_class := SystemThread | GuardedSystemThread | IoThread.

(** How the function that was packed ends: [Raises (Some code)] throws an exception
    derived from [ktl::exception] with this code. *)
Inductive fn_result := Returns | Raises (code : option Z).

Definition STATUS_SUCCESS : Z := 0.
Definition STATUS_UNHANDLED_EXCEPTION : Z := 0xC0000144.

(** The status, or an exception that leaves the function. *)
Definition make_call (C : thread_class) (r : fn_result) : option Z :=
  match C, r with
  | _, Returns => Some STATUS_SUCCESS
  | GuardedSystemThread, Raises (Some code) => Some code
  | GuardedSystemThread, Raises None => Some STATUS_UNHANDLED_EXCEPTION
  | _, Raises _ => None
  end.

(** [guarded_system_thread] inherits the constructors of [system_thread] and with them the
    thread routine of [worker_thread<system_thread>], whose accessor names the functions of
    [system_thread]. *)
Definition ConcreteThread (C : thread_class) : thread_class :=
  match C with GuardedSystemThread => SystemThread | C => C end.

Definition before_exit (C : thread_class) (t : nat) (status : Z) : M thread_world unit :=
  match C with IoThread => mret tt | _ => call (TerminateSystemThread t status) end.

(** [noexcept]: an exception that leaves [invoke_with_unpacked_args] ends in
    [terminate]; otherwise its parameter, the guard of the tuple, is destroyed. *)
Definition invoke_in_thread (C : thread_class) (t : nat) (r : fn_result) : M thread_world unit :=
  w ← get;
  raw_args ← access (started w !! t);
  _ ← put (set_started (delete t (started w)) w);
  _ ← access (tuples w !! raw_args);
  match make_call (ConcreteThread C) r with
  | Some status => _ ← delete_tuple raw_args; before_exit (ConcreteThread C) t status
  | None => throw (terminated NoexceptViolation)
  end.

(** ** Schedules *)

Inductive thread_op :=
  | TDefault (h : nat) | TCreate (h : nat) (max_irql : Z) (c : creation)
  | TMove (h other : nat) | TAssign (h other : nat) | TSwap (h other : nat)
  | TJoin (h : nat) | TDetach (h : nat) | TDestroy (h : nat) | TDestroyIo (h : nat)
  | TRun (C : thread_class) (t : nat) (r : fn_result).

Definition run_thread_op (debug : bool) (op : thread_op) : M thread_world unit :=
  match op with
  | TDefault h => construct_default h
  | TCreate h max_irql c => construct debug h max_irql c
  | TMove h other => move_construct h other
  | TAssign h other => move_assign h other
  | TSwap h other => swap h other
  | TJoin h => join h
  | TDetach h => detach h
  | TDestroy h => destruct_system_thread h
  | TDestroyIo h => destruct_io_thread h
  | TRun C t r => invoke_in_thread C t r
  end.

Example sleep_example : sleep_for seconds 2 = Val (Wait (-20000000)). Proof. reflexivity. Qed.
Example yield_example : yield = Val (Wait 0). Proof. reflexivity. Qed.
