(* ===== verification/ThreadsTheorems.v ===== *)
(** * Properties of threads (Threads)

    References to kernel threads are counted by the objects that hold them, every handle
    is closed, every tuple of arguments is taken over or freed once. *)
From Stdlib Require Import ZArith Lia.
From stdpp Require Import base list gmap numbers.
From S2P Require Import Prelude Refinement Ratio Chrono ChronoTheorems Threads.
#[local] Open Scope nat_scope.

#[local] Arguments call_count : simpl never.

(** ** The account *)

Definition holds (t : nat) (x : nat * option nat) : Prop := x.2 = Some t.

#[export] Instance holds_dec t x : Decision (holds t x).
Proof. unfold holds. apply _. Defined.

Record thread_account (w : thread_world) : Prop := {
  ta_references t : call_count (references t) (calls w) =
    matching (holds t) (m_threads w) + call_count (dereferences t) (calls w);
  ta_handles t : call_count (closes t) (calls w) = call_count (creates t) (calls w);
  ta_referenced t : call_count (references t) (calls w) <= call_count (creates t) (calls w);
  ta_once t : call_count (creates t) (calls w) <= 1;
  ta_started t a : started w !! t = Some a -> is_Some (tuples w !! a);
  ta_owner a p : tuples w !! a = Some p -> exists t, started w !! t = Some a;
  ta_unique t t' a : started w !! t = Some a -> started w !! t' = Some a -> t = t';
  ta_created t a : started w !! t = Some a -> call_count (creates t) (calls w) = 1 }.

(** What an operation asks of its caller and of the kernel: objects are constructed where
    none is, the heap and the kernel hand out what is not in use, a wait returns when the
    thread has run, a thread runs once. *)
Definition thread_op_ok (op : thread_op) (w : thread_world) : Prop :=
  match op with
  | TDefault h => m_threads w !! h = None
  | TCreate h _ c => m_threads w !! h = None /\
      match allocated c with Some a => tuples w !! a = None | None => True end /\
      match created c with Some t => call_count (creates t) (calls w) = 0 | None => True end
  | TMove h other => m_threads w !! h = None /\ is_Some (m_threads w !! other)
  | TAssign h other | TSwap h other => is_Some (m_threads w !! h) /\ is_Some (m_threads w !! other)
  | TJoin h =>
      match m_threads w !! h with
      | Some (Some t) => started w !! t = None
      | Some None => True
      | None => False
      end
  | TDetach h | TDestroy h | TDestroyIo h => is_Some (m_threads w !! h)
  | TRun _ t _ => is_Some (started w !! t)
  end.

#[export] Instance thread_op_ok_dec op w : Decision (thread_op_ok op w).
Proof. destruct op; unfold thread_op_ok; repeat case_match; apply _. Defined.

(** The state after an operation that returns or throws an exception that is caught. *)
Definition next (debug : bool) (op : thread_op) (w : thread_world) : option thread_world :=
  match run_thread_op debug op w with
  | Ok w' _ => Some w'
  | Throw w' (terminated _) => None
  | Throw w' _ => Some w'
  | _ => None
  end.

Definition no_threads : thread_world := ThreadWorld ∅ ∅ ∅ [].

Inductive reachable (debug : bool) : thread_world -> Prop :=
  | reach_init : reachable debug no_threads
  | reach_step op w w' :
      reachable debug w -> thread_op_ok op w -> next debug op w = Some w' -> reachable debug w'.

(** ** Counting calls *)

Lemma call_count_cons P c cs : call_count P (c :: cs) = (if P c then 1 else 0) + call_count P cs.
Proof. unfold call_count. cbn. by destruct (P c). Qed.

Lemma call_count_nil P : call_count P [] = 0.
Proof. done. Qed.

Lemma counted_holds t h x : counted (holds t) (h, x) = if decide (x = Some t) then 1 else 0.
Proof. done. Qed.

Ltac count_calls :=
  rewrite ?call_count_cons, ?call_count_nil, ?counted_holds;
  cbn [references dereferences creates closes]; repeat (case_bool_decide || case_decide); simplify_eq; try lia.

(** The account when object [h] changes and a list of calls is added. *)
Lemma account_replaced w h x y cs :
  thread_account w -> m_threads w !! h = Some x ->
  (forall t, call_count (references t) cs + counted (holds t) (h, x) =
             call_count (dereferences t) cs + counted (holds t) (h, y)) ->
  (forall t, call_count (references t) cs = 0 /\ call_count (creates t) cs = 0 /\
             call_count (closes t) cs = 0) ->
  thread_account (ThreadWorld (<[h := y]> (m_threads w)) (tuples w) (started w) (cs ++ calls w)).
Proof.
  intros [R H F O S Ow U C] Hh Hc Hz.
  assert (forall P, call_count P (cs ++ calls w) = call_count P cs + call_count P (calls w)) as E.
  { intros. unfold call_count. rewrite List.filter_app, length_app. done. }
  split; cbn [m_threads tuples started calls]; try done; intros t; rewrite ?E.
  - pose proof (matching_insert (holds t) _ _ _ y Hh). specialize (Hc t). specialize (R t). lia.
  - destruct (Hz t) as (? & ? & ?). rewrite H. lia.
  - destruct (Hz t) as (? & ? & ?). specialize (F t). lia.
  - destruct (Hz t) as (? & ? & ?). specialize (O t). lia.
  - intros a Ha. destruct (Hz t) as (? & ? & ?). rewrite (C t a Ha). lia.
Qed.

Lemma matching_new w h x t :
  m_threads w !! h = None ->
  matching (holds t) (<[h := x]> (m_threads w)) = counted (holds t) (h, x) + matching (holds t) (m_threads w).
Proof. apply matching_insert_new. Qed.

Lemma account_new w h :
  thread_account w -> m_threads w !! h = None ->
  thread_account (set_m_threads (<[h := None]> (m_threads w)) w).
Proof.
  intros [R ? ? ? ? ? ? ?] Hh. split; cbn; try done.
  intros t. rewrite R, matching_new by done.
  count_calls.
Qed.

Lemma account_removed w h :
  thread_account w -> m_threads w !! h = Some None ->
  thread_account (set_m_threads (delete h (m_threads w)) w).
Proof.
  intros [R ? ? ? ? ? ? ?] Hh. split; cbn; try done. intros t. rewrite R, (matching_delete _ _ _ _ Hh).
  count_calls.
Qed.

(** ** Effects *)

Section effects.
Context (w : thread_world).

Lemma read_thread_ok h x : m_threads w !! h = Some x -> read_thread h w = Ok w x.
Proof. intros E. unfold read_thread, get, mbind, M_bind. by rewrite E. Qed.

(** What remains of the calls and of object [h] after [destroy]. *)
Definition destroyed (h : nat) (x : option nat) : thread_world :=
  ThreadWorld (<[h := None]> (m_threads w)) (tuples w) (started w)
    ((if x is Some t then [DereferenceObject t] else []) ++ calls w).

Lemma thread_destroy_ok h x : m_threads w !! h = Some x -> destroy h w = Ok (destroyed h x) tt.
Proof.
  intros E. unfold destroy. rewrite (bind_Ok _ _ _ _ _ (read_thread_ok _ _ E)).
  destruct x; [done|]. unfold destroyed. cbn. rewrite insert_id by done. by destruct w.
Qed.

Lemma destroyed_account h x :
  thread_account w -> m_threads w !! h = Some x -> thread_account (destroyed h x).
Proof.
  intros A E. apply (account_replaced _ _ x); [done..| |].
  all: destruct x; intros; count_calls; auto.
Qed.
End effects.

(** Objects exchange what they hold. *)
Lemma account_exchanged w m :
  thread_account w -> (forall t, matching (holds t) m = matching (holds t) (m_threads w)) ->
  thread_account (set_m_threads m w).
Proof. intros [R ? ? ? ? ? ? ?] E. split; cbn; try done. intros t. by rewrite R, E. Qed.

Lemma moved_matching (m : gmap nat (option nat)) h other o t :
  h <> other -> m !! other = Some o -> m !! h = None \/ m !! h = Some None ->
  matching (holds t) (<[h := o]> (<[other := None]> m)) = matching (holds t) m.
Proof.
  intros Hne Ho Hh. pose proof (matching_insert (holds t) m other o None Ho) as E1.
  destruct Hh as [Hh|Hh]; rewrite <- (lookup_insert_ne m other h None) in Hh by done.
  - rewrite matching_insert_new by done. revert E1. count_calls; intros; lia.
  - pose proof (matching_insert (holds t) _ h None o Hh) as E2. revert E1 E2. count_calls; intros; lia.
Qed.

Lemma swapped_matching (m : gmap nat (option nat)) h other x y t :
  m !! h = Some x -> m !! other = Some y ->
  matching (holds t) (<[other := x]> (<[h := y]> m)) = matching (holds t) m.
Proof.
  intros Hh Ho. destruct (decide (h = other)) as [->|Hne].
  { rewrite insert_insert_eq, insert_id; congruence. }
  pose proof (matching_insert (holds t) m h x y Hh) as E1.
  rewrite <- (lookup_insert_ne m h other y) in Ho by done.
  pose proof (matching_insert (holds t) _ other y x Ho) as E2. change (counted (holds t) (other, y)) with (counted (holds t) (h, y)) in E2.
  change (counted (holds t) (other, x)) with (counted (holds t) (h, x)) in E2. lia.
Qed.

(** ** Operations *)

(** The operation neither faults nor diverges and keeps the account, also when it throws an
    exception that can be caught. *)
Definition keeps (m : M thread_world unit) (w : thread_world) : Prop :=
  match m w with
  | Throw w' (terminated _) => True
  | Ok w' _ | Throw w' _ => thread_account w'
  | Fault | Diverge => False
  end.

Lemma move_keeps w h other :
  thread_account w -> m_threads w !! h = None -> is_Some (m_threads w !! other) ->
  keeps (move_construct h other) w.
Proof.
  intros A Hh [o Ho]. unfold keeps, move_construct, exchange_null.
  unfold mbind, M_bind at 1 2. rewrite (read_thread_ok _ _ _ Ho). cbn.
  apply (account_exchanged w); [done|]. intros t. apply moved_matching; auto. congruence.
Qed.

Lemma assign_keeps w h other :
  thread_account w -> is_Some (m_threads w !! h) -> is_Some (m_threads w !! other) ->
  keeps (move_assign h other) w.
Proof.
  intros A [x Hx] [o Ho]. unfold keeps, move_assign. case_decide; [done|].
  rewrite (bind_Ok _ _ _ _ _ (thread_destroy_ok _ _ _ Hx)). unfold exchange_null.
  assert (m_threads (destroyed w h x) !! other = Some o) as Ho'
    by (cbn; by rewrite lookup_insert_ne).
  unfold mbind, M_bind at 1 2. rewrite (read_thread_ok _ _ _ Ho'). cbn [write_thread modify mret M_ret].
  apply (account_exchanged (destroyed w h x)); [by apply destroyed_account|].
  intros t. apply moved_matching; [done..|]. right. apply lookup_insert_eq.
Qed.

Lemma swap_keeps w h other :
  thread_account w -> is_Some (m_threads w !! h) -> is_Some (m_threads w !! other) ->
  keeps (swap h other) w.
Proof.
  intros A [x Hx] [y Hy]. unfold keeps, swap.
  rewrite (bind_Ok _ _ _ _ _ (read_thread_ok _ _ _ Hx)), (bind_Ok _ _ _ _ _ (read_thread_ok _ _ _ Hy)).
  apply (account_exchanged w); [done|]. intros t. by apply swapped_matching.
Qed.

Lemma destroy_keeps w h : thread_account w -> is_Some (m_threads w !! h) -> keeps (destroy h) w.
Proof.
  intros A [x Hx]. unfold keeps. rewrite (thread_destroy_ok _ _ _ Hx). by apply destroyed_account.
Qed.

Lemma verify_joinable_ok w h x : m_threads w !! h = Some x ->
  verify_joinable h w = if x is Some _ then Ok w tt else Throw w kernel_error.
Proof.
  intros E. unfold verify_joinable, joinable, mbind, M_bind. rewrite (read_thread_ok _ _ _ E).
  by destruct x.
Qed.

Lemma detach_keeps w h : thread_account w -> is_Some (m_threads w !! h) -> keeps (detach h) w.
Proof.
  intros A [x Hx]. unfold keeps, detach, mbind, M_bind.
  rewrite (verify_joinable_ok _ _ _ Hx). destruct x; [|done]. apply destroy_keeps; eauto.
Qed.

Lemma waiting_account w t :
  thread_account w ->
  thread_account (ThreadWorld (m_threads w) (tuples w) (started w) (WaitForSingleObject t :: calls w)).
Proof.
  intros []. split; cbn; try done; intros; rewrite !call_count_cons; cbn; eauto.
Qed.

Lemma join_keeps w h : thread_account w -> is_Some (m_threads w !! h) -> keeps (join h) w.
Proof.
  intros A [x Hx]. unfold keeps, join. unfold mbind at 1, M_bind at 1.
  rewrite (verify_joinable_ok _ _ _ Hx). destruct x as [t|]; [|done].
  rewrite (bind_Ok _ _ _ _ _ (read_thread_ok _ _ _ Hx)). cbn [access]. rewrite ret_bind.
  apply (destroy_keeps (ThreadWorld (m_threads w) (tuples w) (started w) _)); [|by exists (Some t)].
  by apply waiting_account.
Qed.

Lemma end_keeps w h :
  thread_account w -> is_Some (m_threads w !! h) -> keeps (_ ← destroy h; end_thread_object h) w.
Proof.
  intros A [x Hx]. unfold keeps. rewrite (bind_Ok _ _ _ _ _ (thread_destroy_ok _ _ _ Hx)).
  apply (account_removed (destroyed w h x)); [by apply destroyed_account|apply lookup_insert_eq].
Qed.

Lemma destruct_keeps w h :
  thread_account w -> is_Some (m_threads w !! h) -> keeps (destruct_system_thread h) w.
Proof.
  intros A [x Hx]. unfold keeps, destruct_system_thread, joinable.
  rewrite (bind_Ok _ _ w w (if x is Some _ then true else false))
    by (by rewrite (bind_Ok _ _ _ _ _ (read_thread_ok _ _ _ Hx))).
  destruct x; [done|]. apply end_keeps; eauto.
Qed.

Lemma created_account w h a t p (b : bool) :
  thread_account w -> m_threads w !! h = None -> tuples w !! a = None ->
  call_count (creates t) (calls w) = 0 ->
  thread_account (ThreadWorld (<[h := if b then Some t else None]> (m_threads w))
    (<[a := p]> (tuples w)) (<[t := a]> (started w))
    (CloseHandle t :: (if b then [ReferenceObjectByHandle t] else []) ++
     CreateSystemThread t a :: calls w)).
Proof.
  intros [R H F O S Ow U C] Hh Ha Ht.
  assert (started w !! t = None) as Hs.
  { destruct (started w !! t) as [a'|] eqn:E; [|done]. specialize (C _ _ E). lia. }
  assert (forall t', started w !! t' <> Some a) as Hna.
  { intros t' E. destruct (S _ _ E). congruence. }
  split; cbn [m_threads tuples started calls].
  1-4: intros t'; specialize (R t'); specialize (H t'); specialize (F t'); specialize (O t');
    destruct b; rewrite ?matching_insert_new by done; cbn [app]; count_calls.
  - intros t' a' [[<- <-]|[_ E]]%lookup_insert_Some; [by rewrite lookup_insert_eq|].
    rewrite lookup_insert_ne by (intros ->; by eapply Hna). eauto.
  - intros a' p' [[<- _]|[Hne E]]%lookup_insert_Some; [exists t; apply lookup_insert_eq|].
    destruct (Ow _ _ E) as [t' E']. exists t'. rewrite lookup_insert_ne; [done|congruence].
  - intros t1 t2 a' [[<- <-]|[? E1]]%lookup_insert_Some [[<- E2]|[? E2]]%lookup_insert_Some;
      try done; try (by exfalso; eapply Hna); [subst; by exfalso; eapply Hna|eauto].
  - intros t' a' E. destruct (decide (t' = t)) as [->|].
    + destruct b; cbn [app]; count_calls.
    + rewrite lookup_insert_ne in E by done. specialize (C _ _ E). destruct b; cbn [app]; count_calls.
Qed.

Lemma construct_keeps debug w h i c :
  thread_account w -> thread_op_ok (TCreate h i c) w -> keeps (construct debug h i c) w.
Proof.
  intros A (Hh & Ha & Ht). destruct c as [[a|] o b]; [|done].
  cbn in Ha, Ht.
  unfold keeps, construct, create_thread, pack_fn_with_args. cbn [allocated].
  destruct o as [t|].
  - pose proof (created_account w h a t (if (i <? DISPATCH_LEVEL)%Z then Paged else NonPaged) b
      A Hh Ha Ht) as K.
    by destruct b, debug.
  - unfold on_throw, create_thread_impl, delete_tuple, modify, throw, mbind, M_bind, mret, M_ret; cbn.
    unfold set_tuples; cbn. rewrite delete_insert_id by done. by destruct w.
Qed.

Lemma ran_account w t a cs :
  thread_account w -> started w !! t = Some a ->
  (forall t' P, P ∈ [references t'; dereferences t'; creates t'; closes t'] -> call_count P cs = 0) ->
  thread_account (ThreadWorld (m_threads w) (delete a (tuples w)) (delete t (started w)) (cs ++ calls w)).
Proof.
  intros [R H F O S Ow U C] Ht Hc.
  assert (forall t' P, P ∈ [references t'; dereferences t'; creates t'; closes t'] ->
    call_count P (cs ++ calls w) = call_count P (calls w)) as E.
  { intros t' P HP. specialize (Hc t' P HP). unfold call_count in *.
    rewrite List.filter_app, length_app. lia. }
  split; cbn [m_threads tuples started calls].
  1-4: intros t'; rewrite !(E t') by (repeat constructor); auto.
  - intros t' a' [Hne Ht']%lookup_delete_Some. rewrite lookup_delete_ne; [eauto|]. intros <-. eauto.
  - intros a' p [Hne Ha]%lookup_delete_Some. destruct (Ow _ _ Ha) as [t' Ht'].
    exists t'. rewrite lookup_delete_ne; [done|]. congruence.
  - intros t1 t2 a' [_ ?]%lookup_delete_Some [_ ?]%lookup_delete_Some. eauto.
  - intros t' a' [_ Ht']%lookup_delete_Some. rewrite (E t') by (repeat constructor). eauto.
Qed.

Lemma run_keeps w C t r :
  thread_account w -> is_Some (started w !! t) -> keeps (invoke_in_thread C t r) w.
Proof.
  intros A [a Ha]. destruct (ta_started _ A _ _ Ha) as [p Hp].
  unfold keeps, invoke_in_thread, get, put, access, mbind, M_bind. rewrite Ha. cbn. rewrite Hp. cbn.
  destruct (make_call (ConcreteThread C) r) as [status|]; cbn.
  - destruct C; cbn; first
      [apply (ran_account w t a [TerminateSystemThread t status] A Ha)
      |apply (ran_account w t a [] A Ha)];
      intros t' P HP; repeat (apply elem_of_cons in HP as [->|HP]; [done|]); by inversion HP.
  - done.
Qed.

Lemma thread_op_keeps debug op w :
  thread_account w -> thread_op_ok op w -> keeps (run_thread_op debug op) w.
Proof.
  destruct op; cbn [run_thread_op]; intros A Hok;
    [by apply account_new|by apply construct_keeps|cbn in Hok..].
  - apply move_keeps; tauto.
  - apply assign_keeps; tauto.
  - apply swap_keeps; tauto.
  - apply join_keeps; [done|]. destruct (m_threads w !! h); [by eexists|done].
  - by apply detach_keeps.
  - by apply destruct_keeps.
  - by apply end_keeps.
  - by apply run_keeps.
Qed.

Lemma schedule_account debug w : reachable debug w -> thread_account w.
Proof.
  induction 1 as [|op w w' _ IH Hok Hn].
  { split; cbn; intros *; rewrite ?matching_empty, ?call_count_nil; try lia;
      rewrite lookup_empty; naive_solver. }
  pose proof (thread_op_keeps debug op w IH Hok) as K. unfold keeps, next in *.
  destruct (run_thread_op debug op w) as [w'' []|w'' []| |]; by simplify_eq.
Qed.

(** ** Properties *)

(** C9: whatever threads and their owners do in whatever order, also when creations fail:
    every reference to a kernel thread that was taken and not given back is held by an
    object, by one at most, and every handle is closed; the tuples on the heap are those of
    the threads that have not run yet; no operation has undefined behaviour or hangs. *)
Theorem threads_balanced debug w :
  reachable debug w ->
  (forall t, call_count (references t) (calls w) =
               matching (holds t) (m_threads w) + call_count (dereferences t) (calls w) /\
             matching (holds t) (m_threads w) <= 1 /\
             call_count (closes t) (calls w) = call_count (creates t) (calls w)) /\
  (forall a, is_Some (tuples w !! a) <-> exists t, started w !! t = Some a) /\
  (forall op, thread_op_ok op w -> safe (run_thread_op debug op w)).
Proof.
  intros Hr. pose proof (schedule_account _ _ Hr) as A. split_and!.
  - intros t. pose proof (ta_references _ A t). pose proof (ta_referenced _ A t).
    pose proof (ta_once _ A t). split_and!; [done|lia|apply (ta_handles _ A)].
  - intros a. split; [intros [p Hp]; by eapply ta_owner|intros [t Ht]; by eapply ta_started].
  - intros op Hok. pose proof (thread_op_keeps debug op w A Hok) as K. unfold keeps in K.
    by destruct (run_thread_op debug op w).
Qed.

(** A guarded thread is meant to turn an exception that leaves its function into the
    exit status of the thread; the routine that it runs is the one of an unguarded thread,
    which terminates. *)
Theorem guarded_thread_terminates w t a code :
  started w !! t = Some a -> is_Some (tuples w !! a) ->
  is_Some (make_call GuardedSystemThread (Raises code)) /\
  exists w', invoke_in_thread GuardedSystemThread t (Raises code) w =
    Throw w' (terminated NoexceptViolation).
Proof.
  intros Ha [p Hp]. split; [destruct code; cbn; eauto|].
  unfold invoke_in_thread, get, put, access, mbind, M_bind. rewrite Ha. cbn. rewrite Hp. cbn. eauto.
Qed.

(** Assigning to a thread object that is joinable gives its thread up without waiting,
    where its destructor would terminate. *)
Theorem assign_drops_joinable w h other t o :
  h <> other -> m_threads w !! h = Some (Some t) -> m_threads w !! other = Some o ->
  destruct_system_thread h w = Throw w (terminated DestroyingJoinableThread) /\
  exists w', move_assign h other w = Ok w' tt /\ m_threads w' !! h = Some o /\
    calls w' = DereferenceObject t :: calls w.
Proof.
  intros Hne Hh Ho. split.
  - unfold destruct_system_thread, joinable, mbind, M_bind. by rewrite (read_thread_ok _ _ _ Hh).
  - unfold move_assign. rewrite decide_False by done.
    rewrite (bind_Ok _ _ _ _ _ (thread_destroy_ok _ _ _ Hh)). unfold exchange_null.
    assert (m_threads (destroyed w h (Some t)) !! other = Some o) as Ho'
      by (cbn; by rewrite lookup_insert_ne).
    unfold mbind, M_bind at 1 2. rewrite (read_thread_ok _ _ _ Ho').
    eexists. split; [reflexivity|]. cbn. by rewrite lookup_insert_eq.
Qed.

(** ** Sleeping *)

#[local] Open Scope Z_scope.

(** A sleep of a duration that is not negative asks the kernel for the duration in units
    of 100 nanoseconds, rounded down: it may end up to one unit early, never later. *)
Theorem sleep_for_rounds_down T c d :
  wf_type T -> scale tics T = Val c -> in_type T d -> 0 <= d -> fits 64 (d * num c) ->
  let exact := d * (num (period T) * 10000000) in
  exists n, sleep_for T d = Val (Wait (- n)) /\
    n * den (period T) <= exact < (n + 1) * den (period T).
Proof.
  intros W S Fd Hd Fn exact. exists (exact / den (period T)).
  pose proof (den_pos _ (period_canonical _ W)) as D.
  assert (wf_type tics) as WT by (split; [by split; vm_compute|done]).
  destruct (scale_pos _ _ _ WT W S) as [Pn Pd].
  pose proof (scaled_div tics T c d WT W S) as E. cbn [tics period num den] in E.
  rewrite Z.mul_1_r in E. fold exact in E.
  assert (0 <= exact / den (period T) <= d * num c) as Hq.
  { rewrite E. split; [apply Z.div_pos; nia|apply Z.div_le_upper_bound; nia]. }
  assert (fits 64 (exact / den (period T))) as Fq by (unfold fits in *; lia).
  assert (duration_cast tics T d = Val (exact / den (period T))) as Hcast.
  { assert (0 <= exact) by (unfold exact; pose proof (period_pos _ W); nia).
    rewrite (duration_cast_correct tics T c); cbn [tics period num den]; try done;
      rewrite Z.mul_1_r, Z.quot_div_nonneg by lia; done. }
  split; [|pose proof (Z.div_mod exact (den (period T)));
    pose proof (Z.mod_pos_bound exact (den (period T))); lia].
  assert (in_type T 0) by (unfold in_type, fits; destruct (rep T); cbn; lia).
  unfold sleep_for, wait_for_impl, less, equal. rewrite !in_common_same by done. cbn [mbind ceval_bind].
  destruct (Z.ltb_spec d 0); [lia|]. cbn [orb andb]. rewrite Hcast. cbn [mbind ceval_bind].
  rewrite checked_ok by (unfold fits in *; lia). cbn. by destruct (exact / den (period T)).
Qed.

(** [stall_for] stalls for no duration that it is meant for: it returns at once for every
    duration that is not negative, and takes a negative one for an unsigned number. *)
Theorem stall_for_inverted d :
  fits 64 d ->
  stall_for (DurationType LongLong (Ratio 1 1000000)) d =
    Val (if 0 <=? d then None else Some (d mod 2 ^ 32)).
Proof.
  intros F. unfold stall_for.
  change microseconds with (Val (DurationType LongLong (Ratio 1 1000000))). cbn [mbind ceval_bind].
  rewrite (duration_cast_scaled _ _ (Ratio 1 1)); cbn [num den];
    rewrite ?Z.mul_1_r, ?Z.quot_1_r; try done. cbn. by destruct (0 <=? d).
Qed.

(** ** Witnesses *)

Lemma sleep_for_rounds_down_witness :
  exists n, sleep_for (DurationType LongLong (Ratio 1 1000000000)) 250 = Val (Wait (- n)) /\
    n * 1000000000 <= 250 * (1 * 10000000) < (n + 1) * 1000000000.
Proof.
  apply (sleep_for_rounds_down (DurationType LongLong (Ratio 1 1000000000)) (Ratio 1 100) 250);
    try done; by split; [by split; vm_compute|].
Defined.

(** One thread is created, moved and joined after it has run; a second creation fails. *)
Definition thread_schedule : list thread_op :=
  [TCreate 0 0 (Creation (Some 5%nat) (Some 7%nat) true);
   TCreate 1 2 (Creation (Some 6%nat) None true);
   TMove 2 0; TRun SystemThread 7 Returns; TJoin 2; TDestroy 2; TDestroy 0].

Fixpoint run_schedule (debug : bool) (ops : list thread_op) (w : thread_world) : option thread_world :=
  match ops with
  | [] => Some w
  | op :: ops => w' ← next debug op w; run_schedule debug ops w'
  end.

Fixpoint schedule_ok (debug : bool) (ops : list thread_op) (w : thread_world) : Prop :=
  match ops with
  | [] => True
  | op :: ops => thread_op_ok op w /\
      match next debug op w with Some w' => schedule_ok debug ops w' | None => False end
  end.

#[export] Instance schedule_ok_dec debug ops w : Decision (schedule_ok debug ops w).
Proof. revert w; induction ops; intros w; cbn; [|destruct (next debug a w)]; apply _. Defined.

Lemma thread_schedule_reachable debug ops w w' :
  reachable debug w -> schedule_ok debug ops w -> run_schedule debug ops w = Some w' ->
  reachable debug w'.
Proof.
  revert w. induction ops as [|op ops IH]; cbn; intros w Hr Hok E; [by simplify_eq|].
  destruct Hok as [Hop Hok]. destruct (next debug op w) as [w1|] eqn:En; [|done].
  eapply IH; [by eapply reach_step|done|done].
Qed.

Lemma threads_balanced_witness :
  exists w, run_schedule true thread_schedule no_threads = Some w /\ reachable true w /\
    calls w = [DereferenceObject 7; WaitForSingleObject 7; TerminateSystemThread 7 0;
               CloseHandle 7; ReferenceObjectByHandle 7; CreateSystemThread 7 5] /\
    (forall a, is_Some (tuples w !! a) <-> exists t, started w !! t = Some a).
Proof.
  eexists. split; [vm_compute; reflexivity|].
  match goal with |- reachable _ ?w /\ _ => assert (reachable true w) as Hr end.
  { apply (thread_schedule_reachable true thread_schedule no_threads); [constructor| |by vm_compute].
    by apply (bool_decide_unpack _); vm_compute. }
  split; [exact Hr|]. split; [reflexivity|]. apply (threads_balanced true _ Hr).
Defined.

Lemma guarded_thread_terminates_witness :
  exists w', invoke_in_thread GuardedSystemThread 7 (Raises None)
    (ThreadWorld ∅ {[5%nat := Paged]} {[7%nat := 5%nat]} []) = Throw w' (terminated NoexceptViolation).
Proof. apply (guarded_thread_terminates _ 7 5 None); [done|by eexists]. Defined.

Lemma stall_for_inverted_witness :
  stall_for (DurationType LongLong (Ratio 1 1000000)) 10 = Val None.
Proof. apply (stall_for_inverted 10). done. Defined.
