(* ===== verification/NodeTable.v ===== *)
(** * The node layout of the table (include/hash_table_impl.hpp)

    [unordered_node_map] and [unordered_node_set] keep a pointer in every slot of the
    table; the entry itself lies in a cell of the pool allocator, a base class of the
    table ([DataNode<M, false>]).  The table of pointers is the table of RobinHood; a slot
    [(k, (c, v))] stands for the pointer [c] to a cell with the entry [(k, v)].  The pool is
    the interface [cell_pool]; BulkPool implements it (NodePool).

    Memory of the table itself also comes from the pool's allocator of bytes, and goes to
    the pool when the table grows. *)
From Stdlib Require Import ZArith Lia.
From stdpp Require Import base list gmap numbers.
From S2P Require Import Prelude Hash RobinHood.
#[local] Open Scope Z_scope.

(** What a table calls of its base class [DataPool]. *)
Class cell_pool (P : Type) := {
  pool_allocate : M P Z;
  pool_deallocate : Z -> M P unit;
  pool_allocate_bytes : Z -> M P Z;
  pool_deallocate_bytes : Z -> Z -> M P unit;
  pool_addOrFree : Z -> Z -> M P unit;
}.

(** [pool_holds p X B]: the cells in [X] are in use, [B] are the blocks of bytes that are
    not part of the pool, with their sizes. *)
Class cell_pool_laws (P : Type) `{cell_pool P} := {
  pool_holds : P -> gset Z -> gmap Z Z -> Prop;
  pool_allocate_ok p X B : pool_holds p X B ->
    match pool_allocate p with
    | Ok p' c => c ∉ X /\ pool_holds p' ({[c]} ∪ X) B
    | Throw p' e => p' = p /\ e = bad_alloc
    | Fault | Diverge => False
    end;
  pool_deallocate_ok p X B c : pool_holds p X B -> c ∈ X ->
    exists p', pool_deallocate c p = Ok p' tt /\ pool_holds p' (X ∖ {[c]}) B;
  pool_allocate_bytes_ok p X B n : pool_holds p X B -> 0 < n < 2 ^ 64 ->
    match pool_allocate_bytes n p with
    | Ok p' a => B !! a = None /\ pool_holds p' X (<[a := n]> B)
    | Throw p' e => p' = p /\ e = bad_alloc
    | Fault | Diverge => False
    end;
  pool_deallocate_bytes_ok p X B a n k : pool_holds p X B -> B !! a = Some n ->
    exists p', pool_deallocate_bytes a k p = Ok p' tt /\ pool_holds p' X (delete a B);
  pool_addOrFree_ok p X B a n : pool_holds p X B -> B !! a = Some n ->
    exists p', pool_addOrFree a n p = Ok p' tt /\ pool_holds p' X (delete a B);
}.

(** A pointer with its entry. *)
Definition node (K V : Type) : Type := K * (Z * V).
Definition mData {K V} (n : node K V) : Z := n.2.1.

(** The table of pointers, the address of its block and the base class. *)
Record node_table (K V P : Type) := NodeTable {
  flat : Table K (Z * V);
  mKeyVals : Z;
  pool : P }.
Arguments NodeTable {K V P}.
Arguments flat {K V P}.
Arguments mKeyVals {K V P}.
Arguments pool {K V P}.

Section node_table.
Context {K V P : Type} `{EqDecision K} `{cell_pool P}.
Context (hasher : K -> Z) (default_hash : bool) (MaxLoadFactor100 sizeof_Node : Z).
Abbreviation NT := (node_table K V P).
Implicit Types w : NT.

Definition on_flat {A} (m : M (Table K (Z * V)) A) : M NT A := fun w =>
  match m (flat w) with
  | Ok t a => Ok (NodeTable t (mKeyVals w) (pool w)) a
  | Throw t e => Throw (NodeTable t (mKeyVals w) (pool w)) e
  | Fault => Fault
  | Diverge => Diverge
  end.

Definition on_pool {A} (m : M P A) : M NT A := fun w =>
  match m (pool w) with
  | Ok p a => Ok (NodeTable (flat w) (mKeyVals w) p) a
  | Throw p e => Throw (NodeTable (flat w) (mKeyVals w) p) e
  | Fault => Fault
  | Diverge => Diverge
  end.

Definition set_mKeyVals (a : Z) : M NT unit := modify (fun w => NodeTable (flat w) a (pool w)).

(** ** DataNode *)

(** [DataNode(M&, Args&&...)]; constructing the entry does not throw. *)
Definition new_node (kv : K * V) : M P (node K V) := c ← pool_allocate; mret (kv.1, (c, kv.2)).

(** [DataNode(M&, DataNode&&)]: the pointer is taken over. *)
Definition moved_node (n : node K V) : M P (node K V) := mret n.

Definition node_destroy (n : node K V) : M NT unit := on_pool (pool_deallocate (mData n)).

(** ** Memory of the table *)

Abbreviation withBuffer := (calcNumElementsWithBuffer MaxLoadFactor100).
Abbreviation bytesTotal := (calcNumBytesTotal sizeof_Node).

Definition try_bytes (n : Z) : M NT (option Z) := fun w =>
  match pool_allocate_bytes n (pool w) with
  | Ok p a => Ok (NodeTable (flat w) (mKeyVals w) p) (Some a)
  | Throw p _ => Ok (NodeTable (flat w) (mKeyVals w) p) None
  | Fault => Fault
  | Diverge => Diverge
  end.

(** [init_data] asks the pool for the block; the rest is the [init_data] of RobinHood for
    that answer. *)
Definition node_init_data (max_elements : Z) : M NT unit :=
  o ← try_bytes (bytesTotal (withBuffer max_elements));
  on_flat (init_data MaxLoadFactor100 sizeof_Node (fun _ => bool_decide (is_Some o)) max_elements);;
  match o with Some a => set_mKeyVals a | None => mret tt end.

Definition node_rehashPowerOfTwo (numBuckets : Z) : M NT unit :=
  w ← get;
  let old := mStore (flat w) in
  let oldKeyVals := mKeyVals w in
  let oldMaxElementsWithBuffer := withBuffer (u64 (mMask (flat w) + 1)) in
  node_init_data numBuckets;;
  if 1 <? oldMaxElementsWithBuffer then
    on_flat (reinsert hasher default_hash MaxLoadFactor100 old (Z.to_nat oldMaxElementsWithBuffer) 0);;
    match old with
    | Dummy => mret tt
    | Heap _ _ => on_pool (pool_addOrFree oldKeyVals (bytesTotal oldMaxElementsWithBuffer))
    end
  else mret tt.

Definition node_increase_size : M NT unit :=
  w ← get;
  let t := flat w in
  if mMask t =? 0 then node_init_data InitialNumElements
  else
    let maxNumElementsAllowed := calcMaxNumElementsAllowed MaxLoadFactor100 (u64 (mMask t + 1)) in
    r ← (if mNumElements t <? maxNumElementsAllowed
         then on_flat (try_increase_info MaxLoadFactor100) else mret false);
    if r : bool then mret tt
    else
      w ← get;
      let t := flat w in
      if u64 (mNumElements t * 2) <? calcMaxNumElementsAllowed MaxLoadFactor100 (u64 (mMask t + 1))
      then on_flat (throw overflow_error)
      else node_rehashPowerOfTwo (u64 (u64 (mMask t + 1) * 2)).

(** ** Insertion *)

(** The tail of [doInsert] and [doCreateByKey] up to the construction of the node: mark the
    table full when the info byte is about to overflow, find an empty spot, make room. *)
Definition make_room (insertion_info : Z) (insertion_idx : nat) : M (Table K (Z * V)) unit :=
  t ← get;
  (if 0xFF <? insertion_info + mInfoInc t then modify (set_max 0) else mret tt);;
  idx ← findEmpty (loop_fuel t) insertion_idx;
  if decide (idx = insertion_idx) then mret tt else shiftUp idx insertion_idx.

(** The node goes to its slot. *)
Definition fill_slot (n : node K V) (insertion_info : Z) (insertion_idx : nat)
    : M (Table K (Z * V)) nat :=
  write_node insertion_idx n;;
  write_info insertion_idx (u8 insertion_info);;
  modify (fun t => set_num (u64 (mNumElements t + 1)) t);;
  mret insertion_idx.

(** [make] constructs the node, from a new cell or from another node. *)
Definition node_place (make : M P (node K V)) (insertion_info : Z) (insertion_idx : nat) : M NT nat :=
  on_flat (make_room insertion_info insertion_idx);;
  n ← on_pool make;
  on_flat (fill_slot n insertion_info insertion_idx).

Fixpoint node_doInsertLoop (fuel : nat) (make : M P (node K V)) (key : K) : M NT (nat * bool) :=
  match fuel with
  | O => diverge
  | S fuel =>
      w ← get;
      let t := flat w in
      let '(info, idx) := keyToIdx hasher default_hash t key in
      '(info, idx) ← on_flat (nextWhileLess (loop_fuel t) info idx);
      r ← on_flat (matchLoop (loop_fuel t) key info idx);
      match r with
      | inl idx => mret (idx, false)
      | inr (info, idx) =>
          if mMaxNumElementsAllowed t <=? mNumElements t
          then node_increase_size;; node_doInsertLoop fuel make key
          else idx ← node_place make info idx; mret (idx, true)
      end
  end.

Definition node_doInsert (kv : K * V) : M NT (nat * bool) :=
  node_doInsertLoop insert_rounds (new_node kv) kv.1.

Definition node_doCreateByKey (value_default : V) (key : K) : M NT nat :=
  '(idx, _) ← node_doInsertLoop insert_rounds (new_node (key, value_default)) key;
  on_flat (read_node idx);; mret idx.

(** The node is constructed first, and destroyed when the key is there already. *)
Definition node_emplace (kv : K * V) : M NT (nat * bool) :=
  n ← on_pool (new_node kv);
  r ← node_doInsertLoop insert_rounds (moved_node n) kv.1;
  if r.2 : bool then mret r else node_destroy n;; mret r.

Definition node_try_emplace (kv : K * V) : M NT (nat * bool) :=
  idx ← on_flat (findIdx hasher default_hash kv.1); w ← get;
  if decide (idx = end_idx (flat w)) then node_emplace kv else mret (idx, false).

Definition node_insert_or_assign (kv : K * V) : M NT (nat * bool) :=
  idx ← on_flat (findIdx hasher default_hash kv.1); w ← get;
  if decide (idx = end_idx (flat w)) then node_emplace kv
  else
    old ← on_flat (read_node idx);
    on_flat (write_node idx (old.1, (mData old, kv.2)));; mret (idx, false).

(** ** Erasure *)

Definition node_shiftDown (idx : nat) : M NT unit :=
  n ← on_flat (read_node idx); node_destroy n;; on_flat (shiftDown idx).

Fixpoint node_eraseLoop (fuel : nat) (key : K) (info : Z) (idx : nat) : M NT Z :=
  match fuel with
  | O => diverge
  | S fuel =>
      w ← get;
      hit ← on_flat (probe key info idx);
      if hit : bool then
        node_shiftDown idx;;
        on_flat (modify (fun t => set_num (u64 (mNumElements t - 1)) t));; mret 1
      else
        let '(info, idx) := next (flat w) info idx in
        b ← on_flat (read_info idx);
        if info <=? b then node_eraseLoop fuel key info idx else mret 0
  end.

Definition node_erase (key : K) : M NT Z :=
  w ← get;
  let '(info, idx) := keyToIdx hasher default_hash (flat w) key in
  node_eraseLoop (loop_fuel (flat w)) key info idx.

(** ** The table as a whole *)

(** [Destroyer::nodes]: the cells go back to the pool. *)
Fixpoint node_destroyLoop (n : nat) (idx : nat) : M NT unit :=
  match n with
  | O => mret tt
  | S n =>
      b ← on_flat (read_info idx);
      (if 0 =? b then mret tt
       else nd ← on_flat (read_node idx); node_destroy nd;; on_flat (kill_node idx));;
      node_destroyLoop n (S idx)
  end.

Definition node_destroy_nodes : M NT unit :=
  on_flat (modify (set_num 0));;
  w ← get; node_destroyLoop (Z.to_nat (withBuffer (u64 (mMask (flat w) + 1)))) 0.

Definition node_clear : M NT unit :=
  w ← get;
  if mNumElements (flat w) =? 0 then mret tt
  else
    node_destroy_nodes;;
    let W := withBuffer (u64 (mMask (flat w) + 1)) in
    on_flat (zero_info (Z.to_nat (calcNumBytesInfo W));;
             write_info (Z.to_nat W) 1;;
             modify (set_inc InitialInfoInc InitialInfoHashShift)).

(** [destroy]: the entries are destroyed and their cells left to the pool. *)
Definition node_destroy_table : M NT unit :=
  w ← get;
  if mMask (flat w) =? 0 then mret tt
  else
    on_flat (destroy_nodes MaxLoadFactor100);;
    w ← get;
    on_pool (pool_deallocate_bytes (mKeyVals w) (u64 (mNumElements (flat w) * sizeof_Node)));;
    on_flat free_block.

Definition node_reserve_rehash (c : Z) (forceRehash : bool) : M NT unit :=
  w ← get;
  match reserveSize MaxLoadFactor100 64 InitialNumElements (Z.max c (mNumElements (flat w))) with
  | None => diverge
  | Some newSize =>
      if newSize =? 0 then on_flat (throw overflow_error)
      else if forceRehash || (u64 (mMask (flat w) + 1) <? newSize)
      then node_rehashPowerOfTwo newSize else mret tt
  end.
End node_table.
