(* ===== verification/NodeTableOps.v ===== *)
(** * The pool below the node layout

    [node_inv X w]: the table of pointers is valid, its entries lie in different cells, the
    cells in [X] are in use, and the block of the table is the only one outside of the
    pool. *)
From Stdlib Require Import ZArith Lia.
From stdpp Require Import base list gmap numbers fin_map_dom sets fin_maps.
From S2P Require Import Prelude Hash RobinHood RobinHoodLayout RobinHoodInv.
From S2P Require Import RobinHoodMap NodeTable RobinHoodOps RobinHoodSpec.
#[local] Open Scope Z_scope.

(** ** The cells of a map *)

Section cells.
Context {K V : Type} `{Countable K}.
Implicit Types m : gmap K (Z * V).

Definition cells m : gset Z := map_to_set (fun _ x => x.1) m.

(** Different keys have different cells. *)
Definition distinct m : Prop :=
  forall k k' x x', m !! k = Some x -> m !! k' = Some x' -> x.1 = x'.1 -> k = k'.

(** The entries without their addresses. *)
Definition values m : gmap K V := snd <$> m.

Lemma elem_of_map_cells m c : c ∈ cells m <-> exists k v, m !! k = Some (c, v).
Proof.
  unfold cells. rewrite elem_of_map_to_set. split.
  - intros (k & [c' v] & Hk & <-). eauto.
  - intros (k & v & Hk). by exists k, (c, v).
Qed.

Lemma cells_empty : cells ∅ = ∅.
Proof. apply set_eq. intros c. rewrite elem_of_map_cells, elem_of_empty. split; [|done].
  intros (k & v & Hk). by rewrite lookup_empty in Hk. Qed.

Lemma cells_insert m k c v : m !! k = None -> cells (<[k := (c, v)]> m) = {[c]} ∪ cells m.
Proof.
  intros Hk. apply set_eq. intros c'. rewrite elem_of_union, elem_of_singleton, !elem_of_map_cells.
  split.
  - intros (k' & v' & [[<- [= <- <-]]|[_ Hk']]%lookup_insert_Some); eauto.
  - intros [->|(k' & v' & Hk')].
    + exists k, v. apply lookup_insert_eq.
    + exists k', v'. rewrite lookup_insert_ne; [done|congruence].
Qed.

Lemma cells_assign m k c v v' : m !! k = Some (c, v) -> cells (<[k := (c, v')]> m) = cells m.
Proof.
  intros Hk. apply set_eq. intros c'. rewrite !elem_of_map_cells. split.
  - intros (k' & w & [[<- [= <- <-]]|[_ Hk']]%lookup_insert_Some); eauto.
  - intros (k' & w & Hk'). destruct (decide (k' = k)) as [->|].
    + simplify_eq. exists k, v'. apply lookup_insert_eq.
    + exists k', w. by rewrite lookup_insert_ne.
Qed.

Lemma cells_delete m k c v : distinct m -> m !! k = Some (c, v) -> cells (delete k m) = cells m ∖ {[c]}.
Proof.
  intros Hd Hk. apply set_eq. intros c'.
  rewrite elem_of_difference, elem_of_singleton, !elem_of_map_cells. split.
  - intros (k' & w & [Hne Hk']%lookup_delete_Some). split; [eauto|]. intros ->.
    by apply Hne, (Hd k k' _ _ Hk Hk').
  - intros [(k' & w & Hk') Hne]. exists k', w. rewrite lookup_delete_ne; [done|]. congruence.
Qed.

Lemma distinct_insert m k c v :
  distinct m -> c ∉ cells m -> distinct (<[k := (c, v)]> m).
Proof.
  intros Hd Hc k1 k2 x1 x2 [[<- <-]|[_ H1]]%lookup_insert_Some [[<- <-]|[_ H2]]%lookup_insert_Some E;
    cbn in E; subst; try done.
  - destruct Hc. apply elem_of_map_cells. destruct x2. eauto.
  - destruct Hc. apply elem_of_map_cells. destruct x1. eauto.
  - eauto.
Qed.

Lemma distinct_assign m k c v v' :
  distinct m -> m !! k = Some (c, v) -> distinct (<[k := (c, v')]> m).
Proof.
  intros Hd Hk k1 k2 x1 x2 [[<- <-]|[_ H1]]%lookup_insert_Some [[<- <-]|[_ H2]]%lookup_insert_Some E;
    cbn in E; subst; try done; eauto.
Qed.

Lemma distinct_delete m k : distinct m -> distinct (delete k m).
Proof. intros Hd k1 k2 x1 x2 [_ H1]%lookup_delete_Some [_ H2]%lookup_delete_Some. eauto. Qed.
End cells.

(** ** The invariant *)

Section inv.
Context {K V P : Type} `{Countable K} `{cell_pool_laws P}.
Context (hasher : K -> Z) (dh : bool) (MaxLoadFactor100 sizeof_Node : Z).
Context (load_factor : 10 < MaxLoadFactor100 < 100) (node_size : 0 < sizeof_Node <= 2 ^ 16).
Abbreviation NT := (node_table K V P).
Implicit Types (w : NT) (X : gset Z) (B : gmap Z Z).

Abbreviation heap_inv := (heap_inv hasher dh MaxLoadFactor100).
Abbreviation Inv := (Inv hasher dh MaxLoadFactor100).
Abbreviation cap := (cap MaxLoadFactor100).
Abbreviation withBuffer := (calcNumElementsWithBuffer MaxLoadFactor100).
Abbreviation bytesTotal := (calcNumBytesTotal sizeof_Node).
Abbreviation fresh_table := (fresh_table MaxLoadFactor100).
Abbreviation node_init_data := (node_init_data MaxLoadFactor100 sizeof_Node).
Abbreviation node_rehash := (node_rehashPowerOfTwo hasher dh MaxLoadFactor100 sizeof_Node).

(** The block of the table. *)
Definition own w : gmap Z Z :=
  match mStore (flat w) with
  | Dummy => ∅
  | Heap _ _ => {[mKeyVals w := bytesTotal (withBuffer (u64 (mMask (flat w) + 1)))]}
  end.

Record node_inv X w : Prop := {
  ni_flat : Inv (flat w);
  ni_pool : pool_holds (pool w) X (own w);
  ni_distinct : distinct (table_map (flat w)) }.

Lemma own_heap w n : heap_inv (flat w) n -> own w = {[mKeyVals w := bytesTotal (withBuffer (2 ^ n))]}.
Proof.
  intros I. unfold own. destruct (hi_store _ _ _ _ _ I) as (nd & info & ->).
  by rewrite (hi_mask_succ _ _ _ _ n I).
Qed.

Lemma bytes_bound n : 3 <= n <= 46 -> 0 < bytesTotal (withBuffer (2 ^ n)) < 2 ^ 64.
Proof.
  intros Hn. rewrite (bytesTotal_eq _ load_factor _ node_size n) by lia.
  destruct (width_eq _ load_factor n ltac:(lia)) as [-> _].
  pose proof (cap_bounds _ load_factor n ltac:(lia)). pose proof (pow2_bounds n ltac:(lia)). nia.
Qed.

(** ** Memory of the table *)

Lemma node_init_data_ok w n X B :
  3 <= n <= 46 -> pool_holds (pool w) X B ->
  post (node_init_data (2 ^ n) w) (fun w' _ => flat w' = fresh_table n /\ B !! mKeyVals w' = None /\
    pool_holds (pool w') X (<[mKeyVals w' := bytesTotal (withBuffer (2 ^ n))]> B)).
Proof.
  intros Hn Hp. unfold node_init_data.
  pose proof (pool_allocate_bytes_ok _ _ _ _ Hp (bytes_bound n Hn)) as Ha.
  unfold try_bytes. unfold mbind at 1, M_bind at 1.
  destruct (pool_allocate_bytes _ (pool w)) as [p a|p e| |]; try done; unfold on_flat, mbind, M_bind; cbn;
    rewrite (init_data_spec _ load_factor _ node_size) by done; cbn; done.
Qed.

(** What a part of the table does when all allocations succeed. *)
Lemma on_flat_post {A} (m : M (Table K (Z * V)) A) w Q :
  post (m (flat w)) Q ->
  post (on_flat m w) (fun w' a => Q (flat w') a /\ pool w' = pool w /\ mKeyVals w' = mKeyVals w).
Proof. unfold on_flat. by destruct (m (flat w)). Qed.

Lemma on_flat_Ok {A} (m : M (Table K (Z * V)) A) w t a :
  m (flat w) = Ok t a -> on_flat m w = Ok (NodeTable t (mKeyVals w) (pool w)) a.
Proof. unfold on_flat. by intros ->. Qed.

Lemma on_flat_same {A} (m : M (Table K (Z * V)) A) w a :
  m (flat w) = Ok (flat w) a -> on_flat m w = Ok w a.
Proof. unfold on_flat. intros ->. by destruct w. Qed.

Lemma on_pool_Ok {A} (m : M P A) w p a :
  m (pool w) = Ok p a -> on_pool m w = Ok (NodeTable (flat w) (mKeyVals w) p) a.
Proof. unfold on_pool. by intros ->. Qed.

(** Rehashing keeps the entries in their cells and gives the old block to the pool. *)
Lemma node_rehash_heap w n n' X :
  heap_inv (flat w) n -> pool_holds (pool w) X (own w) ->
  3 <= n' <= 46 -> mNumElements (flat w) <= cap n' ->
  post (node_rehash (2 ^ n') w) (fun w' _ => heap_inv (flat w') n' /\
    table_map (flat w') = table_map (flat w) /\ pool_holds (pool w') X (own w')).
Proof.
  intros I Hp Hn' Hcap.
  pose proof (rehash_heap_spec hasher dh _ load_factor _ node_size (fun _ => true) _ _ _ I Hn' Hcap) as Hf.
  destruct (hi_store _ _ _ _ _ I) as (nd & info & Hst). rewrite (own_heap _ _ I) in Hp.
  unfold node_rehashPowerOfTwo, rehashPowerOfTwo in *. unfold mbind at 1, M_bind at 1, get in Hf.
  unfold mbind at 1, M_bind at 1, get.
  rewrite (hi_mask_succ _ _ _ _ n I), Hst in *.
  unfold mbind at 1, M_bind at 1 in Hf.
  rewrite (init_data_spec _ load_factor _ node_size) in Hf by done. cbn [bool_decide] in Hf.
  eapply post_bind; [by apply node_init_data_ok|]. intros w1 _ (E1 & Hb & Hp1).
  pose proof (hi_n _ _ _ _ _ I). destruct (width_eq _ load_factor n ltac:(lia)) as [HW HWn].
  pose proof (width_ge _ load_factor n ltac:(lia)).
  destruct (Z.ltb_spec 1 (withBuffer (2 ^ n))); [|lia]. rewrite <- E1 in Hf.
  eapply post_bind; [by apply on_flat_post|]. intros w2 [] ([I2 Hm] & Ep & Ek).
  rewrite <- Ep, <- Ek in Hp1. apply lookup_singleton_None in Hb. rewrite <- Ek in Hb.
  destruct (pool_addOrFree_ok _ _ _ (mKeyVals w) (bytesTotal (withBuffer (2 ^ n))) Hp1) as (p & Hrun & Hp2).
  { rewrite lookup_insert_ne, lookup_singleton_eq by congruence. done. }
  rewrite (on_pool_Ok _ _ _ _ Hrun). cbn. split_and!; [done|done|].
  rewrite (own_heap (NodeTable (flat w2) (mKeyVals w2) p) n' I2).
  rewrite delete_insert_ne, delete_singleton_eq in Hp2 by congruence. done.
Qed.

Lemma node_rehash_init w n' X :
  flat w = init -> pool_holds (pool w) X ∅ -> 3 <= n' <= 46 ->
  post (node_rehash (2 ^ n') w) (fun w' _ => heap_inv (flat w') n' /\
    table_map (flat w') = ∅ /\ pool_holds (pool w') X (own w')).
Proof.
  intros E Hp Hn'. unfold node_rehashPowerOfTwo. unfold mbind at 1, M_bind at 1, get. rewrite E.
  eapply post_bind; [by apply node_init_data_ok|]. intros w1 _ (E1 & _ & Hp1).
  change (u64 (mMask (@init K (Z * V)) + 1)) with (2 ^ 0).
  destruct (width_eq _ load_factor 0 ltac:(lia)) as [HW _].
  pose proof (cap_bounds _ load_factor 0 ltac:(lia)).
  destruct (Z.ltb_spec 1 (withBuffer (2 ^ 0))); [lia|]. cbn. rewrite E1.
  destruct (fresh_inv (K:=K) (V:=Z * V) hasher dh _ load_factor n' Hn') as [If Hf].
  split; [done|]. split; [done|]. rewrite (own_heap w1 n') by (by rewrite E1). done.
Qed.
End inv.

(** * Operations on the node layout

    Each operation has the effect of the operation of RobinHood on the table of pointers,
    takes a cell for every new entry and returns the cell of every erased one. *)

Section ops.
Context {K V P : Type} `{Countable K} `{cell_pool_laws P}.
Context (hasher : K -> Z) (dh : bool) (MaxLoadFactor100 sizeof_Node : Z).
Context (load_factor : 10 < MaxLoadFactor100 < 100) (node_size : 0 < sizeof_Node <= 2 ^ 16).
Abbreviation NT := (node_table K V P).
Implicit Types (w : NT) (X : gset Z) (B : gmap Z Z).

Abbreviation heap_inv := (heap_inv hasher dh MaxLoadFactor100).
Abbreviation Inv := (Inv hasher dh MaxLoadFactor100).
Abbreviation cap := (cap MaxLoadFactor100).
Abbreviation withBuffer := (calcNumElementsWithBuffer MaxLoadFactor100).
Abbreviation own := (own MaxLoadFactor100 sizeof_Node).
Abbreviation node_inv := (node_inv hasher dh MaxLoadFactor100 sizeof_Node).
Abbreviation node_increase_size := (node_increase_size hasher dh MaxLoadFactor100 sizeof_Node).
Abbreviation node_rehash := (node_rehashPowerOfTwo hasher dh MaxLoadFactor100 sizeof_Node).
Abbreviation level := (level hasher dh MaxLoadFactor100).
Abbreviation map_of w := (table_map (flat w)).

(** ** Growth *)

Lemma increase_size_heap w n X :
  heap_inv (flat w) n -> mNumElements (flat w) < 2 ^ 40 -> pool_holds (pool w) X (own w) ->
  post (node_increase_size w) (fun w' _ =>
    grown hasher dh MaxLoadFactor100 (flat w) n (flat w') /\ pool_holds (pool w') X (own w')).
Proof.
  intros I Hnum Hp. pose proof (hi_n _ _ _ _ _ I) as Hn.
  assert (2 ^ 3 <= 2 ^ n) by (apply Z.pow_le_mono_r; lia).
  pose proof (cap_bounds _ load_factor n ltac:(lia)). pose proof (pow2_bounds n ltac:(lia)).
  assert (0 <= mNumElements (flat w)) by (rewrite (hi_num _ _ _ _ _ I); lia).
  unfold node_increase_size. unfold mbind at 1, M_bind at 1, get.
  destruct (Z.eqb_spec (mMask (flat w)) 0); [rewrite (hi_mask _ _ _ _ _ I) in *; lia|].
  rewrite (hi_mask_succ _ _ _ _ n I). fold (cap n).
  match goal with |- post ((?r ≫= ?k) w) ?Q =>
    assert (post (k false w) Q) as Hrehash end.
  { cbv beta iota. unfold mbind at 1, M_bind at 1. rewrite (hi_mask_succ _ _ _ _ n I). fold (cap n).
    rewrite (wrap_small 64 (mNumElements (flat w) * 2)) by lia.
    destruct (Z.ltb_spec (mNumElements (flat w) * 2) (cap n)); [done|].
    rewrite (wrap_small 64) by lia. replace (2 ^ n * 2) with (2 ^ (n + 1)) by (rewrite Z.pow_add_r; lia).
    assert (n < 45) by (apply (Z.pow_lt_mono_r_iff 2); lia).
    pose proof (cap_double _ load_factor n ltac:(lia)). pose proof (hi_cap _ _ _ _ _ I).
    eapply post_mono; [apply (node_rehash_heap hasher dh _ _ load_factor node_size w n (n + 1) X I Hp); lia|].
    intros w' _ (I' & Hm & Hp'). split; [|done]. split; [done|]. right. split; [done|lia]. }
  destruct (Z.ltb_spec (mNumElements (flat w)) (cap n)) as [Hlt|]; [|done].
  destruct (Z.le_gt_cases (mInfoInc (flat w)) 2).
  - unfold mbind at 1, M_bind at 1.
    rewrite (on_flat_Ok _ _ _ _ (try_increase_info_no MaxLoadFactor100 (flat w) ltac:(done))).
    by destruct w.
  - destruct (try_increase_info_spec hasher dh _ (flat w) n I ltac:(lia))
      as (t1 & Ht1 & I1 & Hmax1 & Hmap1 & Hnum1).
    unfold mbind at 1, M_bind at 1. rewrite (on_flat_Ok _ _ _ _ Ht1). cbn.
    rewrite (own_heap hasher dh _ _ w n I) in Hp.
    rewrite (own_heap hasher dh _ _ (NodeTable t1 (mKeyVals w) (pool w)) n I1).
    split; [|done]. split; auto 10.
Qed.

Lemma node_level_step l w X :
  level (S l) (flat w) -> mMaxNumElementsAllowed (flat w) <= mNumElements (flat w) ->
  pool_holds (pool w) X (own w) ->
  post (node_increase_size w) (fun w' _ => map_of w' = map_of w /\ level l (flat w') /\
    pool_holds (pool w') X (own w')).
Proof.
  intros Hl Hfull Hp. destruct (level_grown hasher dh _ load_factor l _ Hl Hfull) as (n & I & Hnum & Hg).
  eapply post_mono; [by apply (increase_size_heap w n X)|]. intros w' _ [Hgrown Hp'].
  split; [apply Hgrown|]. split; [by apply Hg|done].
Qed.
(** ** Insertion *)

Lemma place_split (n : node K V) info idx t :
  place n info idx t = (make_room info idx;; fill_slot n info idx) t.
Proof.
  unfold place, make_room, fill_slot. unfold mbind, M_bind, get.
  destruct (_ <? _); cbn -[findEmpty loop_fuel];
    match goal with |- context [findEmpty ?a ?b ?c] => destruct (findEmpty a b c) as [t1 i|t1 e| |] end;
    try done; destruct (decide (i = idx)); try done; by destruct (shiftUp i idx t1).
Qed.

(** [make] yields a node with the entry [(k, v)] in a cell outside of [C]; the cells in
    use are [X] before and those of [C] and the new one afterwards. *)
Definition constructs (make : M P (node K V)) (k : K) (v : V) (X C : gset Z) : Prop :=
  forall p B, pool_holds p X B ->
  match make p with
  | Ok p' n => n = (k, (mData n, v)) /\ mData n ∉ C /\ pool_holds p' ({[mData n]} ∪ C) B
  | Throw _ _ => True
  | Fault | Diverge => False
  end.

Lemma new_node_constructs k v C : constructs (new_node (k, v)) k v C C.
Proof.
  intros p B Hp. unfold new_node, mbind, M_bind. pose proof (pool_allocate_ok _ _ _ Hp) as Ha.
  by destruct (pool_allocate p).
Qed.

Lemma moved_node_constructs k v c C : c ∉ C -> constructs (moved_node (k, (c, v))) k v ({[c]} ∪ C) C.
Proof. by intros Hc p B Hp. Qed.

Abbreviation homet t := (home hasher dh (mMask t)).
Abbreviation expt t := (expected hasher dh (mMask t) (mInfoInc t) (mInfoHashShift t)).

Lemma node_place_post make w n k v p X :
  heap_inv (flat w) n -> mMaxNumElementsAllowed (flat w) <> 0 -> mNumElements (flat w) < cap n ->
  (homet (flat w) k <= p <= width MaxLoadFactor100 n)%nat ->
  (forall i, (homet (flat w) k <= i < p)%nat -> expt (flat w) k i <= F (flat w) i) ->
  F (flat w) p < expt (flat w) k p -> (forall m x, G (flat w) m <> Some (k, x)) ->
  constructs make k v X (cells (map_of w)) -> pool_holds (pool w) X (own w) ->
  post (node_place make (expt (flat w) k p) p w) (fun w' i => i = p /\ heap_inv (flat w') n /\
    exists c, c ∉ cells (map_of w) /\ map_of w' = <[k := (c, v)]> (map_of w) /\
      G (flat w') p = Some (k, (c, v)) /\ pool_holds (pool w') ({[c]} ∪ cells (map_of w)) (own w')).
Proof.
  intros I Hmax Hnum Hp Hb Hlt Hnew Hmake Hpool.
  assert (forall x, exists t', (make_room (expt (flat w) k p) p;; fill_slot (k, x) (expt (flat w) k p) p) (flat w) = Ok t' p /\
    heap_inv t' n /\ table_map t' = <[k := x]> (map_of w) /\ G t' p = Some (k, x)) as Hplace.
  { intros x. destruct (place_spec hasher dh _ load_factor (flat w) n k x p) as (_ & t' & Hrun & Hr); auto.
    exists t'. by rewrite <- place_split. }
  unfold node_place. specialize (Hmake _ _ Hpool).
  destruct (make_room (expt (flat w) k p) p (flat w)) as [t1 []|t1 e| |] eqn:Hroom.
  2-4: destruct (Hplace (0, v)) as (t' & Hrun & _); unfold mbind, M_bind in Hrun; by rewrite Hroom in Hrun.
  unfold mbind at 1, M_bind at 1. rewrite (on_flat_Ok _ _ _ _ Hroom). unfold on_pool, mbind, M_bind. cbn.
  destruct (make (pool w)) as [p' nd|p' e| |]; try done. destruct Hmake as (-> & Hc & Hp').
  destruct (Hplace (mData nd, v)) as (t' & Hrun & I' & Hm & Hg).
  unfold mbind, M_bind in Hrun. rewrite Hroom in Hrun.
  rewrite (on_flat_Ok _ (NodeTable t1 (mKeyVals w) p') _ _ Hrun). cbn.
  split; [done|]. split; [done|]. exists (mData nd). split_and!; auto.
  rewrite (own_heap hasher dh _ _ w n I) in Hp'.
  by rewrite (own_heap hasher dh _ _ (NodeTable t' (mKeyVals w) p') n I').
Qed.
(** The result of inserting [k] with the value [v]: the entry, the cells and the blocks. *)
Definition node_inserted (X : gset Z) w (k : K) (v : V) w' (r : nat * bool) : Prop :=
  Inv (flat w') /\
  match map_of w !! k with
  | Some x => r.2 = false /\ map_of w' = map_of w /\ G (flat w') r.1 = Some (k, x) /\
      pool_holds (pool w') X (own w')
  | None => r.2 = true /\ exists c, c ∉ cells (map_of w) /\ map_of w' = <[k := (c, v)]> (map_of w) /\
      G (flat w') r.1 = Some (k, (c, v)) /\ pool_holds (pool w') ({[c]} ∪ cells (map_of w)) (own w')
  end.

Abbreviation node_loop := (node_doInsertLoop hasher dh MaxLoadFactor100 sizeof_Node).

Lemma node_round fuel make w W k :
  probe_inv hasher dh (flat w) W ->
  (exists j x, G (flat w) j = Some (k, x) /\ node_loop (S fuel) make k w = Ok w (j, false)) \/
  (exists p, (forall m x, G (flat w) m <> Some (k, x)) /\ (homet (flat w) k <= p <= W)%nat /\
    F (flat w) p < expt (flat w) k p /\
    (forall m, (homet (flat w) k <= m < p)%nat -> expt (flat w) k m <= F (flat w) m) /\
    node_loop (S fuel) make k w =
    (if mMaxNumElementsAllowed (flat w) <=? mNumElements (flat w)
     then node_increase_size;; node_loop fuel make k
     else idx ← node_place make (expt (flat w) k p) p; mret (idx, true)) w).
Proof.
  intros P'. destruct (search_spec hasher dh (flat w) _ P' (loop_fuel (flat w)) k)
    as (info & idx & Hs & [(j & x & Hm & Hg)|(p & Hm & Hr & Hlt & Hb & Hno)]).
  { unfold loop_fuel. rewrite (pi_info _ _ _ _ P'). lia. }
  - left. exists j, x. split; [done|]. cbn [node_doInsertLoop]. unfold mbind at 1, M_bind at 1, get.
    rewrite (keyToIdx_spec hasher dh (flat w) _ P').
    unfold mbind at 1, M_bind at 1. rewrite (on_flat_same _ _ _ Hs).
    unfold mbind at 1, M_bind at 1. by rewrite (on_flat_same _ _ _ Hm).
  - right. exists p. split_and!; auto; try lia. cbn [node_doInsertLoop]. unfold mbind at 1, M_bind at 1, get.
    rewrite (keyToIdx_spec hasher dh (flat w) _ P').
    unfold mbind at 1, M_bind at 1. rewrite (on_flat_same _ _ _ Hs).
    unfold mbind at 1, M_bind at 1. by rewrite (on_flat_same _ _ _ Hm).
Qed.

Lemma node_insert_now fuel make w n k v X :
  heap_inv (flat w) n -> constructs make k v X (cells (map_of w)) -> pool_holds (pool w) X (own w) ->
  post (node_loop (S fuel) make k w) (node_inserted X w k v) \/
  (mMaxNumElementsAllowed (flat w) <= mNumElements (flat w) /\
   node_loop (S fuel) make k w = (node_increase_size;; node_loop fuel make k) w).
Proof.
  intros I Hmake Hpool. pose proof (hi_probe _ _ _ _ _ I) as P'.
  destruct (node_round fuel make w _ k P') as [(j & x & Hg & ->)|(p & Hno & Hp & Hlt & Hb & ->)].
  - left. split; [right; eauto|].
    assert (map_of w !! k = Some x) as -> by (eapply table_map_lookup; eauto). done.
  - assert (map_of w !! k = None) as Hnone by (by apply (table_map_None hasher dh _ _ k P')).
    destruct (Z.leb_spec (mMaxNumElementsAllowed (flat w)) (mNumElements (flat w))) as [|Hroom]; [by right|left].
    assert (0 <= mNumElements (flat w)) by (rewrite (hi_num _ _ _ _ _ I); lia).
    assert (mMaxNumElementsAllowed (flat w) = cap n) by (destruct (hi_max _ _ _ _ _ I) as [|[? _]]; lia).
    eapply post_bind; [apply (node_place_post make w n k v p X); auto; lia|].
    intros w' i (-> & I' & Hc). split; [right; eauto|]. by rewrite Hnone.
Qed.

Lemma node_insert_level l make w k v X :
  level l (flat w) -> constructs make k v X (cells (map_of w)) -> pool_holds (pool w) X (own w) ->
  post (node_loop (S l) make k w) (node_inserted X w k v).
Proof.
  revert w. induction l as [|l IH]; intros w Hlev Hmake Hpool; pose proof Hlev as (n & I & Hnum & Hl).
  - destruct (node_insert_now 0 make w n k v X I Hmake Hpool) as [?|(Hfull & _)]; [done|lia].
  - destruct (node_insert_now (S l) make w n k v X I Hmake Hpool) as [?|(Hfull & ->)]; [done|].
    eapply post_bind; [by apply (node_level_step l w)|]. intros w' _ (Hm & Hlev' & Hpool').
    unfold node_inserted. rewrite <- Hm in *. by apply IH.
Qed.

Lemma node_insert_post make w k v X :
  Inv (flat w) -> mNumElements (flat w) < 2 ^ 40 ->
  constructs make k v X (cells (map_of w)) -> pool_holds (pool w) X (own w) ->
  post (node_loop insert_rounds make k w) (node_inserted X w k v).
Proof.
  intros [E|[n I]] Hnum Hmake Hpool; unfold insert_rounds.
  - pose proof (init_probe (K:=K) (V:=Z * V) hasher dh) as P'. rewrite <- E in P'.
    destruct (node_round 4 make w 0 k P') as [(j & x & Hg & _)|(p & _ & _ & _ & _ & ->)].
    { apply nb_lt in Hg. rewrite E in Hg. simpl in Hg. lia. }
    assert ((mMaxNumElementsAllowed (flat w) <=? mNumElements (flat w)) = true) as -> by (by rewrite E). destruct (fresh_inv (V:=Z * V) hasher dh _ load_factor 3 ltac:(lia)) as [If Hf].
    assert (own w = ∅) as Hown by (unfold NodeTableOps.own; by rewrite E). rewrite Hown in Hpool.
    assert (map_of w = ∅) as Hempty by (by rewrite E).
    eapply (post_bind _ _ _ _ (fun w' _ => map_of w' = map_of w /\ level 3 (flat w') /\
      pool_holds (pool w') X (own w'))).
    + unfold node_increase_size. unfold mbind at 1, M_bind at 1, get.
      assert ((mMask (flat w) =? 0) = true) as -> by (by rewrite E).
      change InitialNumElements with (2 ^ 3).
      eapply post_mono; [by apply (node_init_data_ok _ _ load_factor node_size)|].
      intros w' _ (E' & _ & Hp'). rewrite E'. split; [by rewrite Hf, Hempty|]. split; [exists 3; split_and!; auto; done|].
      rewrite (own_heap hasher dh _ _ w' 3) by (rewrite E'; exact If). done.
    + intros w' _ (Hm & Hlev & Hp'). unfold node_inserted. rewrite <- Hm in *. by apply node_insert_level.
  - destruct (node_insert_now 4 make w n k v X I Hmake Hpool) as [?|(Hfull & ->)]; [done|].
    eapply post_bind; [apply (node_level_step 3 w X); [exists n; auto|done..]|].
    intros w' _ (Hm & Hlev' & Hp'). unfold node_inserted. rewrite <- Hm in *. by apply node_insert_level.
Qed.
(** The cells in use are those of the entries. *)
Definition node_ok w : Prop := node_inv (cells (map_of w)) w.

Lemma values_lookup (m : gmap K (Z * V)) k : values m !! k = snd <$> m !! k.
Proof. apply lookup_fmap. Qed.

Lemma values_None (m : gmap K (Z * V)) k : values m !! k = None <-> m !! k = None.
Proof. rewrite values_lookup. by destruct (m !! k). Qed.

(** What an insertion does to the entries. *)
Definition entry_inserted w (k : K) (v : V) w' (r : nat * bool) : Prop :=
  node_ok w' /\ r.2 = bool_decide (values (map_of w) !! k = None) /\
  values (map_of w') = <[k := default v (values (map_of w) !! k)]> (values (map_of w)) /\
  exists c, G (flat w') r.1 = Some (k, (c, default v (values (map_of w) !! k))).

Lemma inserted_entry w k v w' r :
  distinct (map_of w) -> node_inserted (cells (map_of w)) w k v w' r -> entry_inserted w k v w' r.
Proof.
  intros Hd [I Hr]. unfold entry_inserted. rewrite values_lookup.
  destruct (map_of w !! k) as [[c v0]|] eqn:E; cbn [fmap option_fmap option_map default snd].
  - destruct Hr as (Hb & Hm & Hg & Hp). split_and!; [split; by rewrite ?Hm|done| |by exists c].
    rewrite Hm, insert_id; [done|]. by rewrite values_lookup, E.
  - destruct Hr as (Hb & c & Hc & Hm & Hg & Hp). split_and!; [|done| |by exists c].
    + split; [done| |]; rewrite Hm; [by rewrite cells_insert|by apply distinct_insert].
    + rewrite Hm. unfold values. by rewrite fmap_insert.
Qed.

Lemma node_num w : node_ok w -> mNumElements (flat w) = Z.of_nat (size (map_of w)).
Proof. intros [I _ _]. by apply (Inv_probe hasher dh _ _ I). Qed.

Lemma node_doInsert_post w k v :
  node_ok w -> mNumElements (flat w) < 2 ^ 40 ->
  post (node_doInsert hasher dh MaxLoadFactor100 sizeof_Node (k, v) w) (entry_inserted w k v).
Proof.
  intros [I Hp Hd] Hn. unfold node_doInsert.
  eapply post_mono; [apply (node_insert_post _ w k v (cells (map_of w)));
    [done|done|apply new_node_constructs|done]|].
  intros w' r Hr. by apply inserted_entry.
Qed.

Lemma read_slot_node w j kx : G (flat w) j = Some kx -> on_flat (read_node j) w = Ok w kx.
Proof. intros Hg. apply on_flat_same. by apply read_slot. Qed.

Lemma node_doCreateByKey_post w k d :
  node_ok w -> mNumElements (flat w) < 2 ^ 40 ->
  post (node_doCreateByKey hasher dh MaxLoadFactor100 sizeof_Node d k w) (fun w' idx =>
    exists b, entry_inserted w k d w' (idx, b)).
Proof.
  intros I Hn. unfold node_doCreateByKey. eapply post_bind; [by apply node_doInsert_post|].
  intros w' [idx b] Hr. pose proof Hr as (_ & _ & _ & c & Hg). cbn in Hg.
  unfold mbind, M_bind. rewrite (read_slot_node _ _ _ Hg). cbn. eauto.
Qed.

(** [emplace] gives the cell back when the key is there. *)
Lemma node_emplace_post w k v :
  node_ok w -> mNumElements (flat w) < 2 ^ 40 ->
  post (node_emplace hasher dh MaxLoadFactor100 sizeof_Node (k, v) w) (entry_inserted w k v).
Proof.
  intros [I Hp Hd] Hn. unfold node_emplace.
  unfold mbind at 1, M_bind at 1. unfold on_pool at 1.
  pose proof (new_node_constructs k v (cells (map_of w)) _ _ Hp) as Hnew.
  destruct (new_node (k, v) (pool w)) as [p n|p e| |]; try done. destruct Hnew as (-> & Hc & Hp1).
  set (c := mData n) in *. set (w1 := NodeTable (flat w) (mKeyVals w) p).
  eapply post_bind.
  { apply (node_insert_post _ w1 k v ({[c]} ∪ cells (map_of w1)));
      [done|done|by apply moved_node_constructs|exact Hp1]. }
  intros w' [j b] [I' Hr]. change (map_of w1) with (map_of w) in Hr. cbn [fst snd] in Hr |- *.
  destruct (map_of w !! k) as [x|] eqn:E.
  - destruct Hr as (-> & Hm & Hg & Hp'). unfold node_destroy, mbind, M_bind.
    destruct (pool_deallocate_ok _ _ _ c Hp' ltac:(set_solver)) as (p2 & Hrun & Hp2).
    rewrite (on_pool_Ok (pool_deallocate (mData (k, (c, v)))) w' p2 tt Hrun). cbn.
    replace (({[c]} ∪ cells (map_of w)) ∖ {[c]}) with (cells (map_of w)) in Hp2 by set_solver.
    apply inserted_entry; [done|]. split; [done|]. rewrite E. done.
  - destruct Hr as (-> & Hr). cbn. apply inserted_entry; [done|]. split; [done|]. by rewrite E.
Qed.

Lemma node_findIdx w k : node_ok w ->
  exists j, on_flat (findIdx hasher dh k) w = Ok w j /\
  match map_of w !! k with
  | Some x => G (flat w) j = Some (k, x) /\ (j < end_idx (flat w))%nat
  | None => j = end_idx (flat w)
  end.
Proof.
  intros [I _ _]. destruct (findIdx_spec hasher dh _ _ k I) as (j & Hj & Hr).
  exists j. split; [by apply on_flat_same|done].
Qed.

Lemma node_try_emplace_post w k v :
  node_ok w -> mNumElements (flat w) < 2 ^ 40 ->
  post (node_try_emplace hasher dh MaxLoadFactor100 sizeof_Node (k, v) w) (entry_inserted w k v).
Proof.
  intros Hw Hn. destruct (node_findIdx w k Hw) as (j & Hj & Hr).
  unfold node_try_emplace. cbn [fst]. unfold mbind at 1, M_bind at 1. rewrite Hj.
  unfold mbind at 1, M_bind at 1, get.
  destruct (map_of w !! k) as [x|] eqn:E; [destruct Hr as [Hg Hlt]|subst j].
  - rewrite decide_False by lia. destruct Hw as [I Hp Hd]. apply inserted_entry; [done|].
    split; [done|]. by rewrite E.
  - rewrite decide_True by done. by apply node_emplace_post.
Qed.

Lemma node_insert_or_assign_post w k v :
  node_ok w -> mNumElements (flat w) < 2 ^ 40 ->
  post (node_insert_or_assign hasher dh MaxLoadFactor100 sizeof_Node (k, v) w) (fun w' r =>
    node_ok w' /\ r.2 = bool_decide (values (map_of w) !! k = None) /\
    values (map_of w') = <[k := v]> (values (map_of w))).
Proof.
  intros Hw Hn. destruct (node_findIdx w k Hw) as (j & Hj & Hr).
  unfold node_insert_or_assign. cbn [fst snd]. unfold mbind at 1, M_bind at 1. rewrite Hj.
  unfold mbind at 1, M_bind at 1, get.
  destruct (map_of w !! k) as [[c v0]|] eqn:E; [destruct Hr as [Hg Hlt]|subst j].
  - rewrite decide_False by lia. unfold mbind at 1, M_bind at 1. rewrite (read_slot_node _ _ _ Hg).
    cbn [fst mData snd]. destruct Hw as [[Ei|[n I]] Hp Hd].
    { apply nb_lt in Hg. rewrite Ei in Hg. simpl in Hg. lia. }
    destruct (heap_inv_assign hasher dh _ (flat w) n j k (c, v0) (c, v) I Hg) as (t' & Hrun & I' & Hm & _).
    unfold mbind, M_bind. rewrite (on_flat_Ok _ _ _ _ Hrun). cbn.
    rewrite (own_heap hasher dh _ _ w n I) in Hp. split_and!.
    + split; cbn; [right; eauto| |].
      * rewrite (own_heap hasher dh _ _ (NodeTable t' (mKeyVals w) (pool w)) n I'), Hm.
        by rewrite (cells_assign _ _ _ _ _ E).
      * rewrite Hm. by eapply distinct_assign.
    + by rewrite values_lookup, E.
    + rewrite Hm. unfold values. by rewrite fmap_insert.
  - rewrite decide_True by done. eapply post_mono; [by apply node_emplace_post|].
    intros w' r (Hw' & Hb & Hm & _). split_and!; [done|done|]. rewrite Hm.
    by rewrite (proj2 (values_None _ _) E).
Qed.
End ops.
