(* ===== verification/NodeTableErase.v ===== *)
(** * Erasure, clearing and growth on request in the node layout *)
From Stdlib Require Import ZArith Lia.
From stdpp Require Import base list gmap numbers fin_map_dom sets fin_maps.
From S2P Require Import Prelude Hash RobinHood RobinHoodLayout.
From S2P Require Import RobinHoodInv RobinHoodMap RobinHoodOps.
From S2P Require Import RobinHoodSpec NodeTable NodeTableOps.
#[local] Open Scope Z_scope.

Section ops.
Context {K V P : Type} `{Countable K} `{cell_pool_laws P}.
Context (hasher : K -> Z) (dh : bool) (MaxLoadFactor100 sizeof_Node : Z).
Context (load_factor : 10 < MaxLoadFactor100 < 100) (node_size : 0 < sizeof_Node <= 2 ^ 16).
Abbreviation NT := (node_table K V P).
Implicit Types (w : NT) (X : gset Z) (B : gmap Z Z).

Abbreviation heap_inv := (heap_inv hasher dh MaxLoadFactor100).
Abbreviation own := (own MaxLoadFactor100 sizeof_Node).
Abbreviation node_inv := (node_inv hasher dh MaxLoadFactor100 sizeof_Node).
Abbreviation node_ok := (node_ok hasher dh MaxLoadFactor100 sizeof_Node).
Abbreviation withBuffer := (calcNumElementsWithBuffer MaxLoadFactor100).
Abbreviation map_of w := (table_map (flat w)).
Abbreviation homet t := (home hasher dh (mMask t)).
Abbreviation expt t := (expected hasher dh (mMask t) (mInfoInc t) (mInfoHashShift t)).

(** ** Erasure *)

Definition count_down : M (Table K (Z * V)) unit :=
  modify (fun t => set_num (u64 (mNumElements t - 1)) t).

(** The entry in slot [j] goes, and its cell is returned. *)
Lemma node_shiftDown_ok w j k c v :
  node_ok w -> G (flat w) j = Some (k, (c, v)) ->
  exists w', (node_shiftDown j;; on_flat count_down) w = Ok w' tt /\ node_ok w' /\
    map_of w' = delete k (map_of w).
Proof.
  intros [[Ei|[n I]] Hp Hd] Hg.
  { apply nb_lt in Hg. rewrite Ei in Hg. simpl in Hg. lia. }
  assert (map_of w !! k = Some (c, v)) as Hk
    by (eapply (table_map_lookup hasher dh); [apply I|eauto]).
  destruct (pool_deallocate_ok _ _ _ c Hp) as (p & Hrun & Hp1).
  { apply elem_of_map_cells. eauto. }
  destruct (shiftDown_spec hasher dh _ load_factor (flat w) n j k (c, v) I Hg)
    as (t' & e & Hs & I' & Hm & _).
  unfold node_shiftDown, node_destroy. unfold mbind, M_bind. rewrite (read_slot_node _ _ _ Hg).
  rewrite (on_pool_Ok (pool_deallocate (mData (k, (c, v)))) w p tt Hrun).
  unfold mbind, M_bind in Hs.
  destruct (shiftDown j (flat w)) as [t1 []|t1 x| |] eqn:E1; try done.
  rewrite (on_flat_Ok _ (NodeTable (flat w) (mKeyVals w) p) _ _ E1). cbn [mKeyVals pool flat].
  rewrite (on_flat_Ok count_down (NodeTable t1 (mKeyVals w) p) _ _ Hs).
  eexists. split; [reflexivity|]. split; [|done].
  rewrite (own_heap hasher dh _ _ w n I) in Hp1.
  split; [right; eauto| |]; cbn; rewrite Hm.
  - rewrite (own_heap hasher dh _ _ (NodeTable t' (mKeyVals w) p) n I').
    by rewrite (cells_delete _ _ _ _ Hd Hk).
  - by apply distinct_delete.
Qed.

Lemma node_eraseLoop_ok w W fuel k i :
  probe_inv hasher dh (flat w) W ->
  (homet (flat w) k <= i <= W)%nat -> (W < i + fuel)%nat -> expt (flat w) k i <= 255 ->
  (forall m x, (homet (flat w) k <= m < i)%nat -> G (flat w) m <> Some (k, x)) ->
  (exists j x, G (flat w) j = Some (k, x) /\ node_eraseLoop fuel k (expt (flat w) k i) i w =
    (node_shiftDown j;; on_flat count_down;; mret 1) w) \/
  (node_eraseLoop fuel k (expt (flat w) k i) i w = Ok w 0 /\ forall m x, G (flat w) m <> Some (k, x)).
Proof.
  intros P'. pose proof (probe_inc hasher dh (flat w) _ P') as Hinc.
  revert i. induction fuel as [|fuel IH]; intros i Hi Hfuel Hle Hbef; [lia|].
  destruct (probe_spec hasher dh (flat w) _ P' k i) as (b & Hb & Hbs); [lia|].
  assert (node_eraseLoop (S fuel) k (expt (flat w) k i) i w =
    (if b then node_shiftDown i;; on_flat count_down;; mret 1
     else if expt (flat w) k (S i) <=? F (flat w) (S i)
          then node_eraseLoop fuel k (expt (flat w) k (S i)) (S i) else mret 0) w) as ->.
  { cbn [node_eraseLoop]. unfold mbind at 1, M_bind at 1, get.
    unfold mbind at 1, M_bind at 1. rewrite (on_flat_same _ _ _ Hb). destruct b; [done|].
    rewrite (next_spec hasher dh (flat w) _ P') by lia. unfold mbind at 1, M_bind at 1.
    rewrite (on_flat_same _ w (F (flat w) (S i))); [done|].
    by rewrite (read_info_spec hasher dh (flat w) _ P') by lia. }
  destruct b.
  { left. destruct (proj1 Hbs eq_refl) as [x ?]. exists i, x. done. }
  assert (forall m x, (homet (flat w) k <= m < S i)%nat -> G (flat w) m <> Some (k, x)) as Hbef2.
  { intros m x Hm Hv. destruct (decide (m = i)) as [->|]; [|by apply (Hbef m x); [lia|]].
    discriminate (proj2 Hbs); eauto. }
  destruct (Z.leb_spec (expt (flat w) k (S i)) (F (flat w) (S i))) as [Hc|Hc].
  - pose proof (Ft_lt hasher dh (flat w) _ P' k (S i) ltac:(lia) Hc).
    pose proof (Ft_byte hasher dh (flat w) _ P' (S i)). apply IH; auto; lia.
  - right. split; [done|]. eapply not_stored; [apply P'|apply P'| |exact Hc|done]. lia.
Qed.

Lemma node_erase_ok w k :
  node_ok w ->
  exists w' n, node_erase hasher dh k w = Ok w' n /\ node_ok w' /\ map_of w' = delete k (map_of w) /\
    n = match map_of w !! k with Some _ => 1 | None => 0 end.
Proof.
  intros Hw. pose proof Hw as [I _ _]. destruct (Inv_probe hasher dh _ _ I) as [P' _].
  pose proof (homet_le hasher dh (flat w) _ P' k). pose proof (probe_inc hasher dh (flat w) _ P').
  pose proof (bits_range hasher dh _ _ k (pi_inc _ _ _ _ P')).
  unfold node_erase, mbind at 1, M_bind at 1, get. rewrite (keyToIdx_spec hasher dh (flat w) _ P').
  destruct (node_eraseLoop_ok w _ (loop_fuel (flat w)) k (homet (flat w) k) P')
    as [(j & [c v] & Hg & ->)|[-> Hno]].
  { lia. } { unfold loop_fuel. rewrite (pi_info _ _ _ _ P'). lia. }
  { rewrite exp_home. lia. } { intros; lia. }
  - destruct (node_shiftDown_ok w j k c v Hw Hg) as (w' & Hrun & Hw' & Hm).
    exists w', 1. unfold mbind, M_bind in Hrun |- *.
    destruct (node_shiftDown j w) as [s []|s x| |]; try done. rewrite Hrun.
    split_and!; auto.
    assert (map_of w !! k = Some (c, v)) as -> by (eapply (table_map_lookup hasher dh); eauto). done.
  - exists w, 0. assert (map_of w !! k = None) as Hnone by (by eapply table_map_None).
    split_and!; auto; [by rewrite delete_id|by rewrite Hnone].
Qed.

(** ** Clearing and destruction *)

(** The cells of the slots in order. *)
Definition slot_cells (nd : list (option (node K V))) : list Z := omap (fun o => mData <$> o) nd.

Lemma elem_of_slot_cells nd c :
  c ∈ slot_cells nd <-> exists i k v, nb nd i = Some (k, (c, v)).
Proof.
  unfold slot_cells. rewrite list_elem_of_omap. split.
  - intros (o & (i & Ho)%list_elem_of_lookup & Hc). destruct o as [[k [c' v]]|]; simplify_eq/=.
    exists i, k, v. unfold nb. by rewrite Ho.
  - intros (i & k & v & Hi). exists (Some (k, (c, v))). split; [|done].
    unfold nb in Hi. destruct (nd !! i) as [o|] eqn:E; simplify_eq/=.
    by apply list_elem_of_lookup_2 in E.
Qed.

Lemma slot_cells_nodup nd :
  (forall i j k k' c v v', nb nd i = Some (k, (c, v)) -> nb nd j = Some (k', (c, v')) -> i = j) ->
  NoDup (slot_cells nd).
Proof.
  induction nd as [|o nd IH]; intros Hi; [constructor|].
  assert (NoDup (slot_cells nd)) as Hnd.
  { apply IH. intros i j k k' c v v' Hx Hy.
    pose proof (Hi (S i) (S j) k k' c v v' Hx Hy). lia. }
  destruct o as [[k [c v]]|]; [|done]. unfold slot_cells in *. cbn. constructor; [|done].
  fold (slot_cells nd). rewrite elem_of_slot_cells. intros (j & k' & v' & Hj).
  pose proof (Hi 0%nat (S j) k k' c v v' eq_refl Hj). lia.
Qed.

Lemma heap_slot_cells w n nd info :
  heap_inv (flat w) n -> distinct (map_of w) -> mStore (flat w) = Heap nd info ->
  NoDup (slot_cells nd) /\ list_to_set (slot_cells nd) = cells (map_of w).
Proof.
  intros I Hd Hst. pose proof (heap_old_block hasher dh _ _ _ _ _ I Hst) as O.
  pose proof (fun k x => slots_map_lookup nd k x (ob_uniq _ _ _ O)) as Hlk.
  assert (map_of w = slots_map nd) as Hm by (unfold table_map, nodes; by rewrite Hst).
  split.
  - apply slot_cells_nodup. intros i j k k' c v v' Hx Hy.
    assert (k = k') as <-.
    { apply (Hd k k' (c, v) (c, v')); [| |done]; rewrite Hm; apply Hlk; eauto. }
    by eapply (ob_uniq _ _ _ O).
  - apply set_eq. intros c. rewrite elem_of_list_to_set, elem_of_slot_cells, elem_of_map_cells, Hm.
    split; intros (a & b & Hx).
    + destruct Hx as [v Hx]. exists b, v. apply Hlk. eauto.
    + apply Hlk in Hx as [i Hi]. eauto.
Qed.

Lemma destroy_slot (l : list (option (node K V))) info num mask max inc shift j k c v a p p1 :
  nb l j = Some (k, (c, v)) -> pool_deallocate c p = Ok p1 tt ->
  (nd ← on_flat (read_node j); node_destroy nd;; on_flat (kill_node j))
    (NodeTable (mkTable (Heap l info) num mask max inc shift) a p : NT) =
  Ok (NodeTable (mkTable (Heap (<[j := None]> l) info) num mask max inc shift) a p1) tt.
Proof.
  intros Hj Hrun. unfold mbind at 1, M_bind at 1.
  rewrite (on_flat_same _ _ (k, (c, v))) by (cbn [flat]; by apply read_node_heap).
  unfold mbind, M_bind, node_destroy, on_pool, mData. cbn [fst snd pool]. rewrite Hrun.
  unfold on_flat, kill_node. cbn [flat mKeyVals pool].
  pose proof (nb_lt _ _ _ Hj). by rewrite set_node_heap.
Qed.

(** The loop empties the slots from [i] on and returns their cells. *)
Lemma node_destroyLoop_ok nd info W d i num mask max inc shift a p B :
  old_block nd info W -> (i + d = W)%nat -> NoDup (slot_cells (drop i nd)) ->
  pool_holds p (list_to_set (slot_cells (drop i nd))) B ->
  exists p', node_destroyLoop d i
      (NodeTable (mkTable (Heap (replicate i None ++ drop i nd) info) num mask max inc shift) a p) =
    Ok (NodeTable (mkTable (Heap (replicate W None) info) num mask max inc shift) a p') tt /\
    pool_holds p' ∅ B.
Proof.
  intros O. pose proof (ob_len _ _ _ O) as Hln. pose proof (ob_info _ _ _ O) as Hli.
  revert i p. induction d as [|d IH]; intros i p Hi Hnd Hp.
  - exists p. rewrite drop_ge in Hp |- * by lia. rewrite app_nil_r. cbn.
    replace W with i by lia. done.
  - assert (exists o, nd !! i = Some o) as [o Ho] by (apply lookup_lt_is_Some_2; lia).
    assert (nb nd i = o) as Hnb by (unfold nb; by rewrite Ho).
    rewrite (drop_S _ _ _ Ho) in *.
    assert (replicate i None ++ None :: drop (S i) nd = replicate (S i) None ++ drop (S i) nd) as Hnext.
    { rewrite replicate_S_end, <- app_assoc. done. }
    cbn [node_destroyLoop]. unfold mbind at 1, M_bind at 1.
    rewrite (on_flat_same _ _ (ib info i)) by (cbn [flat]; by rewrite read_info_heap by lia).
    destruct (Z.eqb_spec 0 (ib info i)) as [Hz|Hnz].
    + rewrite (ob_dead _ _ _ O i) in Hnb by (done || lia). subst o.
      unfold mbind at 1, M_bind at 1, mret, M_ret. rewrite Hnext. apply (IH (S i)); [lia|done|done].
    + destruct (ob_live _ _ _ O i ltac:(lia) ltac:(done)) as [[k [c v]] Hkv].
      assert (o = Some (k, (c, v))) as -> by congruence.
      cbn in Hnd, Hp. apply NoDup_cons in Hnd as [Hc Hnd].
      destruct (pool_deallocate_ok _ _ _ c Hp) as (p1 & Hrun & Hp1); [set_solver|].
      replace (({[c]} ∪ list_to_set (slot_cells (drop (S i) nd))) ∖ {[c]} : gset Z)
        with (list_to_set (slot_cells (drop (S i) nd)) : gset Z) in Hp1 by set_solver.
      unfold mbind at 1, M_bind at 1. rewrite (destroy_slot _ _ _ _ _ _ _ i k c v _ _ p1); [|  |done].
      2: { apply nb_lookup. by rewrite lookup_app_r, length_replicate, Nat.sub_diag by (rewrite length_replicate; lia). }
      rewrite insert_app_r_alt, length_replicate, Nat.sub_diag by (rewrite length_replicate; lia).
      destruct (IH (S i) p1) as (p' & IHrun & ?); [lia|done|done|].
      rewrite <- Hnext in IHrun. eauto.
Qed.

Lemma node_destroy_nodes_heap w n :
  node_ok w -> heap_inv (flat w) n ->
  exists t' p', node_destroy_nodes MaxLoadFactor100 w = Ok (NodeTable t' (mKeyVals w) p') tt /\
    destroy_nodes MaxLoadFactor100 (flat w) = Ok t' tt /\ pool_holds p' ∅ (own w).
Proof.
  intros [_ Hp Hd] I. destruct (hi_store _ _ _ _ _ I) as (nd & info & Hst).
  destruct (heap_slot_cells w n nd info I Hd Hst) as [Hnd Hc].
  pose proof (heap_old_block hasher dh _ _ _ _ _ I Hst) as O. rewrite <- Hc in Hp.
  eexists _. rewrite (destroy_nodes_heap hasher dh _ _ _ _ _ I Hst).
  destruct (node_destroyLoop_ok nd info _ (width MaxLoadFactor100 n) 0 0 (mMask (flat w))
    (mMaxNumElementsAllowed (flat w)) (mInfoInc (flat w)) (mInfoHashShift (flat w)) (mKeyVals w)
    (pool w) (own w) O) as (p' & Hrun & Hp'); [done..|].
  exists p'. split; [|done]. unfold node_destroy_nodes, on_flat, mbind, M_bind, modify, get, set_num.
  tcbn. cbn [flat mKeyVals pool mMask]. rewrite Hst, (hi_mask_succ _ _ _ _ n I). exact Hrun.
Qed.

(** A table with the mask of another one is of the same size. *)
Lemma heap_same_mask (t t' : Table K (Z * V)) n :
  heap_inv t n -> RobinHoodInv.Inv hasher dh MaxLoadFactor100 t' -> mMask t' = mMask t -> heap_inv t' n.
Proof.
  intros I I' E. pose proof (hi_n _ _ _ _ _ I). pose proof (hi_mask _ _ _ _ _ I).
  assert (2 ^ 3 <= 2 ^ n) by (apply Z.pow_le_mono_r; lia).
  destruct I' as [->|[n' I']]; [change (mMask (@init K (Z * V))) with 0 in E; lia|].
  pose proof (hi_n _ _ _ _ _ I'). pose proof (hi_mask _ _ _ _ _ I').
  replace n with n'; [done|]. apply (Z.pow_inj_r 2); lia.
Qed.

Lemma node_clear_ok w :
  node_ok w ->
  exists w', node_clear MaxLoadFactor100 w = Ok w' tt /\ node_ok w' /\ map_of w' = ∅.
Proof.
  intros Hw. pose proof Hw as [I Hp Hd].
  destruct (table_clear_spec hasher dh _ load_factor _ I) as (t' & Hrun & I' & Hm & _ & Hmask).
  unfold node_clear. unfold mbind at 1, M_bind at 1, get.
  unfold clear in Hrun. unfold mbind at 1, M_bind at 1, get in Hrun.
  pose proof (node_num _ _ _ _ _ Hw) as Hnum.
  destruct (Z.eqb_spec (mNumElements (flat w)) 0) as [Hz|Hz].
  { exists w. split_and!; [done|done|]. apply map_size_empty_inv. lia. }
  destruct I as [Ei|[n I]]; [by rewrite Ei in Hz|].
  destruct (node_destroy_nodes_heap w n Hw I) as (t1 & p' & Hrun1 & Hd1 & Hp').
  unfold mbind at 1, M_bind at 1 in Hrun. rewrite Hd1 in Hrun.
  unfold mbind at 1, M_bind at 1. rewrite Hrun1.
  rewrite (on_flat_Ok _ (NodeTable t1 (mKeyVals w) p') _ _ Hrun).
  eexists. split; [reflexivity|]. split; [|done]. split; cbn [flat pool]; [done| |]; rewrite Hm; [|done].
  pose proof (heap_same_mask _ t' n I I' Hmask) as I2.
  rewrite cells_empty, (own_heap hasher dh _ _ (NodeTable t' (mKeyVals w) p') n I2).
  by rewrite (own_heap hasher dh _ _ w n I) in Hp'.
Qed.

(** ** Reservation *)

Lemma node_reserve_post w c force :
  node_ok w -> 0 <= c < 2 ^ 40 -> mNumElements (flat w) < 2 ^ 40 ->
  post (node_reserve_rehash hasher dh MaxLoadFactor100 sizeof_Node c force w) (fun w' _ =>
    node_ok w' /\ map_of w' = map_of w).
Proof.
  intros Hw Hc Hnum. pose proof Hw as [I Hp Hd].
  unfold node_reserve_rehash. unfold mbind at 1, M_bind at 1, get.
  set (m := Z.max c (mNumElements (flat w))).
  assert (m <= RobinHoodInv.cap MaxLoadFactor100 46) as Hm
    by (pose proof (cap_bounds _ load_factor 46 ltac:(lia)); lia).
  change InitialNumElements with (2 ^ 3).
  destruct (reserveSize_spec MaxLoadFactor100 64 3 m ltac:(lia) ltac:(lia) Hm) as (n & -> & Hn & Hcap & _).
  pose proof (pow2_bounds n ltac:(lia)). destruct (Z.eqb_spec (2 ^ n) 0); [lia|].
  destruct (force || _); [|done]. destruct I as [Ei|[k I]].
  - assert (own w = ∅) as Hown by (unfold NodeTableOps.own; by rewrite Ei).
    assert (map_of w = ∅) as Hempty by (by rewrite Ei).
    rewrite Hown in Hp.
    eapply post_mono; [by apply (node_rehash_init hasher dh _ _ load_factor node_size w n _ Ei Hp)|].
    intros w' _ (I' & Hm' & Hp'). rewrite Hm', Hempty. split; [|done].
    split; rewrite ?Hm'; [right; eauto|by rewrite <- Hempty|done].
  - eapply post_mono; [apply (node_rehash_heap hasher dh _ _ load_factor node_size w k n _ I Hp Hn); lia|].
    intros w' _ (I' & Hm' & Hp'). split; [|done]. split; rewrite ?Hm'; [right; eauto|done..].
Qed.

(** ** The end of a table *)

(** The block of the table is freed; the cells are left to the pool. *)
Lemma node_destroy_table_ok w :
  node_ok w ->
  exists w', node_destroy_table MaxLoadFactor100 sizeof_Node w = Ok w' tt /\
    pool_holds (pool w') (cells (map_of w)) ∅.
Proof.
  intros [I Hp Hd]. unfold node_destroy_table. unfold mbind at 1, M_bind at 1, get.
  destruct I as [Ei|[n I]].
  - rewrite Ei. exists w. split; [done|]. unfold NodeTableOps.own in Hp. by rewrite Ei in *.
  - pose proof (hi_n _ _ _ _ _ I). pose proof (hi_mask _ _ _ _ _ I).
    assert (2 ^ 3 <= 2 ^ n) by (apply Z.pow_le_mono_r; lia).
    destruct (Z.eqb_spec (mMask (flat w)) 0); [lia|].
    destruct (hi_store _ _ _ _ _ I) as (nd & info & Hst).
    unfold mbind at 1, M_bind at 1.
    rewrite (on_flat_Ok _ _ _ _ (destroy_nodes_heap hasher dh _ _ _ _ _ I Hst)).
    unfold mbind at 1, M_bind at 1. unfold mbind at 1, M_bind at 1.
    cbn [mKeyVals]. rewrite (own_heap hasher dh _ _ w n I) in Hp.
    match goal with |- context [pool_deallocate_bytes _ ?s] =>
      destruct (pool_deallocate_bytes_ok _ _ _ (mKeyVals w) _ s Hp (lookup_singleton_eq _ _))
        as (p' & Hrun & Hp') end.
    unfold on_pool. cbn [pool]. rewrite Hrun. eexists. split; [reflexivity|].
    cbn [pool]. by rewrite delete_singleton_eq in Hp'.
Qed.
End ops.
