(* ===== verification/NodePool.v ===== *)
(** * The pool allocator below the node layout

    The pool of BulkPool implements the interface of NodeTable: the cells in use of one pool
    of the program and the blocks of bytes outside of the pools.  With the heap of the
    library (HeapBlocks) this is a complete node table. *)
From Stdlib Require Import ZArith Lia.
From stdpp Require Import base list gmap numbers sets.
From S2P Require Import Prelude BulkPool BulkPoolSpec BulkPoolOps NodeTable.
#[local] Open Scope Z_scope.

(** The programs of the table use the pool with the number 0. *)
Record node_pool (H : Type) (sizeof_Ty alignof_Ty MinNumAllocs MaxNumAllocs : Z) :=
  NodePool { world : pool_world H }.
Arguments NodePool {H sizeof_Ty alignof_Ty MinNumAllocs MaxNumAllocs}.
Arguments world {H sizeof_Ty alignof_Ty MinNumAllocs MaxNumAllocs}.

Section pool.
Context {H : Type} `{bytes_heap H} {sizeof_Ty alignof_Ty MinNumAllocs MaxNumAllocs : Z}.
Abbreviation NP := (node_pool H sizeof_Ty alignof_Ty MinNumAllocs MaxNumAllocs).

Definition on_world {A} (m : M (pool_world H) A) : M NP A := fun p =>
  match m (world p) with
  | Ok w a => Ok (NodePool w) a
  | Throw w e => Throw (NodePool w) e
  | Fault => Fault
  | Diverge => Diverge
  end.

#[export] Instance bulk_cell_pool : cell_pool NP := {|
  pool_allocate := on_world (bulk_allocate sizeof_Ty alignof_Ty MinNumAllocs MaxNumAllocs 0);
  pool_deallocate c := on_world (bulk_deallocate 0 c);
  pool_allocate_bytes n := on_world (allocate_bytes n);
  pool_deallocate_bytes a n := on_world (deallocate_bytes a n);
  pool_addOrFree a n := on_world (addOrFree sizeof_Ty alignof_Ty 0 a n);
|}.

Context `{!pool_sizes sizeof_Ty alignof_Ty MinNumAllocs MaxNumAllocs}.
Context `{!bytes_heap_laws H (ALIGNMENT alignof_Ty)}.
Implicit Types (p : NP) (X : gset Z) (B : gmap Z Z) (g : pool_state) (G : gmap nat pool_state).
Implicit Types (w : pool_world H).

Abbreviation bulk_inv := (bulk_inv (sizeof_Ty := sizeof_Ty) (alignof_Ty := alignof_Ty)).

(** The other pools of the program. *)
Context (G0 : gmap nat pool_state).

Definition bulk_holds p X B : Prop :=
  exists g, bulk_inv (world p) (<[0%nat := g]> G0) B /\ X = list_to_set (used g).

(** The pool 0 after a change. *)
Lemma holds_update w g g' X B :
  bulk_inv w (<[0%nat := g']> (<[0%nat := g]> G0)) B ->
  X = list_to_set (used g') -> bulk_holds (NodePool w) X B.
Proof. rewrite insert_insert_eq. intros Hw ->. by exists g'. Qed.

Abbreviation at_0 := (lookup_insert_eq _ 0%nat _).

(** A cell in use is not free. *)
Lemma used_nodup w G B g :
  bulk_inv w G B -> G !! 0%nat = Some g ->
  NoDup (frees g ++ used g).
Proof. intros Hw Hg. destruct (inv_lookup _ _ _ _ _ Hw Hg) as (_ & _ & _ & Hok). apply (ok_cells _ _ Hok). Qed.

Lemma head_fresh w G B g g' c us :
  bulk_inv w (<[0%nat := g']> G) B ->
  used g' = c :: us -> us = used g -> c ∉ (list_to_set (used g) : gset Z).
Proof.
  intros Hw E ->. pose proof (used_nodup _ _ _ _ Hw (lookup_insert_eq _ _ _)) as Hnd.
  rewrite E in Hnd. apply NoDup_app in Hnd as (_ & _ & Hnd). apply NoDup_cons in Hnd as [Hc _].
  by rewrite elem_of_list_to_set.
Qed.

Lemma bulk_allocate_holds p X B :
  bulk_holds p X B ->
  match pool_allocate p with
  | Ok p' c => c ∉ X /\ bulk_holds p' ({[c]} ∪ X) B
  | Throw p' e => p' = p /\ e = bad_alloc
  | Fault | Diverge => False
  end.
Proof.
  intros (g & Hw & ->). cbn [pool_allocate bulk_cell_pool]. unfold on_world.
  destruct (frees g) as [|c fr] eqn:Hfr.
  - pose proof (allocate_chunk _ _ _ _ _ Hw at_0 Hfr) as Hal.
    destruct (bulk_allocate _ _ _ _ _ _) as [w' c|w' e| |]; try done.
    + destruct Hal as (ch & k & fr & _ & _ & _ & _ & Hw').
      split; [by eapply head_fresh|by eapply holds_update].
    + destruct Hal as [-> ->]. by destruct p.
  - destruct (allocate_free _ _ _ _ _ _ _ Hw at_0 Hfr) as (w' & -> & _ & Hw').
    split; [by eapply head_fresh|by eapply holds_update].
Qed.

Lemma bulk_deallocate_holds p X B c :
  bulk_holds p X B -> c ∈ X ->
  exists p', pool_deallocate c p = Ok p' tt /\ bulk_holds p' (X ∖ {[c]}) B.
Proof.
  intros (g & Hw & ->) Hc. rewrite elem_of_list_to_set in Hc.
  apply elem_of_Permutation in Hc as [us Hus].
  destruct (deallocate_ok _ _ _ _ _ _ _ Hw at_0 Hus) as (w' & Hrun & _ & Hw').
  exists (NodePool w'). cbn [pool_deallocate bulk_cell_pool]. unfold on_world. rewrite Hrun.
  split; [done|]. eapply holds_update; [exact Hw'|]. cbn [used].
  pose proof (used_nodup _ _ _ _ Hw at_0) as Hnd. apply NoDup_app in Hnd as (_ & _ & Hnd).
  rewrite Hus in Hnd. apply NoDup_cons in Hnd as [Hc _]. rewrite Hus. set_solver.
Qed.

Lemma bulk_addOrFree_holds p X B a n :
  bulk_holds p X B -> B !! a = Some n ->
  exists p', pool_addOrFree a n p = Ok p' tt /\ bulk_holds p' X (delete a B).
Proof.
  intros (g & Hw & ->) Ha. cbn [pool_addOrFree bulk_cell_pool].
  unfold on_world, addOrFree. destruct (Z.ltb_spec n (ALIGNMENT alignof_Ty + ALIGNED_SIZE sizeof_Ty alignof_Ty)).
  - destruct (deallocate_bytes_ok _ _ _ _ _ n Hw Ha) as (h' & -> & Hw').
    eexists. split; [reflexivity|]. by exists g.
  - destruct (add_chunk_ok _ _ _ _ _ _ _ Hw at_0 Ha ltac:(lia)) as (w' & -> & _ & Hw').
    eexists. split; [reflexivity|]. by eapply holds_update.
Qed.

Program Definition bulk_cell_pool_laws : cell_pool_laws NP := {| pool_holds := bulk_holds |}.
Next Obligation. intros. by apply bulk_allocate_holds. Qed.
Next Obligation. intros. by apply bulk_deallocate_holds. Qed.
Next Obligation.
  intros p X B n (g & Hw & ->) Hn. cbn [pool_allocate_bytes bulk_cell_pool]. unfold on_world.
  pose proof (allocate_bytes_ok _ _ _ n Hw Hn) as Hal.
  destruct (allocate_bytes n (world p)) as [w a|w e| |]; try done.
  - destruct Hal as (_ & _ & Hb & _ & Hw'). split; [done|]. by exists g.
  - destruct Hal as [-> ->]. by destruct p.
Qed.
Next Obligation.
  intros p X B a n k (g & Hw & ->) Ha.
  destruct (deallocate_bytes_ok _ _ _ _ _ k Hw Ha) as (h' & Hrun & Hw').
  eexists. cbn [pool_deallocate_bytes bulk_cell_pool]. unfold on_world. rewrite Hrun.
  split; [reflexivity|]. by exists g.
Qed.
Next Obligation. intros. by apply bulk_addOrFree_holds. Qed.
End pool.
