(* ===== verification/NodeTableTheorems.v ===== *)
(** * Theorems about the node layout

    The node table implements the contract of the map, as the flat one does; the cells of
    the pool in use are those of its entries, and a destroyed table leaves no memory behind.
    An insertion that runs out of memory does not keep the table valid. *)
From Stdlib Require Import ZArith Lia.
From stdpp Require Import base list gmap numbers sets.
From S2P Require Import Prelude Refinement Hash RobinHood RobinHoodLayout.
From S2P Require Import RobinHoodInv RobinHoodMap RobinHoodOps RobinHoodSpec.
From S2P Require Import Heap HeapTheorems BulkPool BulkPoolSpec BulkPoolOps HeapBlocks BulkPoolTheorems.
From S2P Require Import NodeTable NodeTableOps NodeTableErase NodePool.
#[local] Open Scope Z_scope.

(** ** The table implements the map contract *)

Section table.
Context {K V P : Type} `{Countable K} `{cell_pool P} (value_default : V).
Context (hasher : K -> Z) (dh : bool) (MaxLoadFactor100 sizeof_Node : Z).
Abbreviation NT := (node_table K V P).
Implicit Types w : NT.

Abbreviation with_pool f := (f hasher dh MaxLoadFactor100 sizeof_Node).

Definition node_at (key : K) : M NT V := x ← on_flat (at_key hasher dh key); mret x.2.

Definition node_step (o : map_op K V) : M NT (map_result V) :=
  match o with
  | OpInsert k v => r ← with_pool node_doInsert (k, v); mret (RBool r.2)
  | OpTryEmplace k v => r ← with_pool node_try_emplace (k, v); mret (RBool r.2)
  | OpInsertOrAssign k v => r ← with_pool node_insert_or_assign (k, v); mret (RBool r.2)
  | OpIndex k =>
      idx ← with_pool node_doCreateByKey value_default k;
      n ← on_flat (read_node idx); mret (RVal n.2.2)
  | OpErase k => c ← node_erase hasher dh k; mret (RNum c)
  | OpCount k => c ← on_flat (count hasher dh k); mret (RNum c)
  | OpContains k => b ← on_flat (contains hasher dh k); mret (RBool b)
  | OpAt k => catch_out_of_range (node_at k)
  | OpClear => node_clear MaxLoadFactor100;; mret RUnit
  | OpReserve c => with_pool node_reserve_rehash c false;; mret RUnit
  | OpRehash c => with_pool node_reserve_rehash c true;; mret RUnit
  end.

Context `{!cell_pool_laws P}.
Context (load_factor : 10 < MaxLoadFactor100 < 100) (node_size : 0 < sizeof_Node <= 2 ^ 16).

Abbreviation node_ok := (node_ok hasher dh MaxLoadFactor100 sizeof_Node).
Abbreviation entries w := (values (table_map (flat w))).

Lemma entries_size w : size (entries w) = size (table_map (flat w)).
Proof. apply map_size_fmap. Qed.

Lemma is_new_entries w k : is_new (entries w) k = bool_decide (table_map (flat w) !! k = None).
Proof. unfold is_new. apply bool_decide_ext, values_None. Qed.

Lemma insert_result w k v w' r :
  entry_inserted hasher dh MaxLoadFactor100 sizeof_Node w k v w' r ->
  (node_ok w' /\ entries w' = if is_new (entries w) k then <[k := v]> (entries w) else entries w) /\
  RBool (V:=V) r.2 = RBool (is_new (entries w) k).
Proof.
  intros (Hw & -> & Hm & _). unfold is_new. rewrite Hm. split; [split; [done|]|done].
  case_bool_decide as E; [by rewrite E|].
  destruct (entries w !! k) as [x|] eqn:Ex; [|done]. by rewrite insert_id.
Qed.

Lemma node_step_refines o w m :
  node_ok w /\ entries w = m -> op_ok (2 ^ 40) o m ->
  post (node_step o w) (fun w' r =>
    (node_ok w' /\ entries w' = (map_step value_default o m).1) /\
    r = (map_step value_default o m).2).
Proof.
  intros [Hw <-] [Hsz Ho]. rewrite entries_size, <- (node_num _ _ _ _ _ Hw) in Hsz.
  pose proof Hw as [I _ _].
  destruct o as [k v|k v|k v|k|k|k|k|k| |c|c]; cbn [node_step map_step fst snd] in *.
  - eapply post_bind; [by apply node_doInsert_post|]. intros. by apply insert_result.
  - eapply post_bind; [by apply node_try_emplace_post|]. intros. by apply insert_result.
  - eapply post_bind; [by apply node_insert_or_assign_post|]. intros w' r (Hw' & Hr & Hm).
    split; [by rewrite Hm|by rewrite Hr].
  - eapply post_bind; [by apply node_doCreateByKey_post|].
    intros w' idx (b & Hw' & _ & Hm & c & Hg). unfold mbind, M_bind.
    cbn [fst] in Hg. rewrite (read_slot_node _ _ _ Hg). split; [by rewrite Hm|done].
  - destruct (node_erase_ok hasher dh _ _ load_factor w k Hw) as (w' & c & Hr & Hw' & Hm & ->).
    unfold mbind, M_bind. rewrite Hr. split; [split; [done|]|].
    + unfold values. by rewrite Hm, fmap_delete.
    + rewrite is_new_entries. by destruct (table_map (flat w) !! k).
  - unfold mbind, M_bind. rewrite (on_flat_same _ _ _ (count_spec hasher dh MaxLoadFactor100 _ k I)).
    rewrite is_new_entries. split; [done|]. by destruct (table_map (flat w) !! k).
  - unfold mbind, M_bind. rewrite (on_flat_same _ _ _ (contains_spec hasher dh MaxLoadFactor100 _ k I)).
    rewrite is_new_entries. split; [done|]. by destruct (table_map (flat w) !! k).
  - unfold catch_out_of_range, node_at, mbind, M_bind, on_flat.
    rewrite (at_key_spec hasher dh MaxLoadFactor100) by done. rewrite values_lookup. cbn.
    destruct (table_map (flat w) !! k); by destruct w.
  - destruct (node_clear_ok hasher dh _ _ load_factor node_size w Hw) as (w' & Hr & Hw' & Hm).
    unfold mbind, M_bind. rewrite Hr. split; [split; [done|]|done]. rewrite Hm. apply fmap_empty.
  - eapply post_bind; [by apply node_reserve_post|]. intros w' _ [Hw' Hm]. split; [split; [done|]|done]. by rewrite Hm.
  - eapply post_bind; [by apply node_reserve_post|]. intros w' _ [Hw' Hm]. split; [split; [done|]|done]. by rewrite Hm.
Qed.

#[export] Instance node_table_impl : Implements node_step (map_step value_default) := {|
  Refinement.represents w m := node_ok w /\ entries w = m;
  supported := op_ok (2 ^ 40);
  implements_step := node_step_refines;
|}.

End table.

(** C3: a sequence of operations on a valid node table either ends with an exception or has,
    operation by operation, the results and the final contents of the same sequence on a
    finite map, and leaves a valid table: the entries lie in different cells of the pool,
    the cells in use are exactly those, and the block of the table is the only one the table
    holds; no operation uses a cell after it was returned, and every loop terminates,
    whatever the hasher and the pool do. *)
Theorem node_table_refines_map {K V P} `{Countable K} `{cell_pool_laws P} (d : V) (hasher : K -> Z)
    dh MaxLoadFactor100 sizeof_Node (os : list (map_op K V)) (w : node_table K V P) :
  10 < MaxLoadFactor100 < 100 -> 0 < sizeof_Node <= 2 ^ 16 ->
  node_ok hasher dh MaxLoadFactor100 sizeof_Node w ->
  supported_run (op_ok (2 ^ 40)) (map_step d) os (values (table_map (flat w))) ->
  post (run_ops (node_step d hasher dh MaxLoadFactor100 sizeof_Node) os w) (fun w' rs =>
    run_spec (map_step d) os (values (table_map (flat w))) = (values (table_map (flat w')), rs) /\
    Inv hasher dh MaxLoadFactor100 (flat w') /\ distinct (table_map (flat w')) /\
    pool_holds (pool w') (cells (table_map (flat w'))) (own MaxLoadFactor100 sizeof_Node w')).
Proof.
  intros Hlf Hns I Hok.
  eapply post_mono; [apply (run_ops_refines (H := node_table_impl d hasher dh _ _ Hlf Hns)); [by split|done]|].
  intros w' rs [[[I' Hp Hd] Hm] ->]. split; [|done]. rewrite Hm. by destruct (run_spec _ _ _).
Qed.

(** ** Memory *)

Section memory.
Context {H : Type} `{bytes_heap H} {sizeof_Ty alignof_Ty MinNumAllocs MaxNumAllocs : Z}.
Context `{!pool_sizes sizeof_Ty alignof_Ty MinNumAllocs MaxNumAllocs}.
Context `{!bytes_heap_laws H (ALIGNMENT alignof_Ty)}.
Abbreviation NP := (node_pool H sizeof_Ty alignof_Ty MinNumAllocs MaxNumAllocs).
Context {K V : Type} `{Countable K}.

(** [~Table]: the members are destroyed first, then the base class with the pool, whose
    list has at most [chunks] chunks. *)
Definition node_table_end (MaxLoadFactor100 sizeof_Node : Z) (chunks : nat) : M (node_table K V NP) unit :=
  node_destroy_table MaxLoadFactor100 sizeof_Node;;
  on_pool (on_world (bulk_destroy sizeof_Ty alignof_Ty chunks 0)).

(** C14: the destructor of a valid node table returns every block the table and its pool
    took, the block of the table with the wrong size and the cells of live entries
    included: the heap holds exactly the chunks of the other pools. *)
Theorem node_table_releases (hasher : K -> Z) dh MaxLoadFactor100 sizeof_Node G0
    (w : node_table K V NP) :
  10 < MaxLoadFactor100 < 100 -> 0 < sizeof_Node <= 2 ^ 16 ->
  node_ok (H1 := bulk_cell_pool_laws G0) hasher dh MaxLoadFactor100 sizeof_Node w ->
  exists n, forall chunks_max, (n <= chunks_max)%nat ->
  exists w', node_table_end MaxLoadFactor100 sizeof_Node chunks_max w = Ok w' tt /\
    forall a m, owned (heap_of (world (pool w'))) a m <->
      exists q g, q <> 0%nat /\ G0 !! q = Some g /\ (a, m) ∈ chunks g.
Proof.
  intros Hlf Hns Hw.
  destruct (node_destroy_table_ok (H1 := bulk_cell_pool_laws G0) hasher dh _ _ w Hw)
    as (w1 & Hrun & g & Hinv & _).
  exists (length (chunks g)). intros n Hn.
  destruct (pool_reset_ok _ _ _ _ _ n Hinv (lookup_insert_eq _ _ _) Hn) as (s & Hreset & _ & _ & Hs).
  apply (delete_pool_ok _ _ _ 0%nat) in Hs; [|apply lookup_insert_eq].
  eexists. split.
  - unfold node_table_end. unfold mbind, M_bind. rewrite Hrun. unfold on_pool, on_world, bulk_destroy.
    unfold mbind, M_bind. rewrite Hreset. reflexivity.
  - intros a m. rewrite (inv_blocks _ _ _ Hs), lookup_empty. split.
    + intros [(q & g' & Hq & Hin)|]; [|done]. exists q, g'. rewrite insert_insert_eq in Hq.
      rewrite delete_insert_eq in Hq. by apply lookup_delete_Some in Hq as [? ?].
    + intros (q & g' & Hne & Hq & Hin). left. exists q, g'. split; [|done].
      rewrite insert_insert_eq, delete_insert_eq. by apply lookup_delete_Some.
Qed.
End memory.

(** ** Instances: entries of 24 bytes on a heap that grants few blocks *)

#[local] Program Definition limited (blocks : nat) : kernel_heap := {|
  ExAllocatePoolUninitialized l pool n tag :=
    if (size l <? blocks)%nat
    then ExAllocatePoolUninitialized (kernel_heap := demo_pool) l pool n tag else None;
|}.
Next Obligation.
  intros blocks l pool n tag a E. cbn beta in E. destruct (size l <? blocks)%nat; [|done].
  by eapply pool_address.
Qed.
Next Obligation.
  intros blocks l pool n tag a b m t E. cbn beta in E. destruct (size l <? blocks)%nat; [|done].
  by eapply pool_apart.
Qed.

#[local] Existing Instances demo_program demo_sizes bulk_cell_pool.

Abbreviation demo_nodes := (node_pool heap_state 24 8 4 16384).

Section demo.
Context (blocks : nat).
#[local] Instance limited_bytes : bytes_heap heap_state := heap_bytes (K := limited blocks) paged_new.
#[local] Instance limited_laws : bytes_heap_laws heap_state (ALIGNMENT 8).
Proof. apply heap_bytes_laws. by exists 3. Defined.

#[local] Instance demo_laws : cell_pool_laws demo_nodes := bulk_cell_pool_laws ∅.

(** Integer keys hashed to themselves. *)
Definition plain_hasher (k : Z) : Z := k.

(** No block is taken yet. *)
Definition demo_node_table : node_table Z Z demo_nodes :=
  NodeTable init 0 (NodePool (PoolWorld ∅ demo_heap {[0%nat := BulkPool 0 0]})).

Definition demo_node_step : map_op Z Z -> M (node_table Z Z demo_nodes) (map_result Z) :=
  node_step 0 plain_hasher false 80 8.

Definition demo_node_ok : node_table Z Z demo_nodes -> Prop := node_ok plain_hasher false 80 8.

Lemma demo_pool_holds : pool_holds (pool demo_node_table) ∅ ∅.
Proof.
  exists empty_pool. split; [|done].
  assert (bulk_inv (sizeof_Ty := 24) (alignof_Ty := 8) (PoolWorld ∅ demo_heap ∅) ∅ ∅) as Hw.
  { apply empty_inv.
    - split; [done|]. split; [done|]. split; [by intros a nt ?%demo_no_block|].
      by intros a b n m t u ?%demo_no_block.
    - by intros a n [?%demo_no_block _]. }
  destruct (new_pool_ok _ _ _ 0 Hw) as (w & Hrun & _ & _ & Hw'); [done|].
  cbn in Hrun. injection Hrun as <-. exact Hw'.
Qed.

Lemma demo_node_table_ok : demo_node_ok demo_node_table.
Proof.
  split; [by left| |].
  - change (pool_holds (pool demo_node_table) (cells (table_map (@init Z (Z * Z)))) ∅).
    rewrite init_map, cells_empty. apply demo_pool_holds.
  - intros k k' x x' Hk. change (table_map (@init Z (Z * Z)) !! k = Some x) in Hk.
    by rewrite init_map, lookup_empty in Hk.
Qed.
End demo.

Definition node_demo_ops : list (map_op Z Z) :=
  [OpInsert 1 10; OpInsert 2 20; OpIndex 3; OpInsertOrAssign 3 30; OpInsert 2 21; OpTryEmplace 4 40;
   OpErase 1; OpCount 1; OpAt 3; OpAt 9; OpReserve 100; OpContains 4].

Definition node_demo : outcome (node_table Z Z demo_nodes) (list (map_result Z)) :=
  run_ops (demo_node_step 3) node_demo_ops demo_node_table.

Lemma node_demo_supported : supported_run (op_ok (2 ^ 40)) (map_step 0) node_demo_ops ∅.
Proof. apply (bool_decide_unpack _). by vm_compute. Qed.

Lemma node_demo_load : 10 < 80 < 100. Proof. lia. Qed.
Lemma node_demo_size : 0 < 8 <= 2 ^ 16. Proof. lia. Qed.

(** The table after a sequence of operations. *)
Definition table_after (blocks : nat) (os : list (map_op Z Z)) : node_table Z Z demo_nodes :=
  match run_ops (demo_node_step blocks) os demo_node_table with Ok w _ => w | _ => demo_node_table end.

Lemma table_after_ok blocks os :
  supported_run (op_ok (2 ^ 40)) (map_step 0) os ∅ -> demo_node_ok blocks (table_after blocks os).
Proof.
  intros Hos.
  pose (I := node_table_impl (cell_pool_laws0 := demo_laws blocks) 0 plain_hasher false _ _ node_demo_load node_demo_size).
  pose proof (run_ops_refines (H := I) os demo_node_table ∅) as Hr.
  change (run_ops _ os demo_node_table) with (run_ops (demo_node_step blocks) os demo_node_table) in Hr.
  unfold table_after.
  destruct (run_ops _ os demo_node_table) as [w rs|w e| |]; [|apply demo_node_table_ok..].
  apply Hr; [|done]. split; [apply demo_node_table_ok|by vm_compute].
Qed.

Lemma node_table_refines_map_witness :
  post node_demo (fun w' rs => run_spec (map_step 0) node_demo_ops ∅ = (values (table_map (flat w')), rs)) /\
  match node_demo with
  | Ok w' rs => length rs = 12%nat /\ cells (table_map (flat w')) = {[8224; 8248; 8272]}
  | _ => False
  end.
Proof.
  split; [|by vm_compute].
  pose proof (node_table_refines_map (H1 := demo_laws 3) 0 plain_hasher false 80 8 node_demo_ops
    demo_node_table node_demo_load node_demo_size (demo_node_table_ok 3) node_demo_supported) as Hr.
  change (run_ops _ node_demo_ops demo_node_table) with node_demo in Hr.
  eapply post_mono; [exact Hr|]. intros w' rs [Hrun _]. exact Hrun.
Defined.

Lemma node_table_releases_witness :
  cells (table_map (flat (table_after 3 node_demo_ops))) = {[8224; 8248; 8272]} /\
  exists n w', node_table_end (H0 := limited_bytes 3) 80 8 n (table_after 3 node_demo_ops) = Ok w' tt /\
    forall a m, ~ owned (bytes_heap_laws := limited_laws 3) (heap_of (world (pool w'))) a m.
Proof.
  split; [by vm_compute|].
  destruct (node_table_releases (H0 := limited_bytes 3) (bytes_heap_laws0 := limited_laws 3)
    plain_hasher false 80 8 ∅ _ node_demo_load node_demo_size
    (table_after_ok 3 _ node_demo_supported)) as [n Hn].
  destruct (Hn n (Nat.le_refl n)) as (w' & Hrun & Hown). exists n, w'. split; [done|].
  intros a m (q & g & _ & Hq & _)%Hown. by rewrite lookup_empty in Hq.
Defined.

(** ** Insertions that run out of memory *)

Section out_of_memory.
Context (blocks : nat).
#[local] Instance demo_cells : cell_pool demo_nodes := bulk_cell_pool (H0 := limited_bytes blocks).

(** Four entries fill the only chunk of the pool. *)
Definition filling_ops : list (map_op Z Z) :=
  [OpInsert 2 20; OpInsert 3 30; OpInsert 4 40; OpErase 4; OpInsert 5 50; OpInsert 4 40].

(** Inserts 1, erases 2 twice, inserts 2 and 1. *)
Definition after_failure : M (node_table Z Z demo_nodes) (Z * Z * bool * bool) :=
  a ← node_erase plain_hasher false 2; b ← node_erase plain_hasher false 2;
  r ← node_doInsert plain_hasher false 80 8 (2, 21); s ← node_doInsert plain_hasher false 80 8 (1, 10);
  mret (a, b, r.2, s.2).

Definition demo_insert (kv : Z * Z) : M (node_table Z Z demo_nodes) (nat * bool) :=
  node_doInsert plain_hasher false 80 8 kv.
Definition demo_emplace (kv : Z * Z) : M (node_table Z Z demo_nodes) (nat * bool) :=
  node_emplace plain_hasher false 80 8 kv.
End out_of_memory.

(** An insertion for which the pool has no cell leaves the table invalid, because the
    slots are moved before the cell is asked for: on a valid table of four entries without
    the key 1, after inserting 1 has failed the key 2 can be erased twice, and when 2 and 1
    are then inserted, both entries lie in the same cell. *)
Theorem failed_insert_shares_cell :
  let w0 := table_after 2 filling_ops in
  demo_node_ok 2 w0 /\ values (table_map (flat w0)) = {[2 := 20; 3 := 30; 4 := 40; 5 := 50]} /\
  exists w1 w2 c,
    demo_insert 2 (1, 10) w0 = Throw w1 bad_alloc /\
    after_failure 2 w1 = Ok w2 (1, 1, true, true) /\
    table_map (flat w2) !! 1 = Some (c, 10) /\ table_map (flat w2) !! 2 = Some (c, 21).
Proof.
  split; [|split; [by vm_compute|]].
  - apply table_after_ok. apply (bool_decide_unpack _). by vm_compute.
  - eexists _, _, _. split; [by vm_compute|]. split; [by vm_compute|]. split; by vm_compute.
Qed.

(** [emplace] constructs the entry before the insertion, and does not return its cell
    when the insertion throws: on an empty table whose pool was granted a chunk and whose
    block is not granted, the first cell of the chunk is neither an entry nor free. *)
Theorem failed_emplace_loses_cell :
  demo_node_ok 1 demo_node_table /\
  exists w1 b,
    demo_emplace 1 (1, 10) demo_node_table = Throw w1 bad_alloc /\
    mNumElements (flat w1) = 0 /\ pools (world (pool w1)) !! 0%nat = Some b /\
    linked (words (world (pool w1))) (mListForFree b) [4096] /\
    chunk_cells (sizeof_Ty := 24) (alignof_Ty := 8) (4096, 104) = [4104; 4128; 4152; 4176] /\
    linked (words (world (pool w1))) (mHead b) [4128; 4152; 4176].
Proof.
  split; [apply demo_node_table_ok|]. eexists _, _. split; [by vm_compute|].
  do 2 (split; [vm_compute; reflexivity|]). split; [|split; [by vm_compute|]]; by vm_compute.
Qed.
