(* ===== verification/UniquePtr.v ===== *)
(** * unique_ptr (include/smart_pointer.hpp)

    A unique pointer is a deleter and an address; the null pointer is 0.  What a deleter
    does belongs to the program: it is the class [deleter], with the laws [deleter_laws] of
    a deleter that destroys the resources it is made for.  The pointers of a program are the
    entries of a store, named by numbers; destroying a resource does not touch them.

    The account of a program says which resources it still owes to a deleter by itself: it
    obtained them and has not given them to a pointer, or a pointer released them. *)
From Stdlib Require Import ZArith Lia.
From stdpp Require Import base list gmap numbers.
From S2P Require Import Prelude Heap HeapTheorems BulkPool BulkPoolSpec HeapBlocks.
#[local] Open Scope Z_scope.

(** [default_deleter] is absent where the type is not default constructible.
    [moved_deleter] is what a move leaves.  [acquire] is how the program obtains a resource
    that the deleter disposes of. *)
Class deleter (D E : Type) := {
  enable_delete_null : bool;
  default_deleter : option D;
  dispose : D -> Z -> M E unit;
  moved_deleter : D -> D;
  acquire : D -> M E Z;
}.

(** [resources e m]: [m] holds the resources that exist, with their deleters. *)
Class deleter_laws (D E : Type) `{deleter D E} := {
  resources : E -> gmap Z D -> Prop;
  obtainable : D -> Prop;
  dispose_ok e m d p : resources e m -> m !! p = Some d ->
    exists e', dispose d p e = Ok e' tt /\ resources e' (delete p m);
  dispose_null e m d : enable_delete_null = true -> resources e m ->
    exists e', dispose d 0 e = Ok e' tt /\ resources e' m;
  resources_not_null e m : resources e m -> m !! 0 = None;
  acquire_ok e m d : resources e m -> obtainable d ->
    match acquire d e with
    | Ok e' p => m !! p = None /\ resources e' (<[p := d]> m)
    | Throw e' x => resources e' m /\ x = bad_alloc
    | Fault | Diverge => False
    end;
}.

(** [compressed_pair<deleter_type, pointer>]. *)
Record unique_object (D : Type) := UniqueObject { get_first : D; get_second : Z }.
Arguments UniqueObject {D}.
Arguments get_first {D}.
Arguments get_second {D}.

Record unique_world (D E : Type) := UniqueWorld { owners : gmap nat (unique_object D); env : E }.
Arguments UniqueWorld {D E}.
Arguments owners {D E}.
Arguments env {D E}.

Section unique_ptr.
Context {D E : Type} `{deleter D E}.
Abbreviation world := (unique_world D E).
Implicit Types (o other : nat) (p target : Z) (d : D) (x : unique_object D) (w : world).

Definition read_unique o : M world (unique_object D) := w ← get; access (owners w !! o).
Definition write_unique o x : M world unit :=
  modify (fun w => UniqueWorld (<[o := x]> (owners w)) (env w)).
Definition declare_unique o x : M world unit :=
  w ← get; match owners w !! o with None => write_unique o x | Some _ => fault end.
Definition remove_unique o : M world unit :=
  modify (fun w => UniqueWorld (delete o (owners w)) (env w)).

Definition on_env {A} (m : M E A) : M world A := fun w =>
  match m (env w) with
  | Ok e a => Ok (UniqueWorld (owners w) e) a
  | Throw e x => Throw (UniqueWorld (owners w) e) x
  | Fault => Fault
  | Diverge => Diverge
  end.

(** ** Member functions *)

(** [exchange(get_ref_to_ptr(), ptr)]. *)
Definition exchange_pointer o p : M world Z :=
  x ← read_unique o;
  _ ← write_unique o (UniqueObject (get_first x) p);
  mret (get_second x).

Definition call_deleter o target : M world unit :=
  x ← read_unique o; on_env (dispose (get_first x) target).

Definition release o : M world Z := exchange_pointer o 0.

Definition reset o p : M world unit :=
  noexcept (
    target ← exchange_pointer o p;
    if enable_delete_null then call_deleter o target
    else if negb (target =? 0) then call_deleter o target else mret tt).

(** [forward<deleter_type>(other.get_deleter())]. *)
Definition forward_deleter other : M world D :=
  x ← read_unique other;
  _ ← write_unique other (UniqueObject (moved_deleter (get_first x)) (get_second x));
  mret (get_first x).

Definition set_deleter o d : M world unit :=
  x ← read_unique o; write_unique o (UniqueObject d (get_second x)).

(** [unique_ptr()] and [unique_ptr(nullptr_t)]; [unique_ptr(pointer)]. *)
Definition unique_null o : M world unit :=
  d ← access default_deleter; declare_unique o (UniqueObject d 0).
Definition unique_of o p : M world unit :=
  d ← access default_deleter; declare_unique o (UniqueObject d p).
Definition unique_with o p d : M world unit := declare_unique o (UniqueObject d p).

Definition unique_move o other : M world unit :=
  d ← forward_deleter other;
  p ← release other;
  declare_unique o (UniqueObject d p).

(** The assignment from a pointer of another type does not compare the addresses. *)
Definition unique_convert_assign o other : M world unit :=
  p ← release other;
  _ ← reset o p;
  d ← forward_deleter other;
  set_deleter o d.

Definition unique_move_assign o other : M world unit :=
  if decide (other <> o) then unique_convert_assign o other else mret tt.

Definition unique_destroy o : M world unit := _ ← reset o 0; remove_unique o.

Definition get_unique o : M world Z := x ← read_unique o; mret (get_second x).

(** ** Comparisons *)

Definition to_bool (x : unique_object D) : bool := negb (get_second x =? 0).

Definition unique_eq (x y : unique_object D) : bool := get_second x =? get_second y.
Definition unique_ne (x y : unique_object D) : bool := negb (unique_eq x y).
Definition unique_lt (x y : unique_object D) : bool := get_second x <? get_second y.
Definition unique_gt (x y : unique_object D) : bool := unique_lt y x.
Definition unique_le (x y : unique_object D) : bool := negb (unique_gt x y).
Definition unique_ge (x y : unique_object D) : bool := negb (unique_lt x y).

(** With a null pointer on the right, and on the left. *)
Definition eq_null (x : unique_object D) : bool := negb (to_bool x).
Definition null_eq (x : unique_object D) : bool := negb (to_bool x).
Definition lt_null (x : unique_object D) : bool := get_second x <? 0.
Definition gt_null (x : unique_object D) : bool := 0 <? get_second x.
Definition null_lt (x : unique_object D) : bool := lt_null x.
Definition null_gt (x : unique_object D) : bool := gt_null x.
Definition le_null (x : unique_object D) : bool := negb (gt_null x).
Definition null_le (x : unique_object D) : bool := negb (null_gt x).
Definition ge_null (x : unique_object D) : bool := negb (lt_null x).
Definition null_ge (x : unique_object D) : bool := negb (null_lt x).

(** ** Programs *)

Inductive unique_op :=
  | UAcquire d
  | UNull o
  | UOf o p
  | UWith o p d
  | UMove o other
  | UMoveAssign o other
  | UConvertAssign o other
  | UReset o p
  | URelease o
  | UGet o
  | UDestroy o.

Definition run_unique_op (op : unique_op) : M world Z :=
  match op with
  | UAcquire d => on_env (acquire d)
  | UNull o => _ ← unique_null o; mret 0
  | UOf o p => _ ← unique_of o p; mret 0
  | UWith o p d => _ ← unique_with o p d; mret 0
  | UMove o other => _ ← unique_move o other; mret 0
  | UMoveAssign o other => _ ← unique_move_assign o other; mret 0
  | UConvertAssign o other => _ ← unique_convert_assign o other; mret 0
  | UReset o p => _ ← reset o p; mret 0
  | URelease o => release o
  | UGet o => get_unique o
  | UDestroy o => _ ← unique_destroy o; mret 0
  end.

End unique_ptr.

(** ** The account

    A resource belongs to one pointer, which has its deleter, or the program owes it to its
    deleter. *)

Section account.
Context {D : Type}.
Implicit Types (m L : gmap Z D) (s : gmap nat (unique_object D)).

Record owned m s L : Prop := {
  own_null : m !! 0 = None;
  own_deleter o x : s !! o = Some x -> get_second x <> 0 ->
    m !! get_second x = Some (get_first x) /\ L !! get_second x = None;
  own_once o o' x x' : s !! o = Some x -> s !! o' = Some x' ->
    get_second x = get_second x' -> get_second x <> 0 -> o = o';
  own_loose p d : L !! p = Some d -> m !! p = Some d;
  own_all p d : m !! p = Some d -> L !! p = Some d \/ exists o x, s !! o = Some x /\ get_second x = p;
}.

Definition owe (p : Z) (d : D) L : gmap Z D := if p =? 0 then L else <[p := d]> L.

Definition payable (p : Z) (d : D) L : Prop := p = 0 \/ L !! p = Some d.

Definition slot_free s (o : nat) : Prop := forall x, s !! o = Some x -> get_second x = 0.

Lemma owned_loose_null m s L : owned m s L -> L !! 0 = None.
Proof.
  intros [Hn _ _ Hl _]. destruct (L !! 0) as [d|] eqn:E; [|done]. apply Hl in E. congruence.
Qed.

Lemma delete_owe m s L p d : owned m s L -> L !! p = None -> delete p (owe p d L) = L.
Proof.
  intros Ho Hp. unfold owe. destruct (Z.eqb_spec p 0); [|by rewrite delete_insert_id].
  by apply delete_id.
Qed.

Lemma owned_take m s L o x d :
  owned m s L -> s !! o = Some x ->
  owned m (<[o := UniqueObject d 0]> s) (owe (get_second x) (get_first x) L).
Proof.
  intros [Hn Hd Ho Hl Ha] Hx. unfold owe. destruct (Z.eqb_spec (get_second x) 0) as [E|E]; split; try done.
  - intros o' y [[<- <-]|[? Hy]]%lookup_insert_Some Hy0; [done|by eapply Hd].
  - intros o1 o2 y1 y2 [[<- <-]|[? H1]]%lookup_insert_Some [[<- <-]|[? H2]]%lookup_insert_Some;
      cbn; try congruence. by eapply Ho.
  - intros p d' Hp. destruct (Ha p d' Hp) as [|(o' & y & Hy & <-)]; [by left|].
    destruct (decide (o' = o)) as [->|]; [|right; exists o', y; by rewrite lookup_insert_ne].
    assert (y = x) as -> by congruence. congruence.
  - intros o' y [[<- <-]|[Hne Hy]]%lookup_insert_Some Hy0; [done|]. destruct (Hd _ _ Hy Hy0).
    split; [done|]. rewrite lookup_insert_ne; [done|]. intros E'. by destruct Hne; eapply Ho.
  - intros o1 o2 y1 y2 [[<- <-]|[? H1]]%lookup_insert_Some [[<- <-]|[? H2]]%lookup_insert_Some;
      cbn; try congruence. by eapply Ho.
  - intros p d' [[<- <-]|[? Hp]]%lookup_insert_Some; [by apply Hd in Hx as [? _]|by apply Hl].
  - intros p d' Hp. destruct (decide (get_second x = p)) as [<-|Hne].
    + left. rewrite lookup_insert_eq. apply Hd in Hx as [Hx _]; congruence.
    + destruct (Ha p d' Hp) as [|(o' & y & Hy & <-)]; [left; by rewrite lookup_insert_ne|].
      right. exists o', y. rewrite lookup_insert_ne; [done|]. intros ->. congruence.
Qed.

Lemma owned_give m s L o p d :
  owned m s L -> slot_free s o -> payable p d L ->
  owned m (<[o := UniqueObject d p]> s) (delete p L).
Proof.
  intros Hown Hfree Hp. pose proof (owned_loose_null _ _ _ Hown) as HL0.
  destruct Hown as [Hn Hd Ho Hl Ha]. unfold payable in Hp. split; try done.
  - intros o' y [[<- <-]|[Hne Hy]]%lookup_insert_Some Hy0; cbn in *.
    + destruct Hp as [|Hp]; [done|]. split; [by apply Hl|apply lookup_delete_eq].
    + destruct (Hd _ _ Hy Hy0) as [? Hno]. split; [done|]. by apply lookup_delete_None; right.
  - intros o1 o2 y1 y2 [[<- <-]|[? H1]]%lookup_insert_Some [[<- <-]|[? H2]]%lookup_insert_Some; cbn;
      [done| | |by eapply Ho].
    + intros E E0. destruct (Hd _ _ H2) as [_ Hno]; [congruence|]. destruct Hp; congruence.
    + intros E E0. destruct (Hd _ _ H1) as [_ Hno]; [congruence|]. destruct Hp; congruence.
  - intros q d' [_ Hq]%lookup_delete_Some. by apply Hl.
  - intros q d' Hq. destruct (decide (p = q)) as [<-|Hne].
    + right. exists o, (UniqueObject d p). by rewrite lookup_insert_eq.
    + destruct (Ha q d' Hq) as [|(o' & y & Hy & <-)]; [left; by rewrite lookup_delete_ne|].
      right. exists o', y. rewrite lookup_insert_ne; [done|]. intros <-.
      rewrite (Hfree _ Hy) in Hq. congruence.
Qed.

Lemma owned_dispose m s L p d :
  owned m s L -> payable p d L -> owned (delete p m) s (delete p L).
Proof.
  intros Hown Hp. pose proof (owned_loose_null _ _ _ Hown) as HL0.
  destruct Hown as [Hn Hd Ho Hl Ha]. destruct Hp as [->|Hp]; [by rewrite !delete_id by done|].
  split; try done.
  - by apply lookup_delete_None; right.
  - intros o x Hx Hx0. destruct (Hd _ _ Hx Hx0) as [? Hno].
    rewrite !lookup_delete_ne by congruence. done.
  - intros q d' [? Hq]%lookup_delete_Some. rewrite lookup_delete_ne by done. by apply Hl.
  - intros q d' [? Hq]%lookup_delete_Some. rewrite lookup_delete_ne by done. by apply Ha.
Qed.

Lemma owned_acquire m s L p d :
  owned m s L -> p <> 0 -> m !! p = None -> owned (<[p := d]> m) s (<[p := d]> L).
Proof.
  intros [Hn Hd Ho Hl Ha] Hp Hnew. split; try done.
  - by rewrite lookup_insert_ne.
  - intros o x Hx Hx0. destruct (Hd _ _ Hx Hx0). rewrite !lookup_insert_ne by congruence. done.
  - intros q d' [[<- <-]|[? Hq]]%lookup_insert_Some; [by rewrite lookup_insert_eq|].
    rewrite lookup_insert_ne by done. by apply Hl.
  - intros q d' [[<- <-]|[? Hq]]%lookup_insert_Some; [left; by rewrite lookup_insert_eq|].
    rewrite lookup_insert_ne by done. by apply Ha.
Qed.

Lemma owned_remove m s L o : owned m s L -> slot_free s o -> owned m (delete o s) L.
Proof.
  intros [Hn Hd Ho Hl Ha] Hfree. split; try done.
  - intros o' x [_ Hx]%lookup_delete_Some. by apply (Hd o').
  - intros o1 o2 x1 x2 [_ H1]%lookup_delete_Some [_ H2]%lookup_delete_Some. by eapply Ho.
  - intros p d Hp. destruct (Ha p d Hp) as [|(o' & y & Hy & <-)]; [by left|].
    right. exists o', y. rewrite lookup_delete_ne; [done|]. intros <-.
    rewrite (Hfree _ Hy) in Hp. congruence.
Qed.

Lemma slot_free_new s o : s !! o = None -> slot_free s o.
Proof. intros E x Hx. congruence. Qed.

Lemma slot_free_null s o d : slot_free (<[o := UniqueObject d 0]> s) o.
Proof. intros x. rewrite lookup_insert_eq. by intros [= <-]. Qed.
End account.

(** ** Effects *)

Section effects.
Context {D E : Type} `{DL : deleter_laws D E}.
Implicit Types (o other : nat) (p : Z) (d : D) (x : unique_object D) (w : unique_world D E)
  (m L : gmap Z D).

Definition account w L : Prop := exists m, resources (env w) m /\ owned m (owners w) L.

Lemma read_unique_ok w o x : owners w !! o = Some x -> read_unique o w = Ok w x.
Proof. intros E1. unfold read_unique, get, mbind, M_bind. by rewrite E1. Qed.

Lemma declare_unique_ok w o x :
  owners w !! o = None -> declare_unique o x w = Ok (UniqueWorld (<[o := x]> (owners w)) (env w)) tt.
Proof. intros E1. unfold declare_unique, get, mbind, M_bind. by rewrite E1. Qed.

Lemma unique_of_ok w o p d :
  default_deleter = Some d -> owners w !! o = None ->
  unique_of o p w = Ok (UniqueWorld (<[o := UniqueObject d p]> (owners w)) (env w)) tt.
Proof. intros Hd Ho. unfold unique_of. rewrite Hd. cbn -[declare_unique]. by apply declare_unique_ok. Qed.

Lemma exchange_ok w o x p :
  owners w !! o = Some x ->
  exchange_pointer o p w =
  Ok (UniqueWorld (<[o := UniqueObject (get_first x) p]> (owners w)) (env w)) (get_second x).
Proof. intros E1. unfold exchange_pointer. by step (read_unique_ok _ _ _ E1). Qed.

(** [reset] disposes of the old resource with the pointer's deleter; a null pointer is
    given to the deleter only where the deleter allows it. *)
Lemma unique_reset_ok w o x p m :
  owners w !! o = Some x -> resources (env w) m ->
  (get_second x <> 0 -> m !! get_second x = Some (get_first x)) ->
  exists e, reset o p w = Ok (UniqueWorld (<[o := UniqueObject (get_first x) p]> (owners w)) e) tt /\
    resources e (delete (get_second x) m).
Proof.
  intros Hx Hm Hold. unfold reset, noexcept. step (exchange_ok _ _ _ p Hx).
  set (w1 := UniqueWorld _ _).
  assert (owners w1 !! o = Some (UniqueObject (get_first x) p)) as Hx1 by apply lookup_insert_eq.
  assert (forall e', dispose (get_first x) (get_second x) (env w) = Ok e' tt ->
    call_deleter o (get_second x) w1 = Ok (UniqueWorld (owners w1) e') tt) as Hcall.
  { intros e' He. unfold call_deleter. step (read_unique_ok _ _ _ Hx1). unfold on_env. cbn. by rewrite He. }
  destruct (Z.eqb_spec (get_second x) 0) as [E0|E0]; cbn [negb].
  - rewrite E0 in *. rewrite (delete_id m 0) by (by eapply resources_not_null).
    destruct enable_delete_null eqn:En; [|by exists (env w)].
    destruct (dispose_null _ _ (get_first x) En Hm) as (e' & He & Hm'). exists e'. by rewrite (Hcall _ He).
  - destruct (dispose_ok _ _ _ _ Hm (Hold E0)) as (e' & He & Hm'). exists e'.
    destruct enable_delete_null; by rewrite (Hcall _ He).
Qed.

Lemma unique_move_ok w o other x :
  owners w !! o = None -> owners w !! other = Some x ->
  unique_move o other w =
  Ok (UniqueWorld (<[o := x]> (<[other := UniqueObject (moved_deleter (get_first x)) 0]> (owners w)))
        (env w)) tt.
Proof.
  intros Ho Hx. unfold unique_move, forward_deleter, release.
  rewrite (bind_Ok _ _ w (UniqueWorld (<[other := UniqueObject (moved_deleter (get_first x)) (get_second x)]> (owners w)) (env w)) (get_first x));
    [|by step (read_unique_ok _ _ _ Hx)].
  rewrite (bind_Ok _ _ _ _ _ (exchange_ok _ other _ 0 (lookup_insert_eq _ _ _))).
  cbn [owners env get_first get_second]. rewrite insert_insert_eq, declare_unique_ok.
  - by destruct x.
  - cbn. rewrite lookup_insert_ne; [done|]. by intros <-; congruence.
Qed.

Lemma unique_convert_assign_ok w o other x y m :
  o <> other -> owners w !! o = Some x -> owners w !! other = Some y -> resources (env w) m ->
  (get_second x <> 0 -> m !! get_second x = Some (get_first x)) ->
  exists e, unique_convert_assign o other w =
      Ok (UniqueWorld (<[o := y]> (<[other := UniqueObject (moved_deleter (get_first y)) 0]> (owners w))) e) tt /\
    resources e (delete (get_second x) m).
Proof.
  intros Hne Hx Hy Hm Hold. unfold unique_convert_assign, release. step (exchange_ok _ _ _ 0 Hy).
  set (w1 := UniqueWorld _ _).
  destruct (unique_reset_ok w1 o x (get_second y) m) as (e & Hr & Hm'); [|done|done|].
  { cbn. by rewrite lookup_insert_ne. }
  exists e. split; [|done]. step Hr. cbn [w1 owners]. set (s := <[other := _]> (owners w)).
  unfold forward_deleter, set_deleter.
  rewrite (bind_Ok _ _ _ (UniqueWorld (<[other := UniqueObject (moved_deleter (get_first y)) 0]>
    (<[o := UniqueObject (get_first x) (get_second y)]> s)) e) (get_first y)).
  2:{ erewrite bind_Ok; [|apply (read_unique_ok _ other (UniqueObject (get_first y) 0)); cbn].
      - done.
      - subst s. by rewrite lookup_insert_ne, lookup_insert_eq. }
  erewrite bind_Ok; [|apply (read_unique_ok _ o (UniqueObject (get_first x) (get_second y))); cbn].
  - unfold write_unique, modify. cbn. do 2 f_equal. subst s. apply map_eq. intros i.
    destruct (decide (i = o)) as [->|]; [by rewrite !lookup_insert_eq; destruct y|].
    destruct (decide (i = other)) as [->|]; rewrite ?(lookup_insert_ne _ o) by done;
      rewrite ?lookup_insert_eq; [done|]. by rewrite !lookup_insert_ne.
  - by rewrite lookup_insert_ne, lookup_insert_eq.
Qed.
End effects.

(** ** Programs keep the account *)

Section programs.
Context {D E : Type} `{DL : deleter_laws D E}.
Implicit Types (o other : nat) (p r : Z) (d : D) (x : unique_object D) (w : unique_world D E)
  (m L : gmap Z D).

(** What an operation asks of its caller: a pointer takes over a resource that the program
    owes to the pointer's own deleter. *)
Definition unique_op_ok (op : unique_op) w L : Prop :=
  match op with
  | UAcquire d => obtainable d
  | UNull o => owners w !! o = None /\ is_Some default_deleter
  | UOf o p => owners w !! o = None /\ exists d, default_deleter = Some d /\ payable p d L
  | UWith o p d => owners w !! o = None /\ payable p d L
  | UMove o other => owners w !! o = None /\ is_Some (owners w !! other)
  | UMoveAssign o other => is_Some (owners w !! o) /\ is_Some (owners w !! other)
  | UConvertAssign o other => o <> other /\ is_Some (owners w !! o) /\ is_Some (owners w !! other)
  | UReset o p => exists x, owners w !! o = Some x /\ payable p (get_first x) L
  | URelease o | UGet o | UDestroy o => is_Some (owners w !! o)
  end.

(** What the program owes after an operation on [w] that returned [r]. *)
Definition owed_after (op : unique_op) w r L : gmap Z D :=
  match op with
  | UAcquire d => <[r := d]> L
  | UOf _ p | UWith _ p _ | UReset _ p => delete p L
  | URelease o => if owners w !! o is Some x then owe r (get_first x) L else L
  | _ => L
  end.

Inductive unique_reachable (w0 : unique_world D E) : unique_world D E -> gmap Z D -> Prop :=
  | unique_start : unique_reachable w0 w0 ∅
  | unique_step op w L w' r :
      unique_reachable w0 w L -> unique_op_ok op w L -> run_unique_op op w = Ok w' r ->
      unique_reachable w0 w' (owed_after op w r L)
  | unique_refused op w L w' :
      unique_reachable w0 w L -> unique_op_ok op w L -> run_unique_op op w = Throw w' bad_alloc ->
      unique_reachable w0 w' L.

(** An operation returns and keeps the account, or it is refused a resource. *)
Definition keeps op w L : Prop :=
  match run_unique_op op w with
  | Ok w' r => account w' (owed_after op w r L)
  | Throw w' x => account w' L /\ x = bad_alloc /\ exists d, op = UAcquire d
  | Fault | Diverge => False
  end.

Lemma old_resource m w L o x :
  owned m (owners w) L -> owners w !! o = Some x ->
  get_second x <> 0 -> m !! get_second x = Some (get_first x).
Proof. intros Hown Hx Hx0. by destruct (own_deleter _ _ _ Hown _ _ Hx Hx0). Qed.

(** What a pointer held may be given back once it is taken from the pointer. *)
Lemma taken_payable m w L o x d :
  owned m (owners w) L -> owners w !! o = Some x ->
  payable (get_second x) (get_first x) (owe (get_second x) (get_first x) L) /\
  owned m (<[o := UniqueObject d 0]> (owners w)) (owe (get_second x) (get_first x) L) /\
  delete (get_second x) (owe (get_second x) (get_first x) L) = L.
Proof.
  intros Hown Hx. split; [|split; [by apply owned_take|]].
  - unfold payable, owe. destruct (Z.eqb_spec (get_second x) 0); [by left|right; apply lookup_insert_eq].
  - apply (delete_owe m (owners w)); [done|]. destruct (decide (get_second x = 0)) as [->|E0].
    + by eapply owned_loose_null.
    + by destruct (own_deleter _ _ _ Hown _ _ Hx E0).
Qed.

Lemma keeps_acquire d w L : unique_op_ok (UAcquire d) w L -> account w L -> keeps (UAcquire d) w L.
Proof.
  intros Hd (m & Hm & Hown). unfold keeps. cbn [run_unique_op]. unfold on_env.
  pose proof (acquire_ok (env w) m d Hm Hd) as Ha.
  destruct (acquire d (env w)) as [e p|e x| |]; try done.
  - destruct Ha as [Hnew He]. exists (<[p := d]> m). split; [done|]. apply owned_acquire; [done| |done].
    intros ->. apply resources_not_null in He. by rewrite lookup_insert_eq in He.
  - destruct Ha as [He ->]. split; [by exists m|]. by eauto.
Qed.

Lemma keeps_new w L o p d :
  account w L -> owners w !! o = None -> payable p d L ->
  account (UniqueWorld (<[o := UniqueObject d p]> (owners w)) (env w)) (delete p L).
Proof.
  intros (m & Hm & Hown) Ho Hp. exists m. split; [done|].
  apply owned_give; [done|by apply slot_free_new|done].
Qed.

Lemma keeps_move w L o other x d :
  account w L -> owners w !! o = None -> owners w !! other = Some x ->
  account (UniqueWorld (<[o := x]> (<[other := UniqueObject d 0]> (owners w))) (env w)) L.
Proof.
  intros (m & Hm & Hown) Ho Hx. exists m. split; [done|]. cbn [owners].
  destruct (taken_payable m w L other x d Hown Hx) as (Hp & Ht & Hback).
  destruct x as [dx px]. cbn [get_first get_second] in *.
  assert (slot_free (<[other := UniqueObject d 0]> (owners w)) o) as Hfree.
  { apply slot_free_new. rewrite lookup_insert_ne; [done|]. by intros <-; congruence. }
  pose proof (owned_give _ _ _ _ _ _ Ht Hfree Hp) as Hfin. by rewrite Hback in Hfin.
Qed.

(** The resource of [o] is disposed of and [o] takes over another one that the program owes. *)
Lemma owned_replaced m w L o x p d :
  owned m (owners w) L -> owners w !! o = Some x -> payable p d L ->
  owned (delete (get_second x) m) (<[o := UniqueObject d p]> (owners w)) (delete p L).
Proof.
  intros Hown Hx Hp.
  destruct (taken_payable m w L o x d Hown Hx) as (Hpay & Ht & Hback).
  pose proof (owned_dispose _ _ _ _ _ Ht Hpay) as Hd. rewrite Hback in Hd.
  rewrite <- (insert_insert_eq (owners w) o (UniqueObject d p) (UniqueObject d 0)).
  apply owned_give; [done|apply slot_free_null|done].
Qed.

Lemma keeps_reset w L o x p :
  account w L -> owners w !! o = Some x -> payable p (get_first x) L ->
  exists e, reset o p w = Ok (UniqueWorld (<[o := UniqueObject (get_first x) p]> (owners w)) e) tt /\
    account (UniqueWorld (<[o := UniqueObject (get_first x) p]> (owners w)) e) (delete p L).
Proof.
  intros (m & Hm & Hown) Hx Hp.
  destruct (unique_reset_ok w o x p m Hx Hm) as (e & Hr & He); [by eapply old_resource|].
  exists e. split; [done|]. exists (delete (get_second x) m). split; [done|]. by apply owned_replaced.
Qed.

Lemma keeps_convert_assign w L o other x y :
  account w L -> o <> other -> owners w !! o = Some x -> owners w !! other = Some y ->
  exists w', unique_convert_assign o other w = Ok w' tt /\ account w' L.
Proof.
  intros (m & Hm & Hown) Hne Hx Hy.
  destruct (unique_convert_assign_ok w o other x y m Hne Hx Hy Hm) as (e & Hr & He); [by eapply old_resource|].
  eexists. split; [done|]. exists (delete (get_second x) m). split; [done|]. cbn [owners].
  destruct (taken_payable m w L other y (moved_deleter (get_first y)) Hown Hy) as (Hp & Ht & Hback).
  destruct y as [dy py]. cbn [get_first get_second] in *.
  pose proof (owned_replaced m (UniqueWorld (<[other := UniqueObject (moved_deleter dy) 0]> (owners w)) e)
    _ o x py dy Ht) as Hfin.
  cbn [owners] in Hfin. rewrite Hback in Hfin. apply Hfin; [|done]. by rewrite lookup_insert_ne.
Qed.

Lemma keeps_op op w L : account w L -> unique_op_ok op w L -> keeps op w L.
Proof.
  intros Hacc Hok. unfold keeps.
  destruct op as [d|o|o p|o p d|o other|o other|o other|o p|o|o|o]; cbn [unique_op_ok run_unique_op owed_after] in *.
  - by apply (keeps_acquire d w L).
  - destruct Hok as [Ho [d Hd]]. rewrite (bind_Ok _ _ _ _ _ (unique_of_ok w o 0 d Hd Ho)).
    rewrite <- (delete_id L 0) by (destruct Hacc as (m & _ & Hown); by eapply owned_loose_null).
    apply keeps_new; [done..|by left].
  - destruct Hok as (Ho & d & Hd & Hp). rewrite (bind_Ok _ _ _ _ _ (unique_of_ok w o p d Hd Ho)).
    by apply keeps_new.
  - destruct Hok as [Ho Hp]. unfold unique_with.
    rewrite (bind_Ok _ _ _ _ _ (declare_unique_ok _ _ _ Ho)). cbn. by apply keeps_new.
  - destruct Hok as [Ho [x Hx]]. rewrite (bind_Ok _ _ _ _ _ (unique_move_ok _ _ _ _ Ho Hx)).
    by apply keeps_move.
  - destruct Hok as [[x Hx] [y Hy]]. unfold unique_move_assign.
    destruct (decide (other <> o)) as [Hne|]; [|done].
    destruct (keeps_convert_assign w L o other x y Hacc) as (w' & Hr & Hw'); [congruence|done..|].
    by rewrite (bind_Ok _ _ _ _ _ Hr).
  - destruct Hok as (Hne & [x Hx] & [y Hy]).
    destruct (keeps_convert_assign w L o other x y Hacc) as (w' & Hr & Hw'); [done..|].
    by rewrite (bind_Ok _ _ _ _ _ Hr).
  - destruct Hok as (x & Hx & Hp). destruct (keeps_reset w L o x p Hacc Hx Hp) as (e & Hr & He).
    by rewrite (bind_Ok _ _ _ _ _ Hr).
  - destruct Hok as [x Hx]. unfold release. rewrite (exchange_ok _ _ _ 0 Hx), Hx.
    destruct Hacc as (m & Hm & Hown). exists m. split; [done|]. by apply owned_take.
  - destruct Hok as [x Hx]. unfold get_unique. rewrite (bind_Ok _ _ _ _ _ (read_unique_ok _ _ _ Hx)). done.
  - destruct Hok as [x Hx]. unfold unique_destroy.
    destruct (keeps_reset w L o x 0 Hacc Hx) as (e & Hr & m & Hm & Hown); [by left|].
    erewrite bind_Ok; [|by rewrite (bind_Ok _ _ _ _ _ Hr)]. cbn in *.
    rewrite (delete_id L 0) in Hown by (destruct Hacc as (m' & _ & Hown'); by eapply owned_loose_null).
    exists m. split; [done|]. apply owned_remove; [done|apply slot_free_null].
Qed.

Lemma unique_account_reached w0 w L :
  owners w0 = ∅ -> resources (env w0) ∅ -> unique_reachable w0 w L -> account w L.
Proof.
  intros Hw0 He0. induction 1 as [|op w L w' r _ IH Hok Hr|op w L w' _ IH Hok Hr].
  - exists ∅. split; [done|]. rewrite Hw0. by split.
  - pose proof (keeps_op op w L IH Hok) as Hk. unfold keeps in Hk. by rewrite Hr in Hk.
  - pose proof (keeps_op op w L IH Hok) as Hk. unfold keeps in Hk. rewrite Hr in Hk. by destruct Hk.
Qed.
End programs.

(** ** make_alloc_temporary_guard

    The guard that a container keeps around memory it has just allocated: its deleter
    returns the memory to the allocator, here one of the allocators of the library. *)

Section alloc_guard.
Context `{K : kernel_heap} `{P : heap_program} (tag : new_tag) (sizeof_value : Z).
Implicit Types (s : heap_state) (p count : Z) (m : gmap Z Z).

(** [alloc_temporary_guard_delete]: the allocator and [count]. *)
Definition alloc_temporary_guard_delete count p : M heap_state unit :=
  deallocate sizeof_value (byte_allocator tag) p count.

#[local] Instance alloc_guard : deleter Z heap_state := {
  enable_delete_null := false;
  default_deleter := None;
  dispose := alloc_temporary_guard_delete;
  moved_deleter := fun count => count;
  acquire := fun count => Heap.allocate sizeof_value (byte_allocator tag) count 1;
}.

(** [make_alloc_temporary_guard]. *)
Definition make_alloc_temporary_guard (o : nat) p count : M (unique_world Z heap_state) unit :=
  unique_with o p count.

(** The blocks in use are those of the guards' resources. *)
Definition guarded_blocks s m : Prop :=
  heap_ready s /\
  forall p k, block_owned s p k <-> exists count, m !! p = Some count /\ k = u64 (count * sizeof_value).

Lemma guarded_block s m p count :
  guarded_blocks s m -> m !! p = Some count -> block_owned s p (u64 (count * sizeof_value)).
Proof. intros [_ Hb] Hp. apply Hb. by exists count. Qed.

Lemma guard_dispose s m count p :
  guarded_blocks s m -> m !! p = Some count ->
  exists s', alloc_temporary_guard_delete count p s = Ok s' tt /\ guarded_blocks s' (delete p m).
Proof.
  intros Hg Hp. pose proof (guarded_block _ _ _ _ Hg Hp) as Hblock. destruct Hg as [Hs Hb].
  destruct (heap_free_ok tag s p _ (u64 (count * sizeof_value)) Hs Hblock) as (s' & Hr & Hs' & Hb').
  exists s'. split; [done|]. split; [done|]. intros q k. rewrite Hb', Hb.
  setoid_rewrite lookup_delete_Some. split.
  - intros [Hne (c & Hc & ->)]. by exists c.
  - intros (c & [Hne Hc] & ->). split; [done|]. by exists c.
Qed.

Lemma guard_not_null s m : guarded_blocks s m -> m !! 0 = None.
Proof.
  intros Hg. destruct (m !! 0) as [count|] eqn:E; [|done].
  pose proof (guarded_block _ _ _ _ Hg E) as [Hl _]. destruct Hg as ((_ & _ & Hnull & _) & _).
  by apply Hnull in Hl.
Qed.

Lemma guard_acquire s m count :
  guarded_blocks s m -> 0 < u64 (count * sizeof_value) ->
  match Heap.allocate sizeof_value (byte_allocator tag) count 1 s with
  | Ok s' p => m !! p = None /\ guarded_blocks s' (<[p := count]> m)
  | Throw s' x => guarded_blocks s' m /\ x = bad_alloc
  | Fault | Diverge => False
  end.
Proof.
  intros Hg Hpos. destruct (Hg) as [Hs Hb]. unfold Heap.allocate.
  pose proof (wrap_range 64 (count * sizeof_value) ltac:(lia)) as Hrange.
  pose proof (heap_alloc_ok tag s (u64 (count * sizeof_value)) Hs ltac:(lia)) as Ha.
  destruct (Heap.allocate_bytes _ _ 1 s) as [s' p|s' x| |]; try done; [|by destruct Ha as [-> ->]].
  destruct Ha as (Hs' & _ & _ & Hnew & Hb').
  assert (m !! p = None) as Hp.
  { destruct (m !! p) as [c|] eqn:E; [|done]. destruct (Hnew _ (guarded_block _ _ _ _ Hg E)). }
  split; [done|]. split; [done|]. intros q k. rewrite Hb', Hb.
  setoid_rewrite lookup_insert_Some. split.
  - intros [[-> ->]|(c & Hc & ->)]; [by exists count; auto|]. exists c. split; [|done].
    right. split; [congruence|done].
  - intros (c & [[<- <-]|[Hne Hc]] & ->); [by left|]. right. by exists c.
Qed.

#[local] Instance alloc_guard_laws : deleter_laws Z heap_state := {
  resources := guarded_blocks;
  obtainable count := 0 < u64 (count * sizeof_value);
  dispose_ok s m count p Hm Hp := guard_dispose s m count p Hm Hp;
  dispose_null s m count E := ltac:(done);
  resources_not_null := guard_not_null;
  acquire_ok s m count Hm Hc := guard_acquire s m count Hm Hc;
}.
End alloc_guard.

(** ** Properties *)

Section theorems.
Context {D E : Type} `{DL : deleter_laws D E}.
Implicit Types (o other : nat) (x y : unique_object D) (w : unique_world D E) (L : gmap Z D).

(** C7: A program that starts without resources and gives every resource to at most one
    pointer with the right deleter: each operation returns, or is a request for a resource
    that is refused; every resource that exists is owned by exactly one pointer or is still
    owed by the program, so that none is destroyed twice; once all pointers are gone exactly
    the resources that the program owes remain. *)
Theorem unique_pointers_own w0 w L :
  owners w0 = ∅ -> resources (env w0) ∅ -> unique_reachable w0 w L ->
  account w L /\
  (owners w = ∅ -> resources (env w) L) /\
  forall op, unique_op_ok op w L ->
    (exists w' r, run_unique_op op w = Ok w' r /\ account w' (owed_after op w r L)) \/
    (exists d w', op = UAcquire d /\ run_unique_op op w = Throw w' bad_alloc /\ account w' L).
Proof.
  intros Hw0 He0 Hreach.
  pose proof (unique_account_reached w0 w L Hw0 He0 Hreach) as Hacc.
  split; [done|]. split.
  - intros Hnone. destruct Hacc as (m & Hm & [_ _ _ Hl Ha]).
    assert (m = L) as <-; [|done]. apply map_eq. intros p. apply option_eq. intros d. split; [|by apply Hl].
    intros [|(o & x & Hx & _)]%Ha; [done|]. rewrite Hnone in Hx. by rewrite lookup_empty in Hx.
  - intros op Hok. pose proof (keeps_op op w L Hacc Hok) as Hk. unfold keeps in Hk.
    destruct (run_unique_op op w) as [w' r|w' e| |]; [left; by eauto| |done..].
    right. destruct Hk as (Hw' & -> & d & ->). by eauto.
Qed.

(** Move assignment between different pointers: the target disposes of what it owned with
    its own deleter and takes over address and deleter of the source, which is left null; a
    pointer that is assigned to itself keeps what it has. *)
Theorem unique_move_assign_replaces w L o other x y :
  account w L -> owners w !! o = Some x -> owners w !! other = Some y ->
  unique_move_assign o o w = Ok w tt /\
  (o <> other -> exists m e, resources (env w) m /\ resources e (delete (get_second x) m) /\
    unique_move_assign o other w =
      Ok (UniqueWorld (<[o := y]> (<[other := UniqueObject (moved_deleter (get_first y)) 0]> (owners w))) e) tt).
Proof.
  intros (m & Hm & Hown) Hx Hy. unfold unique_move_assign.
  split; [by destruct (decide (o <> o))|]. intros Hne.
  destruct (decide (other <> o)) as [_|Hno]; [|by destruct Hno].
  destruct (unique_convert_assign_ok w o other x y m Hne Hx Hy Hm) as (e & Hr & He); [by eapply old_resource|].
  by exists m, e.
Qed.
End theorems.

(** A pointer that is not null compares greater than nullptr, as [ptr > nullptr] says, but
    nullptr is not less than it: the operators with nullptr on the left return those with
    nullptr on the right, and all four ordered ones are wrong for it. *)
Theorem nullptr_on_the_left {D} (x : unique_object D) :
  0 < get_second x ->
  (gt_null x = true /\ ge_null x = true /\ lt_null x = false /\ le_null x = false) /\
  (null_lt x = false /\ null_le x = false /\ null_gt x = true /\ null_ge x = true).
Proof.
  intros Hx. unfold null_le, null_ge, null_lt, null_gt, le_null, ge_null, gt_null, lt_null.
  destruct (Z.ltb_spec 0 (get_second x)); [|lia]. destruct (Z.ltb_spec (get_second x) 0); [lia|]. done.
Qed.

(** ** Instances: guards of 16-byte objects *)

#[local] Existing Instances demo_pool demo_program.
#[local] Instance demo_guard : deleter Z heap_state := alloc_guard paged_new 16.
#[local] Instance demo_guard_laws : deleter_laws Z heap_state := alloc_guard_laws paged_new 16.

Definition demo_start : unique_world Z heap_state := UniqueWorld ∅ demo_heap.

Lemma demo_heap_empty : resources (env demo_start) ∅.
Proof.
  change (guarded_blocks 16 demo_heap ∅). split.
  - split; [done|]. split; [done|]. split; [intros a nt; cbn [live demo_heap]; by rewrite lookup_empty|].
    intros a b n m t u. cbn [live demo_heap]. by rewrite lookup_empty.
  - intros p k. split; [intros [Hl _]|intros (c & Hc & _)]; [cbn [live demo_heap] in Hl|]; by rewrite lookup_empty in *.
Qed.

Definition demo_guarded : unique_world Z heap_state :=
  match run_unique_op (UAcquire 3) demo_start with
  | Ok w p => match run_unique_op (UWith 0 p 3) w with Ok w' _ => w' | _ => demo_start end
  | _ => demo_start
  end.

Lemma demo_reached : unique_reachable demo_start demo_guarded (delete 4096 (<[4096 := 3]> ∅)).
Proof.
  set (w := @UniqueWorld Z heap_state ∅ (HeapState {[4096 := (48, DEFAULT_HEAP_TAG)]} 0 None)).
  apply (unique_step demo_start (UWith 0 4096 3) w (<[4096 := 3]> ∅) demo_guarded 0).
  - apply (unique_step demo_start (UAcquire 3) demo_start ∅ w 4096); [constructor|vm_compute; done|by vm_compute].
  - split; [done|]. right. apply lookup_insert_eq.
  - by vm_compute.
Qed.

Lemma unique_pointers_own_witness :
  account demo_guarded (delete 4096 (<[4096 := 3]> ∅)) /\
  exists w r, run_unique_op (UDestroy 0) demo_guarded = Ok w r /\ live (env w) = ∅.
Proof.
  split; [|eexists _, _; split; [vm_compute; reflexivity|by vm_compute]].
  apply (unique_pointers_own demo_start demo_guarded _ eq_refl demo_heap_empty demo_reached).
Defined.

Lemma unique_move_assign_replaces_witness :
  exists w, unique_move_assign 0 0 demo_guarded = Ok w tt /\ w = demo_guarded.
Proof.
  assert (exists x, owners demo_guarded !! 0%nat = Some x) as [x Hx] by (eexists; vm_compute; reflexivity).
  pose proof (unique_account_reached (DL := demo_guard_laws) demo_start _ _ eq_refl demo_heap_empty demo_reached) as Hacc.
  exists demo_guarded. split; [|done].
  apply (unique_move_assign_replaces demo_guarded _ 0 0 x x Hacc Hx Hx).
Defined.

Lemma nullptr_on_the_left_witness : null_lt (UniqueObject tt 4096) = false /\ 0 < 4096.
Proof. split; [apply (nullptr_on_the_left (UniqueObject tt 4096)); cbn; lia|lia]. Defined.
