(* ===== verification/IntrusivePtr.v ===== *)
(** * intrusive_ptr (include/smart_pointer.hpp)

    An intrusive pointer is an address; the object counts its references itself, with
    [intrusive_ptr_add_ref] and [intrusive_ptr_release], which belong to the program: they
    are the class [ref_countable] with the laws [ref_countable_laws].  The pointers of a
    program are the entries of a store, named by numbers; a temporary pointer is the address
    it holds.

    The account of a program is the multiset of the references it still has to release by
    itself: those of objects it created, those that were detached from a pointer. *)
From Stdlib Require Import ZArith Lia.
From stdpp Require Import base list gmap gmultiset numbers.
From S2P Require Import Prelude Refinement.
#[local] Open Scope Z_scope.

(** [create] is how the program obtains an object, with one reference. *)
Class ref_countable (E : Type) := {
  intrusive_ptr_add_ref : Z -> M E unit;
  intrusive_ptr_release : Z -> M E unit;
  create : M E Z;
}.

(** An exception that the program can catch. *)
Definition catchable (x : exn) : Prop := forall r, x <> terminated r.

(** [references e c]: the objects that exist are those of [c], each as often as it is
    referred to; releasing the last reference destroys the object. *)
Class ref_countable_laws (E : Type) `{ref_countable E} := {
  references : E -> gmultiset Z -> Prop;
  references_not_null e c : references e c -> 0 ∉ c;
  add_ref_ok e c p : references e c -> p ∈ c ->
    match intrusive_ptr_add_ref p e with
    | Ok e' _ => references e' (c ⊎ {[+ p +]})
    | Throw e' x => references e' c /\ catchable x
    | Fault | Diverge => False
    end;
  release_ok e c p : references e c -> p ∈ c ->
    exists e', intrusive_ptr_release p e = Ok e' tt /\ references e' (c ∖ {[+ p +]});
  create_ok e c : references e c ->
    match create e with
    | Ok e' p => p ∉ c /\ references e' (c ⊎ {[+ p +]})
    | Throw e' x => references e' c /\ catchable x
    | Fault | Diverge => False
    end;
}.

(** [m_ptr] of every pointer. *)
Record intrusive_world (E : Type) := IntrusiveWorld { m_ptrs : gmap nat Z; ienv : E }.
Arguments IntrusiveWorld {E}.
Arguments m_ptrs {E}.
Arguments ienv {E}.

Section intrusive_ptr.
Context {E : Type} `{ref_countable E}.
Abbreviation world := (intrusive_world E).
Implicit Types (o other : nat) (ptr : Z) (add_ref : bool) (w : world).

Definition read_m_ptr o : M world Z := w ← get; access (m_ptrs w !! o).
Definition write_m_ptr o ptr : M world unit :=
  modify (fun w => IntrusiveWorld (<[o := ptr]> (m_ptrs w)) (ienv w)).
Definition remove_m_ptr o : M world unit :=
  modify (fun w => IntrusiveWorld (delete o (m_ptrs w)) (ienv w)).

Definition on_objects {A} (m : M E A) : M world A := fun w =>
  match m (ienv w) with
  | Ok e a => Ok (IntrusiveWorld (m_ptrs w) e) a
  | Throw e x => Throw (IntrusiveWorld (m_ptrs w) e) x
  | Fault => Fault
  | Diverge => Diverge
  end.

(** ** Constructors and destructor *)

(** The body of a constructor, the pointer it takes being set; a pointer whose constructor
    throws does not come into existence. *)
Definition construct_ref ptr add_ref : M world unit :=
  if negb (ptr =? 0) && add_ref then on_objects (intrusive_ptr_add_ref ptr) else mret tt.

Definition declare_m_ptr o ptr : M world unit :=
  w ← get; match m_ptrs w !! o with None => write_m_ptr o ptr | Some _ => fault end.

Definition constructor o ptr (body : M world unit) : M world unit := fun w =>
  match (declare_m_ptr o ptr;; body) w with
  | Throw w' x => Throw (IntrusiveWorld (delete o (m_ptrs w')) (ienv w')) x
  | r => r
  end.

Definition intrusive_default o : M world unit := declare_m_ptr o 0.
Definition intrusive_of o ptr add_ref : M world unit := constructor o ptr (construct_ref ptr add_ref).
Definition intrusive_copy o other : M world unit :=
  ptr ← read_m_ptr other; constructor o ptr (construct_ref ptr true).

(** [exchange(m_ptr, nullptr)]. *)
Definition detach o : M world Z := ptr ← read_m_ptr o; _ ← write_m_ptr o 0; mret ptr.

Definition intrusive_move o other : M world unit := ptr ← detach other; declare_m_ptr o ptr.

(** The body of the destructor of a pointer to [ptr], which is noexcept. *)
Definition destruct_ref ptr : M world unit :=
  noexcept (if negb (ptr =? 0) then on_objects (intrusive_ptr_release ptr) else mret tt).

Definition intrusive_destroy o : M world unit :=
  ptr ← read_m_ptr o; _ ← destruct_ref ptr; remove_m_ptr o.

(** ** Modifiers *)

(** The end of a full expression that swaps [*this] with a temporary pointer to [ptr]: the
    temporary, which now holds the old pointer, is destroyed. *)
Definition swap_with_temporary o ptr : M world unit :=
  old ← read_m_ptr o; _ ← write_m_ptr o ptr; destruct_ref old.

Definition intrusive_reset o ptr add_ref : M world unit :=
  _ ← construct_ref ptr add_ref; swap_with_temporary o ptr.

(** [operator=(const intrusive_ptr<U>&)] does not compare the addresses. *)
Definition intrusive_convert_assign o other : M world unit :=
  ptr ← read_m_ptr other; _ ← construct_ref ptr true; swap_with_temporary o ptr.
Definition intrusive_copy_assign o other : M world unit :=
  if decide (o <> other) then intrusive_convert_assign o other else mret tt.
Definition intrusive_move_assign o other : M world unit :=
  if decide (o <> other) then ptr ← detach other; intrusive_reset o ptr false else mret tt.

(** [operator=(Ty* ptr)]. *)
Definition intrusive_assign o ptr : M world unit := intrusive_reset o ptr true.

Definition intrusive_swap o other : M world unit :=
  x ← read_m_ptr o; y ← read_m_ptr other; _ ← write_m_ptr o y; write_m_ptr other x.

(** ** Comparisons, on the addresses *)

Definition intrusive_eq (lhs rhs : Z) : bool := lhs =? rhs.
Definition intrusive_ne lhs rhs : bool := negb (intrusive_eq lhs rhs).
Definition intrusive_lt (lhs rhs : Z) : bool := lhs <? rhs.
Definition intrusive_gt lhs rhs : bool := intrusive_lt rhs lhs.
Definition intrusive_le lhs rhs : bool := negb (intrusive_gt lhs rhs).
Definition intrusive_ge lhs rhs : bool := negb (intrusive_lt lhs rhs).

(** ** Programs *)

Inductive intrusive_op :=
  | ICreate
  | IDefault o
  | IOf o ptr add_ref
  | ICopy o other
  | IMove o other
  | IDestroy o
  | ICopyAssign o other
  | IConvertAssign o other
  | IMoveAssign o other
  | IAssign o ptr
  | IReset o ptr add_ref
  | IDetach o
  | IGet o
  | ISwap o other.

Definition run_intrusive_op (op : intrusive_op) : M world Z :=
  match op with
  | ICreate => on_objects create
  | IDefault o => _ ← intrusive_default o; mret 0
  | IOf o ptr add_ref => _ ← intrusive_of o ptr add_ref; mret 0
  | ICopy o other => _ ← intrusive_copy o other; mret 0
  | IMove o other => _ ← intrusive_move o other; mret 0
  | IDestroy o => _ ← intrusive_destroy o; mret 0
  | ICopyAssign o other => _ ← intrusive_copy_assign o other; mret 0
  | IConvertAssign o other => _ ← intrusive_convert_assign o other; mret 0
  | IMoveAssign o other => _ ← intrusive_move_assign o other; mret 0
  | IAssign o ptr => _ ← intrusive_assign o ptr; mret 0
  | IReset o ptr add_ref => _ ← intrusive_reset o ptr add_ref; mret 0
  | IDetach o => detach o
  | IGet o => read_m_ptr o
  | ISwap o other => _ ← intrusive_swap o other; mret 0
  end.

End intrusive_ptr.

(** ** The account *)

Definition points (p : Z) (x : nat * Z) : Prop := x.2 = p.

#[export] Instance points_dec p x : Decision (points p x).
Proof. unfold points. apply _. Defined.

(** The references that a pointer to [p] stands for. *)
Definition refs_of (p : Z) : gmultiset Z := if p =? 0 then ∅ else {[+ p +]}.

Definition held (p : Z) (L : gmultiset Z) : Prop := p = 0 \/ p ∈ L.

(** Every reference to an object is a pointer or is still to be released. *)
Definition tally (c : gmultiset Z) (s : gmap nat Z) (L : gmultiset Z) : Prop :=
  forall p, p <> 0 -> multiplicity p c = (matching (points p) s + multiplicity p L)%nat.

Section tally.
Implicit Types (c L : gmultiset Z) (s : gmap nat Z) (o : nat) (p q : Z).

Lemma counted_points p o q : counted (points p) (o, q) = if decide (q = p) then 1%nat else 0%nat.
Proof. done. Qed.

Lemma multiplicity_refs_of p q :
  p <> 0 -> multiplicity p (refs_of q) = if decide (q = p) then 1%nat else 0%nat.
Proof.
  intros Hp. unfold refs_of. destruct (Z.eqb_spec q 0) as [->|Hq].
  - rewrite multiplicity_empty. case_decide; [by destruct Hp|done].
  - destruct (decide (q = p)) as [->|]; [by rewrite multiplicity_singleton_eq|].
    apply multiplicity_singleton_ne. congruence.
Qed.

Lemma held_multiplicity p L : held p L -> p <> 0 -> (1 <= multiplicity p L)%nat.
Proof. intros [|Hp] H0; [done|]. by apply elem_of_multiplicity in Hp. Qed.

Ltac tally_at p Hp :=
  intros p Hp; rewrite ?multiplicity_difference, ?multiplicity_disj_union, ?(multiplicity_refs_of p) by done;
  rewrite ?multiplicity_difference, ?multiplicity_disj_union, ?(multiplicity_refs_of p) by done.

Lemma tally_declare c s L o p :
  tally c s L -> s !! o = None -> held p L -> tally c (<[o := p]> s) (L ∖ refs_of p).
Proof.
  intros Ht Ho Hh. tally_at q Hq. rewrite (Ht q Hq), (matching_insert_new _ _ _ _ Ho), counted_points.
  case_decide as E; [|lia]. subst. pose proof (held_multiplicity _ _ Hh Hq). lia.
Qed.

Lemma tally_exchange c s L o p q :
  tally c s L -> s !! o = Some q -> held p L ->
  tally c (<[o := p]> s) ((L ∖ refs_of p) ⊎ refs_of q).
Proof.
  intros Ht Ho Hh. tally_at r Hr. pose proof (matching_insert (points r) _ _ _ p Ho) as Hm.
  rewrite !counted_points in Hm. rewrite (Ht r Hr).
  destruct (decide (p = r)) as [->|]; [pose proof (held_multiplicity _ _ Hh Hr)|]; repeat case_decide; lia.
Qed.

Lemma tally_remove c s L o q :
  tally c s L -> s !! o = Some q -> tally c (delete o s) (L ⊎ refs_of q).
Proof.
  intros Ht Ho. tally_at r Hr. rewrite (Ht r Hr), (matching_delete _ _ _ _ Ho), counted_points.
  case_decide; lia.
Qed.

Lemma tally_add c s L p : tally c s L -> tally (c ⊎ refs_of p) s (L ⊎ refs_of p).
Proof. intros Ht. tally_at q Hq. rewrite (Ht q Hq). case_decide; lia. Qed.

Lemma tally_release c s L p :
  tally c s L -> held p L -> tally (c ∖ refs_of p) s (L ∖ refs_of p).
Proof.
  intros Ht Hh. tally_at q Hq. rewrite (Ht q Hq).
  case_decide as E; [|lia]. subst. pose proof (held_multiplicity _ _ Hh Hq). lia.
Qed.

(** An object that a pointer refers to, or that the program holds, exists. *)
Definition reachable_object (p : Z) s L : Prop := p = 0 \/ (exists o, s !! o = Some p) \/ p ∈ L.

Lemma reachable_exists c s L p : tally c s L -> p <> 0 -> reachable_object p s L -> p ∈ c.
Proof.
  intros Ht Hp [|[[o Ho]|HL]]; [done|..]; apply elem_of_multiplicity; rewrite (Ht p Hp).
  - assert (0 < matching (points p) s)%nat; [|lia]. apply matching_pos. by exists o, p.
  - rewrite elem_of_multiplicity in HL. lia.
Qed.

Lemma held_reachable s L p : held p L -> reachable_object p s L.
Proof. intros [|]; [by left|by right; right]. Qed.
End tally.

(** ** Effects on the account *)

Section effects.
Context {E : Type} `{RL : ref_countable_laws E}.
Implicit Types (o other : nat) (p q : Z) (add_ref : bool) (w : intrusive_world E) (c L : gmultiset Z).

Definition iaccount w L : Prop := exists c, references (ienv w) c /\ tally c (m_ptrs w) L.

(** The operation returns, the pointers are [s] and the account is [L]. *)
Definition settles (r : outcome (intrusive_world E) unit) (s : gmap nat Z) L : Prop :=
  exists w', r = Ok w' tt /\ m_ptrs w' = s /\ iaccount w' L.

(** Like [settles], but the operation may also be refused a reference, without effect. *)
Definition settles_or_throws (r : outcome (intrusive_world E) unit) (s s0 : gmap nat Z) L L0 : Prop :=
  settles r s L \/ exists w' x, r = Throw w' x /\ catchable x /\ m_ptrs w' = s0 /\ iaccount w' L0.

Lemma read_m_ptr_ok w o p : m_ptrs w !! o = Some p -> read_m_ptr o w = Ok w p.
Proof. intros Eo. unfold read_m_ptr, get, mbind, M_bind. by rewrite Eo. Qed.

Lemma detach_ok w o p :
  m_ptrs w !! o = Some p -> detach o w = Ok (IntrusiveWorld (<[o := 0]> (m_ptrs w)) (ienv w)) p.
Proof. intros Eo. unfold detach. by step (read_m_ptr_ok _ _ _ Eo). Qed.

Lemma declare_m_ptr_ok w o p :
  m_ptrs w !! o = None -> declare_m_ptr o p w = Ok (IntrusiveWorld (<[o := p]> (m_ptrs w)) (ienv w)) tt.
Proof. intros Eo. unfold declare_m_ptr, get, mbind, M_bind. by rewrite Eo. Qed.

(** Taking and releasing references does not touch the pointers. *)
Definition with_ptrs (s : gmap nat Z) (r : outcome (intrusive_world E) unit) : outcome (intrusive_world E) unit :=
  match r with
  | Ok w a => Ok (IntrusiveWorld s (ienv w)) a
  | Throw w x => Throw (IntrusiveWorld s (ienv w)) x
  | Fault => Fault
  | Diverge => Diverge
  end.

Lemma construct_ref_frame s w p add_ref :
  construct_ref p add_ref (IntrusiveWorld s (ienv w)) = with_ptrs s (construct_ref p add_ref w).
Proof.
  unfold construct_ref, on_objects. destruct (negb (p =? 0) && add_ref); [|done]. cbn [ienv m_ptrs].
  by destruct (intrusive_ptr_add_ref p (ienv w)).
Qed.

Lemma destruct_ref_frame s w p :
  destruct_ref p (IntrusiveWorld s (ienv w)) = with_ptrs s (destruct_ref p w).
Proof.
  unfold destruct_ref, noexcept, on_objects. destruct (negb (p =? 0)); [|done]. cbn [ienv m_ptrs].
  by destruct (intrusive_ptr_release p (ienv w)).
Qed.

Lemma destruct_ref_ptrs w p w' : destruct_ref p w = Ok w' tt -> m_ptrs w' = m_ptrs w.
Proof.
  unfold destruct_ref, noexcept, on_objects. destruct (negb (p =? 0)); [|by intros [= <-]].
  destruct (intrusive_ptr_release p (ienv w)) as [e []| | |]; [|done..]. by intros [= <-].
Qed.

Lemma refs_of_nonnull p : p <> 0 -> refs_of p = {[+ p +]}.
Proof. intros Hp. unfold refs_of. by destruct (Z.eqb_spec p 0). Qed.

Lemma construct_ref_settles w L p add_ref :
  iaccount w L -> (add_ref = true -> reachable_object p (m_ptrs w) L) ->
  settles_or_throws (construct_ref p add_ref w) (m_ptrs w) (m_ptrs w)
    (if add_ref then L ⊎ refs_of p else L) L.
Proof.
  intros Hacc Hreach. unfold construct_ref.
  destruct add_ref; [|rewrite andb_false_r; left; by exists w].
  destruct (Z.eqb_spec p 0) as [->|Hp]; cbn [negb andb].
  - left. exists w. split; [done|]. split; [done|]. by rewrite gmultiset_disj_union_right_id.
  - destruct Hacc as (c & Hc & Ht).
    pose proof (add_ref_ok _ _ _ Hc (reachable_exists _ _ _ _ Ht Hp (Hreach eq_refl))) as Ha.
    unfold on_objects. destruct (intrusive_ptr_add_ref p (ienv w)) as [e []|e x| |]; try done.
    + left. eexists. split; [done|]. split; [done|]. exists (c ⊎ refs_of p).
      rewrite (refs_of_nonnull p Hp) at 1. split; [done|]. by apply tally_add.
    + right. destruct Ha as [He Hx]. eexists _, x. split; [done|]. split; [done|]. split; [done|]. by exists c.
Qed.

Lemma destruct_ref_settles w L p :
  iaccount w L -> held p L -> settles (destruct_ref p w) (m_ptrs w) (L ∖ refs_of p).
Proof.
  intros (c & Hc & Ht) Hh. unfold destruct_ref, noexcept.
  destruct (Z.eqb_spec p 0) as [->|Hp]; cbn [negb].
  - exists w. split; [done|]. split; [done|]. exists c. split; [done|].
    replace (L ∖ refs_of 0) with L; [done|]. unfold refs_of. cbn. multiset_solver.
  - destruct (release_ok _ _ _ Hc (reachable_exists _ _ _ _ Ht Hp (held_reachable (m_ptrs w) L p Hh)))
      as (e & He & Hc').
    unfold on_objects. rewrite He. eexists. split; [done|]. split; [done|]. exists (c ∖ refs_of p).
    rewrite (refs_of_nonnull p Hp) at 1. split; [done|]. by apply tally_release.
Qed.

Lemma swap_with_temporary_settles w L o p q :
  iaccount w L -> m_ptrs w !! o = Some q -> held p L ->
  settles (swap_with_temporary o p w) (<[o := p]> (m_ptrs w)) (L ∖ refs_of p).
Proof.
  intros (c & Hc & Ht) Ho Hh. unfold swap_with_temporary. step (read_m_ptr_ok _ _ _ Ho).
  destruct (destruct_ref_settles (IntrusiveWorld (<[o := p]> (m_ptrs w)) (ienv w))
    ((L ∖ refs_of p) ⊎ refs_of q) q) as (w' & Hr & Hs & Hacc).
  - exists c. split; [done|]. by apply tally_exchange.
  - unfold held, refs_of. destruct (Z.eqb_spec q 0); [by left|right; multiset_solver].
  - exists w'. split; [done|]. split; [done|].
    replace (L ∖ refs_of p) with ((L ∖ refs_of p ⊎ refs_of q) ∖ refs_of q); [done|]. multiset_solver.
Qed.

Lemma held_after_add p L : held p (L ⊎ refs_of p).
Proof. unfold held, refs_of. destruct (Z.eqb_spec p 0); [by left|right; multiset_solver]. Qed.

(** Resetting a pointer that exists: the old reference is released after the new one is
    taken. *)
Lemma reset_settles w L o p q add_ref :
  iaccount w L -> m_ptrs w !! o = Some q ->
  (if add_ref then reachable_object p (m_ptrs w) L else held p L) ->
  settles_or_throws (intrusive_reset o p add_ref w) (<[o := p]> (m_ptrs w)) (m_ptrs w)
    (if add_ref then L else L ∖ refs_of p) L.
Proof.
  intros Hacc Ho Hp. unfold intrusive_reset.
  destruct (construct_ref_settles w L p add_ref Hacc) as [(w1 & Hr & Hs & Hacc1)|(w1 & x & Hr & Hx & Hs & Hacc1)].
  { intros ->. done. }
  - left. step Hr. rewrite <- Hs in Ho |- *.
    destruct (swap_with_temporary_settles w1 _ o p q Hacc1 Ho) as (w2 & Hr2 & Hs2 & Hacc2).
    { destruct add_ref; [apply held_after_add|done]. }
    exists w2. split; [done|]. split; [done|]. destruct add_ref; [|done].
    replace L with ((L ⊎ refs_of p) ∖ refs_of p); [done|]. multiset_solver.
  - right. exists w1, x. by rewrite (bind_Throw _ _ _ _ _ Hr).
Qed.

(** A new pointer. *)
Lemma constructor_settles w L o p add_ref :
  iaccount w L -> m_ptrs w !! o = None ->
  (if add_ref then reachable_object p (m_ptrs w) L else held p L) ->
  settles_or_throws (constructor o p (construct_ref p add_ref) w) (<[o := p]> (m_ptrs w)) (m_ptrs w)
    (if add_ref then L else L ∖ refs_of p) L.
Proof.
  intros Hacc Ho Hp. unfold constructor. step (declare_m_ptr_ok w o p Ho).
  rewrite construct_ref_frame.
  destruct (construct_ref_settles w L p add_ref Hacc) as [(w2 & -> & Hs & c & Hc & Ht)|(w2 & x & -> & Hx & Hs & Hacc2)].
  { intros ->. done. }
  - left. eexists. split; [done|]. rewrite <- Hs in *. split; [done|]. exists c. split; [done|]. destruct add_ref.
    + replace L with ((L ⊎ refs_of p) ∖ refs_of p) by multiset_solver.
      apply tally_declare; [done..|apply held_after_add].
    + by apply tally_declare.
  - right. eexists _, x. split; [done|]. cbn [m_ptrs]. rewrite delete_insert_id by congruence.
    split; [done|]. split; [done|]. destruct w2. cbn in *. by rewrite <- Hs.
Qed.

Lemma destroy_settles w L o p :
  iaccount w L -> m_ptrs w !! o = Some p ->
  settles (intrusive_destroy o w) (delete o (m_ptrs w)) L.
Proof.
  intros (c & Hc & Ht) Ho. unfold intrusive_destroy. step (read_m_ptr_ok _ _ _ Ho).
  destruct (destruct_ref_settles (IntrusiveWorld (delete o (m_ptrs w)) (ienv w)) (L ⊎ refs_of p) p)
    as (w1 & Hr & Hs & Hacc1).
  - exists c. split; [done|]. by apply tally_remove.
  - apply held_after_add.
  - rewrite destruct_ref_frame in Hr.
    destruct (destruct_ref p w) as [w2 []|w2 x| |] eqn:E2; simplify_eq/=.
    step E2. eexists. split; [done|]. cbn. rewrite (destruct_ref_ptrs _ _ _ E2). split; [done|].
    replace L with ((L ⊎ refs_of p) ∖ refs_of p); [done|]. multiset_solver.
Qed.
End effects.

(** ** Programs keep the account *)

Section programs.
Context {E : Type} `{RL : ref_countable_laws E}.
Implicit Types (o other : nat) (p q r : Z) (add_ref : bool) (w : intrusive_world E) (L : gmultiset Z).

(** What an operation asks of its caller: a pointer that adds a reference is given an object
    that exists, one that adopts a reference is given one that the program holds. *)
Definition may_take p add_ref w L : Prop :=
  if add_ref then reachable_object p (m_ptrs w) L else held p L.

Definition intrusive_op_ok (op : intrusive_op) w L : Prop :=
  match op with
  | ICreate => True
  | IDefault o => m_ptrs w !! o = None
  | IOf o p add_ref => m_ptrs w !! o = None /\ may_take p add_ref w L
  | ICopy o other | IMove o other => m_ptrs w !! o = None /\ is_Some (m_ptrs w !! other)
  | IDestroy o | IDetach o | IGet o => is_Some (m_ptrs w !! o)
  | ICopyAssign o other | IConvertAssign o other | IMoveAssign o other | ISwap o other =>
      is_Some (m_ptrs w !! o) /\ is_Some (m_ptrs w !! other)
  | IAssign o p => is_Some (m_ptrs w !! o) /\ may_take p true w L
  | IReset o p add_ref => is_Some (m_ptrs w !! o) /\ may_take p add_ref w L
  end.

(** The references the program holds after an operation that returned [r]. *)
Definition held_after (op : intrusive_op) r L : gmultiset Z :=
  match op with
  | ICreate | IDetach _ => L ⊎ refs_of r
  | IOf _ p false | IReset _ p false => L ∖ refs_of p
  | _ => L
  end.

Inductive intrusive_reachable (w0 : intrusive_world E) : intrusive_world E -> gmultiset Z -> Prop :=
  | intrusive_start : intrusive_reachable w0 w0 ∅
  | intrusive_step op w L w' r :
      intrusive_reachable w0 w L -> intrusive_op_ok op w L -> run_intrusive_op op w = Ok w' r ->
      intrusive_reachable w0 w' (held_after op r L)
  | intrusive_refused op w L w' x :
      intrusive_reachable w0 w L -> intrusive_op_ok op w L -> run_intrusive_op op w = Throw w' x ->
      intrusive_reachable w0 w' L.

(** The operation keeps the account; an exception leaves all pointers as they were. *)
Definition keeps_account op w L : Prop :=
  match run_intrusive_op op w with
  | Ok w' r => iaccount w' (held_after op r L)
  | Throw w' x => catchable x /\ m_ptrs w' = m_ptrs w /\ iaccount w' L
  | Fault | Diverge => False
  end.

(** An operation without a result. *)
Lemma keeps_settled op (m : M (intrusive_world E) unit) w s L :
  (forall w, run_intrusive_op op w = (m ≫= fun _ => mret 0) w) -> settles_or_throws (m w) s (m_ptrs w) (held_after op 0 L) L ->
  keeps_account op w L.
Proof.
  intros Hop [(w' & Hr & _ & Hacc)|(w' & x & Hr & Hx & Hs & Hacc)]; unfold keeps_account; rewrite Hop.
  - by rewrite (bind_Ok _ _ _ _ _ Hr).
  - by rewrite (bind_Throw _ _ _ _ _ Hr).
Qed.

Lemma reachable_pointer w L o p : m_ptrs w !! o = Some p -> may_take p true w L.
Proof. intros Ho. right. left. by exists o. Qed.

Lemma held_null L : held 0 L.
Proof. by left. Qed.

(** The state and the account after [detach]. *)
Lemma detach_account w L o p :
  iaccount w L -> m_ptrs w !! o = Some p ->
  iaccount (IntrusiveWorld (<[o := 0]> (m_ptrs w)) (ienv w)) (L ⊎ refs_of p).
Proof.
  intros (c & Hc & Ht) Ho. exists c. split; [done|]. cbn [m_ptrs].
  replace (L ⊎ refs_of p) with ((L ∖ refs_of 0) ⊎ refs_of p); [|unfold refs_of at 1; cbn; multiset_solver].
  apply tally_exchange; [done..|apply held_null].
Qed.

Lemma add_take p L : (L ⊎ refs_of p) ∖ refs_of p = L.
Proof. multiset_solver. Qed.

Lemma move_settles w L o other p :
  iaccount w L -> m_ptrs w !! o = None -> m_ptrs w !! other = Some p ->
  settles (intrusive_move o other w) (<[o := p]> (<[other := 0]> (m_ptrs w))) L.
Proof.
  intros Hacc Ho Hp. unfold intrusive_move. step (detach_ok _ _ _ Hp).
  assert ((<[other := 0]> (m_ptrs w)) !! o = None) as Ho1.
  { rewrite lookup_insert_ne; [done|]. by intros <-; congruence. }
  rewrite declare_m_ptr_ok by done. eexists. split; [done|]. split; [done|].
  destruct (detach_account w L other p Hacc Hp) as (c & Hc & Ht). exists c. split; [done|].
  rewrite <- (add_take p L). apply tally_declare; [done..|apply held_after_add].
Qed.

Lemma move_assign_settles w L o other p q :
  iaccount w L -> o <> other -> m_ptrs w !! o = Some q -> m_ptrs w !! other = Some p ->
  settles (intrusive_move_assign o other w) (<[o := p]> (<[other := 0]> (m_ptrs w))) L.
Proof.
  intros Hacc Hne Ho Hp. unfold intrusive_move_assign. rewrite decide_True by done.
  step (detach_ok _ _ _ Hp). unfold intrusive_reset, construct_ref. rewrite andb_false_r.
  destruct (swap_with_temporary_settles _ _ o p q (detach_account w L other p Hacc Hp)) as (w' & Hr & Hs & Hacc').
  - cbn. by rewrite lookup_insert_ne.
  - apply held_after_add.
  - exists w'. split; [done|]. split; [done|]. by rewrite add_take in Hacc'.
Qed.

Lemma convert_assign_settles w L o other p q :
  iaccount w L -> m_ptrs w !! o = Some q -> m_ptrs w !! other = Some p ->
  settles_or_throws (intrusive_convert_assign o other w) (<[o := p]> (m_ptrs w)) (m_ptrs w) L L.
Proof.
  intros Hacc Ho Hp. unfold intrusive_convert_assign. step (read_m_ptr_ok _ _ _ Hp).
  apply (reset_settles w L o p q true Hacc Ho). by eapply reachable_pointer.
Qed.

Lemma swap_settles w L o other p q :
  iaccount w L -> m_ptrs w !! o = Some p -> m_ptrs w !! other = Some q ->
  settles (intrusive_swap o other w) (<[other := p]> (<[o := q]> (m_ptrs w))) L.
Proof.
  intros Hacc Ho Hq. unfold intrusive_swap. step (read_m_ptr_ok _ _ _ Ho). step (read_m_ptr_ok _ _ _ Hq).
  eexists. split; [done|]. split; [done|]. cbn [m_ptrs].
  destruct (decide (o = other)) as [->|Hne].
  - assert (p = q) as -> by congruence. rewrite insert_insert_eq, insert_id by done. by destruct w.
  - destruct (detach_account w L other q Hacc Hq) as (c & Hc & Ht). exists c. split; [done|].
    cbn [m_ptrs ienv] in *.
    assert ((<[other := 0]> (m_ptrs w)) !! o = Some p) as Ho1 by by rewrite lookup_insert_ne.
    pose proof (tally_exchange _ _ _ _ q _ Ht Ho1 (held_after_add q L)) as Ht1. rewrite add_take in Ht1.
    assert ((<[o := q]> (<[other := 0]> (m_ptrs w))) !! other = Some 0) as Hq1.
    { by rewrite lookup_insert_ne, lookup_insert_eq. }
    pose proof (tally_exchange _ _ _ _ p _ Ht1 Hq1 (held_after_add p L)) as Ht2. rewrite add_take in Ht2.
    replace (L ⊎ refs_of 0) with L in Ht2 by (unfold refs_of; cbn; multiset_solver).
    by rewrite (insert_insert_ne _ o other), insert_insert_eq in Ht2 by done.
Qed.

Lemma settles_now res s s0 L L0 : settles res s L -> settles_or_throws (E := E) res s s0 L L0.
Proof. by left. Qed.

Lemma copy_settles w L o other p :
  iaccount w L -> m_ptrs w !! o = None -> m_ptrs w !! other = Some p ->
  settles_or_throws (intrusive_copy o other w) (<[o := p]> (m_ptrs w)) (m_ptrs w) L L.
Proof.
  intros Hacc Ho Hp. unfold intrusive_copy. step (read_m_ptr_ok _ _ _ Hp).
  apply (constructor_settles w L o p true Hacc Ho). by eapply reachable_pointer.
Qed.

Lemma default_settles w L o :
  iaccount w L -> m_ptrs w !! o = None ->
  settles (intrusive_default o w) (<[o := 0]> (m_ptrs w)) L.
Proof.
  intros (c & Hc & Ht) Ho. unfold intrusive_default. rewrite declare_m_ptr_ok by done.
  eexists. split; [done|]. split; [done|]. exists c. split; [done|].
  replace L with (L ∖ refs_of 0) by (unfold refs_of; cbn; multiset_solver).
  apply tally_declare; [done..|apply held_null].
Qed.

Lemma keeps_create w L : iaccount w L -> keeps_account ICreate w L.
Proof.
  intros (c & Hc & Ht). unfold keeps_account. cbn [run_intrusive_op held_after]. unfold on_objects.
  pose proof (create_ok _ _ Hc) as Hcr. destruct (create (ienv w)) as [e p|e x| |]; try done.
  - destruct Hcr as [_ Hcr]. exists (c ⊎ refs_of p). cbn [ienv m_ptrs].
    assert (p <> 0) as Hp by (pose proof (references_not_null _ _ Hcr); multiset_solver).
    rewrite (refs_of_nonnull p Hp) at 1. split; [done|]. by apply tally_add.
  - destruct Hcr as [Hc' Hx]. split; [done|]. split; [done|]. by exists c.
Qed.

Lemma copy_assign_settles w L o other p q :
  iaccount w L -> m_ptrs w !! o = Some q -> m_ptrs w !! other = Some p ->
  exists s, settles_or_throws (intrusive_copy_assign o other w) s (m_ptrs w) L L.
Proof.
  intros Hacc Ho Hp. unfold intrusive_copy_assign. case_decide; [|exists (m_ptrs w); left; by exists w].
  eexists. by apply (convert_assign_settles w L o other p q).
Qed.

Lemma move_assign_any_settles w L o other p q :
  iaccount w L -> m_ptrs w !! o = Some q -> m_ptrs w !! other = Some p ->
  exists s, settles (intrusive_move_assign o other w) s L.
Proof.
  intros Hacc Ho Hp. destruct (decide (o = other)) as [->|Hne].
  - exists (m_ptrs w), w. unfold intrusive_move_assign. by rewrite decide_False by auto.
  - eexists. by apply (move_assign_settles w L o other p q).
Qed.

Lemma keeps_intrusive op w L : iaccount w L -> intrusive_op_ok op w L -> keeps_account op w L.
Proof.
  intros Hacc Hok.
  destruct op as [|o|o p b|o other|o other|o|o other|o other|o other|o p|o p b|o|o|o other];
    cbn [intrusive_op_ok] in Hok.
  - by apply keeps_create.
  - eapply keeps_settled; [done|]. by apply settles_now, default_settles.
  - destruct Hok as [Ho Hp]. eapply keeps_settled; [done|].
    pose proof (constructor_settles w L o p b Hacc Ho Hp) as Hs. by destruct b.
  - destruct Hok as [Ho [p Hp]]. eapply keeps_settled; [done|]. by apply copy_settles.
  - destruct Hok as [Ho [p Hp]]. eapply keeps_settled; [done|]. by apply settles_now, move_settles.
  - destruct Hok as [p Hp]. eapply keeps_settled; [done|]. by eapply settles_now, destroy_settles.
  - destruct Hok as [[q Ho] [p Hp]]. destruct (copy_assign_settles w L o other p q Hacc Ho Hp) as [s Hs].
    by eapply keeps_settled; [done|].
  - destruct Hok as [[q Ho] [p Hp]]. eapply keeps_settled; [done|]. by eapply convert_assign_settles.
  - destruct Hok as [[q Ho] [p Hp]]. destruct (move_assign_any_settles w L o other p q Hacc Ho Hp) as [s Hs].
    eapply keeps_settled; [done|]. by apply settles_now.
  - destruct Hok as [[q Ho] Hp]. eapply keeps_settled; [done|]. exact (reset_settles w L o p q true Hacc Ho Hp).
  - destruct Hok as [[q Ho] Hp]. eapply keeps_settled; [done|].
    pose proof (reset_settles w L o p q b Hacc Ho Hp) as Hs. by destruct b.
  - destruct Hok as [p Hp]. unfold keeps_account. cbn [run_intrusive_op held_after].
    rewrite (detach_ok _ _ _ Hp). by apply detach_account.
  - destruct Hok as [p Hp]. unfold keeps_account. cbn [run_intrusive_op]. by rewrite (read_m_ptr_ok _ _ _ Hp).
  - destruct Hok as [[p Ho] [q Hq]]. eapply keeps_settled; [done|]. by apply settles_now, swap_settles.
Qed.

Lemma intrusive_account_reached w0 w L :
  m_ptrs w0 = ∅ -> references (ienv w0) ∅ -> intrusive_reachable w0 w L -> iaccount w L.
Proof.
  intros Hw0 He0. induction 1 as [|op w L w' r _ IH Hok Hr|op w L w' x _ IH Hok Hr].
  - exists ∅. split; [done|]. intros p Hp. by rewrite Hw0, matching_empty, multiplicity_empty.
  - pose proof (keeps_intrusive op w L IH Hok) as Hk. unfold keeps_account in Hk. by rewrite Hr in Hk.
  - pose proof (keeps_intrusive op w L IH Hok) as Hk. unfold keeps_account in Hk. rewrite Hr in Hk. by destruct Hk as (_ & _ & Hk).
Qed.

Lemma refs_of_no_null p : 0 ∉ refs_of p.
Proof. unfold refs_of. destruct (Z.eqb_spec p 0); multiset_solver. Qed.

Lemma account_no_null w0 w L : intrusive_reachable w0 w L -> 0 ∉ L.
Proof.
  induction 1 as [|op w L w' r _ IH _ _|]; [multiset_solver| |done].
  pose proof (refs_of_no_null r). destruct op; cbn [held_after]; repeat case_match; multiset_solver.
Qed.
End programs.

(** ** Properties *)

Section theorems.
Context {E : Type} `{RL : ref_countable_laws E}.
Implicit Types (w : intrusive_world E) (L : gmultiset Z).

(** C8: A program that starts without objects: the number of references to every object is
    the number of the pointers to it plus the number of references that the program holds,
    so that an object lives exactly as long as one of them does; each operation returns, or
    throws what adding a reference threw and leaves every pointer and the account as they
    were; once all pointers are gone the references the program holds are the only ones. *)
Theorem intrusive_pointers_count w0 w L :
  m_ptrs w0 = ∅ -> references (ienv w0) ∅ -> intrusive_reachable w0 w L ->
  (exists c, references (ienv w) c /\ forall p, p <> 0 ->
    multiplicity p c = (matching (points p) (m_ptrs w) + multiplicity p L)%nat) /\
  (m_ptrs w = ∅ -> references (ienv w) L) /\
  forall op, intrusive_op_ok op w L ->
    (exists w' r, run_intrusive_op op w = Ok w' r /\ iaccount w' (held_after op r L)) \/
    (exists w' x, run_intrusive_op op w = Throw w' x /\ catchable x /\
      m_ptrs w' = m_ptrs w /\ iaccount w' L).
Proof.
  intros Hw0 He0 Hreach. pose proof (intrusive_account_reached w0 w L Hw0 He0 Hreach) as Hacc.
  split; [done|]. split.
  - intros Hnone. destruct Hacc as (c & Hc & Ht).
    assert (c = L) as <-; [|done]. apply gmultiset_eq. intros p. destruct (decide (p = 0)) as [->|Hp].
    + pose proof (references_not_null _ _ Hc) as H0. pose proof (account_no_null _ _ _ Hreach) as H1.
      rewrite elem_of_multiplicity in H0, H1. lia.
    + by rewrite (Ht p Hp), Hnone, matching_empty.
  - intros op Hok. pose proof (keeps_intrusive op w L Hacc Hok) as Hk. unfold keeps_account in Hk.
    destruct (run_intrusive_op op w) as [w' r|w' x| |]; [left; by eauto|right; by eauto|done..].
Qed.

(** Copy assignment takes the new reference before it releases the old one: it has its
    effect, or the exception of [intrusive_ptr_add_ref] leaves all pointers as they were;
    move assignment leaves the source null and never throws; assigning a pointer to itself
    does nothing. *)
Theorem intrusive_assignment w L o other p q :
  iaccount w L -> m_ptrs w !! o = Some q -> m_ptrs w !! other = Some p -> o <> other ->
  settles_or_throws (intrusive_copy_assign o other w) (<[o := p]> (m_ptrs w)) (m_ptrs w) L L /\
  settles (intrusive_move_assign o other w) (<[o := p]> (<[other := 0]> (m_ptrs w))) L /\
  intrusive_copy_assign o o w = Ok w tt /\ intrusive_move_assign o o w = Ok w tt.
Proof.
  intros Hacc Ho Hp Hne. unfold intrusive_copy_assign. rewrite decide_True, decide_False by auto.
  split; [by apply (convert_assign_settles w L o other p q)|].
  split; [by apply (move_assign_settles w L o other p q)|].
  unfold intrusive_move_assign. by rewrite decide_False by auto.
Qed.
End theorems.

(** ** Instances: objects with at most two references *)

#[local] Instance demo_objects : ref_countable (Z * gmultiset Z) := {
  intrusive_ptr_add_ref p :=
    e ← get;
    if decide (p ∈ e.2) then
      if decide (multiplicity p e.2 < 2)%nat then put (e.1, e.2 ⊎ {[+ p +]}) else throw overflow_error
    else fault;
  intrusive_ptr_release p :=
    e ← get; if decide (p ∈ e.2) then put (e.1, e.2 ∖ {[+ p +]}) else fault;
  create := e ← get; _ ← put (e.1 + 16, e.2 ⊎ {[+ e.1 +]}); mret (e.1);
}.

Definition demo_counts (e : Z * gmultiset Z) (c : gmultiset Z) : Prop :=
  e.2 = c /\ 0 < e.1 /\ forall p, p ∈ c -> 0 < p < e.1.

#[local] Instance demo_objects_laws : ref_countable_laws (Z * gmultiset Z).
Proof.
  exists demo_counts; unfold demo_counts.
  - intros [n c'] c (<- & _ & Hb) H0. apply Hb in H0. lia.
  - intros [n c'] c p (<- & Hn & Hb) Hp.
    change (intrusive_ptr_add_ref p (n, c')) with
      ((if decide (p ∈ c') then
         if decide (multiplicity p c' < 2)%nat then put (n, c' ⊎ {[+ p +]}) else throw overflow_error
        else fault) (n, c')).
    rewrite decide_True by done. case_decide; [|by split]. split; [done|]. split; [done|].
    intros q Hq. apply Hb. multiset_solver.
  - intros [n c'] c p (<- & Hn & Hb) Hp. exists (n, c' ∖ {[+ p +]}).
    change (intrusive_ptr_release p (n, c')) with
      ((if decide (p ∈ c') then put (n, c' ∖ {[+ p +]}) else fault) (n, c')).
    rewrite decide_True by done. split; [done|]. split; [done|]. split; [done|].
    intros q Hq. apply Hb. multiset_solver.
  - intros [n c'] c (<- & Hn & Hb).
    change (create (n, c')) with (Ok (S := Z * gmultiset Z) (n + 16, c' ⊎ {[+ n +]}) n). cbn [fst snd] in *.
    split; [intros Hin; apply Hb in Hin; lia|]. split; [done|]. split; [lia|].
    intros q [Hq|Hq]%gmultiset_elem_of_disj_union; [apply Hb in Hq; lia|].
    apply gmultiset_elem_of_singleton in Hq. lia.
Defined.

Definition demo_intrusive : intrusive_world (Z * gmultiset Z) := IntrusiveWorld ∅ (4096, ∅).

Definition demo_shared : intrusive_world (Z * gmultiset Z) :=
  match (_ ← run_intrusive_op ICreate; _ ← run_intrusive_op (IOf 0 4096 false); run_intrusive_op (ICopy 1 0))
    demo_intrusive with
  | Ok w _ => w
  | _ => demo_intrusive
  end.

Definition demo_owed : gmultiset Z := (∅ ⊎ refs_of 4096) ∖ refs_of 4096.

Lemma demo_shared_reached : intrusive_reachable demo_intrusive demo_shared demo_owed.
Proof.
  set (w1 := @IntrusiveWorld (Z * gmultiset Z) ∅ (4112, {[+ 4096 +]})).
  set (w2 := @IntrusiveWorld (Z * gmultiset Z) {[0%nat := 4096]} (4112, {[+ 4096 +]})).
  apply (intrusive_step demo_intrusive (ICopy 1 0) w2 demo_owed demo_shared 0).
  - apply (intrusive_step demo_intrusive (IOf 0 4096 false) w1 (∅ ⊎ refs_of 4096) w2 0).
    + apply (intrusive_step demo_intrusive ICreate demo_intrusive ∅ w1 4096); [constructor|done|by vm_compute].
    + split; [done|]. right. unfold refs_of. cbn. multiset_solver.
    + by vm_compute.
  - split; [done|]. by exists 4096.
  - by vm_compute.
Qed.

Lemma demo_intrusive_empty : references (ienv demo_intrusive) ∅.
Proof. change (demo_counts (4096, ∅) ∅). split; [done|]. split; [done|]. intros p Hp. multiset_solver. Qed.

Lemma intrusive_pointers_count_witness :
  (exists c, references (ienv demo_shared) c /\ forall p, p <> 0 ->
    multiplicity p c = (matching (points p) (m_ptrs demo_shared) + multiplicity p demo_owed)%nat) /\
  multiplicity 4096 (ienv demo_shared).2 = 2%nat /\
  exists w, run_intrusive_op (ICopy 2 0) demo_shared = Throw w overflow_error.
Proof.
  split; [|split; [by vm_compute|eexists; vm_compute; reflexivity]].
  apply (intrusive_pointers_count demo_intrusive demo_shared demo_owed eq_refl demo_intrusive_empty demo_shared_reached).
Defined.

Lemma intrusive_assignment_witness :
  intrusive_copy_assign 0 0 demo_shared = Ok demo_shared tt /\ m_ptrs demo_shared !! 1%nat = Some 4096.
Proof.
  split; [|by vm_compute].
  apply (intrusive_assignment demo_shared demo_owed 0 1 4096 4096
    (intrusive_account_reached demo_intrusive _ _ eq_refl demo_intrusive_empty demo_shared_reached)); by vm_compute.
Defined.
