(* ===== verification/Atomics.v ===== *)
(** * Atomic objects (include/atomic.hpp)

    An atomic of 1, 2, 4 or 8 bytes is a layer over the interlocked functions, which work on
    signed integers of the same size; those of the kernel and of the compiler are the class
    [interlocked] with the laws [interlocked_laws], those of one byte that the runtime writes
    itself are definitions (src/runtime/include/intrinsic.hpp).  Each operation makes one access and is a function from the value of
    the object to its new value and a result, in the monad [ceval]: a signed overflow is
    undefined, and some members do not compile.  Memory orders are arguments that only decide
    whether a program compiles.

    The lock of atomics of other sizes, [universal_lock], is a state machine. *)
From Stdlib Require Import ZArith Lia.
From stdpp Require Import base list gmap numbers.
From S2P Require Import Prelude Ratio.
#[local] Open Scope Z_scope.

(** ** Memory orders *)

Inductive memory_order := relaxed | consume | acquire | release | acq_rel | seq_cst.

#[export] Instance memory_order_eq_dec : EqDecision memory_order.
Proof. solve_decision. Defined.

(** The underlying values. *)
Definition order_value (o : memory_order) : nat :=
  match o with relaxed => 0 | consume => 1 | acquire => 2 | release => 4 | acq_rel => 6 | seq_cst => 14 end.

(** The orders that [load_memory_order_checker] accepts. *)
Definition load_memory_order_checker (o : memory_order) : bool :=
  match o with release | acq_rel => false | _ => true end.

Definition COMBINED : list (list memory_order) :=
  [[relaxed; consume; acquire; release; acq_rel; seq_cst];
   [consume; consume; acquire; acq_rel; acq_rel; seq_cst];
   [acquire; acquire; acquire; acq_rel; acq_rel; seq_cst];
   [release; acq_rel; acq_rel; release; acq_rel; seq_cst];
   [acq_rel; acq_rel; acq_rel; acq_rel; acq_rel; seq_cst];
   [seq_cst; seq_cst; seq_cst; seq_cst; seq_cst; seq_cst]].

(** The result is a template argument: an index outside of the table does not compile. *)
Definition combine_cas_memory_orders (on_success on_failure : memory_order) : ceval memory_order :=
  _ ← static_assert (load_memory_order_checker on_failure);
  match COMBINED !! order_value on_success ≫= (fun row => row !! order_value on_failure) with
  | Some o => Val o
  | None => IllFormed
  end.

(** ** Integral types *)

Record int_type := IntType { bits : Z; is_signed : bool }.

(** Conversions to the type and to the integer that the interlocked functions work on. *)
Definition static_cast (T : int_type) (x : Z) : Z := if is_signed T then signed (bits T) x else wrap (bits T) x.
Definition atomic_reinterpret_as (T : int_type) (x : Z) : Z := signed (bits T) x.

Definition in_type (T : int_type) (x : Z) : Prop :=
  if is_signed T then fits (bits T) x else 0 <= x < 2 ^ bits T.

Definition type_ok (T : int_type) : Prop :=
  bits T = 8 \/ bits T = 16 \/ bits T = 32 \/ bits T = 64.

(** The result of an addition or a subtraction of values of the type, after the integral
    promotions. *)
Definition promoted (T : int_type) (x : Z) : ceval Z :=
  if bits T <? 32 then checked 32 x
  else if is_signed T then checked (bits T) x else Val (wrap (bits T) x).

(** ** The interlocked functions

    [w] is the size of the integer in bits; a function takes the value at the address and
    gives the new value and its result.  [InterlockedIncrement] and [InterlockedDecrement] are
    those of 16, 32 and 64 bits. *)

Class interlocked := {
  InterlockedExchange : Z -> Z -> Z -> Z * Z;
  InterlockedCompareExchange : Z -> Z -> Z -> Z -> Z * Z;
  InterlockedExchangeAdd8 : Z -> Z -> Z * Z;
  InterlockedAdd64 : Z -> Z -> Z * Z;
  InterlockedAnd : Z -> Z -> Z -> Z * Z;
  InterlockedOr : Z -> Z -> Z -> Z * Z;
  InterlockedXor : Z -> Z -> Z -> Z * Z;
  InterlockedIncrement : Z -> Z -> Z * Z;
  InterlockedDecrement : Z -> Z -> Z * Z;
}.

(** [InterlockedAdd64], [InterlockedIncrement] and [InterlockedDecrement] return the new value,
    the others the old value; additions wrap around. *)
Class interlocked_laws `{interlocked} := {
  exchange_law w place v : InterlockedExchange w place v = (v, place);
  cas_law w place desired expected :
    InterlockedCompareExchange w place desired expected =
      (if place =? expected then desired else place, place);
  exchange_add_law place v : fits 8 place -> fits 8 v ->
    InterlockedExchangeAdd8 place v = (signed 8 (place + v), place);
  add_law place v : fits 64 place -> fits 64 v ->
    InterlockedAdd64 place v = (signed 64 (place + v), signed 64 (place + v));
  and_law w place v : InterlockedAnd w place v = (Z.land place v, place);
  or_law w place v : InterlockedOr w place v = (Z.lor place v, place);
  xor_law w place v : InterlockedXor w place v = (Z.lxor place v, place);
  increment_law w place : w = 16 \/ w = 32 \/ w = 64 -> fits w place ->
    InterlockedIncrement w place = (signed w (place + 1), signed w (place + 1));
  decrement_law w place : w = 16 \/ w = 32 \/ w = 64 -> fits w place ->
    InterlockedDecrement w place = (signed w (place - 1), signed w (place - 1));
}.

(** The functions of one byte that the runtime defines: each is an exchange-and-add. *)
Definition InterlockedIncrement8 `{interlocked} (target : Z) : Z * Z := InterlockedExchangeAdd8 target 1.
Definition InterlockedDecrement8 `{interlocked} (target : Z) : Z * Z := InterlockedExchangeAdd8 target (-1).
Definition InterlockedAdd8 `{interlocked} (target value : Z) : Z * Z := InterlockedExchangeAdd8 target value.

(** ** Operations *)

Section atomic.
Context `{interlocked} (T : int_type).

(** An access to an object: its new value and a result. *)
Definition atomic_op (A : Type) : Type := Z -> ceval (Z * A).

(** The old or new value that an interlocked function returned, and what it stored. *)
Definition on_storage (f : Z -> Z * Z) : atomic_op Z := fun value =>
  let r := f (atomic_reinterpret_as T value) in Val (static_cast T r.1, static_cast T r.2).

(** interlocked_storage *)

Definition atomic_load (order : memory_order) : atomic_op Z := fun value =>
  _ ← static_assert (load_memory_order_checker order);
  Val (value, static_cast T (atomic_reinterpret_as T value)).

Definition atomic_exchange (new_value : Z) : atomic_op Z :=
  on_storage (fun place => InterlockedExchange (bits T) place (atomic_reinterpret_as T new_value)).

(** The result and the new value of [expected]. *)
Definition atomic_compare_exchange (expected desired : Z) : atomic_op (bool * Z) := fun value =>
  let expected_bytes := atomic_reinterpret_as T expected in
  let r := InterlockedCompareExchange (bits T) (atomic_reinterpret_as T value)
             (atomic_reinterpret_as T desired) expected_bytes in
  if r.2 =? expected_bytes then Val (static_cast T r.1, (true, expected))
  else Val (static_cast T r.1, (false, static_cast T r.2)).

(** integral_policy: functions on the integer; the arithmetic on the result of an interlocked
    function is that of the integer, promoted to [int] where it is shorter. *)

Definition internal_arith (x : Z) : ceval Z := checked (Z.max 32 (bits T)) x.

(** The function a policy calls by its name and size.  The policy of 32 bits has no [add];
    [InterlockedAdd16] is declared inline and defined nowhere, so that a call has no program. *)
Definition policy_InterlockedAdd (place value : Z) : ceval (Z * Z) :=
  if bits T =? 8 then Val (InterlockedAdd8 place value)
  else if bits T =? 64 then Val (InterlockedAdd64 place value)
  else IllFormed.

Definition policy_InterlockedIncrement (place : Z) : Z * Z :=
  if bits T =? 8 then InterlockedIncrement8 place else InterlockedIncrement (bits T) place.

Definition policy_InterlockedDecrement (place : Z) : Z * Z :=
  if bits T =? 8 then InterlockedDecrement8 place else InterlockedDecrement (bits T) place.

Definition policy_add (place value : Z) : ceval (Z * Z) :=
  r ← policy_InterlockedAdd place value;
  old ← internal_arith (r.2 - value);
  Val (r.1, signed (bits T) old).

Definition policy_post_increment (place : Z) : ceval (Z * Z) :=
  let r := policy_InterlockedIncrement place in
  old ← internal_arith (r.2 - 1); Val (r.1, signed (bits T) old).

Definition policy_post_decrement (place : Z) : ceval (Z * Z) :=
  let r := policy_InterlockedDecrement place in
  old ← internal_arith (r.2 + 1); Val (r.1, signed (bits T) old).

(** interlocked_integral *)

Definition as_value (r : ceval (Z * Z)) : ceval (Z * Z) :=
  r ← r; Val (static_cast T r.1, static_cast T r.2).

Definition fetch_add (operand : Z) : atomic_op Z := fun value =>
  as_value (policy_add (atomic_reinterpret_as T value) (atomic_reinterpret_as T operand)).

Definition fetch_and (operand : Z) : atomic_op Z :=
  on_storage (fun place => InterlockedAnd (bits T) place (atomic_reinterpret_as T operand)).
Definition fetch_or (operand : Z) : atomic_op Z :=
  on_storage (fun place => InterlockedOr (bits T) place (atomic_reinterpret_as T operand)).
Definition fetch_xor (operand : Z) : atomic_op Z :=
  on_storage (fun place => InterlockedXor (bits T) place (atomic_reinterpret_as T operand)).

Definition pre_increment : atomic_op Z := on_storage policy_InterlockedIncrement.
Definition pre_decrement : atomic_op Z := on_storage policy_InterlockedDecrement.
Definition post_increment : atomic_op Z := fun value =>
  as_value (policy_post_increment (atomic_reinterpret_as T value)).
Definition post_decrement : atomic_op Z := fun value =>
  as_value (policy_post_decrement (atomic_reinterpret_as T value)).

(** integral_facade *)

(** [0U] has 32 bits; the difference has the longer of the two types. *)
Definition negate (value : Z) : Z :=
  static_cast T (wrap (Z.max 32 (bits T)) (0 - wrap (bits T) value)).

Definition fetch_sub (operand : Z) : atomic_op Z := fetch_add (negate operand).

Definition assign_op (fetch : atomic_op Z) (combine : Z -> ceval Z) : atomic_op Z := fun value =>
  r ← fetch value; x ← combine r.2; Val (r.1, static_cast T x).

Definition add_assign (operand : Z) : atomic_op Z :=
  assign_op (fetch_add operand) (fun old => promoted T (old + operand)).
Definition sub_assign (operand : Z) : atomic_op Z :=
  assign_op (fetch_sub operand) (fun old => promoted T (old - operand)).
Definition and_assign (operand : Z) : atomic_op Z :=
  assign_op (fetch_and operand) (fun old => Val (Z.land old operand)).
Definition or_assign (operand : Z) : atomic_op Z :=
  assign_op (fetch_or operand) (fun old => Val (Z.lor old operand)).
Definition xor_assign (operand : Z) : atomic_op Z :=
  assign_op (fetch_xor operand) (fun old => Val (Z.lxor old operand)).
End atomic.

(** ** Sizes *)

Definition is_always_lock_free (SIZE_OF_TYPE : Z) : bool :=
  (SIZE_OF_TYPE <=? 8) && (Z.land SIZE_OF_TYPE (SIZE_OF_TYPE - 1) =? 0).

(** ** atomic_flag *)

Definition atomic_bool : int_type := IntType 8 false.

Definition flag_test `{interlocked} (order : memory_order) : atomic_op bool := fun value =>
  r ← atomic_load atomic_bool order value; Val (r.1, negb (r.2 =? 0)).
Definition flag_test_and_set `{interlocked} : atomic_op bool := fun value =>
  r ← atomic_exchange atomic_bool 1 value; Val (r.1, negb (r.2 =? 0)).

(** ** universal_lock

    A mutex of the kernel, which its owner may acquire again, and a spin lock; a thread at
    [DISPATCH_LEVEL] takes the spin lock. *)

Definition DISPATCH : Z := 2.

Record universal_lock := UniversalLock { m_mtx : option (nat * nat); m_spinlock : bool }.

Definition universal_lock_new : universal_lock := UniversalLock None false.

(** [lock] of thread [t] at level [irql]; a thread that has to wait takes no step. *)
Definition universal_try (t : nat) (irql : Z) (l : universal_lock) : option universal_lock :=
  if irql <? DISPATCH then
    match m_mtx l with
    | None => Some (UniversalLock (Some (t, 1%nat)) (m_spinlock l))
    | Some (owner, n) =>
        if decide (owner = t) then Some (UniversalLock (Some (t, S n)) (m_spinlock l)) else None
    end
  else if m_spinlock l then None else Some (UniversalLock (m_mtx l) true).

(** [unlock]; releasing what is not held is an error of the kernel. *)
Definition universal_unlock (t : nat) (irql : Z) : M universal_lock unit :=
  l ← get;
  if irql <? DISPATCH then
    '(owner, n) ← access (m_mtx l);
    if decide (owner = t)
    then put (UniversalLock (if (n =? 1)%nat then None else Some (t, Nat.pred n)) (m_spinlock l))
    else fault
  else if m_spinlock l then put (UniversalLock (m_mtx l) false) else fault.

(** Threads at fixed levels that lock and unlock; [inside]: those that hold the lock. *)
Inductive universal_reachable (irql : nat -> Z) : universal_lock -> list nat -> Prop :=
  | universal_start : universal_reachable irql universal_lock_new []
  | universal_locked l inside t l' :
      universal_reachable irql l inside -> t ∉ inside -> universal_try t (irql t) l = Some l' ->
      universal_reachable irql l' (t :: inside)
  | universal_unlocked l inside t l' :
      universal_reachable irql l inside -> t ∈ inside -> universal_unlock t (irql t) l = Ok l' tt ->
      universal_reachable irql l' (filter (fun u => u <> t) inside).

(** ** Conversions *)

Section conversions.
Implicit Types (w x y : Z).

Lemma wrap_eq_iff w x y : 0 <= w -> wrap w x = wrap w y <-> exists k, x = y + k * 2 ^ w.
Proof.
  intros Hw. unfold wrap. assert (0 < 2 ^ w) by (by apply Z.pow_pos_nonneg). split.
  - intros E. exists (x / 2 ^ w - y / 2 ^ w).
    pose proof (Z.div_mod x (2 ^ w) ltac:(lia)). pose proof (Z.div_mod y (2 ^ w) ltac:(lia)). nia.
  - intros [k ->]. by rewrite Z_mod_plus_full.
Qed.

Lemma wrap_signed w x : 0 <= w -> wrap w (signed w x) = wrap w x.
Proof.
  intros Hw. unfold signed. ztest; [apply wrap_idemp|].
  apply wrap_eq_iff; [done|]. exists (-1 - x / 2 ^ w). unfold wrap.
  assert (0 < 2 ^ w) by (by apply Z.pow_pos_nonneg).
  pose proof (Z.div_mod x (2 ^ w) ltac:(lia)). lia.
Qed.

Lemma pow_half w : 0 < w -> 2 ^ w = 2 * 2 ^ (w - 1) /\ 0 < 2 ^ (w - 1).
Proof.
  intros Hw. split; [|apply Z.pow_pos_nonneg; lia].
  rewrite <- Z.pow_succ_r by lia. f_equal. lia.
Qed.

Lemma signed_fits w x : 0 < w -> fits w (signed w x).
Proof.
  intros Hw. destruct (pow_half w Hw) as [Hp Hpos]. pose proof (wrap_range w x ltac:(lia)).
  unfold fits, signed. ztest; lia.
Qed.

Lemma signed_id w x : 0 < w -> fits w x -> signed w x = x.
Proof.
  intros Hw Hx. unfold fits in Hx. destruct (pow_half w Hw) as [Hp Hpos]. unfold signed.
  destruct (Z.ltb_spec x 0).
  - assert (wrap w x = x + 2 ^ w) as ->; [|ztest; lia].
    unfold wrap. rewrite <- (Z_mod_plus_full x 1), Z.mul_1_l. apply Z.mod_small. lia.
  - rewrite wrap_small by lia. ztest; lia.
Qed.

(** A conversion depends on the bits only. *)
Lemma signed_wrap w x y : wrap w x = wrap w y -> signed w x = signed w y.
Proof. intros E. unfold signed. by rewrite E. Qed.

Lemma static_cast_wrap T x y : wrap (bits T) x = wrap (bits T) y -> static_cast T x = static_cast T y.
Proof. intros E. unfold static_cast, signed. by rewrite E. Qed.

Lemma in_type_static_cast T x : 0 < bits T -> in_type T x -> static_cast T x = x.
Proof.
  unfold in_type, static_cast. destruct (is_signed T); intros; [by apply signed_id|by apply wrap_small].
Qed.

Lemma static_cast_in_type T x : 0 < bits T -> in_type T (static_cast T x).
Proof.
  unfold in_type, static_cast. destruct (is_signed T); intros; [by apply signed_fits|apply wrap_range; lia].
Qed.

Lemma wrap_static_cast T x : 0 < bits T -> wrap (bits T) (static_cast T x) = wrap (bits T) x.
Proof. intros. unfold static_cast. destruct (is_signed T); [apply wrap_signed; lia|apply wrap_idemp]. Qed.

Lemma wrap_internal T x : 0 < bits T -> wrap (bits T) (atomic_reinterpret_as T x) = wrap (bits T) x.
Proof. intros. apply wrap_signed. lia. Qed.

Lemma static_cast_internal T x : 0 < bits T -> static_cast T (atomic_reinterpret_as T x) = static_cast T x.
Proof. intros. by apply static_cast_wrap, wrap_internal. Qed.

Lemma internal_fits T x : 0 < bits T -> fits (bits T) (atomic_reinterpret_as T x).
Proof. apply signed_fits. Qed.

Lemma wrap_add w a b : wrap w (wrap w a + wrap w b) = wrap w (a + b).
Proof. unfold wrap. by rewrite <- Zplus_mod. Qed.

Lemma wrap_add_cong w a a' b b' :
  wrap w a = wrap w a' -> wrap w b = wrap w b' -> wrap w (a + b) = wrap w (a' + b').
Proof. intros Ha Hb. by rewrite <- (wrap_add w a), <- (wrap_add w a'), Ha, Hb. Qed.

(** Values of a type are determined by their bits. *)
Lemma internal_inj T x y : 0 < bits T -> in_type T x -> in_type T y ->
  atomic_reinterpret_as T x = atomic_reinterpret_as T y -> x = y.
Proof.
  intros Hw Hx Hy E. rewrite <- (in_type_static_cast T x), <- (in_type_static_cast T y) by done.
  by rewrite <- (static_cast_internal T x), <- (static_cast_internal T y), E.
Qed.

(** Bitwise operations work bit by bit. *)
Lemma wrap_bitwise w x y (f : Z -> Z -> Z) (g : bool -> bool -> bool) :
  0 <= w -> (forall a b i, 0 <= i -> Z.testbit (f a b) i = g (Z.testbit a i) (Z.testbit b i)) ->
  wrap w (f (signed w x) (signed w y)) = wrap w (f x y).
Proof.
  intros Hw Hf. unfold wrap. rewrite <- !Z.land_ones by done. apply Z.bits_inj'. intros i Hi.
  rewrite !Z.land_spec, !Hf by done. destruct (decide (i < w)) as [Hlt|Hge].
  - assert (forall a, Z.testbit (signed w a) i = Z.testbit a i) as E.
    { intros a. pose proof (wrap_signed w a Hw) as E. unfold wrap in E.
      rewrite <- (Z.mod_pow2_bits_low (signed w a) w i), E by lia. by apply Z.mod_pow2_bits_low. }
    by rewrite !E.
  - rewrite Z.testbit_ones_nonneg by lia. rewrite (proj2 (Z.ltb_ge i w)) by lia. by rewrite !andb_false_r.
Qed.
End conversions.

Lemma type_bits T : type_ok T -> 0 < bits T.
Proof. unfold type_ok. lia. Qed.

(** ** Effects *)

Section effects.
Context `{IL : interlocked_laws} (T : int_type) (HT : type_ok T).
Implicit Types (value operand : Z).

#[local] Hint Resolve type_bits internal_fits static_cast_in_type : core.

(** The value that an interlocked addition of [x] stores. *)
Lemma cast_sum value x y :
  wrap (bits T) x = wrap (bits T) y ->
  static_cast T (signed (bits T) (atomic_reinterpret_as T value + x)) = static_cast T (value + y).
Proof.
  intros E. pose proof (type_bits T HT). apply static_cast_wrap. rewrite wrap_signed by lia.
  apply wrap_add_cong; [by apply wrap_internal|done].
Qed.

Lemma cast_back value : in_type T value -> static_cast T (atomic_reinterpret_as T value) = value.
Proof.
  intros Hv. rewrite static_cast_internal by auto. by apply in_type_static_cast; auto.
Qed.

(** The old value is recovered from the new one where the sum does not leave the integer, or
    where the arithmetic has more bits than the integer. *)
Lemma recovered a b :
  fits (bits T) a -> fits (bits T) b ->
  (r ← internal_arith T (signed (bits T) (a + b) - b); Val (signed (bits T) r)) =
  if decide (bits T < 32 \/ fits (bits T) (a + b)) then Val a else Undefined.
Proof.
  intros Ha Hb. pose proof (type_bits T HT) as Hw. unfold internal_arith, checked.
  pose proof (pow_half (bits T) Hw) as [Hp Hpos]. pose proof (signed_fits (bits T) (a + b) Hw) as Hs.
  assert (wrap (bits T) (signed (bits T) (a + b) - b) = wrap (bits T) a) as Ew.
  { rewrite <- (Z.add_simpl_r a b) at 2. rewrite <- !Z.add_opp_r.
    apply wrap_add_cong; [apply wrap_signed; lia|done]. }
  assert (signed (bits T) (signed (bits T) (a + b) - b) = a) as Es.
  { by rewrite (signed_wrap _ _ _ Ew), signed_id. }
  destruct (decide (fits (bits T) (a + b))) as [Hf|Hf].
  - rewrite (signed_id _ (a + b)) in * by done. replace (a + b - b) with a in * by lia.
    rewrite (decide_True (P := _ \/ _)) by auto. rewrite decide_True.
    + cbn. by rewrite signed_id.
    + unfold fits in *. assert (2 ^ (bits T - 1) <= 2 ^ (Z.max 32 (bits T) - 1)); [|lia].
      apply Z.pow_le_mono_r; lia.
  - destruct (decide (bits T < 32)) as [Hlt|Hge].
    + rewrite (decide_True (P := _ \/ _)) by auto. rewrite decide_True; [by cbn; rewrite Es|].
      unfold fits in *. assert (2 ^ bits T <= 2 ^ (Z.max 32 (bits T) - 1)); [|lia].
      apply Z.pow_le_mono_r; lia.
    + rewrite (decide_False (P := _ \/ _)) by tauto. rewrite decide_False; [done|].
      replace (Z.max 32 (bits T)) with (bits T) by lia. intros Hd.
      pose proof (signed_id _ _ Hw Hd) as E. rewrite Es in E. apply Hf.
      replace (a + b) with (signed (bits T) (a + b)) by lia. done.
Qed.

(** Where an addition to the integer is undefined: an overflow of 32 or 64 bits. *)
Definition overflows (a b : Z) : Prop := 32 <= bits T /\ ~ fits (bits T) (a + b).

#[local] Instance overflows_dec a b : Decision (overflows a b).
Proof. unfold overflows. apply _. Defined.

Lemma as_value_recovered value x y (m : ceval Z) :
  in_type T value -> fits (bits T) x -> wrap (bits T) x = wrap (bits T) y ->
  m = (if decide (bits T < 32 \/ fits (bits T) (atomic_reinterpret_as T value + x))
       then Val (atomic_reinterpret_as T value) else Undefined) ->
  as_value T (old ← m; Val (signed (bits T) (atomic_reinterpret_as T value + x), old)) =
  if decide (overflows (atomic_reinterpret_as T value) x) then Undefined
  else Val (static_cast T (value + y), value).
Proof.
  intros Hv Hx Exy ->. unfold overflows.
  destruct (decide (bits T < 32 \/ _)) as [Hok|Hno].
  - rewrite decide_False by (destruct Hok; [lia|tauto]). cbn.
    by rewrite (cast_sum value x y Exy), cast_back.
  - rewrite decide_True; [done|]. split; [lia|tauto].
Qed.

Lemma bind_pair (m : ceval Z) (a : Z) :
  (old ← m; Val (a, signed (bits T) old)) = (old ← (r ← m; Val (signed (bits T) r)); Val (a, old)).
Proof. by destruct m. Qed.

Lemma fits_one : fits (bits T) 1 /\ fits (bits T) (-1).
Proof.
  pose proof (type_bits T HT). unfold fits.
  assert (2 ^ 7 <= 2 ^ (bits T - 1)); [apply Z.pow_le_mono_r; unfold type_ok in HT; lia|lia].
Qed.

(** Differences of values of one byte fit an [int]. *)
Lemma byte_arith a b : bits T = 8 -> fits 8 a -> fits 8 b ->
  internal_arith T (a - b) = Val (a - b) /\ internal_arith T (a + b) = Val (a + b).
Proof.
  unfold internal_arith, checked, fits. intros ->.
  change (2 ^ (8 - 1)) with 128. change (2 ^ (Z.max 32 8 - 1)) with 2147483648. intros Ha Hb.
  split; rewrite decide_True by lia; done.
Qed.

(** An addition to one byte: the sum is stored, and [sub] of the old value is returned. *)
Lemma byte_cast value x y d e :
  bits T = 8 -> wrap 8 x = wrap 8 y -> wrap 8 d = wrap 8 e ->
  (static_cast T (signed 8 (atomic_reinterpret_as T value + x)),
   static_cast T (signed 8 (atomic_reinterpret_as T value + d))) =
  (static_cast T (value + y), static_cast T (value + e)).
Proof.
  intros H8 Hx Hd. pose proof (cast_sum value x y) as E1. pose proof (cast_sum value d e) as E2.
  rewrite H8 in E1, E2. by rewrite E1, E2.
Qed.

Lemma fetch_add_byte value operand :
  bits T = 8 ->
  fetch_add T operand value = Val (static_cast T (value + operand), static_cast T (value - operand)).
Proof.
  intros H8. pose proof (type_bits T HT) as Hw.
  pose proof (internal_fits T value Hw) as Hv. pose proof (internal_fits T operand Hw) as Ho. rewrite H8 in Hv, Ho.
  pose proof (wrap_internal T operand Hw) as Hi. rewrite H8 in Hi.
  unfold fetch_add, policy_add, policy_InterlockedAdd, InterlockedAdd8. rewrite H8. cbn [Z.eqb Pos.eqb].
  cbn [mbind ceval_bind]. rewrite exchange_add_law by done. cbn [fst snd].
  rewrite (proj1 (byte_arith _ _ H8 Hv Ho)). cbn. rewrite <- !Z.add_opp_r. f_equal.
  apply byte_cast; [done..|]. apply wrap_eq_iff; [lia|]. apply wrap_eq_iff in Hi as [k Hk]; [|lia].
  exists (- k). lia.
Qed.

Lemma fetch_add_long value operand :
  bits T = 64 -> in_type T value ->
  fetch_add T operand value =
  if decide (overflows (atomic_reinterpret_as T value) (atomic_reinterpret_as T operand)) then Undefined
  else Val (static_cast T (value + operand), value).
Proof.
  intros H64 Hv. pose proof (type_bits T HT) as Hw.
  pose proof (internal_fits T value Hw) as Hi. pose proof (internal_fits T operand Hw) as Ho.
  unfold fetch_add, policy_add, policy_InterlockedAdd. rewrite H64 in *. cbn [Z.eqb Pos.eqb].
  cbn [mbind ceval_bind]. rewrite add_law by done. cbn [fst snd]. rewrite <- H64 in *. rewrite bind_pair.
  apply as_value_recovered; auto; [by apply wrap_internal|]. apply recovered; auto.
Qed.

(** The operators of 2, 4 and 8 bytes. *)
Lemma policy_increment_ok place : bits T <> 8 -> fits (bits T) place ->
  policy_InterlockedIncrement T place = (signed (bits T) (place + 1), signed (bits T) (place + 1)) /\
  policy_InterlockedDecrement T place = (signed (bits T) (place - 1), signed (bits T) (place - 1)).
Proof.
  intros H8 Hf. unfold policy_InterlockedIncrement, policy_InterlockedDecrement.
  destruct (Z.eqb_spec (bits T) 8); [done|]. unfold type_ok in HT.
  by rewrite increment_law, decrement_law by (done || lia).
Qed.

Lemma post_increment_ok value :
  bits T <> 8 -> in_type T value ->
  post_increment T value =
  if decide (overflows (atomic_reinterpret_as T value) 1) then Undefined
  else Val (static_cast T (value + 1), value).
Proof.
  intros H8 Hv. pose proof (type_bits T HT). pose proof fits_one as [H1 _].
  unfold post_increment, policy_post_increment. rewrite (proj1 (policy_increment_ok _ H8 (internal_fits T _ ltac:(done)))). cbn [fst snd]. rewrite bind_pair.
  apply as_value_recovered; auto. apply recovered; auto.
Qed.

Lemma post_decrement_ok value :
  bits T <> 8 -> in_type T value ->
  post_decrement T value =
  if decide (overflows (atomic_reinterpret_as T value) (-1)) then Undefined
  else Val (static_cast T (value - 1), value).
Proof.
  intros H8 Hv. pose proof (type_bits T HT). pose proof fits_one as [_ H1].
  unfold post_decrement, policy_post_decrement. rewrite (proj2 (policy_increment_ok _ H8 (internal_fits T _ ltac:(done)))). cbn [fst snd]. rewrite bind_pair.
  rewrite <- !Z.add_opp_r. apply as_value_recovered; auto. apply recovered; auto.
Qed.

Lemma pre_increment_ok value :
  bits T <> 8 -> in_type T value ->
  pre_increment T value = Val (static_cast T (value + 1), static_cast T (value + 1)).
Proof.
  intros H8 Hv. pose proof (type_bits T HT). unfold pre_increment, on_storage.
  rewrite (proj1 (policy_increment_ok _ H8 (internal_fits T _ ltac:(done)))). cbn [fst snd]. by rewrite (cast_sum value 1 1).
Qed.

Lemma pre_decrement_ok value :
  bits T <> 8 -> in_type T value ->
  pre_decrement T value = Val (static_cast T (value - 1), static_cast T (value - 1)).
Proof.
  intros H8 Hv. pose proof (type_bits T HT). unfold pre_decrement, on_storage.
  rewrite (proj2 (policy_increment_ok _ H8 (internal_fits T _ ltac:(done)))). cbn [fst snd]. rewrite <- !Z.add_opp_r. by rewrite (cast_sum value _ (-1)).
Qed.

(** Those of one byte: the object changes as it should, the prefix operators return the old
    value and the postfix operators the one before it. *)
Lemma byte_operators value :
  bits T = 8 -> in_type T value ->
  pre_increment T value = Val (static_cast T (value + 1), value) /\
  pre_decrement T value = Val (static_cast T (value - 1), value) /\
  post_increment T value = Val (static_cast T (value + 1), static_cast T (value - 1)) /\
  post_decrement T value = Val (static_cast T (value - 1), static_cast T (value + 1)).
Proof.
  intros H8 Hv. pose proof (type_bits T HT) as Hw. pose proof (internal_fits T value Hw) as Hf.
  pose proof fits_one as [H1 H2]. pose proof (cast_sum value 1 1 eq_refl) as Ei.
  pose proof (cast_sum value (-1) (-1) eq_refl) as Ed. rewrite H8 in Hf, H1, H2, Ei, Ed.
  unfold pre_increment, pre_decrement, post_increment, post_decrement, on_storage, policy_post_increment,
    policy_post_decrement, policy_InterlockedIncrement, policy_InterlockedDecrement,
    InterlockedIncrement8, InterlockedDecrement8. rewrite H8. cbn [Z.eqb Pos.eqb].
  rewrite !exchange_add_law by done. cbn [fst snd].
  destruct (byte_arith _ 1 H8 Hf H1) as [-> ->]. cbn [mbind ceval_bind as_value fst snd].
  rewrite cast_back, <- !Z.add_opp_r by done. change (- (1)) with (-1). rewrite Ei, Ed. done.
Qed.

Lemma wrap_negate operand : wrap (bits T) (negate T operand) = wrap (bits T) (- operand).
Proof.
  pose proof (type_bits T HT). unfold negate. rewrite wrap_static_cast by done.
  assert (forall x, wrap (bits T) (wrap (Z.max 32 (bits T)) x) = wrap (bits T) x) as E.
  { intros x. unfold wrap. replace (2 ^ Z.max 32 (bits T)) with (2 ^ bits T * 2 ^ (Z.max 32 (bits T) - bits T)).
    - rewrite Z.rem_mul_r by (try apply Z.pow_pos_nonneg; try apply Z.pow_nonzero; lia).
      rewrite (Z.mul_comm (2 ^ bits T)), Z_mod_plus_full. by apply Zmod_mod.
    - rewrite <- Z.pow_add_r by lia. f_equal. lia. }
  rewrite E. apply wrap_eq_iff; [lia|].
  destruct (proj1 (wrap_eq_iff (bits T) (wrap (bits T) operand) operand ltac:(lia)) (wrap_idemp _ _)) as [k Hk].
  exists (- k). lia.
Qed.

Lemma negate_wrap_eq value operand :
  static_cast T (value + negate T operand) = static_cast T (value - operand).
Proof.
  apply static_cast_wrap. rewrite <- Z.add_opp_r. apply wrap_add_cong; [done|apply wrap_negate].
Qed.

Lemma negate_sub_eq value operand :
  static_cast T (value - negate T operand) = static_cast T (value + operand).
Proof.
  pose proof (type_bits T HT). apply static_cast_wrap. assert (0 <= bits T) as Hw by lia.
  destruct (proj1 (wrap_eq_iff (bits T) (negate T operand) (- operand) Hw) (wrap_negate operand)) as [k Hk].
  apply wrap_eq_iff; [done|]. exists (- k). lia.
Qed.

Lemma compare_exchange_ok value expected desired :
  in_type T value -> in_type T expected -> in_type T desired ->
  atomic_compare_exchange T expected desired value =
  if value =? expected then Val (desired, (true, expected)) else Val (value, (false, value)).
Proof.
  intros Hv He Hd. pose proof (type_bits T HT). unfold atomic_compare_exchange. rewrite cas_law. cbn [fst snd].
  destruct (Z.eqb_spec value expected) as [->|Hne].
  - rewrite Z.eqb_refl. by rewrite cast_back.
  - destruct (Z.eqb_spec (atomic_reinterpret_as T value) (atomic_reinterpret_as T expected)) as [E|_].
    + destruct Hne. by apply (internal_inj T).
    + by rewrite cast_back.
Qed.

Lemma exchange_value_ok value new_value :
  in_type T value -> in_type T new_value -> atomic_exchange T new_value value = Val (new_value, value).
Proof.
  intros Hv Hn. unfold atomic_exchange, on_storage. rewrite exchange_law. cbn [fst snd]. by rewrite !cast_back.
Qed.

(** The bitwise operations, [f] on the bits [g]. *)
Lemma bitwise_ok (fetch : Z -> Z -> Z -> Z * Z) (f : Z -> Z -> Z) (g : bool -> bool -> bool) value operand :
  (forall w place v, fetch w place v = (f place v, place)) ->
  (forall a b i, 0 <= i -> Z.testbit (f a b) i = g (Z.testbit a i) (Z.testbit b i)) ->
  in_type T value ->
  on_storage T (fun place => fetch (bits T) place (atomic_reinterpret_as T operand)) value =
  Val (static_cast T (f value operand), value).
Proof.
  intros Hl Hf Hv. pose proof (type_bits T HT). unfold on_storage. rewrite Hl. cbn [fst snd].
  rewrite cast_back by done. do 2 f_equal. apply static_cast_wrap. apply (wrap_bitwise _ _ _ f g); [lia|done].
Qed.
End effects.

(** ** Properties *)

Section theorems.
Context `{IL : interlocked_laws} (T : int_type) (HT : type_ok T).
Implicit Types (value operand : Z).

(** C30: Addition to and subtraction from an atomic integer, of either sign.  Of one byte: the
    object becomes the sum (the difference), but what is returned is not the old value: it is
    the old value less the operand (plus the operand), because the runtime's addition already
    returns the old value and the operand is subtracted from it again.  Of 2 and 4 bytes: no
    program, because the addition of 16 bits is never defined and the policy of 32 bits has no
    member of that name.  Of 8 bytes: the object becomes the sum and the old value is returned,
    except where the operands, read as signed integers, have a sum that does not fit, which is
    undefined also for unsigned types. *)
Theorem atomic_addition value operand :
  in_type T value ->
  (bits T = 16 \/ bits T = 32 ->
    fetch_add T operand value = IllFormed /\ fetch_sub T operand value = IllFormed) /\
  (bits T = 8 ->
    fetch_add T operand value = Val (static_cast T (value + operand), static_cast T (value - operand)) /\
    fetch_sub T operand value = Val (static_cast T (value - operand), static_cast T (value + operand))) /\
  (bits T = 64 ->
    fetch_add T operand value =
      (if decide (fits 64 (atomic_reinterpret_as T value + atomic_reinterpret_as T operand))
       then Val (static_cast T (value + operand), value) else Undefined) /\
    fetch_sub T operand value =
      (if decide (fits 64 (atomic_reinterpret_as T value + atomic_reinterpret_as T (negate T operand)))
       then Val (static_cast T (value - operand), value) else Undefined)).
Proof.
  intros Hv. unfold fetch_sub. split; [|split].
  - intros Hnone. unfold fetch_add, policy_add, policy_InterlockedAdd. by destruct Hnone as [-> | ->].
  - intros H8. rewrite !fetch_add_byte by done. rewrite negate_wrap_eq, negate_sub_eq by done. done.
  - intros H64. rewrite !fetch_add_long by done. rewrite negate_wrap_eq by done.
    unfold overflows. split; repeat case_decide; rewrite H64 in *; try done;
      assert (32 <= 64) by lia; tauto.
Qed.

(** The operators of 2, 4 and 8 bytes: the prefix operators add and subtract one and return
    the new value, for every value of every type; the postfix operators do the same and return
    the old value, except for types of at least 4 bytes at the largest (for [--] the smallest)
    value of the signed integer of that size, where they overflow: for an unsigned counter in
    the middle of its range.  Those of one byte change the object alike, but the prefix
    operators return the old value, and the postfix operators the one before it (after it). *)
Theorem atomic_increment value :
  in_type T value ->
  (bits T <> 8 ->
    pre_increment T value = Val (static_cast T (value + 1), static_cast T (value + 1)) /\
    pre_decrement T value = Val (static_cast T (value - 1), static_cast T (value - 1)) /\
    post_increment T value =
      (if decide (32 <= bits T /\ atomic_reinterpret_as T value = 2 ^ (bits T - 1) - 1) then Undefined
       else Val (static_cast T (value + 1), value)) /\
    post_decrement T value =
      (if decide (32 <= bits T /\ atomic_reinterpret_as T value = - 2 ^ (bits T - 1)) then Undefined
       else Val (static_cast T (value - 1), value))) /\
  (bits T = 8 ->
    pre_increment T value = Val (static_cast T (value + 1), value) /\
    pre_decrement T value = Val (static_cast T (value - 1), value) /\
    post_increment T value = Val (static_cast T (value + 1), static_cast T (value - 1)) /\
    post_decrement T value = Val (static_cast T (value - 1), static_cast T (value + 1))).
Proof.
  intros Hv. pose proof (internal_fits T value (type_bits T HT)) as Hf. unfold fits in Hf.
  split; intros H8; [|by apply byte_operators].
  split; [by apply pre_increment_ok|]. split; [by apply pre_decrement_ok|].
  rewrite post_increment_ok, post_decrement_ok by done. unfold overflows, fits.
  split; case_decide as E1; case_decide as E2; try done; lia.
Qed.

(** Exchange and compare-exchange: the object gets the new value, or stays as it is when it
    differs from the expected one, which is then updated to the value that was found; the
    bitwise operations return the old value and store the result, for both signs. *)
Theorem atomic_read_modify_write value x desired :
  in_type T value -> in_type T x -> in_type T desired ->
  atomic_exchange T desired value = Val (desired, value) /\
  atomic_compare_exchange T x desired value =
    (if value =? x then Val (desired, (true, x)) else Val (value, (false, value))) /\
  fetch_and T x value = Val (static_cast T (Z.land value x), value) /\
  fetch_or T x value = Val (static_cast T (Z.lor value x), value) /\
  fetch_xor T x value = Val (static_cast T (Z.lxor value x), value).
Proof.
  intros Hv Hx Hd. split; [by apply exchange_value_ok|]. split; [by apply compare_exchange_ok|].
  unfold fetch_and, fetch_or, fetch_xor. split; [|split].
  - apply (bitwise_ok T HT InterlockedAnd Z.land andb); [apply and_law|intros; apply Z.land_spec|done].
  - apply (bitwise_ok T HT InterlockedOr Z.lor orb); [apply or_law|intros; apply Z.lor_spec|done].
  - apply (bitwise_ok T HT InterlockedXor Z.lxor xorb); [apply xor_law|intros; apply Z.lxor_spec|done].
Qed.

(** Accesses of several threads in the order in which they take place: the results, and the
    value in the end. *)
Fixpoint run_accesses (ops : list (atomic_op Z)) value : ceval (Z * list Z) :=
  match ops with
  | [] => Val (value, [])
  | op :: ops => r ← op value; q ← run_accesses ops r.1; Val (q.1, r.2 :: q.2)
  end.

Definition tickets value (n : nat) : list Z :=
  (fun i => static_cast T (value + 1 + Z.of_nat i)) <$> seq 0 n.

Lemma tickets_distinct value n : Z.of_nat n <= 2 ^ bits T -> NoDup (tickets value n).
Proof.
  intros Hn. pose proof (type_bits T HT). apply NoDup_fmap_2_strong; [|apply NoDup_ListNoDup, seq_NoDup].
  intros i j Hi%elem_of_seq Hj%elem_of_seq E. apply (f_equal (wrap (bits T))) in E.
  rewrite !wrap_static_cast in E by done. apply wrap_eq_iff in E as [k Hk]; [|lia].
  assert (k = 0) as ->; [|lia]. nia.
Qed.

(** Tickets: prefix increments of one counter of 2, 4 or 8 bytes by any number of threads, in
    any order, give consecutive values, so that no two of the first 2^w are equal. *)
Theorem tickets_consecutive value n :
  bits T <> 8 -> in_type T value ->
  run_accesses (replicate n (pre_increment T)) value =
    Val (static_cast T (value + Z.of_nat n),
         tickets value n) /\
  (Z.of_nat n <= 2 ^ bits T -> NoDup (tickets value n)).
Proof.
  intros H8 Hv. split; [|apply tickets_distinct]. revert value Hv. unfold tickets. induction n as [|n IH]; intros value Hv.
  - cbn. rewrite Z.add_0_r, in_type_static_cast; [done|by apply type_bits|done].
  - pose proof (type_bits T HT) as Hw. cbn [replicate run_accesses]. rewrite pre_increment_ok by done.
    cbn [mbind ceval_bind fst snd]. rewrite IH by (by apply static_cast_in_type). cbn [mbind ceval_bind fst snd].
    assert (forall k, static_cast T (static_cast T (value + 1) + k) = static_cast T (value + 1 + k)) as E.
    { intros k. apply static_cast_wrap. apply wrap_add_cong; [by apply wrap_static_cast|done]. }
    rewrite E. do 2 f_equal; [f_equal; lia|]. cbn [seq fmap list_fmap]. f_equal; [f_equal; lia|].
    rewrite <- fmap_S_seq, <- list_fmap_compose. apply list_fmap_ext. intros i j _. unfold compose.
    rewrite <- Z.add_assoc, E. f_equal. lia.
Qed.
End theorems.

(** ** Memory orders of compare-exchange *)

(** The order of the diagram in the source. *)
Definition order_le (x y : memory_order) : bool :=
  match x, y with
  | relaxed, _ | _, seq_cst => true
  | consume, (consume | acquire | acq_rel) => true
  | acquire, (acquire | acq_rel) => true
  | release, (release | acq_rel) => true
  | acq_rel, acq_rel => true
  | _, _ => false
  end.

Definition upper_bound (x y o : memory_order) : Prop := order_le x o = true /\ order_le y o = true.
Definition least_bound (x y o : memory_order) : Prop :=
  upper_bound x y o /\ forall o', upper_bound x y o' -> order_le o o' = true.

(** The combination of two orders, where it compiles, is an upper bound of them, the least
    one but for release with relaxed; it does not compile for any order that includes both
    acquire and release, whose numbers are not rows of the table, though the table has a row
    for them. *)
Theorem combine_orders_bound on_success on_failure :
  (combine_cas_memory_orders on_success on_failure = IllFormed <->
    on_failure = release \/ on_failure = acq_rel \/ on_failure = seq_cst \/
    on_success = acq_rel \/ on_success = seq_cst) /\
  forall o, combine_cas_memory_orders on_success on_failure = Val o ->
    upper_bound on_success on_failure o /\
    (least_bound on_success on_failure o <-> ~ (on_success = release /\ on_failure = relaxed)).
Proof.
  split.
  - destruct on_success, on_failure; cbn; intuition congruence.
  - intros o. destruct on_success, on_failure; cbn; intros [= <-]; (split; [done|]); unfold least_bound, upper_bound; cbn;
      (split; [intros [_ Hl] [? ?]; try done|intros Hn; split; [done|]]).
    all: try (intros [] [? ?]; done).
    + by specialize (Hl release (conj eq_refl eq_refl)).
    + by destruct Hn.
Qed.

(** An object is lock free exactly if its size is 1, 2, 4 or 8. *)
Lemma lock_free_sizes size :
  0 < size -> is_always_lock_free size = true <-> size = 1 \/ size = 2 \/ size = 4 \/ size = 8.
Proof.
  intros Hs. unfold is_always_lock_free. destruct (Z.leb_spec size 8) as [Hle|]; [|split; [done|lia]].
  assert (size = 1 \/ size = 2 \/ size = 3 \/ size = 4 \/ size = 5 \/ size = 6 \/ size = 7 \/ size = 8)
    as [->|[->|[->|[->|[->|[->|[->| ->]]]]]]] by lia; cbn;
    (split; intros; first [done|lia]).
Qed.

(** ** universal_lock *)

Section universal.
Context (irql : nat -> Z).

Definition below (t : nat) : Prop := irql t < DISPATCH.

Record universal_inv (l : universal_lock) (inside : list nat) : Prop := {
  ui_mutex : forall t, t ∈ inside /\ below t <-> exists n, m_mtx l = Some (t, n);
  ui_count : forall t n, m_mtx l = Some (t, n) -> n = 1%nat;
  ui_spin : m_spinlock l = true <-> exists t, t ∈ inside /\ ~ below t;
  ui_once : forall t u, t ∈ inside -> u ∈ inside -> ~ below t -> ~ below u -> t = u }.

Lemma universal_try_inv l inside t l' :
  universal_inv l inside -> t ∉ inside -> universal_try t (irql t) l = Some l' ->
  universal_inv l' (t :: inside).
Proof.
  intros [Hm Hc Hs Ho] Ht Htry. unfold universal_try in Htry. destruct (Z.ltb_spec (irql t) DISPATCH) as [Hb|Hb].
  - assert (m_mtx l = None) as Hnone.
    { destruct (m_mtx l) as [[owner n]|] eqn:E; [|done]. case_decide as Eo; [|done]. subst owner.
      destruct Ht. by apply Hm; exists n. }
    rewrite Hnone in Htry. simplify_eq. split; cbn.
    + intros u. rewrite elem_of_cons. split.
      * intros [[->|Hu] Hbu]; [by exists 1%nat|]. destruct (proj1 (Hm u) (conj Hu Hbu)) as [n Hn]. congruence.
      * intros [n [= <- _]]. by split; [left|].
    + by intros u n [= _ <-].
    + rewrite Hs. setoid_rewrite elem_of_cons. split; [naive_solver|]. intros (u & [->|Hu] & Hnb); [done|by exists u].
    + intros u v [->|Hu]%elem_of_cons [->|Hv]%elem_of_cons; try done. by apply Ho.
  - destruct (m_spinlock l) eqn:Esp; [done|]. simplify_eq.
    assert (forall u, u ∈ inside -> ~ below u -> False) as Hnone.
    { intros u Hu Hnb. assert (false = true); [|done]. apply Hs. by exists u. }
    assert (~ below t) as Hnb by (unfold below; lia). split; cbn.
    + intros u. rewrite <- Hm, elem_of_cons. naive_solver.
    + done.
    + split; [intros _; exists t; by split; [left|]|done].
    + intros u v [->|Hu]%elem_of_cons [->|Hv]%elem_of_cons Hu' Hv'; [done|..]; exfalso; by eapply Hnone.
Qed.

(** A thread that holds the lock can release it. *)
Lemma universal_unlock_inv l inside t :
  universal_inv l inside -> t ∈ inside ->
  exists l', universal_unlock t (irql t) l = Ok l' tt /\ universal_inv l' (filter (fun u => u <> t) inside).
Proof.
  intros [Hm Hc Hs Ho] Ht. unfold universal_unlock, get, mbind, M_bind.
  destruct (Z.ltb_spec (irql t) DISPATCH) as [Hb|Hb].
  - destruct (proj1 (Hm t) (conj Ht Hb)) as [n Hn]. rewrite Hn. pose proof (Hc _ _ Hn) as ->. cbn.
    rewrite decide_True by done. eexists. split; [done|]. split; cbn.
    + intros u. rewrite list_elem_of_filter. split; [|by intros [? [=]]]. intros [[Hne Hu] Hbu].
      destruct (proj1 (Hm u) (conj Hu Hbu)) as [m Hmu]. congruence.
    + done.
    + rewrite Hs. setoid_rewrite list_elem_of_filter. split.
      * intros (u & Hu & Hnb). exists u. split; [|done]. split; [|done]. by intros ->.
      * intros (u & [_ Hu] & Hnb). by exists u.
    + intros u v [_ Hu]%list_elem_of_filter [_ Hv]%list_elem_of_filter. by apply Ho.
  - assert (~ below t) as Hnb by (unfold below; lia).
    assert (m_spinlock l = true) as -> by (apply Hs; by exists t). eexists. split; [done|]. split; cbn.
    + intros u. rewrite <- Hm, list_elem_of_filter. split; [naive_solver|]. intros [Hu Hbu].
      split; [|done]. split; [by intros ->|done].
    + done.
    + split; [done|]. intros (u & [Hne Hu]%list_elem_of_filter & Hnbu). destruct Hne. by apply Ho.
    + intros u v [_ Hu]%list_elem_of_filter [_ Hv]%list_elem_of_filter. by apply Ho.
Qed.

Lemma universal_reachable_inv l inside : universal_reachable irql l inside -> universal_inv l inside.
Proof.
  induction 1 as [|l inside t l' _ IH Ht Htry|l inside t l' _ IH Ht Hun].
  - split; cbn; try done.
    + intros t. split; [by intros [?%elem_of_nil _]|by intros [? [=]]].
    + split; [done|by intros (t & ?%elem_of_nil & _)].
    + by intros t u ?%elem_of_nil.
  - by eapply universal_try_inv.
  - destruct (universal_unlock_inv _ _ _ IH Ht) as (l2 & Hr & Hinv). rewrite Hr in Hun. by simplify_eq.
Qed.
End universal.

(** C11: Threads at fixed interrupt levels: of the threads below [DISPATCH_LEVEL] at most one
    holds the universal lock, and of those at or above it at most one, and a thread that
    holds it can release it; two threads of the two kinds hold it at the same time, because
    the lock of the one is a mutex and that of the other is a spin lock. *)
Theorem universal_lock_exclusion :
  (forall irql l inside, universal_reachable irql l inside ->
    (forall t u, t ∈ inside -> u ∈ inside -> (below irql t <-> below irql u) -> t = u) /\
    (forall t, t ∈ inside -> exists l', universal_unlock t (irql t) l = Ok l' tt)) /\
  exists irql l, universal_reachable irql l [1%nat; 0%nat].
Proof.
  split.
  - intros irql l inside Hr. pose proof (universal_reachable_inv irql l inside Hr) as Hinv. split.
    + intros t u Ht Hu Hiff. destruct (decide (irql t < DISPATCH)) as [Hb|Hnb].
      * destruct (proj1 (ui_mutex _ _ _ Hinv t) (conj Ht Hb)) as [n Hn].
        destruct (proj1 (ui_mutex _ _ _ Hinv u) (conj Hu (proj1 Hiff Hb))) as [m Hm]. congruence.
      * apply (ui_once _ _ _ Hinv); try done. by rewrite <- Hiff.
    + intros t Ht. destruct (universal_unlock_inv irql l inside t Hinv Ht) as (l' & Hr' & _). by exists l'.
  - exists (fun t => if (t =? 0)%nat then 0 else 2), (UniversalLock (Some (0%nat, 1%nat)) true).
    eapply universal_locked; [eapply universal_locked; [constructor|by apply not_elem_of_nil|done]| |done].
    by rewrite elem_of_cons; intros [|?%elem_of_nil].
Qed.

(** ** Instances *)

#[local] Instance demo_interlocked : interlocked := {
  InterlockedExchange w place v := (v, place);
  InterlockedCompareExchange w place desired expected := (if place =? expected then desired else place, place);
  InterlockedExchangeAdd8 place v := (signed 8 (place + v), place);
  InterlockedAdd64 place v := (signed 64 (place + v), signed 64 (place + v));
  InterlockedAnd w place v := (Z.land place v, place);
  InterlockedOr w place v := (Z.lor place v, place);
  InterlockedXor w place v := (Z.lxor place v, place);
  InterlockedIncrement w place := (signed w (place + 1), signed w (place + 1));
  InterlockedDecrement w place := (signed w (place - 1), signed w (place - 1));
}.

#[local] Instance demo_interlocked_laws : interlocked_laws.
Proof. by split. Defined.

Definition uint8 : int_type := IntType 8 false.
Definition uint32 : int_type := IntType 32 false.
Definition uint64 : int_type := IntType 64 false.

Lemma uint_ok : type_ok uint8 /\ type_ok uint32 /\ type_ok uint64.
Proof. unfold type_ok. cbn. lia. Qed.

Lemma atomic_addition_witness :
  fetch_add uint8 200 100 = Val (44, 156) /\
  fetch_add uint32 1 0 = IllFormed /\
  fetch_add uint64 1 (2 ^ 63 - 1) = Undefined.
Proof.
  destruct uint_ok as (H8 & H32 & H64). split; [|split].
  - destruct (atomic_addition uint8 H8 100 200) as (_ & Ha & _); [cbv; split; congruence|].
    rewrite (proj1 (Ha eq_refl)). by vm_compute.
  - destruct (atomic_addition uint32 H32 0 1) as (Ha & _); [cbv; split; congruence|].
    apply (Ha (or_intror eq_refl)).
  - destruct (atomic_addition uint64 H64 (2 ^ 63 - 1) 1) as (_ & _ & Ha); [cbv; split; congruence|].
    rewrite (proj1 (Ha eq_refl)). by vm_compute.
Defined.

Lemma atomic_increment_witness :
  post_increment uint32 (2 ^ 31 - 1) = Undefined /\ pre_increment uint32 (2 ^ 31 - 1) = Val (2 ^ 31, 2 ^ 31) /\
  pre_increment uint8 255 = Val (0, 255).
Proof.
  destruct uint_ok as (H8 & H32 & _).
  destruct (atomic_increment uint32 H32 (2 ^ 31 - 1)) as (Hs & _); [cbv; split; congruence|].
  destruct (Hs ltac:(done)) as (Ha & _ & Hb & _). split; [rewrite Hb; by vm_compute|].
  split; [rewrite Ha; by vm_compute|].
  destruct (atomic_increment uint8 H8 255) as (_ & Hc); [cbv; split; congruence|].
  rewrite (proj1 (Hc eq_refl)). by vm_compute.
Defined.

Lemma atomic_read_modify_write_witness :
  atomic_compare_exchange uint32 7 9 7 = Val (9, (true, 7)) /\ fetch_xor uint32 5 3 = Val (6, 3).
Proof.
  destruct uint_ok as (_ & H32 & _). split.
  - destruct (atomic_read_modify_write uint32 H32 7 7 9) as (_ & -> & _); [cbv; split; congruence..|]. done.
  - destruct (atomic_read_modify_write uint32 H32 3 5 5) as (_ & _ & _ & _ & ->); [cbv; split; congruence..|]. done.
Defined.

Lemma tickets_consecutive_witness :
  run_accesses (replicate 3 (pre_increment uint32)) (2 ^ 32 - 2) = Val (1, [2 ^ 32 - 1; 0; 1]).
Proof.
  destruct uint_ok as (_ & H32 & _).
  rewrite (proj1 (tickets_consecutive uint32 H32 (2 ^ 32 - 2) 3 ltac:(done) ltac:(cbv; split; congruence))).
  by vm_compute.
Defined.

Lemma combine_orders_bound_witness :
  combine_cas_memory_orders release acquire = Val acq_rel /\ upper_bound release acquire acq_rel.
Proof. split; [done|]. exact (proj1 (proj2 (combine_orders_bound release acquire) acq_rel eq_refl)). Defined.

Lemma lock_free_sizes_witness : 0 < 8 /\ is_always_lock_free 8 = true.
Proof. split; [lia|]. apply (lock_free_sizes 8); lia. Defined.

Lemma universal_lock_exclusion_witness :
  exists l', universal_unlock 0 0 (UniversalLock (Some (0%nat, 1%nat)) false) = Ok l' tt.
Proof.
  apply (proj1 universal_lock_exclusion (fun _ => 0) (UniversalLock (Some (0%nat, 1%nat)) false) [0%nat]).
  - eapply universal_locked; [constructor|by apply not_elem_of_nil|done].
  - by left.
Defined.
