(* ===== verification/WinntStringReads.v ===== *)
(** * Reading owning strings (include/string.hpp)

    The members of [basic_winnt_string] that only read: element access, comparison, the
    comparison operators with strings, literals and native strings, and searching.  Most
    hand the characters to the routines of StringView. *)
From Stdlib Require Import ZArith Lia.
From stdpp Require Import base list gmap numbers.
From S2P Require Import Prelude Algorithms StringView WinntString WinntStringSpec.
#[local] Open Scope Z_scope.

Section reads.
Context (sizeof_char : Z).

(** [*raw_str()]: the counts, and the characters that can be read at the buffer. *)
Definition raw_str (o : nat) : M str_world native_string :=
  s ← get_str o;
  w ← get;
  l ← match str_Buffer s with Sso => mret (m_buffer s) | Heap id => access (char_blocks w !! id) end;
  mret (NativeString l (str_Length s) (str_MaximumLength s)).

(** A routine that works on characters. *)
Definition on_chars {A} (m : M unit A) : M str_world A := fun w =>
  match m tt with
  | Ok _ a => Ok w a
  | Throw _ e => Throw w e
  | Fault => Fault
  | Diverge => Diverge
  end.

(** ** Element access *)

Definition str_index (o : nat) (idx : Z) : M str_world Z :=
  s ← raw_str o; access (Buffer s !! Z.to_nat idx).
Definition str_front (o : nat) : M str_world Z := str_index o 0.
Definition str_back (o : nat) : M str_world Z :=
  s ← raw_str o; str_index o (get_size sizeof_char s - 1).
Definition str_empty (o : nat) : M str_world bool :=
  s ← raw_str o; mret (get_size sizeof_char s =? 0).

(** ** compare *)

Definition str_compare (o other : nat) : M str_world Z :=
  s ← raw_str o; t ← raw_str other;
  on_chars (compare_unchecked (Buffer s) (get_size sizeof_char s) (Buffer t) (get_size sizeof_char t)).

Definition str_compare_native (o : nat) (t : native_string) : M str_world Z :=
  s ← raw_str o;
  on_chars (compare_unchecked (Buffer s) (get_size sizeof_char s) (Buffer t) (get_size sizeof_char t)).

Definition str_compare_literal (o : nat) (null_terminated_str : list Z) : M str_world Z :=
  s ← raw_str o;
  n ← on_chars (traits_length null_terminated_str);
  on_chars (compare_unchecked (Buffer s) (get_size sizeof_char s) null_terminated_str (u16 (Z.of_nat n))).

(** [compare(my_pos, my_count, str, other_count)]. *)
Definition str_compare_part (o : nat) (my_pos my_count : Z) (str : list Z) (other_count : Z) : M str_world Z :=
  s ← raw_str o;
  let current_size := get_size sizeof_char s in
  if current_size <? my_pos then throw out_of_range else
  on_chars (compare_unchecked (drop (Z.to_nat my_pos) (Buffer s))
    (Z.min (u16 (current_size - my_pos)) my_count) str other_count).

Definition str_compare_part_literal (o : nat) (my_pos my_count : Z) (null_terminated_str : list Z)
    : M str_world Z :=
  n ← on_chars (traits_length null_terminated_str);
  str_compare_part o my_pos my_count null_terminated_str (u16 (Z.of_nat n)).

(** ** Operators

    The right operand is a string, a literal or a native string. *)

Inductive str_operand := String (other : nat) | Literal (text : list Z) | Native (t : native_string).

Definition str_compare_to (o : nat) (x : str_operand) : M str_world Z :=
  match x with
  | String other => str_compare o other
  | Literal text => str_compare_literal o text
  | Native t => str_compare_native o t
  end.

(** The comparison for equality with a native string returns [lhs == native_str], which is
    itself: each call makes another one. *)
Fixpoint str_eq_native (calls : nat) (o : nat) (t : native_string) : M str_world bool :=
  match calls with
  | O => diverge
  | S calls => str_eq_native calls o t
  end.

Definition str_eq (calls : nat) (o : nat) (x : str_operand) : M str_world bool :=
  match x with
  | Native t => str_eq_native calls o t
  | _ => c ← str_compare_to o x; mret (c =? 0)
  end.
Definition str_ne (calls : nat) (o : nat) (x : str_operand) : M str_world bool :=
  b ← str_eq calls o x; mret (negb b).
Definition str_lt (o : nat) (x : str_operand) : M str_world bool := c ← str_compare_to o x; mret (c <? 0).
Definition str_gt (o : nat) (x : str_operand) : M str_world bool := c ← str_compare_to o x; mret (0 <? c).
Definition str_le (o : nat) (x : str_operand) : M str_world bool := b ← str_gt o x; mret (negb b).

(** [lhs >= rhs] of two strings is [!(rhs > lhs)], of a string and another operand
    [!(lhs < rhs)]. *)
Definition str_ge (o : nat) (x : str_operand) : M str_world bool :=
  match x with
  | String other => b ← str_gt other (String o); mret (negb b)
  | _ => b ← str_lt o x; mret (negb b)
  end.

(** ** Searching *)

Definition str_find (o other : nat) (my_pos : Z) : M str_world Z :=
  s ← raw_str o; t ← raw_str other;
  on_chars (find_substr (Buffer s) my_pos (get_size sizeof_char s) (Buffer t) (get_size sizeof_char t)).

Definition str_find_literal (o : nat) (null_terminated_str : list Z) : M str_world Z :=
  s ← raw_str o;
  on_chars (t ← view_of_literal sizeof_char null_terminated_str; view_find sizeof_char s t 0).

Definition str_find_chars (o : nat) (str : list Z) (my_pos str_count : Z) : M str_world Z :=
  s ← raw_str o;
  on_chars (view_find sizeof_char s (make_native_str sizeof_char str str_count) my_pos).

Definition str_find_ch (o : nat) (ch my_pos : Z) : M str_world Z :=
  s ← raw_str o; on_chars (StringView.find_ch (Buffer s) ch (get_size sizeof_char s) my_pos).

Definition str_find_first_of (o other : nat) (my_pos : Z) : M str_world Z := str_find o other my_pos.
Definition str_find_first_of_literal (o : nat) (null_terminated_str : list Z) : M str_world Z :=
  str_find_literal o null_terminated_str.

Definition str_contains_ch (o : nat) (ch : Z) : M str_world bool :=
  p ← str_find_ch o ch 0; mret (negb (p =? npos)).
Definition str_contains_literal (o : nat) (null_terminated_str : list Z) : M str_world bool :=
  p ← str_find_literal o null_terminated_str; mret (negb (p =? npos)).
Definition str_contains (o : nat) (t : native_string) : M str_world bool :=
  s ← raw_str o; on_chars (view_contains sizeof_char s t).

Definition str_starts_with (o : nat) (t : native_string) : M str_world bool :=
  s ← raw_str o; on_chars (starts_with sizeof_char s t).
Definition str_ends_with (o : nat) (t : native_string) : M str_world bool :=
  s ← raw_str o; on_chars (ends_with sizeof_char s t).
End reads.

(** ** Characters *)

Lemma traits_length_ok text rest :
  0 ∉ text -> traits_length (text ++ 0 :: rest) tt = Ok tt (length text).
Proof.
  induction text as [|x text IH]; intros Hn; [done|].
  cbn. destruct (Z.eqb_spec x 0) as [->|]; [by destruct Hn; left|].
  unfold mbind, M_bind. rewrite IH; [done|]. intros Hin. by apply Hn; right.
Qed.

(** The first position of a character from [i] on. *)
Fixpoint first_index (ch : Z) (l : list Z) : option nat :=
  match l with
  | [] => None
  | x :: l => if x =? ch then Some O else S <$> first_index ch l
  end.

Lemma traits_find_spec n l ch :
  (n <= length l)%nat -> traits_find n l ch tt = Ok tt (first_index ch (take n l)).
Proof.
  revert l. induction n as [|n IH]; intros [|x l] Hn; cbn in *; try lia; try done.
  unfold mbind, M_bind. cbn. destruct (x =? ch); [done|]. rewrite IH by lia. done.
Qed.

Lemma first_index_Some ch l i :
  first_index ch l = Some i <-> l !! i = Some ch /\ forall j, (j < i)%nat -> l !! j <> Some ch.
Proof.
  revert i. induction l as [|x l IH]; intros i; cbn.
  - split; [done|by intros [E _]; rewrite lookup_nil in E].
  - destruct (Z.eqb_spec x ch) as [->|Hne].
    + split; [intros [= <-]; split; [done|lia]|]. intros [_ Hmin]. destruct i; [done|].
      by destruct (Hmin 0%nat ltac:(lia)).
    + rewrite fmap_Some. setoid_rewrite IH. split.
      * intros (j & [Hj Hmin] & ->). split; [done|]. intros [|k] Hk; [cbn; congruence|]. apply Hmin. lia.
      * intros [Hi Hmin]. destruct i as [|i]; [cbn in Hi; congruence|]. exists i. split; [|done].
        split; [done|]. intros j Hj. apply (Hmin (S j)). lia.
Qed.

Lemma first_index_None ch l : first_index ch l = None <-> ch ∉ l.
Proof.
  induction l as [|x l IH]; cbn; [split; [intros _; apply not_elem_of_nil|done]|].
  rewrite not_elem_of_cons. destruct (Z.eqb_spec x ch) as [->|Hne]; [split; [done|by intros []]|].
  rewrite fmap_None, IH. split; [by split|by intros []].
Qed.

(** ** Strings as native strings *)

Section spec.
Context (sizeof_char sso : Z) {char_size : char_width sizeof_char} {sso_range : inner_size sso}.
Implicit Types (w : str_world) (o other : nat) (l : list Z) (t : native_string).

Abbreviation size := (get_size sizeof_char).
Abbreviation chars := (StringView.chars sizeof_char).
Abbreviation view_ok := (StringView.view_ok sizeof_char).

(** String [o] has text [l]. *)
Definition has_text w o l : Prop := world_ok sizeof_char sso w /\ texts sizeof_char w !! o = Some l.

Lemma raw_str_ok w o l :
  has_text w o l -> exists t, raw_str o w = Ok w t /\ view_ok t /\ chars t = l.
Proof.
  intros [Hw Ho]. unfold texts in Ho. apply lookup_fmap_Some in Ho as (s & <- & Hs).
  pose proof (wo_strings _ _ _ Hw _ _ Hs) as Hok.
  exists (NativeString (buffer_chars (char_blocks w) s) (str_Length s) (str_MaximumLength s)).
  pose proof (so_length _ _ _ _ Hok) as Hlen. pose proof (so_size _ _ _ _ Hok) as Hsize.
  pose proof (so_capacity _ _ _ _ Hok) as Hcap. pose proof (so_chars _ _ _ _ Hok) as Hchars.
  pose proof (max_size_range sizeof_char) as [_ Hmax].
  assert (0 < sizeof_char) as Hpos by (destruct char_size; lia). split; [|split].
  - unfold raw_str. erewrite bind_Ok by (apply (get_str_ok w o s Hs)). unfold get, mbind, M_bind, buffer_chars.
    pose proof (so_location _ _ _ _ Hok) as Hloc. destruct (str_Buffer s) as [|id]; [done|].
    destruct Hloc as [_ [b Hb]]. by rewrite Hb.
  - split; cbn [Length].
    + rewrite Hlen. split; [nia|]. eapply Z.le_lt_trans; [|exact Hmax]. nia.
    + rewrite Hlen. by apply Z.mod_mul; lia.
    + unfold StringView.get_size. cbn [Length Buffer]. change (bytes_count_to_ch sizeof_char (str_Length s))
        with (str_size sizeof_char s). lia.
  - done.
Qed.

Lemma text_length w o l : has_text w o l -> Z.of_nat (length l) < 2 ^ 16.
Proof.
  intros H. destruct (raw_str_ok w o l H) as (t & _ & Ht & <-).
  rewrite (length_chars sizeof_char char_size) by done. pose proof (get_size_range sizeof_char char_size t Ht).
  pose proof (vo_length _ _ Ht). destruct char_size as [E|E]; rewrite E in *; lia.
Qed.

Lemma on_chars_ok {A} (m : M unit A) w a : m tt = Ok tt a -> on_chars m w = Ok w a.
Proof. unfold on_chars. by intros ->. Qed.

(** An operand with its text. *)
Definition operand_text w (x : str_operand) l : Prop :=
  match x with
  | String other => has_text w other l
  | Literal text => exists rest, text = l ++ (0 :: rest) /\ (0 ∉ l) /\ Z.of_nat (length l) < 2 ^ 16
  | Native t => view_ok t /\ chars t = l
  end.

Lemma compare_texts t l m r w n :
  view_ok t -> chars t = l -> take (Z.to_nat n) r = m -> 0 <= n <= Z.of_nat (length r) ->
  on_chars (compare_unchecked (Buffer t) (size t) r n) w = Ok w (lex_compare l m).
Proof.
  intros Ht <- <- Hn. apply on_chars_ok. apply compare_unchecked_spec; [|done].
  pose proof (get_size_range sizeof_char char_size t Ht). pose proof (vo_buffer _ _ Ht). lia.
Qed.

Lemma view_size_range t : view_ok t -> 0 <= size t <= Z.of_nat (length (Buffer t)).
Proof. intros Ht. pose proof (get_size_range sizeof_char char_size t Ht). pose proof (vo_buffer _ _ Ht). lia. Qed.

Lemma literal_prefix l rest : take (Z.to_nat (Z.of_nat (length l))) (l ++ 0 :: rest) = l.
Proof. rewrite Nat2Z.id. apply take_app_length. Qed.

Lemma str_compare_to_ok w o x l r :
  has_text w o l -> operand_text w x r -> str_compare_to sizeof_char o x w = Ok w (lex_compare l r).
Proof.
  intros Ho Hx. destruct (raw_str_ok w o l Ho) as (t & Hraw & Ht & Hl).
  destruct x as [other|text|n]; cbn [str_compare_to operand_text] in *.
  - destruct (raw_str_ok w other r Hx) as (u & Hraw' & Hu & Hr). unfold str_compare.
    erewrite bind_Ok by exact Hraw. erewrite bind_Ok by exact Hraw'.
    apply compare_texts; [done..|]. by apply view_size_range.
  - destruct Hx as (rest & -> & Hno & Hlen). unfold str_compare_literal. erewrite bind_Ok by exact Hraw.
    erewrite bind_Ok by (apply on_chars_ok, traits_length_ok, Hno). rewrite wrap_small by lia.
    apply compare_texts; [done..|apply literal_prefix|]. rewrite length_app. lia.
  - destruct Hx as [Hn <-]. unfold str_compare_native. erewrite bind_Ok by exact Hraw.
    apply compare_texts; [done..|]. by apply view_size_range.
Qed.

(** ** Lexicographic order *)

Lemma lex_compare_range l r : lex_compare l r = -1 \/ lex_compare l r = 0 \/ lex_compare l r = 1.
Proof.
  revert r. induction l as [|x l IH]; intros [|y r]; cbn; auto.
  destruct (x =? y); [apply IH|]. destruct (x <? y); auto.
Qed.

Lemma lex_compare_flip l r : lex_compare r l = - lex_compare l r.
Proof.
  revert r. induction l as [|x l IH]; intros [|y r]; cbn; try done.
  rewrite (Z.eqb_sym y x). destruct (Z.eqb_spec x y); [apply IH|].
  destruct (Z.ltb_spec x y), (Z.ltb_spec y x); lia.
Qed.

Lemma lex_compare_trans l m r : lex_compare l m = -1 -> lex_compare m r = -1 -> lex_compare l r = -1.
Proof.
  revert m r. induction l as [|x l IH]; intros [|y m] [|z r]; cbn; try done.
  destruct (Z.eqb_spec x y), (Z.eqb_spec y z), (Z.eqb_spec x z), (Z.ltb_spec x y), (Z.ltb_spec y z), (Z.ltb_spec x z);
    try lia; try done; by eauto.
Qed.

(** ** Properties *)

(** The comparison operators between a string and a string, a literal or a native string
    decide the lexicographic order of the texts, read only characters of the texts and
    change nothing; the comparison for equality with a native
    string is the exception: it calls itself and never returns, whatever the number of
    calls. *)
Theorem string_order_correct w o x l r :
  has_text w o l -> operand_text w x r ->
  str_lt sizeof_char o x w = Ok w (bool_decide (lex_compare l r = -1)) /\
  str_gt sizeof_char o x w = Ok w (bool_decide (lex_compare r l = -1)) /\
  str_le sizeof_char o x w = Ok w (bool_decide (lex_compare r l <> -1)) /\
  str_ge sizeof_char o x w = Ok w (bool_decide (lex_compare l r <> -1)) /\
  forall calls,
    (match x with Native _ => False | _ => True end ->
      str_eq sizeof_char calls o x w = Ok w (bool_decide (l = r)) /\
      str_ne sizeof_char calls o x w = Ok w (bool_decide (l <> r))) /\
    (match x with Native _ => True | _ => False end ->
      str_eq sizeof_char calls o x w = Diverge /\ str_ne sizeof_char calls o x w = Diverge).
Proof.
  intros Ho Hx. pose proof (str_compare_to_ok w o x l r Ho Hx) as Hc.
  pose proof (lex_compare_range l r) as Hr. pose proof (lex_compare_flip l r) as Hflip.
  assert (str_lt sizeof_char o x w = Ok w (bool_decide (lex_compare l r = -1))) as Hlt.
  { unfold str_lt. erewrite bind_Ok by exact Hc. unfold mret, M_ret. f_equal.
    by destruct Hr as [->|[->| ->]]. }
  assert (forall o x l r, str_compare_to sizeof_char o x w = Ok w (lex_compare l r) ->
    str_gt sizeof_char o x w = Ok w (bool_decide (lex_compare r l = -1))) as Hgt.
  { intros o' x' l' r' Hc'. unfold str_gt. erewrite bind_Ok by exact Hc'. unfold mret, M_ret. f_equal.
    rewrite (lex_compare_flip l' r'). by destruct (lex_compare_range l' r') as [->|[->| ->]]. }
  split; [done|]. split; [by apply Hgt|]. split; [|split].
  - unfold str_le. erewrite bind_Ok by (by apply Hgt). by rewrite bool_decide_not.
  - destruct x as [other|text|n]; cbn [str_ge].
    + erewrite bind_Ok by (eapply Hgt, str_compare_to_ok; [exact Hx|exact Ho]). by rewrite bool_decide_not.
    + erewrite bind_Ok by exact Hlt. by rewrite bool_decide_not.
    + erewrite bind_Ok by exact Hlt. by rewrite bool_decide_not.
  - intros calls. split.
    + intros Hkind. assert (str_eq sizeof_char calls o x w = Ok w (bool_decide (l = r))) as Heq.
      { assert ((lex_compare l r =? 0) = bool_decide (l = r)) as <-.
        { destruct (decide (l = r)) as [E|E].
          - rewrite bool_decide_true by done. by apply Z.eqb_eq, lex_compare_eq.
          - rewrite bool_decide_false by done. apply Z.eqb_neq. by rewrite lex_compare_eq. }
        destruct x as [other|text|n]; [| |done]; cbn [str_eq]; by erewrite bind_Ok by exact Hc. }
      split; [done|]. unfold str_ne. erewrite bind_Ok by exact Heq. by rewrite bool_decide_not.
    + intros Hkind. assert (str_eq sizeof_char calls o x w = Diverge) as Heq.
      { destruct x as [other|text|n]; try done. cbn [str_eq]. by induction calls. }
      split; [done|]. unfold str_ne, mbind, M_bind. by rewrite Heq.
Qed.

(** Searching a character returns its first position from the start position on, or
    [npos] when there is none or the start lies behind the end. *)
Theorem string_find_ch_correct w o l ch (my_pos : nat) :
  has_text w o l ->
  str_find_ch sizeof_char o ch (Z.of_nat my_pos) w =
    Ok w (match first_index ch (drop my_pos l) with
          | Some i => Z.of_nat (my_pos + i)
          | None => npos
          end).
Proof.
  intros Ho. destruct (raw_str_ok w o l Ho) as (t & Hraw & Ht & Hl).
  pose proof (view_size_range t Ht) as Hs. pose proof (length_chars sizeof_char char_size t Ht) as Hlen.
  rewrite Hl in Hlen. unfold str_find_ch. erewrite bind_Ok by exact Hraw. apply on_chars_ok. unfold StringView.find_ch.
  destruct (Z.leb_spec (size t) (Z.of_nat my_pos)).
  - by rewrite drop_ge by lia.
  - rewrite Nat2Z.id. erewrite bind_Ok by (apply traits_find_spec; rewrite length_drop; lia).
    assert (take (Z.to_nat (size t - Z.of_nat my_pos)) (drop my_pos (Buffer t)) = drop my_pos l) as ->.
    { rewrite <- Hl. unfold StringView.chars. rewrite skipn_firstn_comm. f_equal. lia. }
    destruct (first_index ch (drop my_pos l)); [|done]. unfold mret, M_ret. f_equal. lia.
Qed.

(** Comparing a part of a string: a position behind the end is refused, otherwise the
    characters from the position on, at most as many as asked for, are compared. *)
Theorem string_compare_part_correct w o l (my_pos my_count n : nat) str :
  has_text w o l -> Z.of_nat my_count < 2 ^ 16 -> (n <= length str)%nat ->
  str_compare_part sizeof_char o (Z.of_nat my_pos) (Z.of_nat my_count) str (Z.of_nat n) w =
    if decide (my_pos <= length l)%nat
    then Ok w (lex_compare (take my_count (drop my_pos l)) (take n str))
    else Throw w out_of_range.
Proof.
  intros Ho Hcount Hn. destruct (raw_str_ok w o l Ho) as (t & Hraw & Ht & Hl).
  pose proof (view_size_range t Ht) as Hs. pose proof (length_chars sizeof_char char_size t Ht) as Hlen.
  rewrite Hl in Hlen. pose proof (text_length w o l Ho) as Hbound.
  unfold str_compare_part. erewrite bind_Ok by exact Hraw. cbv zeta.
  destruct (Z.ltb_spec (size t) (Z.of_nat my_pos)), (decide (my_pos <= length l)%nat); try lia; [done|].
  apply on_chars_ok. rewrite wrap_small by lia. rewrite Nat2Z.id.
  rewrite compare_unchecked_spec by (rewrite ?length_drop; lia). rewrite Nat2Z.id.
  assert (take (Z.to_nat (Z.min (size t - Z.of_nat my_pos) (Z.of_nat my_count))) (drop my_pos (Buffer t)) =
          take my_count (drop my_pos l)) as ->; [|done].
  rewrite <- Hl. unfold StringView.chars. rewrite skipn_firstn_comm, take_take. f_equal. lia.
Qed.

(** ** Instances *)
End spec.

#[local] Instance demo_width : char_width 1.
Proof. by left. Defined.
#[local] Instance demo_inner : inner_size 16.
Proof. unfold inner_size. lia. Defined.

(** Two strings with inner buffers of 16 characters. *)
Definition demo_string (l : list Z) : winnt_string :=
  WinntStr Sso (Z.of_nat (length l)) 16 (l ++ replicate (16 - length l) 0).

Definition ascii_native (l : list Z) : native_string := make_native_str 1 l (Z.of_nat (length l)).

Definition demo_strings : str_world :=
  StrWorld (<[0%nat := demo_string [97; 98; 99]]> {[1%nat := demo_string [99; 98]]}) ∅.

Lemma demo_string_ok l : (length l <= 16)%nat -> str_ok 1 16 ∅ (demo_string l).
Proof.
  intros Hl. assert (str_size 1 (demo_string l) = Z.of_nat (length l)) as Hs by apply Z.div_1_r.
  split; rewrite ?Hs; unfold str_capacity, bytes_count_to_ch; cbn [str_MaximumLength demo_string str_Length m_buffer str_Buffer buffer_chars];
    rewrite ?Z.div_1_r; try lia; try (vm_compute; split; congruence).
  - rewrite length_app, length_replicate. lia.
  - unfold buffer_chars. cbn. rewrite length_app, length_replicate. lia.
Qed.

Lemma demo_texts :
  has_text 1 16 demo_strings 0 [97; 98; 99] /\ has_text 1 16 demo_strings 1 [99; 98].
Proof.
  assert (world_ok 1 16 demo_strings) as Hw.
  { split; cbn [strings char_blocks demo_strings].
    - intros o s [[<- <-]|[_ [<- <-]%lookup_singleton_Some]]%lookup_insert_Some; apply demo_string_ok; cbn; lia.
    - intros o o' s s' id [[<- <-]|[_ [<- <-]%lookup_singleton_Some]]%lookup_insert_Some; done.
    - intros id l. by rewrite lookup_empty. }
  split; (split; [done|by vm_compute]).
Qed.

Lemma string_order_correct_witness :
  str_lt 1 0 (String 1) demo_strings = Ok demo_strings true /\
  str_eq 1 100 0 (Native (ascii_native [97])) demo_strings = Diverge.
Proof.
  split.
  - destruct (string_order_correct 1 16 demo_strings 0 (String 1) _ _ (proj1 demo_texts) (proj2 demo_texts)) as [-> _].
    by vm_compute.
  - destruct (string_order_correct 1 16 demo_strings 0 (Native (ascii_native [97])) _ [97] (proj1 demo_texts))
      as (_ & _ & _ & _ & H).
    + split; [|done]. split; [by vm_compute|done|by vm_compute].
    + by apply (H 100%nat).
Defined.

Lemma string_find_ch_correct_witness : str_find_ch 1 0 99 1 demo_strings = Ok demo_strings 2.
Proof. refine (eq_trans (string_find_ch_correct 1 16 demo_strings 0 _ 99 1 (proj1 demo_texts)) _). by vm_compute. Defined.

Lemma string_compare_part_correct_witness :
  str_compare_part 1 0 4 1 [98] 1 demo_strings = Throw demo_strings out_of_range /\
  str_compare_part 1 0 1 1 [98] 1 demo_strings = Ok demo_strings 0.
Proof.
  split.
  - refine (eq_trans (string_compare_part_correct 1 16 demo_strings 0 _ 4 1 1 [98] (proj1 demo_texts) _ _) _); cbn; lia || done.
  - refine (eq_trans (string_compare_part_correct 1 16 demo_strings 0 _ 1 1 1 [98] (proj1 demo_texts) _ _) _); cbn; lia || done.
Defined.

(** [find_first_of] searches for the whole of its argument, not for one of its characters. *)
Example find_first_of_needs_all : str_find_first_of 1 0 1 0 demo_strings = Ok demo_strings npos.
Proof. by vm_compute. Qed.
