(* ===== verification/Ranges.v ===== *)
(** * Sequence algorithms and arrays (include/algorithm.hpp, array.hpp)

    The algorithms on ranges that write, on the buffers of Memory, for iterators that are
    weaker than pointers: rotation of forward iterators, reversal of bidirectional ones;
    exchanging and transforming ranges.  Lexicographic comparison, which for pointers
    compares bytes.  Arrays of a fixed size, whose iterators are pointers. *)
From Stdlib Require Import ZArith Lia.
From stdpp Require Import base list gmap numbers.
From S2P Require Import Prelude Algorithms Memory MemorySpec.

Section ranges.
Context {T : Type}.
Implicit Types (p q : ptr) (b : buffer).

(** ** Rotation of forward iterators *)

(** The loop that swaps until [current] arrives at [last]: the new [first] and [new_first]. *)
Fixpoint rotate_pass (fuel : nat) b (first new_first current last : nat) : M (mem T) (nat * nat) :=
  match fuel with
  | O => diverge
  | S fuel =>
      iter_swap (b, first) (b, current);;
      let first := S first in
      let current := S current in
      let new_first := if decide (first = new_first) then current else new_first in
      if decide (current = last) then mret (first, new_first)
      else rotate_pass fuel b first new_first current last
  end.

(** [while (new_first != last)]. *)
Fixpoint rotate_passes (fuel : nat) b (first new_first last : nat) : M (mem T) nat :=
  match fuel with
  | O => diverge
  | S fuel =>
      if decide (new_first = last) then mret first
      else
        r ← rotate_pass (last - new_first) b first new_first new_first last;
        rotate_passes fuel b r.1 r.2 last
  end.

Definition rotate_left_forward b (first new_first last : nat) : M (mem T) nat :=
  r ← rotate_pass (last - new_first) b first new_first new_first last;
  rotate_passes (S (last - first)) b r.1 r.2 last.

Definition rotate_forward b (first new_first last : nat) : M (mem T) nat :=
  if decide (first = new_first) then mret new_first
  else if decide (new_first = last) then mret first
  else rotate_left_forward b first new_first last.

(** ** Reversal and rotation of bidirectional iterators *)

(** The loop swaps with [last], not with the position before it. *)
Fixpoint reverse_bidirectional (fuel : nat) b (first last : nat) : M (mem T) unit :=
  match fuel with
  | O => diverge
  | S fuel =>
      if decide (first = last) then mret tt
      else
        let prev_last := pred last in
        if decide (first = prev_last) then mret tt
        else iter_swap (b, first) (b, last);; reverse_bidirectional fuel b (S first) last
  end.

(** [for (; first != new_first && last != new_first; ...)]: the two iterators. *)
Fixpoint swap_inwards (fuel : nat) b (first new_first last : nat) : M (mem T) (nat * nat) :=
  match fuel with
  | O => diverge
  | S fuel =>
      if decide (first = new_first \/ last = new_first) then mret (first, last)
      else
        iter_swap (b, first) (b, pred last);;
        swap_inwards fuel b (S first) new_first (pred last)
  end.

Definition rotate_left_bidirectional b (first new_first last : nat) : M (mem T) nat :=
  let fuel := S (last - first) in
  reverse_bidirectional fuel b first new_first;;
  reverse_bidirectional fuel b new_first last;;
  r ← swap_inwards fuel b first new_first last;
  reverse_bidirectional fuel b r.1 r.2;;
  mret r.1.

(** ** [swap_ranges] and [transform]; [count] is [lhs_last - lhs_first] *)

Fixpoint swap_ranges (count : nat) p q : M (mem T) ptr :=
  match count with
  | O => mret q
  | S count => iter_swap p q;; swap_ranges count (incr p) (incr q)
  end.

Fixpoint transform (count : nat) (in_first out_first : ptr) (unary_op : T -> T) : M (mem T) ptr :=
  match count with
  | O => mret out_first
  | S count =>
      x ← load in_first; assign out_first (unary_op x);;
      transform count (incr in_first) (incr out_first) unary_op
  end.

Fixpoint transform_binary (count : nat) (lhs_first rhs_first out_first : ptr) (binary_op : T -> T -> T)
    : M (mem T) ptr :=
  match count with
  | O => mret out_first
  | S count =>
      x ← load lhs_first; y ← load rhs_first; assign out_first (binary_op x y);;
      transform_binary count (incr lhs_first) (incr rhs_first) (incr out_first) binary_op
  end.
End ranges.

(** ** Lexicographic comparison *)

(** The loop for iterators in general. *)
Fixpoint lexicographical_comparator {A} (comp : A -> A -> bool) (l r : list A) : bool :=
  match l, r with
  | x :: l, y :: r =>
      if comp x y then true else if comp y x then false else lexicographical_comparator comp l r
  | [], _ :: _ => true
  | _, [] => false
  end.

(** The C function on bytes: the difference of the first bytes that differ. *)
Fixpoint memcmp (n : nat) (l r : list Z) : M unit Z :=
  match n with
  | O => mret 0%Z
  | S n =>
      x ← access (head l); y ← access (head r);
      if (x =? y)%Z then memcmp n (tail l) (tail r) else mret (x - y)%Z
  end.

Section pointers.
(** Elements of [sizeof_Ty] bytes, given by their bit patterns. *)
Context (sizeof_Ty : nat).

Definition object_bytes (l : list Z) : list Z := concat (le_bytes sizeof_Ty <$> l).

(** The comparison that is chosen for pointers, whatever they point to. *)
Definition compare_integral_impl (l r : list Z) (pred : Z -> bool) (lc : nat -> nat -> bool) : M unit bool :=
  let cmp_length := (min (length l) (length r) * sizeof_Ty)%nat in
  result ← memcmp cmp_length (object_bytes l) (object_bytes r);
  mret (if (result =? 0)%Z then lc (length l) (length r) else pred result).

Definition compare_integral_less (l r : list Z) : M unit bool :=
  compare_integral_impl l r (fun result => result <? 0)%Z (fun m n => bool_decide (m < n)).

(** ** Arrays *)

Definition array_eq (l r : list Z) : M unit bool := equal Z.eqb l r.
Definition array_ne (l r : list Z) : M unit bool := x ← array_eq l r; mret (negb x).
Definition array_lt (l r : list Z) : M unit bool := compare_integral_less l r.
Definition array_gt (l r : list Z) : M unit bool := array_lt r l.
Definition array_le (l r : list Z) : M unit bool := x ← array_lt r l; mret (negb x).
Definition array_ge (l r : list Z) : M unit bool := x ← array_lt l r; mret (negb x).
End pointers.

Section arrays.
Context {T : Type}.

Definition array_at (l : list T) (idx : nat) : M unit T :=
  if decide (idx < length l) then access (l !! idx) else throw out_of_range.
Definition array_index (l : list T) (idx : nat) : M unit T := access (l !! idx).
Definition array_front (l : list T) : M unit T := array_index l 0.
Definition array_back (l : list T) : M unit T := array_index l (pred (length l)).

(** [fill] and [swap] of arrays of [Size] elements that are the two buffers. *)
Definition array_fill (lay : layout_of T) (Size : nat) (value : T) : M (mem T) unit :=
  fill_n lay (Blk, 0) Size value.
Definition array_swap (Size : nat) : M (mem T) unit :=
  _ ← swap_ranges Size (Blk, 0) (Aux, 0); mret tt.
End arrays.

(** ** The passes of a rotation *)

Section spec.
Context {T : Type}.
Implicit Types (xs ys zs : list T) (pre post a : list (slot T)) (x y : T).
Abbreviation vals xs := (Val <$> xs).

(** A swap of the first element with the one behind [xs]. *)
Lemma iter_swap_front x xs y a pre post i j :
  i = length pre -> j = (length pre + S (length xs))%nat ->
  iter_swap (Blk, i) (Blk, j) (mkMem (pre ++ vals (x :: xs ++ [y]) ++ post) a) =
  Ok (mkMem ((pre ++ [Val y]) ++ vals (xs ++ [x]) ++ post) a) tt.
Proof.
  intros -> ->. replace (vals (x :: xs ++ [y]) ++ post) with (Val x :: vals xs ++ Val y :: post) by shape.
  etrans; [apply iter_swap_spec; [done|len]|]. f_equal. f_equal. shape.
Qed.

Lemma gcd_add_l m n : Nat.gcd (m + n) n = Nat.gcd m n.
Proof. by rewrite Nat.gcd_comm, Nat.gcd_add_diag_r, Nat.gcd_comm. Qed.

(** Finish with the run [H] of the rest, whose buffer and positions are written another way. *)
Ltac replays H :=
  etrans; [|etrans; [exact H|]]; [f_equal; first [len | f_equal; shape]|f_equal; [f_equal; shape|f_equal; len]].

(** A pass over [xs ++ zs ++ ys], with [zs] between [new_first] and [current], moves [ys] to
    the front.  What is left is a rotation of the same kind, and the greatest common divisor of
    the lengths of its parts is that of the parts before. *)
Lemma rotate_pass_spec ys : forall fuel xs zs pre post a,
  xs <> [] -> ys <> [] -> (length ys <= fuel)%nat ->
  let i := length pre in
  exists xs' zs', xs' <> [] /\ zs' ++ xs' = zs ++ xs /\
    Nat.gcd (length xs') (length zs') = Nat.gcd (length xs + length zs) (length ys + length zs) /\
    rotate_pass fuel Blk i (i + length xs) (i + length xs + length zs)
      (i + length xs + length zs + length ys) (mkMem (pre ++ vals (xs ++ zs ++ ys) ++ post) a) =
    Ok (mkMem (pre ++ vals (ys ++ xs' ++ zs') ++ post) a) (i + length ys, i + length ys + length xs').
Proof.
  induction ys as [|y ys IH]; intros fuel xs zs pre post a Hxs Hys Hfuel i; [done|].
  destruct xs as [|x xs]; [done|]. destruct fuel as [|fuel]; [cbn in Hfuel; lia|]. cbn [rotate_pass].
  replace (vals ((x :: xs) ++ zs ++ y :: ys) ++ post)
    with (vals (x :: (xs ++ zs) ++ [y]) ++ vals ys ++ post) by shape.
  erewrite bind_Ok by (apply iter_swap_front; len).
  replace ((pre ++ [Val y]) ++ vals ((xs ++ zs) ++ [x]) ++ vals ys ++ post)
    with ((pre ++ [Val y]) ++ vals (xs ++ (zs ++ [x]) ++ ys) ++ post) by shape.
  destruct (decide (ys = [])) as [->|Hne].
  - rewrite (decide_True (P := _ = i + length (x :: xs) + length zs + length [y])%nat) by (len).
    destruct xs as [|x' xs].
    + exists (zs ++ [x]), []. split; [by destruct zs|]. split; [done|]. split.
      * rewrite length_app. cbn [length]. rewrite Nat.gcd_0_r, Nat.gcd_diag. lia.
      * rewrite decide_True by (len). unfold mret, M_ret. f_equal; [f_equal; shape|f_equal; len].
    + exists (x' :: xs), (zs ++ [x]). split; [done|]. split; [by rewrite <- app_assoc|]. split.
      * rewrite <- gcd_add_l. f_equal; len.
      * rewrite decide_False by (len). unfold mret, M_ret. f_equal; [f_equal; shape|f_equal; len].
  - rewrite (decide_False (P := _ = i + length (x :: xs) + length zs + length (y :: ys))%nat) by (destruct ys; [done|len]).
    destruct xs as [|x' xs].
    + destruct (IH fuel (zs ++ [x]) [] (pre ++ [Val y]) post a) as (xs' & zs' & Hxs' & Happ & Hgcd & Hrun);
        [by destruct zs|done|cbn in Hfuel; lia|].
      exists xs', zs'. split; [done|]. split; [done|]. split.
      * rewrite Hgcd, length_app. cbn [length].
        rewrite <- (Nat.gcd_add_diag_r (length zs + 1 + 0)). f_equal; len.
      * rewrite decide_True by (len). replays Hrun.
    + destruct (IH fuel (x' :: xs) (zs ++ [x]) (pre ++ [Val y]) post a) as (xs' & zs' & Hxs' & Happ & Hgcd & Hrun);
        [done|done|cbn in Hfuel; lia|].
      exists xs', zs'. split; [done|]. split; [by rewrite Happ, <- app_assoc|]. split.
      * rewrite Hgcd. f_equal; len.
      * rewrite decide_False by (len). replays Hrun.
Qed.

Lemma rotate_passes_spec fuel : forall xs zs pre post a,
  xs <> [] -> (length xs + length zs < fuel)%nat ->
  let i := length pre in
  let last := (i + length xs + length zs)%nat in
  rotate_passes fuel Blk i (i + length xs) last (mkMem (pre ++ vals (xs ++ zs) ++ post) a) =
  Ok (mkMem (pre ++ vals (zs ++ xs) ++ post) a) (last - Nat.gcd (length xs) (length zs))%nat.
Proof.
  induction fuel as [|fuel IH]; intros xs zs pre post a Hxs Hfuel i last; [lia|]. cbn [rotate_passes].
  destruct (decide (zs = [])) as [->|Hzs].
  - rewrite decide_True by (subst last; len). rewrite app_nil_r. cbn [length].
    rewrite Nat.gcd_0_r. unfold mret, M_ret. f_equal. subst last. len.
  - rewrite decide_False by (subst last; destruct zs; [done|len]).
    destruct (rotate_pass_spec zs (last - (i + length xs)) xs [] pre post a) as (xs' & zs' & Hxs' & Happ & Hgcd & Hrun);
      [done|done|subst last; lia|].
    cbn [app length] in Hrun, Hgcd, Happ. rewrite !Nat.add_0_r in Hrun. rewrite !Nat.add_0_r in Hgcd.
    erewrite bind_Ok by exact Hrun. cbn [fst snd]. rewrite <- Hgcd.
    assert (length zs' + length xs' = length xs)%nat as Hlen by (by rewrite <- Happ, length_app).
    assert (0 < length zs)%nat by (destruct zs; [done|cbn; lia]).
    pose proof (IH xs' zs' (pre ++ vals zs) post a Hxs' ltac:(lia)) as Hrest. cbv zeta in Hrest.
    etrans; [|etrans; [exact Hrest|]]; [f_equal; first [subst last; len | f_equal; shape]|].
    f_equal; [f_equal; rewrite <- Happ; shape|subst last; len].
Qed.

(** A swap between the buffers. *)
Lemma iter_swap_buffers x y pre post pre' post' :
  iter_swap (Blk, length pre) (Aux, length pre') (mkMem (pre ++ Val x :: post) (pre' ++ Val y :: post')) =
  Ok (mkMem (pre ++ Val y :: post) (pre' ++ Val x :: post')) tt.
Proof.
  unfold iter_swap.
  run (load_at Blk _ pre x post). run (load_at Aux _ pre' y post').
  run (assign_at Blk _ pre (Val x) y post). by rewrite (assign_at Aux _ pre' (Val y) x post').
Qed.

(** Exchanging ranges that lie in different buffers exchanges their elements and returns the
    end of the second range. *)
Lemma swap_ranges_spec xs ys pre post pre' post' :
  length xs = length ys ->
  swap_ranges (length xs) (Blk, length pre) (Aux, length pre')
    (mkMem (pre ++ vals xs ++ post) (pre' ++ vals ys ++ post')) =
  Ok (mkMem (pre ++ vals ys ++ post) (pre' ++ vals xs ++ post')) (Aux, length pre' + length ys).
Proof.
  revert ys pre pre'. induction xs as [|x xs IH]; intros [|y ys] pre pre' Hlen; try done; cbn [length swap_ranges].
  - cbn. by rewrite Nat.add_0_r.
  - cbn [fmap list_fmap app]. erewrite bind_Ok by apply iter_swap_buffers.
    etrans; [|etrans; [apply (IH ys (pre ++ [Val y]) (pre' ++ [Val x])); cbn in Hlen; lia|]].
    + rewrite ?incr_pair; f_equal; first [f_equal; len|f_equal; shape].
    + f_equal; [f_equal; shape|f_equal; len].
Qed.

(** ** Properties *)

(** C35: Rotation with forward iterators exchanges the two parts of the range and leaves
    everything else alone; but the iterator it returns is [last] minus the greatest common
    divisor of their lengths, which is the new position of the first part exactly if the
    length of the first part divides that of the second. *)
Theorem rotate_forward_correct xs ys pre post a :
  xs <> [] -> ys <> [] ->
  let first := length pre in
  let new_first := (first + length xs)%nat in
  let last := (new_first + length ys)%nat in
  exists r,
    rotate_forward Blk first new_first last (mkMem (pre ++ vals (xs ++ ys) ++ post) a) =
      Ok (mkMem (pre ++ vals (ys ++ xs) ++ post) a) r /\
    r = (last - Nat.gcd (length xs) (length ys))%nat /\
    (r = (first + length ys)%nat <-> Nat.divide (length xs) (length ys)).
Proof.
  intros Hxs Hys first new_first last. eexists. split_and!.
  - unfold rotate_forward. rewrite !decide_False by (subst last new_first; destruct xs, ys; try done; len).
    pose proof (rotate_passes_spec (S (S (last - first))) xs ys pre post a Hxs) as H. cbv zeta in H.
    cbn [rotate_passes] in H. rewrite decide_False in H by (destruct ys; [done|len]).
    apply H. subst last new_first. lia.
  - done.
  - rewrite Nat.divide_gcd_iff by lia. pose proof (Nat.gcd_divide_l (length xs) (length ys)) as Hl.
    apply Nat.divide_pos_le in Hl; [|destruct xs; [done|cbn; lia]]. subst last new_first. lia.
Qed.

(** Reversing a range of at least two elements with bidirectional iterators does not
    reverse it: the element behind the range comes to the front, the others move up by one,
    the last one stays and the one before it leaves the range. *)
Theorem reverse_bidirectional_wrong xs y z w pre post a fuel :
  (length xs + 2 < fuel)%nat ->
  reverse_bidirectional fuel Blk (length pre) (length pre + length xs + 2)
    (mkMem (pre ++ vals (xs ++ [y; z]) ++ Val w :: post) a) =
  Ok (mkMem (pre ++ vals (w :: xs ++ [z]) ++ Val y :: post) a) tt.
Proof.
  revert w pre fuel. induction xs as [|x xs IH]; intros w pre [|fuel] Hfuel; try lia; cbn [reverse_bidirectional].
  - rewrite !decide_False by (cbn; lia).
    replace (vals ([] ++ [y; z]) ++ Val w :: post) with (vals (y :: [z] ++ [w]) ++ post) by shape.
    erewrite bind_Ok by (apply iter_swap_front; len). destruct fuel as [|fuel]; [cbn in Hfuel; lia|].
    cbn [reverse_bidirectional]. rewrite decide_False, decide_True by (cbn; lia). unfold mret, M_ret. f_equal. f_equal. shape.
  - rewrite !decide_False by (cbn; lia).
    replace (vals ((x :: xs) ++ [y; z]) ++ Val w :: post) with (vals (x :: (xs ++ [y; z]) ++ [w]) ++ post) by shape.
    erewrite bind_Ok by (apply iter_swap_front; len).
    etrans; [|etrans; [apply (IH x (pre ++ [Val w]) fuel)|]]; [f_equal; first [len|f_equal; shape]|len|f_equal; f_equal; shape].
Qed.

(** Transforming a range onto itself applies the operation to every element once, in
    place. *)
Theorem transform_in_place (f : T -> T) xs pre post a :
  transform (length xs) (Blk, length pre) (Blk, length pre) f (mkMem (pre ++ vals xs ++ post) a) =
  Ok (mkMem (pre ++ vals (f <$> xs) ++ post) a) (Blk, length pre + length xs).
Proof.
  revert pre. induction xs as [|x xs IH]; intros pre; cbn [length transform].
  - cbn. by rewrite Nat.add_0_r.
  - run (load_at Blk _ pre x (vals xs ++ post)). run (assign_at Blk _ pre (Val x) (f x) (vals xs ++ post)).
    etrans; [|etrans; [apply (IH (pre ++ [Val (f x)]))|]].
    + rewrite ?incr_pair; f_equal; first [f_equal; len|f_equal; shape].
    + f_equal; [f_equal; shape|f_equal; len].
Qed.
End spec.

(** ** Comparison of ranges *)

Section comparisons.
#[local] Open Scope Z_scope.

(** [l] comes before [r]: the first elements that [comp] distinguishes are in this order, or
    [l] is a proper prefix up to elements it does not distinguish. *)
Definition comes_before {A} (comp : A -> A -> bool) (l r : list A) : Prop :=
  exists i, (forall j x y, (j < i)%nat -> l !! j = Some x -> r !! j = Some y -> comp x y = false /\ comp y x = false) /\
    (i <= length l)%nat /\
    match l !! i, r !! i with
    | Some x, Some y => comp x y = true
    | None, Some _ => True
    | _, None => False
    end.

(** The bytes of an element in the opposite order. *)
Definition byte_swap (w : nat) (x : Z) : Z := le_word (reverse (le_bytes w x)).

Lemma le_word_app l r : le_word (l ++ r) = le_word l + 256 ^ Z.of_nat (length l) * le_word r.
Proof.
  induction l as [|x l IH]; cbn [app le_word length]; [lia|].
  rewrite IH, Nat2Z.inj_succ, Z.pow_succ_r by lia. lia.
Qed.

Lemma Forall_byte_reverse l : Forall is_byte l -> Forall is_byte (reverse l).
Proof. by rewrite Forall_reverse. Qed.

(** The comparison of bytes decides the order of the numbers that they are with the most
    significant byte first. *)
Lemma memcmp_words l r l' r' n :
  length l = length r -> Forall is_byte l -> Forall is_byte r ->
  exists c, memcmp (length l + n) (l ++ l') (r ++ r') tt =
      (if bool_decide (l = r) then memcmp n l' r' tt else Ok tt c) /\
    (l <> r -> c <> 0 /\ (c < 0 <-> le_word (reverse l) < le_word (reverse r))).
Proof.
  revert r. induction l as [|x l IH]; intros [|y r] Hlen Hl Hr; try done.
  - exists 0. by split.
  - injection Hlen as Hlen. apply Forall_cons_1 in Hl as [Hx Hl], Hr as [Hy Hr]. unfold is_byte in Hx, Hy.
    cbn [length plus memcmp app]. erewrite bind_Ok by reflexivity. erewrite bind_Ok by reflexivity. cbn [tail].
    rewrite !reverse_cons, !le_word_app, !length_reverse, Hlen. cbn [le_word].
    pose proof (le_word_bound _ (Forall_byte_reverse _ Hl)) as Bl. pose proof (le_word_bound _ (Forall_byte_reverse _ Hr)) as Br.
    rewrite length_reverse in Bl, Br. rewrite Hlen in Bl. destruct (Z.eqb_spec x y) as [->|Hne].
    + destruct (IH r Hlen Hl Hr) as (c & Hc & Hsign). exists c. rewrite <- Hlen, Hc. split.
      * by destruct (decide (l = r)) as [->|]; [rewrite !bool_decide_true|rewrite !bool_decide_false by congruence].
      * intros Hlr. assert (l <> r) as Hd by congruence. specialize (Hsign Hd). lia.
    + exists (x - y). rewrite bool_decide_false by congruence. split; [done|]. intros _. split; [lia|].
      split; intros; nia.
Qed.

Lemma byte_swap_inj w x y :
  0 <= x < 256 ^ Z.of_nat w -> 0 <= y < 256 ^ Z.of_nat w -> byte_swap w x = byte_swap w y -> x = y.
Proof.
  intros Hx Hy H. unfold byte_swap in H.
  assert (reverse (le_bytes w x) = reverse (le_bytes w y)) as Hr.
  { rewrite <- (le_bytes_word (reverse (le_bytes w x))), <- (le_bytes_word (reverse (le_bytes w y))) by
      (apply Forall_byte_reverse, le_bytes_bytes). by rewrite !length_reverse, !length_le_bytes, H. }
  apply (inj reverse) in Hr. pose proof (le_word_le_bytes w x) as Ex. pose proof (le_word_le_bytes w y) as Ey.
  rewrite Hr in Ex. rewrite Z.mod_small in Ex, Ey by done. congruence.
Qed.

(** The order of lists of integers is total. *)
Lemma comparator_trichotomy l r :
  (if lexicographical_comparator Z.ltb l r then 1 else 0) + (if bool_decide (l = r) then 1 else 0) +
  (if lexicographical_comparator Z.ltb r l then 1 else 0) = 1.
Proof.
  revert r. induction l as [|x l IH]; intros [|y r]; try done. cbn [lexicographical_comparator].
  destruct (Z.ltb_spec x y), (Z.ltb_spec y x); try lia; try (rewrite bool_decide_false by (intros [=]; lia); done).
  assert (x = y) as -> by lia. etrans; [|apply (IH r)].
  rewrite (bool_decide_ext (y :: l = y :: r) (l = r)) by (split; [congruence|by intros ->]). done.
Qed.

Lemma equal_decides l r : length l = length r -> equal Z.eqb l r tt = Ok tt (bool_decide (l = r)).
Proof.
  revert r. induction l as [|x l IH]; intros [|y r] Hlen; try done. cbn [equal].
  destruct (Z.eqb_spec x y) as [->|Hne].
  - rewrite IH by (cbn in Hlen; lia). f_equal. apply bool_decide_ext. split; [by intros ->|congruence].
  - rewrite bool_decide_false by congruence. done.
Qed.

Lemma byte_swap_list_inj w l r :
  Forall (fun x => 0 <= x < 256 ^ Z.of_nat w) l -> Forall (fun x => 0 <= x < 256 ^ Z.of_nat w) r ->
  byte_swap w <$> l = byte_swap w <$> r -> l = r.
Proof.
  revert r. induction l as [|x l IH]; intros [|y r] Hl Hr; try done; cbn.
  apply Forall_cons_1 in Hl as [Hx Hl], Hr as [Hy Hr]. intros [= Hxy Hlr].
  f_equal; [by apply (byte_swap_inj w)|by apply IH].
Qed.

Lemma compare_integral_less_spec w l r :
  Forall (fun x => 0 <= x < 256 ^ Z.of_nat w) l -> Forall (fun x => 0 <= x < 256 ^ Z.of_nat w) r ->
  compare_integral_less w l r tt =
    Ok tt (lexicographical_comparator Z.ltb (byte_swap w <$> l) (byte_swap w <$> r)).
Proof.
  intros Hl Hr. revert r Hr. unfold compare_integral_less, compare_integral_impl, object_bytes.
  induction l as [|x l IH]; intros [|y r] Hr; try done.
  apply Forall_cons_1 in Hl as [Hx Hl], Hr as [Hy Hr].
  cbn [length fmap list_fmap concat lexicographical_comparator]. cbn [Nat.min Nat.mul].
  destruct (memcmp_words (le_bytes w x) (le_bytes w y) (concat (le_bytes w <$> l)) (concat (le_bytes w <$> r))
    (Nat.min (length l) (length r) * w)) as (c & Hc & Hsign);
    [by rewrite !length_le_bytes|apply le_bytes_bytes..|]. rewrite length_le_bytes in Hc.
  unfold mbind, M_bind. rewrite Hc. destruct (decide (x = y)) as [->|Hne].
  - rewrite bool_decide_true by done. rewrite Z.ltb_irrefl. etrans; [|apply (IH Hl r Hr)].
    clear Hc. unfold mbind, M_bind. destruct (memcmp _ _ _ _); try reflexivity. unfold mret, M_ret. f_equal.
    destruct (Z.eqb a 0); [|done]. apply bool_decide_ext. lia.
  - assert (byte_swap w x <> byte_swap w y) as Hne' by (contradict Hne; by apply (byte_swap_inj w)).
    assert (le_bytes w x <> le_bytes w y) as Hbytes by (unfold byte_swap in Hne'; congruence).
    rewrite bool_decide_false by done. destruct (Hsign Hbytes) as [Hc0 Hc1]. fold (byte_swap w x) (byte_swap w y) in Hc1.
    unfold mret, M_ret. f_equal. rewrite (proj2 (Z.eqb_neq _ _) Hc0).
    destruct (Z.ltb_spec (byte_swap w x) (byte_swap w y)), (Z.ltb_spec (byte_swap w y) (byte_swap w x)), (Z.ltb_spec c 0); lia || done.
Qed.

(** ** Properties of comparisons *)

(** The comparison of ranges in general decides their lexicographic order. *)
Theorem lexicographical_compare_correct {A} (comp : A -> A -> bool) l r :
  lexicographical_comparator comp l r = true <-> comes_before comp l r.
Proof.
  unfold comes_before. revert r. induction l as [|x l IH]; intros [|y r]; cbn [lexicographical_comparator].
  - split; [done|]. by intros (i & _ & _ & []).
  - split; [intros _|done]. exists O. split; [lia|]. cbn. split; [lia|done].
  - split; [done|]. intros (i & _ & Hi & H). rewrite lookup_nil in H. by destruct (_ !! i).
  - destruct (comp x y) eqn:Exy; [|destruct (comp y x) eqn:Eyx].
    + split; [intros _|done]. exists O. split; [lia|]. cbn. split; [lia|done].
    + split; [done|]. intros ([|i] & Hbefore & _ & H); [cbn in H; congruence|].
      destruct (Hbefore O x y) as [_ ?]; [lia|done|done|congruence].
    + rewrite IH. split.
      * intros (i & Hbefore & Hi & H). exists (S i). cbn [length lookup list_lookup]. split_and!; [|lia|exact H].
        intros [|j] u v Hj Hu Hv; [cbn in Hu, Hv; simplify_eq; done|]. apply (Hbefore j); [lia|done|done].
      * intros ([|i] & Hbefore & Hi & H); [cbn in H; congruence|]. cbn [length] in Hi. exists i. split_and!; [|lia|exact H].
        intros j u v Hj. apply (Hbefore (S j)). lia.
Qed.

(** The comparison that is chosen for pointers decides the lexicographic order of the
    elements with their bytes in the opposite order, which is the order of elements that are
    single bytes. *)
Theorem pointer_compare_swaps_bytes w l r :
  Forall (fun x => 0 <= x < 256 ^ Z.of_nat w) l -> Forall (fun x => 0 <= x < 256 ^ Z.of_nat w) r ->
  compare_integral_less w l r tt =
    Ok tt (lexicographical_comparator Z.ltb (byte_swap w <$> l) (byte_swap w <$> r)) /\
  (w = 1%nat -> compare_integral_less w l r tt = Ok tt (lexicographical_comparator Z.ltb l r)).
Proof.
  intros Hl Hr. pose proof (compare_integral_less_spec w l r Hl Hr) as Hswap.
  split; [done|]. intros ->. rewrite Hswap. f_equal.
  assert (forall l, Forall (fun x => 0 <= x < 256 ^ Z.of_nat 1) l -> byte_swap 1 <$> l = l) as Hid.
  { intros m Hm. rewrite <- (list_fmap_id m) at 2. apply list_fmap_ext. intros i x Hx.
    unfold byte_swap. cbn. rewrite Z.mod_small; [unfold id; lia|]. by eapply Forall_lookup_1 in Hm; [|exact Hx]. }
  by rewrite !Hid.
Qed.

(** The operators on arrays agree with each other: equality is decided, exactly one of
    [<], [==] and [>] holds, [<=] and [>=] are the complements of [>] and [<]. *)
Theorem array_operators_total w l r :
  Forall (fun x => 0 <= x < 256 ^ Z.of_nat w) l -> Forall (fun x => 0 <= x < 256 ^ Z.of_nat w) r ->
  length l = length r ->
  exists lt eq gt,
    array_lt w l r tt = Ok tt lt /\ array_eq l r tt = Ok tt eq /\ array_gt w l r tt = Ok tt gt /\
    array_ne l r tt = Ok tt (negb eq) /\ array_le w l r tt = Ok tt (negb gt) /\
    array_ge w l r tt = Ok tt (negb lt) /\ eq = bool_decide (l = r) /\
    (if lt then 1 else 0) + (if eq then 1 else 0) + (if gt then 1 else 0) = 1.
Proof.
  intros Hl Hr Hlen. pose proof (compare_integral_less_spec w l r Hl Hr) as Hlt.
  pose proof (compare_integral_less_spec w r l Hr Hl) as Hgt. pose proof (equal_decides l r Hlen) as Heq.
  do 3 eexists. split; [exact Hlt|]. split; [exact Heq|]. split; [exact Hgt|].
  unfold array_ne, array_le, array_ge, array_eq, array_lt. do 3 (split; [by erewrite bind_Ok by eassumption|]).
  split; [done|]. etrans; [|apply (comparator_trichotomy (byte_swap w <$> l) (byte_swap w <$> r))].
  rewrite (bool_decide_ext (l = r) (byte_swap w <$> l = byte_swap w <$> r)); [done|].
  split; [by intros ->|by apply byte_swap_list_inj].
Qed.
End comparisons.

(** ** Arrays *)

(** Access with a check to an array refuses exactly the indices that are not below its
    size; access without it reads the same elements. *)
Theorem array_at_correct {T} (l : list T) idx :
  (exists x, l !! idx = Some x /\ array_at l idx tt = Ok tt x /\ array_index l idx tt = Ok tt x) \/
  (length l <= idx /\ array_at l idx tt = Throw tt out_of_range /\ array_index l idx tt = Fault).
Proof.
  unfold array_at, array_index. destruct (decide (idx < length l)) as [Hi|Hi].
  - left. destruct (lookup_lt_is_Some_2 _ _ Hi) as [x Hx]. exists x. by rewrite Hx.
  - right. rewrite lookup_ge_None_2 by lia. by split; [lia|].
Qed.

(** Swapping two arrays exchanges their elements. *)
Theorem array_swap_correct {T} (xs ys : list T) :
  length xs = length ys ->
  array_swap (length xs) (mkMem (Val <$> xs) (Val <$> ys)) = Ok (mkMem (Val <$> ys) (Val <$> xs)) tt.
Proof.
  intros Hlen. pose proof (swap_ranges_spec xs ys [] [] [] [] Hlen) as H. rewrite !app_nil_r in H.
  unfold array_swap. by erewrite bind_Ok by exact H.
Qed.

(** ** Instances *)

(** Three elements are rotated, but the result is the position of the wrong element. *)
Lemma rotate_forward_correct_witness :
  exists r, rotate_forward Blk 0 2 3 (mkMem (Val <$> [10; 20; 30]) []) = Ok (mkMem (Val <$> [30; 10; 20]) []) r /\ r = 2.
Proof.
  destruct (rotate_forward_correct [10; 20] [30] [] [] []) as (r & Hrun & Hr & _); [done|done|].
  exists r. split; [exact Hrun|exact Hr].
Defined.

Lemma reverse_bidirectional_wrong_witness :
  reverse_bidirectional 5 Blk 0 3 (mkMem (Val <$> [1; 2; 3; 4]) []) = Ok (mkMem (Val <$> [4; 1; 3; 2]) []) tt.
Proof. apply (reverse_bidirectional_wrong [1] 2 3 4 [] [] [] 5). cbn. lia. Defined.

Lemma pointer_compare_swaps_bytes_witness :
  compare_integral_less 2 [256]%Z [1]%Z tt = Ok tt true /\ compare_integral_less 1 [2]%Z [1]%Z tt = Ok tt false.
Proof.
  split.
  - rewrite (proj1 (pointer_compare_swaps_bytes 2 [256]%Z [1]%Z ltac:(by repeat constructor) ltac:(by repeat constructor))).
    by vm_compute.
  - rewrite (proj2 (pointer_compare_swaps_bytes 1 [2]%Z [1]%Z ltac:(by repeat constructor) ltac:(by repeat constructor)) eq_refl).
    by vm_compute.
Defined.

(** Arrays of 16-bit integers: 256 counts as less than 1. *)
Lemma array_operators_total_witness :
  array_lt 2 [256]%Z [1]%Z tt = Ok tt true /\
  exists gt, array_gt 2 [256]%Z [1]%Z tt = Ok tt gt.
Proof.
  split; [by vm_compute|].
  destruct (array_operators_total 2 [256]%Z [1]%Z) as (lt & eq & gt & _ & _ & H & _); [by repeat constructor..|by repeat constructor|done|].
  by exists gt.
Defined.

Lemma array_swap_correct_witness :
  array_swap 2 (mkMem (Val <$> [1; 2]) (Val <$> [3; 4])) = Ok (mkMem (Val <$> [3; 4]) (Val <$> [1; 2])) tt.
Proof. by apply (array_swap_correct [1; 2] [3; 4]). Defined.

(** A bidirectional rotation of a whole buffer reads behind its end. *)
Example rotate_bidirectional_reads_end :
  rotate_left_bidirectional Blk 0 1 3 (mkMem (Val <$> [1; 2; 3]) []) = Fault.
Proof. by vm_compute. Qed.
