(* ===== verification/Construction.v ===== *)
(** * Construction in raw storage by constructors that throw (include/memory.hpp)

    The loops that construct objects in raw storage, with the helper objects that destroy
    what has been constructed when a constructor throws.  Memory models the same functions
    for element types whose constructors do not throw.

    [throws n] is what the constructor call number [n] throws, if it does; a constructor that
    throws leaves no object and does not change its argument.  Destructors do not throw. *)
From Stdlib Require Import ZArith Lia.
From stdpp Require Import base list gmap numbers.
From S2P Require Import Prelude Memory MemorySpec.
#[local] Open Scope nat_scope.

(** The buffers and the number of constructor calls so far. *)
Record objects (T : Type) := Objects { storage : mem T; calls : nat }.
Arguments Objects {T}.
Arguments storage {T}.
Arguments calls {T}.

(** A helper at work: [uninitialized_backout_base]. *)
Record uninitialized_backout (T : Type) := Backout {
  objs : objects T;
  m_dst_first : ptr;
  m_dst_cur : ptr;
}.
Arguments Backout {T}.
Arguments objs {T}.
Arguments m_dst_first {T}.
Arguments m_dst_cur {T}.

Section construction.
Context {T : Type} (throws : nat -> option exn).

Definition lift_storage {X} (m : M (mem T) X) : M (objects T) X := fun w =>
  match m (storage w) with
  | Ok s x => Ok (Objects s (calls w)) x
  | Throw s e => Throw (Objects s (calls w)) e
  | Fault => Fault
  | Diverge => Diverge
  end.

Definition lift_objects {X} (m : M (objects T) X) : M (uninitialized_backout T) X := fun h =>
  match m (objs h) with
  | Ok w x => Ok (Backout w (m_dst_first h) (m_dst_cur h)) x
  | Throw w e => Throw (Backout w (m_dst_first h) (m_dst_cur h)) e
  | Fault => Fault
  | Diverge => Diverge
  end.

(** A call of a constructor. *)
Definition try_construct_at (place : ptr) (v : T) : M (objects T) unit :=
  w ← get;
  put (Objects (storage w) (S (calls w)));;
  match throws (calls w) with
  | Some e => throw e
  | None => lift_storage (construct_at place v)
  end.

(** ** [uninitialized_backout] *)

Definition set_dst_cur (p : ptr) : M (uninitialized_backout T) unit :=
  modify (fun h => Backout (objs h) (m_dst_first h) p).

Definition backout_emplace (v : T) : M (uninitialized_backout T) unit :=
  h ← get;
  lift_objects (try_construct_at (m_dst_cur h) v);;
  set_dst_cur (incr (m_dst_cur h)).

(** Without an allocator the position moves on before the constructor is called. *)
Definition backout_default_construct (v : T) : M (uninitialized_backout T) unit :=
  h ← get;
  set_dst_cur (incr (m_dst_cur h));;
  lift_objects (try_construct_at (m_dst_cur h) v).

Definition backout_release : M (uninitialized_backout T) ptr :=
  h ← get; put (Backout (objs h) (m_dst_cur h) (m_dst_cur h));; mret (m_dst_cur h).

(** The destructor: [destroy(m_dst_first, m_dst_cur)]. *)
Definition backout_destroy : M (uninitialized_backout T) unit :=
  h ← get; lift_objects (lift_storage (destroy_n (m_dst_first h) ((m_dst_cur h).2 - (m_dst_first h).2))).

(** A helper is constructed at [dest], does its work and is released; its destructor runs on
    a normal return and when the work throws. *)
Definition with_backout (dest : ptr) (work : M (uninitialized_backout T) unit) : M (objects T) ptr := fun w =>
  match (work;; backout_release) (Backout w dest dest) with
  | Ok h p => match backout_destroy h with Ok h _ => Ok (objs h) p | Throw h e => Throw (objs h) e | Fault => Fault | Diverge => Diverge end
  | Throw h e => match backout_destroy h with Ok h _ => Throw (objs h) e | Throw h e => Throw (objs h) e | Fault => Fault | Diverge => Diverge end
  | Fault => Fault
  | Diverge => Diverge
  end.

(** ** The loops of the helpers *)

Fixpoint emplace_n (first : list T) (count : nat) : M (uninitialized_backout T) unit :=
  match count with
  | O => mret tt
  | S count => v ← access (head first); backout_emplace v;; emplace_n (tail first) count
  end.

(** The source is a range of the buffers; a constructed object has taken its value. *)
Fixpoint move_n (trivial : bool) (first : ptr) (count : nat) : M (uninitialized_backout T) unit :=
  match count with
  | O => mret tt
  | S count =>
      v ← lift_objects (lift_storage (load first));
      backout_emplace v;;
      lift_objects (lift_storage (take_value trivial first));;
      move_n trivial (incr first) count
  end.

(** [for (size_t step = 0; step < count; ++step)]. *)
Fixpoint for_each_step (count : nat) (body : M (uninitialized_backout T) unit) : M (uninitialized_backout T) unit :=
  match count with
  | O => mret tt
  | S count => body;; for_each_step count body
  end.

(** [while (m_dst_cur != last)]. *)
Fixpoint while_before (fuel : nat) (last : ptr) (body : M (uninitialized_backout T) unit)
    : M (uninitialized_backout T) unit :=
  match fuel with
  | O => diverge
  | S fuel =>
      h ← get;
      if decide (m_dst_cur h = last) then mret tt else body;; while_before fuel last body
  end.

Definition helper_fill_n (count : nat) (val : T) := for_each_step count (backout_emplace val).
Definition helper_fill_range (fuel : nat) (last : ptr) (val : T) := while_before fuel last (backout_emplace val).

(** [v] is the value of the object that the constructor without arguments makes. *)
Definition helper_value_construct_n (v : T) (count : nat) := for_each_step count (backout_emplace v).
Definition helper_default_construct (allocator : bool) (v : T) :=
  if allocator then backout_emplace v else backout_default_construct v.
Definition helper_default_construct_n (allocator : bool) (v : T) (count : nat) :=
  for_each_step count (helper_default_construct allocator v).

(** ** The functions *)

Definition uninitialized_copy_n_non_trivial_impl (first : list T) (count : nat) (dest : ptr) : M (objects T) ptr :=
  with_backout dest (emplace_n first count).
Definition uninitialized_move_n_impl (trivial : bool) (first : ptr) (count : nat) (dest : ptr) : M (objects T) ptr :=
  with_backout dest (move_n trivial first count).
Definition uninitialized_fill_impl (first last : ptr) (val : T) : M (objects T) ptr :=
  with_backout first (helper_fill_range (S (last.2 - first.2)) last val).
Definition uninitialized_fill_n_impl (first : ptr) (count : nat) (val : T) : M (objects T) ptr :=
  with_backout first (helper_fill_n count val).
Definition uninitialized_value_construct_n_impl (v : T) (first : ptr) (count : nat) : M (objects T) ptr :=
  with_backout first (helper_value_construct_n v count).
Definition uninitialized_default_construct_n_impl (allocator : bool) (v : T) (first : ptr) (count : nat)
    : M (objects T) ptr := with_backout first (helper_default_construct_n allocator v count).

(** ** Which call throws *)

(** The first of [count] calls from number [n] on that throws. *)
Fixpoint first_throw (n count : nat) : option (nat * exn) :=
  match count with
  | O => None
  | S count =>
      match throws n with
      | Some e => Some (0, e)
      | None => prod_map S id <$> first_throw (S n) count
      end
  end.

Lemma first_throw_Some n count k e :
  first_throw n count = Some (k, e) <->
  k < count /\ throws (n + k) = Some e /\ forall j, j < k -> throws (n + j) = None.
Proof.
  revert n k. induction count as [|count IH]; intros n k; cbn [first_throw]; [split; [done|lia]|].
  destruct (throws n) as [e'|] eqn:En.
  - split.
    + intros [= <- <-]. rewrite Nat.add_0_r. split; [lia|]. split; [done|lia].
    + intros (_ & Hk & Hbefore). destruct k as [|k]; [rewrite Nat.add_0_r in Hk; congruence|].
      specialize (Hbefore 0 ltac:(lia)). rewrite Nat.add_0_r in Hbefore. congruence.
  - rewrite fmap_Some. split.
    + intros ([k' e'] & H & [= -> ->]). apply IH in H as (Hk & He & Hbefore). split; [lia|].
      split; [by rewrite Nat.add_succ_r|]. intros [|j] Hj; [by rewrite Nat.add_0_r|].
      rewrite Nat.add_succ_r. apply (Hbefore j). lia.
    + intros (Hk & He & Hbefore). destruct k as [|k]; [rewrite Nat.add_0_r in He; congruence|].
      exists (k, e). split; [|done]. apply IH. split; [lia|]. rewrite Nat.add_succ_r in He. split; [done|].
      intros j Hj. specialize (Hbefore (S j) ltac:(lia)). by rewrite Nat.add_succ_r in Hbefore.
Qed.
End construction.

Section spec.
Context {T : Type} (throws : nat -> option exn).
Implicit Types (m : mem T) (b : buffer) (pre post : list (slot T)) (vs : list T) (v : T) (n k : nat).

Abbreviation vals vs := (Val <$> vs).
Abbreviation raws n := (replicate n (@Raw T)).
Abbreviation emplace := (backout_emplace throws).

(** ** One object *)

Lemma backout_emplace_ok v b m pre post n first :
  get_buf b m = pre ++ Raw :: post -> throws n = None ->
  emplace v (Backout (Objects m n) first (b, length pre)) =
  Ok (Backout (Objects (set_buf b (pre ++ Val v :: post) m) (S n)) first (b, length (pre ++ [Val v]))) tt.
Proof.
  intros Hm Hn. unfold backout_emplace, lift_objects, try_construct_at, lift_storage, construct_at, mbind, M_bind, get, put. cbn.
  rewrite Hn, (set_slot_at b m pre Raw (Val v) post) by done. cbn. by rewrite length_app.
Qed.

Lemma backout_emplace_throws v b m n first cur e :
  throws n = Some e ->
  emplace v (Backout (Objects m n) first (b, cur)) = Throw (Backout (Objects m (S n)) first (b, cur)) e.
Proof. intros Hn. unfold backout_emplace, lift_objects, try_construct_at, mbind, M_bind, get, put. cbn. by rewrite Hn. Qed.

Lemma backout_default_construct_ok v b m pre post n first :
  get_buf b m = pre ++ Raw :: post -> throws n = None ->
  backout_default_construct throws v (Backout (Objects m n) first (b, length pre)) =
  emplace v (Backout (Objects m n) first (b, length pre)).
Proof.
  intros Hm Hn. rewrite (backout_emplace_ok v b m pre post) by done.
  unfold backout_default_construct, set_dst_cur, modify, lift_objects, try_construct_at, lift_storage, construct_at, mbind, M_bind, get, put. cbn.
  rewrite Hn, (set_slot_at b m pre Raw (Val v) post) by done. cbn. by rewrite length_app.
Qed.

Lemma backout_default_construct_throws v b m n first cur e :
  throws n = Some e ->
  backout_default_construct throws v (Backout (Objects m n) first (b, cur)) =
  Throw (Backout (Objects m (S n)) first (b, S cur)) e.
Proof.
  intros Hn. unfold backout_default_construct, set_dst_cur, modify, lift_objects, try_construct_at, mbind, M_bind, get, put. cbn.
  rewrite Hn. by rewrite incr_pair, Nat.add_1_r.
Qed.

Lemma lift_both_ok {X} (op : M (mem T) X) (h : uninitialized_backout T) m x :
  op (storage (objs h)) = Ok m x ->
  lift_objects (lift_storage op) h = Ok (Backout (Objects m (calls (objs h))) (m_dst_first h) (m_dst_cur h)) x.
Proof. unfold lift_objects, lift_storage. by intros ->. Qed.

(** ** Many objects: every loop emplaces a list of values *)

Fixpoint emplace_all vs : M (uninitialized_backout T) unit :=
  match vs with
  | [] => mret tt
  | v :: vs => emplace v;; emplace_all vs
  end.

Lemma emplace_n_all (src : list T) n h : n <= length src -> emplace_n throws src n h = emplace_all (take n src) h.
Proof.
  revert src h. induction n as [|n IH]; intros [|v src] h Hn; cbn in *; try lia; try done.
  rewrite ret_bind. unfold mbind, M_bind. destruct (emplace v h); try done. apply IH. lia.
Qed.

Lemma for_each_step_all v n h : for_each_step n (emplace v) h = emplace_all (replicate n v) h.
Proof.
  revert h. induction n as [|n IH]; intros h; [done|]. cbn. unfold mbind, M_bind.
  by destruct (emplace v h).
Qed.

Lemma emplace_advances v h h' :
  emplace v h = Ok h' tt -> m_dst_cur h' = incr (m_dst_cur h).
Proof.
  unfold backout_emplace. intros (h1 & h2 & [= <- <-] & (h3 & [] & _ & H)%bind_inv_Ok)%bind_inv_Ok.
  by injection H as <-.
Qed.

Lemma while_before_all v n fuel b i h :
  n < fuel -> m_dst_cur h = (b, i) ->
  while_before fuel (b, i + n) (emplace v) h = emplace_all (replicate n v) h.
Proof.
  revert fuel i h. induction n as [|n IH]; intros [|fuel] i h Hfuel Hh; try lia; cbn [while_before].
  - erewrite bind_Ok by reflexivity. rewrite decide_True by (rewrite Hh; f_equal; lia). done.
  - erewrite bind_Ok by reflexivity. rewrite decide_False by (rewrite Hh; intros [=]; lia).
    cbn [replicate emplace_all]. unfold mbind, M_bind. destruct (emplace v h) as [h' [] | | |] eqn:He; try done.
    rewrite <- (IH fuel (S i)); [f_equal; f_equal; lia|lia|].
    rewrite (emplace_advances _ _ _ He), Hh. unfold incr, shift. f_equal. cbn. lia.
Qed.

Lemma emplace_all_spec vs b m pre post n first :
  get_buf b m = pre ++ raws (length vs) ++ post ->
  emplace_all vs (Backout (Objects m n) first (b, length pre)) =
  match first_throw throws n (length vs) with
  | None => Ok (Backout (Objects (set_buf b (pre ++ vals vs ++ post) m) (n + length vs)) first (b, length pre + length vs)) tt
  | Some (k, e) =>
      Throw (Backout (Objects (set_buf b (pre ++ vals (take k vs) ++ raws (length vs - k) ++ post) m) (S (n + k)))
        first (b, length pre + k)) e
  end.
Proof.
  revert m pre n. induction vs as [|v vs IH]; intros m pre n Hm.
  - cbn in *. rewrite <- Hm, set_get_buf, !Nat.add_0_r. done.
  - cbn [length replicate app emplace_all first_throw] in *. destruct (throws n) as [e|] eqn:Hn.
    + erewrite bind_Throw by (by apply backout_emplace_throws). cbn. rewrite <- Hm, set_get_buf, !Nat.add_0_r. done.
    + erewrite bind_Ok by (by eapply backout_emplace_ok).
      rewrite (IH _ (pre ++ [Val v]) (S n)) by (by rewrite get_set_buf, <- app_assoc).
      destruct (first_throw throws (S n) (length vs)) as [[k e]|]; cbn [fmap option_fmap option_map prod_map fst snd];
        rewrite set_buf_set, length_snoc; f_equal; f_equal; try (f_equal; lia); f_equal; try lia; f_equal; shape.
Qed.

(** ** The helper *)

Lemma backout_destroy_ok b m pre mid post n :
  get_buf b m = pre ++ mid ++ post -> Forall (fun s => is_live s = true) mid ->
  backout_destroy (Backout (Objects m n) (b, length pre) (b, length pre + length mid)) =
  Ok (Backout (Objects (set_buf b (pre ++ raws (length mid) ++ post) m) n) (b, length pre) (b, length pre + length mid)) tt.
Proof.
  intros Hm Hlive. unfold backout_destroy, lift_objects, lift_storage, mbind, M_bind, get. cbn.
  replace (length pre + length mid - length pre) with (length mid) by lia.
  by rewrite (destroy_n_spec mid b m pre post _ _ Hm) by done.
Qed.

(** What a construction of [vs] in raw storage comes to: all of them, or none and the
    exception of the first constructor that throws. *)
Definition all_or_nothing b m pre vs post n : outcome (objects T) ptr :=
  match first_throw throws n (length vs) with
  | None => Ok (Objects (set_buf b (pre ++ vals vs ++ post) m) (n + length vs)) (b, length pre + length vs)
  | Some (k, e) => Throw (Objects m (S (n + k))) e
  end.

Lemma with_backout_spec work vs b m pre post n :
  get_buf b m = pre ++ raws (length vs) ++ post ->
  (forall h, m_dst_cur h = (b, length pre) -> work h = emplace_all vs h) ->
  with_backout (b, length pre) work (Objects m n) = all_or_nothing b m pre vs post n.
Proof.
  intros Hm Hwork. unfold with_backout, all_or_nothing, mbind, M_bind. rewrite Hwork by done.
  rewrite (emplace_all_spec vs b m pre post n _ Hm). destruct (first_throw throws n (length vs)) as [[k e]|] eqn:Hk.
  - apply first_throw_Some in Hk as (Hk & _ & _).
    pose proof (backout_destroy_ok b (set_buf b (pre ++ vals (take k vs) ++ raws (length vs - k) ++ post) m) pre
      (vals (take k vs)) (raws (length vs - k) ++ post) (S (n + k)) (get_set_buf _ _ _) (vals_live _)) as H.
    rewrite length_fmap, length_take, Nat.min_l in H by lia. rewrite H. cbn [objs]. f_equal. f_equal.
    rewrite set_buf_set, app_assoc, app_assoc, <- (app_assoc pre), <- replicate_add.
    replace (k + (length vs - k)) with (length vs) by lia. by rewrite <- app_assoc, <- Hm, set_get_buf.
  - unfold backout_release, backout_destroy, lift_objects, lift_storage, mbind, M_bind, get, put. cbn.
    by rewrite Nat.sub_diag.
Qed.

(** A destruction that comes to raw storage. *)
Lemma destroy_n_raw b m pre mid post :
  get_buf b m = pre ++ mid ++ Raw :: post -> Forall (fun s => is_live s = true) mid ->
  destroy_n (b, length pre) (S (length mid)) m = Fault.
Proof.
  revert m pre. induction mid as [|s mid IH]; intros m pre Hm Hlive.
  - cbn. unfold destroy_at, mbind, M_bind. by rewrite (get_slot_at b m pre Raw post).
  - inversion Hlive as [|? ? Hs Hmid]; subst. cbn [length]. cbn [destroy_n].
    erewrite bind_Ok by (by apply (destroy_at_at b m pre s (mid ++ Raw :: post))).
    rewrite incr_pair, <- (IH (set_buf b (pre ++ Raw :: mid ++ Raw :: post) m) (pre ++ [Raw])) by (by rewrite ?get_set_buf, <- ?app_assoc).
    f_equal. f_equal. by rewrite length_app.
Qed.

(** The loop without an allocator makes progress as the other until a constructor throws;
    then its position is behind raw storage. *)
Lemma default_construct_spec v count b m pre post n first :
  get_buf b m = pre ++ raws count ++ post ->
  for_each_step count (backout_default_construct throws v) (Backout (Objects m n) first (b, length pre)) =
  match first_throw throws n count with
  | None => emplace_all (replicate count v) (Backout (Objects m n) first (b, length pre))
  | Some (k, e) =>
      Throw (Backout (Objects (set_buf b (pre ++ vals (replicate k v) ++ raws (count - k) ++ post) m) (S (n + k)))
        first (b, S (length pre + k))) e
  end.
Proof.
  revert m pre n. induction count as [|count IH]; intros m pre n Hm; [done|].
  cbn [replicate app emplace_all first_throw for_each_step] in *. destruct (throws n) as [e|] eqn:Hn.
  - erewrite bind_Throw by (by apply backout_default_construct_throws). cbn. rewrite <- Hm, set_get_buf, !Nat.add_0_r. done.
  - unfold mbind, M_bind. rewrite (backout_default_construct_ok v b m pre (raws count ++ post)) by done.
    rewrite (backout_emplace_ok v b m pre (raws count ++ post)) by done.
    rewrite (IH _ (pre ++ [Val v]) (S n)) by (by rewrite get_set_buf, <- app_assoc).
    destruct (first_throw throws (S n) count) as [[k e]|]; cbn [fmap option_fmap option_map prod_map fst snd]; [|done].
    rewrite set_buf_set, length_snoc. f_equal. f_equal; try (f_equal; lia). f_equal; try lia. f_equal. shape.
Qed.

(** Moving from one buffer into raw storage of the other. *)
Lemma move_n_spec trivial xs pre post pre' post' n first :
  move_n throws trivial (Blk, length pre) (length xs)
    (Backout (Objects (mkMem (pre ++ vals xs ++ post) (pre' ++ raws (length xs) ++ post')) n) first (Aux, length pre')) =
  match first_throw throws n (length xs) with
  | None => Ok (Backout (Objects (mkMem (pre ++ (left_slot trivial <$> xs) ++ post) (pre' ++ vals xs ++ post')) (n + length xs))
      first (Aux, length pre' + length xs)) tt
  | Some (k, e) =>
      Throw (Backout (Objects (mkMem (pre ++ (left_slot trivial <$> take k xs) ++ vals (drop k xs) ++ post)
        (pre' ++ vals (take k xs) ++ raws (length xs - k) ++ post')) (S (n + k))) first (Aux, length pre' + k)) e
  end.
Proof.
  revert pre pre' n. induction xs as [|x xs IH]; intros pre pre' n; [cbn; by rewrite !Nat.add_0_r|].
  cbn [length replicate first_throw move_n].
  erewrite bind_Ok by (apply lift_both_ok; by apply (load_at Blk _ pre x (vals xs ++ post))). cbn [objs calls m_dst_first m_dst_cur].
  destruct (throws n) as [e|] eqn:Hn.
  - erewrite bind_Throw by (by apply backout_emplace_throws). cbn. by rewrite !Nat.add_0_r.
  - erewrite bind_Ok by (by apply (backout_emplace_ok x Aux _ pre' (raws (length xs) ++ post'))).
    erewrite bind_Ok by (apply lift_both_ok; by apply (take_value_at trivial Blk _ pre x (vals xs ++ post))).
    cbn [objs calls storage m_dst_first m_dst_cur set_buf blk aux]. rewrite incr_pair.
    etrans; [|etrans; [apply (IH (pre ++ [left_slot trivial x]) (pre' ++ [Val x]) (S n))|]].
    + f_equal; [f_equal; by rewrite length_snoc, Nat.add_1_r|]. f_equal. f_equal. f_equal; shape.
    + destruct (first_throw throws (S n) (length xs)) as [[k e]|]; cbn [fmap option_fmap option_map prod_map fst snd];
        rewrite length_snoc; f_equal; f_equal; try (f_equal; lia); f_equal; try lia; f_equal; shape.
Qed.

(** ** Properties *)

(** Constructing objects by default without an allocator constructs all objects when no
    constructor throws; when one throws, the storage behind the constructed objects is
    destroyed as if it held an object. *)
Lemma default_construct_throw_destroys_raw b m pre post n count v :
  get_buf b m = pre ++ raws count ++ post ->
  uninitialized_default_construct_n_impl throws false v (b, length pre) count (Objects m n) =
  match first_throw throws n count with
  | None => Ok (Objects (set_buf b (pre ++ vals (replicate count v) ++ post) m) (n + count)) (b, length pre + count)
  | Some _ => Fault
  end.
Proof.
  intros Hm. unfold uninitialized_default_construct_n_impl, helper_default_construct_n, helper_default_construct.
  destruct (first_throw throws n count) as [[k e]|] eqn:Hk.
  - unfold with_backout. erewrite bind_Throw by (rewrite (default_construct_spec v count b m pre post n) by done; by rewrite Hk).
    apply first_throw_Some in Hk as (Hk & _ & _). unfold backout_destroy, lift_objects, lift_storage, mbind, M_bind, get. cbn [m_dst_first m_dst_cur objs storage snd fst].
    replace (S (length pre + k) - length pre) with (S (length (vals (replicate k v)))) by (len).
    rewrite (destroy_n_raw b _ pre (vals (replicate k v)) (raws (count - S k) ++ post)); [done| |apply vals_live].
    rewrite get_set_buf. by replace (count - k) with (S (count - S k)) by lia.
  - pose proof (with_backout_spec (for_each_step count (backout_emplace throws v)) (replicate count v) b m pre post n) as H.
    unfold all_or_nothing in H. rewrite length_replicate, Hk in H. rewrite <- H; [|done|intros h _; apply for_each_step_all].
    unfold with_backout, mbind, M_bind. rewrite (default_construct_spec v count b m pre post n) by done. rewrite Hk.
    by rewrite for_each_step_all.
Qed.

(** C29: Copying into raw storage, filling it and constructing objects without arguments, with
    constructors that may throw, construct all objects, or none: then the storage is as it
    was, the exception is that of the first constructor that throws and no further
    constructor has been called.  The exception is default construction without an allocator:
    it constructs all objects when no constructor throws, and destroys storage that holds no
    object when one does. *)
Theorem construction_all_or_nothing b m pre post n count (src : list T) v :
  get_buf b m = pre ++ raws count ++ post -> count <= length src ->
  let dest := (b, length pre) in
  let w := Objects m n in
  let result vs := all_or_nothing b m pre vs post n in
  uninitialized_copy_n_non_trivial_impl throws src count dest w = result (take count src) /\
  uninitialized_fill_n_impl throws dest count v w = result (replicate count v) /\
  uninitialized_fill_impl throws dest (b, length pre + count) v w = result (replicate count v) /\
  uninitialized_value_construct_n_impl throws v dest count w = result (replicate count v) /\
  uninitialized_default_construct_n_impl throws true v dest count w = result (replicate count v) /\
  uninitialized_default_construct_n_impl throws false v dest count w =
    (if first_throw throws n count then Fault else result (replicate count v)).
Proof.
  intros Hm Hsrc dest w result.
  assert (forall work, (forall h, m_dst_cur h = (b, length pre) -> work h = emplace_all (replicate count v) h) ->
    with_backout dest work w = result (replicate count v)) as Hfill.
  { intros work Hwork. apply with_backout_spec; [by rewrite length_replicate|done]. }
  split_and!; [|apply Hfill..|].
  - apply with_backout_spec; [by rewrite length_take, Nat.min_l by lia|]. intros h _. by apply emplace_n_all.
  - intros h _. apply for_each_step_all.
  - intros h Hh. cbn [snd dest]. apply while_before_all; [lia|done].
  - intros h _. apply for_each_step_all.
  - intros h _. apply for_each_step_all.
  - unfold dest, w, result, all_or_nothing. rewrite (default_construct_throw_destroys_raw b m pre post n count v Hm).
    rewrite length_replicate. by destruct (first_throw throws n count).
Qed.

(** Moving objects into raw storage with constructors that may throw constructs all
    objects, or leaves the raw storage as it was; the objects before the one whose
    constructor throws have been moved from. *)
Theorem move_construction_basic trivial xs pre post pre' post' n :
  uninitialized_move_n_impl throws trivial (Blk, length pre) (length xs) (Aux, length pre')
    (Objects (mkMem (pre ++ vals xs ++ post) (pre' ++ raws (length xs) ++ post')) n) =
  match first_throw throws n (length xs) with
  | None => Ok (Objects (mkMem (pre ++ (left_slot trivial <$> xs) ++ post) (pre' ++ vals xs ++ post')) (n + length xs))
      (Aux, length pre' + length xs)
  | Some (k, e) =>
      Throw (Objects (mkMem (pre ++ (left_slot trivial <$> take k xs) ++ vals (drop k xs) ++ post)
        (pre' ++ raws (length xs) ++ post')) (S (n + k))) e
  end.
Proof.
  unfold uninitialized_move_n_impl, with_backout, mbind, M_bind. rewrite move_n_spec.
  destruct (first_throw throws n (length xs)) as [[k e]|] eqn:Hk.
  - apply first_throw_Some in Hk as (Hk & _ & _).
    pose proof (backout_destroy_ok Aux (mkMem (pre ++ (left_slot trivial <$> take k xs) ++ vals (drop k xs) ++ post)
      (pre' ++ vals (take k xs) ++ raws (length xs - k) ++ post')) pre' (vals (take k xs)) (raws (length xs - k) ++ post')
      (S (n + k)) eq_refl (vals_live _)) as H.
    rewrite length_fmap, length_take, Nat.min_l in H by lia. rewrite H. cbn [objs set_buf blk aux]. do 3 f_equal.
    rewrite app_assoc, app_assoc, <- (app_assoc pre'), <- replicate_add.
    replace (k + (length xs - k)) with (length xs) by lia. by rewrite <- app_assoc.
  - unfold backout_release, backout_destroy, lift_objects, lift_storage, mbind, M_bind, get, put. cbn.
    by rewrite Nat.sub_diag.
Qed.
End spec.

(** ** Instances *)

(** The third constructor throws. *)
Definition third_throws (n : nat) : option exn := if decide (n = 2) then Some bad_alloc else None.

Lemma construction_all_or_nothing_witness :
  uninitialized_copy_n_non_trivial_impl third_throws [10; 20; 30; 40] 4 (Blk, 0) (Objects (mkMem (replicate 4 Raw) []) 0) =
    Throw (Objects (mkMem (replicate 4 Raw) []) 3) bad_alloc /\
  uninitialized_fill_n_impl third_throws (Blk, 0) 2 5 (Objects (mkMem (replicate 2 Raw) []) 0) =
    Ok (Objects (mkMem [Val 5; Val 5] []) 2) (Blk, 2).
Proof.
  split.
  - refine (eq_trans (proj1 (construction_all_or_nothing third_throws Blk (mkMem (replicate 4 Raw) []) [] [] 0 4 [10; 20; 30; 40] 0 eq_refl _)) _);
      [cbn; lia|by vm_compute].
  - refine (eq_trans (proj1 (proj2 (construction_all_or_nothing third_throws Blk (mkMem (replicate 2 Raw) []) [] [] 0 2 [5; 5] 5 eq_refl _))) _);
      [cbn; lia|by vm_compute].
Defined.

Lemma default_construct_throw_destroys_raw_witness :
  uninitialized_default_construct_n_impl third_throws false 7 (Blk, 0) 4 (Objects (mkMem (replicate 4 Raw) []) 0) = Fault /\
  uninitialized_default_construct_n_impl third_throws false 7 (Blk, 0) 2 (Objects (mkMem (replicate 2 Raw) []) 0) =
    Ok (Objects (mkMem [Val 7; Val 7] []) 2) (Blk, 2).
Proof.
  split.
  - exact (eq_trans (default_construct_throw_destroys_raw third_throws Blk (mkMem (replicate 4 Raw) []) [] [] 0 4 7 eq_refl) eq_refl).
  - exact (eq_trans (default_construct_throw_destroys_raw third_throws Blk (mkMem (replicate 2 Raw) []) [] [] 0 2 7 eq_refl) eq_refl).
Defined.
